(* ===== verification/_CoqProject ===== *)
-Q . S2P
Prelude.v
Concurrency.v
Keccak.v
Sha256.v
Sha256Stream.v
Scalar.v
ScalarSpec.v
Primes.v
Ecdsa.v
EcdsaSpec.v
Hash.v
Rlp.v
Address.v
Mpt.v
Keys.v
Secp.v
Transaction.v
Bloom.v
Receipt.v
State.v
Zk.v
Block.v
Blockchain.v
P2PMessage.v
P2PPeer.v
ZkSeeder.v
DnsSeed.v
P2PNode.v
P2PThreads.v
Miner.v
ServerThreads.v
ChainThreads.v
VmRegistry.v
Cstring.v
JsonLexer.v
JsonParser.v
JsonSerializer.v
JsonUtf8.v
JsonRoundtrip.v
JsonLibrary.v
RpcServer.v
RpcEndToEnd.v
RpcJson.v
WalletCodec.v
Wallet.v
WalletFallback.v
App.v
