(* ===== verification/Prelude.v ===== *)
(** * Gambit Core: a verification development

    Gambit Core is a small blockchain node in C++17: accounts and transfers,
    blocks with a hash commitment in the place of a proof, a peer-to-peer
    layer, a JSON-RPC server, a wallet and a registry of virtual machines.
    This library models the program's own code (src/src, src/include/gambit,
    src/app), the Keccak implementation in src/external/tiny-keccak, the
    parts of the JSON library in src/external/nlohmann that it uses, and of
    libsecp256k1 in src/external/secp256k1 the hashing, the scalars and ECDSA
    above the group operations, as executable definitions and proves what
    makes its parts correct; where the code does not do what it means to, the
    theorem states what it does.

    ** How the code is modelled

    - Integers are [Z] with the wrap-around of their C++ type written out
      ([u8], [u16], [u32], [u64], [i32]); bytes, vectors of bytes and strings
      are lists of [Z] ([Bytes], [std_string]); maps are stdpp's [gmap].
    - A call returns, throws, has undefined behaviour or (a loop given a
      bound) runs out of fuel: the type [res]. A member function that changes
      its object is an [act]: the state it leaves is there also when it
      throws. An index or iterator outside its container is [UB].
    - Clocks, random values, and the outcomes of system calls are arguments.
    - Threads are programs that yield after every access to a shared member
      or every statement; a schedule says whose turn it is. Concurrency.v has
      the machine of threads and a mutex for the chain; the threads of the
      peer-to-peer node, the miner and the RPC server, which also wait for
      one another and for sockets, are step functions of their own, with what
      the network does as moves of the environment. In App.v the threads take
      turns by whole events.
    - Third-party code is a type class with the functions that are called,
      and a class of laws that states what its documentation says:
      [Curve]/[CurveLaws] for the group and [Modinv]/[ModinvLaws] for the
      modular inverses of libsecp256k1 (Ecdsa.v),
      [Socket]/[SocketLaws] (P2PPeer.v), [Crypto]/[CryptoLaws] for OpenSSL (Wallet.v), [StdHash]
      (WalletFallback.v), [FloatLib] for [strtod] and the printing of floats
      (JsonLexer.v), [PluginHost] (VmRegistry.v). Each has a concrete
      instance on which the witnesses evaluate. Three interfaces are between
      parts that are modelled on both sides: [Secp256k1]/[Secp256k1Laws],
      what the program asks of libsecp256k1 (Keys.v), discharged by
      [secp_laws] (Secp.v) from the library's code; [MiningEngine]/[EngineLaws]
      (Miner.v), discharged by [ZkMiningEngine.engine]; and what the RPC
      server asks of the JSON library, [JsonLib]/[JsonLaws] (JsonLibrary.v),
      discharged by [nlohmann].
    - No hash function is assumed collision free: where a theorem needs it,
      its conclusion has the alternative [collision], two explicit inputs
      with the same Keccak-256 digest.

    ** Files, in the order of their dependencies

    - Prelude: integers, bytes, [res], [act], printing, shared lemmas,
      tactics ([res_inv], [to_prop], [z_tests]) and the hint database.
    - Concurrency: threads that share an object and a mutex; what holds of
      those that touch it only under the mutex.
    - Keccak: keccak.cpp, next to the sponge of FIPS 202 ([Spec]).
    - Sha256: hash_impl.h of libsecp256k1, next to FIPS 180-4 and RFC 2104
      ([Fips]); Sha256Stream: that they agree. Scalar: scalar_4x64_impl.h and
      scalar_impl.h; ScalarSpec: their arithmetic. Primes: the group order is
      prime. Ecdsa: ecdsa_impl.h, eckey_impl.h, the recovery module and what
      is called of secp256k1.c; EcdsaSpec: their correctness.
    - Hash: hash.cpp. Rlp: rlp.cpp. Address: address.cpp. Mpt: mpt.cpp.
    - Keys: keys.cpp. Secp: keys.cpp on the library's own code.
      Transaction: transaction.cpp.
    - Bloom: bloom.cpp. Receipt: receipt.cpp, log.hpp.
    - State: state.cpp, account.hpp, genesis.hpp. Zk: zk.cpp. Block: block.cpp.
    - Blockchain: blockchain.cpp, with the relation [step] over its member
      functions and [reachable] from a genesis, and [node_step], which queues
      only transactions that pass their check.
    - P2PMessage, P2PPeer, ZkSeeder, DnsSeed, P2PNode: the files of the same
      names; ZkSeeder also has the client of zk_seeder_client.cpp.
    - P2PThreads: the threads of p2p_node.cpp and p2p_peer.cpp: accepting,
      receiving, broadcasting and stopping, statement by statement.
    - Miner: miner.cpp, mining_engine.hpp, zk_mining_engine.cpp.
    - ServerThreads: start, stop and the threads of miner.cpp
      ([MinerThread]) and rpc_server.cpp ([RpcThreads]).
    - ChainThreads: addTransaction, mineBlock, addBlock and
      validateTransaction as threads run them, one access to a member at a
      time.
    - VmRegistry: vm_registry.cpp, vm_plugin_loader.cpp, zkvm_plugin.cpp,
      vms.hpp.
    - Cstring: what the sources use of the library's string functions.
    - JsonLexer, JsonParser, JsonSerializer: the classes of the same names in
      json.hpp. JsonUtf8: its two UTF-8 decoders. JsonRoundtrip: parsing and
      printing together. JsonLibrary: the library behind its interface.
    - RpcServer: rpc_server.cpp. RpcEndToEnd: the server on the library.
      RpcJson: its quote-searching helpers.
    - WalletCodec: Base64, mnemonics and derivation paths of wallet.cpp.
    - Wallet: the rest of wallet.cpp. WalletFallback: its branches for a
      build without OpenSSL.
    - App: app/main.cpp, and the events of a running node.

    ** What the theorems show

    - Encodings: Keccak-256 is the FIPS sponge ([keccak_256_correct]);
      hexadecimal, RLP, addresses, transactions, messages, Base64, paths and
      HTTP replies read back ([fromHex_spec], [decode_encode],
      [address_hex_roundtrip], [signed_tx_roundtrip], [message_roundtrip],
      [base64_correct], [path_roundtrip], [rpc_framing]); decoders stop
      ([decode_progress]); what is hashed or signed determines what it came
      from, up to collisions ([signingHash_binding], [block_hash_binding],
      [root_binding], [receipt_rlp_binding], [computeTxRoot_binding]).
    - Cryptography: streaming SHA-256, HMAC and the nonces are those of the
      standards ([sha256_streaming], [rfc6979_candidates]); limbs compute
      modulo the order ([scalar_arithmetic], [split_lambda_short]);
      signatures, keys and recovery ([verification_exact],
      [libsecp_keys_correct]).
    - Containers against abstract ones: [trie_refines_map],
      [bloom_refines_set], [registry_refines_map].
    - The ledger: transfers on every branch and conservation of the supply
      ([applyTransaction_spec], [applyTransaction_conserves]); exact
      transaction and block checks ([validateTransaction_exact],
      [addBlock_spec]); mining ([mineBlock_spec]); the invariant of every
      reachable chain ([chain_invariant]).
    - The node: peers' messages, RPC requests, the miner and the main thread
      keep that invariant in any order and queue only checked transactions
      ([onMessage_keeps_invariant], [rpc_total], [node_invariant]); what a
      NEW_TX and an eth_sendRawTransaction lead to ([gossiped_tx_accepted],
      [rpc_send_end_to_end]); start-up, with the other threads at work
      ([parseArgs_exact], [startup_node]); the receive loop
      ([recvLoop_delivers]); the seeder's registry ([registerPeer_spec]).
    - Threads: however the calls that take the chain's mutex interleave, the
      chain is one that atomic calls reach when the mutex is free, no call
      is undefined and no thread is stuck ([interleaved_chain_reachable],
      [chain_calls_alone]); these calls do not race
      ([locked_calls_race_free]); stopping the node, the miner and the RPC
      server joins their threads ([node_stop_quiesces], [miner_stop_joins],
      [rpc_stop_joins]); the node's [stop()] can be completed, unless a peer
      that does not read holds up a broadcast ([node_stop_completes]).
    - JSON: the parser ends on every text with a well-formed value or an
      exception ([parse_total]); parsed values can be printed
      ([parsed_dumps]) and printed ones parse to themselves
      ([json_roundtrip]); lexer and serializer agree on UTF-8
      ([printed_strings_are_read]); requests and replies pass through HTTP
      and JSON unchanged ([rpc_balance_end_to_end], [rpc_send_end_to_end]).
    - The wallet: encryption round trip, exported keys, mnemonic checks
      ([mnemonic_encryption_roundtrip], [exported_key_restores],
      [validateMnemonic_exact]).
    - Flaws, stated as what the code does: [hostile_message_undefined],
      [decode_length_wraps], [decode_undefined_iff],
      [large_chain_id_rejected], [received_hash_differs],
      [block_wire_format], [gossiped_block_ignored], [mined_hash_stale],
      [receipts_root_forgets], [failed_mining_keeps_effects],
      [duplicate_transaction_applied], [miner_never_settles],
      [submitWork_ignores_refusal], [empty_payload_stops_loop],
      [seeder_accepts_own_proof], [rpc_rlp_quantity], [rpc_block_by_number],
      [created_mnemonic_rejected], [wallet_text_binding], [request_fields],
      [rpc_reply_not_json], [unlocked_read_races],
      [departed_peer_kills_node], [departed_peer_leaks_descriptor],
      [unread_send_stalls_stop],
      [failed_bind_spins], [recv_after_close], [second_start_terminates],
      [failed_bind_serves_nobody], [handler_outlives_server],
      [listen_socket_race], [fallback_password_ignored].

    ** Bounds and fuel

    - [decode_at] gives the RLP decoder two units of fuel per input byte and
      two more: every call consumes a byte ([decode_progress] shows that it
      never runs out). [be_push] and the printing loops have the fuel of the
      longest 64-bit number.
    - [recvLoop], the miner's [loop] and [random] take the number of turns;
      the theorems quantify over it or show that it is enough.
    - [JsonParser.parse] gives its loop two turns per character and three
      more, [scan_string] one per character: a token takes at least one
      ([parse_total]; [sax_parse_fuel] shows that more changes nothing).
      [count_digits] and [put_pairs] have the turns of a 64-bit number.
    - [sha256_write_loop] has one turn per byte and one more, [generate_loop]
      one per byte of output and one more: every turn takes at least one.
      [sign_loop] takes the number of nonces to try: [libsecp_keys_correct]
      holds for each number, and more change nothing ([sign_loop_fuel]).
    - [param_loop] has one turn per character of the text
      ([param_search_ends]); [emit_sextets] one per pending bit.
    - Sizes are assumed below 2^63 bytes where the code computes with
      [size_t] (stated as hypotheses), and below 2^31 where it casts to [int].

    ** Not modelled

    - Weak memory: threads interleave. Where the code has a data race, what
      follows is undefined and the theorem only shows the race. In
      ChainThreads.v an access is to a whole container, which only the mutex
      justifies: the unlocked iterations (the miner's template, the getters
      behind the RPC server) are followed sequentially.
    - Allocations that fail, and descriptor numbers that the system gives out
      again.
    - OpenSSL, vendored under src/external, beyond the class above. Of
      libsecp256k1 the field, the group, its multiplications and the
      inversion (the classes [Curve] and [Modinv]), DER, the modules the
      program does not call, and the x86-64 assembly of the scalar product
      (the portable branch is modelled). Of json.hpp the binary formats, pointers and patches,
      pretty printing, comments, iterators, the printing of floats (Grisu2)
      and the texts of its exceptions.
    - [hexToBytes] of wallet.cpp, which has no callers; the Windows branches;
      console output. *)

From stdpp Require Import base list gmap numbers strings.
From Stdlib Require Import ZArith Lia.

#[local] Open Scope Z_scope.

(** ** Machine integers

    A [w]-bit unsigned integer of the C++ code is a [Z] in [0, 2^w); the
    functions below are the conversions (and the wrap-around) of the
    corresponding C++ types. *)

Definition u8 (x : Z) : Z := x mod 2 ^ 8.

Definition u16 (x : Z) : Z := x mod 2 ^ 16.

Definition u32 (x : Z) : Z := x mod 2 ^ 32.

Definition u64 (x : Z) : Z := x mod 2 ^ 64.

Definition is_u8 (x : Z) : Prop := 0 <= x < 256.

Definition is_u32 (x : Z) : Prop := 0 <= x < 2 ^ 32.

Definition is_u64 (x : Z) : Prop := 0 <= x < 2 ^ 64.

#[export] Instance is_u8_dec x : Decision (is_u8 x).
Proof. unfold is_u8. apply _. Defined.

#[export] Instance is_u32_dec x : Decision (is_u32 x).
Proof. unfold is_u32. apply _. Defined.

#[export] Instance is_u64_dec x : Decision (is_u64 x).
Proof. unfold is_u64. apply _. Defined.

(** ** Byte sequences

    [std::vector<std::uint8_t>], [std::array<std::uint8_t, n>] and
    [std::string] are all sequences of 8-bit values: the code converts
    between them element by element. *)

Abbreviation Bytes := (list Z).
Abbreviation std_string := (list Z).

Definition bytes_ok (bs : Bytes) : Prop := Forall is_u8 bs.

#[export] Instance bytes_ok_dec bs : Decision (bytes_ok bs).
Proof. unfold bytes_ok. apply _. Defined.

(** [size()] of a container. *)
Definition zlen {A} (l : list A) : Z := Z.of_nat (length l).

(** A string literal of the source as the sequence of its characters. *)
Fixpoint str (s : string) : std_string :=
  match s with
  | EmptyString => []
  | String c s' => Z.of_N (Ascii.N_of_ascii c) :: str s'
  end.

(** [s.rfind(p, 0) == 0]: [s] starts with [p]. *)
Definition starts_with (p s : std_string) : bool :=
  bool_decide (take (length p) s = p).

(** ** Outcomes

    What a call of the C++ code can do: return, throw an exception (with
    its [what()] text), execute an operation with undefined behaviour, or,
    for a loop that is given a bound on its number of iterations, use the
    bound up. *)

Inductive res (A : Type) : Type :=
| Ok (a : A)
| Throw (what : string)
| UB
| OutOfFuel.

Arguments Ok {A} a.
Arguments Throw {A} what.
Arguments UB {A}.
Arguments OutOfFuel {A}.

#[export] Instance res_ret : MRet res := fun A a => Ok a.

#[export] Instance res_bind : MBind res := fun A B f m =>
  match m with
  | Ok a => f a
  | Throw w => Throw w
  | UB => UB
  | OutOfFuel => OutOfFuel
  end.

#[export] Instance res_fmap : FMap res := fun A B f m => m ≫= (fun a => Ok (f a)).

(** [try { m } catch (...) { h }]. *)
Definition catch_all {A} (m h : res A) : res A :=
  match m with
  | Throw _ => h
  | _ => m
  end.

(** A loop that calls a fallible body on each element and collects. *)
Fixpoint res_map {A B} (f : A -> res B) (l : list A) : res (list B) :=
  match l with
  | [] => Ok []
  | x :: l' => y ← f x; ys ← res_map f l'; Ok (y :: ys)
  end.

(** A member function of an object with state [S]: the state it leaves is
    there also when it throws. *)
Definition act (S A : Type) : Type := S -> S * res A.

Definition act_ret {S A} (a : A) : act S A := fun s => (s, Ok a).

Definition act_bind {S A B} (m : act S A) (f : A -> act S B) : act S B := fun s =>
  match m s with
  | (s', Ok a) => f a s'
  | (s', Throw w) => (s', Throw w)
  | (s', UB) => (s', UB)
  | (s', OutOfFuel) => (s', OutOfFuel)
  end.

(** A call that does not touch the object. *)
Definition act_lift {S A} (r : res A) : act S A := fun s => (s, r).

(** [*this]. *)
Definition act_self {S} : act S S := fun s => (s, Ok s).

Definition act_modify {S} (f : S -> S) : act S unit := fun s => (f s, Ok ()).

(** [try { m } catch (...) {}]. *)
Definition act_catch {S} (m : act S unit) : act S unit := fun s =>
  match m s with
  | (s', Throw _) => (s', Ok ())
  | r => r
  end.

Declare Scope act_scope.
Delimit Scope act_scope with act.
Notation "x <- m ;; k" := (act_bind m (fun x => k))
  (at level 100, m at next level, right associativity) : act_scope.
Notation "m ;; k" := (act_bind m (fun _ => k))
  (at level 100, right associativity) : act_scope.

(** [for (i = 0; i < n; i++) body], the state of the loop passed along. *)
Definition for_range {S} (n : nat) (body : S -> nat -> S) (s : S) : S :=
  foldl body s (seq 0 n).

(** [while (v > 0) { out.insert(out.begin(), v & 0xFF); v >>= 8; }]: the
    big-endian bytes of an unsigned 64-bit [v], pushed in front of [out].
    Eight iterations empty 64 bits ([be_push_bound] below). *)
Fixpoint be_push (fuel : nat) (v : Z) (out : Bytes) : Bytes :=
  match fuel with
  | O => out
  | S f => if v >? 0 then be_push f (Z.shiftr v 8) (Z.land v 0xFF :: out) else out
  end.

Definition be_bytes (v : Z) : Bytes := be_push 8 v [].

(** [for (c : b) v = (v << 8) | c;] on an unsigned 64-bit [v]. *)
Definition be_fold (bs : Bytes) : Z :=
  foldl (fun v c => Z.lor (u64 (Z.shiftl v 8)) c) 0 bs.

(** The number a byte string denotes in base 256. *)
Definition be_val (bs : Bytes) : Z := foldl (fun v c => v * 256 + c) 0 bs.

(** Printing an unsigned integer in base [base], most significant digit
    first, as [std::to_string], [std::hex] streams and ["%llx"] do: at least
    one digit, no leading zero. *)
Definition digit_char (d : Z) : Z := if d <? 10 then 48 + d else 87 + d.

Fixpoint print_loop (base : Z) (fuel : nat) (n : Z) (out : std_string) : std_string :=
  match fuel with
  | O => out
  | S f =>
      let out := digit_char (n mod base) :: out in
      if n / base =? 0 then out else print_loop base f (n / base) out
  end.

(** 64 bits have at most 16 hexadecimal and 20 decimal digits. *)
Definition print_hex (n : Z) : std_string := print_loop 16 16 n [].

Definition print_dec (n : Z) : std_string := print_loop 10 20 n [].

(** [std::to_string(int)]. *)
Definition print_int (n : Z) : std_string := if n <? 0 then 45 :: print_dec (- n) else print_dec n.

(** [std::setw(w)] with [std::setfill('0')]. *)
Definition set_width (w : nat) (s : std_string) : std_string :=
  replicate (w - length s) 48 ++ s.

(** ** Proof automation *)

Create HintDb gambit discriminated.
Create Rewrite HintDb zlen.

Lemma bind_Ok {A B} (m : res A) (f : A -> res B) b :
  m ≫= f = Ok b <-> exists a, m = Ok a /\ f a = Ok b.
Proof. destruct m; cbn; (split; [eauto || discriminate|by intros (? & [= ->] & ?)]). Qed.

Lemma Ok_inj {A} (a b : A) : Ok a = Ok b -> a = b.
Proof. by intros [=]. Qed.

Lemma fmap_Ok {A B} (m : res A) (f : A -> B) b :
  f <$> m = Ok b <-> exists a, m = Ok a /\ b = f a.
Proof.
  destruct m; cbn; (split; [intros [=]; eauto|by intros (? & [= ->] & ->)]).
Qed.

Lemma act_bind_Ok {S A B} (m : act S A) (f : A -> act S B) s s' b :
  act_bind m f s = (s', Ok b) <-> exists s1 a, m s = (s1, Ok a) /\ f a s1 = (s', Ok b).
Proof.
  unfold act_bind. destruct (m s) as [s1 [a|w| |]]; split; try (intros; discriminate).
  - intros H. by exists s1, a.
  - by intros (? & ? & [= <- <-] & ?).
  - by intros (? & ? & [=] & ?).
  - by intros (? & ? & [=] & ?).
  - by intros (? & ? & [=] & ?).
Qed.

(** A call that returns or throws, without undefined behaviour. *)
Definition returns {A} (r : res A) : Prop := (exists a, r = Ok a) \/ exists w, r = Throw w.

Lemma bind_returns {A B} (m : res A) (f : A -> res B) : returns m -> (forall a, returns (f a)) -> returns (m ≫= f).
Proof. intros [[a ->]|[w ->]] F; [apply F|]. right. by eexists. Qed.

Lemma Ok_returns {A} (a : A) : returns (Ok a).
Proof. left. by eexists. Qed.

Lemma res_map_Ok {A B} (f : A -> res B) (g : A -> B) l :
  Forall (fun x => f x = Ok (g x)) l -> res_map f l = Ok (g <$> l).
Proof. induction 1 as [|x l E F IH]; [done|]. cbn [res_map]. rewrite E, IH. done. Qed.

(** Invert a successful sequence of calls into its steps. *)
Ltac res_inv :=
  repeat match goal with
  | H : _ ≫= _ = Ok _ |- _ =>
      apply bind_Ok in H; let x := fresh "x" in let E := fresh "E" in
      destruct H as (x & E & H); try (destruct x; [])
  | H : Ok _ = Ok _ |- _ => injection H; clear H; intros; subst
  | H : Throw _ = Ok _ |- _ => discriminate H
  | H : UB = Ok _ |- _ => discriminate H
  | H : OutOfFuel = Ok _ |- _ => discriminate H
  | H : (if ?b then _ else _) = Ok _ |- _ =>
      let E := fresh "E" in destruct b eqn:E
  end.

(** Turn boolean tests on [Z] into propositions. *)
Ltac to_prop :=
  repeat match goal with
  | H : (_ && _) = true |- _ => apply andb_true_iff in H as [? ?]
  | H : (_ || _) = false |- _ => apply orb_false_iff in H as [? ?]
  | H : (_ <? _) = true |- _ => apply Z.ltb_lt in H
  | H : (_ <? _) = false |- _ => apply Z.ltb_ge in H
  | H : (_ <=? _) = true |- _ => apply Z.leb_le in H
  | H : (_ <=? _) = false |- _ => apply Z.leb_gt in H
  | H : (_ >? _) = true |- _ => rewrite Z.gtb_ltb in H; apply Z.ltb_lt in H
  | H : (_ >? _) = false |- _ => rewrite Z.gtb_ltb in H; apply Z.ltb_ge in H
  | H : (_ >=? _) = true |- _ => rewrite Z.geb_leb in H; apply Z.leb_le in H
  | H : (_ >=? _) = false |- _ => rewrite Z.geb_leb in H; apply Z.leb_gt in H
  | H : (_ =? _) = true |- _ => apply Z.eqb_eq in H
  | H : (_ =? _) = false |- _ => apply Z.eqb_neq in H
  | H : negb _ = true |- _ => apply negb_true_iff in H
  | H : negb _ = false |- _ => apply negb_false_iff in H
  end.

(** Decide the boolean tests of the goal from the arithmetic context. *)
Ltac z_tests :=
  repeat match goal with
  | |- context [?x <? ?y] =>
      first [ replace (x <? y) with true by (symmetry; apply Z.ltb_lt; lia)
            | replace (x <? y) with false by (symmetry; apply Z.ltb_ge; lia) ]
  | |- context [?x <=? ?y] =>
      first [ replace (x <=? y) with true by (symmetry; apply Z.leb_le; lia)
            | replace (x <=? y) with false by (symmetry; apply Z.leb_gt; lia) ]
  | |- context [?x >? ?y] =>
      first [ replace (x >? y) with true by (symmetry; rewrite Z.gtb_ltb; apply Z.ltb_lt; lia)
            | replace (x >? y) with false by (symmetry; rewrite Z.gtb_ltb; apply Z.ltb_ge; lia) ]
  | |- context [?x >=? ?y] =>
      first [ replace (x >=? y) with true by (symmetry; rewrite Z.geb_leb; apply Z.leb_le; lia)
            | replace (x >=? y) with false by (symmetry; rewrite Z.geb_leb; apply Z.leb_gt; lia) ]
  | |- context [?x =? ?y] =>
      first [ replace (x =? y) with true by (symmetry; apply Z.eqb_eq; lia)
            | replace (x =? y) with false by (symmetry; apply Z.eqb_neq; lia) ]
  end.

(** ** Generic lemmas: integers *)

Lemma u8_range x : is_u8 (u8 x).
Proof. apply Z.mod_pos_bound. lia. Qed.

Lemma u32_range x : is_u32 (u32 x).
Proof. apply Z.mod_pos_bound. lia. Qed.

Lemma u64_range x : is_u64 (u64 x).
Proof. apply Z.mod_pos_bound. lia. Qed.

Lemma u8_id x : is_u8 x -> u8 x = x.
Proof. intros H. apply Z.mod_small. exact H. Qed.

Lemma u32_id x : is_u32 x -> u32 x = x.
Proof. intros H. apply Z.mod_small. exact H. Qed.

Lemma u64_id x : is_u64 x -> u64 x = x.
Proof. intros H. apply Z.mod_small. exact H. Qed.

Lemma land_255 x : Z.land x 0xFF = x mod 256.
Proof. change 0xFF with (Z.ones 8). rewrite Z.land_ones; [reflexivity|lia]. Qed.

Lemma land_15 x : Z.land x 0x0F = x mod 16.
Proof. change 0x0F with (Z.ones 4). rewrite Z.land_ones; [reflexivity|lia]. Qed.

Lemma shiftr_8 x : Z.shiftr x 8 = x / 256.
Proof. rewrite Z.shiftr_div_pow2; [reflexivity|lia]. Qed.

Lemma shiftr_4 x : Z.shiftr x 4 = x / 16.
Proof. rewrite Z.shiftr_div_pow2; [reflexivity|lia]. Qed.

(** An [or] of a shifted value with a smaller one is an addition. *)
Lemma lor_shiftl_add x y n :
  0 <= n -> 0 <= y < 2 ^ n -> Z.lor (Z.shiftl x n) y = x * 2 ^ n + y.
Proof.
  intros Hn Hy.
  assert (Hd : Z.land (Z.shiftl x n) y = 0).
  { apply Z.bits_inj'. intros i Hi. rewrite Z.land_spec, Z.bits_0.
    destruct (Z.lt_ge_cases i n).
    - rewrite Z.shiftl_spec_low by lia. reflexivity.
    - rewrite <- (Z.mod_small y (2 ^ n)) by lia.
      rewrite Z.mod_pow2_bits_high by lia. apply andb_false_r. }
  pose proof (Z.add_lor_land (Z.shiftl x n) y) as E.
  rewrite Hd in E. rewrite Z.shiftl_mul_pow2 in * by lia. lia.
Qed.

(** A bound on bits from a bound on the value, and back. *)
Lemma testbit_high x n i : 0 <= x < 2 ^ n -> n <= i -> Z.testbit x i = false.
Proof.
  intros Hx Hi. destruct (Z.lt_ge_cases n 0).
  { rewrite Z.pow_neg_r in Hx; lia. }
  rewrite <- (Z.mod_small x (2 ^ n)) by lia. apply Z.mod_pow2_bits_high. lia.
Qed.

Lemma bits_bound x n :
  0 <= n -> (forall i, n <= i -> Z.testbit x i = false) -> 0 <= x < 2 ^ n.
Proof.
  intros Hn H.
  assert (E : x = x mod 2 ^ n).
  { apply Z.bits_inj'. intros i Hi. destruct (Z.lt_ge_cases i n).
    - rewrite Z.mod_pow2_bits_low; [done|lia].
    - rewrite Z.mod_pow2_bits_high by lia. auto. }
  rewrite E. apply Z.mod_pos_bound. lia.
Qed.

Lemma lor_bound x y n : 0 <= n -> 0 <= x < 2 ^ n -> 0 <= y < 2 ^ n -> 0 <= Z.lor x y < 2 ^ n.
Proof.
  intros Hn Hx Hy. apply bits_bound; [lia|]. intros i Hi.
  rewrite Z.lor_spec, (testbit_high x n), (testbit_high y n); [done|lia..].
Qed.

Lemma lxor_bound x y n : 0 <= n -> 0 <= x < 2 ^ n -> 0 <= y < 2 ^ n -> 0 <= Z.lxor x y < 2 ^ n.
Proof.
  intros Hn Hx Hy. apply bits_bound; [lia|]. intros i Hi.
  rewrite Z.lxor_spec, (testbit_high x n), (testbit_high y n); [done|lia..].
Qed.

Lemma land_bound x y n : 0 <= n -> 0 <= y < 2 ^ n -> 0 <= Z.land x y < 2 ^ n.
Proof.
  intros Hn Hy. apply bits_bound; [lia|]. intros i Hi.
  rewrite Z.land_spec, (testbit_high y n); [apply andb_false_r|lia..].
Qed.

(** ** Generic lemmas: byte sequences *)

Lemma zlen_nil : zlen (@nil Z) = 0.
Proof. reflexivity. Qed.

Lemma zlen_cons {A} (x : A) l : zlen (x :: l) = zlen l + 1.
Proof. unfold zlen. cbn [length]. lia. Qed.

Lemma zlen_app {A} (l1 l2 : list A) : zlen (l1 ++ l2) = zlen l1 + zlen l2.
Proof. unfold zlen. rewrite length_app. lia. Qed.

Lemma zlen_nonneg {A} (l : list A) : 0 <= zlen l.
Proof. unfold zlen. lia. Qed.

Lemma zlen_to_nat {A} (l : list A) : Z.to_nat (zlen l) = length l.
Proof. unfold zlen. lia. Qed.

#[export] Hint Rewrite zlen_nil @zlen_cons @zlen_app @zlen_to_nat : zlen.

Lemma bytes_ok_nil : bytes_ok [].
Proof. constructor. Qed.

Lemma bytes_ok_cons b bs : bytes_ok (b :: bs) <-> is_u8 b /\ bytes_ok bs.
Proof. apply Forall_cons. Qed.

Lemma bytes_ok_app b1 b2 : bytes_ok (b1 ++ b2) <-> bytes_ok b1 /\ bytes_ok b2.
Proof. apply Forall_app. Qed.

Lemma bytes_ok_take n bs : bytes_ok bs -> bytes_ok (take n bs).
Proof. apply Forall_take. Qed.

Lemma bytes_ok_drop n bs : bytes_ok bs -> bytes_ok (drop n bs).
Proof. apply Forall_drop. Qed.

Lemma bytes_ok_concat bss : bytes_ok (concat bss) <-> Forall bytes_ok bss.
Proof.
  induction bss as [|b bss IH]; cbn; [split; constructor|].
  rewrite bytes_ok_app, Forall_cons, IH. done.
Qed.

Lemma bytes_ok_str s : bytes_ok (str s).
Proof.
  induction s as [|c s IH]; cbn; [constructor|]. constructor; [|done].
  pose proof (Ascii.N_ascii_bounded c). unfold is_u8. lia.
Qed.

#[export] Hint Resolve bytes_ok_nil bytes_ok_take bytes_ok_drop bytes_ok_str : gambit.

(** Cutting a concatenation at its seam. *)
Lemma take_seam {A} (l1 l2 : list A) : take (length l1) (l1 ++ l2) = l1.
Proof. apply take_app_length. Qed.

Lemma drop_seam {A} (l1 l2 : list A) : drop (length l1) (l1 ++ l2) = l2.
Proof. apply drop_app_length. Qed.

Lemma starts_with_app p s : starts_with p (p ++ s) = true.
Proof. apply bool_decide_eq_true. apply take_seam. Qed.

(** ** Generic lemmas: big-endian integers *)

Lemma be_val_snoc bs b : be_val (bs ++ [b]) = be_val bs * 256 + b.
Proof. unfold be_val. by rewrite foldl_app. Qed.

Lemma be_val_bound bs : bytes_ok bs -> 0 <= be_val bs < 256 ^ zlen bs.
Proof.
  induction bs as [|b bs IH] using rev_ind; intros H; [by split|].
  apply bytes_ok_app in H as [H1 H2]. apply bytes_ok_cons in H2 as [[? ?] _].
  specialize (IH H1). rewrite be_val_snoc, zlen_app, zlen_cons, zlen_nil.
  rewrite Z.add_0_l, Z.pow_add_r, Z.pow_1_r by (pose proof (zlen_nonneg bs); lia). lia.
Qed.

Lemma be_val_cons b bs : be_val (b :: bs) = b * 256 ^ zlen bs + be_val bs.
Proof.
  revert b. induction bs as [|c bs IH] using rev_ind; intros b; [unfold be_val; rewrite zlen_nil; cbn [foldl]; lia|].
  rewrite app_comm_cons, !be_val_snoc, IH, zlen_app, zlen_cons, zlen_nil.
  rewrite Z.add_0_l, Z.pow_add_r, Z.pow_1_r by (pose proof (zlen_nonneg bs); lia). lia.
Qed.

Lemma be_fold_val bs : bytes_ok bs -> zlen bs <= 8 -> be_fold bs = be_val bs.
Proof.
  induction bs as [|b bs IH] using rev_ind; intros H Hl; [done|].
  apply bytes_ok_app in H as [H1 H2]. apply bytes_ok_cons in H2 as [Hb _].
  rewrite zlen_app, zlen_cons, zlen_nil in Hl.
  unfold be_fold in *. rewrite foldl_app. cbn [foldl]. rewrite IH, be_val_snoc by (done || lia).
  pose proof (be_val_bound bs H1) as B.
  assert (256 ^ zlen bs <= 256 ^ 7) by (apply Z.pow_le_mono_r; lia).
  rewrite u64_id; [apply (lor_shiftl_add _ _ 8); [lia|exact Hb]|].
  rewrite Z.shiftl_mul_pow2 by lia. unfold is_u64.
  change (256 ^ 7) with (2 ^ 56) in *. lia.
Qed.

Lemma be_push_acc f v out : be_push f v out = be_push f v [] ++ out.
Proof.
  revert v out. induction f as [|f IH]; intros v out; cbn; [done|].
  destruct (v >? 0); [|done].
  rewrite IH, (IH _ [_]), <- app_assoc. done.
Qed.

Lemma be_push_step f v :
  0 < v -> be_push (S f) v [] = be_push f (v / 256) [] ++ [v mod 256].
Proof.
  intros H. cbn [be_push]. z_tests. by rewrite be_push_acc, land_255, shiftr_8.
Qed.

(** The loop's iterations: [n] of them write a value below [256 ^ n] in
    full, with no leading zero byte. *)
Lemma be_push_bound n v :
  0 <= v < 256 ^ Z.of_nat n ->
  be_val (be_push n v []) = v /\ bytes_ok (be_push n v []) /\
  zlen (be_push n v []) <= Z.of_nat n /\ (head (be_push n v []) <> Some 0).
Proof.
  revert v. induction n as [|n IH]; intros v Hv.
  { change (256 ^ Z.of_nat 0) with 1 in Hv. assert (v = 0) as -> by lia.
    cbn. repeat split; (constructor || lia || done). }
  destruct (Z.eq_dec v 0) as [->|Hn].
  { cbn. repeat split; (constructor || lia || done). }
  rewrite be_push_step by lia.
  rewrite Nat2Z.inj_succ, Z.pow_succ_r in Hv by lia.
  destruct (IH (v / 256)) as (IV & IB & IL & IH'); [split; [apply Z.div_pos; lia|apply Z.div_lt_upper_bound; lia]|].
  rewrite be_val_snoc, IV, zlen_app, zlen_cons, zlen_nil. repeat split.
  - rewrite (Z.div_mod v 256) at 3; lia.
  - apply bytes_ok_app. split; [done|]. repeat constructor; apply Z.mod_pos_bound; lia.
  - lia.
  - destruct (be_push n (v / 256) []) eqn:E; [|done].
    cbn in IV |- *. assert (v < 256) by (symmetry in IV; apply Z.div_small_iff in IV; lia).
    rewrite Z.mod_small by lia. congruence.
Qed.

Lemma be_bytes_spec v :
  is_u64 v ->
  be_val (be_bytes v) = v /\ bytes_ok (be_bytes v) /\
  zlen (be_bytes v) <= 8 /\ head (be_bytes v) <> Some 0.
Proof. intros H. apply (be_push_bound 8). exact H. Qed.

Lemma be_fold_bytes v : is_u64 v -> be_fold (be_bytes v) = v.
Proof.
  intros H. destruct (be_bytes_spec v H) as (E & B & L & _).
  rewrite be_fold_val; done.
Qed.

Lemma be_bytes_nonempty v : 0 < v -> be_bytes v <> [].
Proof.
  intros H. unfold be_bytes. rewrite be_push_step by done.
  intros E. apply app_eq_nil in E as [_ E]. discriminate.
Qed.

(** ** Generic lemmas: printed integers *)

(** The value of a digit sequence, read as the parser of an integer would. *)
Definition digit_of (c : Z) : Z := if c <? 58 then c - 48 else c - 87.

Definition digits_val (base : Z) (s : std_string) : Z := foldl (fun v c => v * base + digit_of c) 0 s.

Lemma digits_val_acc base s v :
  foldl (fun v c => v * base + digit_of c) v s = v * base ^ zlen s + digits_val base s.
Proof.
  unfold digits_val. revert v. induction s as [|c s IH]; intros v; cbn [foldl].
  - rewrite zlen_nil. lia.
  - rewrite IH, (IH (0 * base + _)), zlen_cons, Z.pow_add_r, Z.pow_1_r by (pose proof (zlen_nonneg s); lia). lia.
Qed.

Lemma digit_of_char d : 0 <= d < 16 -> digit_of (digit_char d) = d.
Proof. intros H. unfold digit_char, digit_of. destruct (d <? 10) eqn:E; to_prop; z_tests; lia. Qed.

(** [n] iterations print a number of at most [n] digits. *)
Lemma print_loop_val base fuel n out :
  2 <= base <= 16 -> 0 <= n < base ^ Z.of_nat fuel ->
  digits_val base (print_loop base fuel n out) = n * base ^ zlen out + digits_val base out.
Proof.
  intros Hb. revert n out. induction fuel as [|f IH]; intros n out Hn.
  { change (Z.of_nat 0) with 0 in Hn. rewrite Z.pow_0_r in Hn. assert (n = 0) as -> by lia. cbn [print_loop]. lia. }
  pose proof (Z.div_mod n base ltac:(lia)) as D. pose proof (Z.mod_pos_bound n base ltac:(lia)) as M.
  assert (Eo : digits_val base (digit_char (n mod base) :: out) = n mod base * base ^ zlen out + digits_val base out).
  { unfold digits_val at 1. cbn [foldl]. rewrite digits_val_acc, digit_of_char by lia. lia. }
  cbn [print_loop]. destruct (n / base =? 0) eqn:E; to_prop.
  - rewrite Eo. replace (n mod base) with n by lia. done.
  - rewrite Nat2Z.inj_succ, Z.pow_succ_r in Hn by lia.
    rewrite IH by (split; [apply Z.div_pos; lia|apply Z.div_lt_upper_bound; lia]).
    rewrite Eo, zlen_cons, Z.pow_add_r, Z.pow_1_r by (pose proof (zlen_nonneg out); lia). nia.
Qed.

Lemma print_dec_inj n m : is_u64 n -> is_u64 m -> print_dec n = print_dec m -> n = m.
Proof.
  intros Hn Hm E. apply (f_equal (digits_val 10)) in E. unfold print_dec, is_u64 in *.
  rewrite !print_loop_val in E by (cbn; lia). rewrite zlen_nil in E. lia.
Qed.

Lemma print_loop_chars base fuel n out P :
  0 < base -> (forall d, 0 <= d < base -> P (digit_char d)) -> Forall P out -> Forall P (print_loop base fuel n out).
Proof.
  intros Hb HP. revert n out. induction fuel as [|f IH]; intros n out O; cbn [print_loop]; [done|].
  assert (O' : Forall P (digit_char (n mod base) :: out)).
  { constructor; [|done]. apply HP, Z.mod_pos_bound. lia. }
  destruct (_ =? _); [done|]. by apply IH.
Qed.

Lemma print_dec_digits n : Forall (fun c => 48 <= c <= 57) (print_dec n).
Proof.
  apply print_loop_chars; [lia| |constructor]. intros d Hd. unfold digit_char. z_tests. lia.
Qed.

(** ** Generic lemmas: fields joined by a separator *)

Definition free_of (sep : Z) (s : std_string) : Prop := Forall (fun c => c <> sep) s.

#[export] Instance free_of_dec sep s : Decision (free_of sep s).
Proof. unfold free_of. apply _. Defined.

Lemma free_of_app sep s t : free_of sep (s ++ t) <-> free_of sep s /\ free_of sep t.
Proof. apply Forall_app. Qed.

Lemma split_sep sep (s s' t t' : std_string) :
  free_of sep s -> free_of sep s' -> s ++ sep :: t = s' ++ sep :: t' -> s = s' /\ t = t'.
Proof.
  intros F. revert s'. induction F as [|c s Hc F IH]; intros [|c' s'] F' E; cbn in E.
  - by injection E.
  - injection E as <- _. by apply Forall_cons in F' as [? _].
  - by injection E as -> _.
  - apply Forall_cons in F' as [_ F']. injection E as -> E. by apply IH in E as [-> ->].
Qed.

Lemma print_dec_free n : free_of 124 (print_dec n).
Proof. apply (Forall_impl _ _ _ (print_dec_digits n)). lia. Qed.
