(* ===== verification/Concurrency.v ===== *)
(** * Threads and a mutex (std::thread, std::mutex, std::lock_guard)

    What the C++ standard says of several threads that work on one object
    with a mutex, for the objects of the program that have one. A thread is
    a sequence of single accesses to members of the object, of lockings and
    of unlockings ([prog]); the machine lets one thread take one step at a
    time ([step_thread]). Two results are shared by the components:
    accesses made under the mutex never race ([guarded_race_free]), and what
    the object looks like whenever the mutex is free is what the critical
    sections, run one after the other, make of it ([guarded_invariant]). *)

From stdpp Require Import base list numbers.
From Stdlib Require Import Lia.
From S2P Require Import Prelude.

Section Machine.
Context {S M A : Type}.

#[local] Unset Elimination Schemes.

(** A thread on an object with state [S] and members [M] that ends with a
    value of type [A]. An access is to one member, and writes it or not. *)
Inductive prog : Type :=
| Ret (a : A)
| Access (m : M) (write : bool) (f : S -> S * prog)
| Lock (k : prog)
| Unlock (k : prog).

#[local] Set Elimination Schemes.

Lemma prog_induction (P : prog -> Prop) :
  (forall a, P (Ret a)) ->
  (forall m w f, (forall s, P (f s).2) -> P (Access m w f)) ->
  (forall k, P k -> P (Lock k)) -> (forall k, P k -> P (Unlock k)) ->
  forall p, P p.
Proof.
  intros HR HA HL HU. fix go 1. intros [a|m w f|k|k]; [apply HR| |apply HL, go|apply HU, go].
  apply HA. intros s. destruct (f s) as [s' k]. apply go.
Qed.

(** The threads, the object and the holder of its mutex. *)
Record config : Type := mkConfigT {
  shared : S;
  holder : option nat;
  threads : list prog;
}.

(** One step of thread [t]; [None] when it has ended or has to wait. *)
Definition step_thread (t : nat) (c : config) : option config :=
  match threads c !! t with
  | Some (Access m w f) =>
      let (s', k) := f (shared c) in Some (mkConfigT s' (holder c) (<[t := k]> (threads c)))
  | Some (Lock k) =>
      match holder c with
      | None => Some (mkConfigT (shared c) (Some t) (<[t := k]> (threads c)))
      | Some _ => None
      end
  | Some (Unlock k) =>
      if bool_decide (holder c = Some t) then Some (mkConfigT (shared c) None (<[t := k]> (threads c))) else None
  | _ => None
  end.

(** The schedule says which thread goes next. *)
Fixpoint run_schedule (ts : list nat) (c : config) : option config :=
  match ts with
  | [] => Some c
  | t :: ts => match step_thread t c with Some c' => run_schedule ts c' | None => None end
  end.

Definition initial (s : S) (ps : list prog) : config := mkConfigT s None ps.

(** Two threads are about to touch the same member, and one of them writes:
    a data race, which is undefined behaviour. *)
Definition racy (c : config) : Prop :=
  exists t1 t2 m w1 w2 f1 f2,
    t1 <> t2 /\ threads c !! t1 = Some (Access m w1 f1) /\ threads c !! t2 = Some (Access m w2 f2) /\
    w1 || w2 = true.

(** ** Reading a thread sequentially *)

(** The thread alone, with the mutex ignored. *)
Fixpoint run_alone (p : prog) (s : S) : S * A :=
  match p with
  | Ret a => (s, a)
  | Access m w f => match f s with (s', k) => run_alone k s' end
  | Lock k => run_alone k s
  | Unlock k => run_alone k s
  end.

(** ** Discipline *)

(** Every access is made with the mutex held; [inside] says whether it is. *)
Fixpoint guarded (inside : bool) (p : prog) : Prop :=
  match p with
  | Ret _ => inside = false
  | Access m w f => inside = true /\ forall s, match f s with (_, k) => guarded true k end
  | Lock k => inside = false /\ guarded true k
  | Unlock k => inside = true /\ guarded false k
  end.

(** Each critical section, run from a state with [Inv], ends in one, whatever
    it throws; the thread ends with a value that satisfies [Q]. Outside the
    sections there are reads only, and what is read does not matter. [own] is
    the object as the thread has it in its own section. *)
Fixpoint keeps (Inv : S -> Prop) (Q : A -> Prop) (own : option S) (p : prog) : Prop :=
  match p with
  | Ret a => own = None /\ Q a
  | Access m w f =>
      match own with
      | Some s => match f s with (s', k) => keeps Inv Q (Some s') k end
      | None => w = false /\ forall s, match f s with (s', k) => s' = s /\ keeps Inv Q None k end
      end
  | Lock k => own = None /\ forall s, Inv s -> keeps Inv Q (Some s) k
  | Unlock k => (exists s, own = Some s /\ Inv s) /\ keeps Inv Q None k
  end.

Definition holds (c : config) (t : nat) : bool := bool_decide (holder c = Some t).

(** ** Race freedom *)

Lemma guarded_step t c c' :
  (forall u p, threads c !! u = Some p -> guarded (holds c u) p) -> step_thread t c = Some c' ->
  forall u p, threads c' !! u = Some p -> guarded (holds c' u) p.
Proof.
  intros G E u p L. unfold step_thread in E. destruct (threads c !! t) as [[a|m w f|k|k]|] eqn:Et; try done.
  - pose proof (G t _ Et) as [H F]. specialize (F (shared c)). destruct (f (shared c)) as [s' k] eqn:Ef.
    injection E as <-. cbn in *. unfold holds in *. cbn in *. apply list_lookup_insert_Some in L as [(<- & <- & _)|(N & L)].
    + by rewrite H.
    + by apply G.
  - pose proof (G t _ Et) as [H F]. destruct (holder c) as [h|] eqn:Eh; [done|]. injection E as <-.
    unfold holds in *. cbn in *. apply list_lookup_insert_Some in L as [(<- & <- & _)|(N & L)].
    + by rewrite bool_decide_true.
    + specialize (G u p L). rewrite Eh in G. rewrite bool_decide_false in G |- * by congruence. done.
  - pose proof (G t _ Et) as [H F]. case_bool_decide as Eh; [|done]. injection E as <-.
    unfold holds in *. cbn in *. apply list_lookup_insert_Some in L as [(<- & <- & _)|(N & L)].
    + by rewrite bool_decide_false.
    + specialize (G u p L). rewrite Eh in G. rewrite bool_decide_false in G |- * by congruence. done.
Qed.

Lemma guarded_run ts : forall c c',
  (forall u p, threads c !! u = Some p -> guarded (holds c u) p) -> run_schedule ts c = Some c' ->
  forall u p, threads c' !! u = Some p -> guarded (holds c' u) p.
Proof.
  induction ts as [|t ts IH]; intros c c' G E; cbn in E; [by injection E as <-|].
  destruct (step_thread t c) as [c1|] eqn:E1; [|done]. eapply IH; [|exact E]. by eapply guarded_step.
Qed.

(** Threads that touch the object only under its mutex never race. *)
Lemma guarded_race_free s ps ts c :
  Forall (guarded false) ps -> run_schedule ts (initial s ps) = Some c -> ~ racy c.
Proof.
  intros G E (t1 & t2 & m & w1 & w2 & f1 & f2 & N & L1 & L2 & _).
  assert (G' : forall u p, threads c !! u = Some p -> guarded (holds c u) p).
  { eapply guarded_run; [|exact E]. intros u p L. unfold holds. cbn. rewrite bool_decide_false by done.
    rewrite Forall_lookup in G. by apply (G u). }
  destruct (G' _ _ L1) as [H1 _], (G' _ _ L2) as [H2 _].
  unfold holds in H1, H2. apply bool_decide_eq_true in H1, H2. congruence.
Qed.

(** ** The invariant behind the mutex *)

(** The object, in the hands of the thread that holds the mutex. *)
Definition owned (c : config) (t : nat) : option S := if holds c t then Some (shared c) else None.

Record config_keeps (Inv : S -> Prop) (Q : A -> Prop) (c : config) : Prop := {
  ck_threads u p : threads c !! u = Some p -> keeps Inv Q (owned c u) p;
  ck_free : holder c = None -> Inv (shared c);
  ck_holder h : holder c = Some h -> (h < length (threads c))%nat;
}.

Lemma owned_some c t : holder c = Some t -> owned c t = Some (shared c).
Proof. intros H. unfold owned, holds. by rewrite bool_decide_true. Qed.

Lemma owned_none c t : holder c <> Some t -> owned c t = None.
Proof. intros H. unfold owned, holds. by rewrite bool_decide_false. Qed.

Lemma lookup_own {X} (l : list X) t (x y : X) : l !! t = Some x -> <[t := y]> l !! t = Some y.
Proof. intros L. apply list_lookup_insert_eq. by eapply lookup_lt_Some. Qed.

(** A step of thread [t] is a step of [t] alone: to the others the object
    looks as before. *)
Lemma config_keeps_update Inv Q c t p k s' h :
  config_keeps Inv Q c -> threads c !! t = Some p ->
  keeps Inv Q (owned (mkConfigT s' h (<[t := k]> (threads c))) t) k ->
  (forall u, u <> t -> owned (mkConfigT s' h (<[t := k]> (threads c))) u = owned c u) ->
  (h = None -> Inv s') -> (forall u, h = Some u -> u = t \/ holder c = Some u) ->
  config_keeps Inv Q (mkConfigT s' h (<[t := k]> (threads c))).
Proof.
  intros [K _ O] L Kk U F H. split; cbn; [|done|].
  - intros u q Lq. apply list_lookup_insert_Some in Lq as [(<- & <- & _)|(N & Lq)]; [done|]. rewrite U by done. by apply K.
  - intros u E. rewrite length_insert. destruct (H u E) as [->|E']; [by eapply lookup_lt_Some|by apply O].
Qed.

Lemma keeps_step Inv Q t c c' : config_keeps Inv Q c -> step_thread t c = Some c' -> config_keeps Inv Q c'.
Proof.
  intros CK E. pose proof (ck_threads _ _ _ CK t) as Kt. unfold step_thread in E.
  destruct (threads c !! t) as [[a|m w f|k|k]|] eqn:Et; try done; specialize (Kt _ eq_refl); cbn in Kt.
  - destruct (decide (holder c = Some t)) as [Eh|Nh].
    + rewrite owned_some in Kt by done. destruct (f (shared c)) as [s' k]. injection E as <-.
      apply (config_keeps_update _ _ _ _ _ _ _ _ CK Et); [by rewrite owned_some| |congruence|auto].
      intros u N. rewrite !owned_none by (cbn; congruence). done.
    + rewrite owned_none in Kt by done. destruct Kt as [_ Kt]. specialize (Kt (shared c)).
      destruct (f (shared c)) as [s' k]. destruct Kt as [-> Kt]. injection E as <-.
      apply (config_keeps_update _ _ _ _ _ _ _ _ CK Et); [by rewrite owned_none|done|apply CK|auto].
  - destruct Kt as [_ Kt]. destruct (holder c) as [h|] eqn:Eh; [done|]. injection E as <-.
    apply (config_keeps_update _ _ _ _ _ _ _ _ CK Et); [by rewrite owned_some; [apply Kt, CK|]| |done|intros u [= <-]; auto].
    intros u N. rewrite !owned_none by (cbn; congruence). done.
  - case_bool_decide as Eh; [|done]. rewrite owned_some in Kt by done. destruct Kt as [(s & [= <-] & I) Kt]. injection E as <-.
    apply (config_keeps_update _ _ _ _ _ _ _ _ CK Et); [by rewrite owned_none| |done|done].
    intros u N. rewrite !owned_none by (cbn; congruence). done.
Qed.

Lemma initial_keeps Inv Q s ps : Inv s -> Forall (keeps Inv Q None) ps -> config_keeps Inv Q (initial s ps).
Proof.
  intros I K. split; [|done..]. intros u p L. rewrite owned_none by done. rewrite Forall_lookup in K. by apply (K u).
Qed.

Lemma keeps_run Inv Q ts : forall c c', config_keeps Inv Q c -> run_schedule ts c = Some c' -> config_keeps Inv Q c'.
Proof.
  induction ts as [|t ts IH]; intros c c' G E; cbn in E; [by injection E as <-|].
  destruct (step_thread t c) as [c1|] eqn:E1; [|done]. eapply IH; [|exact E]. by eapply keeps_step.
Qed.

(** Under any schedule, the object satisfies what its critical sections keep
    whenever no thread is inside one, and threads end as they should. *)
Lemma guarded_invariant Inv Q s ps ts c :
  Inv s -> Forall (keeps Inv Q None) ps -> run_schedule ts (initial s ps) = Some c ->
  (holder c = None -> Inv (shared c)) /\ (forall t a, threads c !! t = Some (Ret a) -> Q a).
Proof.
  intros I K E. destruct (keeps_run _ _ _ _ _ (initial_keeps _ _ _ _ I K) E) as [K' I' _].
  split; [done|]. intros t a L. by destruct (K' _ _ L).
Qed.

(** ** Progress *)

Definition finished (c : config) : Prop := forall u p, threads c !! u = Some p -> exists a, p = Ret a.

Lemma run_schedule_app ts1 ts2 c :
  run_schedule (ts1 ++ ts2) c = match run_schedule ts1 c with Some c' => run_schedule ts2 c' | None => None end.
Proof. revert c. induction ts1 as [|t ts IH]; intros c; [done|]. cbn. destruct (step_thread t c); [apply IH|done]. Qed.

(** A thread that need not wait runs to its end. *)
Lemma finish_thread Inv Q t p : forall c,
  keeps Inv Q (owned c t) p -> threads c !! t = Some p -> (holder c = None -> Inv (shared c)) ->
  holder c = None \/ holder c = Some t ->
  exists ts c' a, run_schedule ts c = Some c' /\ holder c' = None /\ threads c' = <[t := Ret a]> (threads c).
Proof.
  assert (Step : forall c c1 k, step_thread t c = Some c1 -> threads c1 = <[t := k]> (threads c) ->
    (exists ts c' a, run_schedule ts c1 = Some c' /\ holder c' = None /\ threads c' = <[t := Ret a]> (threads c1)) ->
    exists ts c' a, run_schedule ts c = Some c' /\ holder c' = None /\ threads c' = <[t := Ret a]> (threads c)).
  { intros c c1 k E1 T1 (ts & c' & a & E & Hc & T). exists (t :: ts), c', a. cbn. rewrite E1. split; [done|]. split; [done|].
    rewrite T, T1. apply list_insert_insert_eq. }
  induction p as [a|m w f IH|p IH|p IH] using prog_induction; intros c K L F H; cbn in K.
  - destruct K as [K _]. exists [], c, a. split; [done|]. split; [|by rewrite list_insert_id].
    destruct H as [H|H]; [done|]. by rewrite owned_some in K.
  - specialize (IH (shared c)). destruct (f (shared c)) as [s' k] eqn:Ef.
    apply (Step c (mkConfigT s' (holder c) (<[t := k]> (threads c))) k); [unfold step_thread; by rewrite L, Ef|done|].
    apply IH; [|by eapply lookup_own| |done].
    + destruct H as [H|H]; [rewrite owned_none in K by congruence|rewrite owned_some in K by done].
      * destruct K as [_ K]. specialize (K (shared c)). rewrite Ef in K. destruct K as [-> K]. rewrite owned_none; [done|cbn; congruence].
      * rewrite Ef in K. by rewrite owned_some.
    + cbn. intros H'. rewrite owned_none in K by congruence. destruct K as [_ K]. specialize (K (shared c)).
      rewrite Ef in K. destruct K as [-> _]. by apply F.
  - destruct K as [K0 K]. assert (H0 : holder c = None) by (destruct H as [H|H]; [done|by rewrite owned_some in K0]).
    apply (Step c (mkConfigT (shared c) (Some t) (<[t := p]> (threads c))) p); [unfold step_thread; by rewrite L, H0|done|].
    apply IH; [rewrite owned_some by done; by apply K, F|by eapply lookup_own|done|by right].
  - destruct K as [(s & K0 & I) K].
    assert (H0 : holder c = Some t) by (destruct H as [H|H]; [by rewrite owned_none in K0 by congruence|done]).
    rewrite owned_some in K0 by done. injection K0 as <-.
    apply (Step c (mkConfigT (shared c) None (<[t := p]> (threads c))) p); [unfold step_thread; by rewrite L, bool_decide_true|done|].
    apply IH; [by rewrite owned_none|by eapply lookup_own|done|by left].
Qed.

(** With the mutex free, the first [n] threads can be brought to their ends. *)
Lemma finish_threads Inv Q c n :
  config_keeps Inv Q c -> holder c = None -> (n <= length (threads c))%nat ->
  exists ts c', run_schedule ts c = Some c' /\ holder c' = None /\ length (threads c') = length (threads c) /\
    forall u p, (u < n)%nat -> threads c' !! u = Some p -> exists a, p = Ret a.
Proof.
  intros K H L. induction n as [|n IH]; [exists [], c; split_and!; [done..|lia]|].
  destruct IH as (ts & c1 & E & Hc & Hl & F); [lia|].
  destruct (lookup_lt_is_Some_2 (threads c1) n) as [p Lp]; [lia|].
  pose proof (keeps_run _ _ _ _ _ K E) as [K1 F1 _].
  destruct (finish_thread Inv Q n p c1 (K1 n p Lp) Lp F1 (or_introl Hc)) as (ts' & c2 & a & E' & Hc' & T).
  exists (ts ++ ts'), c2. rewrite run_schedule_app, E. split_and!; [done..|by rewrite T, length_insert|].
  intros u q Hu Lq. rewrite T in Lq. apply list_lookup_insert_Some in Lq as [(<- & <- & _)|(N & Lq)]; [by eexists|].
  apply (F u); [lia|done].
Qed.

(** No schedule ends in a deadlock: all threads can still come to their end. *)
Lemma guarded_progress Inv Q s ps ts c :
  Inv s -> Forall (keeps Inv Q None) ps -> run_schedule ts (initial s ps) = Some c ->
  exists ts' c', run_schedule ts' c = Some c' /\ finished c' /\ holder c' = None.
Proof.
  intros I F E. pose proof (keeps_run _ _ _ _ _ (initial_keeps _ _ _ _ I F) E) as K.
  assert (R : exists ts1 c1, run_schedule ts1 c = Some c1 /\ holder c1 = None).
  { destruct (holder c) as [h|] eqn:Eh; [|by exists [], c]. destruct (lookup_lt_is_Some_2 (threads c) h) as [p L]; [by apply K|].
    destruct (finish_thread Inv Q h p c (ck_threads _ _ _ K h p L) L) as (t1 & c1 & a & E1 & H1 & _);
      [by apply K|by right|by exists t1, c1]. }
  destruct R as (ts1 & c1 & E1 & H1). pose proof (keeps_run _ _ _ _ _ K E1) as K1.
  destruct (finish_threads Inv Q c1 (length (threads c1)) K1 H1 (le_n _)) as (ts2 & c2 & E2 & H2 & L2 & F2).
  exists (ts1 ++ ts2), c2. rewrite run_schedule_app, E1. split; [done|]. split; [|done].
  intros u p L. apply (F2 u p); [|done]. apply lookup_lt_Some in L. lia.
Qed.

End Machine.

Arguments prog : clear implicits.
Arguments config : clear implicits.

(** ** Writing threads *)

(** Sequencing; an exception ends the thread's call. *)
Fixpoint pseq {S M A B} (p : prog S M A) (k : A -> prog S M B) : prog S M B :=
  match p with
  | Ret a => k a
  | Access m w f => Access m w (fun s => match f s with (s', p') => (s', pseq p' k) end)
  | Lock p' => Lock (pseq p' k)
  | Unlock p' => Unlock (pseq p' k)
  end.

Definition pbind {S M A B} (p : prog S M (res A)) (k : A -> prog S M (res B)) : prog S M (res B) :=
  pseq p (fun r =>
    match r with
    | Ok a => k a
    | Throw w => Ret (Throw w)
    | UB => Ret UB
    | OutOfFuel => Ret OutOfFuel
    end).

Definition pret {S M A} (a : A) : prog S M (res A) := Ret (Ok a).

Definition plift {S M A} (r : res A) : prog S M (res A) := Ret r.

(** Reading a member, and a call that changes it. *)
Definition read {S M A} (m : M) (g : S -> res A) : prog S M (res A) := Access m false (fun s => (s, Ret (g s))).

Definition write {S M A} (m : M) (g : act S A) : prog S M (res A) :=
  Access m true (fun s => let (s', r) := g s in (s', Ret r)).

(** [std::lock_guard<std::mutex> lock(mutex_);] until the end of the body,
    which the lock's destructor also handles when the body throws. *)
Definition lock_guard {S M A} (body : prog S M A) : prog S M A := Lock (pseq body (fun r => Unlock (Ret r))).

Declare Scope prog_scope.
Delimit Scope prog_scope with prog.
Notation "x <- m ;; k" := (pbind m (fun x => k))
  (at level 100, m at next level, right associativity) : prog_scope.
Notation "m ;; k" := (pbind m (fun _ => k))
  (at level 100, right associativity) : prog_scope.

(** Accesses only. *)
Fixpoint straight {S M A} (p : prog S M A) : Prop :=
  match p with
  | Ret _ => True
  | Access m w f => forall s, match f s with (_, k) => straight k end
  | _ => False
  end.

Section Combinators.
Context {S M : Type}.

Lemma run_pseq {A B} (p : prog S M A) (k : A -> prog S M B) s :
  run_alone (pseq p k) s = run_alone (k (run_alone p s).2) (run_alone p s).1.
Proof.
  revert s. induction p as [a|m w f IH|p IH|p IH] using prog_induction; intros s; cbn; [done| |apply IH..].
  destruct (f s) as [s' p'] eqn:E. specialize (IH s). rewrite E in IH. cbn in IH. by apply IH.
Qed.

(** A thread that runs alone computes the member function. *)
Lemma run_pbind {A B} (p : prog S M (res A)) (k : A -> prog S M (res B)) s :
  run_alone (pbind p k) s = act_bind (run_alone p) (fun a => run_alone (k a)) s.
Proof. unfold pbind, act_bind. rewrite run_pseq. by destruct (run_alone p s) as [s' [a|w| |]]. Qed.

Lemma run_read {A} (m : M) (g : S -> res A) s : run_alone (read m g) s = (s, g s).
Proof. done. Qed.

Lemma run_write {A} (m : M) (g : act S A) s : run_alone (write m g) s = g s.
Proof. unfold write. cbn. by destruct (g s). Qed.

Lemma run_lock_guard {A} (p : prog S M A) s : run_alone (lock_guard p) s = run_alone p s.
Proof. unfold lock_guard. cbn. rewrite run_pseq. cbn. by destruct (run_alone p s). Qed.

Lemma straight_pseq {A B} (p : prog S M A) (k : A -> prog S M B) :
  straight p -> (forall a, straight (k a)) -> straight (pseq p k).
Proof.
  intros H K. induction p as [a|m w f IH|p IH|p IH] using prog_induction; cbn in *; [apply K| |done..].
  intros s. specialize (H s). specialize (IH s). destruct (f s). cbn in IH. by apply IH.
Qed.

Lemma straight_pbind {A B} (p : prog S M (res A)) (k : A -> prog S M (res B)) :
  straight p -> (forall a, straight (k a)) -> straight (pbind p k).
Proof. intros H K. apply straight_pseq; [done|]. by intros [a|w| |]. Qed.

Lemma straight_read {A} (m : M) (g : S -> res A) : straight (read m g).
Proof. done. Qed.

Lemma straight_write {A} (m : M) (g : act S A) : straight (write m g).
Proof. intros s. by destruct (g s). Qed.

Lemma lock_guard_seq {A B} (p : prog S M A) (k : A -> prog S M B) :
  pseq (lock_guard p) k = Lock (pseq (pseq p (fun r => Unlock (Ret r))) k).
Proof. done. Qed.

(** Sequencing after a guarded call, with the unlocking brought to the front. *)
Lemma guarded_after {A B} (p : prog S M A) (k : A -> prog S M B) :
  straight p -> (forall a, guarded false (k a)) -> guarded true (pseq (pseq p (fun r => Unlock (Ret r))) k).
Proof.
  intros H K. induction p as [a|m w f IH|p IH|p IH] using prog_induction; cbn in *; [done| |done..].
  split; [done|]. intros s. specialize (H s). specialize (IH s). destruct (f s). cbn in IH. by apply IH.
Qed.

Lemma keeps_after {A B} Inv Q (p : prog S M A) (k : A -> prog S M B) s :
  straight p -> Inv (run_alone p s).1 -> keeps Inv Q None (k (run_alone p s).2) ->
  keeps Inv Q (Some s) (pseq (pseq p (fun r => Unlock (Ret r))) k).
Proof.
  intros H. revert s. induction p as [a|m w f IH|p IH|p IH] using prog_induction; intros s I K; cbn in *; [by eauto| |done..].
  specialize (H s). specialize (IH s). destruct (f s) as [s' p']. cbn in IH. by apply IH.
Qed.

(** A call under the mutex keeps what its body keeps when it runs alone, and
    the thread goes on with the outcome the body has alone. *)
Lemma lock_guard_keeps {A B} Inv Q (p : prog S M A) (k : A -> prog S M B) :
  straight p -> (forall s, Inv s -> Inv (run_alone p s).1 /\ keeps Inv Q None (k (run_alone p s).2)) ->
  keeps Inv Q None (pseq (lock_guard p) k).
Proof. intros H I. rewrite lock_guard_seq. cbn. split; [done|]. intros s Hs. destruct (I s Hs). by apply keeps_after. Qed.

Lemma lock_guard_guarded {A B} (p : prog S M A) (k : A -> prog S M B) :
  straight p -> (forall a, guarded false (k a)) -> guarded false (pseq (lock_guard p) k).
Proof. intros H K. rewrite lock_guard_seq. cbn. split; [done|]. by apply guarded_after. Qed.

End Combinators.

#[export] Hint Resolve straight_pbind straight_read straight_write : gambit.
