(* ===== verification/Keccak.v ===== *)
(** * Keccak-256 (src/external/tiny-keccak/keccak.cpp)

    The permutation and the sponge as the code runs them (in place, on the
    25 lanes of the state array), the same functions as FIPS 202 defines
    them (coordinates, rotation path, round-constant LFSR, pad10*1), and
    the proof that the first compute the second. *)

From stdpp Require Import base list numbers strings.
From Stdlib Require Import ZArith Lia.
From S2P Require Import Prelude.

#[local] Open Scope Z_scope.

(** ** The code *)

(** [keccakf_rndc], keccak.cpp 10-23. *)
Definition keccakf_rndc : list Z :=
  [ 0x0000000000000001; 0x0000000000008082;
    0x800000000000808a; 0x8000000080008000;
    0x000000000000808b; 0x0000000080000001;
    0x8000000080008081; 0x8000000000008009;
    0x000000000000008a; 0x0000000000000088;
    0x0000000080008009; 0x000000008000000a;
    0x000000008000808b; 0x800000000000008b;
    0x8000000000008089; 0x8000000000008003;
    0x8000000000008002; 0x8000000000000080;
    0x000000000000800a; 0x800000008000000a;
    0x8000000080008081; 0x8000000000008080;
    0x0000000080000001; 0x8000000080008008 ].

(** [keccakf_rotc], keccak.cpp 26-29. *)
Definition keccakf_rotc : list Z :=
  [ 1;  3;  6;  10; 15; 21; 28; 36; 45; 55; 2;  14;
    27; 41; 56; 8;  25; 43; 62; 18; 39; 61; 20; 44 ].

(** [keccakf_piln], keccak.cpp 31-34. *)
Definition keccakf_piln : list nat :=
  [ 10; 7;  11; 17; 18; 3; 5;  16; 8;  21; 24; 4;
    15; 23; 19; 13; 12; 2; 20; 14; 22; 9;  6;  1 ]%nat.

(** [ROTL64], keccak.cpp 36-38. *)
Definition ROTL64 (x y : Z) : Z :=
  Z.lor (u64 (Z.shiftl x y)) (Z.shiftr x (64 - y)).

(** [a[i]] of a C array inside its bounds. *)
Definition at_ (l : list Z) (i : nat) : Z := nth i l 0.

(** The first loop of Theta, keccak.cpp 45-46: [bc[i] = st[i] ^ st[i+5] ^ ...]. *)
Definition theta_bc (st : list Z) : list Z :=
  for_range 5 (fun bc i =>
    <[i := Z.lxor (Z.lxor (Z.lxor (Z.lxor (at_ st i) (at_ st (i + 5)))
                                  (at_ st (i + 10))) (at_ st (i + 15)))
                  (at_ st (i + 20))]> bc) (replicate 5 0).

(** Theta, keccak.cpp 44-52. *)
Definition keccakf_theta (st : list Z) : list Z :=
  let bc := theta_bc st in
  for_range 5 (fun st i =>
    let t := Z.lxor (at_ bc ((i + 4) mod 5)) (ROTL64 (at_ bc ((i + 1) mod 5)) 1) in
    for_range 5 (fun st k =>
      let j := (5 * k)%nat in <[(j + i)%nat := Z.lxor (at_ st (j + i)) t]> st) st) st.

(** Rho and Pi, keccak.cpp 54-61: the lane in [t] is swapped along the
    cycle [keccakf_piln]. *)
Definition keccakf_rho_pi (st : list Z) : list Z :=
  (for_range 24 (fun (p : Z * list Z) i =>
     let (t, st) := p in
     let j := nth i keccakf_piln 0%nat in
     let bc0 := at_ st j in
     (bc0, <[j := ROTL64 t (at_ keccakf_rotc i)]> st)) (at_ st 1, st)).2.

(** Chi, keccak.cpp 63-69. *)
Definition keccakf_chi (st : list Z) : list Z :=
  for_range 5 (fun st k =>
    let j := (5 * k)%nat in
    let bc := for_range 5 (fun bc i => <[i := at_ st (j + i)]> bc) (replicate 5 0) in
    for_range 5 (fun st i =>
      <[(j + i)%nat := Z.lxor (at_ st (j + i))
                        (Z.land (u64 (Z.lnot (at_ bc ((i + 1) mod 5)))) (at_ bc ((i + 2) mod 5)))]> st)
      st) st.

(** Iota, keccak.cpp 71-72. *)
Definition keccakf_iota (r : nat) (st : list Z) : list Z :=
  <[0%nat := Z.lxor (at_ st 0) (at_ keccakf_rndc r)]> st.

(** [keccakf], keccak.cpp 40-74. *)
Definition keccakf (st : list Z) : list Z :=
  for_range 24 (fun st r => keccakf_iota r (keccakf_chi (keccakf_rho_pi (keccakf_theta st)))) st.

(** keccak.cpp 87-90 (and 105-108): [t |= (uint64_t)buf[i*8+j] << (8*j)]
    for the eight bytes of lane [i]. *)
Definition load_lane (buf : Bytes) (i : nat) : Z :=
  for_range 8 (fun t j =>
    Z.lor t (u64 (Z.shiftl (at_ buf (i * 8 + j)) (8 * Z.of_nat j)))) 0.

(** One block, keccak.cpp 86-93 (and 104-111): xor the 17 lanes of the rate,
    then permute. *)
Definition absorb_block (st : list Z) (buf : Bytes) : list Z :=
  keccakf (for_range 17 (fun st i => <[i := Z.lxor (at_ st i) (load_lane buf i)]> st) st).

(** [while (inlen >= rsiz)], keccak.cpp 84-96: the state and the rest of
    the input. *)
Fixpoint absorb (fuel : nat) (st : list Z) (input : Bytes) : list Z * Bytes :=
  match fuel with
  | O => (st, input)
  | S f =>
      if 136 <=? zlen input
      then absorb f (absorb_block st input) (drop 136 input)
      else (st, input)
  end.

(** The padded last block, keccak.cpp 98-102: [temp] has 144 bytes. *)
Definition last_block (input : Bytes) : Bytes :=
  let temp := input ++ replicate (144 - length input) 0 in
  let temp := <[length input := 0x01]> temp in
  <[135%nat := Z.lor (at_ temp 135) 0x80]> temp.

(** The squeeze loops, keccak.cpp 113-118. *)
Definition squeeze (st : list Z) : Bytes :=
  for_range 4 (fun out i =>
    for_range 8 (fun out j =>
      <[(i * 8 + j)%nat := u8 (Z.shiftr (at_ st i) (8 * Z.of_nat j))]> out) out)
    (replicate 32 0).

(** [keccak_256], keccak.cpp 76-119. *)
Definition keccak_256 (input : Bytes) : Bytes :=
  let (st, rest) := absorb (length input) (replicate 25 0) input in
  squeeze (absorb_block st (last_block rest)).

(** ** The specification (FIPS 202, with Keccak's original padding) *)

Module Spec.

(** A state as a function of the coordinates of a lane. *)
Definition plane : Type := nat -> nat -> Z.

(** Rotation of a 64-bit lane towards the high bits. *)
Definition rot (x n : Z) : Z := (x * 2 ^ n) mod 2 ^ 64 + x / 2 ^ (64 - n).

Section Steps.
Context (rotate : Z -> Z -> Z).

Definition column (A : plane) (x : nat) : Z :=
  Z.lxor (Z.lxor (Z.lxor (Z.lxor (A x 0%nat) (A x 1%nat)) (A x 2%nat)) (A x 3%nat)) (A x 4%nat).

Definition theta (A : plane) : plane := fun x y =>
  Z.lxor (A x y) (Z.lxor (column A ((x + 4) mod 5)) (rotate (column A ((x + 1) mod 5)) 1)).

(** The path of Algorithm 2: lane visited, rotation amount. *)
Fixpoint rho_path (n t x y : nat) : list (nat * nat * Z) :=
  match n with
  | O => []
  | S n' => ((x, y), Z.of_nat (((t + 1) * (t + 2) / 2) mod 64)) ::
            rho_path n' (S t) y ((2 * x + 3 * y) mod 5)
  end.

Definition rho (A : plane) : plane := fun x y =>
  match List.find (fun e => bool_decide (e.1 = (x, y))) (rho_path 24 0 1 0) with
  | Some (_, off) => rotate (A x y) off
  | None => A x y
  end.

Definition pi (A : plane) : plane := fun x y => A ((x + 3 * y) mod 5)%nat x.

Definition chi (A : plane) : plane := fun x y =>
  Z.lxor (A x y) (Z.land (u64 (Z.lnot (A ((x + 1) mod 5)%nat y))) (A ((x + 2) mod 5)%nat y)).

(** Algorithm 5: the LFSR of the round constants. *)
Definition lfsr_step (r : Z) : Z :=
  let r2 := 2 * r in if Z.testbit r2 8 then Z.lxor r2 0x171 else r2.

Definition rc (t : nat) : Z := if Z.testbit (Nat.iter (t mod 255) lfsr_step 1) 0 then 1 else 0.

Definition RC (r : nat) : Z :=
  foldl (fun w j => w + rc (j + 7 * r) * 2 ^ (2 ^ Z.of_nat j - 1)) 0 (seq 0 7).

Definition iota (r : nat) (A : plane) : plane := fun x y =>
  if bool_decide (x = 0%nat /\ y = 0%nat) then Z.lxor (A x y) (RC r) else A x y.

Definition round (r : nat) (A : plane) : plane := iota r (chi (pi (rho (theta A)))).

End Steps.

(** The lane at [(x, y)] is stored at index [x + 5 y]. *)
Definition to_list (A : plane) : list Z := (fun k => A (k mod 5) (k / 5))%nat <$> seq 0 25.

Definition of_list (st : list Z) : plane := fun x y => at_ st (x + 5 * y).

Definition keccak_f (st : list Z) : list Z :=
  foldl (fun st r => to_list (round rot r (of_list st))) st (seq 0 24).

(** Little-endian value of a byte string. *)
Definition le_val (bs : Bytes) : Z := foldr (fun b v => b + 256 * v) 0 bs.

(** [m] little-endian bytes of a value. *)
Fixpoint le_bytes (m : nat) (v : Z) : Bytes :=
  match m with
  | O => []
  | S m' => v mod 256 :: le_bytes m' (v / 256)
  end.

(** pad10*1 at byte granularity, for rate 136. *)
Definition pad (n : nat) : Bytes :=
  let q := (136 - n mod 136)%nat in
  if bool_decide (q = 1%nat) then [0x81] else 0x01 :: replicate (q - 2) 0 ++ [0x80].

(** Xor a block into the rate part of the state. *)
Definition xor_block (st : list Z) (block : Bytes) : list Z :=
  zip_with Z.lxor st ((le_val <$> reshape (replicate 17 8%nat) block) ++ replicate 8 0).

Definition keccak256 (input : Bytes) : Bytes :=
  let P := input ++ pad (length input) in
  let blocks := reshape (replicate (length P / 136)%nat 136%nat) P in
  let st := foldl (fun st b => keccak_f (xor_block st b)) (replicate 25 0) blocks in
  concat (le_bytes 8 <$> take 4 st).

End Spec.

(** ** The permutation *)

Definition lanes_ok (A : Spec.plane) : Prop := forall x y, is_u64 (A x y).

(** Name the elements of a list of known length. *)
Ltac name_elements st :=
  repeat (destruct st as [|? st]; [discriminate|]); destruct st; [|discriminate].

Lemma ROTL64_rot x n : is_u64 x -> 0 <= n <= 64 -> ROTL64 x n = Spec.rot x n.
Proof.
  intros Hx Hn. unfold ROTL64, Spec.rot, u64.
  rewrite Z.shiftl_mul_pow2, Z.shiftr_div_pow2 by lia.
  assert (E : 2 ^ 64 = 2 ^ (64 - n) * 2 ^ n) by (rewrite <- Z.pow_add_r by lia; f_equal; lia).
  assert (0 < 2 ^ (64 - n)) by lia. assert (0 < 2 ^ n) by lia.
  rewrite E, Zmult_mod_distr_r, <- lor_shiftl_add.
  - by rewrite Z.shiftl_mul_pow2 by lia.
  - lia.
  - unfold is_u64 in Hx.
    split; [apply Z.div_pos; lia|apply Z.div_lt_upper_bound; lia].
Qed.

Lemma rot_ok x n : is_u64 x -> 0 <= n <= 64 -> is_u64 (Spec.rot x n).
Proof.
  intros Hx Hn. rewrite <- ROTL64_rot by done. apply (lor_bound _ _ 64); [lia|apply u64_range|].
  rewrite Z.shiftr_div_pow2 by lia. unfold is_u64 in Hx.
  split; [apply Z.div_pos; lia|]. apply Z.div_lt_upper_bound; [lia|].
  assert (1 <= 2 ^ (64 - n)) by (assert (0 < 2 ^ (64 - n)) by lia; lia). nia.
Qed.

Lemma column_ok A x : lanes_ok A -> is_u64 (Spec.column A x).
Proof. intros H. unfold Spec.column. repeat (apply (lxor_bound _ _ 64); [lia|..]); apply H. Qed.

Lemma theta_ok A : lanes_ok A -> lanes_ok (Spec.theta Spec.rot A).
Proof.
  intros H x y. apply (lxor_bound _ _ 64); [lia|apply H|].
  apply (lxor_bound _ _ 64); [lia|by apply column_ok|].
  apply rot_ok; [by apply column_ok|lia].
Qed.

Lemma rho_path_amounts :
  Forall (fun e : nat * nat * Z => 0 <= e.2 <= 64) (Spec.rho_path 24 0 1 0).
Proof. apply (bool_decide_unpack _). by vm_compute. Qed.

Lemma rho_cases A x y (f : Z -> Z -> Z) :
  Spec.rho f A x y = A x y \/ exists n, 0 <= n <= 64 /\ forall g, Spec.rho g A x y = g (A x y) n.
Proof.
  unfold Spec.rho. destruct (List.find _ _) as [[p n]|] eqn:E; [right|by left].
  exists n. split; [|done]. apply List.find_some in E as [E _].
  pose proof rho_path_amounts as F. rewrite List.Forall_forall in F. apply (F _ E).
Qed.

Lemma rho_ok A : lanes_ok A -> lanes_ok (Spec.rho Spec.rot A).
Proof.
  intros H x y. destruct (rho_cases A x y Spec.rot) as [->|(n & Hn & E)]; [apply H|].
  rewrite E. by apply rot_ok.
Qed.

Lemma chi_ok A : lanes_ok A -> lanes_ok (Spec.chi A).
Proof.
  intros H x y. apply (lxor_bound _ _ 64); [lia|apply H|]. apply (land_bound _ _ 64); [lia|apply H].
Qed.

Lemma RC_table : keccakf_rndc = Spec.RC <$> seq 0 24.
Proof. reflexivity. Qed.

Lemma RC_ok r : (r < 24)%nat -> is_u64 (Spec.RC r).
Proof.
  intros H. assert (F : Forall is_u64 (Spec.RC <$> seq 0 24)).
  { rewrite <- RC_table. by apply (bool_decide_eq_true (Forall is_u64 keccakf_rndc)). }
  rewrite Forall_fmap, Forall_seq in F. apply F. lia.
Qed.

Lemma round_ok r A : (r < 24)%nat -> lanes_ok A -> lanes_ok (Spec.round Spec.rot r A).
Proof.
  intros Hr H. apply theta_ok, rho_ok in H.
  assert (Hc : lanes_ok (Spec.chi (Spec.pi (Spec.rho Spec.rot (Spec.theta Spec.rot A))))).
  { apply chi_ok. intros x y. apply H. }
  intros x y. unfold Spec.round, Spec.iota. case_bool_decide; [|apply Hc].
  apply (lxor_bound _ _ 64); [lia|apply Hc|by apply RC_ok].
Qed.

(** With the code's rotation the specification's round is the same one. *)
Lemma round_rotation r A x y :
  lanes_ok A -> Spec.round ROTL64 r A x y = Spec.round Spec.rot r A x y.
Proof.
  intros H.
  assert (T : forall x y, Spec.theta ROTL64 A x y = Spec.theta Spec.rot A x y).
  { intros. unfold Spec.theta. by rewrite ROTL64_rot by (apply column_ok || lia; done). }
  assert (R : forall x y, Spec.rho ROTL64 (Spec.theta ROTL64 A) x y
                          = Spec.rho Spec.rot (Spec.theta Spec.rot A) x y).
  { intros x' y'. unfold Spec.rho. rewrite T.
    destruct (List.find _ _) as [[p n]|] eqn:E; [|done]. apply ROTL64_rot; [by apply theta_ok|].
    apply List.find_some in E as [E _]. pose proof rho_path_amounts as F.
    rewrite List.Forall_forall in F. apply (F _ E). }
  unfold Spec.round, Spec.iota, Spec.chi, Spec.pi. by rewrite !R.
Qed.

(** One round of the code, lane by lane. *)
Lemma round_code r st :
  length st = 25%nat -> (r < 24)%nat ->
  keccakf_iota r (keccakf_chi (keccakf_rho_pi (keccakf_theta st))) = Spec.to_list (Spec.round ROTL64 r (Spec.of_list st)).
Proof.
  intros L Hr. unfold keccakf_iota, Spec.round, Spec.iota.
  replace (at_ keccakf_rndc r) with (Spec.RC r).
  2:{ unfold at_. rewrite RC_table, (nth_lookup_Some _ _ _ (Spec.RC r)); [done|].
      rewrite list_lookup_fmap, lookup_seq_lt; [done|lia]. }
  generalize (Spec.RC r) as c. clear Hr. intros c. name_elements st.
  cbv -[Z.lxor Z.land Z.lnot u64 ROTL64]. reflexivity.
Qed.

Lemma at_ok st i : Forall is_u64 st -> is_u64 (at_ st i).
Proof.
  intros H. unfold at_. destruct (st !! i) as [v|] eqn:E.
  - rewrite (nth_lookup_Some _ _ _ v) by done. by apply (Forall_lookup_1 _ _ _ _ H E).
  - rewrite nth_lookup, E. cbn. unfold is_u64. lia.
Qed.

Lemma of_list_ok st : Forall is_u64 st -> lanes_ok (Spec.of_list st).
Proof. intros H x y. by apply at_ok. Qed.

Lemma to_list_ok A : lanes_ok A -> Forall is_u64 (Spec.to_list A).
Proof. intros H. apply Forall_fmap, Forall_forall. intros k _. apply H. Qed.

Lemma to_list_ext A B : (forall x y, A x y = B x y) -> Spec.to_list A = Spec.to_list B.
Proof. intros H. unfold Spec.to_list. apply list_fmap_ext. intros. apply H. Qed.

(** A state array of the code: 25 lanes of 64 bits. *)
Definition state_ok (st : list Z) : Prop := length st = 25%nat /\ Forall is_u64 st.

Lemma rounds_spec rs st :
  state_ok st -> Forall (fun r => r < 24)%nat rs ->
  foldl (fun st r => keccakf_iota r (keccakf_chi (keccakf_rho_pi (keccakf_theta st)))) st rs
  = foldl (fun st r => Spec.to_list (Spec.round Spec.rot r (Spec.of_list st))) st rs
  /\ state_ok (foldl (fun st r => keccakf_iota r (keccakf_chi (keccakf_rho_pi (keccakf_theta st)))) st rs).
Proof.
  revert st. induction rs as [|r rs IH]; intros st [L H] Hr; [done|].
  apply Forall_cons_1 in Hr as [Hr Hrs]. cbn [foldl].
  pose proof (of_list_ok _ H) as HA.
  rewrite round_code, (to_list_ext _ (Spec.round Spec.rot r (Spec.of_list st)))
    by (done || (intros; by apply round_rotation)).
  apply IH; [|done]. split; [done|]. by apply to_list_ok, round_ok.
Qed.

Lemma keccakf_ok st : state_ok st -> state_ok (keccakf st).
Proof. intros H. apply rounds_spec; [done|]. apply Forall_seq. lia. Qed.

(** ** The sponge *)

Lemma le_val_app b1 b2 : Spec.le_val (b1 ++ b2) = Spec.le_val b1 + 256 ^ zlen b1 * Spec.le_val b2.
Proof.
  induction b1 as [|b b1 IH]; [rewrite zlen_nil, Z.pow_0_r; change (Spec.le_val []) with 0; cbn [app]; lia|].
  change (Spec.le_val ((b :: b1) ++ b2)) with (b + 256 * Spec.le_val (b1 ++ b2)).
  change (Spec.le_val (b :: b1)) with (b + 256 * Spec.le_val b1).
  rewrite IH, zlen_cons, Z.pow_add_r by (pose proof (zlen_nonneg b1); lia). lia.
Qed.

Lemma le_val_bound bs : bytes_ok bs -> 0 <= Spec.le_val bs < 256 ^ zlen bs.
Proof.
  induction bs as [|b bs IH]; intros H; [by split|].
  apply bytes_ok_cons in H as [[Hb Hb'] H]. specialize (IH H). rewrite zlen_cons, Z.pow_add_r by (pose proof (zlen_nonneg bs); lia).
  change (Spec.le_val (b :: bs)) with (b + 256 * Spec.le_val bs). lia.
Qed.

(** The byte loop of a lane reads the first [n] bytes little-endian. *)
Lemma load_loop bs n :
  bytes_ok bs -> (n <= length bs)%nat -> (n <= 8)%nat ->
  for_range n (fun t j => Z.lor t (u64 (Z.shiftl (at_ bs j) (8 * Z.of_nat j)))) 0
  = Spec.le_val (take n bs).
Proof.
  intros H Hn H8. induction n as [|n IH]; [done|].
  unfold for_range in *. rewrite seq_S, foldl_app, IH by lia. cbn [foldl].
  destruct (lookup_lt_is_Some_2 bs n) as [b E]; [lia|].
  rewrite (take_S_r _ _ _ E), le_val_app. unfold at_. rewrite Nat.add_0_l, (nth_lookup_Some _ _ _ b) by done.
  assert (Hb : is_u8 b) by apply (Forall_lookup_1 _ _ _ _ H E).
  assert (L : zlen (take n bs) = Z.of_nat n) by (unfold zlen; rewrite length_take; lia).
  pose proof (le_val_bound _ (bytes_ok_take n _ H)) as B. rewrite L in *.
  assert (E8 : 256 ^ Z.of_nat n = 2 ^ (8 * Z.of_nat n)) by (rewrite Z.pow_mul_r by lia; done).
  rewrite E8 in *. change (Spec.le_val [b]) with (b + 256 * 0).
  assert (2 ^ (8 * Z.of_nat n) <= 2 ^ 56) by (apply Z.pow_le_mono_r; lia).
  rewrite u64_id.
  - rewrite Z.lor_comm, lor_shiftl_add by lia. lia.
  - rewrite Z.shiftl_mul_pow2 by lia. unfold is_u8, is_u64 in *. nia.
Qed.

Lemma load_lane_spec buf i :
  bytes_ok buf -> (i * 8 + 8 <= length buf)%nat ->
  load_lane buf i = Spec.le_val (take 8 (drop (i * 8) buf)).
Proof.
  intros H Hl. rewrite <- load_loop by (auto with gambit || rewrite length_drop; lia).
  unfold load_lane, for_range. cbn [seq foldl]. unfold at_.
  by rewrite !nth_lookup, !lookup_drop.
Qed.

Lemma xor_lanes st buf :
  length st = 25%nat -> bytes_ok buf -> (136 <= length buf)%nat ->
  for_range 17 (fun st i => <[i := Z.lxor (at_ st i) (load_lane buf i)]> st) st
  = Spec.xor_block st (take 136 buf).
Proof.
  intros L H Hb. unfold Spec.xor_block.
  assert (E : Spec.le_val <$> reshape (replicate 17 8%nat) (take 136 buf) = load_lane buf <$> seq 0 17).
  { assert (F : forall i, (i < 17)%nat ->
      load_lane buf i = Spec.le_val (take 8 (drop (i * 8) (take 136 buf)))).
    { intros i Hi. rewrite load_lane_spec by (done || lia).
      rewrite !take_drop_commute, take_take, Nat.min_l by lia. done. }
    cbn [seq fmap list_fmap]. rewrite !F by lia. cbn [replicate reshape fmap list_fmap].
    rewrite !drop_drop. reflexivity. }
  rewrite E. clear E. name_elements st.
  cbv -[Z.lxor load_lane]. by rewrite !Z.lxor_0_r.
Qed.

Lemma xor_lanes_ok st buf ns :
  state_ok st -> bytes_ok buf -> Forall (fun i => i * 8 + 8 <= length buf)%nat ns ->
  state_ok (foldl (fun st i => <[i := Z.lxor (at_ st i) (load_lane buf i)]> st) st ns).
Proof.
  revert st. induction ns as [|i ns IH]; intros st [L H] Hb Hn; [done|].
  apply Forall_cons_1 in Hn as [Hi Hn]. cbn [foldl]. apply IH; [|done..].
  split; [by rewrite length_insert|]. apply Forall_insert; [done|].
  apply (lxor_bound _ _ 64); [lia|by apply at_ok|]. rewrite load_lane_spec by done.
  pose proof (le_val_bound (take 8 (drop (i * 8) buf)) ltac:(auto with gambit)) as B.
  replace (zlen _) with 8 in B by (unfold zlen; rewrite length_take, length_drop; lia). exact B.
Qed.

Lemma absorb_block_spec st buf :
  state_ok st -> bytes_ok buf -> (136 <= length buf)%nat ->
  absorb_block st buf = Spec.keccak_f (Spec.xor_block st (take 136 buf))
  /\ state_ok (absorb_block st buf).
Proof.
  intros H Hb L. unfold absorb_block.
  assert (Hx : state_ok (for_range 17 (fun st i => <[i := Z.lxor (at_ st i) (load_lane buf i)]> st) st)).
  { apply xor_lanes_ok; [done..|]. apply Forall_seq. lia. }
  split; [|by apply keccakf_ok]. rewrite <- xor_lanes by (apply H || done).
  apply rounds_spec; [done|]. apply Forall_seq. lia.
Qed.

Lemma pad_length n : (n + length (Spec.pad n) = 136 * (n / 136 + 1))%nat.
Proof.
  unfold Spec.pad. pose proof (Nat.div_mod_eq n 136). pose proof (Nat.mod_upper_bound n 136).
  case_bool_decide; cbn [length]; rewrite ?length_app, ?length_replicate; cbn [length]; lia.
Qed.

Lemma pad_period n : Spec.pad (n + 136) = Spec.pad n.
Proof. unfold Spec.pad. by rewrite <- Nat.Div0.add_mod_idemp_r, Nat.Div0.mod_same, Nat.add_0_r. Qed.

Lemma pad_bytes n : bytes_ok (Spec.pad n).
Proof.
  unfold Spec.pad. case_bool_decide; [by apply (bool_decide_unpack _)|].
  apply bytes_ok_cons. split; [by apply (bool_decide_unpack _)|]. apply bytes_ok_app.
  split; [|by apply (bool_decide_unpack _)]. apply Forall_replicate. by apply (bool_decide_unpack _).
Qed.

(** The last block holds the rest of the message and its padding. *)
Lemma last_block_spec rest :
  (length rest < 136)%nat ->
  exists tl, last_block rest = (rest ++ Spec.pad (length rest)) ++ tl /\ bytes_ok tl.
Proof.
  intros H. exists (replicate 8 0). split; [|apply Forall_replicate; by apply (bool_decide_unpack _)].
  unfold last_block, Spec.pad. rewrite Nat.mod_small by done.
  rewrite insert_app_r_alt, Nat.sub_diag, insert_app_r_alt by lia.
  unfold at_. rewrite app_nth2, <- app_assoc by lia. f_equal. case_bool_decide as Hq.
  - replace (length rest) with 135%nat by lia. reflexivity.
  - replace (144 - length rest)%nat with (S (143 - length rest)) by lia.
    replace (135 - length rest)%nat with (S (134 - length rest)) by lia.
    set (k := (134 - length rest)%nat). set (R := replicate (143 - length rest) 0).
    change (replicate (S (143 - length rest)) 0) with (0 :: R).
    change (1 :: <[k := Z.lor (nth k R 0) 0x80]> R = 0x01 :: (replicate (136 - length rest - 2) 0 ++ [0x80]) ++ replicate 8 0).
    unfold R, k. rewrite nth_lookup, lookup_replicate_2, insert_replicate_lt by lia.
    replace (143 - length rest - S (134 - length rest))%nat with 8%nat by lia.
    replace (136 - length rest - 2)%nat with (134 - length rest)%nat by lia.
    by rewrite <- app_assoc.
Qed.

Definition absorb_step (st : list Z) (b : Bytes) : list Z := Spec.keccak_f (Spec.xor_block st b).

Definition padded (input : Bytes) : Bytes := input ++ Spec.pad (length input).

Lemma padded_blocks input : (length (padded input) = 136 * (length input / 136 + 1))%nat.
Proof. unfold padded. rewrite length_app. apply pad_length. Qed.

(** The absorbing loop and the last block process the padded message. *)
Lemma absorb_last st input :
  state_ok st -> bytes_ok input -> (length input < 136)%nat ->
  absorb_block st (last_block input) = absorb_step st (padded input)
  /\ state_ok (absorb_block st (last_block input)).
Proof.
  intros Hs Hb Hl. destruct (last_block_spec input Hl) as (tl & -> & Ht).
  fold (padded input).
  assert (L : length (padded input) = 136%nat) by (rewrite padded_blocks, Nat.div_small; lia).
  assert (Hp : bytes_ok (padded input ++ tl)).
  { apply bytes_ok_app. split; [apply bytes_ok_app; split; [done|apply pad_bytes]|done]. }
  destruct (absorb_block_spec st _ Hs Hp) as [E O]; [rewrite length_app; lia|].
  split; [|done]. rewrite E. unfold absorb_step. by rewrite <- L, take_seam.
Qed.

Lemma padded_split input :
  (136 <= length input)%nat -> padded input = take 136 input ++ padded (drop 136 input).
Proof.
  intros H. unfold padded. rewrite app_assoc, take_drop, length_drop. f_equal.
  rewrite <- (pad_period (length input - 136)). f_equal. lia.
Qed.

Definition blocks (P : Bytes) : list Bytes := reshape (replicate (length P / 136)%nat 136%nat) P.

Lemma blocks_short input : (length input < 136)%nat -> blocks (padded input) = [padded input].
Proof.
  intros H. assert (L : length (padded input) = 136%nat) by (rewrite padded_blocks, Nat.div_small; lia).
  unfold blocks. rewrite L. cbn [Nat.div Nat.divmod fst replicate reshape].
  by rewrite <- L, firstn_all.
Qed.

Lemma blocks_long input :
  (136 <= length input)%nat ->
  blocks (padded input) = take 136 input :: blocks (padded (drop 136 input)).
Proof.
  intros H. unfold blocks.
  replace (length (padded input) / 136)%nat with (S (length (padded (drop 136 input)) / 136)).
  - rewrite (padded_split input) by done. cbn [replicate reshape].
    assert (L : length (take 136 input) = 136%nat) by (rewrite length_take; lia).
    by rewrite take_app_length', drop_app_length' by done.
  - rewrite (padded_split input), length_app, length_take, Nat.min_l by done.
    symmetry. apply (Nat.div_add_l 1 136). lia.
Qed.

Lemma absorb_spec fuel st input :
  state_ok st -> bytes_ok input -> (length input <= fuel)%nat ->
  let (st', rest) := absorb fuel st input in
  absorb_block st' (last_block rest) = foldl absorb_step st (blocks (padded input))
  /\ state_ok (absorb_block st' (last_block rest)).
Proof.
  revert st input. induction fuel as [|f IH]; intros st input Hs Hb Hf.
  { cbn [absorb]. rewrite blocks_short by lia. apply absorb_last; [done..|lia]. }
  cbn [absorb]. destruct (136 <=? zlen input) eqn:El; to_prop; unfold zlen in El.
  - destruct (absorb_block_spec st input) as [E O]; [done|done|lia|].
    specialize (IH (absorb_block st input) (drop 136 input) O ltac:(auto with gambit)).
    destruct (absorb f _ _) as [st' rest]. destruct IH as [IH1 IH2]; [rewrite length_drop; lia|].
    split; [|done]. rewrite IH1, E, (blocks_long input) by lia. done.
  - rewrite blocks_short by lia. apply absorb_last; [done..|lia].
Qed.

Lemma le_bytes_shift m v :
  Spec.le_bytes m v = (fun j => u8 (Z.shiftr v (8 * Z.of_nat j))) <$> seq 0 m.
Proof.
  revert v. induction m as [|m IH]; intros v; [done|]. cbn [Spec.le_bytes seq].
  rewrite IH, <- (fmap_S_seq 0), fmap_cons, <- list_fmap_compose.
  f_equal. apply list_fmap_ext. intros _ j _.
  unfold compose. rewrite <- shiftr_8, Z.shiftr_shiftr by lia. do 2 f_equal. lia.
Qed.

Lemma squeeze_spec st : (4 <= length st)%nat -> squeeze st = concat (Spec.le_bytes 8 <$> take 4 st).
Proof.
  intros L. do 4 (destruct st as [|? st]; [cbn in L; lia|]).
  cbn [take fmap list_fmap]. rewrite !le_bytes_shift. reflexivity.
Qed.

(** The digest is 32 bytes. *)
Lemma keccak_256_length input : length (keccak_256 input) = 32%nat.
Proof.
  unfold keccak_256. destruct (absorb _ _ _) as [st rest].
  generalize (absorb_block st (last_block rest)). intros s. reflexivity.
Qed.

Lemma keccak_256_bytes input : bytes_ok (keccak_256 input).
Proof.
  unfold keccak_256. destruct (absorb _ _ _) as [st rest].
  generalize (absorb_block st (last_block rest)). intros s.
  assert (E : squeeze s = concat ((fun i => (fun j => u8 (Z.shiftr (at_ s i) (8 * Z.of_nat j)))
                                   <$> seq 0 8) <$> seq 0 4)) by reflexivity.
  rewrite E. apply bytes_ok_concat, Forall_fmap, Forall_forall. intros i _.
  apply Forall_fmap, Forall_forall. intros j _. apply u8_range.
Qed.

#[export] Hint Resolve keccak_256_bytes keccak_256_length : gambit.

(** ** Correctness *)

(** C9: [keccak_256] is total and computes Keccak-256: for every input the
    in-place permutation, the absorbing loop, the padding of the last block
    and the squeeze give the digest of the FIPS 202 sponge (rate 136,
    pad10*1 with Keccak's domain byte 0x01, round constants from the LFSR,
    rotations along the rho path). *)
Theorem keccak_256_correct (input : Bytes) :
  bytes_ok input -> keccak_256 input = Spec.keccak256 input.
Proof.
  intros H. unfold keccak_256, Spec.keccak256.
  assert (S0 : state_ok (replicate 25 0)) by (split; [done|by apply (bool_decide_unpack _)]).
  pose proof (absorb_spec (length input) _ input S0 H (Nat.le_refl _)) as A.
  destruct (absorb _ _ _) as [st rest]. destruct A as [A [L _]].
  rewrite squeeze_spec by lia. by rewrite A.
Qed.

Lemma keccak_256_correct_witness :
  keccak_256 (str "abc") = Spec.keccak256 (str "abc").
Proof. apply keccak_256_correct. apply bytes_ok_str. Defined.

(** Known answer: the digest of the empty message. *)
Example keccak_256_empty :
  keccak_256 [] =
  [0xc5; 0xd2; 0x46; 0x01; 0x86; 0xf7; 0x23; 0x3c; 0x92; 0x7e; 0x7d; 0xb2; 0xdc; 0xc7; 0x03; 0xc0;
   0xe5; 0x00; 0xb6; 0x53; 0xca; 0x82; 0x27; 0x3b; 0x7b; 0xfa; 0xd8; 0x04; 0x5d; 0x85; 0xa4; 0x70].
Proof. by vm_compute. Qed.
