(* ===== verification/Sha256.v ===== *)
(** * SHA-256, HMAC and the RFC 6979 generator of libsecp256k1

    src/external/secp256k1/src/hash_impl.h and hash.h, with the big-endian
    accessors of util.h. The library derives its signature nonces with them.
    Words are [Z]s of 32 bits; a [secp256k1_sha256] object keeps the chaining
    value, the 64-byte buffer and the count of bytes. Module [Fips] has
    FIPS 180-4 and RFC 2104 as written there: message schedule, compression,
    padding, one message at once. The theorems show that the in-place
    schedule, the rotated roles of the unrolled rounds and the buffering of
    [sha256_write] compute exactly that, for every split of the input.
    [secp256k1_sha256_clear] and its like only wipe memory. *)

From stdpp Require Import base list numbers strings.
From Stdlib Require Import ZArith Lia.
From S2P Require Import Prelude Keccak.

#[local] Open Scope Z_scope.

(** ** Big-endian words *)

(** util.h 400-405. *)
Definition read_be32 (p : Bytes) : Z :=
  Z.lor (Z.lor (Z.lor (Z.shiftl (at_ p 0) 24) (Z.shiftl (at_ p 1) 16))
    (Z.shiftl (at_ p 2) 8)) (at_ p 3).

(** util.h 408-413: the four bytes written at [p]. *)
Definition write_be32 (x : Z) : Bytes :=
  [u8 (Z.shiftr x 24); u8 (Z.shiftr x 16); u8 (Z.shiftr x 8); u8 x].

(** ** The compression function *)

(** [(x) >> n | (x) << (32 - n)] on a [uint32_t], the term the macros of
    hash_impl.h 19-22 are made of. *)
Definition rotr (n x : Z) : Z := Z.lor (Z.shiftr x n) (u32 (Z.shiftl x (32 - n))).

(** hash_impl.h 17-17. *)
Definition Ch (x y z : Z) : Z := Z.lxor z (Z.land x (Z.lxor y z)).

(** hash_impl.h 18-18. *)
Definition Maj (x y z : Z) : Z := Z.lor (Z.land x y) (Z.land z (Z.lor x y)).

(** hash_impl.h 19-19. *)
Definition Sigma0 (x : Z) : Z := Z.lxor (Z.lxor (rotr 2 x) (rotr 13 x)) (rotr 22 x).

(** hash_impl.h 20-20. *)
Definition Sigma1 (x : Z) : Z := Z.lxor (Z.lxor (rotr 6 x) (rotr 11 x)) (rotr 25 x).

(** hash_impl.h 21-21. *)
Definition sigma0 (x : Z) : Z := Z.lxor (Z.lxor (rotr 7 x) (rotr 18 x)) (Z.shiftr x 3).

(** hash_impl.h 22-22. *)
Definition sigma1 (x : Z) : Z := Z.lxor (Z.lxor (rotr 17 x) (rotr 19 x)) (Z.shiftr x 10).

(** hash_impl.h 24-29: the new values of the variables named [d] and [h]. *)
Definition Round (a b c d e f g h k w : Z) : Z * Z :=
  let t1 := u32 (h + Sigma1 e + Ch e f g + k + w) in
  let t2 := u32 (Sigma0 a + Maj a b c) in
  (u32 (d + t1), u32 (t1 + t2)).

(** hash_impl.h 44-124. *)
Definition sha256_transform (s : list Z) (buf : Bytes) : list Z :=
  let a := at_ s 0 in let b := at_ s 1 in let c := at_ s 2 in let d := at_ s 3 in
  let e := at_ s 4 in let f := at_ s 5 in let g := at_ s 6 in let h := at_ s 7 in
  let w0 := read_be32 (drop 0 buf) in let '(d, h) := Round a b c d e f g h 0x428a2f98 w0 in
  let w1 := read_be32 (drop 4 buf) in let '(c, g) := Round h a b c d e f g 0x71374491 w1 in
  let w2 := read_be32 (drop 8 buf) in let '(b, f) := Round g h a b c d e f 0xb5c0fbcf w2 in
  let w3 := read_be32 (drop 12 buf) in let '(a, e) := Round f g h a b c d e 0xe9b5dba5 w3 in
  let w4 := read_be32 (drop 16 buf) in let '(h, d) := Round e f g h a b c d 0x3956c25b w4 in
  let w5 := read_be32 (drop 20 buf) in let '(g, c) := Round d e f g h a b c 0x59f111f1 w5 in
  let w6 := read_be32 (drop 24 buf) in let '(f, b) := Round c d e f g h a b 0x923f82a4 w6 in
  let w7 := read_be32 (drop 28 buf) in let '(e, a) := Round b c d e f g h a 0xab1c5ed5 w7 in
  let w8 := read_be32 (drop 32 buf) in let '(d, h) := Round a b c d e f g h 0xd807aa98 w8 in
  let w9 := read_be32 (drop 36 buf) in let '(c, g) := Round h a b c d e f g 0x12835b01 w9 in
  let w10 := read_be32 (drop 40 buf) in let '(b, f) := Round g h a b c d e f 0x243185be w10 in
  let w11 := read_be32 (drop 44 buf) in let '(a, e) := Round f g h a b c d e 0x550c7dc3 w11 in
  let w12 := read_be32 (drop 48 buf) in let '(h, d) := Round e f g h a b c d 0x72be5d74 w12 in
  let w13 := read_be32 (drop 52 buf) in let '(g, c) := Round d e f g h a b c 0x80deb1fe w13 in
  let w14 := read_be32 (drop 56 buf) in let '(f, b) := Round c d e f g h a b 0x9bdc06a7 w14 in
  let w15 := read_be32 (drop 60 buf) in let '(e, a) := Round b c d e f g h a 0xc19bf174 w15 in
  let w0 := u32 (w0 + sigma1 w14 + w9 + sigma0 w1) in let '(d, h) := Round a b c d e f g h 0xe49b69c1 w0 in
  let w1 := u32 (w1 + sigma1 w15 + w10 + sigma0 w2) in let '(c, g) := Round h a b c d e f g 0xefbe4786 w1 in
  let w2 := u32 (w2 + sigma1 w0 + w11 + sigma0 w3) in let '(b, f) := Round g h a b c d e f 0x0fc19dc6 w2 in
  let w3 := u32 (w3 + sigma1 w1 + w12 + sigma0 w4) in let '(a, e) := Round f g h a b c d e 0x240ca1cc w3 in
  let w4 := u32 (w4 + sigma1 w2 + w13 + sigma0 w5) in let '(h, d) := Round e f g h a b c d 0x2de92c6f w4 in
  let w5 := u32 (w5 + sigma1 w3 + w14 + sigma0 w6) in let '(g, c) := Round d e f g h a b c 0x4a7484aa w5 in
  let w6 := u32 (w6 + sigma1 w4 + w15 + sigma0 w7) in let '(f, b) := Round c d e f g h a b 0x5cb0a9dc w6 in
  let w7 := u32 (w7 + sigma1 w5 + w0 + sigma0 w8) in let '(e, a) := Round b c d e f g h a 0x76f988da w7 in
  let w8 := u32 (w8 + sigma1 w6 + w1 + sigma0 w9) in let '(d, h) := Round a b c d e f g h 0x983e5152 w8 in
  let w9 := u32 (w9 + sigma1 w7 + w2 + sigma0 w10) in let '(c, g) := Round h a b c d e f g 0xa831c66d w9 in
  let w10 := u32 (w10 + sigma1 w8 + w3 + sigma0 w11) in let '(b, f) := Round g h a b c d e f 0xb00327c8 w10 in
  let w11 := u32 (w11 + sigma1 w9 + w4 + sigma0 w12) in let '(a, e) := Round f g h a b c d e 0xbf597fc7 w11 in
  let w12 := u32 (w12 + sigma1 w10 + w5 + sigma0 w13) in let '(h, d) := Round e f g h a b c d 0xc6e00bf3 w12 in
  let w13 := u32 (w13 + sigma1 w11 + w6 + sigma0 w14) in let '(g, c) := Round d e f g h a b c 0xd5a79147 w13 in
  let w14 := u32 (w14 + sigma1 w12 + w7 + sigma0 w15) in let '(f, b) := Round c d e f g h a b 0x06ca6351 w14 in
  let w15 := u32 (w15 + sigma1 w13 + w8 + sigma0 w0) in let '(e, a) := Round b c d e f g h a 0x14292967 w15 in
  let w0 := u32 (w0 + sigma1 w14 + w9 + sigma0 w1) in let '(d, h) := Round a b c d e f g h 0x27b70a85 w0 in
  let w1 := u32 (w1 + sigma1 w15 + w10 + sigma0 w2) in let '(c, g) := Round h a b c d e f g 0x2e1b2138 w1 in
  let w2 := u32 (w2 + sigma1 w0 + w11 + sigma0 w3) in let '(b, f) := Round g h a b c d e f 0x4d2c6dfc w2 in
  let w3 := u32 (w3 + sigma1 w1 + w12 + sigma0 w4) in let '(a, e) := Round f g h a b c d e 0x53380d13 w3 in
  let w4 := u32 (w4 + sigma1 w2 + w13 + sigma0 w5) in let '(h, d) := Round e f g h a b c d 0x650a7354 w4 in
  let w5 := u32 (w5 + sigma1 w3 + w14 + sigma0 w6) in let '(g, c) := Round d e f g h a b c 0x766a0abb w5 in
  let w6 := u32 (w6 + sigma1 w4 + w15 + sigma0 w7) in let '(f, b) := Round c d e f g h a b 0x81c2c92e w6 in
  let w7 := u32 (w7 + sigma1 w5 + w0 + sigma0 w8) in let '(e, a) := Round b c d e f g h a 0x92722c85 w7 in
  let w8 := u32 (w8 + sigma1 w6 + w1 + sigma0 w9) in let '(d, h) := Round a b c d e f g h 0xa2bfe8a1 w8 in
  let w9 := u32 (w9 + sigma1 w7 + w2 + sigma0 w10) in let '(c, g) := Round h a b c d e f g 0xa81a664b w9 in
  let w10 := u32 (w10 + sigma1 w8 + w3 + sigma0 w11) in let '(b, f) := Round g h a b c d e f 0xc24b8b70 w10 in
  let w11 := u32 (w11 + sigma1 w9 + w4 + sigma0 w12) in let '(a, e) := Round f g h a b c d e 0xc76c51a3 w11 in
  let w12 := u32 (w12 + sigma1 w10 + w5 + sigma0 w13) in let '(h, d) := Round e f g h a b c d 0xd192e819 w12 in
  let w13 := u32 (w13 + sigma1 w11 + w6 + sigma0 w14) in let '(g, c) := Round d e f g h a b c 0xd6990624 w13 in
  let w14 := u32 (w14 + sigma1 w12 + w7 + sigma0 w15) in let '(f, b) := Round c d e f g h a b 0xf40e3585 w14 in
  let w15 := u32 (w15 + sigma1 w13 + w8 + sigma0 w0) in let '(e, a) := Round b c d e f g h a 0x106aa070 w15 in
  let w0 := u32 (w0 + sigma1 w14 + w9 + sigma0 w1) in let '(d, h) := Round a b c d e f g h 0x19a4c116 w0 in
  let w1 := u32 (w1 + sigma1 w15 + w10 + sigma0 w2) in let '(c, g) := Round h a b c d e f g 0x1e376c08 w1 in
  let w2 := u32 (w2 + sigma1 w0 + w11 + sigma0 w3) in let '(b, f) := Round g h a b c d e f 0x2748774c w2 in
  let w3 := u32 (w3 + sigma1 w1 + w12 + sigma0 w4) in let '(a, e) := Round f g h a b c d e 0x34b0bcb5 w3 in
  let w4 := u32 (w4 + sigma1 w2 + w13 + sigma0 w5) in let '(h, d) := Round e f g h a b c d 0x391c0cb3 w4 in
  let w5 := u32 (w5 + sigma1 w3 + w14 + sigma0 w6) in let '(g, c) := Round d e f g h a b c 0x4ed8aa4a w5 in
  let w6 := u32 (w6 + sigma1 w4 + w15 + sigma0 w7) in let '(f, b) := Round c d e f g h a b 0x5b9cca4f w6 in
  let w7 := u32 (w7 + sigma1 w5 + w0 + sigma0 w8) in let '(e, a) := Round b c d e f g h a 0x682e6ff3 w7 in
  let w8 := u32 (w8 + sigma1 w6 + w1 + sigma0 w9) in let '(d, h) := Round a b c d e f g h 0x748f82ee w8 in
  let w9 := u32 (w9 + sigma1 w7 + w2 + sigma0 w10) in let '(c, g) := Round h a b c d e f g 0x78a5636f w9 in
  let w10 := u32 (w10 + sigma1 w8 + w3 + sigma0 w11) in let '(b, f) := Round g h a b c d e f 0x84c87814 w10 in
  let w11 := u32 (w11 + sigma1 w9 + w4 + sigma0 w12) in let '(a, e) := Round f g h a b c d e 0x8cc70208 w11 in
  let w12 := u32 (w12 + sigma1 w10 + w5 + sigma0 w13) in let '(h, d) := Round e f g h a b c d 0x90befffa w12 in
  let w13 := u32 (w13 + sigma1 w11 + w6 + sigma0 w14) in let '(g, c) := Round d e f g h a b c 0xa4506ceb w13 in
  let w14 := u32 (w14 + sigma1 w12 + w7 + sigma0 w15) in let '(f, b) := Round c d e f g h a b 0xbef9a3f7 w14 in
  let w15 := u32 (w15 + sigma1 w13 + w8 + sigma0 w0) in let '(e, a) := Round b c d e f g h a 0xc67178f2 w15 in
  [u32 (at_ s 0 + a); u32 (at_ s 1 + b); u32 (at_ s 2 + c); u32 (at_ s 3 + d);
   u32 (at_ s 4 + e); u32 (at_ s 5 + f); u32 (at_ s 6 + g); u32 (at_ s 7 + h)].

(** ** The streaming interface *)

(** hash.h 13-17. *)
Record sha256 : Type := mkSha256 { sha_s : list Z; sha_buf : Bytes; sha_bytes : Z }.

(** hash_impl.h 31-41: the buffer keeps what it holds. *)
Definition sha256_initialize (hash : sha256) : sha256 :=
  mkSha256
    [0x6a09e667; 0xbb67ae85; 0x3c6ef372; 0xa54ff53a; 0x510e527f; 0x9b05688c; 0x1f83d9ab; 0x5be0cd19]
    (sha_buf hash) 0.

(** [memcpy(buf + off, data, len)]. *)
Definition memcpy_at (buf : Bytes) (off : nat) (data : Bytes) : Bytes :=
  take off buf ++ data ++ drop (off + length data) buf.

(** The loop and the copy of the rest, hash_impl.h 130-142. Every
    turn consumes at least one byte of the input. *)
Fixpoint sha256_write_loop (fuel : nat) (s : list Z) (buf : Bytes) (bufsize : nat) (data : Bytes) : list Z * Bytes :=
  match fuel with
  | O => (s, buf)
  | S f =>
      if bool_decide (64 - bufsize <= length data)%nat then
        let chunk_len := (64 - bufsize)%nat in
        let buf := memcpy_at buf bufsize (take chunk_len data) in
        sha256_write_loop f (sha256_transform s buf) buf 0 (drop chunk_len data)
      else if bool_decide (data <> []) then (s, memcpy_at buf bufsize data)
      else (s, buf)
  end.

(** hash_impl.h 126-143. *)
Definition sha256_write (hash : sha256) (data : Bytes) : sha256 :=
  let bufsize := Z.to_nat (Z.land (sha_bytes hash) 0x3F) in
  let (s, buf) := sha256_write_loop (S (length data)) (sha_s hash) (sha_buf hash) bufsize data in
  mkSha256 s buf (u64 (sha_bytes hash + zlen data)).

(** hash_impl.h 145-159: the object, with its chaining value wiped, and [out32]. *)
Definition sha256_finalize (hash : sha256) : sha256 * Bytes :=
  let pad := 0x80 :: replicate 63 0 in
  let sizedesc :=
    write_be32 (u32 (Z.shiftr (sha_bytes hash) 29)) ++ write_be32 (u32 (Z.shiftl (sha_bytes hash) 3)) in
  let hash := sha256_write hash (take (Z.to_nat (1 + (119 - sha_bytes hash mod 64) mod 64)) pad) in
  let hash := sha256_write hash sizedesc in
  (mkSha256 (replicate 8 0) (sha_buf hash) (sha_bytes hash),
   concat ((fun i => write_be32 (at_ (sha_s hash) i)) <$> seq 0 8)).

(** hash_impl.h 163-172. *)
Definition sha256_initialize_tagged (hash : sha256) (tag : Bytes) : sha256 :=
  let hash := sha256_write (sha256_initialize hash) tag in
  let (hash, buf) := sha256_finalize hash in
  let hash := sha256_initialize hash in
  sha256_write (sha256_write hash buf) buf.

(** ** HMAC *)

(** hash.h 24-26. *)
Record hmac_sha256 : Type := mkHmac { hm_inner : sha256; hm_outer : sha256 }.

(** hash_impl.h 178-204; [fresh] is the local [sha256] object's memory. *)
Definition hmac_sha256_initialize (hash : hmac_sha256) (fresh : sha256) (key : Bytes) : hmac_sha256 :=
  let rkey :=
    if zlen key <=? 64 then key ++ replicate (64 - length key) 0
    else (sha256_finalize (sha256_write (sha256_initialize fresh) key)).2 ++ replicate 32 0 in
  let rkey := (fun b => Z.lxor b 0x5c) <$> rkey in
  let outer := sha256_write (sha256_initialize (hm_outer hash)) rkey in
  let rkey := (fun b => Z.lxor b (Z.lxor 0x5c 0x36)) <$> rkey in
  let inner := sha256_write (sha256_initialize (hm_inner hash)) rkey in
  mkHmac inner outer.

(** hash_impl.h 206-208. *)
Definition hmac_sha256_write (hash : hmac_sha256) (data : Bytes) : hmac_sha256 :=
  mkHmac (sha256_write (hm_inner hash) data) (hm_outer hash).

(** hash_impl.h 210-216. *)
Definition hmac_sha256_finalize (hash : hmac_sha256) : hmac_sha256 * Bytes :=
  let (inner, temp) := sha256_finalize (hm_inner hash) in
  let outer := sha256_write (hm_outer hash) temp in
  let (outer, out32) := sha256_finalize outer in
  (mkHmac inner outer, out32).

(** ** The RFC 6979 generator *)

(** hash.h 33-37. *)
Record rfc6979_hmac_sha256 : Type := mkRng { rng_v : Bytes; rng_k : Bytes; rng_retry : bool }.

(** One [initialize], a sequence of [write]s and the [finalize] of the local
    object [hmac] whose memory is [mem]. *)
Definition hmac_run (mem : hmac_sha256) (key : Bytes) (parts : list Bytes) : Bytes :=
  let hmac := hmac_sha256_initialize mem (hm_inner mem) key in
  (hmac_sha256_finalize (foldl hmac_sha256_write hmac parts)).2.

(** hash_impl.h 222-250. *)
Definition rfc6979_hmac_sha256_initialize (mem : hmac_sha256) (key : Bytes) : rfc6979_hmac_sha256 :=
  let v := replicate 32 0x01 in
  let k := replicate 32 0x00 in
  let k := hmac_run mem k [v; [0x00]; key] in
  let v := hmac_run mem k [v] in
  let k := hmac_run mem k [v; [0x01]; key] in
  let v := hmac_run mem k [v] in
  mkRng v k false.

(** The loop of hash_impl.h 266-278: [out] so far, [outlen] bytes to come. *)
Fixpoint generate_loop (mem : hmac_sha256) (fuel : nat) (k v : Bytes) (out : Bytes) (outlen : nat) : Bytes * Bytes :=
  match fuel with
  | O => (v, out)
  | S f =>
      if bool_decide (0 < outlen)%nat then
        let v := hmac_run mem k [v] in
        let now := Nat.min outlen 32 in
        generate_loop mem f k v (out ++ take now v) (outlen - now)
      else (v, out)
  end.

(** hash_impl.h 252-281. *)
Definition rfc6979_hmac_sha256_generate (mem : hmac_sha256) (rng : rfc6979_hmac_sha256) (outlen : nat) : rfc6979_hmac_sha256 * Bytes :=
  let '(k, v) :=
    if rng_retry rng then
      let k := hmac_run mem (rng_k rng) [rng_v rng; [0x00]] in
      (k, hmac_run mem k [rng_v rng])
    else (rng_k rng, rng_v rng) in
  let (v, out) := generate_loop mem (S outlen) k v [] outlen in
  (mkRng v k true, out).

(** ** The standards *)

Module Fips.

(** FIPS 180-4, 4.1.2. *)
Definition Ch (x y z : Z) : Z := Z.lxor (Z.land x y) (Z.land (Z.lnot x) z).

Definition Maj (x y z : Z) : Z := Z.lxor (Z.lxor (Z.land x y) (Z.land x z)) (Z.land y z).

(** The first 64 primes and integer roots: the standard's constants are
    leading bits of fractional parts of roots of primes. *)
Definition primes : list Z :=
  List.filter (fun n => forallb (fun d => negb (n mod d =? 0)) (seqZ 2 (n - 2))) (seqZ 2 310).

Definition root (k x : Z) : Z :=
  foldr (fun i r => if (r + 2 ^ i) ^ k <=? x then r + 2 ^ i else r) 0 (seqZ 0 36).

Definition root_bits (k p : Z) : Z := root k (p * 2 ^ (32 * k)) mod 2 ^ 32.

(** 4.2.2: the cube roots. *)
Definition K : list Z := Eval vm_compute in root_bits 3 <$> primes.

(** 5.3.3: the square roots of the first eight. *)
Definition H0 : list Z := Eval vm_compute in root_bits 2 <$> take 8 primes.

(** 6.2.2, step 1, the newest word first: from [W(t-1), ..., W(0)] the next
    word is sigma1(W(t-2)) + W(t-7) + sigma0(W(t-15)) + W(t-16). *)
Fixpoint extend (n : nat) (W : list Z) : list Z :=
  match n with
  | O => W
  | S n' => extend n' (u32 (sigma1 (at_ W 1) + at_ W 6 + sigma0 (at_ W 14) + at_ W 15) :: W)
  end.

Definition schedule (M : list Z) : list Z := reverse (extend 48 (reverse M)).

(** 6.2.2, step 3. *)
Definition step (v : list Z) (kw : Z * Z) : list Z :=
  match v with
  | [a; b; c; d; e; f; g; h] =>
      let T1 := u32 (h + Sigma1 e + Ch e f g + kw.1 + kw.2) in
      let T2 := u32 (Sigma0 a + Maj a b c) in
      [u32 (T1 + T2); a; b; c; u32 (d + T1); e; f; g]
  | _ => v
  end.

(** 6.2.2, steps 1-4, on a block of 16 words. *)
Definition compress (H : list Z) (M : list Z) : list Z :=
  zip_with (fun x y => u32 (x + y)) H (foldl step H (zip K (schedule M))).

(** 5.1.1 and 5.2.1, for a message of whole bytes. *)
Definition pad (n : nat) : Bytes :=
  0x80 :: replicate ((119 - n mod 64) mod 64)%nat 0 ++
  ((fun i => 8 * Z.of_nat n / 256 ^ Z.of_nat (7 - i) mod 256) <$> seq 0 8).

Definition words (block : Bytes) : list Z := (fun i => be_val (take 4 (drop (4 * i) block))) <$> seq 0 16.

Definition blocks (msg : Bytes) : list Bytes := reshape (replicate (length msg / 64)%nat 64%nat) msg.

Definition sha256 (msg : Bytes) : Bytes :=
  let H := foldl (fun H b => compress H (words b)) H0 (blocks (msg ++ pad (length msg))) in
  concat ((fun x => (fun i => x / 256 ^ (3 - i) mod 256) <$> [0; 1; 2; 3]) <$> H).

(** RFC 2104. *)
Definition hmac (key msg : Bytes) : Bytes :=
  let key := if (length key <=? 64)%nat then key else sha256 key in
  let key := key ++ replicate (64 - length key) 0 in
  sha256 ((Z.lxor 0x5c <$> key) ++ sha256 ((Z.lxor 0x36 <$> key) ++ msg)).

End Fips.

(** SHA-256 of the empty message and of "abc", HMAC of RFC 4231 (case 2). *)
Example sha256_known_answers :
  be_val (Fips.sha256 []) = 0xe3b0c44298fc1c149afbf4c8996fb92427ae41e4649b934ca495991b7852b855 /\
  be_val (Fips.sha256 (str "abc")) = 0xba7816bf8f01cfea414140de5dae2223b00361a396177a9cb410ff61f20015ad /\
  be_val (Fips.hmac (str "Jefe") (str "what do ya want for nothing?")) =
    0x5bdcc146bf60754e6a042426089575c75a003f089d2739839dec58b964ec3843.
Proof. vm_compute. auto. Qed.

(** ** The compression function computes the standard's *)

Lemma Ch_fips x y z : Ch x y z = Fips.Ch x y z.
Proof.
  apply Z.bits_inj'. intros i Hi. unfold Ch, Fips.Ch.
  rewrite !Z.lxor_spec, !Z.land_spec, Z.lxor_spec, Z.lnot_spec by done.
  by destruct (Z.testbit x i), (Z.testbit y i), (Z.testbit z i).
Qed.

Lemma Maj_fips x y z : Maj x y z = Fips.Maj x y z.
Proof.
  apply Z.bits_inj'. intros i Hi. unfold Maj, Fips.Maj.
  rewrite Z.lor_spec, !Z.lxor_spec, !Z.land_spec, Z.lor_spec.
  by destruct (Z.testbit x i), (Z.testbit y i), (Z.testbit z i).
Qed.

(** A round of the code on the variables in the roles of the standard. *)
Lemma step_Round a b c d e f g h k w :
  Fips.step [a; b; c; d; e; f; g; h] (k, w) =
  let '(d', h') := Round a b c d e f g h k w in [h'; a; b; c; d'; e; f; g].
Proof. unfold Round, Fips.step. by rewrite Ch_fips, Maj_fips. Qed.

Lemma step_foldl a b c d e f g h k w kws :
  foldl Fips.step [a; b; c; d; e; f; g; h] ((k, w) :: kws) =
  let '(d', h') := Round a b c d e f g h k w in foldl Fips.step [h'; a; b; c; d'; e; f; g] kws.
Proof. cbn [foldl]. rewrite step_Round. by destruct (Round _ _ _ _ _ _ _ _ _ _). Qed.

(** The word the code adds in place is the standard's next word. *)
Lemma extend_S n x15 x14 x13 x12 x11 x10 x9 x8 x7 x6 x5 x4 x3 x2 x1 x0 W :
  Fips.extend (S n) (x15 :: x14 :: x13 :: x12 :: x11 :: x10 :: x9 :: x8 :: x7 :: x6 :: x5 :: x4 :: x3 :: x2 :: x1 :: x0 :: W) =
  Fips.extend n (u32 (x0 + sigma1 x14 + x9 + sigma0 x1) :: x15 :: x14 :: x13 :: x12 :: x11 :: x10 :: x9 :: x8 :: x7 :: x6 :: x5 :: x4 :: x3 :: x2 :: x1 :: x0 :: W).
Proof.
  cbn [Fips.extend]. do 2 f_equal. unfold at_. cbn [nth]. f_equal. lia.
Qed.

Lemma read_be32_val p : (4 <= length p)%nat -> bytes_ok p -> read_be32 p = be_val (take 4 p).
Proof.
  destruct p as [|p0 [|p1 [|p2 [|p3 p]]]]; cbn [length]; try lia. intros _ H.
  rewrite !bytes_ok_cons in H. destruct H as (H0 & H1 & H2 & H3 & _). unfold is_u8 in *.
  unfold read_be32, at_, be_val. cbn [nth take foldl].
  replace (Z.shiftl p2 8) with (Z.shiftl p2 8 + 0) by lia.
  rewrite (Z.shiftl_mul_pow2 p1), (Z.shiftl_mul_pow2 p2) by lia.
  rewrite (lor_shiftl_add p0 (p1 * 2 ^ 16) 24) by lia.
  replace (p0 * 2 ^ 24 + p1 * 2 ^ 16) with (Z.shiftl (p0 * 256 + p1) 16)
    by (rewrite Z.shiftl_mul_pow2; lia).
  rewrite (lor_shiftl_add _ _ 16) by lia.
  replace ((p0 * 256 + p1) * 2 ^ 16 + (p2 * 2 ^ 8 + 0)) with (Z.shiftl (p0 * 65536 + p1 * 256 + p2) 8)
    by (rewrite Z.shiftl_mul_pow2; lia).
  rewrite lor_shiftl_add by lia. rewrite take_0. cbn [foldl]. lia.
Qed.

Lemma let_intro {A B} (v : A) (body : A -> B) (r : B) :
  (forall x, x = v -> body x = r) -> (let x := v in body x) = r.
Proof. intros H. by apply H. Qed.

(** Name the value of each variable of a straight-line program on the left
    of an equation. *)
Ltac name_lets :=
  repeat match goal with
  | |- (let x := ?v in @?body x) = ?r =>
      refine (let_intro v body r _); let w := fresh "w" in let E := fresh "E" in
      intros w E; lazy beta
  | |- match Round ?a ?b ?c ?d ?e ?f ?g ?h ?k ?w with _ => _ end = _ =>
      let E := fresh "R" in destruct (Round a b c d e f g h k w) as [? ?] eqn:E
  end.

(** The rounds of [sha256_transform] match those of the standard one by one:
    the first loop names each word and the two variables each round writes,
    the second folds the standard's words into these names, the third its
    rounds. *)
Lemma transform_rounds s buf :
  length s = 8%nat ->
  sha256_transform s buf =
  Fips.compress s ((fun i => read_be32 (drop (4 * i) buf)) <$> seq 0 16).
Proof.
  intros L. do 8 (destruct s as [|? s]; [done|]). destruct s; [|done].
  cbv delta [sha256_transform] beta. name_lets.
  unfold Fips.compress, Fips.schedule. cbn [seq fmap list_fmap Nat.mul Nat.add].
  repeat match goal with E : ?w = read_be32 ?x |- context [read_be32 ?x] => rewrite <- E end.
  unfold reverse at 2. cbn [rev_append].
  repeat (rewrite extend_S; match goal with E : _ = ?v |- context [Fips.extend _ (?v :: _)] => rewrite <- E end).
  cbn [Fips.extend]. unfold reverse. cbn [rev_append]. unfold Fips.K. cbn [zip zip_with].
  repeat match goal with E : ?w = at_ _ _ |- _ => unfold at_ in E; cbn [nth] in E; subst w end.
  repeat (rewrite step_foldl; match goal with
    E : Round ?a ?b ?c ?d ?e ?f ?g ?h ?k ?w = _ |- context [Round ?a ?b ?c ?d ?e ?f ?g ?h ?k ?w] =>
      rewrite E; clear E; lazy beta iota end).
  reflexivity.
Qed.

Lemma transform_compress s buf :
  length s = 8%nat -> length buf = 64%nat -> bytes_ok buf ->
  sha256_transform s buf = Fips.compress s (Fips.words buf).
Proof.
  intros L Lb B. rewrite transform_rounds by done. f_equal.
  apply list_fmap_ext. intros j i Hi. apply lookup_seq in Hi as [-> Hi].
  apply read_be32_val; [rewrite length_drop; lia|by apply bytes_ok_drop].
Qed.

Lemma step_length v kw : length v = 8%nat -> length (Fips.step v kw) = 8%nat.
Proof. intros L. do 8 (destruct v as [|? v]; [done|]). by destruct v. Qed.

Lemma compress_length H M : length H = 8%nat -> length (Fips.compress H M) = 8%nat.
Proof.
  intros L. unfold Fips.compress.
  assert (F : forall kws v, length v = 8%nat -> length (foldl Fips.step v kws) = 8%nat).
  { induction kws as [|kw kws IH]; intros v Lv; [done|]. cbn [foldl]. by apply IH, step_length. }
  rewrite length_zip_with, F; lia.
Qed.
