(* ===== verification/Sha256Stream.v ===== *)
(** * Streaming SHA-256, HMAC and RFC 6979: equivalence with the standards

    The objects of Sha256.v take their input in pieces. [absorbed h m] says
    that the object [h] has taken in the message [m]: the chaining value is
    that of the whole blocks of [m], the buffer starts with the rest. The
    operations preserve it, and the digest is that of FIPS 180-4; HMAC and
    the generator follow. *)

From stdpp Require Import base list numbers strings.
From Stdlib Require Import ZArith Lia ZifyNat.
From S2P Require Import Prelude Keccak Sha256.

#[local] Open Scope Z_scope.

(** Linear arithmetic with division by constants. *)
Ltac div_lia := zify; Z.to_euclidean_division_equations; lia.

(** ** Blocks of a byte string *)

Lemma blocks_cons b x : length b = 64%nat -> Fips.blocks (b ++ x) = b :: Fips.blocks x.
Proof.
  intros L. unfold Fips.blocks. rewrite length_app, L.
  replace ((64 + length x) / 64)%nat with (S (length x / 64)) by div_lia.
  cbn [replicate reshape]. by rewrite take_app_length', drop_app_length'.
Qed.

Lemma sha_blocks_short x : (length x < 64)%nat -> Fips.blocks x = [].
Proof. intros L. unfold Fips.blocks. by rewrite Nat.div_small. Qed.

(** What is left of a string after its whole blocks. *)
Definition partial (m : Bytes) : Bytes := drop (64 * (length m / 64)) m.

Lemma partial_short m : (length m < 64)%nat -> partial m = m.
Proof. intros L. unfold partial. by rewrite Nat.div_small. Qed.

Lemma partial_cons b x : length b = 64%nat -> partial (b ++ x) = partial x.
Proof.
  intros L. unfold partial. rewrite length_app, L.
  replace (64 * ((64 + length x) / 64))%nat with (length b + 64 * (length x / 64))%nat by div_lia.
  by rewrite drop_app_add.
Qed.

Lemma partial_length m : length (partial m) = (length m mod 64)%nat.
Proof. unfold partial. rewrite length_drop. div_lia. Qed.

(** Induction on a byte string, block by block. *)
Lemma block_ind (P : Bytes -> Prop) :
  (forall m, (length m < 64)%nat -> P m) ->
  (forall b m, length b = 64%nat -> P m -> P (b ++ m)) -> forall m, P m.
Proof.
  intros P0 PS m. remember (length m) as n eqn:E. revert m E.
  induction n as [n IH] using lt_wf_ind. intros m ->.
  destruct (decide (length m < 64)%nat) as [L|L]; [by apply P0|].
  rewrite <- (take_drop 64 m). apply PS; [rewrite length_take; lia|].
  apply (IH (length (drop 64 m))); [rewrite length_drop; lia|done].
Qed.

Lemma blocks_app a x : Fips.blocks (a ++ x) = Fips.blocks a ++ Fips.blocks (partial a ++ x).
Proof.
  induction a as [a L|b a L IH] using block_ind.
  - by rewrite (sha_blocks_short a), partial_short.
  - by rewrite <- app_assoc, (blocks_cons b), (blocks_cons b a), IH, partial_cons by done.
Qed.

Lemma partial_app a x : partial (a ++ x) = partial (partial a ++ x).
Proof.
  induction a as [a L|b a L IH] using block_ind; [by rewrite (partial_short a)|].
  by rewrite <- app_assoc, (partial_cons b), IH, (partial_cons b a) by done.
Qed.

Lemma partial_bytes m : bytes_ok m -> bytes_ok (partial m).
Proof. apply bytes_ok_drop. Qed.

(** The chaining value after the whole blocks of a string. *)
Definition chain (H : list Z) (m : Bytes) : list Z :=
  foldl (fun H b => Fips.compress H (Fips.words b)) H (Fips.blocks m).

Lemma chain_app H a x : chain (chain H a) (partial a ++ x) = chain H (a ++ x).
Proof. unfold chain. by rewrite (blocks_app a x), foldl_app. Qed.

Lemma chain_length H m : length H = 8%nat -> length (chain H m) = 8%nat.
Proof.
  unfold chain. revert H. induction (Fips.blocks m) as [|b bs IH]; intros H L; [done|].
  cbn [foldl]. by apply IH, compress_length.
Qed.

(** ** The buffered writes *)

Lemma memcpy_at_full buf off data :
  (off + length data = length buf)%nat -> memcpy_at buf off data = take off buf ++ data.
Proof. intros L. unfold memcpy_at. by rewrite drop_ge, app_nil_r by lia. Qed.

Lemma memcpy_at_spec buf off data :
  (off + length data <= length buf)%nat ->
  length (memcpy_at buf off data) = length buf /\
  take (off + length data) (memcpy_at buf off data) = take off buf ++ data.
Proof.
  intros L. unfold memcpy_at. split.
  - rewrite !length_app, length_take, length_drop. lia.
  - rewrite app_assoc. apply take_app_length'. rewrite length_app, length_take. lia.
Qed.

(** The loop hashes the whole blocks of the buffered bytes followed by the
    data, and leaves the rest at the start of the buffer. *)
Lemma write_loop_spec fuel s buf n data :
  (length data < fuel)%nat -> length s = 8%nat -> length buf = 64%nat -> (n < 64)%nat ->
  bytes_ok (take n buf) -> bytes_ok data ->
  let m := take n buf ++ data in
  exists buf', sha256_write_loop fuel s buf n data = (chain s m, buf') /\
    length buf' = 64%nat /\ take (length m mod 64) buf' = partial m.
Proof.
  revert s buf n data. induction fuel as [|fuel IH]; [lia|]. intros s buf n data Hf Ls Lb Hn B1 B2 m.
  assert (Lm : length m = (n + length data)%nat) by (unfold m; rewrite length_app, length_take; lia).
  cbn [sha256_write_loop]. case_bool_decide as Hc.
  - assert (Lt : length (take (64 - n) data) = (64 - n)%nat) by (rewrite length_take; lia).
    rewrite memcpy_at_full by lia. set (b := take n buf ++ take (64 - n) data).
    assert (Lb' : length b = 64%nat) by (unfold b; rewrite length_app, length_take; lia).
    assert (Bb : bytes_ok b) by (apply bytes_ok_app; split; [done|by apply bytes_ok_take]).
    rewrite transform_compress by done.
    destruct (IH (Fips.compress s (Fips.words b)) b 0%nat (drop (64 - n) data)) as (buf' & E & L' & P);
      [rewrite length_drop; lia|by apply compress_length|done|lia|apply bytes_ok_nil|by apply bytes_ok_drop|].
    assert (Em : m = b ++ drop (64 - n) data) by (unfold m, b; by rewrite <- app_assoc, take_drop).
    rewrite take_0, app_nil_l in E, P.
    exists buf'. rewrite E. split_and!; [|done|].
    + unfold chain. by rewrite Em, (blocks_cons b).
    + rewrite Em, partial_cons, length_app, Lb' by done. rewrite <- P. f_equal. div_lia.
  - assert (S : chain s m = s /\ partial m = m /\ (length m mod 64 = n + length data)%nat).
    { unfold chain. rewrite sha_blocks_short, partial_short by lia. rewrite Lm, Nat.mod_small by lia. done. }
    destruct S as (-> & -> & ->). case_bool_decide as Hd.
    + exists (memcpy_at buf n data). destruct (memcpy_at_spec buf n data) as [-> ->]; [lia|]. done.
    + subst data. exists buf. unfold m.
      rewrite app_nil_r. cbn [length]. by rewrite Nat.add_0_r.
Qed.

(** A hash object that has taken in the message [m]. *)
Definition absorbed (h : sha256) (m : Bytes) : Prop :=
  length (sha_buf h) = 64%nat /\ bytes_ok m /\ zlen m < 2 ^ 64 /\
  sha_bytes h = zlen m /\ sha_s h = chain Fips.H0 m /\
  take (length m mod 64) (sha_buf h) = partial m.

Lemma initialize_absorbed h : length (sha_buf h) = 64%nat -> absorbed (sha256_initialize h) [].
Proof. intros L. repeat split; [done|constructor]. Qed.

Lemma write_absorbed h m d :
  absorbed h m -> bytes_ok d -> zlen m + zlen d < 2 ^ 64 -> absorbed (sha256_write h d) (m ++ d).
Proof.
  intros (Lb & B & _ & Eb & Es & Ep) Bd Hn. unfold sha256_write.
  replace (Z.to_nat (Z.land (sha_bytes h) 0x3F)) with (length m mod 64)%nat; cycle 1.
  { rewrite Eb. change 0x3F with (Z.ones 6). rewrite Z.land_ones by lia. unfold zlen. div_lia. }
  destruct (write_loop_spec (S (length d)) (sha_s h) (sha_buf h) (length m mod 64) d) as (buf' & E & L' & P);
    [lia|rewrite Es; by apply chain_length|done|div_lia|rewrite Ep; by apply partial_bytes|done|].
  rewrite E. rewrite Ep in *. unfold absorbed. cbn [sha_buf sha_bytes sha_s].
  rewrite Es, chain_app, zlen_app, Eb, u64_id
    by (unfold is_u64; pose proof (zlen_nonneg m); pose proof (zlen_nonneg d); lia).
  split_and!; [done|by apply bytes_ok_app|lia|done|done|].
  rewrite partial_app, <- P. f_equal. rewrite !length_app, partial_length. div_lia.
Qed.

(** ** The digest *)

Lemma write_be32_div x : 0 <= x -> write_be32 x = (fun i => x / 256 ^ (3 - i) mod 256) <$> [0; 1; 2; 3].
Proof.
  intros H. unfold write_be32, u8. cbn [fmap list_fmap]. rewrite !Z.shiftr_div_pow2 by lia.
  repeat f_equal. change (256 ^ (3 - 3)) with 1. by rewrite Z.div_1_r.
Qed.

(** The two words of [sizedesc] are the 64-bit count of bits. *)
Lemma sizedesc_spec n : 0 <= n < 2 ^ 61 ->
  write_be32 (u32 (Z.shiftr n 29)) ++ write_be32 (u32 (Z.shiftl n 3)) =
  (fun i => 8 * n / 256 ^ Z.of_nat (7 - i) mod 256) <$> seq 0 8.
Proof.
  intros H. rewrite Z.shiftr_div_pow2, Z.shiftl_mul_pow2 by lia.
  rewrite (u32_id (n / 2 ^ 29)) by (unfold is_u32; div_lia).
  rewrite !write_be32_div by (first [apply u32_range|div_lia]).
  cbn [fmap list_fmap seq app Nat.sub]. unfold u32.
  repeat match goal with
  | |- context [256 ^ ?e] => let v := eval vm_compute in (256 ^ e) in change (256 ^ e) with v
  end.
  change (2 ^ 29) with 536870912; change (2 ^ 32) with 4294967296; change (2 ^ 3) with 8.
  do 8 (apply (f_equal2 cons); [div_lia|]). done.
Qed.

(** The padding the code writes is that of the standard. *)
Lemma pad_spec n :
  take (Z.to_nat (1 + (119 - Z.of_nat n mod 64) mod 64)) (0x80 :: replicate 63 0) =
  0x80 :: replicate ((119 - n mod 64) mod 64)%nat 0.
Proof.
  replace (Z.to_nat (1 + (119 - Z.of_nat n mod 64) mod 64)) with (S ((119 - n mod 64) mod 64)) by div_lia.
  cbn [take firstn]. f_equal. rewrite take_replicate. f_equal. div_lia.
Qed.

Lemma digest_concat H :
  length H = 8%nat -> Forall (Z.le 0) H ->
  concat ((fun i => write_be32 (at_ H i)) <$> seq 0 8) =
  concat ((fun x => (fun i => x / 256 ^ (3 - i) mod 256) <$> [0; 1; 2; 3]) <$> H).
Proof.
  intros L F. do 8 (destruct H as [|? H]; [done|]). destruct H; [|done].
  rewrite !Forall_cons in F. destruct_and!. cbn [seq]. rewrite !fmap_cons, !fmap_nil.
  unfold at_. cbn [nth]. by rewrite !write_be32_div.
Qed.

Lemma chain_nonneg H m : Forall (Z.le 0) H -> Forall (Z.le 0) (chain H m).
Proof.
  unfold chain. revert H. induction (Fips.blocks m) as [|b bs IH]; intros H F; [done|].
  cbn [foldl]. apply IH. unfold Fips.compress. apply Forall_lookup_2. intros i x E.
  apply lookup_zip_with_Some in E as (a & c & -> & _ & _). apply u32_range.
Qed.

Lemma bytes_replicate n b : is_u8 b -> bytes_ok (replicate n b).
Proof. intros. by apply Forall_replicate. Qed.

Lemma byte_list_ok {A} (f : A -> Z) l : bytes_ok ((fun i => f i mod 256) <$> l).
Proof. apply Forall_fmap, Forall_forall. intros x _. apply u8_range. Qed.

#[local] Hint Resolve bytes_replicate byte_list_ok bytes_ok_nil : gambit.

(** One [finalize] after any sequence of writes gives the digest. *)
Lemma finalize_absorbed h m :
  absorbed h m -> zlen m < 2 ^ 61 ->
  (sha256_finalize h).2 = Fips.sha256 m /\ length (sha_buf (sha256_finalize h).1) = 64%nat.
Proof.
  intros A Hm. pose proof (zlen_nonneg m). pose proof A as (_ & _ & _ & Eb & _).
  unfold sha256_finalize. rewrite Eb. rewrite sizedesc_spec by lia. 
  change (zlen m mod 64) with (Z.of_nat (length m) mod 64). rewrite pad_spec.
  set (p := 0x80 :: replicate _ 0). set (sz := _ <$> seq 0 8).
  assert (Lp : (length p <= 64)%nat) by (unfold p; cbn [length]; rewrite length_replicate; div_lia).
  assert (Ls : length sz = 8%nat) by (unfold sz; by rewrite length_fmap, length_seq).
  assert (Bp : bytes_ok p) by (apply bytes_ok_cons; split; [done|by apply bytes_replicate]).
  apply (write_absorbed _ _ p) in A; [|done|unfold zlen in *; lia].
  apply (write_absorbed _ _ sz) in A; [|apply byte_list_ok|rewrite zlen_app; unfold zlen in *; lia].
  destruct A as (Lb & _ & _ & _ & Es & _). split; [|exact Lb]. cbn [snd].
  assert (Em : (m ++ p) ++ sz = m ++ Fips.pad (length m)) by (by rewrite <- app_assoc).
  rewrite Es, digest_concat; [by rewrite Em|by apply chain_length|].
  apply chain_nonneg. unfold Fips.H0. repeat constructor; lia.
Qed.

Lemma writes_absorbed ds h m :
  absorbed h m -> Forall bytes_ok ds -> zlen m + zlen (concat ds) < 2 ^ 64 ->
  absorbed (foldl sha256_write h ds) (m ++ concat ds).
Proof.
  revert h m. induction ds as [|d ds IH]; intros h m A F Hn; cbn [foldl concat]; [by rewrite app_nil_r|].
  apply Forall_cons in F as [Fd F]. cbn [concat] in Hn. rewrite zlen_app in Hn.
  pose proof (zlen_nonneg (concat ds)).
  rewrite app_assoc. apply IH; [apply write_absorbed; [done|done|lia]|done|rewrite zlen_app; lia].
Qed.

Lemma sha256_bytes m : bytes_ok (Fips.sha256 m).
Proof.
  apply bytes_ok_concat, Forall_fmap, Forall_forall. intros x _. apply byte_list_ok.
Qed.

Lemma sha256_length m : length (Fips.sha256 m) = 32%nat.
Proof.
  unfold Fips.sha256. fold (chain Fips.H0 (m ++ Fips.pad (length m))).
  pose proof (chain_length Fips.H0 (m ++ Fips.pad (length m)) eq_refl) as L. revert L.
  generalize (chain Fips.H0 (m ++ Fips.pad (length m))) as H. intros H L.
  do 8 (destruct H as [|? H]; [done|]). by destruct H.
Qed.

(** ** HMAC *)

Definition mem_ok (mem : hmac_sha256) : Prop :=
  length (sha_buf (hm_inner mem)) = 64%nat /\ length (sha_buf (hm_outer mem)) = 64%nat.

Lemma lxor_bytes c bs : is_u8 c -> bytes_ok bs -> bytes_ok (Z.lxor c <$> bs).
Proof.
  intros Hc H. apply Forall_fmap. eapply Forall_impl; [exact H|]. intros b Hb.
  apply (lxor_bound c b 8); [lia|exact Hc|exact Hb].
Qed.

(** The key block of RFC 2104. *)
Definition key_block (key : Bytes) : Bytes :=
  let key := if (length key <=? 64)%nat then key else Fips.sha256 key in
  key ++ replicate (64 - length key) 0.

Lemma key_block_ok key : bytes_ok key -> bytes_ok (key_block key) /\ length (key_block key) = 64%nat.
Proof.
  intros B. unfold key_block. destruct (Nat.leb_spec (length key) 64).
  - split; [apply bytes_ok_app; split; [done|by apply bytes_replicate]|].
    rewrite length_app, length_replicate. lia.
  - split; [apply bytes_ok_app; split; [apply sha256_bytes|by apply bytes_replicate]|].
    by rewrite length_app, length_replicate, sha256_length.
Qed.

Lemma hmac_initialize_absorbed mem key :
  mem_ok mem -> bytes_ok key -> zlen key < 2 ^ 61 ->
  let h := hmac_sha256_initialize mem (hm_inner mem) key in
  absorbed (hm_inner h) (Z.lxor 0x36 <$> key_block key) /\
  absorbed (hm_outer h) (Z.lxor 0x5c <$> key_block key).
Proof.
  intros [Mi Mo] B Hk. unfold hmac_sha256_initialize. cbn [hm_inner hm_outer].
  set (rkey := if zlen key <=? 64 then _ else _).
  assert (E : rkey = key_block key).
  { unfold rkey, key_block, zlen. destruct (Z.leb_spec (Z.of_nat (length key)) 64), (Nat.leb_spec (length key) 64); try lia; [done|].
    pose proof (write_absorbed _ _ key (initialize_absorbed _ Mi) B) as A.
    rewrite zlen_nil in A. specialize (A ltac:(lia)).
    destruct (finalize_absorbed _ _ A Hk) as [-> _]. by rewrite sha256_length. }
  rewrite E. clearbody rkey. destruct (key_block_ok key B) as [Bk Lk].
  assert (X : (fun b => Z.lxor b 0x5c) <$> key_block key = Z.lxor 0x5c <$> key_block key).
  { apply list_fmap_ext. intros. apply Z.lxor_comm. }
  assert (Y : (fun b => Z.lxor b (Z.lxor 0x5c 0x36)) <$> (Z.lxor 0x5c <$> key_block key) = Z.lxor 0x36 <$> key_block key).
  { rewrite <- list_fmap_compose. apply list_fmap_ext. intros i x _. cbn [compose].
    rewrite (Z.lxor_comm 0x5c x), Z.lxor_assoc, <- (Z.lxor_assoc 0x5c), Z.lxor_nilpotent, Z.lxor_0_l. apply Z.lxor_comm. }
  rewrite X, Y.
  split; (rewrite <- (app_nil_l (_ <$> _)); apply write_absorbed;
    [by apply initialize_absorbed|by apply lxor_bytes|rewrite zlen_nil; unfold zlen; rewrite length_fmap; lia]).
Qed.

Lemma hmac_writes parts h :
  foldl hmac_sha256_write h parts = mkHmac (foldl sha256_write (hm_inner h) parts) (hm_outer h).
Proof. revert h. induction parts as [|d ds IH]; intros h; cbn [foldl]; [by destruct h|by rewrite IH]. Qed.

Lemma hmac_run_spec mem key parts :
  mem_ok mem -> bytes_ok key -> zlen key < 2 ^ 61 -> Forall bytes_ok parts -> zlen (concat parts) < 2 ^ 60 ->
  hmac_run mem key parts = Fips.hmac key (concat parts).
Proof.
  intros M B Hk F Hn. unfold hmac_run. rewrite hmac_writes.
  destruct (hmac_initialize_absorbed mem key M B Hk) as [Ai Ao].
  destruct (key_block_ok key B) as [Bk Lk].
  assert (Lx : forall c, zlen (Z.lxor c <$> key_block key) = 64) by (intros; unfold zlen; rewrite length_fmap; lia).
  apply (writes_absorbed parts) in Ai; [|done|rewrite Lx; lia].
  unfold hmac_sha256_finalize. cbn [hm_inner hm_outer].
  destruct (sha256_finalize (foldl _ _ _)) as [i' temp] eqn:Ei.
  apply finalize_absorbed in Ai as [Et _]; [|rewrite zlen_app, Lx; lia]. rewrite Ei in Et. cbn [snd] in Et. subst temp.
  apply (write_absorbed _ _ (Fips.sha256 ((Z.lxor 0x36 <$> key_block key) ++ concat parts))) in Ao;
    [|apply sha256_bytes|rewrite Lx; unfold zlen; rewrite sha256_length; lia].
  apply finalize_absorbed in Ao as [Eo _];
    [|rewrite zlen_app, Lx; unfold zlen; rewrite sha256_length; lia].
  destruct (sha256_finalize (sha256_write _ _)) as [o' out]. exact Eo.
Qed.

Lemma hmac_length key msg : length (Fips.hmac key msg) = 32%nat.
Proof. apply sha256_length. Qed.

Lemma hmac_bytes key msg : bytes_ok (Fips.hmac key msg).
Proof. apply sha256_bytes. Qed.

(** ** RFC 6979, section 3.2 *)

Module Rfc6979.

(** Steps b-g, [x] being the octets of the key and the hash. *)
Definition init (x : Bytes) : Bytes * Bytes :=
  let V := replicate 32 0x01 in
  let K := replicate 32 0x00 in
  let K := Fips.hmac K (V ++ [0x00] ++ x) in
  let V := Fips.hmac K V in
  let K := Fips.hmac K (V ++ [0x01] ++ x) in
  (K, Fips.hmac K V).

(** Step h: [V = HMAC_K(V)], [m] times. *)
Fixpoint stream (K V : Bytes) (m : nat) : list Bytes :=
  match m with
  | O => []
  | S m' => let V := Fips.hmac K V in V :: stream K V m'
  end.

(** The update before another candidate. *)
Definition update (KV : Bytes * Bytes) : Bytes * Bytes :=
  let K := Fips.hmac KV.1 (KV.2 ++ [0x00]) in (K, Fips.hmac K KV.2).

(** The [i]-th candidate of 32 bytes. *)
Fixpoint candidate (KV : Bytes * Bytes) (i : nat) : Bytes :=
  let V := Fips.hmac KV.1 KV.2 in
  match i with
  | O => V
  | S i' => candidate (update (KV.1, V)) i'
  end.

End Rfc6979.

(** A 32-byte array. *)
Definition bytes32 (b : Bytes) : Prop := length b = 32%nat /\ bytes_ok b.

Lemma hmac_bytes32 K x : bytes32 (Fips.hmac K x).
Proof. split; [apply hmac_length|apply hmac_bytes]. Qed.

Lemma replicate_bytes32 b : is_u8 b -> bytes32 (replicate 32 b).
Proof. intros. split; [done|by apply bytes_replicate]. Qed.

#[export] Hint Resolve hmac_bytes32 replicate_bytes32 : gambit.

Section Generator.
Context (mem : hmac_sha256) (M : mem_ok mem).

(** The calls the generator makes. *)
Lemma run_kv K V parts :
  bytes32 K -> bytes32 V -> Forall bytes_ok parts -> zlen (concat parts) < 2 ^ 59 ->
  hmac_run mem K (V :: parts) = Fips.hmac K (V ++ concat parts).
Proof.
  intros [LK BK] [LV BV] F Hn. apply hmac_run_spec; [done|done|unfold zlen; lia|by constructor|].
  cbn [concat]. rewrite zlen_app. unfold zlen in *. lia.
Qed.

Lemma run_v K V : bytes32 K -> bytes32 V -> hmac_run mem K [V] = Fips.hmac K V.
Proof. intros. rewrite run_kv; [by rewrite app_nil_r|done|done|done|done]. Qed.

Lemma run_vx K V b x :
  bytes32 K -> bytes32 V -> is_u8 b -> bytes_ok x -> zlen x < 2 ^ 58 ->
  hmac_run mem K [V; [b]; x] = Fips.hmac K (V ++ [b] ++ x).
Proof.
  intros ? ? Hb Hx Hn. rewrite run_kv; [cbn [concat]; by rewrite app_nil_r|done|done| |].
  - by repeat apply Forall_cons_2.
  - cbn [concat]. rewrite app_nil_r, zlen_app. change (zlen [b]) with 1. lia.
Qed.

Lemma run_v0 K V : bytes32 K -> bytes32 V -> hmac_run mem K [V; [0]] = Fips.hmac K (V ++ [0]).
Proof. intros. by rewrite run_kv by (done || (by repeat apply Forall_cons_2)). Qed.

Lemma rfc6979_initialize_spec key :
  bytes_ok key -> zlen key < 2 ^ 58 ->
  rfc6979_hmac_sha256_initialize mem key = mkRng (Rfc6979.init key).2 (Rfc6979.init key).1 false.
Proof.
  intros B Hk. unfold rfc6979_hmac_sha256_initialize, Rfc6979.init. cbn [fst snd].
  assert (is_u8 0 /\ is_u8 1) as [? ?] by done.
  rewrite (run_vx _ _ 0), (run_v _ (replicate 32 1)), (run_vx _ _ 1), run_v by auto with gambit. done.
Qed.

(** The last block of a stream, or [V] when it is empty. *)
Definition last_block_of (V : Bytes) (l : list Bytes) : Bytes := default V (last l).

Lemma generate_loop_spec fuel K V out n :
  (n < fuel)%nat -> bytes32 K -> bytes32 V ->
  let s := Rfc6979.stream K V ((n + 31) / 32) in
  generate_loop mem fuel K V out n = (last_block_of V s, out ++ take n (concat s)).
Proof.
  revert V out n. induction fuel as [|f IH]; [lia|]. intros V out n Hf HK HV s.
  cbn [generate_loop]. case_bool_decide as Hn.
  - rewrite run_v by done.
    assert (Es : s = Fips.hmac K V :: Rfc6979.stream K (Fips.hmac K V) ((n - Nat.min n 32 + 31) / 32)).
    { unfold s. replace ((n + 31) / 32)%nat with (S ((n - Nat.min n 32 + 31) / 32)) by div_lia. done. }
    rewrite IH by (auto with gambit; lia). rewrite Es. unfold last_block_of. f_equal.
    + rewrite last_cons. by destruct (last _).
    + cbn [concat]. rewrite <- app_assoc. f_equal. rewrite take_app, hmac_length. f_equal.
      * destruct (Nat.le_gt_cases n 32); [by rewrite Nat.min_l|].
        rewrite Nat.min_r, !take_ge by (rewrite ?hmac_length; lia). done.
      * f_equal. lia.
  - unfold s. assert (n = 0%nat) as -> by lia. cbn. by rewrite app_nil_r.
Qed.

Lemma generate_32 rng :
  bytes32 (rng_k rng) -> bytes32 (rng_v rng) ->
  let KV := if rng_retry rng then Rfc6979.update (rng_k rng, rng_v rng) else (rng_k rng, rng_v rng) in
  rfc6979_hmac_sha256_generate mem rng 32 =
  (mkRng (Fips.hmac KV.1 KV.2) KV.1 true, Fips.hmac KV.1 KV.2).
Proof.
  intros HK HV KV.
  assert (E : (if rng_retry rng then
      let k := hmac_run mem (rng_k rng) [rng_v rng; [0x00]] in (k, hmac_run mem k [rng_v rng])
    else (rng_k rng, rng_v rng)) = KV).
  { unfold KV, Rfc6979.update. cbn [fst snd]. destruct (rng_retry rng); [|done].
    by rewrite run_v0, run_v by auto with gambit. }
  assert (O : bytes32 KV.1 /\ bytes32 KV.2).
  { unfold KV, Rfc6979.update. destruct (rng_retry rng); cbn [fst snd]; auto with gambit. }
  unfold rfc6979_hmac_sha256_generate. cbv zeta in E |- *. rewrite E. clearbody KV. destruct KV as [K V]. destruct O.
  cbn [fst snd] in *. rewrite generate_loop_spec by (done || lia). change ((32 + 31) / 32)%nat with 1%nat.
  cbn [Rfc6979.stream concat app last_block_of last default from_option].
  by rewrite app_nil_r, take_ge by (by rewrite hmac_length).
Qed.

End Generator.

(** The generator after seeding and [i] calls. *)
Lemma candidates_spec (mem : hmac_sha256) (key : Bytes) (i : nat) :
  mem_ok mem -> bytes_ok key -> zlen key < 2 ^ 58 ->
  (rfc6979_hmac_sha256_generate mem
    (Nat.iter i (fun rng => (rfc6979_hmac_sha256_generate mem rng 32).1)
      (rfc6979_hmac_sha256_initialize mem key)) 32).2 =
  Rfc6979.candidate (Rfc6979.init key) i.
Proof.
  intros M B Hk. rewrite rfc6979_initialize_spec by done.
  assert (O : bytes32 (Rfc6979.init key).1 /\ bytes32 (Rfc6979.init key).2) by (split; apply hmac_bytes32).
  destruct i as [|i].
  { destruct O. cbn [Nat.iter nat_rect]. rewrite generate_32 by done.
    cbn [rng_retry rng_k rng_v fst snd Rfc6979.candidate]. reflexivity. }
  rewrite Nat.iter_succ_r. destruct (Rfc6979.init key) as [K V]. destruct O as [HK HV]. cbn [fst snd] in *.
  rewrite (generate_32 mem M (mkRng V K false)) by done. cbn [rng_retry rng_k rng_v fst snd Rfc6979.candidate].
  assert (HV' : bytes32 (Fips.hmac K V)) by auto with gambit.
  generalize dependent (Fips.hmac K V). clear V HV. intros V HV. revert K V HK HV.
  induction i as [|i IH]; intros K V HK HV.
  - cbn [Nat.iter nat_rect]. by rewrite generate_32.
  - rewrite Nat.iter_succ_r, (generate_32 mem M (mkRng V K true)) by done. cbn [rng_retry rng_k rng_v fst snd Rfc6979.candidate].
    rewrite IH; [done|apply hmac_bytes32|apply hmac_bytes32].
Qed.

Lemma candidate_bytes32 KV i : bytes32 (Rfc6979.candidate KV i).
Proof. revert KV. induction i as [|i IH]; intros KV; [apply hmac_bytes32|apply IH]. Qed.

(** ** Properties *)

(** A whole use of a hash object: initialize, write each chunk, finalize. *)
Definition sha256_chunks (mem : sha256) (chunks : list Bytes) : Bytes :=
  (sha256_finalize (foldl sha256_write (sha256_initialize mem) chunks)).2.

(** C17: sHA-256 streaming equals one-shot FIPS 180-4: an object that is
    initialized (whatever its buffer holds), fed with any sequence of writes
    and finalized gives the digest of the standard for the concatenation,
    for every message of less than 2^61 bytes. *)
Theorem sha256_streaming (mem : sha256) (chunks : list Bytes) :
  length (sha_buf mem) = 64%nat -> Forall bytes_ok chunks -> zlen (concat chunks) < 2 ^ 61 ->
  sha256_chunks mem chunks = Fips.sha256 (concat chunks).
Proof.
  intros L F Hn. apply initialize_absorbed in L.
  apply (writes_absorbed chunks) in L; [|done|rewrite zlen_nil; lia].
  by apply finalize_absorbed in L as [E _].
Qed.

Lemma sha256_streaming_witness :
  let mem := mkSha256 [] (replicate 64 0xAA) 77 in
  be_val (sha256_chunks mem [str "a"; []; str "bc"]) =
    0xba7816bf8f01cfea414140de5dae2223b00361a396177a9cb410ff61f20015ad.
Proof.
  cbn zeta. rewrite sha256_streaming; [by vm_compute|done|apply (bool_decide_unpack _); by vm_compute|done].
Defined.

(** C18: hMAC and the nonce generator follow RFC 2104 and RFC 6979: however the
    local objects' memory looks, the [i]-th 32-byte candidate after
    seeding with [key] is the standard's, the retry flag
    making the [K]/[V] update between candidates. *)
Theorem rfc6979_candidates (mem : hmac_sha256) (key : Bytes) (i : nat) :
  mem_ok mem -> bytes_ok key -> zlen key < 2 ^ 58 ->
  (rfc6979_hmac_sha256_generate mem
    (Nat.iter i (fun rng => (rfc6979_hmac_sha256_generate mem rng 32).1)
      (rfc6979_hmac_sha256_initialize mem key)) 32).2 =
  Rfc6979.candidate (Rfc6979.init key) i.
Proof. apply candidates_spec. Qed.

Lemma rfc6979_candidates_witness :
  let o := mkSha256 [] (replicate 64 0) 0 in
  (rfc6979_hmac_sha256_generate (mkHmac o o)
    (Nat.iter 1 (fun rng => (rfc6979_hmac_sha256_generate (mkHmac o o) rng 32).1)
      (rfc6979_hmac_sha256_initialize (mkHmac o o) (replicate 64 1))) 32).2 =
  Rfc6979.candidate (Rfc6979.init (replicate 64 1)) 1.
Proof. apply rfc6979_candidates; [done|by apply bytes_replicate|done]. Defined.
