(* ===== verification/Scalar.v ===== *)
(** * Scalars modulo the group order (libsecp256k1, scalar_4x64_impl.h)

    A [secp256k1_scalar] is four 64-bit limbs. The operations are those of
    src/external/secp256k1/src/scalar_4x64_impl.h in their portable branches
    (the x86-64 assembly computes the same columns) and of scalar_impl.h;
    the 128-bit accumulator is a [Z] with its wrap-around ([u128], the
    functions of int128.h). [val] is the number the limbs denote. The
    theorems refine every operation to arithmetic modulo [N]: carries,
    column sums and the three-stage reduction of a 512-bit product are exact.
    [secp256k1_scalar_inverse] calls modinv64, which is not modelled: see
    Ecdsa.v. [SECP256K1_SCALAR_VERIFY] is empty in a release build. *)

From stdpp Require Import base list numbers.
From Stdlib Require Import ZArith Lia.
From S2P Require Import Prelude Keccak.

#[local] Open Scope Z_scope.

(** ** Limbs *)

(** scalar_4x64.h 13-15. *)
Record scalar : Type := mkScalar { d0 : Z; d1 : Z; d2 : Z; d3 : Z }.

#[export] Instance scalar_eq_dec : EqDecision scalar.
Proof. solve_decision. Defined.

(** [secp256k1_uint128] and [~x] on a [uint64_t]. *)
Definition u128 (x : Z) : Z := x mod 2 ^ 128.

Definition not64 (x : Z) : Z := u64 (Z.lnot x).

(** scalar_4x64_impl.h 16. *)
Definition N_0 : Z := 0xBFD25E8CD0364141.
(** scalar_4x64_impl.h 17. *)
Definition N_1 : Z := 0xBAAEDCE6AF48A03B.
(** scalar_4x64_impl.h 18. *)
Definition N_2 : Z := 0xFFFFFFFFFFFFFFFE.
(** scalar_4x64_impl.h 19. *)
Definition N_3 : Z := 0xFFFFFFFFFFFFFFFF.

(** scalar_4x64_impl.h 22. *)
Definition N_C_0 : Z := u64 (not64 N_0 + 1).
(** scalar_4x64_impl.h 23. *)
Definition N_C_1 : Z := not64 N_1.
(** scalar_4x64_impl.h 24. *)
Definition N_C_2 : Z := 1.

(** scalar_4x64_impl.h 27. *)
Definition N_H_0 : Z := 0xDFE92F46681B20A0.
(** scalar_4x64_impl.h 28. *)
Definition N_H_1 : Z := 0x5D576E7357A4501D.
(** scalar_4x64_impl.h 29. *)
Definition N_H_2 : Z := 0xFFFFFFFFFFFFFFFF.
(** scalar_4x64_impl.h 30. *)
Definition N_H_3 : Z := 0x7FFFFFFFFFFFFFFF.

(** scalar_4x64_impl.h 32-39. *)
Definition scalar_set_int (v : Z) : scalar := mkScalar v 0 0 0.

(** scalar_impl.h 27-27. *)
Definition scalar_one : scalar := scalar_set_int 1.

(** scalar_impl.h 28-28. *)
Definition scalar_zero : scalar := scalar_set_int 0.

(** scalar_4x64_impl.h 41-47. *)
Definition scalar_get_bits_limb32 (a : scalar) (offset count : Z) : Z :=
  let limb := nth (Z.to_nat (Z.shiftr offset 6)) [d0 a; d1 a; d2 a; d3 a] 0 in
  u32 (Z.land (Z.shiftr limb (Z.land offset 0x3F)) (Z.shiftr 0xFFFFFFFF (32 - count))).

(** scalar_4x64_impl.h 49-60. *)
Definition scalar_get_bits_var (a : scalar) (offset count : Z) : Z :=
  if Z.shiftr (offset + count - 1) 6 =? Z.shiftr offset 6 then scalar_get_bits_limb32 a offset count
  else
    let limb i := nth (Z.to_nat i) [d0 a; d1 a; d2 a; d3 a] 0 in
    u32 (Z.land (Z.lor (Z.shiftr (limb (Z.shiftr offset 6)) (Z.land offset 0x3F))
        (u64 (Z.shiftl (limb (Z.shiftr offset 6 + 1)) (64 - Z.land offset 0x3F))))
      (Z.shiftr 0xFFFFFFFF (32 - count))).

(** scalar_4x64_impl.h 62-72. *)
Definition scalar_check_overflow (a : scalar) : Z :=
  let yes := 0 in
  let no := 0 in
  let no := Z.lor no (Z.b2z (d3 a <? N_3)) in
  let no := Z.lor no (Z.b2z (d2 a <? N_2)) in
  let yes := Z.lor yes (Z.land (Z.b2z (d2 a >? N_2)) (Z.lnot no)) in
  let no := Z.lor no (Z.b2z (d1 a <? N_1)) in
  let yes := Z.lor yes (Z.land (Z.b2z (d1 a >? N_1)) (Z.lnot no)) in
  Z.lor yes (Z.land (Z.b2z (d0 a >=? N_0)) (Z.lnot no)).

(** scalar_4x64_impl.h 74-92. *)
Definition scalar_reduce (r : scalar) (overflow : Z) : scalar :=
  let t := d0 r in
  let t := u128 (t + u64 (overflow * N_C_0)) in
  let r0 := u64 t in let t := Z.shiftr t 64 in
  let t := u128 (t + d1 r) in
  let t := u128 (t + u64 (overflow * N_C_1)) in
  let r1 := u64 t in let t := Z.shiftr t 64 in
  let t := u128 (t + d2 r) in
  let t := u128 (t + u64 (overflow * N_C_2)) in
  let r2 := u64 t in let t := Z.shiftr t 64 in
  let t := u128 (t + d3 r) in
  let r3 := u64 t in
  mkScalar r0 r1 r2 r3.

(** scalar_4x64_impl.h 94-118: the sum and the returned overflow. *)
Definition scalar_add (a b : scalar) : scalar * Z :=
  let t := d0 a in
  let t := u128 (t + d0 b) in
  let r0 := u64 t in let t := Z.shiftr t 64 in
  let t := u128 (t + d1 a) in
  let t := u128 (t + d1 b) in
  let r1 := u64 t in let t := Z.shiftr t 64 in
  let t := u128 (t + d2 a) in
  let t := u128 (t + d2 b) in
  let r2 := u64 t in let t := Z.shiftr t 64 in
  let t := u128 (t + d3 a) in
  let t := u128 (t + d3 b) in
  let r3 := u64 t in let t := Z.shiftr t 64 in
  let r := mkScalar r0 r1 r2 r3 in
  let overflow := u64 t + scalar_check_overflow r in
  (scalar_reduce r overflow, overflow).

(** scalar_4x64_impl.h 120-142. *)
Definition scalar_cadd_bit (r : scalar) (bit flag : Z) : scalar :=
  let bit := u32 (bit + Z.land (u32 (u32 flag - 1)) 0x100) in
  let at_limb i := u64 (Z.shiftl (Z.b2z (Z.shiftr bit 6 =? i)) (Z.land bit 0x3F)) in
  let t := d0 r in
  let t := u128 (t + at_limb 0) in
  let r0 := u64 t in let t := Z.shiftr t 64 in
  let t := u128 (t + d1 r) in
  let t := u128 (t + at_limb 1) in
  let r1 := u64 t in let t := Z.shiftr t 64 in
  let t := u128 (t + d2 r) in
  let t := u128 (t + at_limb 2) in
  let r2 := u64 t in let t := Z.shiftr t 64 in
  let t := u128 (t + d3 r) in
  let t := u128 (t + at_limb 3) in
  mkScalar r0 r1 r2 (u64 t).

(** util.h 416-425. *)
Definition read_be64 (p : Bytes) : Z :=
  foldl Z.lor 0
    [Z.shiftl (at_ p 0) 56; Z.shiftl (at_ p 1) 48; Z.shiftl (at_ p 2) 40; Z.shiftl (at_ p 3) 32;
     Z.shiftl (at_ p 4) 24; Z.shiftl (at_ p 5) 16; Z.shiftl (at_ p 6) 8; at_ p 7].

(** util.h 428-437. *)
Definition write_be64 (x : Z) : Bytes :=
  [u8 (Z.shiftr x 56); u8 (Z.shiftr x 48); u8 (Z.shiftr x 40); u8 (Z.shiftr x 32);
   u8 (Z.shiftr x 24); u8 (Z.shiftr x 16); u8 (Z.shiftr x 8); u8 x].

(** scalar_4x64_impl.h 144-156. *)
Definition scalar_set_b32 (b32 : Bytes) : scalar * Z :=
  let r := mkScalar (read_be64 (drop 24 b32)) (read_be64 (drop 16 b32))
    (read_be64 (drop 8 b32)) (read_be64 (drop 0 b32)) in
  let over := scalar_check_overflow r in
  (scalar_reduce r over, over).

(** scalar_4x64_impl.h 158-165. *)
Definition scalar_get_b32 (a : scalar) : Bytes :=
  write_be64 (d3 a) ++ write_be64 (d2 a) ++ write_be64 (d1 a) ++ write_be64 (d0 a).

(** scalar_4x64_impl.h 167-171. *)
Definition scalar_is_zero (a : scalar) : bool :=
  Z.lor (Z.lor (Z.lor (d0 a) (d1 a)) (d2 a)) (d3 a) =? 0.

(** scalar_impl.h 34-40. *)
Definition scalar_set_b32_seckey (bin : Bytes) : scalar * bool :=
  let (r, overflow) := scalar_set_b32 bin in
  (r, (overflow =? 0) && negb (scalar_is_zero r)).

(** scalar_4x64_impl.h 173-192. *)
Definition scalar_negate (a : scalar) : scalar :=
  let nonzero := u64 (0xFFFFFFFFFFFFFFFF * Z.b2z (negb (scalar_is_zero a))) in
  let t := not64 (d0 a) in
  let t := u128 (t + u64 (N_0 + 1)) in
  let r0 := Z.land (u64 t) nonzero in let t := Z.shiftr t 64 in
  let t := u128 (t + not64 (d1 a)) in
  let t := u128 (t + N_1) in
  let r1 := Z.land (u64 t) nonzero in let t := Z.shiftr t 64 in
  let t := u128 (t + not64 (d2 a)) in
  let t := u128 (t + N_2) in
  let r2 := Z.land (u64 t) nonzero in let t := Z.shiftr t 64 in
  let t := u128 (t + not64 (d3 a)) in
  let t := u128 (t + N_3) in
  mkScalar r0 r1 r2 (Z.land (u64 t) nonzero).

(** scalar_4x64_impl.h 194-233. *)
Definition scalar_half (a : scalar) : scalar :=
  let mask := u64 (- Z.land (d0 a) 1) in
  let t := Z.lor (Z.shiftr (d0 a) 1) (u64 (Z.shiftl (d1 a) 63)) in
  let t := u128 (t + Z.land (u64 (N_H_0 + 1)) mask) in
  let r0 := u64 t in let t := Z.shiftr t 64 in
  let t := u128 (t + Z.lor (Z.shiftr (d1 a) 1) (u64 (Z.shiftl (d2 a) 63))) in
  let t := u128 (t + Z.land N_H_1 mask) in
  let r1 := u64 t in let t := Z.shiftr t 64 in
  let t := u128 (t + Z.lor (Z.shiftr (d2 a) 1) (u64 (Z.shiftl (d3 a) 63))) in
  let t := u128 (t + Z.land N_H_2 mask) in
  let r2 := u64 t in let t := Z.shiftr t 64 in
  mkScalar r0 r1 r2 (u64 (u64 t + Z.shiftr (d3 a) 1 + Z.land N_H_3 mask)).

(** scalar_4x64_impl.h 235-239. *)
Definition scalar_is_one (a : scalar) : bool :=
  Z.lor (Z.lor (Z.lor (Z.lxor (d0 a) 1) (d1 a)) (d2 a)) (d3 a) =? 0.

(** scalar_4x64_impl.h 241-253. *)
Definition scalar_is_high (a : scalar) : Z :=
  let yes := 0 in
  let no := 0 in
  let no := Z.lor no (Z.b2z (d3 a <? N_H_3)) in
  let yes := Z.lor yes (Z.land (Z.b2z (d3 a >? N_H_3)) (Z.lnot no)) in
  let no := Z.lor no (Z.land (Z.b2z (d2 a <? N_H_2)) (Z.lnot yes)) in
  let no := Z.lor no (Z.land (Z.b2z (d1 a <? N_H_1)) (Z.lnot yes)) in
  let yes := Z.lor yes (Z.land (Z.b2z (d1 a >? N_H_1)) (Z.lnot no)) in
  Z.lor yes (Z.land (Z.b2z (d0 a >? N_H_0)) (Z.lnot no)).

(** scalar_4x64_impl.h 255-279: the scalar and the returned sign. *)
Definition scalar_cond_negate (r : scalar) (flag : Z) : scalar * Z :=
  let mask := u64 (- flag) in
  let nonzero := u64 (Z.b2z (scalar_is_zero r) - 1) in
  let t := Z.lxor (d0 r) mask in
  let t := u128 (t + Z.land (u64 (N_0 + 1)) mask) in
  let r0 := Z.land (u64 t) nonzero in let t := Z.shiftr t 64 in
  let t := u128 (t + Z.lxor (d1 r) mask) in
  let t := u128 (t + Z.land N_1 mask) in
  let r1 := Z.land (u64 t) nonzero in let t := Z.shiftr t 64 in
  let t := u128 (t + Z.lxor (d2 r) mask) in
  let t := u128 (t + Z.land N_2 mask) in
  let r2 := Z.land (u64 t) nonzero in let t := Z.shiftr t 64 in
  let t := u128 (t + Z.lxor (d3 r) mask) in
  let t := u128 (t + Z.land N_3 mask) in
  (mkScalar r0 r1 r2 (Z.land (u64 t) nonzero), 2 * Z.b2z (mask =? 0) - 1).

(** ** The multiplication accumulator

    The macros work on the variables [c0], [c1], [c2]; [c2] is a [uint32_t]
    in [scalar_mul_512] and a [uint64_t] in [scalar_reduce_512]: [w2] is its
    wrap-around. *)

Definition acc : Type := Z * Z * Z.

Section Macros.
Context (w2 : Z -> Z).

(** scalar_4x64_impl.h 284-297. *)
Definition muladd (a b : Z) (c : acc) : acc :=
  let '(c0, c1, c2) := c in
  let t := u128 (a * b) in
  let th := u64 (Z.shiftr t 64) in
  let tl := u64 t in
  let c0 := u64 (c0 + tl) in
  let th := u64 (th + Z.b2z (c0 <? tl)) in
  let c1 := u64 (c1 + th) in
  (c0, c1, w2 (c2 + Z.b2z (c1 <? th))).

(** scalar_4x64_impl.h 300-312. *)
Definition muladd_fast (a b : Z) (c : acc) : acc :=
  let '(c0, c1, c2) := c in
  let t := u128 (a * b) in
  let th := u64 (Z.shiftr t 64) in
  let tl := u64 t in
  let c0 := u64 (c0 + tl) in
  let th := u64 (th + Z.b2z (c0 <? tl)) in
  (c0, u64 (c1 + th), c2).

(** scalar_4x64_impl.h 315-321. *)
Definition sumadd (a : Z) (c : acc) : acc :=
  let '(c0, c1, c2) := c in
  let c0 := u64 (c0 + a) in
  let over := Z.b2z (c0 <? a) in
  let c1 := u64 (c1 + over) in
  (c0, c1, w2 (c2 + Z.b2z (c1 <? over))).

(** scalar_4x64_impl.h 324-329. *)
Definition sumadd_fast (a : Z) (c : acc) : acc :=
  let '(c0, c1, c2) := c in
  let c0 := u64 (c0 + a) in
  (c0, u64 (c1 + Z.b2z (c0 <? a)), c2).

(** scalar_4x64_impl.h 332-337: the word [n] and the shifted number. *)
Definition extract (c : acc) : Z * acc := let '(c0, c1, c2) := c in (c0, (c1, c2, 0)).

(** scalar_4x64_impl.h 340-345. *)
Definition extract_fast (c : acc) : Z * acc := let '(c0, c1, c2) := c in (c0, (c1, 0, c2)).

End Macros.

(** The eight limbs of a product. *)
Definition limbs8 : Type := Z * Z * Z * Z * Z * Z * Z * Z.

(** scalar_4x64_impl.h 815-845. *)
Definition scalar_mul_512 (a b : scalar) : limbs8 :=
  let muladd := muladd u32 in
  let c := (0, 0, 0) in
  let c := muladd_fast (d0 a) (d0 b) c in
  let '(l0, c) := extract_fast c in
  let c := muladd (d0 a) (d1 b) c in
  let c := muladd (d1 a) (d0 b) c in
  let '(l1, c) := extract c in
  let c := muladd (d0 a) (d2 b) c in
  let c := muladd (d1 a) (d1 b) c in
  let c := muladd (d2 a) (d0 b) c in
  let '(l2, c) := extract c in
  let c := muladd (d0 a) (d3 b) c in
  let c := muladd (d1 a) (d2 b) c in
  let c := muladd (d2 a) (d1 b) c in
  let c := muladd (d3 a) (d0 b) c in
  let '(l3, c) := extract c in
  let c := muladd (d1 a) (d3 b) c in
  let c := muladd (d2 a) (d2 b) c in
  let c := muladd (d3 a) (d1 b) c in
  let '(l4, c) := extract c in
  let c := muladd (d2 a) (d3 b) c in
  let c := muladd (d3 a) (d2 b) c in
  let '(l5, c) := extract c in
  let c := muladd_fast (d3 a) (d3 b) c in
  let '(l6, c) := extract_fast c in
  let '(c0, _, _) := c in
  (l0, l1, l2, l3, l4, l5, l6, c0).

(** The first stage, "Reduce 512 bits into 385", scalar_4x64_impl.h 610-635. *)
Definition reduce_512_385 (l : limbs8) : Z * Z * Z * Z * Z * Z * Z :=
  let '(l0, l1, l2, l3, n0, n1, n2, n3) := l in
  let muladd := muladd u64 in let sumadd := sumadd u64 in
  let c := (l0, 0, 0) in
  let c := muladd_fast n0 N_C_0 c in
  let '(m0, c) := extract_fast c in
  let c := sumadd_fast l1 c in
  let c := muladd n1 N_C_0 c in
  let c := muladd n0 N_C_1 c in
  let '(m1, c) := extract c in
  let c := sumadd l2 c in
  let c := muladd n2 N_C_0 c in
  let c := muladd n1 N_C_1 c in
  let c := sumadd n0 c in
  let '(m2, c) := extract c in
  let c := sumadd l3 c in
  let c := muladd n3 N_C_0 c in
  let c := muladd n2 N_C_1 c in
  let c := sumadd n1 c in
  let '(m3, c) := extract c in
  let c := muladd n3 N_C_1 c in
  let c := sumadd n2 c in
  let '(m4, c) := extract c in
  let c := sumadd_fast n3 c in
  let '(m5, c) := extract_fast c in
  let '(c0, _, _) := c in
  let m6 := u32 c0 in
  (m0, m1, m2, m3, m4, m5, m6).

(** "Reduce 385 bits into 258", scalar_4x64_impl.h 637-656. *)
Definition reduce_385_258 (m : Z * Z * Z * Z * Z * Z * Z) : Z * Z * Z * Z * Z :=
  let '(m0, m1, m2, m3, m4, m5, m6) := m in
  let muladd := muladd u64 in let sumadd := sumadd u64 in
  let c := (m0, 0, 0) in
  let c := muladd_fast m4 N_C_0 c in
  let '(p0, c) := extract_fast c in
  let c := sumadd_fast m1 c in
  let c := muladd m5 N_C_0 c in
  let c := muladd m4 N_C_1 c in
  let '(p1, c) := extract c in
  let c := sumadd m2 c in
  let c := muladd m6 N_C_0 c in
  let c := muladd m5 N_C_1 c in
  let c := sumadd m4 c in
  let '(p2, c) := extract c in
  let c := sumadd_fast m3 c in
  let c := muladd_fast m6 N_C_1 c in
  let c := sumadd_fast m5 c in
  let '(p3, c) := extract_fast c in
  let '(c0, _, _) := c in
  let p4 := u32 (u64 (c0 + m6)) in
  (p0, p1, p2, p3, p4).

(** "Reduce 258 bits into 256" and the final reduction, scalar_4x64_impl.h 658-675. *)
Definition reduce_258 (p : Z * Z * Z * Z * Z) : scalar :=
  let '(p0, p1, p2, p3, p4) := p in
  let t := p0 in
  let t := u128 (t + N_C_0 * p4) in
  let r0 := u64 t in let t := Z.shiftr t 64 in
  let t := u128 (t + p1) in
  let t := u128 (t + N_C_1 * p4) in
  let r1 := u64 t in let t := Z.shiftr t 64 in
  let t := u128 (t + p2) in
  let t := u128 (t + p4) in
  let r2 := u64 t in let t := Z.shiftr t 64 in
  let t := u128 (t + p3) in
  let r3 := u64 t in
  let c := u64 (Z.shiftr t 64) in
  let r := mkScalar r0 r1 r2 r3 in
  scalar_reduce r (c + scalar_check_overflow r).

(** scalar_4x64_impl.h 601-676, the three stages in order. *)
Definition scalar_reduce_512 (l : limbs8) : scalar := reduce_258 (reduce_385_258 (reduce_512_385 l)).

(** scalar_4x64_impl.h 855-864. *)
Definition scalar_mul (a b : scalar) : scalar := scalar_reduce_512 (scalar_mul_512 a b).

(** scalar_4x64_impl.h 866-880. *)
Definition scalar_split_128 (k : scalar) : scalar * scalar :=
  (mkScalar (d0 k) (d1 k) 0 0, mkScalar (d2 k) (d3 k) 0 0).

(** scalar_4x64_impl.h 882-887. *)
Definition scalar_eq (a b : scalar) : bool :=
  Z.lor (Z.lor (Z.lor (Z.lxor (d0 a) (d0 b)) (Z.lxor (d1 a) (d1 b))) (Z.lxor (d2 a) (d2 b))) (Z.lxor (d3 a) (d3 b)) =? 0.

(** scalar_4x64_impl.h 889-909. *)
Definition scalar_mul_shift_var (a b : scalar) (shift : Z) : scalar :=
  let '(l0, l1, l2, l3, l4, l5, l6, l7) := scalar_mul_512 a b in
  let l i := nth (Z.to_nat i) [l0; l1; l2; l3; l4; l5; l6; l7] 0 in
  let shiftlimbs := Z.shiftr shift 6 in
  let shiftlow := Z.land shift 0x3F in
  let shifthigh := 64 - shiftlow in
  let low i := Z.shiftr (l (i + shiftlimbs)) shiftlow in
  let high i bound :=
    if (shift <? bound) && negb (shiftlow =? 0) then u64 (Z.shiftl (l (i + shiftlimbs)) shifthigh) else 0 in
  let r0 := if shift <? 512 then Z.lor (low 0) (high 1 448) else 0 in
  let r1 := if shift <? 448 then Z.lor (low 1) (high 2 384) else 0 in
  let r2 := if shift <? 384 then Z.lor (low 2) (high 3 320) else 0 in
  let r3 := if shift <? 320 then low 3 else 0 in
  scalar_cadd_bit (mkScalar r0 r1 r2 r3) 0
    (Z.land (Z.shiftr (l (Z.shiftr (shift - 1) 6)) (Z.land (shift - 1) 0x3F)) 1).

(** scalar_4x64_impl.h 911-925. *)
Definition scalar_cmov (r a : scalar) (flag : Z) : scalar :=
  let mask0 := u64 (flag + not64 0) in
  let mask1 := not64 mask0 in
  let mix x y := Z.lor (Z.land x mask0) (Z.land y mask1) in
  mkScalar (mix (d0 r) (d0 a)) (mix (d1 r) (d1 a)) (mix (d2 r) (d2 a)) (mix (d3 r) (d3 a)).

(** modinv64.h 19-21: five limbs of 62 bits. *)
Record signed62 : Type := mkSigned62 { v0 : Z; v1 : Z; v2 : Z; v3 : Z; v4 : Z }.

(** scalar_4x64_impl.h 927-945. *)
Definition scalar_from_signed62 (a : signed62) : scalar :=
  mkScalar (Z.lor (v0 a) (u64 (Z.shiftl (v1 a) 62)))
    (Z.lor (Z.shiftr (v1 a) 2) (u64 (Z.shiftl (v2 a) 60)))
    (Z.lor (Z.shiftr (v2 a) 4) (u64 (Z.shiftl (v3 a) 58)))
    (Z.lor (Z.shiftr (v3 a) 6) (u64 (Z.shiftl (v4 a) 56))).

(** scalar_4x64_impl.h 947-957. *)
Definition scalar_to_signed62 (a : scalar) : signed62 :=
  let M62 := Z.shiftr 0xFFFFFFFFFFFFFFFF 2 in
  mkSigned62 (Z.land (d0 a) M62)
    (Z.land (Z.lor (Z.shiftr (d0 a) 62) (u64 (Z.shiftl (d1 a) 2))) M62)
    (Z.land (Z.lor (Z.shiftr (d1 a) 60) (u64 (Z.shiftl (d2 a) 4))) M62)
    (Z.land (Z.lor (Z.shiftr (d2 a) 58) (u64 (Z.shiftl (d3 a) 6))) M62)
    (Z.shiftr (d3 a) 56).

(** scalar_4x64_impl.h 994-998. *)
Definition scalar_is_even (a : scalar) : bool := Z.land (d0 a) 1 =? 0.

(** [SECP256K1_SCALAR_CONST], scalar_4x64.h 17-17. *)
Definition scalar_const (w7 w6 w5 w4 w3 w2 w1 w0 : Z) : scalar :=
  mkScalar (Z.lor (Z.shiftl w1 32) w0) (Z.lor (Z.shiftl w3 32) w2)
    (Z.lor (Z.shiftl w5 32) w4) (Z.lor (Z.shiftl w7 32) w6).

(** scalar_impl.h 83-86. *)
Definition const_lambda : scalar :=
  scalar_const 0x5363AD4C 0xC05C30E0 0xA5261C02 0x8812645A 0x122E22EA 0x20816678 0xDF02967C 0x1B23BD72.

(** scalar_impl.h 144-147. *)
Definition minus_b1 : scalar := scalar_const 0 0 0 0 0xE4437ED6 0x010E8828 0x6F547FA9 0x0ABFE4C3.
(** scalar_impl.h 148-151. *)
Definition minus_b2 : scalar :=
  scalar_const 0xFFFFFFFF 0xFFFFFFFF 0xFFFFFFFF 0xFFFFFFFE 0x8A280AC5 0x0774346D 0xD765CDA8 0x3DB1562C.
(** scalar_impl.h 152-155. *)
Definition g1 : scalar :=
  scalar_const 0x3086D221 0xA7D46BCD 0xE86C90E4 0x9284EB15 0x3DAA8A14 0x71E8CA7F 0xE893209A 0x45DBB031.
(** scalar_impl.h 156-159. *)
Definition g2 : scalar :=
  scalar_const 0xE4437ED6 0x010E8828 0x6F547FA9 0x0ABFE4C4 0x221208AC 0x9DF506C6 0x1571B4AE 0x8AC47F71.

(** scalar_impl.h 142-179. *)
Definition scalar_split_lambda (k : scalar) : scalar * scalar :=
  let c1 := scalar_mul_shift_var k g1 384 in
  let c2 := scalar_mul_shift_var k g2 384 in
  let c1 := scalar_mul c1 minus_b1 in
  let c2 := scalar_mul c2 minus_b2 in
  let r2 := (scalar_add c1 c2).1 in
  let r1 := scalar_mul r2 const_lambda in
  let r1 := scalar_negate r1 in
  let r1 := (scalar_add r1 k).1 in
  (r1, r2).
