(* ===== verification/ScalarSpec.v ===== *)
(** * The scalars compute modulo the group order

    [val] reads the four limbs of Scalar.v as a number. Every operation is
    shown to stay below the order and to compute the expected residue, with
    all carries and widths of the code. *)

From stdpp Require Import base list numbers.
From Stdlib Require Import ZArith Lia.
From S2P Require Import Prelude Keccak Scalar.

#[local] Open Scope Z_scope.

(** The order of the group. *)
Definition N : Z := 0xFFFFFFFFFFFFFFFFFFFFFFFFFFFFFFFEBAAEDCE6AF48A03BBFD25E8CD0364141.

Definition val (a : scalar) : Z := d0 a + 2 ^ 64 * d1 a + 2 ^ 128 * d2 a + 2 ^ 192 * d3 a.

Definition limbs_ok (a : scalar) : Prop := is_u64 (d0 a) /\ is_u64 (d1 a) /\ is_u64 (d2 a) /\ is_u64 (d3 a).

(** What [SECP256K1_SCALAR_VERIFY] asserts. *)
Definition scalar_ok (a : scalar) : Prop := limbs_ok a /\ val a < N.

#[export] Instance scalar_ok_dec a : Decision (scalar_ok a).
Proof. unfold scalar_ok, limbs_ok. apply _. Defined.

(** ** Words and carries *)

Lemma N_C_values : N_C_0 = 0x402DA1732FC9BEBF /\ N_C_1 = 0x4551231950B75FC4.
Proof. done. Qed.

Lemma N_limbs : N = N_0 + 2 ^ 64 * N_1 + 2 ^ 128 * N_2 + 2 ^ 192 * N_3.
Proof. done. Qed.

Lemma N_C_limbs : 2 ^ 256 - N = N_C_0 + 2 ^ 64 * N_C_1 + 2 ^ 128 * N_C_2.
Proof. done. Qed.

Lemma not64_val x : is_u64 x -> not64 x = 2 ^ 64 - 1 - x.
Proof.
  intros H. unfold not64, u64, is_u64 in *. rewrite Z.lnot_eq_pred_opp.
  symmetry. apply (Z.mod_unique _ _ (-1)); lia.
Qed.

(** A sum that fits 128 bits, split into its low word and the carry. *)
Lemma word_split t : 0 <= t < 2 ^ 128 ->
  exists lo hi, u64 (u128 t) = lo /\ Z.shiftr (u128 t) 64 = hi /\ t = lo + 2 ^ 64 * hi /\ is_u64 lo /\ is_u64 hi.
Proof.
  intros H. exists (t mod 2 ^ 64), (t / 2 ^ 64). unfold u128.
  rewrite (Z.mod_small t (2 ^ 128)) by lia. rewrite Z.shiftr_div_pow2 by lia.
  split_and!; [done|done| |apply Z.mod_pos_bound; lia|].
  - rewrite Z.add_comm. apply Z.div_mod. lia.
  - split; [apply Z.div_pos; lia|]. apply Z.div_lt_upper_bound; lia.
Qed.

Lemma u128_id x : 0 <= x < 2 ^ 128 -> u128 x = x.
Proof. apply Z.mod_small. Qed.

Lemma u128_add a b : u128 (u128 a + b) = u128 (a + b).
Proof. apply Zplus_mod_idemp_l. Qed.

(** Split the sums of a carry chain one after the other, from the lowest. *)
Ltac carry_chain :=
  rewrite ?u128_add;
  repeat match goal with
  | |- context [u128 ?t] =>
      lazymatch t with
      | context [u128 _] => fail
      | _ => let lo := fresh "lo" in let hi := fresh "hi" in let El := fresh in let Eh := fresh in
             let E := fresh "C" in let Hl := fresh "Hl" in let Hh := fresh "Hh" in
             destruct (word_split t) as (lo & hi & El & Eh & E & Hl & Hh);
             [unfold is_u64 in *; lia|rewrite ?El, ?Eh; clear El Eh]
      end
  end.

(** ** Reduction and addition *)

Lemma reduce_val r ov :
  limbs_ok r -> ov = 0 \/ ov = 1 ->
  limbs_ok (scalar_reduce r ov) /\
  exists k, val (scalar_reduce r ov) + 2 ^ 256 * k = val r + ov * (2 ^ 256 - N).
Proof.
  intros (H0 & H1 & H2 & H3) Hov. rewrite N_C_limbs.
  assert (E : u64 (ov * N_C_0) = ov * N_C_0 /\ u64 (ov * N_C_1) = ov * N_C_1 /\ u64 (ov * N_C_2) = ov * N_C_2)
    by (destruct Hov as [-> | ->]; done).
  destruct E as (E0 & E1 & E2). unfold scalar_reduce. cbv zeta. rewrite E0, E1, E2. clear E0 E1 E2.
  unfold N_C_2. destruct N_C_values as [-> ->].
  assert (B : 0 <= ov <= 1) by lia. clear Hov. carry_chain.
  split; [by split_and!|]. exists hi2. unfold val; cbn [d0 d1 d2 d3]. lia.
Qed.

Lemma val_range a : limbs_ok a -> 0 <= val a < 2 ^ 256.
Proof. unfold limbs_ok, val, is_u64. lia. Qed.

(** The limb-wise comparison with [yes] and [no] flags. *)
Ltac compare_limbs :=
  repeat match goal with
  | |- context [Z.b2z (?x <? ?y)] => destruct (Z.ltb_spec x y)
  | |- context [Z.b2z (?x >? ?y)] => rewrite (Z.gtb_ltb x y)
  | |- context [Z.b2z (?x >=? ?y)] => rewrite (Z.geb_leb x y)
  | |- context [Z.b2z (?x <=? ?y)] => destruct (Z.leb_spec x y)
  end.

Lemma check_overflow_spec a : limbs_ok a -> scalar_check_overflow a = Z.b2z (N <=? val a).
Proof.
  intros (H0 & H1 & H2 & H3). unfold scalar_check_overflow, is_u64 in *. rewrite N_limbs. unfold val.
  unfold N_0, N_1, N_2, N_3 in *. cbv zeta. compare_limbs; cbn; first [reflexivity|lia].
Qed.

Lemma is_high_spec a : limbs_ok a -> scalar_is_high a = Z.b2z (N / 2 <? val a).
Proof.
  intros (H0 & H1 & H2 & H3). unfold scalar_is_high, is_u64 in *.
  assert (E : N / 2 = N_H_0 + 2 ^ 64 * N_H_1 + 2 ^ 128 * N_H_2 + 2 ^ 192 * N_H_3) by done.
  rewrite E. clear E. unfold val.
  unfold N_H_0, N_H_1, N_H_2, N_H_3 in *. cbv zeta. compare_limbs; cbn; first [reflexivity|lia].
Qed.

(** Reduction of a number below twice the order, [c] being bit 256. *)
Lemma reduce_final r c :
  limbs_ok r -> 0 <= c -> val r + 2 ^ 256 * c < 2 * N ->
  let ov := c + scalar_check_overflow r in
  (ov = 0 \/ ov = 1) /\ (ov = 1 <-> N <= val r + 2 ^ 256 * c) /\
  scalar_ok (scalar_reduce r ov) /\ val (scalar_reduce r ov) = (val r + 2 ^ 256 * c) mod N.
Proof.
  intros H Hc B. rewrite (check_overflow_spec r H). cbv zeta.
  pose proof (val_range r H) as R. set (ov := c + Z.b2z (N <=? val r)).
  assert (Hov : (ov = 0 /\ val r + 2 ^ 256 * c < N) \/ (ov = 1 /\ N <= val r + 2 ^ 256 * c)).
  { unfold ov, N in *. destruct (Z.leb_spec 0xFFFFFFFFFFFFFFFFFFFFFFFFFFFFFFFEBAAEDCE6AF48A03BBFD25E8CD0364141 (val r));
      cbn [Z.b2z]; lia. }
  clearbody ov. destruct (reduce_val r ov H) as [L (k & E)]; [lia|].
  pose proof (val_range _ L) as R'.
  assert (V : val (scalar_reduce r ov) = (val r + 2 ^ 256 * c) mod N /\ val (scalar_reduce r ov) < N).
  { destruct Hov as [[-> Hs] | [-> Hs]].
    - rewrite Z.mod_small by lia. assert (c = 0) as -> by (unfold N in *; lia).
      assert (k = 0) as -> by (unfold N in *; lia). unfold N in *; lia.
    - rewrite <- (Z.mod_unique (val r + 2 ^ 256 * c) N 1 (val r + 2 ^ 256 * c - N)) by lia.
      assert (k + c = 1) by (unfold N in *; lia). unfold N in *; lia. }
  destruct V as [V1 V2]. split_and!; [lia|lia|by split|done].
Qed.

Lemma scalar_add_spec a b :
  scalar_ok a -> scalar_ok b ->
  let (r, ov) := scalar_add a b in
  scalar_ok r /\ val r = (val a + val b) mod N /\ (ov = 0 \/ ov = 1) /\ (ov = 1 <-> N <= val a + val b).
Proof.
  intros [(A0 & A1 & A2 & A3) Va] [(B0 & B1 & B2 & B3) Vb]. unfold scalar_add. cbv zeta. carry_chain.
  assert (S : val (mkScalar lo lo0 lo1 lo2) + 2 ^ 256 * hi2 = val a + val b)
    by (unfold val; cbn [d0 d1 d2 d3]; lia).
  rewrite (u64_id hi2) by done.
  destruct (reduce_final (mkScalar lo lo0 lo1 lo2) hi2) as (O & I & K & V);
    [by split_and!|apply Hh2|rewrite S; lia|].
  rewrite S in *. done.
Qed.

(** ** Bytes *)

Lemma be_val_app a b : be_val (a ++ b) = be_val a * 256 ^ zlen b + be_val b.
Proof.
  revert a. induction b as [|x b IH] using rev_ind; intros a; [rewrite app_nil_r, zlen_nil; cbn; lia|].
  rewrite app_assoc, !be_val_snoc, IH, zlen_app. change (zlen [x]) with 1.
  rewrite Z.pow_add_r by (unfold zlen; lia). lia.
Qed.

Lemma lor_byte Y p k k' : k' = k + 8 -> 0 <= k -> is_u8 p ->
  Z.lor (Z.shiftl Y k') (Z.shiftl p k) = Z.shiftl (Y * 256 + p) k.
Proof.
  intros -> Hk Hp. unfold is_u8 in Hp. rewrite (Z.shiftl_mul_pow2 p), (Z.shiftl_mul_pow2 (_ + _)) by lia.
  rewrite lor_shiftl_add by (first [lia|rewrite Z.pow_add_r by lia; nia]). rewrite Z.pow_add_r by lia. lia.
Qed.

Lemma read_be64_val p : (8 <= length p)%nat -> bytes_ok p -> read_be64 p = be_val (take 8 p).
Proof.
  do 8 (destruct p as [|? p]; [cbn [length]; lia|]). intros _ B. rewrite !bytes_ok_cons in B. destruct_and!.
  cbn [take firstn]. rewrite ?take_0. unfold read_be64, at_. cbn [nth foldl]. rewrite Z.lor_0_l.
  rewrite <- (Z.shiftl_0_r z6).
  rewrite (lor_byte z z0 48 56), (lor_byte _ z1 40 48), (lor_byte _ z2 32 40), (lor_byte _ z3 24 32),
    (lor_byte _ z4 16 24), (lor_byte _ z5 8 16), (lor_byte _ z6 0 8) by (done || lia).
  rewrite Z.shiftl_0_r. unfold be_val. cbn [foldl]. rewrite ?take_0. cbn [foldl]. rewrite ?Z.shiftl_0_r. lia.
Qed.

Lemma write_be64_val x : is_u64 x -> be_val (write_be64 x) = x /\ bytes_ok (write_be64 x).
Proof.
  intros H. split.
  - unfold write_be64, be_val, u8, is_u64 in *. cbn [foldl]. rewrite !Z.shiftr_div_pow2 by lia.
    Z.to_euclidean_division_equations. lia.
  - unfold write_be64. repeat (apply bytes_ok_cons; split; [apply u8_range|]). apply bytes_ok_nil.
Qed.

Lemma get_b32_spec a :
  limbs_ok a -> be_val (scalar_get_b32 a) = val a /\ bytes_ok (scalar_get_b32 a) /\ length (scalar_get_b32 a) = 32%nat.
Proof.
  intros (H0 & H1 & H2 & H3). unfold scalar_get_b32.
  destruct (write_be64_val _ H0) as [E0 B0], (write_be64_val _ H1) as [E1 B1],
    (write_be64_val _ H2) as [E2 B2], (write_be64_val _ H3) as [E3 B3].
  split_and!; [|by rewrite !bytes_ok_app|done].
  rewrite !be_val_app, E0, E1, E2, E3, !zlen_app.
  change (zlen (write_be64 _)) with 8. unfold val. lia.
Qed.

(** A 32-byte string as a number, in four words. *)
Lemma words_b32 b :
  length b = 32%nat -> bytes_ok b ->
  let r := mkScalar (read_be64 (drop 24 b)) (read_be64 (drop 16 b)) (read_be64 (drop 8 b)) (read_be64 (drop 0 b)) in
  limbs_ok r /\ val r = be_val b.
Proof.
  intros L B r.
  assert (W : forall k, (k + 8 <= 32)%nat -> read_be64 (drop k b) = be_val (take 8 (drop k b)) /\ is_u64 (read_be64 (drop k b))).
  { intros k Hk. rewrite read_be64_val by (rewrite ?length_drop; auto with gambit; lia). split; [done|].
    pose proof (be_val_bound (take 8 (drop k b)) ltac:(auto with gambit)) as R.
    assert (Ez : zlen (take 8 (drop k b)) = 8) by (unfold zlen; rewrite length_take, length_drop; lia).
    rewrite Ez in R. exact R. }
  destruct (W 24%nat ltac:(lia)) as [E0 R0], (W 16%nat ltac:(lia)) as [E1 R1],
    (W 8%nat ltac:(lia)) as [E2 R2], (W 0%nat ltac:(lia)) as [E3 R3].
  split; [by split_and!|]. unfold r, val. cbn [d0 d1 d2 d3]. rewrite E0, E1, E2, E3.
  assert (Eb : b = take 8 (drop 0 b) ++ take 8 (drop 8 b) ++ take 8 (drop 16 b) ++ take 8 (drop 24 b)).
  { rewrite drop_0, (take_ge (drop 24 b)) by (rewrite length_drop; lia).
    replace (drop 24 b) with (drop 8 (drop 16 b)) by (by rewrite drop_drop). rewrite take_drop.
    replace (drop 16 b) with (drop 8 (drop 8 b)) by (by rewrite drop_drop). by rewrite !take_drop. }
  assert (Lz : forall k, (k + 8 <= 32)%nat -> zlen (take 8 (drop k b)) = 8)
    by (intros k Hk; unfold zlen; rewrite length_take, length_drop; lia).
  rewrite Eb at 5. rewrite !be_val_app, !zlen_app, !Lz by lia. lia.
Qed.

Lemma set_b32_spec b :
  length b = 32%nat -> bytes_ok b ->
  let (r, ov) := scalar_set_b32 b in
  scalar_ok r /\ val r = be_val b mod N /\ ov = Z.b2z (N <=? be_val b).
Proof.
  intros L B. unfold scalar_set_b32. cbv zeta. destruct (words_b32 b L B) as [H E].
  pose proof (val_range _ H) as R. rewrite E in R.
  destruct (reduce_final _ 0 H) as (_ & _ & K & V); [lia|rewrite E; unfold N; lia|].
  rewrite Z.add_0_l in *. rewrite Z.mul_0_r, Z.add_0_r, E in V.
  split_and!; [done|done|]. rewrite check_overflow_spec by done. by rewrite E.
Qed.

Lemma val_inj a b : limbs_ok a -> limbs_ok b -> val a = val b -> a = b.
Proof.
  destruct a as [a0 a1 a2 a3], b as [b0 b1 b2 b3]. unfold limbs_ok, val, is_u64. cbn [d0 d1 d2 d3].
  intros. f_equal; lia.
Qed.

Lemma set_get_b32 a : scalar_ok a -> scalar_set_b32 (scalar_get_b32 a) = (a, 0).
Proof.
  intros [H V]. destruct (get_b32_spec a H) as (E & B & L). pose proof (set_b32_spec _ L B) as S.
  destruct (scalar_set_b32 _) as [r ov]. rewrite E in S. destruct S as (K & Vr & ->).
  pose proof (val_range a H). rewrite Z.mod_small in Vr by lia. f_equal.
  - apply val_inj; [apply K|done|done].
  - by rewrite (proj2 (Z.leb_gt N (val a)) V).
Qed.

(** ** Tests, negation, selection *)

Lemma lor_eq_0 x y : Z.lor x y = 0 <-> x = 0 /\ y = 0.
Proof. apply Z.lor_eq_0_iff. Qed.

Lemma is_zero_spec a : limbs_ok a -> scalar_is_zero a = (val a =? 0).
Proof.
  intros (H0 & H1 & H2 & H3). apply eq_true_iff_eq. unfold scalar_is_zero.
  rewrite !Z.eqb_eq, !lor_eq_0. unfold val, is_u64 in *. lia.
Qed.

Lemma scalar_eq_spec a b : limbs_ok a -> limbs_ok b -> scalar_eq a b = (val a =? val b).
Proof.
  intros (H0 & H1 & H2 & H3) (G0 & G1 & G2 & G3). apply eq_true_iff_eq. unfold scalar_eq.
  rewrite !Z.eqb_eq, !lor_eq_0, !Z.lxor_eq_0_iff. unfold val, is_u64 in *. lia.
Qed.

Lemma land_ones64 x : is_u64 x -> Z.land x 0xFFFFFFFFFFFFFFFF = x.
Proof.
  intros H. change 0xFFFFFFFFFFFFFFFF with (Z.ones 64). rewrite Z.land_ones by lia. by apply Z.mod_small.
Qed.

Lemma not64_u64 x : is_u64 (not64 x).
Proof. apply u64_range. Qed.

Lemma negate_spec a : scalar_ok a -> scalar_ok (scalar_negate a) /\ val (scalar_negate a) = (- val a) mod N.
Proof.
  intros [H V]. pose proof (val_range a H) as R. unfold scalar_negate. rewrite (is_zero_spec a H).
  destruct (Z.eqb_spec (val a) 0) as [E|E]; cbn [negb Z.b2z]; cbv zeta.
  - change (u64 (0xFFFFFFFFFFFFFFFF * 0)) with 0. rewrite !Z.land_0_r, E. by split; [split; [by split_and!|]|].
  - change (u64 (0xFFFFFFFFFFFFFFFF * 1)) with 0xFFFFFFFFFFFFFFFF. rewrite !land_ones64 by apply u64_range.
    destruct H as (H0 & H1 & H2 & H3). rewrite !not64_val by done.
    change (u64 (N_0 + 1)) with (N_0 + 1). unfold N_0, N_1, N_2, N_3. carry_chain.
    assert (Ev : val (mkScalar lo lo0 lo1 lo2) = N - val a).
    { unfold val, N, is_u64 in *; cbn [d0 d1 d2 d3] in *. lia. }
    split; [split; [by split_and!|lia]|]. rewrite Ev. apply (Z.mod_unique _ _ (-1)); lia.
Qed.

Lemma lxor_ones64 x : is_u64 x -> Z.lxor x 0xFFFFFFFFFFFFFFFF = not64 x.
Proof.
  intros H. apply Z.bits_inj'. intros i Hi. unfold not64, u64. change 0xFFFFFFFFFFFFFFFF with (Z.ones 64).
  rewrite Z.lxor_spec. destruct (Z.lt_ge_cases i 64).
  - rewrite Z.mod_pow2_bits_low, Z.lnot_spec, Z.ones_spec_low by lia. by destruct (Z.testbit x i).
  - rewrite Z.mod_pow2_bits_high, Z.ones_spec_high, (testbit_high x 64) by (done || lia). done.
Qed.

Lemma cond_negate_1 r : limbs_ok r -> (scalar_cond_negate r 1).1 = scalar_negate r.
Proof.
  intros H. destruct H as (H0 & H1 & H2 & H3). unfold scalar_cond_negate, scalar_negate. cbv zeta. cbn [fst].
  change (u64 (- (1))) with 0xFFFFFFFFFFFFFFFF. rewrite !lxor_ones64 by done.
  rewrite !land_ones64 by (split; done || lia).
  by destruct (scalar_is_zero r).
Qed.

Lemma cond_negate_0 r : limbs_ok r -> (scalar_cond_negate r 0).1 = r.
Proof.
  intros H. pose proof (is_zero_spec r H) as Z. destruct H as (H0 & H1 & H2 & H3).
  unfold scalar_cond_negate. cbv zeta. cbn [fst].
  change (u64 (- 0)) with 0. rewrite !Z.lxor_0_r, !Z.land_0_r, Z. clear Z.
  destruct (Z.eqb_spec (val r) 0) as [E|E]; cbn [Z.b2z].
  - change (u64 (1 - 1)) with 0. rewrite !Z.land_0_r. destruct r as [r0 r1 r2 r3]. unfold val, is_u64 in *. cbn [d0 d1 d2 d3] in *.
    f_equal; lia.
  - change (u64 (0 - 1)) with 0xFFFFFFFFFFFFFFFF. rewrite !land_ones64 by apply u64_range. carry_chain.
    destruct r as [r0 r1 r2 r3]. unfold is_u64 in *. cbn [d0 d1 d2 d3] in *. f_equal; lia.
Qed.

Lemma cond_negate_spec r (flag : bool) :
  scalar_ok r ->
  let r' := (scalar_cond_negate r (Z.b2z flag)).1 in
  scalar_ok r' /\ val r' = (if flag then - val r else val r) mod N.
Proof.
  intros K r'. unfold r'. destruct flag; cbn [Z.b2z].
  - rewrite cond_negate_1 by apply K. by apply negate_spec.
  - rewrite cond_negate_0 by apply K. split; [done|]. destruct K as [H V].
    pose proof (val_range r H). rewrite Z.mod_small; [done|lia].
Qed.

Lemma cmov_spec r a (flag : bool) :
  limbs_ok r -> limbs_ok a -> scalar_cmov r a (Z.b2z flag) = if flag then a else r.
Proof.
  intros (H0 & H1 & H2 & H3) (G0 & G1 & G2 & G3). unfold scalar_cmov. cbv zeta. destruct flag; cbn [Z.b2z].
  - change (u64 (1 + not64 0)) with 0. change (not64 0) with 0xFFFFFFFFFFFFFFFF.
    rewrite !Z.land_0_r, !Z.lor_0_l, !land_ones64 by done. by destruct a.
  - change (u64 (0 + not64 0)) with 0xFFFFFFFFFFFFFFFF. change (not64 0xFFFFFFFFFFFFFFFF) with 0.
    rewrite !Z.land_0_r, !Z.lor_0_r, !land_ones64 by done. by destruct r.
Qed.

Lemma set_b32_seckey_spec b :
  length b = 32%nat -> bytes_ok b ->
  let (r, ok) := scalar_set_b32_seckey b in
  scalar_ok r /\ val r = be_val b mod N /\ ok = (0 <? be_val b) && (be_val b <? N).
Proof.
  intros L B. unfold scalar_set_b32_seckey. pose proof (set_b32_spec b L B) as S.
  destruct (scalar_set_b32 b) as [r ov]. destruct S as (K & V & ->). split_and!; [done|done|].
  rewrite is_zero_spec, V by apply K. pose proof (be_val_bound b B) as R.
  destruct (Z.leb_spec N (be_val b)); cbn [Z.b2z].
  - rewrite (proj2 (Z.ltb_ge (be_val b) N)) by done. cbn. by rewrite andb_false_r.
  - rewrite Z.mod_small by lia. rewrite (proj2 (Z.ltb_lt (be_val b) N)) by done.
    destruct (Z.eqb_spec (be_val b) 0), (Z.ltb_spec 0 (be_val b)); cbn; lia || done.
Qed.

(** ** Multiplication *)

Definition acc_val (c : acc) : Z := let '(c0, c1, c2) := c in c0 + 2 ^ 64 * c1 + 2 ^ 128 * c2.

(** The accumulator's words are in range, the top one below [b]. *)
Definition acc_ok (b : Z) (c : acc) : Prop :=
  let '(c0, c1, c2) := c in is_u64 c0 /\ is_u64 c1 /\ 0 <= c2 < b.

(** A wrapping addition and the carry the comparison detects. *)
Lemma carry_spec x y : is_u64 x -> is_u64 y -> u64 (x + y) + 2 ^ 64 * Z.b2z (u64 (x + y) <? y) = x + y.
Proof.
  unfold is_u64. intros Hx Hy. unfold u64. destruct (Z.lt_ge_cases (x + y) (2 ^ 64)).
  - rewrite (Z.mod_small (x + y)) by lia. destruct (Z.ltb_spec (x + y) y); cbn [Z.b2z]; lia.
  - rewrite <- (Z.mod_unique (x + y) (2 ^ 64) 1 (x + y - 2 ^ 64)) by lia.
    destruct (Z.ltb_spec (x + y - 2 ^ 64) y); cbn [Z.b2z]; lia.
Qed.

Lemma b2z_range b : 0 <= Z.b2z b <= 1.
Proof. destruct b; cbn; lia. Qed.

(** The two words of a product. *)
Lemma mul_words a b : is_u64 a -> is_u64 b ->
  exists tl th, u64 (u128 (a * b)) = tl /\ u64 (Z.shiftr (u128 (a * b)) 64) = th /\
    a * b = tl + 2 ^ 64 * th /\ is_u64 tl /\ 0 <= th < 2 ^ 64 - 1.
Proof.
  unfold is_u64. intros Ha Hb. assert (R : 0 <= a * b <= (2 ^ 64 - 1) * (2 ^ 64 - 1)) by nia.
  destruct (word_split (a * b)) as (lo & hi & El & Eh & E & Hl & Hh); [lia|].
  exists lo, hi. rewrite El, Eh, (u64_id hi) by done. unfold is_u64 in *. split_and!; (done || lia).
Qed.

(** A step of the accumulator: the new value, and the top word grows by at
    most one. [w2] does not wrap below [b]. *)
Section Accumulator.
Context (w2 : Z -> Z) (b : Z) (w2_id : forall x, 0 <= x < b -> w2 x = x).

Lemma muladd_spec k x y c :
  is_u64 x -> is_u64 y -> acc_ok k c -> k + 1 <= b ->
  acc_val (muladd w2 x y c) = acc_val c + x * y /\ acc_ok (k + 1) (muladd w2 x y c).
Proof.
  destruct c as [[c0 c1] c2]. intros Hx Hy (H0 & H1 & H2) Hb. unfold muladd.
  destruct (mul_words x y Hx Hy) as (tl & th & -> & -> & E & Hl & Hh).
  pose proof (carry_spec c0 tl H0 Hl) as C0. pose proof (b2z_range (u64 (c0 + tl) <? tl)) as R0.
  set (k0 := Z.b2z (u64 (c0 + tl) <? tl)) in *.
  rewrite (u64_id (th + k0)) by (unfold is_u64; lia).
  assert (Ht : is_u64 (th + k0)) by (unfold is_u64; lia).
  pose proof (carry_spec c1 (th + k0) H1 Ht) as C1. pose proof (b2z_range (u64 (c1 + (th + k0)) <? th + k0)) as R1.
  set (k1 := Z.b2z (u64 (c1 + (th + k0)) <? th + k0)) in *. clearbody k0 k1.
  rewrite w2_id by lia. unfold acc_val, acc_ok. split; [lia|]. split_and!; try apply u64_range; lia.
Qed.

Lemma sumadd_spec k x c :
  is_u64 x -> acc_ok k c -> k + 1 <= b ->
  acc_val (sumadd w2 x c) = acc_val c + x /\ acc_ok (k + 1) (sumadd w2 x c).
Proof.
  destruct c as [[c0 c1] c2]. intros Hx (H0 & H1 & H2) Hb. unfold sumadd.
  pose proof (carry_spec c0 x H0 Hx) as C0. pose proof (b2z_range (u64 (c0 + x) <? x)) as R0.
  set (k0 := Z.b2z (u64 (c0 + x) <? x)) in *.
  assert (Hk : is_u64 k0) by (unfold is_u64; lia).
  pose proof (carry_spec c1 k0 H1 Hk) as C1. pose proof (b2z_range (u64 (c1 + k0) <? k0)) as R1.
  set (k1 := Z.b2z (u64 (c1 + k0) <? k0)) in *. clearbody k0 k1.
  rewrite w2_id by lia. unfold acc_val, acc_ok. split; [lia|]. split_and!; try apply u64_range; lia.
Qed.

End Accumulator.

(** The fast forms, under their contract: the sum fits two words. *)
Lemma muladd_fast_spec x y c :
  is_u64 x -> is_u64 y -> acc_ok 1 c -> acc_val c + x * y < 2 ^ 128 ->
  acc_val (muladd_fast x y c) = acc_val c + x * y /\ acc_ok 1 (muladd_fast x y c).
Proof.
  destruct c as [[c0 c1] c2]. intros Hx Hy (H0 & H1 & H2) Hb. unfold muladd_fast.
  destruct (mul_words x y Hx Hy) as (tl & th & -> & -> & E & Hl & Hh). rewrite E in *.
  pose proof (carry_spec c0 tl H0 Hl) as C0. pose proof (b2z_range (u64 (c0 + tl) <? tl)) as R0.
  set (k0 := Z.b2z (u64 (c0 + tl) <? tl)) in *. clearbody k0. unfold acc_val, acc_ok, is_u64 in *.
  rewrite (u64_id (th + k0)) by (unfold is_u64; lia).
  pose proof (u64_range (c0 + tl)) as U. unfold is_u64 in U.
  rewrite (u64_id (c1 + _)) by (unfold is_u64; lia). split; [lia|]. split_and!; lia.
Qed.

Lemma sumadd_fast_spec x c :
  is_u64 x -> acc_ok 1 c -> acc_val c + x < 2 ^ 128 ->
  acc_val (sumadd_fast x c) = acc_val c + x /\ acc_ok 1 (sumadd_fast x c).
Proof.
  destruct c as [[c0 c1] c2]. intros Hx (H0 & H1 & H2) Hb. unfold sumadd_fast.
  pose proof (carry_spec c0 x H0 Hx) as C0. pose proof (b2z_range (u64 (c0 + x) <? x)) as R0.
  set (k0 := Z.b2z (u64 (c0 + x) <? x)) in *. clearbody k0. unfold acc_val, acc_ok, is_u64 in *.
  pose proof (u64_range (c0 + x)) as U. unfold is_u64 in U.
  rewrite (u64_id (c1 + _)) by (unfold is_u64; lia). split; [lia|]. split_and!; lia.
Qed.

Lemma extract_spec k c :
  acc_ok k c -> k <= 2 ^ 64 ->
  exists n c', extract c = (n, c') /\ acc_val c = n + 2 ^ 64 * acc_val c' /\ is_u64 n /\ acc_ok 1 c'.
Proof.
  destruct c as [[c0 c1] c2]. intros (H0 & H1 & H2) Hk. exists c0, (c1, c2, 0).
  unfold acc_val, acc_ok, is_u64 in *. split_and!; try done; lia.
Qed.

Lemma extract_fast_spec c :
  acc_ok 1 c ->
  exists n c', extract_fast c = (n, c') /\ acc_val c = n + 2 ^ 64 * acc_val c' /\ is_u64 n /\
    acc_ok 1 c' /\ acc_val c' < 2 ^ 64.
Proof.
  destruct c as [[c0 c1] c2]. intros (H0 & H1 & H2). exists c0, (c1, 0, c2).
  unfold acc_val, acc_ok, is_u64 in *. split_and!; try done; lia.
Qed.

Lemma acc_nonneg k c : acc_ok k c -> 0 <= acc_val c.
Proof. destruct c as [[c0 c1] c2]. unfold acc_ok, acc_val, is_u64. lia. Qed.

Lemma acc_start x : is_u64 x -> acc_ok 1 (x, 0, 0) /\ acc_val (x, 0, 0) = x.
Proof. unfold acc_ok, acc_val, is_u64. intros. split; [split_and!|]; lia. Qed.

Lemma u32_wrap x : 0 <= x < 2 ^ 32 -> u32 x = x.
Proof. apply u32_id. Qed.

Lemma u64_wrap x : 0 <= x < 2 ^ 64 -> u64 x = x.
Proof. apply u64_id. Qed.

(** Run the macros of the goal one after the other, [fit] proving that a
    fast one does not overflow. *)
Ltac acc_name t E O :=
  let c' := fresh "c" in generalize dependent t; intros c' E O.

Ltac acc_step fit :=
  match goal with
  | |- context [muladd ?w ?x ?y ?c] =>
      is_var c; lazymatch goal with Hc : acc_ok ?k c |- _ =>
      let E := fresh "E" in let O := fresh "O" in
      first [ destruct (muladd_spec w (2 ^ 32) u32_wrap k x y c) as [E O]; [done|done|done|lia|]
            | destruct (muladd_spec w (2 ^ 64) u64_wrap k x y c) as [E O]; [done|done|done|lia|] ];
      acc_name (muladd w x y c) E O; clear Hc end
  | |- context [sumadd ?w ?x ?c] =>
      is_var c; lazymatch goal with Hc : acc_ok ?k c |- _ =>
      let E := fresh "E" in let O := fresh "O" in
      destruct (sumadd_spec w (2 ^ 64) u64_wrap k x c) as [E O]; [done|done|lia|];
      acc_name (sumadd w x c) E O; clear Hc end
  | |- context [muladd_fast ?x ?y ?c] =>
      is_var c; lazymatch goal with Hc : acc_ok 1 c |- _ =>
      let E := fresh "E" in let O := fresh "O" in
      destruct (muladd_fast_spec x y c) as [E O]; [done|done|done|fit|];
      acc_name (muladd_fast x y c) E O; clear Hc end
  | |- context [sumadd_fast ?x ?c] =>
      is_var c; lazymatch goal with Hc : acc_ok 1 c |- _ =>
      let E := fresh "E" in let O := fresh "O" in
      destruct (sumadd_fast_spec x c) as [E O]; [done|done|fit|];
      acc_name (sumadd_fast x c) E O; clear Hc end
  | |- context [extract ?c] =>
      is_var c; lazymatch goal with Hc : acc_ok ?k c |- _ =>
      let n := fresh "n" in let c' := fresh "c" in let E := fresh "E" in let Hn := fresh "Hn" in let O := fresh "O" in
      destruct (extract_spec k c) as (n & c' & -> & E & Hn & O); [done|lia|];
      clear Hc; pose proof (acc_nonneg 1 c' O) end
  | |- context [extract_fast ?c] =>
      is_var c; lazymatch goal with Hc : acc_ok 1 c |- _ =>
      let n := fresh "n" in let c' := fresh "c" in let E := fresh "E" in let Hn := fresh "Hn" in let O := fresh "O" in
      let B := fresh "B" in
      destruct (extract_fast_spec c) as (n & c' & -> & E & Hn & O & B); [done|];
      clear Hc; pose proof (acc_nonneg 1 c' O) end
  end.

Lemma acc_top c : acc_ok 1 c -> acc_val c < 2 ^ 64 -> exists c0 c1 c2, c = (c0, c1, c2) /\ c0 = acc_val c /\ is_u64 c0.
Proof.
  destruct c as [[c0 c1] c2]. unfold acc_ok, acc_val, is_u64. intros H B. exists c0, c1, c2. split; [done|]. lia.
Qed.

(** The last word of the accumulator. *)
Ltac acc_end :=
  match goal with O : acc_ok 1 ?c, B : acc_val ?c < 2 ^ 64 |- context [match ?c with _ => _ end] =>
    let c0 := fresh "top" in let E := fresh "E" in let H := fresh "Htop" in
    destruct (acc_top c O B) as (c0 & ? & ? & E & ? & H); rewrite E end.

Definition val8 (l : limbs8) : Z :=
  let '(l0, l1, l2, l3, l4, l5, l6, l7) := l in
  l0 + 2 ^ 64 * l1 + 2 ^ 128 * l2 + 2 ^ 192 * l3 + 2 ^ 256 * (l4 + 2 ^ 64 * l5 + 2 ^ 128 * l6 + 2 ^ 192 * l7).

Definition limbs8_ok (l : limbs8) : Prop :=
  let '(l0, l1, l2, l3, l4, l5, l6, l7) := l in
  is_u64 l0 /\ is_u64 l1 /\ is_u64 l2 /\ is_u64 l3 /\ is_u64 l4 /\ is_u64 l5 /\ is_u64 l6 /\ is_u64 l7.

(** The product of two scalars, exactly. *)
Lemma mul_512_spec a b :
  limbs_ok a -> limbs_ok b -> limbs8_ok (scalar_mul_512 a b) /\ val8 (scalar_mul_512 a b) = val a * val b.
Proof.
  intros Ha Hb. pose proof (val_range a Ha) as Ra. pose proof (val_range b Hb) as Rb.
  assert (T : val a * val b < 2 ^ 512) by (change (2 ^ 512) with (2 ^ 256 * 2 ^ 256); nia).
  assert (X : val a * val b = d0 a * d0 b + 2 ^ 64 * (d0 a * d1 b + d1 a * d0 b)
    + 2 ^ 128 * (d0 a * d2 b + d1 a * d1 b + d2 a * d0 b)
    + 2 ^ 192 * (d0 a * d3 b + d1 a * d2 b + d2 a * d1 b + d3 a * d0 b)
    + 2 ^ 256 * (d1 a * d3 b + d2 a * d2 b + d3 a * d1 b)
    + 2 ^ 320 * (d2 a * d3 b + d3 a * d2 b) + 2 ^ 384 * (d3 a * d3 b)) by (unfold val; ring).
  destruct Ha as (A0 & A1 & A2 & A3), Hb as (B0 & B1 & B2 & B3).
  unfold scalar_mul_512. cbv zeta.
  destruct (acc_start 0) as [O E0]; [done|]. generalize dependent (0, 0, 0). intros c E0 O.
  repeat acc_step ltac:(unfold is_u64 in *; first [nia|lia]). acc_end.
  split; [by split_and!|]. unfold val8. lia.
Qed.

(** [m + 2^256 * h] and [m + h * (2^256 - N)] agree modulo the order: the
    first two stages of the reduction. *)
Definition val7 (m : Z * Z * Z * Z * Z * Z * Z) : Z :=
  let '(m0, m1, m2, m3, m4, m5, m6) := m in
  m0 + 2 ^ 64 * m1 + 2 ^ 128 * m2 + 2 ^ 192 * m3 + 2 ^ 256 * (m4 + 2 ^ 64 * m5 + 2 ^ 128 * m6).

Definition limbs7_ok (m : Z * Z * Z * Z * Z * Z * Z) : Prop :=
  let '(m0, m1, m2, m3, m4, m5, m6) := m in
  is_u64 m0 /\ is_u64 m1 /\ is_u64 m2 /\ is_u64 m3 /\ is_u64 m4 /\ is_u64 m5 /\ 0 <= m6 <= 1 /\
  val7 m < 2 ^ 256 * (2 ^ 256 - N + 1).

Definition val5 (p : Z * Z * Z * Z * Z) : Z :=
  let '(p0, p1, p2, p3, p4) := p in p0 + 2 ^ 64 * p1 + 2 ^ 128 * p2 + 2 ^ 192 * p3 + 2 ^ 256 * p4.

Definition limbs5_ok (p : Z * Z * Z * Z * Z) : Prop :=
  let '(p0, p1, p2, p3, p4) := p in is_u64 p0 /\ is_u64 p1 /\ is_u64 p2 /\ is_u64 p3 /\ 0 <= p4 <= 2.

Lemma mod_N_congr x y k : x = y + k * N -> x mod N = y mod N.
Proof. intros ->. apply Z_mod_plus_full. Qed.

Lemma reduce_512_385_spec l :
  limbs8_ok l -> limbs7_ok (reduce_512_385 l) /\ val7 (reduce_512_385 l) mod N = val8 l mod N.
Proof.
  destruct l as [[[[[[[l0 l1] l2] l3] n0] n1] n2] n3]. intros (L0 & L1 & L2 & L3 & M0 & M1 & M2 & M3).
  unfold reduce_512_385. cbv zeta. destruct N_C_values as [-> ->].
  destruct (acc_start l0 L0) as [O Ec]. generalize dependent (l0, 0, 0). intros c O Ec.
  repeat acc_step ltac:(unfold is_u64 in *; lia). acc_end.
  assert (Ht : 0 <= top <= 1) by (unfold is_u64 in *; lia).
  rewrite u32_id by (unfold is_u32; lia).
  split; [split_and!; first [done|lia|unfold val7, N, is_u64 in *; lia]|].
  apply (mod_N_congr _ _ (- (n0 + 2 ^ 64 * n1 + 2 ^ 128 * n2 + 2 ^ 192 * n3))). unfold val7, val8, N. lia.
Qed.

Lemma reduce_385_258_spec m :
  limbs7_ok m -> limbs5_ok (reduce_385_258 m) /\ val5 (reduce_385_258 m) mod N = val7 m mod N.
Proof.
  destruct m as [[[[[[m0 m1] m2] m3] m4] m5] m6]. intros (L0 & L1 & L2 & L3 & L4 & L5 & L6 & Lv). unfold val7 in Lv.
  assert (L6' : is_u64 m6) by (unfold is_u64; lia).
  unfold reduce_385_258. cbv zeta. destruct N_C_values as [-> ->].
  destruct (acc_start m0 L0) as [O Ec]. generalize dependent (m0, 0, 0). intros c O Ec.
  repeat acc_step ltac:(unfold is_u64 in *; lia). acc_end.
  assert (Ht : 0 <= top + m6 <= 2) by (unfold is_u64, N in *; lia).
  rewrite u64_id, u32_id by (unfold is_u64, is_u32; lia). split; [split_and!; done || lia|].
  apply (mod_N_congr _ _ (- (m4 + 2 ^ 64 * m5 + 2 ^ 128 * m6))). unfold val7, val5, N. lia.
Qed.

Lemma reduce_258_spec p :
  limbs5_ok p -> scalar_ok (reduce_258 p) /\ val (reduce_258 p) = val5 p mod N.
Proof.
  destruct p as [[[[p0 p1] p2] p3] p4]. intros (L0 & L1 & L2 & L3 & L4).
  unfold reduce_258. cbv zeta. destruct N_C_values as [-> ->]. carry_chain.
  rewrite u64_id by done.
  assert (S : val (mkScalar lo lo0 lo1 lo2) + 2 ^ 256 * hi2 + p4 * N = val5 (p0, p1, p2, p3, p4))
    by (unfold val, val5, N; cbn [d0 d1 d2 d3]; lia).
  destruct (reduce_final (mkScalar lo lo0 lo1 lo2) hi2) as (_ & _ & K & V);
    [by split_and!|apply Hh2|unfold val5, N, is_u64 in *; lia|].
  split; [done|]. rewrite V. by apply (mod_N_congr _ _ (- p4)); lia.
Qed.

Lemma scalar_mul_spec a b :
  scalar_ok a -> scalar_ok b -> scalar_ok (scalar_mul a b) /\ val (scalar_mul a b) = (val a * val b) mod N.
Proof.
  intros [Ha _] [Hb _]. unfold scalar_mul, scalar_reduce_512.
  destruct (mul_512_spec a b Ha Hb) as [L E]. destruct (reduce_512_385_spec _ L) as [L7 E7].
  destruct (reduce_385_258_spec _ L7) as [L5 E5]. destruct (reduce_258_spec _ L5) as [K V].
  split; [done|]. by rewrite V, E5, E7, E.
Qed.

(** ** Halving and the 62-bit form *)

Lemma lor_join x y k :
  0 <= k <= 64 -> 0 <= x < 2 ^ k -> 0 <= y -> Z.lor x (u64 (Z.shiftl y k)) = x + 2 ^ k * (y mod 2 ^ (64 - k)).
Proof.
  intros Hk Hx Hy. unfold u64. rewrite Z.shiftl_mul_pow2 by lia.
  replace (2 ^ 64) with (2 ^ k * 2 ^ (64 - k)) by (rewrite <- Z.pow_add_r by lia; f_equal; lia).
  rewrite (Z.mul_comm y), Zmult_mod_distr_l, Z.lor_comm, Z.mul_comm.
  rewrite <- Z.shiftl_mul_pow2, lor_shiftl_add, Z.shiftl_mul_pow2 by lia. lia.
Qed.

(** Both cases of the mask of [scalar_half]. *)
Lemma land_mask x m : is_u64 x -> m = 0 \/ m = 1 -> Z.land x (u64 (- m)) = m * x.
Proof.
  intros H [-> | ->]; [by rewrite Z.land_0_r|]. change (u64 (- (1))) with 0xFFFFFFFFFFFFFFFF.
  rewrite land_ones64 by done. lia.
Qed.

Lemma half_spec a : scalar_ok a -> scalar_ok (scalar_half a) /\ (2 * val (scalar_half a)) mod N = val a.
Proof.
  intros [H V]. pose proof (val_range a H) as R. destruct H as (H0 & H1 & H2 & H3).
  unfold scalar_half. cbv zeta.
  rewrite (Z.shiftr_div_pow2 (d0 a) 1), (Z.shiftr_div_pow2 (d1 a) 1), (Z.shiftr_div_pow2 (d2 a) 1),
    (Z.shiftr_div_pow2 (d3 a) 1) by lia. change (2 ^ 1) with 2.
  unfold is_u64 in *.
  rewrite !lor_join by (Z.to_euclidean_division_equations; lia). change (2 ^ (64 - 63)) with 2.
  change (Z.land (d0 a) 1) with (Z.land (d0 a) (Z.ones 1)). rewrite Z.land_ones by lia. change (2 ^ 1) with 2.
  assert (P : d0 a mod 2 = 0 \/ d0 a mod 2 = 1) by (Z.to_euclidean_division_equations; lia).
  rewrite !land_mask by (done || (unfold is_u64; vm_compute; split; congruence)).
  pose proof (Z.div_mod (d0 a) 2 ltac:(lia)). pose proof (Z.div_mod (d1 a) 2 ltac:(lia)).
  pose proof (Z.div_mod (d2 a) 2 ltac:(lia)). pose proof (Z.div_mod (d3 a) 2 ltac:(lia)).
  pose proof (Z.mod_pos_bound (d1 a) 2 ltac:(lia)). pose proof (Z.mod_pos_bound (d2 a) 2 ltac:(lia)).
  pose proof (Z.mod_pos_bound (d3 a) 2 ltac:(lia)).
  generalize dependent (d0 a / 2). generalize dependent (d1 a / 2). generalize dependent (d2 a / 2).
  generalize dependent (d3 a / 2). generalize dependent (d0 a mod 2). generalize dependent (d1 a mod 2).
  generalize dependent (d2 a mod 2). generalize dependent (d3 a mod 2). intros.
  assert (P' : 0 <= z2 <= 1) by lia. clear P. revert V R.
  change (u64 (N_H_0 + 1)) with (N_H_0 + 1). unfold N_H_0, N_H_1, N_H_2, N_H_3. carry_chain. intros V R.
  rewrite (u64_id hi1) by done. rewrite (u64_id (_ + _)) by (unfold is_u64, val in *; lia).
  match goal with |- scalar_ok ?r /\ _ => assert (E : 2 * val r = val a + z2 * N) end.
  { unfold val; cbn [d0 d1 d2 d3]. unfold N. lia. }
  split; [split; [split_and!; unfold is_u64, val in *; cbn [d0 d1 d2 d3] in *; lia|unfold N in *; lia]|].
  rewrite E. rewrite Z_mod_plus_full. apply Z.mod_small. lia.
Qed.

(** The conversions around modinv64 lose nothing. *)
Lemma signed62_roundtrip a : limbs_ok a -> scalar_from_signed62 (scalar_to_signed62 a) = a.
Proof.
  intros (H0 & H1 & H2 & H3). unfold scalar_from_signed62, scalar_to_signed62. cbn [v0 v1 v2 v3 v4].
  change (Z.shiftr 0xFFFFFFFFFFFFFFFF 2) with (Z.ones 62). rewrite !Z.land_ones by lia.
  rewrite !Z.shiftr_div_pow2 by lia. unfold is_u64 in *.
  rewrite (lor_join (d0 a / 2 ^ 62)), (lor_join (d1 a / 2 ^ 60)), (lor_join (d2 a / 2 ^ 58))
    by (Z.to_euclidean_division_equations; lia).
  rewrite !lor_join by (Z.to_euclidean_division_equations; lia).
  destruct a as [a0 a1 a2 a3]. cbn [d0 d1 d2 d3] in *. f_equal; Z.to_euclidean_division_equations; lia.
Qed.

(** ** The decomposition for the endomorphism *)

(** Adding four words to the limbs. *)
Definition add_words (r : scalar) (x0 x1 x2 x3 : Z) : scalar :=
  let t := d0 r in
  let t := u128 (t + x0) in
  let r0 := u64 t in let t := Z.shiftr t 64 in
  let t := u128 (t + d1 r) in
  let t := u128 (t + x1) in
  let r1 := u64 t in let t := Z.shiftr t 64 in
  let t := u128 (t + d2 r) in
  let t := u128 (t + x2) in
  let r2 := u64 t in let t := Z.shiftr t 64 in
  let t := u128 (t + d3 r) in
  let t := u128 (t + x3) in
  mkScalar r0 r1 r2 (u64 t).

Lemma add_words_spec r x0 x1 x2 x3 :
  limbs_ok r -> limbs_ok (mkScalar x0 x1 x2 x3) -> val r + val (mkScalar x0 x1 x2 x3) < 2 ^ 256 ->
  limbs_ok (add_words r x0 x1 x2 x3) /\ val (add_words r x0 x1 x2 x3) = val r + val (mkScalar x0 x1 x2 x3).
Proof.
  intros (H0 & H1 & H2 & H3) (X0 & X1 & X2 & X3) Hv. cbn [d0 d1 d2 d3] in *.
  unfold add_words. cbv zeta. carry_chain. split; [by split_and!|].
  unfold val, is_u64 in *; cbn [d0 d1 d2 d3] in *; lia.
Qed.

(** The word of a single bit, at limb [bit >> 6]. *)
Lemma bit_words q w : 0 <= q -> 0 < w < 2 ^ 64 ->
  let x i := u64 (Z.b2z (q =? i) * w) in
  limbs_ok (mkScalar (x 0) (x 1) (x 2) (x 3)) /\
  val (mkScalar (x 0) (x 1) (x 2) (x 3)) = if q <? 4 then (2 ^ 64) ^ q * w else 0.
Proof.
  intros Hq Hw x.
  assert (E : forall i, x i = if q =? i then w else 0).
  { intros i. unfold x. destruct (q =? i); cbn [Z.b2z]; rewrite ?Z.mul_1_l, ?Z.mul_0_l; [|done]. apply u64_id. unfold is_u64. lia. }
  split; [split_and!; cbn [d0 d1 d2 d3]; apply u64_range|]. unfold val. cbn [d0 d1 d2 d3]. rewrite !E.
  destruct (Z.ltb_spec q 4).
  - assert (q = 0 \/ q = 1 \/ q = 2 \/ q = 3) as [-> | [-> | [-> | ->]]] by lia; cbn [Z.eqb Pos.eqb]; lia.
  - z_tests. lia.
Qed.

Lemma cadd_bit_spec r bit (flag : bool) :
  limbs_ok r -> 0 <= bit < 256 -> val r + Z.b2z flag * 2 ^ bit < 2 ^ 256 ->
  limbs_ok (scalar_cadd_bit r bit (Z.b2z flag)) /\
  val (scalar_cadd_bit r bit (Z.b2z flag)) = val r + Z.b2z flag * 2 ^ bit.
Proof.
  intros H Hb Hv. pose proof (b2z_range flag) as Hf. unfold scalar_cadd_bit.
  assert (Eb : u32 (bit + Z.land (u32 (u32 (Z.b2z flag) - 1)) 0x100) = bit + 256 * (1 - Z.b2z flag)).
  { destruct flag; cbn [Z.b2z].
    - change (Z.land _ 0x100) with 0. rewrite u32_id by (unfold is_u32; lia). lia.
    - change (Z.land _ 0x100) with 256. rewrite u32_id by (unfold is_u32; lia). lia. }
  rewrite Eb. clear Eb. set (b' := bit + 256 * (1 - Z.b2z flag)).
  assert (E1 : Z.land b' 0x3F = bit mod 64).
  { change 0x3F with (Z.ones 6). rewrite Z.land_ones by lia. change (2 ^ 6) with 64. unfold b'.
    Z.to_euclidean_division_equations. lia. }
  assert (E2 : Z.shiftr b' 6 = bit / 64 + 4 * (1 - Z.b2z flag)).
  { rewrite Z.shiftr_div_pow2 by lia. change (2 ^ 6) with 64. unfold b'. Z.to_euclidean_division_equations. lia. }
  rewrite E1, E2. clearbody b'. clear b' E1 E2. rewrite !Z.shiftl_mul_pow2 by (apply Z.mod_pos_bound; lia).
  assert (Hm : 0 <= bit mod 64 < 64) by (apply Z.mod_pos_bound; lia).
  assert (Hd : 0 <= bit / 64 < 4) by (Z.to_euclidean_division_equations; lia).
  destruct (bit_words (bit / 64 + 4 * (1 - Z.b2z flag)) (2 ^ (bit mod 64))) as [K V];
    [lia|split; [|apply Z.pow_lt_mono_r]; lia|].
  assert (E : val r + Z.b2z flag * 2 ^ bit = val r +
    (if bit / 64 + 4 * (1 - Z.b2z flag) <? 4 then (2 ^ 64) ^ (bit / 64 + 4 * (1 - Z.b2z flag)) * 2 ^ (bit mod 64) else 0)).
  { f_equal. destruct flag; cbn [Z.b2z]; z_tests; [|lia].
    rewrite <- Z.pow_mul_r, <- Z.pow_add_r, Z.mul_1_l by lia. f_equal. pose proof (Z.div_mod bit 64). lia. }
  rewrite E in *. rewrite <- V in *. by apply add_words_spec.
Qed.

(** The rounded quotient of a product by 2^384. *)
Lemma mul_shift_384 a b :
  limbs_ok a -> limbs_ok b ->
  let r := scalar_mul_shift_var a b 384 in
  limbs_ok r /\ val r < 2 ^ 129 /\ 2 ^ 384 * val r <= val a * val b + 2 ^ 383 < 2 ^ 384 * (val r + 1).
Proof.
  intros Ha Hb r. destruct (mul_512_spec a b Ha Hb) as [L E]. unfold r, scalar_mul_shift_var.
  destruct (scalar_mul_512 a b) as [[[[[[[l0 l1] l2] l3] l4] l5] l6] l7].
  destruct L as (L0 & L1 & L2 & L3 & L4 & L5 & L6 & L7). unfold val8 in E. rewrite <- E. clear E r.
  change (Z.shiftr 384 6) with 6. change (Z.land 384 0x3F) with 0. change (Z.shiftr (384 - 1) 6) with 5.
  change (Z.land (384 - 1) 0x3F) with 63. cbv zeta.
  change (384 <? 512) with true. change (384 <? 448) with true. change (384 <? 384) with false.
  change (384 <? 320) with false. change (0 =? 0) with true. cbn [andb negb].
  change (Z.to_nat (0 + 6)) with 6%nat. change (Z.to_nat (1 + 6)) with 7%nat. change (Z.to_nat 5) with 5%nat.
  cbn [nth]. rewrite !Z.shiftr_0_r, !Z.lor_0_r.
  change (Z.land (Z.shiftr l5 63) 1) with (Z.land (Z.shiftr l5 63) (Z.ones 1)).
  rewrite Z.land_ones, Z.shiftr_div_pow2 by lia. unfold is_u64 in *.
  assert (F : exists f : bool, (l5 / 2 ^ 63) mod 2 ^ 1 = Z.b2z f /\ 2 ^ 63 * Z.b2z f <= l5 < 2 ^ 63 * (Z.b2z f + 1)).
  { exists (2 ^ 63 <=? l5). destruct (Z.leb_spec (2 ^ 63) l5); cbn [Z.b2z]; Z.to_euclidean_division_equations; lia. }
  destruct F as (f & -> & F). pose proof (b2z_range f).
  destruct (cadd_bit_spec (mkScalar l6 l7 0 0) 0 f) as [K V];
    [by split_and!|lia|unfold val; cbn [d0 d1 d2 d3]; lia|].
  rewrite V. split; [done|]. unfold val. cbn [d0 d1 d2 d3]. lia.
Qed.

(** [r] is the residue of a number below 2^128 in absolute value. *)
Definition short (r : scalar) : Prop := exists x, val r = x mod N /\ - 2 ^ 128 < x < 2 ^ 128.

Lemma split_constants :
  scalar_ok g1 /\ scalar_ok g2 /\ scalar_ok minus_b1 /\ scalar_ok minus_b2 /\ scalar_ok const_lambda.
Proof. by vm_compute. Qed.

Lemma mod_N_add x y : (x mod N + y mod N) mod N = (x + y) mod N.
Proof. symmetry. apply Zplus_mod. Qed.

(** The lattice vectors [a1 + b1 * lambda] and [a2 + b2 * lambda] of the
    comment in scalar_impl.h. *)
Definition la1 : Z := 0x3086d221a7d46bcde86c90e49284eb15.
Definition lb1 : Z := - 0xe4437ed6010e88286f547fa90abfe4c3.
Definition la2 : Z := 0x114ca50f7a8e2f3f657c1108d9d44cfd8.
Definition lb2 : Z := 0x3086d221a7d46bcde86c90e49284eb15.

Lemma lattice_vectors :
  la1 + lb1 * val const_lambda = - 0x4a5ac2bf7b5f37f9f1db10d7a2a9c981 * N /\
  la2 + lb2 * val const_lambda = 0xfce9b1dd4eb7dd2718a2906787061b2 * N /\
  val minus_b1 = - lb1 /\ val minus_b2 = N - lb2.
Proof. by vm_compute. Qed.

(** The rounding errors leave both coordinates below 2^128. *)
Lemma split_bounds k c1 c2 :
  0 <= k < N ->
  2 ^ 384 * c1 <= k * val g1 + 2 ^ 383 < 2 ^ 384 * (c1 + 1) ->
  2 ^ 384 * c2 <= k * val g2 + 2 ^ 383 < 2 ^ 384 * (c2 + 1) ->
  - 2 ^ 128 < k - c1 * la1 - c2 * la2 < 2 ^ 128 /\ - 2 ^ 128 < - c1 * lb1 - c2 * lb2 < 2 ^ 128.
Proof.
  intros Hk H1 H2.
  replace (val g1) with 0x3086D221A7D46BCDE86C90E49284EB153DAA8A1471E8CA7FE893209A45DBB031 in H1 by done.
  replace (val g2) with 0xE4437ED6010E88286F547FA90ABFE4C4221208AC9DF506C61571B4AE8AC47F71 in H2 by done.
  unfold N, la1, la2, lb1, lb2 in *. lia.
Qed.

(** ** Properties *)

(** C16: the decomposition of a scalar for the endomorphism is exact: [k] is
    [r1 + lambda * r2] modulo the order, and both parts are residues of
    numbers shorter than 128 bits and a sign, although the two quotients are
    only approximated by a product, a shift of 384 bits and a rounding bit. *)
Theorem split_lambda_short k :
  scalar_ok k ->
  let (r1, r2) := scalar_split_lambda k in
  scalar_ok r1 /\ scalar_ok r2 /\ (val r1 + val const_lambda * val r2) mod N = val k /\ short r1 /\ short r2.
Proof.
  intros K. destruct split_constants as (G1 & G2 & B1 & B2 & KL). unfold scalar_split_lambda. cbv zeta.
  pose proof (val_range k (proj1 K)) as Rk.
  destruct (mul_shift_384 k g1) as (C1 & S1 & Q1); [apply K|apply G1|].
  destruct (mul_shift_384 k g2) as (C2 & S2 & Q2); [apply K|apply G2|].
  generalize dependent (scalar_mul_shift_var k g1 384). intros c1 C1 S1 Q1.
  generalize dependent (scalar_mul_shift_var k g2 384). intros c2 C2 S2 Q2.
  pose proof (val_range _ C1) as R1. pose proof (val_range _ C2) as R2.
  destruct (scalar_mul_spec c1 minus_b1) as [K1 V1]; [split; [done|unfold N; lia]|done|].
  destruct (scalar_mul_spec c2 minus_b2) as [K2 V2]; [split; [done|unfold N; lia]|done|].
  pose proof (scalar_add_spec _ _ K1 K2) as A. destruct (scalar_add _ _) as [r2 o2]. destruct A as (K3 & V3 & _).
  cbn [fst]. destruct (scalar_mul_spec r2 const_lambda K3 KL) as [K4 V4].
  destruct (negate_spec _ K4) as [K5 V5].
  pose proof (scalar_add_spec _ _ K5 K) as A. destruct (scalar_add _ k) as [r1 o1]. destruct A as (K6 & V6 & _).
  cbn [fst]. rewrite V1, V2, mod_N_add in V3. rewrite V4 in V5.
  destruct (split_bounds (val k) (val c1) (val c2)) as [X1 X2]; [split; [lia|apply K]|done|done|].
  destruct lattice_vectors as (W1 & W2 & W3 & W4). rewrite W3, W4 in V3.
  assert (E2 : val r2 = (- val c1 * lb1 - val c2 * lb2) mod N).
  { rewrite V3. apply (mod_N_congr _ _ (val c2)). ring. }
  assert (E1 : val r1 = (val k - val r2 * val const_lambda) mod N).
  { rewrite V6, V5, Zplus_mod_idemp_l.
    apply (mod_N_congr _ _ (val r2 * val const_lambda / N)). rewrite Z.mod_eq by done. ring. }
  split; [exact K6|]. split; [exact K3|]. split; [|split; [|exists (- val c1 * lb1 - val c2 * lb2); by split]].
  - rewrite E1, Zplus_mod_idemp_l. replace (val k - val r2 * val const_lambda + val const_lambda * val r2) with (val k) by ring.
    apply Z.mod_small. split; [lia|apply K].
  - exists (val k - val c1 * la1 - val c2 * la2). split; [|exact X1]. rewrite E1.
    pose proof (Z.div_mod (- val c1 * lb1 - val c2 * lb2) N ltac:(done)) as D. rewrite <- E2 in D.
    set (q := (- val c1 * lb1 - val c2 * lb2) / N) in D. clearbody q.
    assert (D' : val r2 = - val c1 * lb1 - val c2 * lb2 - N * q) by lia. rewrite D'.
    apply (mod_N_congr _ _ (q * val const_lambda - val c1 * 0x4a5ac2bf7b5f37f9f1db10d7a2a9c981 + val c2 * 0xfce9b1dd4eb7dd2718a2906787061b2)).
    assert (Y1 : la1 = - 0x4a5ac2bf7b5f37f9f1db10d7a2a9c981 * N - lb1 * val const_lambda) by lia.
    assert (Y2 : la2 = 0xfce9b1dd4eb7dd2718a2906787061b2 * N - lb2 * val const_lambda) by lia.
    rewrite Y1, Y2. ring.
Qed.

Definition sample_scalar : scalar := mkScalar 0x123456789ABCDEF0 0xFFFFFFFFFFFFFFFF 0x8000000000000000 0xFFFFFFFFFFFFFFFE.

Lemma split_lambda_short_witness :
  scalar_ok sample_scalar /\ short (scalar_split_lambda sample_scalar).1 /\ short (scalar_split_lambda sample_scalar).2.
Proof.
  assert (K : scalar_ok sample_scalar) by by vm_compute. split; [exact K|].
  pose proof (split_lambda_short sample_scalar K) as H. destruct (scalar_split_lambda sample_scalar) as [r1 r2].
  destruct H as (_ & _ & _ & S1 & S2). by split.
Defined.

(** C15: the four-limb scalars implement the integers modulo the group order:
    sum (with its overflow flag), product (through the 512-bit product and
    its three reductions), negation and halving of reduced scalars are
    reduced and are the residues they should be, the order test and the
    comparison are those of the numbers, and the 32-byte form
    is read back exactly. *)
Theorem scalar_arithmetic a b :
  scalar_ok a -> scalar_ok b ->
  (scalar_ok (scalar_add a b).1 /\ val (scalar_add a b).1 = (val a + val b) mod N /\
   (scalar_add a b).2 = Z.b2z (N <=? val a + val b)) /\
  (scalar_ok (scalar_mul a b) /\ val (scalar_mul a b) = (val a * val b) mod N) /\
  (scalar_ok (scalar_negate a) /\ val (scalar_negate a) = (- val a) mod N) /\
  (scalar_ok (scalar_half a) /\ (2 * val (scalar_half a)) mod N = val a) /\
  scalar_is_high a = Z.b2z (N / 2 <? val a) /\ scalar_eq a b = (val a =? val b) /\
  scalar_set_b32 (scalar_get_b32 a) = (a, 0) /\ scalar_from_signed62 (scalar_to_signed62 a) = a.
Proof.
  intros A B. split.
  - pose proof (scalar_add_spec a b A B) as S. destruct (scalar_add a b) as [r ov]. cbn [fst snd].
    destruct S as (K & V & O & I). split; [exact K|]. split; [exact V|].
    destruct (Z.leb_spec N (val a + val b)), O as [->| ->]; cbn [Z.b2z]; lia.
  - split; [by apply scalar_mul_spec|]. split; [by apply negate_spec|]. split; [by apply half_spec|].
    split; [apply is_high_spec, A|]. split; [apply scalar_eq_spec; [apply A|apply B]|].
    split; [by apply set_get_b32|apply signed62_roundtrip, A].
Qed.

Lemma scalar_arithmetic_witness :
  val (scalar_mul sample_scalar (mkScalar 3 0 0 0)) = (val sample_scalar * 3) mod N /\
  (scalar_add sample_scalar sample_scalar).2 = 1.
Proof.
  assert (K : scalar_ok sample_scalar) by by vm_compute.
  assert (K3 : scalar_ok (mkScalar 3 0 0 0)) by by vm_compute.
  split.
  - exact (proj2 (proj1 (proj2 (scalar_arithmetic sample_scalar (mkScalar 3 0 0 0) K K3)))).
  - rewrite (proj2 (proj2 (proj1 (scalar_arithmetic sample_scalar sample_scalar K K)))). by vm_compute.
Defined.
