(* ===== verification/Primes.v ===== *)
(** * The group order is prime

    Scalar inversion modulo the order of the group (scalar_4x64_impl.h)
    relies on the order being prime. This file proves it: Fermat's little
    theorem, Pocklington's criterion as a boolean check on a certificate,
    and the certificate of the order, down to primes that trial division
    settles. The inverse of a residue is then a power of it. *)

From Stdlib Require Import ZArith Lia Zdivisibility Zcong Zpow_facts.
From stdpp Require Import base list numbers.
From S2P Require Import Prelude.

#[local] Open Scope Z_scope.

(** ** Congruences *)

#[export] Instance divide_dec (a b : Z) : Decision (a | b).
Proof.
  destruct ((b =? 0) || negb (a =? 0) && (b mod a =? 0)) eqn:E; [left|right];
    destruct (Z.BoolSpec_divide a b); (done || congruence).
Defined.

Lemma mul_cancel_mod p a x y :
  Z.prime p -> ~ (p | a) -> (a * x) mod p = (a * y) mod p -> x mod p = y mod p.
Proof.
  intros P Ha E. pose proof (Z.prime_ge_2 p P).
  assert (D : (p | a * (x - y))).
  { apply Z.mod_divide; [lia|]. rewrite Z.mul_sub_distr_l, Zminus_mod, E, Z.sub_diag. apply Z.mod_0_l. lia. }
  apply Z.divide_prime_mul in D as [D|[k D]]; [done| |done].
  replace x with (y + k * p) by lia. apply Z_mod_plus_full.
Qed.

Lemma pow_mod_idemp a n p : 0 < p -> 0 <= n -> (a mod p) ^ n mod p = a ^ n mod p.
Proof. intros. apply Z.mod_pow_l. Qed.

(** ** Fermat's little theorem *)

Definition prod (l : list Z) : Z := foldr Z.mul 1 l.

#[export] Instance prod_perm : Proper ((≡ₚ) ==> (=)) prod.
Proof.
  unfold prod. induction 1 as [|x l l' _ IH|x y l|l1 l2 l3 _ IH1 _ IH2]; cbn [foldr]; [done|by rewrite IH|ring|by rewrite IH1].
Qed.

Lemma prod_mul_mod p a l :
  0 < p -> prod ((fun x => (a * x) mod p) <$> l) mod p = (a ^ zlen l * prod l) mod p.
Proof.
  intros Hp. induction l as [|x l IH]; [by rewrite zlen_nil|].
  rewrite fmap_cons, zlen_cons, Z.pow_add_r, Z.pow_1_r by (pose proof (zlen_nonneg l); lia).
  cbn [prod foldr]. fold (prod l). fold (prod ((fun x => (a * x) mod p) <$> l)).
  rewrite Zmult_mod_idemp_l, <- Zmult_mod_idemp_r, IH, Zmult_mod_idemp_r. f_equal. ring.
Qed.

Lemma prod_not_divisible p l : Z.prime p -> Forall (fun x => ~ (p | x)) l -> ~ (p | prod l).
Proof.
  intros P. induction 1 as [|x l Hx Hl IH]; cbn [prod foldr].
  - intros D. apply Z.divide_1_r_nonneg in D; pose proof (Z.prime_ge_2 p P); lia.
  - intros D. apply Z.divide_prime_mul in D as [D|D]; [done|done|done].
Qed.

Lemma not_divisible_small p x : 0 < x < p -> ~ (p | x).
Proof. intros H D. apply Z.divide_pos_le in D; lia. Qed.

(** The multiples of [a] permute the nonzero residues. *)
Lemma residues_perm p a :
  Z.prime p -> ~ (p | a) -> (fun x => (a * x) mod p) <$> seqZ 1 (p - 1) ≡ₚ seqZ 1 (p - 1).
Proof.
  intros P Ha. pose proof (Z.prime_ge_2 p P) as Hp.
  apply submseteq_length_Permutation; [|by rewrite length_fmap].
  apply NoDup_submseteq.
  - apply NoDup_fmap_2_strong; [|apply NoDup_seqZ]. intros x y Hx Hy E.
    apply elem_of_seqZ in Hx, Hy. apply (mul_cancel_mod p a x y P Ha) in E.
    rewrite !Z.mod_small in E by lia. done.
  - intros y Hy. apply list_elem_of_fmap in Hy as (x & -> & Hx). apply elem_of_seqZ in Hx. apply elem_of_seqZ.
    pose proof (Z.mod_pos_bound (a * x) p ltac:(lia)).
    assert ((a * x) mod p <> 0); [|lia]. intros E. apply Z.mod_divide in E; [|lia].
    apply Z.divide_prime_mul in E as [E|E]; [done| |done]. by apply (not_divisible_small p x) in E; [|lia].
Qed.

Lemma fermat p a : Z.prime p -> ~ (p | a) -> a ^ (p - 1) mod p = 1.
Proof.
  intros P Ha. pose proof (Z.prime_ge_2 p P) as Hp.
  pose proof (prod_mul_mod p a (seqZ 1 (p - 1)) ltac:(lia)) as E.
  rewrite (residues_perm p a P Ha) in E. unfold zlen in E. rewrite length_seqZ, Z2Nat.id in E by lia.
  replace (prod (seqZ 1 (p - 1)) mod p) with ((prod (seqZ 1 (p - 1)) * 1) mod p) in E by (by rewrite Z.mul_1_r).
  rewrite (Z.mul_comm (a ^ (p - 1))) in E. apply mul_cancel_mod in E; [|done|].
  - rewrite (Z.mod_small 1) in E by lia. done.
  - apply prod_not_divisible; [done|]. apply list.Forall_forall. intros x Hx. apply elem_of_seqZ in Hx.
    apply not_divisible_small. lia.
Qed.

(** ** Pocklington's criterion *)

Lemma pow_gcd_mod a r m n :
  1 < r -> 0 <= m -> 0 <= n -> a ^ m mod r = 1 -> a ^ n mod r = 1 -> a ^ Z.gcd m n mod r = 1.
Proof.
  intros Hr Hm Hn. revert m Hm. pattern n. apply Zlt_0_ind; [|done]. clear n Hn.
  intros n IH Hn m Hm Em En. destruct (decide (n = 0)) as [->|Hn0]; [by rewrite Z.gcd_0_r_nonneg|].
  rewrite Z.gcd_comm, <- Z.gcd_mod, Z.gcd_comm by done. pose proof (Z.mod_pos_bound m n ltac:(lia)).
  apply IH; [lia|lia|done|].
  rewrite (Z.div_mod m n Hn0), Z.pow_add_r, Z.pow_mul_r in Em by (try apply Z.mul_nonneg_nonneg; try apply Z.div_pos; lia).
  rewrite <- Zmult_mod_idemp_l, <- pow_mod_idemp, En, Z.pow_1_l, Zmult_mod_idemp_l, Z.mul_1_l in Em
    by (try apply Z.div_pos; lia).
  done.
Qed.

(** A prime factor [q] of [n - 1] divides [r - 1] for every prime factor [r] of [n]. *)
Lemma pocklington_factor n a q r :
  1 < n -> Z.prime q -> (q | n - 1) -> Z.prime r -> (r | n) ->
  a ^ (n - 1) mod n = 1 -> Z.gcd (a ^ ((n - 1) / q) - 1) n = 1 -> (q | r - 1).
Proof.
  intros Hn Q Dq R Dr E1 E2. pose proof (Z.prime_ge_2 r R) as Hr. pose proof (Z.prime_ge_2 q Q) as Hq.
  assert (M : forall x, x mod n = 1 -> x mod r = 1).
  { intros x Hx. rewrite <- (Z.mod_small 1 r), <- Hx by lia. symmetry. by apply Z.mod_mod_divide. }
  assert (Ha : ~ (r | a)).
  { intros D. specialize (M _ E1). assert (r | a ^ (n - 1)) as D2.
    { replace (n - 1) with (1 + (n - 2)) by lia. rewrite Z.pow_add_r, Z.pow_1_r by lia. by apply Z.divide_mul_l. }
    apply Z.mod_divide in D2; lia. }
  destruct (decide (q | r - 1)) as [D|D]; [done|exfalso].
  destruct Dq as [k Ek]. assert (Ek' : (n - 1) / q = k) by (rewrite Ek; apply Z.div_mul; lia). rewrite Ek' in E2.
  assert (Hk : 0 <= k) by nia.
  pose proof (pow_gcd_mod a r (n - 1) (r - 1) ltac:(lia) ltac:(lia) ltac:(lia) (M _ E1) (fermat r a R Ha)) as G.
  set (g := Z.gcd (n - 1) (r - 1)) in G.
  assert (Dg : (g | k)).
  { apply (Z.gauss g q); [rewrite Z.mul_comm, <- Ek; apply Z.gcd_divide_l|].
    rewrite Z.gcd_comm. apply Z.coprime_prime_l; [done|]. intros F. apply D.
    eapply Z.divide_trans; [exact F|]. apply Z.gcd_divide_r. }
  destruct Dg as [j Ej]. assert (Hg : 0 <= g) by apply Z.gcd_nonneg.
  assert (Hj : g = 0 \/ 0 <= j) by nia.
  assert (P : a ^ k mod r = 1).
  { destruct Hj as [Hj|Hj]; [rewrite Ej, Hj, Z.mul_0_r; cbn; apply Z.mod_small; lia|].
    rewrite Ej, Z.mul_comm, Z.pow_mul_r, <- pow_mod_idemp, G, Z.pow_1_l by lia. apply Z.mod_small. lia. }
  assert (D1 : (r | 1)).
  { rewrite <- E2. apply Z.gcd_greatest; [|done]. apply Z.mod_divide; [lia|].
    rewrite Zminus_mod, P, (Z.mod_small 1), Z.sub_diag by lia. apply Z.mod_0_l. lia. }
  apply Z.divide_1_r_nonneg in D1; lia.
Qed.

(** No number of the list divides [p]. *)
Definition no_divisor (p : Z) (l : list Z) : bool := forallb (fun d => negb (p mod d =? 0)) l.

Lemma no_divisor_spec p l : Forall (fun d => d <> 0) l -> no_divisor p l = true <-> Forall (fun d => ~ (d | p)) l.
Proof.
  intros F. unfold no_divisor. rewrite forallb_forall, list.Forall_forall. rewrite list.Forall_forall in F.
  split; intros H d Hd.
  - intros D. specialize (H d). rewrite <- list_elem_of_In in H. specialize (H Hd).
    apply negb_true_iff, Z.eqb_neq in H. apply H. by apply Z.mod_divide; [apply F|].
  - rewrite <- list_elem_of_In in Hd. apply negb_true_iff, Z.eqb_neq. intros E. apply (H d Hd).
    by apply Z.mod_divide; [apply F|].
Qed.

Lemma prime_divisor n : 1 < n -> exists r, Z.prime r /\ (r | n).
Proof.
  intros Hn. assert (H0 : 0 <= n) by lia. revert n H0 Hn.
  apply (Zlt_0_ind (fun n => 1 < n -> exists r, Z.prime r /\ (r | n))). intros n IH H0 Hn.
  assert (F : Forall (fun d => d <> 0) (seqZ 2 (n - 2))).
  { apply list.Forall_forall. intros d Hd. apply elem_of_seqZ in Hd. lia. }
  destruct (no_divisor n (seqZ 2 (n - 2))) eqn:E.
  - apply no_divisor_spec in E; [|done]. rewrite list.Forall_forall in E. exists n. split; [|apply Z.divide_refl].
    split; [done|]. intros d Hd. apply E. apply elem_of_seqZ. lia.
  - assert (X : ~ Forall (fun d => ~ (d | n)) (seqZ 2 (n - 2))) by (rewrite <- no_divisor_spec by done; congruence).
    apply not_Forall_Exists in X; [|intros d; apply _].
    apply list.Exists_exists in X as (d & Hd & D). apply elem_of_seqZ in Hd.
    apply dec_stable in D. destruct (IH d) as (r & R & Dr); [lia|lia|].
    exists r. split; [done|]. by apply Z.divide_trans with d.
Qed.

(** A number whose prime factors are all above its square root is prime. *)
Lemma prime_of_factors n : 1 < n -> (forall r, Z.prime r -> (r | n) -> n < r * r) -> Z.prime n.
Proof.
  intros Hn H. split; [done|]. intros d Hd [e Ee]. assert (He : 1 < e < n) by nia.
  assert (X : exists c, 1 < c /\ c * c <= n /\ (c | n)).
  { destruct (Z.le_ge_cases d e).
    - exists d. split_and!; [lia|nia|by exists e].
    - exists e. split_and!; [lia|nia|exists d; lia]. }
  destruct X as (c & Hc & Hcc & Dc). destruct (prime_divisor c Hc) as (r & R & Dr).
  specialize (H r R (Z.divide_trans _ _ _ Dr Dc)). apply Z.divide_pos_le in Dr; [|lia].
  pose proof (Z.prime_ge_2 r R). nia.
Qed.

(** ** Certificates *)

(** Trial division up to the square root. *)
Definition trial_prime (p : Z) : bool :=
  (1 <? p) && (p <? 2 ^ 20) && no_divisor p (seqZ 2 (Z.sqrt p - 1)).

Lemma trial_prime_ok p : trial_prime p = true -> Z.prime p.
Proof.
  intros H. unfold trial_prime in H. to_prop. apply prime_of_factors; [done|]. intros r R D.
  pose proof (Z.prime_ge_2 r R). pose proof (Z.sqrt_spec p ltac:(lia)) as Hs. cbv zeta in Hs.
  pose proof (Z.sqrt_nonneg p).
  destruct (Z.le_gt_cases r (Z.sqrt p)) as [L|L]; [exfalso|nia].
  match goal with H : no_divisor _ _ = true |- _ => apply no_divisor_spec in H; [rewrite list.Forall_forall in H; apply (H r)|] end.
  - apply elem_of_seqZ. lia.
  - done.
  - apply list.Forall_forall. intros d Hd. apply elem_of_seqZ in Hd. lia.
Qed.

(** Remainders modulo an [n] just below [2 ^ k]: the part above [k] bits is
    folded down by a multiplication, which is cheaper than a long division. *)
Definition fold_down (n k x : Z) : Z := Z.shiftr x k * (2 ^ k - n) + Z.land x (Z.ones k).

Definition fold_mod (n k x : Z) : Z := fold_down n k (fold_down n k x) mod n.

Fixpoint fold_pow (n k a : Z) (e : positive) : Z :=
  match e with
  | xH => a mod n
  | xO e => let z := fold_pow n k a e in fold_mod n k (z * z)
  | xI e => let z := fold_pow n k a e in fold_mod n k (a * (z * z))
  end.

Lemma fold_mod_ok n k x : 0 <= k -> fold_mod n k x = x mod n.
Proof.
  intros Hk. assert (E : forall y, fold_down n k y mod n = y mod n).
  { intros y. unfold fold_down. rewrite Z.shiftr_div_pow2, Z.land_ones by lia.
    rewrite (Z.div_mod y (2 ^ k)) at 3 by lia.
    replace (y / 2 ^ k * (2 ^ k - n) + y mod 2 ^ k) with (2 ^ k * (y / 2 ^ k) + y mod 2 ^ k + - (y / 2 ^ k) * n) by ring.
    apply Z_mod_plus_full. }
  unfold fold_mod. by rewrite !E.
Qed.

Lemma fold_pow_ok n k a e : 0 <= k -> fold_pow n k a e = a ^ Z.pos e mod n.
Proof.
  intros Hk. induction e as [e IH|e IH|]; cbn [fold_pow]; cbv zeta; rewrite ?fold_mod_ok, ?IH by done.
  - rewrite <- Zmult_mod_idemp_r, <- Zmult_mod, Zmult_mod_idemp_r. f_equal.
    rewrite Pos2Z.inj_xI, Z.pow_add_r, Z.pow_1_r, Z.pow_twice_r by lia. ring.
  - rewrite Pos2Z.inj_xO, Z.pow_twice_r. symmetry. apply Zmult_mod.
  - by rewrite Z.pow_1_r.
Qed.

Lemma fold_pow_mod n k a x : 0 <= k -> 0 < x -> fold_pow n k a (Z.to_pos x) = a ^ x mod n.
Proof. intros Hk Hx. rewrite fold_pow_ok by done. by rewrite Z2Pos.id. Qed.

Lemma quotient_pos q x : 0 < q -> 0 < x -> x mod q = 0 -> 0 < x / q.
Proof.
  intros Hq Hx E. apply Z.div_str_pos. split; [done|].
  destruct (Z.le_gt_cases q x) as [L|L]; [done|]. rewrite Z.mod_small in E; lia.
Qed.

(** The distinct prime factors [qs] of [n - 1] multiply to more than the
    square root of [n], and [a] witnesses Pocklington's conditions. *)
Definition pocklington (n a : Z) (qs : list Z) : bool :=
  let k := Z.log2_up n in
  (1 <? n) && (n <? prod qs * prod qs) && bool_decide (NoDup qs) && (fold_pow n k a (Z.to_pos (n - 1)) =? 1) &&
  forallb (fun q => ((n - 1) mod q =? 0) && (Z.gcd (fold_pow n k a (Z.to_pos ((n - 1) / q)) - 1) n =? 1)) qs.

Lemma prod_divides qs x :
  Forall Z.prime qs -> NoDup qs -> Forall (fun q => (q | x)) qs -> (prod qs | x).
Proof.
  induction qs as [|q qs IH]; intros P ND D; cbn [prod foldr]; [apply Z.divide_1_l|].
  fold (prod qs). apply list.Forall_cons in P as [Pq P], D as [Dq D]. apply list.NoDup_cons in ND as [Nq ND].
  specialize (IH P ND D) as [k Ek]. rewrite Ek in Dq.
  apply Z.divide_prime_mul in Dq as [Dq|Dq]; [|exfalso|done].
  - rewrite Ek. by apply Z.mul_divide_mono_r.
  - apply Nq. clear -Pq P Dq. induction qs as [|q' qs IH]; cbn [prod foldr] in Dq.
    + apply Z.divide_1_r_nonneg in Dq; pose proof (Z.prime_ge_2 q Pq); lia.
    + apply list.Forall_cons in P as [Pq' P]. apply Z.divide_prime_mul in Dq as [Dq|Dq]; [| |done].
      * apply Z.divide_prime_prime in Dq; [|done|done]. subst. by left.
      * right. by apply IH.
Qed.

Lemma gcd_mod_sub x n : n <> 0 -> Z.gcd (x mod n - 1) n = Z.gcd (x - 1) n.
Proof.
  intros Hn. rewrite (Z.gcd_comm _ n), (Z.gcd_comm _ n).
  replace (x - 1) with (x mod n - 1 + (x / n) * n) by (rewrite Z.mod_eq by done; ring).
  by rewrite Z.gcd_add_mult_diag_r.
Qed.

Lemma pocklington_ok n a qs : Forall Z.prime qs -> pocklington n a qs = true -> Z.prime n.
Proof.
  intros P H. unfold pocklington in H. cbv zeta in H. pose proof (Z.log2_up_nonneg n) as Hk. to_prop.
  match goal with H : bool_decide _ = true |- _ => apply bool_decide_eq_true in H end.
  rewrite fold_pow_mod in * by lia.
  apply prime_of_factors; [done|]. intros r R D. pose proof (Z.prime_ge_2 r R).
  assert (X : (prod qs | r - 1)).
  { apply prod_divides; [done|done|]. rewrite list.Forall_forall in P |- *. intros q Hq.
    match goal with H : forallb _ _ = true |- _ => rewrite forallb_forall in H; specialize (H q); rewrite <- list_elem_of_In in H; specialize (H Hq) end.
    pose proof (Z.prime_ge_2 q (P q Hq)). to_prop.
    rewrite fold_pow_mod, gcd_mod_sub in * by (first [lia|apply quotient_pos; lia]).
    apply (pocklington_factor n a q r); auto. apply Z.mod_divide; [lia|done]. }
  apply Z.divide_pos_le in X; [|lia].
  assert (0 <= prod qs).
  { clear -P. induction P as [|q qs Pq P IH]; cbn [prod foldr]; [lia|]. pose proof (Z.prime_ge_2 q Pq). fold (prod qs). nia. }
  nia.
Qed.

Ltac small_primes := repeat (apply list.Forall_cons; split); try apply Forall_nil_2; try (apply trial_prime_ok; by vm_compute).

Lemma prime_44706919 : Z.prime 44706919.
Proof. apply (pocklington_ok _ 2 [9349]); [small_primes|by vm_compute]. Qed.

Lemma prime_174723607534414371449 : Z.prime 174723607534414371449.
Proof.
  apply (pocklington_ok _ 2 [44706919; 120233]); [|by vm_compute].
  apply list.Forall_cons. split; [apply prime_44706919|small_primes].
Qed.

Lemma prime_4681609 : Z.prime 4681609.
Proof. apply (pocklington_ok _ 2 [2011; 97]); [small_primes|by vm_compute]. Qed.

Lemma prime_107361793816595537 : Z.prime 107361793816595537.
Proof.
  apply (pocklington_ok _ 2 [4681609; 85831]); [|by vm_compute].
  apply list.Forall_cons. split; [apply prime_4681609|small_primes].
Qed.

(** The order of the secp256k1 group. *)
Lemma order_prime : Z.prime 0xFFFFFFFFFFFFFFFFFFFFFFFFFFFFFFFEBAAEDCE6AF48A03BBFD25E8CD0364141.
Proof.
  apply (pocklington_ok _ 2 [174723607534414371449; 107361793816595537; 631]); [|by vm_compute].
  apply list.Forall_cons. split; [apply prime_174723607534414371449|].
  apply list.Forall_cons. split; [apply prime_107361793816595537|small_primes].
Qed.
