(* ===== verification/Ecdsa.v ===== *)
(** * ECDSA of libsecp256k1

    ecdsa_impl.h (signing, verification), eckey_impl.h (public keys),
    modules/recovery/main_impl.h (recovery) and the functions of secp256k1.c
    the program calls, on the scalars of Scalar.v and the nonces of
    Sha256.v, all under src/external/secp256k1/src.

    Below this file are parameters: the class [Curve] has the points with
    the functions of group.h and ecmult.h, as values (Jacobian coordinates,
    windows and precomputed tables compute the same points), and the class
    [Modinv] the modular inversion of modinv64.h. [CurveLaws] says that the
    points are a group of order [N] under which [ecmult] is what its header
    documents, with coordinates that determine a point up to its sign;
    [ModinvLaws] is the contract of modinv64.h. A field element is its value
    below [P]. [Toy] is an instance of both, on which everything evaluates. *)

From stdpp Require Import base list numbers.
From Stdlib Require Import ZArith Lia.
From S2P Require Import Prelude Keccak Sha256 Sha256Stream Scalar ScalarSpec.

#[local] Open Scope Z_scope.

(** ** Inversion of scalars *)

Definition val62 (s : signed62) : Z := v0 s + 2 ^ 62 * v1 s + 2 ^ 124 * v2 s + 2 ^ 186 * v3 s + 2 ^ 248 * v4 s.

(** "All limbs in [0, 2^62)", a value below the order. *)
Definition signed62_ok (s : signed62) : Prop :=
  (0 <= v0 s < 2 ^ 62 /\ 0 <= v1 s < 2 ^ 62 /\ 0 <= v2 s < 2 ^ 62 /\ 0 <= v3 s < 2 ^ 62 /\ 0 <= v4 s) /\ val62 s < N.

Class Modinv : Type := {
  modinv64 : signed62 -> signed62;  (* with the modulus secp256k1_const_modinfo_scalar *)
  modinv64_var : signed62 -> signed62;
}.

Class ModinvLaws (MI : Modinv) : Prop := {
  modinv64_ok s : signed62_ok s -> signed62_ok (modinv64 s);
  modinv64_inv s : signed62_ok s -> val62 s <> 0 -> (val62 (modinv64 s) * val62 s) mod N = 1;
  modinv64_var_ok s : signed62_ok s -> signed62_ok (modinv64_var s);
  modinv64_var_inv s : signed62_ok s -> val62 s <> 0 -> (val62 (modinv64_var s) * val62 s) mod N = 1;
}.

(** scalar_4x64_impl.h 964-977. *)
Definition scalar_inverse `{Modinv} (x : scalar) : scalar :=
  scalar_from_signed62 (modinv64 (scalar_to_signed62 x)).

(** scalar_4x64_impl.h 979-992. *)
Definition scalar_inverse_var `{Modinv} (x : scalar) : scalar :=
  scalar_from_signed62 (modinv64_var (scalar_to_signed62 x)).

(** ** Field elements *)

(** The field's prime, 2^256 - 2^32 - 977. *)
Definition P : Z := 0xFFFFFFFFFFFFFFFFFFFFFFFFFFFFFFFFFFFFFFFFFFFFFFFFFFFFFFFEFFFFFC2F.

(** ecdsa_impl.h 22-25. *)
Definition order_as_fe : Z := 0xFFFFFFFFFFFFFFFFFFFFFFFFFFFFFFFEBAAEDCE6AF48A03BBFD25E8CD0364141.

(** ecdsa_impl.h 32-34. *)
Definition p_minus_order : Z := 0x14551231950B75FC4402DA1722FC9BAEE.

(** [secp256k1_fe_get_b32] of a normalized element: 32 big-endian bytes. *)
Definition fe_get_b32 (x : Z) : Bytes := (fun i => x / 256 ^ (31 - Z.of_nat i) mod 256) <$> seq 0 32.

(** [secp256k1_fe_set_b32_limit]: the element, and whether it was below [P]. *)
Definition fe_set_b32_limit (b : Bytes) : Z * bool := (be_val (take 32 b), be_val (take 32 b) <? P).

(** ** The group *)

Class Curve : Type := {
  point : Type;
  infinity : point;
  is_infinity : point -> bool;
  x_of : point -> Z;
  y_of : point -> Z;
  ge_set_xo_var : Z -> bool -> option point;  (* the point with this x and this parity of y *)
  ge_set_xy : Z -> Z -> option point;  (* with secp256k1_ge_is_valid_var *)
  generator : point;
  point_add : point -> point -> point;
  point_neg : point -> point;
  ecmult : point -> scalar -> scalar -> point;
  ecmult_gen : scalar -> point;
}.

Section Multiples.
Context `{Curve}.

(** [k] times a point, for a number and for an integer modulo the order. *)
Definition nmul (n : nat) (A : point) : point := Nat.iter n (point_add A) infinity.

Definition zmul (k : Z) (A : point) : point := nmul (Z.to_nat (k mod N)) A.

End Multiples.

Class CurveLaws (EC : Curve) : Prop := {
  add_comm A B : point_add A B = point_add B A;
  add_assoc A B C : point_add A (point_add B C) = point_add (point_add A B) C;
  add_infinity A : point_add infinity A = A;
  add_neg A : point_add (point_neg A) A = infinity;
  group_order A : nmul (Z.to_nat N) A = infinity;
  is_infinity_iff A : is_infinity A = true <-> A = infinity;
  generator_finite : generator <> infinity;
  ecmult_spec A na ng : scalar_ok na -> scalar_ok ng ->
    ecmult A na ng = point_add (zmul (val na) A) (zmul (val ng) generator);
  ecmult_gen_spec n : scalar_ok n -> ecmult_gen n = zmul (val n) generator;
  x_range A : A <> infinity -> 0 < x_of A < P;
  y_range A : A <> infinity -> 0 <= y_of A < P;
  x_neg A : x_of (point_neg A) = x_of A;
  y_neg A : A <> infinity -> Z.odd (y_of (point_neg A)) = negb (Z.odd (y_of A));
  set_xo_point A : A <> infinity -> ge_set_xo_var (x_of A) (Z.odd (y_of A)) = Some A;
  set_xy_point A : A <> infinity -> ge_set_xy (x_of A) (y_of A) = Some A;
}.

(** ** Signing, verification, recovery *)

Section Ecdsa.
Context `{MI : Modinv} `{EC : Curve}.

(** ecdsa_impl.h 266-302: [sigr], [sigs], [recid] and the result. *)
Definition ecdsa_sig_sign (seckey message nonce : scalar) : scalar * scalar * Z * bool :=
  let r := ecmult_gen nonce in
  let b := fe_get_b32 (x_of r) in
  let '(sigr, overflow) := scalar_set_b32 b in
  let recid := Z.lor (Z.shiftl overflow 1) (Z.b2z (Z.odd (y_of r))) in
  let n := scalar_mul sigr seckey in
  let n := (scalar_add n message).1 in
  let sigs := scalar_inverse nonce in
  let sigs := scalar_mul sigs n in
  let high := scalar_is_high sigs in
  let sigs := (scalar_cond_negate sigs high).1 in
  let recid := Z.lxor recid high in
  (sigr, sigs, recid, negb (scalar_is_zero sigr) && negb (scalar_is_zero sigs)).

(** ecdsa_impl.h 195-264. *)
Definition ecdsa_sig_verify (sigr sigs : scalar) (pubkey : point) (message : scalar) : bool :=
  if scalar_is_zero sigr || scalar_is_zero sigs then false
  else
    let sn := scalar_inverse_var sigs in
    let u1 := scalar_mul sn message in
    let u2 := scalar_mul sn sigr in
    let pr := ecmult pubkey u2 u1 in
    if is_infinity pr then false
    else
      let c := scalar_get_b32 sigr in
      let '(xr, _) := fe_set_b32_limit c in
      if xr =? x_of pr then true
      else if xr >=? p_minus_order then false
      else
        let xr := xr + order_as_fe in
        xr =? x_of pr.

(** main_impl.h 87-121. *)
Definition ecdsa_sig_recover (sigr sigs message : scalar) (recid : Z) : option point :=
  if scalar_is_zero sigr || scalar_is_zero sigs then None
  else
    let brx := scalar_get_b32 sigr in
    let '(fx, _) := fe_set_b32_limit brx in
    if negb (Z.land recid 2 =? 0) && (fx >=? p_minus_order) then None
    else
      let fx := if negb (Z.land recid 2 =? 0) then fx + order_as_fe else fx in
      match ge_set_xo_var fx (negb (Z.land recid 1 =? 0)) with
      | None => None
      | Some x =>
          let rn := scalar_inverse_var sigr in
          let u1 := scalar_mul rn message in
          let u1 := scalar_negate u1 in
          let u2 := scalar_mul rn sigs in
          let qj := ecmult x u2 u1 in
          if is_infinity qj then None else Some qj
      end.

(** ** Keys (eckey_impl.h, secp256k1.c)

    A [secp256k1_pubkey] holds the bytes of an affine point: here the point. *)

(** secp256k1.c 240-244; [None] is the illegal-argument callback. *)
Definition pubkey_load (pubkey : point) : option point :=
  if x_of pubkey =? 0 then None else Some pubkey.

(** eckey_impl.h 17-35. *)
Definition eckey_pubkey_parse (pub : Bytes) : option point :=
  let tag := at_ pub 0 in
  if (zlen pub =? 33) && ((tag =? 0x02) || (tag =? 0x03)) then
    let '(x, okx) := fe_set_b32_limit (drop 1 pub) in
    if okx then ge_set_xo_var x (tag =? 0x03) else None
  else if (zlen pub =? 65) && ((tag =? 0x04) || (tag =? 0x06) || (tag =? 0x07)) then
    let '(x, okx) := fe_set_b32_limit (drop 1 pub) in
    let '(y, oky) := fe_set_b32_limit (drop 33 pub) in
    if negb okx || negb oky then None
    else if ((tag =? 0x06) || (tag =? 0x07)) && negb (Bool.eqb (Z.odd y) (tag =? 0x07)) then None
    else ge_set_xy x y
  else None.

(** eckey_impl.h 37-53: the bytes written to [pub], [None] for the point at infinity. *)
Definition eckey_pubkey_serialize (elem : point) (compressed : bool) : option Bytes :=
  if is_infinity elem then None
  else if compressed then Some ((if Z.odd (y_of elem) then 0x03 else 0x02) :: fe_get_b32 (x_of elem))
  else Some (0x04 :: fe_get_b32 (x_of elem) ++ fe_get_b32 (y_of elem)).

(** secp256k1.c 250-266; the group has cofactor 1, every point is in it. *)
Definition secp256k1_ec_pubkey_parse (input : Bytes) : option point := eckey_pubkey_parse input.

(** secp256k1.c 268-289. *)
Definition secp256k1_ec_pubkey_serialize (pubkey : point) (compressed : bool) : option Bytes :=
  match pubkey_load pubkey with
  | Some Q => eckey_pubkey_serialize Q compressed
  | None => None
  end.

(** secp256k1.c 580-589. *)
Definition secp256k1_ec_seckey_verify (seckey : Bytes) : bool := (scalar_set_b32_seckey seckey).2.

(** secp256k1.c 591-602: the scalar, the point and the result. *)
Definition ec_pubkey_create_helper (seckey : Bytes) : scalar * point * bool :=
  let '(seckey_scalar, ret) := scalar_set_b32_seckey seckey in
  let seckey_scalar := scalar_cmov seckey_scalar scalar_one (Z.b2z (negb ret)) in
  (seckey_scalar, ecmult_gen seckey_scalar, ret).

(** secp256k1.c 604-620; [None] is the wiped key of a failed call. *)
Definition secp256k1_ec_pubkey_create (seckey : Bytes) : option point :=
  let '(_, p, ret) := ec_pubkey_create_helper seckey in
  if ret then Some p else None.

(** secp256k1.c 622-635: the bytes left in [seckey] and the result. *)
Definition secp256k1_ec_seckey_negate (seckey : Bytes) : Bytes * bool :=
  let '(sec, ret) := scalar_set_b32_seckey seckey in
  let sec := scalar_cmov sec scalar_zero (Z.b2z (negb ret)) in
  (scalar_get_b32 (scalar_negate sec), ret).

(** ** Signature objects *)

(** main_impl.h 12-36: [load] and [save] copy two scalars and the byte. *)
Record recoverable_signature : Type := mkRecSig { rs_r : scalar; rs_s : scalar; rs_recid : Z }.

(** secp256k1.c 345-367. *)
Record ecdsa_signature : Type := mkSig { es_r : scalar; es_s : scalar }.

(** main_impl.h 38-58; a recovery id outside 0..3 is an illegal argument. *)
Definition recoverable_signature_parse_compact (input64 : Bytes) (recid : Z) : option recoverable_signature :=
  if negb ((0 <=? recid) && (recid <=? 3)) then None
  else
    let '(r, overflow) := scalar_set_b32 (take 32 input64) in
    let ret := overflow =? 0 in
    let '(s, overflow) := scalar_set_b32 (take 32 (drop 32 input64)) in
    let ret := ret && (overflow =? 0) in
    if ret then Some (mkRecSig r s (u8 recid)) else None.

(** main_impl.h 60-72. *)
Definition recoverable_signature_serialize_compact (sig : recoverable_signature) : Bytes * Z :=
  (scalar_get_b32 (rs_r sig) ++ scalar_get_b32 (rs_s sig), rs_recid sig).

(** main_impl.h 74-85. *)
Definition recoverable_signature_convert (sigin : recoverable_signature) : ecdsa_signature :=
  mkSig (rs_r sigin) (rs_s sigin).

(** secp256k1.c 385-404. *)
Definition secp256k1_signature_parse_compact (input64 : Bytes) : option ecdsa_signature :=
  let '(r, overflow) := scalar_set_b32 (take 32 input64) in
  let ret := overflow =? 0 in
  let '(s, overflow) := scalar_set_b32 (take 32 (drop 32 input64)) in
  let ret := ret && (overflow =? 0) in
  if ret then Some (mkSig r s) else None.

(** secp256k1.c 418-429. *)
Definition secp256k1_signature_serialize_compact (sig : ecdsa_signature) : Bytes :=
  scalar_get_b32 (es_r sig) ++ scalar_get_b32 (es_s sig).

(** secp256k1.c 431-448: [sigout] and the result. *)
Definition secp256k1_signature_normalize (sigin : ecdsa_signature) : ecdsa_signature * bool :=
  let ret := negb (scalar_is_high (es_s sigin) =? 0) in
  (mkSig (es_r sigin) (if ret then scalar_negate (es_s sigin) else es_s sigin), ret).

(** secp256k1.c 450-464. *)
Definition secp256k1_ecdsa_verify (sig : ecdsa_signature) (msghash32 : Bytes) (pubkey : point) : bool :=
  let '(m, _) := scalar_set_b32 msghash32 in
  (scalar_is_high (es_s sig) =? 0) &&
  match pubkey_load pubkey with
  | Some q => ecdsa_sig_verify (es_r sig) (es_s sig) q m
  | None => false
  end.

(** ** Nonces and the signing loop *)

(** secp256k1.c 471-505; [mem] is the memory of the local hash objects. *)
Definition nonce_function_rfc6979 (mem : hmac_sha256) (msg32 key32 : Bytes) (algo16 data : option Bytes) (counter : nat) : Bytes :=
  let '(msg, _) := scalar_set_b32 msg32 in
  let msgmod32 := scalar_get_b32 msg in
  let keydata := key32 ++ msgmod32 ++ default [] data ++ default [] algo16 in
  let rng := rfc6979_hmac_sha256_initialize mem keydata in
  (foldl (fun st _ => rfc6979_hmac_sha256_generate mem st.1 32) (rng, []) (seq 0 (S counter))).2.

(** The [while (1)] of secp256k1.c 530-548, [None] when [fuel] nonces were
    all rejected. *)
Fixpoint sign_loop (mem : hmac_sha256) (fuel : nat) (sec msg : scalar) (msg32 seckey : Bytes) (count : nat)
    : option (scalar * scalar * Z) :=
  match fuel with
  | O => None
  | S f =>
      let nonce32 := nonce_function_rfc6979 mem msg32 seckey None None count in
      let '(non, is_nonce_valid) := scalar_set_b32_seckey nonce32 in
      if is_nonce_valid then
        let '(r, s, recid, ret) := ecdsa_sig_sign sec msg non in
        if ret then Some (r, s, recid) else sign_loop mem f sec msg msg32 seckey (S count)
      else sign_loop mem f sec msg msg32 seckey (S count)
  end.

(** secp256k1.c 510-564: [None] when the loop does not end in [fuel] turns;
    otherwise [r], [s], [recid] and the result. *)
Definition ecdsa_sign_inner (mem : hmac_sha256) (fuel : nat) (msg32 seckey : Bytes) : option (scalar * scalar * Z * bool) :=
  let '(sec, is_sec_valid) := scalar_set_b32_seckey seckey in
  let sec := scalar_cmov sec scalar_one (Z.b2z (negb is_sec_valid)) in
  let '(msg, _) := scalar_set_b32 msg32 in
  match sign_loop mem fuel sec msg msg32 seckey 0 with
  | None => None
  | Some (r, s, recid) =>
      let ret := is_sec_valid in
      Some (scalar_cmov r scalar_zero (Z.b2z (negb ret)), scalar_cmov s scalar_zero (Z.b2z (negb ret)),
            if ret then recid else 0, ret)
  end.

(** main_impl.h 123-135: the saved signature of a successful call. *)
Definition secp256k1_ecdsa_sign_recoverable (mem : hmac_sha256) (fuel : nat) (msghash32 seckey : Bytes) : option recoverable_signature :=
  match ecdsa_sign_inner mem fuel msghash32 seckey with
  | Some (r, s, recid, true) => Some (mkRecSig r s (u8 recid))
  | _ => None
  end.

(** secp256k1.c 566-578. *)
Definition secp256k1_ecdsa_sign (mem : hmac_sha256) (fuel : nat) (msghash32 seckey : Bytes) : option ecdsa_signature :=
  match ecdsa_sign_inner mem fuel msghash32 seckey with
  | Some (r, s, _, true) => Some (mkSig r s)
  | _ => None
  end.

(** main_impl.h 137-157. *)
Definition secp256k1_ecdsa_recover (signature : recoverable_signature) (msghash32 : Bytes) : option point :=
  let '(m, _) := scalar_set_b32 msghash32 in
  ecdsa_sig_recover (rs_r signature) (rs_s signature) m (rs_recid signature).

End Ecdsa.
