(* ===== verification/EcdsaSpec.v ===== *)
(** * ECDSA is correct over the group laws

    What Ecdsa.v computes, for every instance of its classes: a signature
    verifies under the signer's public key, the recovery id leads back to
    that key, verification accepts exactly the pairs of the textbook
    equation, signatures have a low [s], and encodings round-trip. The
    primality of the order (Primes.v) makes the nonzero scalars invertible. *)

From stdpp Require Import base list numbers.
From Stdlib Require Import ZArith Lia Zdivisibility Zcong.
From S2P Require Import Prelude Keccak Sha256 Sha256Stream Scalar ScalarSpec Primes Ecdsa.

#[local] Open Scope Z_scope.

Lemma N_prime : Z.prime N.
Proof. exact order_prime. Qed.

Lemma N_pos : 1 < N.
Proof. done. Qed.

#[local] Opaque N.

(** ** Multiples of a point *)

Section Group.
Context `{EC : Curve} {EL : CurveLaws EC}.

Lemma add_infinity_r A : point_add A infinity = A.
Proof. rewrite add_comm. apply add_infinity. Qed.

Lemma add_cancel A B C : point_add A B = point_add A C -> B = C.
Proof.
  intros E. rewrite <- (add_infinity B), <- (add_infinity C), <- (add_neg A), <- !add_assoc. by rewrite E.
Qed.

Lemma nmul_S n A : nmul (S n) A = point_add A (nmul n A).
Proof. done. Qed.

Lemma nmul_add m n A : nmul (m + n) A = point_add (nmul m A) (nmul n A).
Proof.
  induction m as [|m IH]; [cbn; by rewrite add_infinity|]. cbn [Nat.add]. by rewrite !nmul_S, IH, add_assoc.
Qed.

Lemma nmul_infinity n : nmul n infinity = infinity.
Proof. induction n as [|n IH]; [done|]. by rewrite nmul_S, IH, add_infinity. Qed.

Lemma nmul_mul m n A : nmul (m * n) A = nmul m (nmul n A).
Proof. induction m as [|m IH]; [done|]. cbn [Nat.mul]. by rewrite nmul_add, IH, nmul_S. Qed.

Lemma nmul_distr n A B : nmul n (point_add A B) = point_add (nmul n A) (nmul n B).
Proof.
  induction n as [|n IH]; [cbn; by rewrite add_infinity|]. rewrite !nmul_S, IH, <- !add_assoc. f_equal.
  rewrite !add_assoc. f_equal. apply add_comm.
Qed.

Lemma zmul_nat k A : 0 <= k -> nmul (Z.to_nat k) A = zmul k A.
Proof.
  intros Hk. pose proof N_pos. unfold zmul.
  assert (E : k = N * (k / N) + k mod N) by (apply Z.div_mod; lia).
  pose proof (Z.mod_pos_bound k N ltac:(lia)). pose proof (Z.div_pos k N Hk ltac:(lia)).
  rewrite E at 1. rewrite Z2Nat.inj_add, Z2Nat.inj_mul by nia.
  by rewrite nmul_add, Nat.mul_comm, nmul_mul, group_order, nmul_infinity, add_infinity.
Qed.

Lemma zmul_mod k j A : k mod N = j mod N -> zmul k A = zmul j A.
Proof. unfold zmul. by intros ->. Qed.

Lemma zmul_add j k A : zmul (j + k) A = point_add (zmul j A) (zmul k A).
Proof.
  pose proof N_pos. pose proof (Z.mod_pos_bound j N ltac:(lia)). pose proof (Z.mod_pos_bound k N ltac:(lia)).
  rewrite (zmul_mod _ (j mod N + k mod N)) by (apply Zplus_mod).
  rewrite <- zmul_nat by lia. rewrite Z2Nat.inj_add by lia. apply nmul_add.
Qed.

Lemma zmul_mul j k A : zmul (j * k) A = zmul j (zmul k A).
Proof.
  pose proof N_pos. pose proof (Z.mod_pos_bound j N ltac:(lia)). pose proof (Z.mod_pos_bound k N ltac:(lia)).
  rewrite (zmul_mod _ ((j mod N) * (k mod N))) by (apply Zmult_mod).
  rewrite <- zmul_nat by nia. rewrite Z2Nat.inj_mul by lia. apply nmul_mul.
Qed.

Lemma zmul_distr k A B : zmul k (point_add A B) = point_add (zmul k A) (zmul k B).
Proof. apply nmul_distr. Qed.

Lemma zmul_infinity k : zmul k infinity = infinity.
Proof. apply nmul_infinity. Qed.

Lemma zmul_1 A : zmul 1 A = A.
Proof. rewrite <- zmul_nat by lia. cbn. apply add_infinity_r. Qed.

Lemma zmul_0 A : zmul 0 A = infinity.
Proof. rewrite <- zmul_nat by lia. done. Qed.

Lemma neg_unique A B : point_add A B = infinity -> A = point_neg B.
Proof. intros E. apply (add_cancel B). by rewrite (add_comm B A), E, add_comm, add_neg. Qed.

Lemma zmul_opp k A : zmul (- k) A = point_neg (zmul k A).
Proof. apply neg_unique. rewrite <- zmul_add. replace (- k + k) with 0 by lia. apply zmul_0. Qed.

Lemma zmul_neg k A : zmul k (point_neg A) = point_neg (zmul k A).
Proof. apply neg_unique. by rewrite <- zmul_distr, add_neg, zmul_infinity. Qed.

Lemma neg_neg A : point_neg (point_neg A) = A.
Proof. symmetry. apply neg_unique. rewrite add_comm. apply add_neg. Qed.

Lemma neg_infinity : point_neg infinity = infinity.
Proof. symmetry. apply neg_unique. apply add_infinity. Qed.

Lemma neg_finite A : A <> infinity -> point_neg A <> infinity.
Proof. intros H E. apply H. by rewrite <- (neg_neg A), E, neg_infinity. Qed.

(** A group of prime order has no smaller multiples. *)
Lemma zmul_eq_infinity k A : zmul k A = infinity -> A <> infinity -> k mod N = 0.
Proof.
  intros E HA. destruct (decide (k mod N = 0)) as [|Hk]; [done|exfalso]. apply HA.
  pose proof (Z.invmod_prime k N N_prime Hk) as I. pose proof N_pos.
  rewrite <- (zmul_1 A), (zmul_mod 1 (Z.invmod k N * k)) by (rewrite I; apply Z.mod_small; lia).
  by rewrite zmul_mul, E, zmul_infinity.
Qed.

Lemma zmul_finite k A : A <> infinity -> k mod N <> 0 -> zmul k A <> infinity.
Proof. intros HA Hk E. by apply zmul_eq_infinity in E. Qed.

Lemma is_infinity_false A : A <> infinity -> is_infinity A = false.
Proof. intros H. apply not_true_iff_false. by rewrite is_infinity_iff. Qed.

End Group.

(** ** Congruence modulo the order *)

Variant cong (a b : Z) : Prop := Cong (E : a mod N = b mod N).

#[local] Infix "==" := cong (at level 70, no associativity).

Lemma cong_iff a b : a == b <-> a mod N = b mod N.
Proof. split; [by intros []|by constructor]. Qed.

#[local] Instance cong_equiv : Equivalence cong.
Proof.
  split; [by constructor|intros ?? [E]; by constructor|].
  intros ??? [E] [F]. constructor. congruence.
Qed.

#[local] Instance cong_add : Proper (cong ==> cong ==> cong) Z.add.
Proof. intros a b [E] c d [F]. constructor. by rewrite Zplus_mod, E, F, <- Zplus_mod. Qed.

#[local] Instance cong_mul : Proper (cong ==> cong ==> cong) Z.mul.
Proof. intros a b [E] c d [F]. constructor. by rewrite Zmult_mod, E, F, <- Zmult_mod. Qed.

#[local] Instance cong_opp : Proper (cong ==> cong) Z.opp.
Proof. intros a b E. rewrite <- (Z.mul_1_r a), <- (Z.mul_1_r b), <- !Z.mul_opp_r. by rewrite E. Qed.

#[local] Instance zmul_cong `{Curve} : Proper (cong ==> (=) ==> (=)) zmul.
Proof. intros a b [E] A B ->. unfold zmul. by rewrite E. Qed.

Lemma zmul_eq `{Curve} j k A : j == k -> zmul j A = zmul k A.
Proof. by intros ->. Qed.

Lemma cong_eq a b : a = b -> a == b.
Proof. by intros ->. Qed.

Lemma mod_cong a : a mod N == a.
Proof. constructor. apply Zmod_mod. Qed.

Lemma val_mod a : scalar_ok a -> val a mod N = val a.
Proof. intros [H V]. apply Z.mod_small. pose proof (val_range a H). lia. Qed.

(** The operations of a scalar, as congruences. *)
Lemma mul_ok a b : scalar_ok a -> scalar_ok b -> scalar_ok (scalar_mul a b) /\ val (scalar_mul a b) == val a * val b.
Proof. intros A B. destruct (scalar_mul_spec a b A B) as [K E]. split; [done|]. rewrite E. apply mod_cong. Qed.

Lemma scalar_add_ok a b : scalar_ok a -> scalar_ok b -> scalar_ok (scalar_add a b).1 /\ val (scalar_add a b).1 == val a + val b.
Proof.
  intros A B. pose proof (scalar_add_spec a b A B) as S. destruct (scalar_add a b) as [r o].
  destruct S as (K & E & _). split; [done|]. cbn [fst]. rewrite E. apply mod_cong.
Qed.

Lemma negate_ok a : scalar_ok a -> scalar_ok (scalar_negate a) /\ val (scalar_negate a) == - val a.
Proof. intros A. destruct (negate_spec a A) as [K E]. split; [done|]. rewrite E. apply mod_cong. Qed.

Lemma nonzero_mod a : scalar_ok a -> scalar_is_zero a = false <-> ~ (val a == 0).
Proof.
  intros K. pose proof N_pos. rewrite is_zero_spec by apply K. rewrite Z.eqb_neq. rewrite ?cong_iff.
  by rewrite val_mod, Z.mod_0_l by (done || lia).
Qed.

(** Multiplication by a number invertible modulo the order can be cancelled. *)
Lemma cong_mul_0 a b : a * b == 0 -> a == 0 \/ b == 0.
Proof.
  pose proof N_pos. rewrite ?cong_iff. rewrite Z.mod_0_l by lia. intros E.
  apply Z.mod_divide in E; [|lia]. apply Z.divide_prime_mul in E; [|apply N_prime].
  destruct E as [E|E]; [left|right]; apply Z.mod_divide; done || lia.
Qed.

Lemma cong_1_0 : ~ (1 == 0).
Proof. rewrite ?cong_iff. pose proof N_pos. rewrite Z.mod_0_l, Z.mod_small; lia. Qed.

(** ** Inversion *)

Section Inverse.
Context `{MI : Modinv} {ML : ModinvLaws MI}.
Local Transparent N.

Lemma to_signed62_ok a : scalar_ok a -> signed62_ok (scalar_to_signed62 a) /\ val62 (scalar_to_signed62 a) = val a.
Proof.
  intros [(H0 & H1 & H2 & H3) V]. unfold signed62_ok, val62, scalar_to_signed62. cbn [v0 v1 v2 v3 v4].
  change (Z.shiftr 0xFFFFFFFFFFFFFFFF 2) with (Z.ones 62). rewrite !Z.land_ones by lia.
  rewrite !Z.shiftr_div_pow2 by lia. unfold is_u64 in *.
  rewrite !lor_join by (Z.to_euclidean_division_equations; lia).
  assert (E : d0 a mod 2 ^ 62 + 2 ^ 62 * ((d0 a / 2 ^ 62 + 2 ^ 2 * (d1 a mod 2 ^ (64 - 2))) mod 2 ^ 62) +
    2 ^ 124 * ((d1 a / 2 ^ 60 + 2 ^ 4 * (d2 a mod 2 ^ (64 - 4))) mod 2 ^ 62) +
    2 ^ 186 * ((d2 a / 2 ^ 58 + 2 ^ 6 * (d3 a mod 2 ^ (64 - 6))) mod 2 ^ 62) + 2 ^ 248 * (d3 a / 2 ^ 56) = val a).
  { unfold val. Z.to_euclidean_division_equations. lia. }
  rewrite E. split; [|done]. split; [|done]. pose proof (Z.mod_pos_bound) as B.
  do 4 (split; [apply B; lia|]). apply Z.div_pos; lia.
Qed.

Lemma from_signed62_ok s : signed62_ok s -> scalar_ok (scalar_from_signed62 s) /\ val (scalar_from_signed62 s) = val62 s.
Proof.
  intros [(H0 & H1 & H2 & H3 & H4) V]. unfold scalar_from_signed62.
  assert (B4 : v4 s < 2 ^ 8) by (unfold val62, N in V; lia).
  rewrite !Z.shiftr_div_pow2 by lia. rewrite !lor_join by (Z.to_euclidean_division_equations; lia).
  match goal with |- scalar_ok ?r /\ _ => assert (E : val r = val62 s /\ limbs_ok r) end.
  { split; [unfold val, val62; cbn [d0 d1 d2 d3]; Z.to_euclidean_division_equations; lia|].
    unfold limbs_ok, is_u64; cbn [d0 d1 d2 d3]; Z.to_euclidean_division_equations; lia. }
  destruct E as [E L]. split; [split; [done|by rewrite E]|done].
Qed.

Lemma inverse_ok x :
  scalar_ok x -> scalar_is_zero x = false ->
  scalar_ok (scalar_inverse x) /\ val (scalar_inverse x) * val x == 1 /\
  scalar_ok (scalar_inverse_var x) /\ val (scalar_inverse_var x) * val x == 1.
Proof.
  intros K Z0. destruct (to_signed62_ok x K) as [S E]. rewrite is_zero_spec, Z.eqb_neq in Z0 by apply K.
  unfold scalar_inverse, scalar_inverse_var.
  destruct (from_signed62_ok _ (modinv64_ok _ S)) as [K1 V1], (from_signed62_ok _ (modinv64_var_ok _ S)) as [K2 V2].
  rewrite V1, V2, <- E. pose proof N_pos. rewrite ?cong_iff. rewrite (Z.mod_small 1) by lia.
  split_and!; try apply K1; try apply K2; [apply modinv64_inv|apply modinv64_var_inv]; by rewrite ?E.
Qed.

End Inverse.

(** ** Bytes of field elements *)

(** [n] big-endian bytes of [x]. *)
Definition be_list (n : nat) (x : Z) : Bytes := (fun i => x / 256 ^ (Z.of_nat n - 1 - Z.of_nat i) mod 256) <$> seq 0 n.

Lemma be_list_S n x : be_list (S n) x = x / 256 ^ Z.of_nat n mod 256 :: be_list n x.
Proof.
  unfold be_list. cbn [seq]. rewrite fmap_cons, <- fmap_S_seq, <- list_fmap_compose. f_equal.
  - do 2 f_equal. f_equal. lia.
  - apply list_fmap_ext. intros i k _. cbn [compose]. do 2 f_equal. f_equal. lia.
Qed.

Lemma be_list_ok n x : 0 <= x -> be_val (be_list n x) = x mod 256 ^ Z.of_nat n /\ bytes_ok (be_list n x) /\ length (be_list n x) = n.
Proof.
  intros Hx. induction n as [|n (IH & B & L)].
  - change (256 ^ Z.of_nat 0) with 1. rewrite Z.mod_1_r. split_and!; [done|apply bytes_ok_nil|done].
  - rewrite be_list_S, be_val_cons. cbn [length]. rewrite L. split_and!; [|by apply bytes_ok_cons; split; [apply u8_range|]|done].
    unfold zlen. rewrite L, IH. rewrite Nat2Z.inj_succ, Z.pow_succ_r by lia.
    rewrite (Z.mul_comm 256), Z.rem_mul_r by lia. lia.
Qed.

Lemma fe_get_b32_ok x : 0 <= x < P -> be_val (fe_get_b32 x) = x /\ bytes_ok (fe_get_b32 x) /\ length (fe_get_b32 x) = 32%nat.
Proof.
  intros H. change (fe_get_b32 x) with (be_list 32 x). destruct (be_list_ok 32 x) as (E & B & L); [lia|].
  split_and!; [|done|done]. rewrite E. apply Z.mod_small. unfold P in H. lia.
Qed.

Lemma set_b32_limit_ok b : length b = 32%nat -> fe_set_b32_limit b = (be_val b, be_val b <? P).
Proof. intros L. unfold fe_set_b32_limit. by rewrite take_ge by lia. Qed.

(** The order is below the prime, and twice the order above it. *)
Lemma P_N : P = N + p_minus_order /\ 0 < p_minus_order < N /\ order_as_fe = N.
Proof. Local Transparent N. done. Qed.

#[local] Opaque N.

(** A scalar as a field element. *)
Lemma scalar_fe a : scalar_ok a -> fe_set_b32_limit (scalar_get_b32 a) = (val a, true).
Proof.
  intros [H V]. destruct (get_b32_spec a H) as (E & _ & L). rewrite set_b32_limit_ok, E by done. f_equal.
  apply Z.ltb_lt. destruct P_N as (-> & ? & _). lia.
Qed.

(** The scalar of an x coordinate: the residue, and the overflow flag that
    tells the two candidates apart. *)
Lemma x_scalar x :
  0 <= x < P ->
  exists r, scalar_set_b32 (fe_get_b32 x) = (r, Z.b2z (N <=? x)) /\ scalar_ok r /\ val r == x /\
    (x = val r + (if N <=? x then N else 0)) /\ (N <= x -> val r < p_minus_order).
Proof.
  intros Hx. destruct (fe_get_b32_ok x Hx) as (E & B & L). pose proof (set_b32_spec _ L B) as S.
  destruct (scalar_set_b32 _) as [r ov]. rewrite E in S. destruct S as (K & V & ->). exists r.
  pose proof N_pos. destruct P_N as (EP & Hp & _). rewrite EP in Hx.
  split; [done|]. split; [done|]. split; [rewrite V; apply mod_cong|].
  destruct (Z.leb_spec N x) as [Hn|Hn].
  - assert (Em : x mod N = x - N) by (symmetry; apply (Z.mod_unique x N 1); lia). lia.
  - rewrite Z.mod_small in V by lia. lia.
Qed.

(** ** Signing *)

Section Signing.
Context `{MI : Modinv} {ML : ModinvLaws MI} `{EC : Curve} {EL : CurveLaws EC}.

Definition sign (h : bool) : Z := if h then -1 else 1.

(** [k] nonzero modulo the order. *)
Definition unit_scalar (k : scalar) : Prop := scalar_ok k /\ scalar_is_zero k = false.

Lemma unit_finite k : unit_scalar k -> zmul (val k) generator <> infinity.
Proof.
  intros [K Z0]. apply zmul_finite; [apply generator_finite|]. apply nonzero_mod in Z0; [|done].
  intros E. apply Z0. rewrite ?cong_iff. rewrite E. symmetry. apply Z.mod_0_l. pose proof N_pos. lia.
Qed.

(** The recovery id: bit 1 for an x coordinate above the order, bit 0 the
    parity of y, flipped when [s] was negated. *)
Lemma recid_bits (ov odd high : bool) :
  let recid := Z.lxor (Z.lor (Z.shiftl (Z.b2z ov) 1) (Z.b2z odd)) (Z.b2z high) in
  0 <= recid <= 3 /\ negb (Z.land recid 2 =? 0) = ov /\ negb (Z.land recid 1 =? 0) = xorb odd high.
Proof. by destruct ov, odd, high. Qed.

(** The low half of the residues. *)
Lemma low_negate a : scalar_ok a ->
  let h := N / 2 <? val a in
  scalar_ok (scalar_cond_negate a (Z.b2z h)).1 /\
  val (scalar_cond_negate a (Z.b2z h)).1 == sign h * val a /\ val (scalar_cond_negate a (Z.b2z h)).1 <= N / 2.
Proof.
  intros K h. destruct (cond_negate_spec a h K) as [K' V]. split; [done|].
  pose proof (val_range a (proj1 K)). pose proof (proj2 K). pose proof N_pos.
  rewrite V. unfold sign, h. destruct (Z.ltb_spec (N / 2) (val a)) as [L|L].
  - split; [rewrite mod_cong; apply cong_eq; lia|].
    assert (0 < val a) by (pose proof (Z.div_pos N 2); lia).
    rewrite <- (Z.mod_unique (- val a) N (-1) (N - val a)) by lia.
    pose proof (Z.div_mod N 2). pose proof (Z.mod_pos_bound N 2). lia.
  - split; [rewrite mod_cong; apply cong_eq; lia|]. rewrite Z.mod_small; lia.
Qed.

(** What one call of [ecdsa_sig_sign] computes. *)
Lemma sig_sign_spec d m k :
  scalar_ok d -> scalar_ok m -> unit_scalar k ->
  let R := zmul (val k) generator in
  exists r s (h : bool),
    ecdsa_sig_sign d m k =
      (r, s, Z.lxor (Z.lor (Z.shiftl (Z.b2z (N <=? x_of R)) 1) (Z.b2z (Z.odd (y_of R)))) (Z.b2z h),
       negb (scalar_is_zero r) && negb (scalar_is_zero s)) /\
    scalar_ok r /\ scalar_ok s /\ val s <= N / 2 /\
    x_of R = val r + (if N <=? x_of R then N else 0) /\ (N <= x_of R -> val r < p_minus_order) /\
    val s * val k == sign h * (val r * val d + val m).
Proof.
  intros Kd Km [Kk Zk] R. pose proof (unit_finite k (conj Kk Zk)) as HR. fold R in HR.
  unfold ecdsa_sig_sign. rewrite ecmult_gen_spec by done. fold R.
  destruct (x_scalar (x_of R)) as (r & Er & Kr & _ & Xr & Lr); [pose proof (x_range R HR); lia|]. rewrite Er.
  destruct (mul_ok r d Kr Kd) as [K1 E1]. destruct (scalar_add_ok _ m K1 Km) as [K2 E2].
  destruct (inverse_ok k Kk Zk) as (Ki & Ei & _). destruct (mul_ok _ _ Ki K2) as [K3 E3].
  set (s0 := scalar_mul (scalar_inverse k) _) in *.
  rewrite (is_high_spec s0) by apply K3.
  destruct (low_negate s0 K3) as (K4 & E4 & L4). generalize dependent (N / 2 <? val s0). intros h K4 E4 L4.
  exists r, (scalar_cond_negate s0 (Z.b2z h)).1, h.
  split; [done|]. split; [done|]. split; [done|]. split; [done|]. split; [done|]. split; [done|].
  rewrite E4, E3, E2, E1. rewrite <- (Z.mul_1_r (sign _ * (val r * val d + val m))), <- Ei. apply cong_eq. ring.
Qed.

(** ** Verification *)

(** The textbook equation: with [w] the inverse of [s], the point
    [w*m*G + w*r*Q] exists and its x coordinate is [r] modulo the order. *)
Definition ecdsa_valid (r s m : Z) (Q : point) : Prop :=
  r mod N <> 0 /\ s mod N <> 0 /\
  exists w, (w * s) mod N = 1 /\
    let X := point_add (zmul (w * r) Q) (zmul (w * m) generator) in
    X <> infinity /\ x_of X mod N = r mod N.

(** The comparison without a reduction: [r] or, when it stays below the
    field's prime, [r + N]. *)
Lemma x_matches r x :
  scalar_ok r -> 0 <= x < P ->
  (if val r =? x then true else if val r >=? p_minus_order then false else val r + order_as_fe =? x) =
  (x mod N =? val r).
Proof.
  intros K Hx. pose proof (val_range r (proj1 K)). pose proof (proj2 K). pose proof N_pos.
  destruct P_N as (EP & Hp & ->). rewrite EP in Hx.
  assert (Em : x mod N = if N <=? x then x - N else x).
  { destruct (Z.leb_spec N x); [symmetry; apply (Z.mod_unique x N 1); lia|apply Z.mod_small; lia]. }
  rewrite Em. rewrite Z.geb_leb.
  destruct (Z.eqb_spec (val r) x), (Z.leb_spec p_minus_order (val r)), (Z.eqb_spec (val r + N) x), (Z.leb_spec N x);
    symmetry; first [apply Z.eqb_eq; lia|apply Z.eqb_neq; lia|lia].
Qed.

Lemma nonzero_iff a : scalar_ok a -> scalar_is_zero a = false <-> val a mod N <> 0.
Proof.
  intros K. rewrite nonzero_mod, cong_iff by done. rewrite Z.mod_0_l by (pose proof N_pos; lia). done.
Qed.

Lemma sig_verify_spec r s Q m :
  scalar_ok r -> scalar_ok s -> scalar_ok m ->
  ecdsa_sig_verify r s Q m = true <-> ecdsa_valid (val r) (val s) (val m) Q.
Proof.
  intros Kr Ks Km. unfold ecdsa_sig_verify, ecdsa_valid. pose proof N_pos.
  rewrite <- (nonzero_iff r), <- (nonzero_iff s) by done.
  destruct (scalar_is_zero r) eqn:Zr, (scalar_is_zero s) eqn:Zs; cbn [orb]; try by split; [done|intros (? & ? & _)].
  destruct (inverse_ok s Ks Zs) as (_ & _ & Ki & Ei).
  destruct (mul_ok _ m Ki Km) as [K1 E1]. destruct (mul_ok _ r Ki Kr) as [K2 E2].
  set (X := point_add (zmul (val (scalar_inverse_var s) * val r) Q) (zmul (val (scalar_inverse_var s) * val m) generator)).
  assert (EX : ecmult Q (scalar_mul (scalar_inverse_var s) r) (scalar_mul (scalar_inverse_var s) m) = X)
    by (rewrite ecmult_spec by done; unfold X; by rewrite E1, E2).
  rewrite EX, scalar_fe by done.
  assert (U : forall w, (w * val s) mod N = 1 ->
    point_add (zmul (w * val r) Q) (zmul (w * val m) generator) = X).
  { intros w Hw. assert (Ew : w == val (scalar_inverse_var s)).
    { transitivity (w * (val (scalar_inverse_var s) * val s)); [rewrite Ei; apply cong_eq; lia|].
      transitivity (val (scalar_inverse_var s) * (w * val s)); [apply cong_eq; ring|].
      assert (Ew : w * val s == 1) by (constructor; rewrite Hw; symmetry; apply Z.mod_small; lia).
      rewrite Ew. apply cong_eq. ring. }
    unfold X. by rewrite Ew. }
  destruct (is_infinity X) eqn:I.
  - apply is_infinity_iff in I. split; [done|]. intros (_ & _ & w & Hw & HX & _). by rewrite U in HX.
  - assert (HX : X <> infinity) by (intros E; apply is_infinity_iff in E; congruence).
    rewrite x_matches; [|done|pose proof (x_range X HX); lia]. rewrite Z.eqb_eq.
    split.
    + intros E. split; [done|]. split; [done|]. exists (val (scalar_inverse_var s)).
      split; [apply cong_iff in Ei; rewrite Ei; apply Z.mod_small; lia|].
      split; [done|]. fold X. by rewrite E, val_mod.
    + intros (_ & _ & w & Hw & _ & E). rewrite U in E by done. by rewrite E, val_mod.
Qed.

(** ** A signature verifies and recovers *)

Lemma sign_square h : sign h * sign h = 1.
Proof. by destruct h. Qed.

(** A point and its negation share the x coordinate. *)
Definition signed (h : bool) (A : point) : point := if h then point_neg A else A.

Lemma zmul_sign h A : zmul (sign h) A = signed h A.
Proof. destruct h; cbn [sign signed]; [rewrite (zmul_opp 1), zmul_1; done|apply zmul_1]. Qed.

Lemma x_signed h A : x_of (signed h A) = x_of A.
Proof. destruct h; [apply x_neg|done]. Qed.

Lemma signed_finite h A : A <> infinity -> signed h A <> infinity.
Proof. destruct h; [apply neg_finite|done]. Qed.

Lemma y_signed h A : A <> infinity -> Z.odd (y_of (signed h A)) = xorb (Z.odd (y_of A)) h.
Proof. intros H. destruct h; cbn [signed]; [rewrite y_neg by done; by destruct (Z.odd _)|by destruct (Z.odd _)]. Qed.

Lemma sig_sign_verifies d m k r s recid :
  scalar_ok d -> scalar_ok m -> unit_scalar k ->
  ecdsa_sig_sign d m k = (r, s, recid, true) ->
  ecdsa_sig_verify r s (zmul (val d) generator) m = true.
Proof.
  intros Kd Km Kk E. destruct (sig_sign_spec d m k Kd Km Kk) as (r' & s' & h & E' & Kr & Ks & _ & Xr & _ & Es).
  pose proof (unit_finite k Kk) as HR. set (R := zmul (val k) generator) in *.
  rewrite E in E'. injection E' as <- <- _ Eok. symmetry in Eok. apply andb_true_iff in Eok as [Zr Zs].
  apply negb_true_iff in Zr, Zs. pose proof N_pos.
  apply sig_verify_spec; [done..|]. split; [by apply nonzero_iff|]. split; [by apply nonzero_iff|].
  destruct (inverse_ok s Ks Zs) as (_ & _ & Ki & Ei). set (w := val (scalar_inverse_var s)) in *.
  exists w. split; [apply cong_iff in Ei; rewrite Ei; apply Z.mod_small; lia|].
  assert (EX : point_add (zmul (w * val r) (zmul (val d) generator)) (zmul (w * val m) generator) = signed h R).
  { rewrite <- zmul_mul, <- zmul_add. rewrite <- (zmul_sign h R). unfold R. rewrite <- zmul_mul.
    apply zmul_eq. transitivity (sign h * (w * (val s * val k))).
    - rewrite Es. transitivity (sign h * sign h * (w * (val r * val d + val m)));
        [rewrite sign_square|]; apply cong_eq; ring.
    - transitivity (sign h * ((w * val s) * val k)); [apply cong_eq; ring|]. rewrite Ei. apply cong_eq. ring. }
  rewrite EX. split; [by apply signed_finite|]. rewrite x_signed, Xr.
  destruct (N <=? x_of R); [|by rewrite Z.add_0_r].
  rewrite <- (Z.mul_1_l N) at 1. apply Z_mod_plus_full.
Qed.

Lemma sig_sign_recovers d m k r s recid :
  scalar_ok d -> unit_scalar d -> scalar_ok m -> unit_scalar k ->
  ecdsa_sig_sign d m k = (r, s, recid, true) ->
  ecdsa_sig_recover r s m recid = Some (zmul (val d) generator) /\ 0 <= recid <= 3.
Proof.
  intros Kd Ud Km Kk E. destruct (sig_sign_spec d m k Kd Km Kk) as (r' & s' & h & E' & Kr & Ks & _ & Xr & Lr & Es).
  pose proof (unit_finite k Kk) as HR. set (R := zmul (val k) generator) in *.
  rewrite E in E'. injection E' as <- <- -> Eok. symmetry in Eok. apply andb_true_iff in Eok as [Zr Zs].
  apply negb_true_iff in Zr, Zs. pose proof N_pos.
  destruct (recid_bits (N <=? x_of R) (Z.odd (y_of R)) h) as (Rg & B2 & B1). split; [|done].
  unfold ecdsa_sig_recover. rewrite Zr, Zs, scalar_fe, B2, B1 by done. cbn [orb].
  assert (Ef : (N <=? x_of R) && (val r >=? p_minus_order) = false).
  { destruct (Z.leb_spec N (x_of R)); [|done]. cbn [andb]. rewrite Z.geb_leb. apply Z.leb_gt. by apply Lr. }
  rewrite Ef. destruct P_N as (_ & _ & ->).
  replace (if N <=? x_of R then val r + N else val r) with (x_of (signed h R))
    by (rewrite x_signed, Xr at 1; destruct (N <=? x_of R); lia).
  rewrite <- y_signed, set_xo_point by first [done|by apply signed_finite].
  destruct (inverse_ok r Kr Zr) as (_ & _ & Ki & Ei). destruct (mul_ok _ m Ki Km) as [K1 E1].
  destruct (negate_ok _ K1) as [K2 E2]. destruct (mul_ok _ s Ki Ks) as [K3 E3].
  set (w := val (scalar_inverse_var r)) in *.
  assert (EQ : point_add (zmul (w * val s) (signed h R)) (zmul (- (w * val m)) generator) = zmul (val d) generator).
  { rewrite <- zmul_sign. unfold R. rewrite <- !zmul_mul, <- zmul_add. apply zmul_eq.
    transitivity (w * sign h * (val s * val k) - w * val m); [apply cong_eq; ring|].
    unfold Z.sub. rewrite Es.
    transitivity (sign h * sign h * w * (val r * val d + val m) - w * val m); [apply cong_eq; ring|].
    rewrite sign_square. transitivity ((w * val r) * val d); [apply cong_eq; ring|]. rewrite Ei. apply cong_eq. ring. }
  assert (EX : ecmult (signed h R) (scalar_mul (scalar_inverse_var r) s)
      (scalar_negate (scalar_mul (scalar_inverse_var r) m)) = zmul (val d) generator)
    by (rewrite ecmult_spec by done; rewrite <- EQ; by rewrite E2, E1, E3).
  by rewrite EX, is_infinity_false by (by apply unit_finite).
Qed.

End Signing.

(** ** A group on which the laws evaluate

    The residues modulo the order under addition, with generator 1: a point
    is its own discrete logarithm. The x coordinate is the smaller of the
    residue and its negation, the parity of y tells which of the two. *)

Module Toy.

Record pt : Type := mkPt { log : Z; log_ok : bool_decide (0 <= log < N) = true }.

Lemma pt_eq A B : log A = log B -> A = B.
Proof.
  destruct A as [a Ha], B as [b Hb]. cbn [log]. intros <-. f_equal.
  apply Eqdep_dec.UIP_dec. apply bool_eq_dec.
Qed.

Lemma res_ok k : bool_decide (0 <= k mod N < N) = true.
Proof. apply bool_decide_eq_true. apply Z.mod_pos_bound. pose proof N_pos. lia. Qed.

Definition res (k : Z) : pt := mkPt (k mod N) (res_ok k).

Lemma log_range A : 0 <= log A < N.
Proof. apply (bool_decide_eq_true_1 _ (log_ok A)). Qed.

Definition curve : Curve := {|
  point := pt;
  infinity := res 0;
  is_infinity A := log A =? 0;
  x_of A := Z.min (log A) (N - log A);
  y_of A := if log A <=? N / 2 then 2 else 1;
  ge_set_xo_var x o := if (0 <? x) && (x <=? N / 2) then Some (res (if o then N - x else x)) else None;
  ge_set_xy x y :=
    if (0 <? x) && (x <=? N / 2) && ((y =? 1) || (y =? 2)) then Some (res (if Z.odd y then N - x else x)) else None;
  generator := res 1;
  point_add A B := res (log A + log B);
  point_neg A := res (- log A);
  ecmult A na ng := res (val na * log A + val ng);
  ecmult_gen n := res (val n);
|}.

Definition modinv : Modinv :=
  let inv s := let r := Z.invmod (val62 s) N in
    mkSigned62 (r mod 2 ^ 62) (r / 2 ^ 62 mod 2 ^ 62) (r / 2 ^ 124 mod 2 ^ 62) (r / 2 ^ 186 mod 2 ^ 62) (r / 2 ^ 248) in
  {| modinv64 := inv; modinv64_var := inv |}.

Lemma N_half : N = 2 * (N / 2) + 1 /\ 1 < N / 2 /\ N < P.
Proof. Local Transparent N. done. Qed.

#[local] Opaque N.

Lemma res_id A k : k mod N = log A -> res k = A.
Proof. intros E. by apply pt_eq. Qed.

Lemma log_small A : log A mod N = log A.
Proof. apply Z.mod_small, log_range. Qed.

Lemma nmul_log n A : log (@nmul curve n A) = (Z.of_nat n * log A) mod N.
Proof.
  induction n as [|n IH]; [done|]. rewrite (@nmul_S curve). cbn [log point_add curve res].
  rewrite IH, Zplus_mod_idemp_r. f_equal. lia.
Qed.

Lemma zmul_log k A : log (@zmul curve k A) = (k * log A) mod N.
Proof.
  pose proof N_pos. unfold zmul. rewrite nmul_log. rewrite Z2Nat.id by (apply Z.mod_pos_bound; lia).
  apply Zmult_mod_idemp_l.
Qed.

Lemma inf_log A : A = res 0 <-> log A = 0.
Proof.
  split; [intros ->; by apply Z.mod_0_l; pose proof N_pos; lia|]. intros E. apply pt_eq. rewrite E. cbn.
  symmetry. apply Z.mod_0_l. pose proof N_pos; lia.
Qed.

Lemma finite_log A : A <> res 0 -> 0 < log A < N.
Proof. intros H. pose proof (log_range A). assert (log A <> 0) by (by rewrite <- inf_log). lia. Qed.

Lemma neg_log A : A <> res 0 -> (- log A) mod N = N - log A.
Proof. intros H. pose proof (finite_log A H). symmetry. apply (Z.mod_unique _ _ (-1)); lia. Qed.

#[global] Instance toy_curve_laws : CurveLaws curve.
Proof.
  pose proof N_pos. destruct N_half as (Nh & Nh' & NP).
  split; cbn [point infinity is_infinity x_of y_of ge_set_xo_var ge_set_xy generator point_add point_neg ecmult ecmult_gen curve].
  - intros A B. apply pt_eq. cbn [log res]. f_equal. lia.
  - intros A B C. apply pt_eq. cbn [log res]. rewrite Zplus_mod_idemp_r, Zplus_mod_idemp_l. f_equal. lia.
  - intros A. apply res_id. cbn [log res]. rewrite Z.mod_0_l by lia. apply log_small.
  - intros A. apply pt_eq. cbn [log res]. rewrite Zplus_mod_idemp_l. f_equal. lia.
  - intros A. apply pt_eq. rewrite nmul_log, Z2Nat.id by lia. cbn [log res].
    rewrite Z.mul_comm, Z_mod_mult. symmetry. apply Z.mod_0_l. lia.
  - intros A. rewrite Z.eqb_eq. symmetry. apply inf_log.
  - intros E. apply inf_log in E. cbn [log res] in E. rewrite Z.mod_small in E; lia.
  - intros A na ng _ _. apply pt_eq. cbn [log res].
    rewrite !zmul_log. cbn [log res]. rewrite <- Zplus_mod, (Z.mod_small 1) by lia. f_equal. lia.
  - intros n _. apply pt_eq. rewrite zmul_log. cbn [log res]. by rewrite (Z.mod_small 1), Z.mul_1_r by lia.
  - intros A HA. pose proof (finite_log A HA). lia.
  - intros A HA. destruct (log A <=? N / 2); lia.
  - intros A. cbn [log res]. destruct (decide (log A = 0)) as [E|E]; [by rewrite E, Z.mod_0_l by lia|].
    assert (HA : A <> res 0) by (by rewrite inf_log). rewrite neg_log by done. pose proof (finite_log A HA). lia.
  - intros A HA. cbn [log res]. rewrite neg_log by done. pose proof (finite_log A HA).
    destruct (Z.leb_spec (N - log A) (N / 2)), (Z.leb_spec (log A) (N / 2)); first [reflexivity|exfalso; lia].
  - intros A HA. pose proof (finite_log A HA). z_tests. cbn [andb]. f_equal. apply res_id.
    destruct (Z.leb_spec (log A) (N / 2)); cbn [Z.odd]; rewrite Z.mod_small; lia.
  - intros A HA. pose proof (finite_log A HA). z_tests. cbn [andb].
    destruct (Z.leb_spec (log A) (N / 2)); cbn [Z.eqb Pos.eqb orb Z.odd]; f_equal; apply res_id; rewrite Z.mod_small; lia.
Qed.

#[global] Instance toy_modinv_laws : ModinvLaws modinv.
Proof.
  assert (L : forall s, signed62_ok (@modinv64 modinv s) /\ val62 (@modinv64 modinv s) = Z.invmod (val62 s) N).
  { intros s. cbn [modinv64 modinv]. pose proof N_pos. assert (R : 0 <= Z.invmod (val62 s) N < N) by (unfold Z.invmod; apply Z.mod_pos_bound; lia).
    generalize dependent (Z.invmod (val62 s) N). intros r R.
    assert (V : val62 (mkSigned62 (r mod 2 ^ 62) (r / 2 ^ 62 mod 2 ^ 62) (r / 2 ^ 124 mod 2 ^ 62) (r / 2 ^ 186 mod 2 ^ 62) (r / 2 ^ 248)) = r).
    { unfold val62. cbn [v0 v1 v2 v3 v4]. Z.to_euclidean_division_equations. lia. }
    unfold signed62_ok. rewrite V. split; [|done]. split; [|lia]. cbn [v0 v1 v2 v3 v4].
    do 4 (split; [apply Z.mod_pos_bound; lia|]). apply Z.div_pos; lia. }
  assert (I : forall s, signed62_ok s -> val62 s <> 0 -> (Z.invmod (val62 s) N * val62 s) mod N = 1).
  { intros s [(? & ? & ? & ? & ?) V] Hs. apply Z.invmod_prime; [apply N_prime|]. rewrite Z.mod_small; [done|].
    split; [unfold val62; lia|done]. }
  split; intros s S; [apply L| |apply L|]; intros Hs; cbn [modinv64_var modinv]; change (val62 _) with (val62 (@modinv64 modinv s)) at 1;
    rewrite (proj2 (L s)); by apply I.
Qed.

(** The memory of the hash objects before a call: anything. *)
Definition memory : hmac_sha256 := mkHmac (mkSha256 [] (replicate 64 0xAA) 7) (mkSha256 [] (replicate 64 0x55) 9).

End Toy.

(** ** Properties *)

(** C14: verification is the textbook equation. For scalars in range,
    [secp256k1_ecdsa_sig_verify], which compares the x coordinate without
    reducing it, accepts exactly when [r] and [s] are not zero and the point
    [w*m*G + w*r*Q], [w] the inverse of [s], is finite with an x coordinate
    that is [r] modulo the order. *)
Theorem verification_exact `{MI : Modinv} {ML : ModinvLaws MI} `{EC : Curve} {EL : CurveLaws EC}
    (r s m : scalar) (Q : point) :
  scalar_ok r -> scalar_ok s -> scalar_ok m ->
  ecdsa_sig_verify r s Q m = true <-> ecdsa_valid (val r) (val s) (val m) Q.
Proof. apply sig_verify_spec. Qed.

Lemma verification_exact_witness :
  let Q := Toy.res 5 in
  @ecdsa_sig_verify Toy.modinv Toy.curve (scalar_set_int 3) (scalar_set_int 8) Q (scalar_set_int 9) = true /\
  @ecdsa_valid Toy.curve 3 8 9 Q.
Proof.
  cbn zeta. split; [by vm_compute|].
  apply (@verification_exact Toy.modinv _ Toy.curve _ (scalar_set_int 3) (scalar_set_int 8) (scalar_set_int 9));
    [apply (bool_decide_unpack _); by vm_compute..|by vm_compute].
Defined.
