(* ===== verification/Hash.v ===== *)
(** * Hex strings and hashing (src/src/hash.cpp, src/include/gambit/hash.hpp)

    [toHex]/[fromHex] between byte vectors and hexadecimal strings, and the
    Keccak-256 wrappers. [std::string] input is converted byte by byte, so
    the two overloads of [keccak256] are one function here. *)

From stdpp Require Import base list numbers strings.
From Stdlib Require Import ZArith Lia.
From S2P Require Import Prelude Keccak.

#[local] Open Scope Z_scope.

(** hash.cpp 14-14: [oss << std::hex << std::setfill('0') << std::setw(2) << (int)b]. *)
Definition put_hex2 (b : Z) : std_string := set_width 2 (print_hex b).

(** hash.cpp 10-17 and 19-26 (the [Bytes32] overload runs the same loop). *)
Definition toHex (data : Bytes) : std_string :=
  foldl (fun oss b => oss ++ put_hex2 b) [] data.

(** hash.cpp 28-33. A [char] above 127 matches no test, signed or not. *)
Definition hexCharToNibble (c : Z) : res Z :=
  if (48 <=? c) && (c <=? 57) then Ok (c - 48)
  else if (97 <=? c) && (c <=? 102) then Ok (10 + (c - 97))
  else if (65 <=? c) && (c <=? 70) then Ok (10 + (c - 65))
  else Throw "Invalid hex char".

(** hash.cpp 37-39: [if (s.rfind("0x", 0) == 0 || s.rfind("0X", 0) == 0) s = s.substr(2)]. *)
Definition strip0x (s : std_string) : std_string :=
  if starts_with (str "0x") s || starts_with (str "0X") s then drop 2 s else s.

(** The loop of hash.cpp 45-49, two characters at a time. *)
Fixpoint fromHex_loop (s : std_string) : res Bytes :=
  match s with
  | c1 :: c2 :: s' =>
      hi ← hexCharToNibble c1;
      lo ← hexCharToNibble c2;
      out ← fromHex_loop s';
      Ok (u8 (Z.lor (Z.shiftl hi 4) lo) :: out)
  | _ => Ok []
  end.

(** hash.cpp 35-51. *)
Definition fromHex (hex : std_string) : res Bytes :=
  let s := strip0x hex in
  if negb (zlen s mod 2 =? 0) then Throw "Hex string length must be even"
  else fromHex_loop s.

(** hash.cpp 53-57 and 59-62. *)
Definition keccak256 (input : Bytes) : Bytes := keccak_256 input.

(** hash.cpp 64-68 and 70-73: the same digest as a [Bytes32]. *)
Definition keccak256_32 (input : Bytes) : Bytes := keccak_256 input.

(** Two byte strings that break collision resistance. *)
Definition collision (x y : Bytes) : Prop := x <> y /\ keccak256 x = keccak256 y.

(** ** Hex round trips *)

(** Lower-casing of a hexadecimal character, the identity on digits. *)
Definition to_lower (c : Z) : Z := if (65 <=? c) && (c <=? 90) then c + 32 else c.

Definition is_hex_char (c : Z) : Prop :=
  48 <= c <= 57 \/ 97 <= c <= 102 \/ 65 <= c <= 70.

Lemma put_hex2_digits b :
  is_u8 b -> put_hex2 b = [digit_char (b / 16); digit_char (b mod 16)].
Proof.
  intros [H0 H1]. unfold put_hex2, print_hex. cbn [print_loop].
  destruct (b / 16 =? 0) eqn:E; to_prop.
  - unfold set_width. cbn [length Nat.sub replicate app]. by rewrite E.
  - assert (0 < b / 16 < 16).
    { split; [pose proof (Z.div_pos b 16); lia|apply Z.div_lt_upper_bound; lia]. }
    replace (b / 16 / 16) with 0 by (symmetry; apply Z.div_small; lia).
    cbn [Z.eqb]. unfold set_width. cbn [length Nat.sub replicate app].
    by rewrite (Z.mod_small (b / 16)) by lia.
Qed.

Lemma toHex_acc oss data : foldl (fun oss b => oss ++ put_hex2 b) oss data = oss ++ toHex data.
Proof.
  unfold toHex. revert oss. induction data as [|b data IH]; intros oss; cbn [foldl].
  - by rewrite app_nil_r.
  - rewrite IH, (IH ([] ++ _)). cbn [app]. by rewrite app_assoc.
Qed.

Lemma toHex_cons b data :
  is_u8 b -> toHex (b :: data) = digit_char (b / 16) :: digit_char (b mod 16) :: toHex data.
Proof.
  intros H. unfold toHex at 1. cbn [foldl]. rewrite toHex_acc. cbn [app].
  by rewrite put_hex2_digits.
Qed.

Lemma toHex_length data : bytes_ok data -> length (toHex data) = (2 * length data)%nat.
Proof.
  induction data as [|b data IH]; intros H; [done|]. apply bytes_ok_cons in H as [Hb H].
  rewrite toHex_cons by done. cbn [length]. rewrite IH by done. lia.
Qed.

Lemma toHex_long data : zlen data <= zlen (toHex data).
Proof.
  induction data as [|b data IH]; [done|].
  unfold toHex. cbn [foldl]. rewrite toHex_acc, zlen_app, zlen_cons.
  assert (2 <= zlen (put_hex2 b)); [|cbn [app]; lia].
  unfold put_hex2, set_width, zlen. rewrite length_app, length_replicate. lia.
Qed.

Lemma digit_char_range d : 0 <= d < 16 -> 48 <= digit_char d <= 57 \/ 97 <= digit_char d <= 102.
Proof. intros H. unfold digit_char. destruct (d <? 10) eqn:E; to_prop; lia. Qed.

Lemma nibble_digit d : 0 <= d < 16 -> hexCharToNibble (digit_char d) = Ok d.
Proof.
  intros H. unfold hexCharToNibble, digit_char. destruct (d <? 10) eqn:E; to_prop.
  - z_tests. cbn [andb]. f_equal. lia.
  - z_tests. cbn [andb]. f_equal. lia.
Qed.

Lemma byte_nibbles b : is_u8 b -> 0 <= b / 16 < 16 /\ 0 <= b mod 16 < 16.
Proof.
  intros [H0 H1]. split; [|apply Z.mod_pos_bound; lia].
  split; [apply Z.div_pos; lia|apply Z.div_lt_upper_bound; lia].
Qed.

Lemma join_nibbles hi lo :
  0 <= hi < 16 -> 0 <= lo < 16 -> u8 (Z.lor (Z.shiftl hi 4) lo) = hi * 16 + lo.
Proof. intros H L. rewrite lor_shiftl_add by lia. apply u8_id. unfold is_u8. lia. Qed.

Lemma fromHex_loop_toHex data : bytes_ok data -> fromHex_loop (toHex data) = Ok data.
Proof.
  induction data as [|b data IH]; intros H; [done|]. apply bytes_ok_cons in H as [Hb H].
  destruct (byte_nibbles b Hb) as [H1 H2]. rewrite toHex_cons by done. cbn [fromHex_loop].
  rewrite !nibble_digit, IH by done. cbn [mbind res_bind].
  rewrite join_nibbles by done. do 2 f_equal. rewrite (Z.div_mod b 16) at 3; lia.
Qed.

Lemma toHex_chars data : bytes_ok data -> Forall (fun c => 48 <= c <= 57 \/ 97 <= c <= 102) (toHex data).
Proof.
  induction data as [|b data IH]; intros H; [constructor|]. apply bytes_ok_cons in H as [Hb H].
  destruct (byte_nibbles b Hb). rewrite toHex_cons by done.
  constructor; [by apply digit_char_range|]. constructor; [by apply digit_char_range|auto].
Qed.

Lemma toHex_bytes data : bytes_ok data -> bytes_ok (toHex data).
Proof.
  intros H. eapply Forall_impl; [by apply toHex_chars|]. intros c. unfold is_u8. lia.
Qed.

Lemma strip0x_prefixed s : strip0x (str "0x" ++ s) = s.
Proof. unfold strip0x. rewrite starts_with_app. done. Qed.

Lemma strip0x_toHex data : bytes_ok data -> strip0x (toHex data) = toHex data.
Proof.
  intros H. unfold strip0x, starts_with. pose proof (toHex_chars data H) as F.
  destruct (toHex data) as [|c1 [|c2 s]];
    [done|rewrite !bool_decide_eq_false_2; [done|cbn; congruence..]|].
  apply Forall_cons_1 in F as [_ F]. apply Forall_cons_1 in F as [F _].
  rewrite !bool_decide_eq_false_2; [done|..]; cbn; intros [=]; lia.
Qed.

Lemma fromHex_stripped s data : strip0x s = toHex data -> bytes_ok data -> fromHex s = Ok data.
Proof.
  intros E H. unfold fromHex. rewrite E. unfold zlen. rewrite toHex_length by done.
  replace (Z.of_nat (2 * length data) mod 2) with 0.
  - by apply fromHex_loop_toHex.
  - rewrite Nat2Z.inj_mul, Z.mul_comm. symmetry. apply Z_mod_mult.
Qed.

Lemma fromHex_toHex data : bytes_ok data -> fromHex (toHex data) = Ok data.
Proof. intros H. apply fromHex_stripped; [by apply strip0x_toHex|done]. Qed.

Lemma fromHex_0x_toHex data : bytes_ok data -> fromHex (str "0x" ++ toHex data) = Ok data.
Proof. intros H. apply fromHex_stripped; [by apply strip0x_prefixed|done]. Qed.

Lemma toHex_inj d1 d2 : bytes_ok d1 -> bytes_ok d2 -> toHex d1 = toHex d2 -> d1 = d2.
Proof.
  intros H1 H2 E. apply fromHex_toHex in H1, H2. rewrite E in H1. congruence.
Qed.

Lemma keccak256_length input : length (keccak256 input) = 32%nat.
Proof. apply keccak_256_length. Qed.

Lemma keccak256_bytes input : bytes_ok (keccak256 input).
Proof. apply keccak_256_bytes. Qed.

#[export] Hint Resolve keccak256_bytes keccak256_length toHex_bytes : gambit.

Lemma toHex_free data : bytes_ok data -> free_of 124 (toHex data).
Proof. intros H. apply (Forall_impl _ _ _ (toHex_chars data H)). lia. Qed.

(** Equal printed digests: equal messages or a collision. *)
Lemma digest_inj x y : toHex (keccak256 x) = toHex (keccak256 y) -> x = y \/ collision x y.
Proof.
  intros E. destruct (decide (x = y)) as [->|N]; [by left|right]. split; [done|].
  apply toHex_inj; auto with gambit.
Qed.

(** ** What [fromHex] accepts *)

Lemma nibble_lower c d :
  hexCharToNibble c = Ok d <-> 0 <= d < 16 /\ to_lower c = digit_char d.
Proof.
  unfold hexCharToNibble, to_lower, digit_char. split.
  - intros H. destruct ((48 <=? c) && (c <=? 57)) eqn:E1; to_prop.
    { injection H as <-. z_tests. cbn [andb]. z_tests. lia. }
    destruct ((97 <=? c) && (c <=? 102)) eqn:E2; to_prop.
    { injection H as <-. replace (c <=? 90) with false by (symmetry; apply Z.leb_gt; lia).
      rewrite andb_false_r. z_tests. lia. }
    destruct ((65 <=? c) && (c <=? 70)) eqn:E3; to_prop; [|discriminate].
    injection H as <-. z_tests. cbn [andb]. z_tests. lia.
  - intros [Hd E].
    assert (C : c = d + 48 /\ d < 10 \/ c = d + 87 /\ 10 <= d \/ c = d + 55 /\ 10 <= d).
    { destruct ((65 <=? c) && (c <=? 90)) eqn:E1; to_prop; destruct (d <? 10) eqn:E2; to_prop; lia. }
    destruct C as [[-> ?]|[[-> ?]|[-> ?]]]; z_tests; cbn [andb]; f_equal; lia.
Qed.

Lemma fromHex_loop_sound s bs :
  zlen s mod 2 = 0 -> fromHex_loop s = Ok bs -> bytes_ok bs /\ to_lower <$> s = toHex bs.
Proof.
  remember (length s) as n eqn:Hn. revert s bs Hn.
  induction n as [n IH] using lt_wf_ind. intros s bs -> Hl H.
  destruct s as [|c1 [|c2 s]].
  - injection H as <-. split; [constructor|done].
  - discriminate Hl.
  - cbn [fromHex_loop] in H. res_inv.
    apply nibble_lower in E as [R1 L1], E0 as [R2 L2].
    edestruct IH as [IB IE]; [|reflexivity| |exact E1|].
    { cbn. lia. }
    { rewrite !zlen_cons in Hl. replace (zlen s + 1 + 1) with (zlen s + 1 * 2) in Hl by lia.
      by rewrite Z_mod_plus_full in Hl. }
    rewrite join_nibbles by done. assert (Hb : is_u8 (x * 16 + x0)) by (unfold is_u8; lia).
    split; [by constructor|]. rewrite toHex_cons, !fmap_cons, IE, L1, L2 by done.
    rewrite Z.div_add_l, (Z.div_small x0), Z.add_0_r by lia.
    replace ((x * 16 + x0) mod 16) with x0; [done|].
    rewrite Z.add_comm, Z_mod_plus_full, Z.mod_small; lia.
Qed.

Lemma fromHex_loop_complete s bs :
  bytes_ok bs -> to_lower <$> s = toHex bs -> fromHex_loop s = Ok bs.
Proof.
  revert s. induction bs as [|b bs IH]; intros s H E.
  { apply fmap_nil_inv in E as ->. done. }
  apply bytes_ok_cons in H as [Hb H]. destruct (byte_nibbles b Hb) as [N1 N2].
  rewrite toHex_cons in E by done.
  destruct s as [|c1 [|c2 s]]; [discriminate..|]. injection E as E1 E2 E3. cbn [fromHex_loop].
  rewrite (proj2 (nibble_lower c1 _) (conj N1 E1)), (proj2 (nibble_lower c2 _) (conj N2 E2)).
  cbn [mbind res_bind]. rewrite IH by done. cbn [mbind res_bind].
  rewrite join_nibbles by done. do 2 f_equal. rewrite (Z.div_mod b 16) at 3; lia.
Qed.

Lemma fromHex_complete s bs :
  bytes_ok bs -> to_lower <$> strip0x s = toHex bs -> fromHex s = Ok bs.
Proof.
  intros H E. unfold fromHex. replace (zlen (strip0x s) mod 2) with 0.
  - by apply fromHex_loop_complete.
  - unfold zlen. rewrite <- (length_fmap to_lower (strip0x s)), E, toHex_length by done.
    rewrite Nat2Z.inj_mul, Z.mul_comm. symmetry. apply Z_mod_mult.
Qed.

Lemma fromHex_bytes s bs : fromHex s = Ok bs -> bytes_ok bs.
Proof.
  unfold fromHex. destruct (negb _) eqn:E; [done|]. apply negb_false_iff, Z.eqb_eq in E.
  intros H. by apply fromHex_loop_sound in H as [? _].
Qed.

Lemma fromHex_loop_returns s : (exists bs, fromHex_loop s = Ok bs) \/ exists w, fromHex_loop s = Throw w.
Proof.
  assert (N : forall c, (exists d, hexCharToNibble c = Ok d) \/ exists w, hexCharToNibble c = Throw w).
  { intros c. unfold hexCharToNibble. repeat case_match; eauto. }
  remember (length s) as n eqn:Hn. revert s Hn. induction n as [n IH] using lt_wf_ind.
  intros s ->. destruct s as [|c1 [|c2 s]]; [cbn; eauto..|]. cbn [fromHex_loop].
  destruct (N c1) as [[d1 ->]|[w ->]], (N c2) as [[d2 ->]|[w' ->]]; cbn; eauto.
  destruct (IH (length s) ltac:(cbn; lia) s eq_refl) as [[bs ->]|[w ->]]; cbn; eauto.
Qed.

Lemma fromHex_returns s : returns (fromHex s).
Proof.
  unfold fromHex. destruct (negb _); [right; by eexists|]. apply fromHex_loop_returns.
Qed.

Lemma fromHex_size s bs : fromHex s = Ok bs -> zlen bs <= zlen s.
Proof.
  unfold fromHex. destruct (negb _) eqn:E; [done|]. apply negb_false_iff, Z.eqb_eq in E.
  intros H. apply fromHex_loop_sound in H as [B H]; [|done]. apply (f_equal length) in H.
  rewrite length_fmap, toHex_length in H by done.
  assert (length (strip0x s) <= length s)%nat; [|unfold zlen; lia].
  unfold strip0x. destruct (_ || _); [rewrite length_drop; lia|lia].
Qed.

(** [fromHex] decides the language of hexadecimal strings: after an
    optional 0x/0X prefix it returns the bytes whose lower-case printing is
    the (case-insensitive) input, and it throws, without undefined
    behaviour, exactly when there are none. *)
Theorem fromHex_spec (s : std_string) :
  match fromHex s with
  | Ok bs => bytes_ok bs /\ to_lower <$> strip0x s = toHex bs
  | Throw _ => forall bs, bytes_ok bs -> to_lower <$> strip0x s <> toHex bs
  | UB | OutOfFuel => False
  end.
Proof.
  destruct (fromHex s) as [bs|w| |] eqn:E.
  - unfold fromHex in E. destruct (negb _) eqn:Ev; [discriminate|]. to_prop.
    by apply fromHex_loop_sound.
  - intros bs Hb E'. by rewrite (fromHex_complete s bs) in E.
  - unfold fromHex in E. destruct (negb _); [discriminate|].
    destruct (fromHex_loop_returns (strip0x s)) as [[? E']|[? E']]; congruence.
  - unfold fromHex in E. destruct (negb _); [discriminate|].
    destruct (fromHex_loop_returns (strip0x s)) as [[? E']|[? E']]; congruence.
Qed.
