(* ===== verification/Rlp.v ===== *)
(** * RLP (src/src/rlp.cpp, src/include/gambit/rlp.hpp)

    The encoder and the recursive decoder. The decoder's [size_t] sums wrap
    around at 2^64 as in the code, and a read outside the buffer is [UB].
    The decoder is given fuel; [decode_terminates] shows that the fuel of
    [decode] is never used up. *)

From stdpp Require Import base list numbers strings.
From Stdlib Require Import ZArith Lia.
From S2P Require Import Prelude.

#[local] Open Scope Z_scope.

(** ** Encoding *)

(** rlp.cpp 7-25. *)
Definition encodeLength (len offset : Z) : Bytes :=
  if len <? 56 then [u8 (offset + u8 len)]
  else
    let lenBytes := be_bytes len in
    u8 (offset + 55 + u8 (zlen lenBytes)) :: lenBytes.

(** rlp.cpp 27-36. *)
Definition encodeBytes (input : Bytes) : Bytes :=
  if (zlen input =? 1) && (nth 0 input 0 <? 0x80) then input
  else encodeLength (zlen input) 0x80 ++ input.

(** rlp.cpp 38-41. *)
Definition encodeString (input : std_string) : Bytes := encodeBytes input.

(** rlp.cpp 43-55. *)
Definition encodeUint (value : Z) : Bytes :=
  if value =? 0 then [0x80] else encodeBytes (be_bytes value).

(** rlp.cpp 68-74, and the payload loop of [encodeList]. *)
Definition concat_parts (parts : list Bytes) : Bytes :=
  foldl (fun out p => out ++ p) [] parts.

(** rlp.cpp 57-66. *)
Definition encodeList (items : list Bytes) : Bytes :=
  let payload := concat_parts items in
  encodeLength (zlen payload) 0xC0 ++ payload.

(** ** Decoding *)

(** rlp.hpp 27-31. *)
#[warnings="-register-all"]
Inductive Decoded : Type :=
| mkDecoded (isList : bool) (bytes : Bytes) (list : list Decoded).

Definition d_isList (d : Decoded) : bool := let 'mkDecoded b _ _ := d in b.
Definition d_bytes (d : Decoded) : Bytes := let 'mkDecoded _ b _ := d in b.
Definition d_list (d : Decoded) : list Decoded := let 'mkDecoded _ _ l := d in l.

(** [in[i]], inside the bounds the code has checked. *)
Definition byte_at (inp : Bytes) (i : Z) : Z := nth (Z.to_nat i) inp 0.

(** [Bytes(in.begin() + off, in.begin() + off + len)]. *)
Definition slice (inp : Bytes) (off len : Z) : Bytes :=
  take (Z.to_nat len) (drop (Z.to_nat off) inp).

(** rlp.cpp 82-96: the length and the offset behind the length bytes. *)
Definition readLen (inp : Bytes) (offset prefix base : Z) : res (Z * Z) :=
  let len := prefix - base in
  let offset := offset + 1 in
  if len <=? 55 then Ok (len, offset)
  else
    let numBytes := len - 55 in
    if u64 (offset + numBytes) >? zlen inp then Throw "RLP long length overflow"
    else Ok (be_fold (slice inp offset numBytes), offset + numBytes).

(** rlp.cpp 98-129. [decode_items] is the [while (offset < end)] loop. *)
Fixpoint decode_go (fuel : nat) (inp : Bytes) (offset : Z) {struct fuel} : res (Decoded * Z) :=
  match fuel with
  | O => OutOfFuel
  | S f =>
      if offset >=? zlen inp then Throw "RLP decode overflow"
      else
        let prefix := byte_at inp offset in
        if prefix <? 0x80 then Ok (mkDecoded false [prefix] [], offset + 1)
        else if prefix <? 0xC0 then
          '(len, offset) ← readLen inp offset prefix 0x80;
          if u64 (offset + len) >? zlen inp then Throw "RLP string overflow"
          else if offset + len >? zlen inp then UB
          else Ok (mkDecoded false (slice inp offset len) [], offset + len)
        else
          '(len, offset) ← readLen inp offset prefix 0xC0;
          let end_ := u64 (offset + len) in
          if end_ >? zlen inp then Throw "RLP list overflow"
          else
            '(items, offset) ← decode_items f inp offset end_;
            Ok (mkDecoded true [] items, offset)
  end
with decode_items (fuel : nat) (inp : Bytes) (offset end_ : Z) {struct fuel}
  : res (list Decoded * Z) :=
  match fuel with
  | O => OutOfFuel
  | S f =>
      if offset <? end_ then
        '(d, offset) ← decode_go f inp offset;
        '(items, offset) ← decode_items f inp offset end_;
        Ok (d :: items, offset)
      else Ok ([], offset)
  end.

(** Every call consumes at least one byte of the input. *)
Definition decode_fuel (inp : Bytes) : nat := 2 * length inp + 2.

(** rlp.cpp 98-129, [decode(in, offset)]: the item and the updated offset. *)
Definition decode_at (inp : Bytes) (offset : Z) : res (Decoded * Z) :=
  decode_go (decode_fuel inp) inp offset.

(** rlp.cpp 131-134. *)
Definition decode (inp : Bytes) : res Decoded := fst <$> decode_at inp 0.

(** ** Items

    What an RLP byte string denotes: a tree of byte strings. *)

#[warnings="-register-all"]
Inductive item : Type :=
| Str (b : Bytes)
| Lst (l : list item).

Fixpoint encode_item (it : item) : Bytes :=
  match it with
  | Str b => encodeBytes b
  | Lst l => encodeList (encode_item <$> l)
  end.

Fixpoint to_decoded (it : item) : Decoded :=
  match it with
  | Str b => mkDecoded false b []
  | Lst l => mkDecoded true [] (to_decoded <$> l)
  end.

Fixpoint item_ok (it : item) : Prop :=
  match it with
  | Str b => bytes_ok b
  | Lst l => fold_right (fun i P => item_ok i /\ P) True l
  end.

(** ** Encoding lemmas *)

Section ItemInd.
Context (P : item -> Prop).
Context (HS : forall b, P (Str b)) (HL : forall l, Forall P l -> P (Lst l)).

Fixpoint item_nested_ind (it : item) : P it :=
  match it with
  | Str b => HS b
  | Lst l => HL l ((fix go l : Forall P l := match l with
                               | [] => Forall_nil_2 P
                               | i :: l' => Forall_cons_2 P i l' (item_nested_ind i) (go l')
                               end) l)
  end.

End ItemInd.

Lemma item_ok_Lst l : item_ok (Lst l) <-> Forall item_ok l.
Proof.
  cbn [item_ok]. induction l as [|i l IH]; cbn; [split; constructor|].
  rewrite Forall_cons, IH. done.
Qed.

Lemma concat_parts_acc (out : Bytes) (parts : list Bytes) : foldl (fun out p => out ++ p) out parts = out ++ concat parts.
Proof.
  revert out. induction parts as [|p parts IH]; intros out; cbn [foldl concat]; [by rewrite app_nil_r|].
  by rewrite IH, app_assoc.
Qed.

Lemma concat_parts_concat (parts : list Bytes) : concat_parts parts = concat parts.
Proof. apply concat_parts_acc. Qed.

(** The first byte of a length prefix, in the short and in the long form. *)
Lemma encodeLength_cases len offset :
  is_u64 len -> 0 <= offset <= 0xC0 ->
  (len < 56 /\ encodeLength len offset = [offset + len]) \/
  (56 <= len /\ 1 <= zlen (be_bytes len) <= 8 /\
   encodeLength len offset = offset + 55 + zlen (be_bytes len) :: be_bytes len).
Proof.
  intros H Ho. unfold encodeLength. destruct (len <? 56) eqn:E; to_prop.
  - left. split; [done|]. unfold is_u64 in H. rewrite (u8_id len), u8_id by (unfold is_u8; lia). done.
  - right. destruct (be_bytes_spec len H) as (_ & _ & L & _).
    pose proof (be_bytes_nonempty len ltac:(lia)) as N.
    assert (1 <= zlen (be_bytes len)).
    { destruct (be_bytes len) as [|b l]; [done|]. rewrite zlen_cons. pose proof (zlen_nonneg l). lia. }
    split; [done|]. split; [lia|]. rewrite (u8_id (zlen _)), u8_id by (unfold is_u8; lia). done.
Qed.

Lemma encodeLength_bytes len offset : is_u64 len -> 0 <= offset <= 0xC0 -> bytes_ok (encodeLength len offset).
Proof.
  intros H Ho. destruct (encodeLength_cases len offset H Ho) as [[? ->]|(? & ? & ->)].
  - apply bytes_ok_cons. split; [|constructor]. unfold is_u8, is_u64 in *. lia.
  - apply bytes_ok_cons. split; [unfold is_u8; lia|]. by apply be_bytes_spec.
Qed.

Lemma encodeLength_nonempty len offset : encodeLength len offset <> [].
Proof. unfold encodeLength. by destruct (len <? 56). Qed.

Lemma encodeBytes_nonempty b : encodeBytes b <> [].
Proof.
  unfold encodeBytes. destruct (_ && _) eqn:E; to_prop.
  - by intros ->.
  - intros E'. apply app_eq_nil in E' as [E' _]. by apply encodeLength_nonempty in E'.
Qed.

Lemma encodeList_nonempty items : encodeList items <> [].
Proof. intros E. apply app_eq_nil in E as [E _]. by apply encodeLength_nonempty in E. Qed.

Lemma encode_item_nonempty it : encode_item it <> [].
Proof. destruct it; [apply encodeBytes_nonempty|apply encodeList_nonempty]. Qed.

Lemma encode_item_pos it : 0 < zlen (encode_item it).
Proof.
  pose proof (encode_item_nonempty it) as N. destruct (encode_item it); [done|].
  rewrite zlen_cons. pose proof (zlen_nonneg l). lia.
Qed.

Lemma encodeUint_item v : is_u64 v -> encodeUint v = encode_item (Str (be_bytes v)).
Proof.
  intros H. unfold encodeUint. destruct (v =? 0) eqn:E; [|done]. to_prop. by subst v.
Qed.

Lemma encodeBytes_length b : zlen b <= zlen (encodeBytes b).
Proof.
  unfold encodeBytes. destruct (_ && _); [lia|]. rewrite zlen_app.
  pose proof (zlen_nonneg (encodeLength (zlen b) 0x80)). lia.
Qed.

Lemma encodeBytes_ok b : bytes_ok b -> zlen b < 2 ^ 64 -> bytes_ok (encodeBytes b).
Proof.
  intros H L. unfold encodeBytes. destruct (_ && _); [done|]. apply bytes_ok_app. split; [|done].
  apply encodeLength_bytes; [pose proof (zlen_nonneg b); unfold is_u64|]; lia.
Qed.

Lemma encodeList_ok items :
  Forall bytes_ok items -> zlen (concat items) < 2 ^ 64 -> bytes_ok (encodeList items).
Proof.
  intros H L. unfold encodeList. rewrite concat_parts_concat. apply bytes_ok_app.
  split; [|by apply bytes_ok_concat].
  apply encodeLength_bytes; [pose proof (zlen_nonneg (concat items)); unfold is_u64|]; lia.
Qed.

Lemma encodeList_length items : zlen (concat items) < zlen (encodeList items).
Proof.
  unfold encodeList. rewrite concat_parts_concat, zlen_app.
  pose proof (encodeLength_nonempty (zlen (concat items)) 0xC0) as N.
  destruct (encodeLength _ _) as [|x l]; [done|]. rewrite zlen_cons. pose proof (zlen_nonneg l). lia.
Qed.

(** A length prefix takes at most nine bytes. *)
Lemma encodeLength_upto len offset : is_u64 len -> zlen (encodeLength len offset) <= 9.
Proof.
  intros H. unfold encodeLength. destruct (len <? 56); [done|]. rewrite zlen_cons.
  destruct (be_bytes_spec len H) as (_ & _ & L & _). lia.
Qed.

Lemma encodeBytes_upto b : zlen b < 2 ^ 64 -> zlen (encodeBytes b) <= zlen b + 9.
Proof.
  intros H. unfold encodeBytes. destruct (_ && _); [lia|]. rewrite zlen_app.
  pose proof (encodeLength_upto (zlen b) 0x80 (conj (zlen_nonneg b) H)). lia.
Qed.

Lemma encodeList_upto items :
  zlen (concat items) < 2 ^ 64 -> zlen (encodeList items) <= zlen (concat items) + 9.
Proof.
  intros H. unfold encodeList. rewrite concat_parts_concat, zlen_app.
  pose proof (encodeLength_upto (zlen (concat items)) 0xC0 (conj (zlen_nonneg _) H)). lia.
Qed.

Lemma zlen_concat_elem (b : Bytes) (bs : list Bytes) : b ∈ bs -> zlen b <= zlen (concat bs).
Proof.
  induction bs as [|c bs IH]; intros H; [by apply elem_of_nil in H|]. cbn [concat]. rewrite zlen_app.
  pose proof (zlen_nonneg c). pose proof (zlen_nonneg (concat bs)).
  apply elem_of_cons in H as [->|H]; [lia|]. specialize (IH H). lia.
Qed.

(** An item of an encoded list is shorter than the list's encoding. *)
Lemma encode_Lst_elem it its : it ∈ its -> zlen (encode_item it) < zlen (encode_item (Lst its)).
Proof.
  intros H. pose proof (encodeList_length (encode_item <$> its)).
  pose proof (zlen_concat_elem (encode_item it) (encode_item <$> its)
                (list_elem_of_fmap_2 encode_item _ _ H)).
  change (encode_item (Lst its)) with (encodeList (encode_item <$> its)). lia.
Qed.

Lemma encode_item_bytes it :
  item_ok it -> zlen (encode_item it) < 2 ^ 64 -> bytes_ok (encode_item it).
Proof.
  induction it as [b|l IH] using item_nested_ind; intros O L.
  - apply encodeBytes_ok; [done|]. cbn in L. pose proof (encodeBytes_length b). lia.
  - apply item_ok_Lst in O. change (bytes_ok (encodeList (encode_item <$> l))). apply encodeList_ok.
    + apply Forall_fmap, Forall_forall. intros it Hit.
      rewrite Forall_forall in IH, O. apply IH; [done|auto|].
      pose proof (encode_Lst_elem it l Hit). lia.
    + pose proof (encodeList_length (encode_item <$> l)).
      change (encode_item (Lst l)) with (encodeList (encode_item <$> l)) in L. lia.
Qed.

(** ** The decoder reads back what the encoder wrote *)

Lemma byte_at_mid pre b post : byte_at (pre ++ b :: post) (zlen pre) = b.
Proof. unfold byte_at. by rewrite zlen_to_nat, nth_middle. Qed.

Lemma slice_mid pre b post off :
  off = zlen pre -> slice (pre ++ b ++ post) off (zlen b) = b.
Proof. intros ->. unfold slice. by rewrite !zlen_to_nat, drop_seam, take_seam. Qed.

(** Reading a length prefix that the encoder wrote. *)
Lemma readLen_encodeLength len base pre post :
  is_u64 len -> 0 <= base <= 0xC0 ->
  zlen (pre ++ encodeLength len base ++ post) < 2 ^ 64 ->
  exists prefix rest,
    encodeLength len base = prefix :: rest /\ base <= prefix < base + 64 /\
    readLen (pre ++ encodeLength len base ++ post) (zlen pre) prefix base
    = Ok (len, zlen pre + zlen (encodeLength len base)).
Proof.
  intros H Hb Hs.
  destruct (encodeLength_cases len base H Hb) as [[Hl E]|(Hl & Hn & E)]; rewrite E in *.
  - exists (base + len), []. split; [done|]. unfold is_u64 in H. split; [lia|].
    unfold readLen. replace (base + len - base) with len by lia. z_tests.
    by rewrite zlen_cons, zlen_nil.
  - exists (base + 55 + zlen (be_bytes len)), (be_bytes len).
    split; [done|]. split; [lia|]. unfold readLen.
    replace (base + 55 + zlen (be_bytes len) - base) with (55 + zlen (be_bytes len)) by lia.
    replace (55 + zlen (be_bytes len) - 55) with (zlen (be_bytes len)) by lia.
    assert (L : zlen (pre ++ (base + 55 + zlen (be_bytes len) :: be_bytes len) ++ post)
                = zlen pre + 1 + zlen (be_bytes len) + zlen post)
      by (autorewrite with zlen; lia).
    pose proof (zlen_nonneg pre). pose proof (zlen_nonneg post). rewrite L in *.
    rewrite u64_id by (unfold is_u64; lia). z_tests. do 2 f_equal.
    + rewrite <- app_comm_cons, cons_middle, app_assoc, slice_mid by (autorewrite with zlen; lia).
      by apply be_fold_bytes.
    + autorewrite with zlen. lia.
Qed.

(** The decoder's unfolding, one call at a time. *)
Lemma decode_go_S f inp offset :
  decode_go (S f) inp offset =
  (if offset >=? zlen inp then Throw "RLP decode overflow"
   else
     let prefix := byte_at inp offset in
     if prefix <? 0x80 then Ok (mkDecoded false [prefix] [], offset + 1)
     else if prefix <? 0xC0 then
       '(len, offset) ← readLen inp offset prefix 0x80;
       if u64 (offset + len) >? zlen inp then Throw "RLP string overflow"
       else if offset + len >? zlen inp then UB
       else Ok (mkDecoded false (slice inp offset len) [], offset + len)
     else
       '(len, offset) ← readLen inp offset prefix 0xC0;
       let end_ := u64 (offset + len) in
       if end_ >? zlen inp then Throw "RLP list overflow"
       else
         '(items, offset) ← decode_items f inp offset end_;
         Ok (mkDecoded true [] items, offset)).
Proof. reflexivity. Qed.

Lemma decode_items_S f inp offset end_ :
  decode_items (S f) inp offset end_ =
  (if offset <? end_ then
     '(d, offset) ← decode_go f inp offset;
     '(items, offset) ← decode_items f inp offset end_;
     Ok (d :: items, offset)
   else Ok ([], offset)).
Proof. reflexivity. Qed.

#[local] Arguments decode_go : simpl never.
#[local] Arguments decode_items : simpl never.

(** Fuel that is enough from a position of the input. *)
Definition enough (fuel : nat) (inp : Bytes) (offset : Z) : Prop :=
  2 * (zlen inp - offset) + 1 <= Z.of_nat fuel.

Definition decodes_to (it : item) : Prop :=
  forall pre post fuel,
    item_ok it -> zlen (pre ++ encode_item it ++ post) < 2 ^ 64 ->
    enough fuel (pre ++ encode_item it ++ post) (zlen pre) ->
    decode_go fuel (pre ++ encode_item it ++ post) (zlen pre)
    = Ok (to_decoded it, zlen pre + zlen (encode_item it)).

Lemma decode_Str b : decodes_to (Str b).
Proof.
  intros pre post fuel Hok Hs Hf. cbn [item_ok encode_item to_decoded] in *.
  pose proof (zlen_nonneg pre). pose proof (zlen_nonneg post). pose proof (zlen_nonneg b).
  assert (Hp : 0 < zlen (encodeBytes b)) by apply (encode_item_pos (Str b)).
  unfold enough in Hf. rewrite !zlen_app in Hs, Hf.
  destruct fuel as [|f]; [lia|]. rewrite decode_go_S. rewrite !zlen_app. z_tests.
  unfold encodeBytes in *. destruct (_ && _) eqn:E; to_prop.
  - destruct b as [|c b]; [done|]. rewrite zlen_cons in *.
    destruct b; [|rewrite zlen_cons in *; pose proof (zlen_nonneg b); lia].
    cbn [app nth] in *. rewrite byte_at_mid. z_tests. done.
  - rewrite zlen_app in *. rewrite <- !app_assoc.
    destruct (readLen_encodeLength (zlen b) 0x80 pre (b ++ post)) as (p & rest & Ep & Hpr & Er);
      [unfold is_u64; pose proof (zlen_nonneg (encodeLength (zlen b) 0x80)); lia|lia|
       rewrite !zlen_app; lia|].
    replace (byte_at _ _) with p by (rewrite Ep; symmetry; apply byte_at_mid). z_tests.
    rewrite Er. cbn [mbind res_bind]. rewrite u64_id by (unfold is_u64; lia). z_tests.
    rewrite (app_assoc pre), slice_mid by (by rewrite zlen_app). do 2 f_equal. lia.
Qed.

(** The loop over the items of a list. *)
Lemma decode_items_encode its pre post fuel :
  Forall decodes_to its -> Forall item_ok its ->
  let payload := concat (encode_item <$> its) in
  let inp := pre ++ payload ++ post in
  zlen inp < 2 ^ 64 -> 2 * (zlen inp - zlen pre) + 2 <= Z.of_nat fuel ->
  decode_items fuel inp (zlen pre) (zlen pre + zlen payload)
  = Ok (to_decoded <$> its, zlen pre + zlen payload).
Proof.
  revert pre fuel. induction its as [|it its IH]; intros pre fuel HD HO; cbn zeta; intros Hs Hf.
  - rewrite !zlen_app in Hf. pose proof (zlen_nonneg post).
    pose proof (zlen_nonneg (concat (encode_item <$> @nil item))).
    destruct fuel as [|f]; [lia|]. rewrite decode_items_S. cbn [fmap list_fmap concat].
    rewrite zlen_nil, Z.add_0_r, Z.ltb_irrefl. done.
  - apply Forall_cons_1 in HD as [HD HDs], HO as [HO HOs].
    rewrite fmap_cons in *. cbn [concat] in *. set (e := encode_item it) in *.
    set (r := concat (encode_item <$> its)) in *.
    pose proof (encode_item_pos it : 0 < zlen e). pose proof (zlen_nonneg r).
    pose proof (zlen_nonneg post). pose proof (zlen_nonneg pre).
    autorewrite with zlen in Hs, Hf.
    destruct fuel as [|f]; [lia|]. rewrite decode_items_S, zlen_app. z_tests.
    replace (pre ++ (e ++ r) ++ post) with (pre ++ e ++ (r ++ post)) by (by rewrite <- !app_assoc).
    unfold e. rewrite HD by (done || unfold enough; autorewrite with zlen; fold e; lia).
    cbn [mbind res_bind]. fold e.
    assert (R : decode_items f (pre ++ e ++ r ++ post) (zlen pre + zlen e) (zlen pre + (zlen e + zlen r))
                = Ok (to_decoded <$> its, zlen pre + (zlen e + zlen r))).
    { rewrite (app_assoc pre e), Z.add_assoc, <- (zlen_app pre e).
      apply IH; [done..| |]; autorewrite with zlen; lia. }
    rewrite R. done.
Qed.

Lemma decode_Lst l : Forall decodes_to l -> decodes_to (Lst l).
Proof.
  intros HD pre post fuel Hok Hs Hf. apply item_ok_Lst in Hok. cbn [encode_item to_decoded] in *.
  unfold encodeList in *. rewrite concat_parts_concat in *.
  set (payload := concat (encode_item <$> l)) in *.
  pose proof (zlen_nonneg pre). pose proof (zlen_nonneg post). pose proof (zlen_nonneg payload).
  unfold enough in Hf. autorewrite with zlen in Hs, Hf.
  pose proof (zlen_nonneg (encodeLength (zlen payload) 0xC0)).
  rewrite <- !app_assoc.
  destruct (readLen_encodeLength (zlen payload) 0xC0 pre (payload ++ post)) as (p & rest & Ep & Hpr & Er);
    [unfold is_u64; lia|lia|autorewrite with zlen; lia|].
  assert (Hlen : 1 <= zlen (encodeLength (zlen payload) 0xC0)).
  { rewrite Ep, zlen_cons. pose proof (zlen_nonneg rest). lia. }
  destruct fuel as [|f]; [lia|]. rewrite decode_go_S.
  replace (byte_at _ _) with p by (rewrite Ep; symmetry; apply byte_at_mid).
  cbn zeta. autorewrite with zlen. z_tests. rewrite Er. cbn [mbind res_bind].
  rewrite u64_id by (unfold is_u64; lia). z_tests.
  pose proof (decode_items_encode l (pre ++ encodeLength (zlen payload) 0xC0) post f HD Hok) as D.
  cbn zeta in D. fold payload in D.
  rewrite <- !app_assoc, !zlen_app in D. rewrite D by (autorewrite with zlen; lia).
  cbn [mbind res_bind]. do 2 f_equal. lia.
Qed.

Lemma decode_go_encode it : decodes_to it.
Proof. induction it using item_nested_ind; [apply decode_Str|by apply decode_Lst]. Qed.

Lemma decode_whole it :
  item_ok it -> zlen (encode_item it) < 2 ^ 64 -> decode (encode_item it) = Ok (to_decoded it).
Proof.
  intros O L. rewrite <- (app_nil_r (encode_item it)). unfold decode, decode_at.
  rewrite (decode_go_encode it [] [] _ O).
  - done.
  - cbn [app]. by rewrite app_nil_r.
  - unfold enough, decode_fuel, zlen. cbn [app length]. lia.
Qed.

Lemma to_decoded_inj it1 it2 : to_decoded it1 = to_decoded it2 -> it1 = it2.
Proof.
  revert it2. induction it1 as [b|l IH] using item_nested_ind; intros [b2|l2]; cbn; intros [= E];
    [by subst|]. f_equal. revert l2 E. induction IH as [|i l Hi _ IHl]; intros [|i2 l2] [=]; [done|].
  f_equal; auto.
Qed.

(** Unique decodability: an encoding is the beginning of no other one. *)
Lemma encode_item_prefix_free it1 it2 r1 r2 :
  item_ok it1 -> item_ok it2 -> zlen (encode_item it1 ++ r1) < 2 ^ 64 ->
  encode_item it1 ++ r1 = encode_item it2 ++ r2 -> it1 = it2 /\ r1 = r2.
Proof.
  intros O1 O2 L E.
  assert (D : forall it r, item_ok it -> encode_item it1 ++ r1 = encode_item it ++ r ->
    decode_go (decode_fuel (encode_item it1 ++ r1)) (encode_item it1 ++ r1) 0
    = Ok (to_decoded it, zlen (encode_item it))).
  { intros it r O Eq. rewrite Eq in L |- *. apply (decode_go_encode it [] r); [done..|].
    unfold enough, decode_fuel, zlen. cbn [app length]. lia. }
  pose proof (D it1 r1 O1 eq_refl) as D1. rewrite (D it2 r2 O2 E) in D1.
  injection D1 as Ei _. apply to_decoded_inj in Ei as ->.
  split; [done|]. by apply app_inv_head in E.
Qed.

Lemma encode_item_inj it1 it2 :
  item_ok it1 -> item_ok it2 -> zlen (encode_item it1) < 2 ^ 64 ->
  encode_item it1 = encode_item it2 -> it1 = it2.
Proof.
  intros O1 O2 L E. apply (encode_item_prefix_free it1 it2 [] []); rewrite ?app_nil_r; done.
Qed.

(** ** Progress, bounds and termination of the decoder *)

Lemma be_fold_range bs : bytes_ok bs -> is_u64 (be_fold bs).
Proof.
  induction bs as [|b bs IH] using rev_ind; intros H; [by split|].
  apply bytes_ok_app in H as [_ H]. apply bytes_ok_cons in H as [[Hb Hb'] _].
  unfold be_fold. rewrite foldl_app. cbn [foldl].
  apply (lor_bound _ _ 64); [lia|apply u64_range|lia].
Qed.

Lemma byte_at_ok inp i : bytes_ok inp -> is_u8 (byte_at inp i).
Proof.
  intros H. unfold byte_at. rewrite nth_lookup. destruct (inp !! _) as [b|] eqn:E; cbn; [|by split].
  by apply (Forall_lookup_1 _ _ _ _ H E).
Qed.

Lemma readLen_bounds inp offset prefix base len off :
  bytes_ok inp -> zlen inp < 2 ^ 63 -> 0 <= offset < zlen inp -> base <= prefix < base + 64 ->
  readLen inp offset prefix base = Ok (len, off) ->
  is_u64 len /\ offset < off <= zlen inp.
Proof.
  intros Hb Hs Ho Hp E. unfold readLen in E. res_inv; to_prop.
  - unfold is_u64. lia.
  - rewrite u64_id in * by (unfold is_u64; lia). split; [|lia].
    apply be_fold_range. unfold slice. auto with gambit.
Qed.

Lemma readLen_returns inp offset prefix base :
  (exists r, readLen inp offset prefix base = Ok r) \/ exists w, readLen inp offset prefix base = Throw w.
Proof. unfold readLen. repeat case_match; eauto. Qed.

Definition good_end {A} (lo hi : Z) (r : res (A * Z)) : Prop :=
  match r with
  | Ok (_, off) => lo <= off <= hi
  | OutOfFuel => False
  | _ => True
  end.

Lemma decode_bounds inp (Hb : bytes_ok inp) (Hs : zlen inp < 2 ^ 63) fuel :
  (forall offset, 0 <= offset <= zlen inp -> enough fuel inp offset ->
     good_end (offset + 1) (zlen inp) (decode_go fuel inp offset)) /\
  (forall offset end_, 0 <= offset <= zlen inp ->
     2 * (zlen inp - offset) + 2 <= Z.of_nat fuel ->
     good_end offset (zlen inp) (decode_items fuel inp offset end_)).
Proof.
  induction fuel as [|f [IHg IHi]]; [split; intros; unfold enough in *; lia|]. split.
  - intros offset Ho Hf. unfold enough in Hf. rewrite decode_go_S. cbn zeta.
    destruct (offset >=? zlen inp) eqn:E1; [done|]. to_prop.
    pose proof (byte_at_ok inp offset Hb) as Hp.
    set (p := byte_at inp offset) in *. unfold is_u8 in Hp.
    destruct (p <? 0x80) eqn:E2; [cbn; lia|]. to_prop.
    destruct (p <? 0xC0) eqn:E3; to_prop.
    + destruct (readLen_returns inp offset p 0x80) as [[[len off] Er]|[w Er]]; rewrite Er; [|done].
      apply readLen_bounds in Er as [Hl Hoff]; [|done|done|lia|lia]. cbn [mbind res_bind].
      destruct (_ >? _); [done|]. destruct (_ >? _) eqn:E4; [done|]. to_prop.
      unfold is_u64 in Hl. cbn. lia.
    + destruct (readLen_returns inp offset p 0xC0) as [[[len off] Er]|[w Er]]; rewrite Er; [|done].
      apply readLen_bounds in Er as [Hl Hoff]; [|done|done|lia|lia]. cbn [mbind res_bind].
      destruct (_ >? _); [done|]. specialize (IHi off (u64 (off + len)) ltac:(lia) ltac:(lia)).
      destruct (decode_items _ _ _ _) as [[items off']| | |]; cbn in *; [lia|done..].
  - intros offset end_ Ho Hf. rewrite decode_items_S.
    destruct (offset <? end_); [|cbn; lia].
    specialize (IHg offset Ho ltac:(unfold enough; lia)).
    destruct (decode_go _ _ _) as [[d off]| | |]; cbn in *; [|done..].
    specialize (IHi off end_ ltac:(lia) ltac:(lia)).
    destruct (decode_items _ _ _ _) as [[items off']| | |]; cbn in *; [lia|done..].
Qed.

Lemma decode_stops inp : bytes_ok inp -> zlen inp < 2 ^ 63 -> decode inp <> OutOfFuel.
Proof.
  intros Hb Hs E. unfold decode, decode_at in E. pose proof (zlen_nonneg inp).
  destruct (decode_bounds inp Hb Hs (decode_fuel inp)) as [D _].
  specialize (D 0 ltac:(lia) ltac:(unfold enough, decode_fuel, zlen in *; lia)).
  by destruct (decode_go _ _ _) as [[d off]| | |].
Qed.

(** Every byte string of a decoded tree consists of bytes of the input. *)
Fixpoint decoded_ok (d : Decoded) : Prop :=
  match d with
  | mkDecoded _ b l => bytes_ok b /\ fold_right (fun d P => decoded_ok d /\ P) True l
  end.

Lemma decoded_ok_list d : decoded_ok d -> bytes_ok (d_bytes d) /\ Forall decoded_ok (d_list d).
Proof.
  destruct d as [il b l]. cbn. intros [B L]. split; [done|]. induction l as [|x l IH]; [constructor|].
  destruct L as [X L]. constructor; auto.
Qed.

Lemma decode_go_ok inp fuel (Hb : bytes_ok inp) :
  (forall offset d off, decode_go fuel inp offset = Ok (d, off) -> decoded_ok d) /\
  (forall offset end_ ds off, decode_items fuel inp offset end_ = Ok (ds, off) ->
     fold_right (fun d P => decoded_ok d /\ P) True ds).
Proof.
  induction fuel as [|f [IHg IHi]]; [by split|]. split.
  - intros offset d off H. rewrite decode_go_S in H. cbn zeta in H.
    destruct (offset >=? zlen inp); [done|]. destruct (_ <? 0x80).
    { injection H as <- _. split; [|done]. constructor; [by apply byte_at_ok|constructor]. }
    destruct (_ <? 0xC0); apply bind_Ok in H as ([len o] & _ & H).
    + destruct (_ >? _); [done|]. destruct (_ >? _); [done|]. injection H as <- _.
      split; [|done]. by apply bytes_ok_take, bytes_ok_drop.
    + destruct (_ >? _); [done|]. apply bind_Ok in H as ([items o'] & E & H). injection H as <- _.
      split; [constructor|]. by apply IHi in E.
  - intros offset end_ ds off H. rewrite decode_items_S in H. destruct (offset <? end_).
    + apply bind_Ok in H as ([d o] & Ed & H). apply bind_Ok in H as ([items o'] & Ei & H).
      injection H as <- _. cbn. split; [by apply IHg in Ed|by apply IHi in Ei].
    + by injection H as <- _.
Qed.

Lemma decode_bytes inp d : bytes_ok inp -> decode inp = Ok d -> decoded_ok d.
Proof.
  intros B H. unfold decode, decode_at in H. apply fmap_Ok in H as ([d' off] & E & ->).
  by apply (decode_go_ok inp _ B) in E.
Qed.

(** ** Properties *)

(** C20: round trip. [decode] reads any tree of byte strings and lists back
    from its encoding by [encodeBytes]/[encodeList], whatever bytes follow
    it, as long as the buffer's size fits a [size_t]. *)
Theorem decode_encode (it : item) (rest : Bytes) :
  item_ok it -> zlen (encode_item it ++ rest) < 2 ^ 64 ->
  decode (encode_item it ++ rest) = Ok (to_decoded it).
Proof.
  intros O L. unfold decode, decode_at.
  assert (E : decode_go (decode_fuel (encode_item it ++ rest)) (encode_item it ++ rest) 0
              = Ok (to_decoded it, zlen (encode_item it))).
  { apply (decode_go_encode it [] rest); [done..|].
    unfold enough, decode_fuel, zlen. cbn [app length]. lia. }
  by rewrite E.
Qed.

Lemma decode_encode_witness :
  decode (encode_item (Lst [Str (str "cat"); Lst []; Str (replicate 60 7)]) ++ [1; 2])
  = Ok (to_decoded (Lst [Str (str "cat"); Lst []; Str (replicate 60 7)])).
Proof.
  apply decode_encode; [|by vm_compute]. cbn [item_ok foldr].
  repeat split; by apply (bool_decide_unpack _).
Defined.

(** C21: termination and progress. On every buffer below 2^63 bytes and from
    every offset the decoder stops, and a successful call has consumed at
    least one byte and left the offset inside the buffer. *)
Theorem decode_progress (inp : Bytes) (offset : Z) :
  bytes_ok inp -> zlen inp < 2 ^ 63 -> 0 <= offset ->
  match decode_at inp offset with
  | Ok (_, offset') => offset < offset' <= zlen inp
  | OutOfFuel => False
  | Throw _ | UB => True
  end.
Proof.
  intros Hb Hs Ho. destruct (Z.le_gt_cases offset (zlen inp)) as [Hle|Hgt].
  - destruct (decode_bounds inp Hb Hs (decode_fuel inp)) as [D _].
    specialize (D offset ltac:(lia)). unfold enough, decode_fuel in D. unfold decode_at, decode_fuel.
    specialize (D ltac:(unfold zlen; lia)).
    destruct (decode_go _ _ _) as [[d off]| | |]; cbn in *; [lia|done..].
  - unfold decode_at, decode_fuel. rewrite Nat.add_comm.
    change (2 + 2 * length inp)%nat with (S (S (2 * length inp))). rewrite decode_go_S. by z_tests.
Qed.

Lemma decode_progress_witness :
  match decode_at [0xC2; 0x81; 0x05; 0x80] 0 with
  | Ok (_, offset') => 0 < offset' <= zlen [0xC2; 0x81; 0x05; 0x80]
  | OutOfFuel => False
  | Throw _ | UB => True
  end.
Proof. apply decode_progress; [by apply (bool_decide_unpack _)|by vm_compute|lia]. Defined.

(** A string with an eight-byte length, for every length: below 2^64 - 9 the
    check does its work, from there on [offset + len] wraps around and
    passes it. *)
Lemma decode_long_string len8 rest :
  length len8 = 8%nat -> bytes_ok len8 -> zlen rest < 2 ^ 62 ->
  decode (0xBF :: len8 ++ rest) =
  if 2 ^ 64 - 9 <=? be_val len8 then UB
  else if zlen rest <? be_val len8 then Throw "RLP string overflow"
  else Ok (mkDecoded false (take (Z.to_nat (be_val len8)) rest) []).
Proof.
  intros L B Hr. set (inp := 0xBF :: len8 ++ rest).
  assert (Z9 : zlen inp = 9 + zlen rest) by (unfold inp, zlen; cbn [length]; rewrite length_app, L; lia).
  pose proof (zlen_nonneg rest) as Hr0.
  assert (V : 0 <= be_val len8 < 2 ^ 64).
  { pose proof (be_val_bound len8 B) as V. unfold zlen in V. by rewrite L in V. }
  unfold decode, decode_at. destruct (decode_fuel inp) as [|f] eqn:Ef; [by destruct inp|].
  rewrite decode_go_S. change (byte_at inp 0) with 0xBF. rewrite Z9.
  replace (0 >=? 9 + zlen rest) with false by (symmetry; rewrite Z.geb_leb; apply Z.leb_gt; lia).
  change (0xBF <? 0x80) with false. change (0xBF <? 0xC0) with true. cbn match.
  unfold readLen. change (0xBF - 0x80 <=? 55) with false. cbn match. cbv zeta.
  change (0 + 1 + (0xBF - 0x80 - 55)) with 9. rewrite Z9. change (u64 9) with 9.
  replace (9 >? 9 + zlen rest) with false by (symmetry; rewrite Z.gtb_ltb; apply Z.ltb_ge; lia).
  assert (Es : slice inp (0 + 1) (0xBF - 0x80 - 55) = len8).
  { change (take 8 (len8 ++ rest) = len8). by apply take_app_length'. }
  rewrite Es, be_fold_val by (done || (unfold zlen; rewrite L; lia)). cbn [mbind res_bind].
  change (0 + 1 + (0xBF - 0x80 - 55)) with 9.
  destruct (Z.leb_spec (2 ^ 64 - 9) (be_val len8)) as [W|W].
  - assert (Eu : u64 (9 + be_val len8) = 9 + be_val len8 - 2 ^ 64).
    { unfold u64. symmetry. apply (Z.mod_unique _ _ 1); lia. }
    rewrite Eu. replace (_ >? _) with false by (symmetry; rewrite Z.gtb_ltb; apply Z.ltb_ge; lia).
    replace (9 + be_val len8 >? 9 + zlen rest) with true by (symmetry; rewrite Z.gtb_ltb; apply Z.ltb_lt; lia). done.
  - rewrite (u64_id (9 + be_val len8)) by (unfold is_u64; lia).
    destruct (Z.ltb_spec (zlen rest) (be_val len8)) as [G|G].
    + replace (_ >? _) with true by (symmetry; rewrite Z.gtb_ltb; apply Z.ltb_lt; lia). done.
    + replace (_ >? _) with false by (symmetry; rewrite Z.gtb_ltb; apply Z.ltb_ge; lia).
      cbn. do 2 f_equal. change (slice inp 9 (be_val len8)) with (take (Z.to_nat (be_val len8)) (drop 8 (len8 ++ rest))).
      by rewrite drop_app_length'.
Qed.

(** The overflow checks of the decoder add in [size_t] and wrap: the
    nine-byte list header with length 2^64-1 is accepted as an empty list,
    and the string header with the same length passes the check
    [offset + len > in.size()] and builds a vector from a range that ends
    before it starts, which is undefined behaviour. *)
Theorem decode_length_wraps :
  decode (0xFF :: replicate 8 0xFF) = Ok (to_decoded (Lst [])) /\
  decode (0xBF :: replicate 8 0xFF) = UB.
Proof. split; by vm_compute. Qed.
