(* ===== verification/Address.v ===== *)
(** * Addresses (src/src/address.cpp, src/include/gambit/address.hpp)

    20-byte addresses, their hexadecimal forms (plain lower case, used as
    the key of the state map, and the EIP-55 checksum form) and their
    derivation from a public key. *)

From stdpp Require Import base list numbers strings.
From Stdlib Require Import ZArith Lia.
From S2P Require Import Prelude Keccak Hash.

#[local] Open Scope Z_scope.

(** address.hpp 11. *)
Definition kSize : nat := 20.

(** address.hpp 9-31: the class has one member, [bytes_]. The constructor
    from an array (address.cpp 12) is [mkAddress]. *)
Record Address : Type := mkAddress { bytes_ : Bytes }.

#[export] Instance Address_eq_dec : EqDecision Address.
Proof. solve_decision. Defined.

(** The class invariant: an array of [kSize] bytes. *)
Definition addr_ok (a : Address) : Prop := length (bytes_ a) = kSize /\ bytes_ok (bytes_ a).

#[export] Instance addr_ok_dec a : Decision (addr_ok a).
Proof. unfold addr_ok. apply _. Defined.

(** [Address()], address.cpp 10. *)
Definition zero : Address := mkAddress (replicate kSize 0).

(** address.cpp 14-21. *)
Definition fromBytes (bytes : Bytes) : res Address :=
  if negb (zlen bytes =? Z.of_nat kSize) then Throw "Address::fromBytes: must be 20 bytes"
  else Ok (mkAddress bytes).

(** address.cpp 23-26. *)
Definition fromHex (hex : std_string) : res Address :=
  raw ← Hash.fromHex hex;
  fromBytes raw.

(** address.cpp 28-49. *)
Definition fromPublicKey (pubKey : Bytes) : res Address :=
  let key := if (zlen pubKey =? 65) && (nth 0 pubKey 0 =? 0x04) then drop 1 pubKey else pubKey in
  if negb (zlen key =? 64) then
    Throw "Address::fromPublicKey: expected 64-byte uncompressed key"
  else
    let hash := keccak256 key in
    if zlen hash <? Z.of_nat kSize then Throw "Address::fromPublicKey: hash too short"
    else Ok (mkAddress (drop (length hash - kSize) hash)).

(** [std::toupper] in the "C" locale. *)
Definition toupper (c : Z) : Z := if (97 <=? c) && (c <=? 122) then c - 32 else c.

(** The body of the loop of address.cpp 67-82: the character to append. *)
Definition checksum_char (c h : Z) : Z :=
  if (48 <=? c) && (c <=? 57) then c
  else
    let nibble := if (48 <=? h) && (h <=? 57) then h - 48 else 10 + (h - 97) in
    if nibble >=? 8 then toupper c else c.

(** address.cpp 51-85. *)
Definition toChecksumHex (raw : Bytes) : std_string :=
  let hex := foldl (fun hex b => hex ++ put_hex2 b) [] raw in
  let hash := keccak256 hex in
  let hashHex := Hash.toHex hash in
  for_range (length hex) (fun out i => out ++ [checksum_char (nth i hex 0) (nth i hashHex 0)])
    (str "0x").

(** address.cpp 87-92. *)
Definition toHex (checksum : bool) (a : Address) : std_string :=
  if negb checksum then str "0x" ++ Hash.toHex (bytes_ a)
  else toChecksumHex (bytes_ a).

(** address.cpp 94-99. *)
Definition isZero (a : Address) : bool := forallb (fun b => b =? 0) (bytes_ a).

(** address.cpp 101-103. *)
Definition eqb (a other : Address) : bool := bool_decide (bytes_ a = bytes_ other).

(** ** Lemmas *)

Lemma zero_ok : addr_ok zero.
Proof. by apply (bool_decide_unpack _). Qed.

Lemma fromBytes_ok bytes : bytes_ok bytes -> length bytes = kSize -> fromBytes bytes = Ok (mkAddress bytes).
Proof. intros H L. unfold fromBytes, zlen. rewrite L. done. Qed.

Lemma fromBytes_inv bytes a : fromBytes bytes = Ok a -> a = mkAddress bytes /\ length bytes = kSize.
Proof.
  unfold fromBytes. intros H. res_inv; to_prop. unfold zlen, kSize in *. split; [done|lia].
Qed.

Lemma eqb_eq a b : eqb a b = true <-> a = b.
Proof.
  unfold eqb. rewrite bool_decide_eq_true. split; [|by intros ->].
  destruct a, b; cbn. by intros ->.
Qed.

Lemma isZero_zero a : addr_ok a -> isZero a = true <-> a = zero.
Proof.
  intros [L _]. split; [|by intros ->]. unfold isZero. rewrite List.forallb_forall. intros H.
  destruct a as [bs]. cbn in *. unfold zero. f_equal. rewrite <- L.
  symmetry. apply replicate_as_elem_of. split; [done|]. intros b Hb. apply list_elem_of_In, H in Hb. by to_prop.
Qed.

Lemma keccak256_addr key : addr_ok (mkAddress (drop (length (keccak256 key) - kSize) (keccak256 key))).
Proof.
  split; cbn [bytes_]; [|auto with gambit]. rewrite length_drop, keccak256_length. done.
Qed.

Lemma fromPublicKey_64 key :
  length key = 64%nat -> fromPublicKey key = Ok (mkAddress (drop 12 (keccak256 key))).
Proof.
  intros L. unfold fromPublicKey. replace (zlen key =? 65) with false by (unfold zlen; rewrite L; done).
  cbn [andb]. unfold zlen. rewrite L, keccak256_length. done.
Qed.

Lemma fromPublicKey_ok key a : fromPublicKey key = Ok a -> addr_ok a.
Proof.
  unfold fromPublicKey. intros H. res_inv; apply keccak256_addr.
Qed.

(** The checksum form differs from the plain form in the case of letters. *)
Lemma checksum_loop n hex hashHex out :
  n = length hex ->
  for_range n (fun out i => out ++ [checksum_char (nth i hex 0) (nth i hashHex 0)]) out
  = out ++ ((fun i => checksum_char (nth i hex 0) (nth i hashHex 0)) <$> seq 0 n).
Proof.
  intros _. induction n as [|n IH]; [by rewrite app_nil_r|].
  unfold for_range in *. rewrite seq_S, foldl_app, IH, fmap_app. cbn. by rewrite app_assoc.
Qed.

Lemma checksum_char_lower c h :
  48 <= c <= 57 \/ 97 <= c <= 102 -> to_lower (checksum_char c h) = c.
Proof.
  intros Hc. unfold checksum_char, toupper, to_lower.
  destruct ((48 <=? c) && (c <=? 57)) eqn:E; to_prop.
  { replace (65 <=? c) with false by (symmetry; apply Z.leb_gt; lia). done. }
  assert (97 <= c <= 102) by (destruct Hc; [|done]; exfalso; cbn in E; revert E; z_tests; done).
  match goal with |- context [if ?b then _ else c] => destruct b end.
  - z_tests. cbn [andb]. z_tests. cbn [andb]. lia.
  - replace (c <=? 90) with false by (symmetry; apply Z.leb_gt; lia). by rewrite andb_false_r.
Qed.

Lemma toChecksumHex_lower raw :
  bytes_ok raw -> exists s, toChecksumHex raw = str "0x" ++ s /\ to_lower <$> s = Hash.toHex raw.
Proof.
  intros H. unfold toChecksumHex. rewrite checksum_loop by done. eexists. split; [reflexivity|].
  fold (Hash.toHex raw). pose proof (toHex_chars raw H) as F.
  apply list_eq_same_length with (n := length (Hash.toHex raw)); [done|by rewrite !length_fmap, length_seq|].
  intros i c1 c2 Hi E1 E2.
  rewrite !list_lookup_fmap, lookup_seq_lt in E1 by done. cbn in E1. injection E1 as <-.
  rewrite (nth_lookup_Some _ _ _ c2) by done. apply checksum_char_lower.
  exact (Forall_lookup_1 _ _ _ _ F E2).
Qed.

(** Both spellings read back. *)
Lemma fromHex_any (a : Address) (checksum : bool) :
  addr_ok a -> fromHex (toHex checksum a) = Ok a.
Proof.
  intros [L H]. unfold fromHex, toHex. destruct a as [bs]. cbn [bytes_] in *.
  assert (E : Hash.fromHex (if negb checksum then str "0x" ++ Hash.toHex bs else toChecksumHex bs) = Ok bs).
  { destruct checksum; cbn [negb]; [|by apply fromHex_0x_toHex].
    destruct (toChecksumHex_lower bs H) as (s & -> & E).
    apply fromHex_complete; [done|]. by rewrite strip0x_prefixed. }
  rewrite E. cbn [mbind res_bind]. by apply fromBytes_ok.
Qed.

(** Both hexadecimal forms of an address, the plain one that keys the
    state map and the EIP-55 checksum form shown to users, are read back to
    the same address by [fromHex]. *)
Theorem address_hex_roundtrip (a : Address) (checksum : bool) :
  addr_ok a -> fromHex (toHex checksum a) = Ok a.
Proof. apply fromHex_any. Qed.

Lemma address_hex_roundtrip_witness :
  fromHex (toHex true (mkAddress (replicate 20 0xab))) = Ok (mkAddress (replicate 20 0xab)).
Proof. apply address_hex_roundtrip. by apply (bool_decide_unpack _). Defined.

(** The plain form is injective, so the state map has one entry per address. *)
Lemma toHex_plain_inj a b :
  addr_ok a -> addr_ok b -> toHex false a = toHex false b -> a = b.
Proof.
  intros [_ Ha] [_ Hb] E. destruct a as [x], b as [y]. cbn in *. f_equal.
  injection E as E. by apply Hash.toHex_inj.
Qed.

Lemma fromHex_plain a : addr_ok a -> Hash.fromHex (toHex false a) = Ok (bytes_ a).
Proof. intros [_ H]. apply fromHex_0x_toHex. done. Qed.

#[export] Hint Resolve zero_ok : gambit.

(** Known answer: the checksum form of the well-known development address. *)
Example checksum_form :
  toHex true (mkAddress [0xf3; 0x9f; 0xd6; 0xe5; 0x1a; 0xad; 0x88; 0xf6; 0xf4; 0xce;
                         0x6a; 0xb8; 0x82; 0x72; 0x79; 0xcf; 0xff; 0xb9; 0x22; 0x66])
  = str "0xf39Fd6e51aad88F6F4ce6aB8827279cffFb92266".
Proof. by vm_compute. Qed.
