(* ===== verification/Mpt.v ===== *)
(** * The Merkle trie (src/src/mpt.cpp, src/include/gambit/mpt.hpp)

    A 16-way trie over the nibbles of a key, with an optional value in every
    node, and the hash of its (fully embedded) RLP encoding. The nodes are
    reached only from [root_], so the [shared_ptr] graph is a tree and a
    path update in place is the functional update of that tree. *)

From stdpp Require Import base list gmap numbers strings.
From Stdlib Require Import ZArith Lia Permutation.
From S2P Require Import Prelude Keccak Hash Rlp.

#[local] Open Scope Z_scope.

(** mpt.hpp 31-35: [std::array<NodePtr, 16>] (a null pointer is [None]) and
    [std::optional<Bytes>]. *)
#[warnings="-register-all"]
Inductive node : Type :=
| Node (children : list (option node)) (value : option Bytes).

Definition children (n : node) : list (option node) := let 'Node c _ := n in c.
Definition value (n : node) : option Bytes := let 'Node _ v := n in v.

(** [std::make_shared<Node>()]; also [MptTrie()], mpt.cpp 5-6. *)
Definition empty_node : node := Node (replicate 16 None) None.

(** mpt.cpp 8-16. *)
Definition toNibbles (key : Bytes) : list Z :=
  foldl (fun out b => out ++ [Z.land (Z.shiftr b 4) 0x0F; Z.land b 0x0F]) [] key.

(** mpt.cpp 34-37: [node->children[nib]], null when absent. *)
Definition child (n : node) (nib : Z) : option node :=
  match children n !! Z.to_nat nib with Some c => c | None => None end.

(** The loop of [put], mpt.cpp 20-27, from [node] down. *)
Fixpoint put_path (n : node) (nibbles : list Z) (v : Bytes) : node :=
  match nibbles with
  | [] => Node (children n) (Some v)
  | nib :: rest =>
      let c := match child n nib with Some c => c | None => empty_node end in
      Node (<[Z.to_nat nib := Some (put_path c rest v)]> (children n)) (value n)
  end.

(** mpt.cpp 18-28. *)
Definition put (root : node) (key v : Bytes) : node := put_path root (toNibbles key) v.

(** The loop of [get], mpt.cpp 32-40. *)
Fixpoint get_path (n : node) (nibbles : list Z) : option Bytes :=
  match nibbles with
  | [] => value n
  | nib :: rest => match child n nib with Some c => get_path c rest | None => None end
  end.

(** mpt.cpp 30-41. *)
Definition get (root : node) (key : Bytes) : option Bytes := get_path root (toNibbles key).

(** mpt.cpp 43-49. *)
Definition encodeNodeValue (v : option Bytes) : Bytes :=
  match v with
  | None => encodeBytes []
  | Some b => encodeBytes b
  end.

(** mpt.cpp 51-69. *)
Fixpoint encodeNode (n : node) : Bytes :=
  match n with
  | Node ch v =>
      encodeList
        (((fun c => match c with
                    | None => encodeBytes []
                    | Some c => encodeBytes (encodeNode c)
                    end) <$> ch)
         ++ [encodeNodeValue v])
  end.

(** mpt.cpp 71-75. *)
Definition rootHash (root : node) : std_string :=
  str "0x" ++ Hash.toHex (keccak256 (encodeNode root)).

(** [for ((key, value) : entries) trie.put(key, value)] on a new trie. *)
Definition build (entries : list (Bytes * Bytes)) : node :=
  foldl (fun t e => put t e.1 e.2) empty_node entries.

(** ** Well-formed tries

    Every node has its 16 slots, and the stored values satisfy [P]. *)

Inductive wf_with (P : Bytes -> Prop) : node -> Prop :=
| wf_Node ch v :
    length ch = 16%nat ->
    (forall i c, ch !! i = Some (Some c) -> wf_with P c) ->
    (forall b, v = Some b -> P b) ->
    wf_with P (Node ch v).

Arguments wf_Node {P}.

(** The tries that the encoding tells apart: no stored value is the empty
    string, which is encoded like an absent value. *)
Abbreviation wf := (wf_with (fun b => bytes_ok b /\ b <> [])).

Section Shape.
Context {P : Bytes -> Prop}.

Definition nib_ok (nib : Z) : Prop := 0 <= nib < 16.

Lemma toNibbles_acc out key :
  foldl (fun out b => out ++ [Z.land (Z.shiftr b 4) 0x0F; Z.land b 0x0F]) out key
  = out ++ toNibbles key.
Proof.
  unfold toNibbles. revert out. induction key as [|b key IH]; intros out; cbn [foldl].
  - by rewrite app_nil_r.
  - rewrite IH, (IH ([] ++ _)). by rewrite <- app_assoc.
Qed.

Lemma toNibbles_cons b key :
  is_u8 b -> toNibbles (b :: key) = b / 16 :: b mod 16 :: toNibbles key.
Proof.
  intros H. unfold toNibbles at 1. cbn [foldl]. rewrite toNibbles_acc. cbn [app].
  rewrite !land_15, shiftr_4. destruct (byte_nibbles b H). by rewrite (Z.mod_small (b / 16)).
Qed.

Lemma toNibbles_ok key : bytes_ok key -> Forall nib_ok (toNibbles key).
Proof.
  induction key as [|b key IH]; intros H; [constructor|]. apply bytes_ok_cons in H as [Hb H].
  rewrite toNibbles_cons by done. destruct (byte_nibbles b Hb). constructor; [done|]. constructor; auto.
Qed.

Lemma toNibbles_inj k1 k2 : bytes_ok k1 -> bytes_ok k2 -> toNibbles k1 = toNibbles k2 -> k1 = k2.
Proof.
  revert k2. induction k1 as [|a k1 IH]; intros [|b k2] H1 H2 E; [done|..].
  - apply bytes_ok_cons in H2 as [? _]. by rewrite toNibbles_cons in E.
  - apply bytes_ok_cons in H1 as [? _]. by rewrite toNibbles_cons in E.
  - apply bytes_ok_cons in H1 as [Ha H1], H2 as [Hb H2].
    rewrite !toNibbles_cons in E by done. injection E as E1 E2 E3. f_equal; [|auto].
    rewrite (Z.div_mod a 16), (Z.div_mod b 16), E1, E2 by lia. done.
Qed.

(** ** Lookup after update *)

Lemma child_put n nib nib' c v :
  length (children n) = 16%nat -> nib_ok nib -> nib_ok nib' ->
  child (Node (<[Z.to_nat nib := Some c]> (children n)) v) nib'
  = if decide (nib = nib') then Some c else child n nib'.
Proof.
  intros L H H'. unfold child, nib_ok in *. cbn [children]. case_decide as E.
  - subst. rewrite list_lookup_insert_eq by lia. done.
  - rewrite list_lookup_insert_ne by lia. done.
Qed.

Lemma empty_wf : wf_with P empty_node.
Proof.
  constructor; [done| |done]. intros i c E. apply lookup_replicate in E as [E _]. discriminate.
Qed.

Lemma child_wf n nib c : wf_with P n -> child n nib = Some c -> wf_with P c.
Proof.
  intros W E. inversion W as [ch v L H _]; subst. unfold child in E. cbn [children] in E.
  destruct (ch !! Z.to_nat nib) as [[c'|]|] eqn:E'; [|done..]. injection E as ->. eauto.
Qed.

Lemma wf_slots n : wf_with P n -> length (children n) = 16%nat.
Proof. by intros []. Qed.

Lemma next_wf n nib : wf_with P n -> wf_with P (match child n nib with Some c => c | None => empty_node end).
Proof.
  intros W. destruct (child n nib) as [c|] eqn:E; [by eapply child_wf|apply empty_wf].
Qed.

Lemma put_path_wf n p v : wf_with P n -> P v -> wf_with P (put_path n p v).
Proof.
  revert n. induction p as [|nib p IH]; intros n W Hv; cbn [put_path].
  - destruct W as [ch w L H _]. constructor; [done..|]. by intros b [= <-].
  - pose proof (IH _ (next_wf n nib W) Hv) as Wc. destruct W as [ch w L H Hw].
    cbn [children value] in *. constructor; [by rewrite length_insert| |done].
    intros i c E. destruct (decide (i = Z.to_nat nib)) as [->|Ni].
    + apply list_lookup_insert_Some in E as [(_ & [= <-] & _)|(? & _)]; [done|congruence].
    + rewrite list_lookup_insert_ne in E by done. eauto.
Qed.

Lemma get_path_empty p : get_path empty_node p = None.
Proof.
  destruct p as [|nib p]; [done|]. cbn [get_path]. unfold child, empty_node. cbn [children].
  destruct (replicate 16 None !! Z.to_nat nib) as [c|] eqn:E; [|done].
  by apply lookup_replicate in E as [-> _].
Qed.

Lemma get_path_next n nib p :
  get_path (match child n nib with Some c => c | None => empty_node end) p = get_path n (nib :: p).
Proof. cbn [get_path]. destruct (child n nib); [done|apply get_path_empty]. Qed.

Lemma get_put_path n p q v :
  wf_with P n -> Forall nib_ok p -> Forall nib_ok q ->
  get_path (put_path n p v) q = if decide (p = q) then Some v else get_path n q.
Proof.
  revert n q. induction p as [|nib p IH]; intros n q W Hp Hq.
  - destruct q as [|nib' q]; cbn [put_path get_path]; [done|].
    case_decide; [done|]. done.
  - apply Forall_cons_1 in Hp as [Hn Hp]. destruct q as [|nib' q]; cbn [put_path].
    + case_decide; [done|]. by destruct n.
    + apply Forall_cons_1 in Hq as [Hn' Hq]. cbn [get_path].
      rewrite child_put by (done || by apply wf_slots).
      destruct (decide (nib = nib')) as [->|Ne].
      * rewrite IH, get_path_next by (done || by apply next_wf). cbn [get_path].
        destruct (decide (p = q)) as [->|]; [by rewrite decide_True|].
        rewrite decide_False by congruence. done.
      * rewrite decide_False by congruence. done.
Qed.

(** ** Independence of the insertion order *)

Lemma put_path_comm n p q v w :
  wf_with P n -> Forall nib_ok p -> Forall nib_ok q -> p <> q ->
  put_path (put_path n p v) q w = put_path (put_path n q w) p v.
Proof.
  revert n q. induction p as [|i p IH]; intros n q W Hp Hq Ne.
  { destruct q as [|j q]; [done|]. by destruct n. }
  destruct q as [|j q]; [by destruct n|].
  apply Forall_cons_1 in Hp as [Hi Hp], Hq as [Hj Hq].
  pose proof (wf_slots n W) as L. cbn [put_path].
  rewrite !child_put by done. cbn [children value].
  destruct (decide (i = j)) as [->|Nij].
  - rewrite decide_True by done. rewrite !list_insert_insert_eq.
    rewrite IH; [done|by apply next_wf|done..|congruence].
  - rewrite decide_False by congruence. f_equal.
    apply list_insert_insert_ne. unfold nib_ok in *. lia.
Qed.

Lemma put_comm t k1 k2 v1 v2 :
  wf_with P t -> bytes_ok k1 -> bytes_ok k2 -> k1 <> k2 ->
  put (put t k1 v1) k2 v2 = put (put t k2 v2) k1 v1.
Proof.
  intros W H1 H2 N. apply put_path_comm; [done|by apply toNibbles_ok..|].
  intros E. by apply toNibbles_inj in E.
Qed.

Lemma put_path_twice n p v w : wf_with P n -> Forall nib_ok p -> put_path (put_path n p v) p w = put_path n p w.
Proof.
  revert n. induction p as [|i p IH]; intros n W Hp; [by destruct n|].
  apply Forall_cons_1 in Hp as [Hi Hp]. pose proof (wf_slots n W) as L. cbn [put_path].
  rewrite child_put by done. rewrite decide_True by done. cbn [children value].
  rewrite list_insert_insert_eq, IH by (done || by apply next_wf). done.
Qed.

End Shape.

(** Entries with non-empty values, as the program stores them. *)
Definition entry_ok (e : Bytes * Bytes) : Prop := bytes_ok e.1 /\ bytes_ok e.2 /\ e.2 <> [].

Definition put_all (t : node) (es : list (Bytes * Bytes)) : node :=
  foldl (fun t e => put t e.1 e.2) t es.

Lemma put_all_wf es t : wf t -> Forall entry_ok es -> wf (put_all t es).
Proof.
  revert t. induction es as [|e es IH]; intros t W H; [done|].
  apply Forall_cons_1 in H as [(Hk & Hv & Hn) H]. apply IH; [|done]. by apply put_path_wf.
Qed.

Lemma build_wf es : Forall entry_ok es -> wf (build es).
Proof. apply put_all_wf, empty_wf. Qed.

Lemma put_all_perm es1 es2 t :
  Permutation es1 es2 -> NoDup es1.*1 -> Forall entry_ok es1 -> wf t ->
  put_all t es1 = put_all t es2.
Proof.
  intros P. revert t. induction P as [|e es1 es2 P IH|e1 e2 es|es1 es2 es3 P1 IH1 P2 IH2];
    intros t ND H W.
  - done.
  - apply NoDup_cons in ND as [_ ND]. apply Forall_cons_1 in H as [(Hk & Hv & Hn) H].
    apply IH; [done..|]. by apply put_path_wf.
  - cbn [put_all foldl]. f_equal. rewrite !fmap_cons in ND. apply NoDup_cons in ND as [Nin _].
    apply Forall_cons_1 in H as [(Hk1 & _) H]. apply Forall_cons_1 in H as [(Hk2 & _) _].
    eapply put_comm; [exact W|done..|]. set_solver.
  - rewrite IH1 by done. apply IH2; [by rewrite <- P1|by rewrite <- P1|done].
Qed.

(** An entry that a later one overwrites leaves no trace. *)
Lemma put_all_overwritten es t k v :
  wf t -> entry_ok (k, v) -> Forall entry_ok es -> k ∈ es.*1 -> put_all (put t k v) es = put_all t es.
Proof.
  intros W (Hk & Hv & Hn) H. revert t W. induction H as [|[k' v'] es (Hk' & Hv' & Hn') _ IH]; intros t W Hin.
  { by apply elem_of_nil in Hin. }
  cbn [put_all foldl fst snd fmap list_fmap] in *. destruct (decide (k' = k)) as [->|N].
  - unfold put at 2. unfold put at 2. rewrite put_path_twice by (done || by apply toNibbles_ok). done.
  - rewrite put_comm by done. apply IH; [by apply put_path_wf|].
    apply elem_of_cons in Hin as [->|?]; [done|done].
Qed.

(** ** The encoding determines the trie *)

Definition child_bytes (c : option node) : Bytes :=
  match c with None => [] | Some c => encodeNode c end.

Definition value_bytes (v : option Bytes) : Bytes := match v with None => [] | Some b => b end.

Definition node_items (ch : list (option node)) (v : option Bytes) : list item :=
  ((fun c => Str (child_bytes c)) <$> ch) ++ [Str (value_bytes v)].

Lemma encodeNode_item ch v : encodeNode (Node ch v) = encode_item (Lst (node_items ch v)).
Proof.
  cbn [encodeNode encode_item]. f_equal. unfold node_items. rewrite fmap_app. f_equal.
  - rewrite <- list_fmap_compose. apply list_fmap_ext. by intros i [c|] _.
  - by destruct v.
Qed.

Lemma encodeNode_nonempty n : encodeNode n <> [].
Proof. destruct n as [ch v]. rewrite encodeNode_item. apply encode_item_nonempty. Qed.

Lemma child_shorter ch v i c :
  ch !! i = Some c -> zlen (child_bytes c) < zlen (encodeNode (Node ch v)).
Proof.
  intros E. rewrite encodeNode_item.
  pose proof (encodeBytes_length (child_bytes c)).
  pose proof (encode_Lst_elem (Str (child_bytes c)) (node_items ch v)) as L.
  cbn [encode_item] in *. enough (Str (child_bytes c) ∈ node_items ch v) by (specialize (L H0); lia).
  unfold node_items. apply elem_of_app. left.
  apply (list_elem_of_fmap_2 (fun c => Str (child_bytes c))). by eapply list_elem_of_lookup_2.
Qed.

Lemma node_items_ok ch v :
  (forall i c, ch !! i = Some c -> bytes_ok (child_bytes c)) -> bytes_ok (value_bytes v) ->
  item_ok (Lst (node_items ch v)).
Proof.
  intros Hc Hv. apply item_ok_Lst. unfold node_items. apply Forall_app. split.
  - apply Forall_fmap, Forall_lookup_2. intros i c E. exact (Hc i c E).
  - constructor; [done|constructor].
Qed.

Lemma value_bytes_ok v : (forall b, v = Some b -> bytes_ok b /\ b <> []) -> bytes_ok (value_bytes v).
Proof. intros H. destruct v as [b|]; [by apply H|constructor]. Qed.

Lemma encodeNode_bytes n : wf n -> zlen (encodeNode n) < 2 ^ 64 -> bytes_ok (encodeNode n).
Proof.
  induction 1 as [ch v L Hc IH Hv]. intros Hs.
  assert (O : item_ok (Lst (node_items ch v))).
  { apply node_items_ok; [|by apply value_bytes_ok]. intros i [c|] E; cbn; [|constructor].
    apply (IH i c E). pose proof (child_shorter ch v i _ E). cbn in *. lia. }
  rewrite encodeNode_item in Hs |- *. by apply encode_item_bytes.
Qed.

Lemma node_items_inj ch1 ch2 v1 v2 :
  length ch1 = length ch2 -> node_items ch1 v1 = node_items ch2 v2 ->
  child_bytes <$> ch1 = child_bytes <$> ch2 /\ value_bytes v1 = value_bytes v2.
Proof.
  intros L E. unfold node_items in E. apply app_inj_1 in E as [E1 E2]; [|by rewrite !length_fmap].
  injection E2 as E2. split; [|done].
  apply (list_fmap_eq_inj Str); [by intros ?? [=]|]. by rewrite <- !list_fmap_compose.
Qed.

Lemma encodeNode_inj n1 n2 :
  wf n1 -> wf n2 -> zlen (encodeNode n1) < 2 ^ 64 -> encodeNode n1 = encodeNode n2 -> n1 = n2.
Proof.
  intros W1. revert n2. induction W1 as [ch1 v1 L1 H1 IH Hv1]. intros n2 W2 Hs E.
  pose proof (wf_Node _ _ L1 H1 Hv1) as W1.
  assert (O : forall n, wf n -> encodeNode (Node ch1 v1) = encodeNode n ->
                item_ok (Lst (node_items (children n) (value n)))).
  { intros n W En. destruct W as [ch v L Hc Hv]. apply node_items_ok; [|by apply value_bytes_ok].
    intros i [c|] Ei; cbn; [|constructor]. apply encodeNode_bytes; [eauto|].
    pose proof (child_shorter ch v i _ Ei). rewrite <- En in *. cbn in *. lia. }
  pose proof (O _ W1 eq_refl) as O1. pose proof (O _ W2 E) as O2. clear O.
  destruct W2 as [ch2 v2 L2 H2 Hv2]. cbn [children value] in *.
  rewrite !encodeNode_item in E. rewrite encodeNode_item in Hs.
  apply encode_item_inj in E; [|done..]. injection E as E.
  apply node_items_inj in E as [Ec Ev]; [|congruence]. f_equal.
  - apply list_eq. intros i. pose proof (f_equal (fun l => l !! i) Ec) as Ei. cbn in Ei.
    rewrite !list_lookup_fmap in Ei.
    destruct (ch1 !! i) as [c1|] eqn:E1, (ch2 !! i) as [c2|] eqn:E2; [|done..]. f_equal.
    injection Ei as Ei. destruct c1 as [c1|], c2 as [c2|]; cbn in Ei; [|by apply encodeNode_nonempty in Ei|
      by symmetry in Ei; apply encodeNode_nonempty in Ei|done].
    f_equal. apply (IH i c1 E1); [eauto| |done].
    pose proof (child_shorter ch1 v1 i _ E1) as Hl. rewrite encodeNode_item in Hl. cbn [child_bytes] in Hl. lia.
  - destruct v1 as [b1|], v2 as [b2|]; cbn in Ev; [by subst| | |done].
    + by destruct (Hv1 b1 eq_refl).
    + symmetry in Ev. by destruct (Hv2 b2 eq_refl).
Qed.

(** ** Properties *)

(** What the trie promises: a finite map from keys to values. *)
Definition represents (t : node) (m : gmap Bytes Bytes) : Prop :=
  wf_with (fun _ => True) t /\ forall k, bytes_ok k -> get t k = m !! k.

Lemma empty_represents : represents empty_node ∅.
Proof.
  split; [apply empty_wf|]. intros k _. unfold get. by rewrite get_path_empty, lookup_empty.
Qed.

Lemma put_represents t m k v :
  represents t m -> bytes_ok k -> represents (put t k v) (<[k := v]> m).
Proof.
  intros [W G] Hk. split; [by apply put_path_wf|]. intros k' Hk'.
  unfold get, put. rewrite get_put_path by (done || by apply toNibbles_ok).
  destruct (decide (k = k')) as [->|Ne].
  - rewrite decide_True, lookup_insert_eq; done.
  - rewrite decide_False, lookup_insert_ne by (congruence || (intros E; by apply toNibbles_inj in E)).
    by apply G.
Qed.

Lemma put_all_represents (es : list (Bytes * Bytes)) (t : node) (m : gmap Bytes Bytes) :
  represents t m -> Forall (fun e => bytes_ok e.1) es ->
  represents (put_all t es) (foldl (fun m e => <[e.1 := e.2]> m) m es).
Proof.
  revert t m. induction es as [|e es IH]; intros t m R H; [done|]. apply Forall_cons_1 in H as [He H].
  cbn [put_all foldl]. apply IH; [|done]. destruct e. by apply put_represents.
Qed.

(** Distinct keys: the trie holds exactly the entries. *)
Lemma foldl_insert_lookup (es : list (Bytes * Bytes)) (m : gmap Bytes Bytes) k v :
  NoDup es.*1 ->
  (foldl (fun m e => <[e.1 := e.2]> m) m es) !! k = Some v <->
  (k, v) ∈ es \/ ((k ∉ es.*1) /\ m !! k = Some v).
Proof.
  revert m. induction es as [|[k' v'] es IH]; intros m N; cbn [foldl fmap list_fmap] in *.
  { rewrite elem_of_nil. split; [right; split; [by intros ?%elem_of_nil|done]|by intros [[]|[_ ?]]]. }
  apply NoDup_cons in N as [Nin N]. rewrite IH by done. cbn [fst snd]. rewrite !elem_of_cons.
  destruct (decide (k = k')) as [->|Ne].
  - rewrite lookup_insert_eq. split.
    + intros [H|[_ [= ->]]]; [|by left; left]. exfalso. apply Nin. apply list_elem_of_fmap. by exists (k', v).
    + intros [[[= ->]|H]|[H _]]; [by right|by left|]. exfalso. apply H. by left.
  - rewrite lookup_insert_ne by done. split.
    + intros [H|[H1 H2]]; [by left; right|]. right. split; [|done]. by intros [?|?].
    + intros [[[= -> ->]|H]|[H1 H2]]; [done|by left|right]. split; [|done]. intros ?. apply H1. by right.
Qed.

Lemma get_build es k v :
  NoDup es.*1 -> Forall entry_ok es -> bytes_ok k -> get (build es) k = Some v <-> (k, v) ∈ es.
Proof.
  intros N H Hk. destruct (put_all_represents es empty_node ∅ empty_represents) as [_ G]; [by apply (Forall_impl _ _ _ H); intros e [? _]|].
  unfold build. rewrite G, foldl_insert_lookup by done. rewrite lookup_empty.
  split; [by intros [?|[_ [=]]]|by left].
Qed.

(** C10: refinement. A trie filled by any sequence of [put]s, empty keys and
    empty values included, answers [get] exactly as the finite map updated by
    the same sequence of insertions: the last value put under a key (an empty
    value is a value), nothing under a key never put. *)
Theorem trie_refines_map (es : list (Bytes * Bytes)) (k : Bytes) :
  Forall (fun e => bytes_ok e.1) es -> bytes_ok k ->
  get (build es) k = foldl (fun m e => <[e.1 := e.2]> m) (∅ : gmap Bytes Bytes) es !! k.
Proof.
  intros H Hk. destruct (put_all_represents es empty_node ∅ empty_represents H) as [_ E]. by apply E.
Qed.

Lemma trie_refines_map_witness :
  get (build [([1; 2], [7]); ([1], [8]); ([1; 2], [])]) [1; 2] = Some [] /\
  get (build [([1; 2], [7]); ([1], [8]); ([1; 2], [])]) [1; 3] = None.
Proof.
  split; (rewrite trie_refines_map; [reflexivity| |by apply (bool_decide_unpack _)]);
    repeat constructor; by apply (bool_decide_unpack _).
Defined.

Lemma build_perm es1 es2 :
  Permutation es1 es2 -> NoDup es1.*1 -> Forall entry_ok es1 -> build es1 = build es2.
Proof. intros P N H. by apply put_all_perm, empty_wf. Qed.

(** Equal roots: equal tries, or two encodings with one Keccak digest. *)
Lemma rootHash_inj t1 t2 :
  wf t1 -> wf t2 -> zlen (encodeNode t1) < 2 ^ 64 -> rootHash t1 = rootHash t2 ->
  t1 = t2 \/ collision (encodeNode t1) (encodeNode t2).
Proof.
  intros W1 W2 L E. apply app_inv_head in E.
  destruct (digest_inj _ _ E) as [En|C]; [left|by right]. by apply encodeNode_inj.
Qed.

Lemma rootHash_nonempty t : rootHash t <> [].
Proof. done. Qed.
