(* ===== verification/Keys.v ===== *)
(** * Keys and signatures (src/src/keys.cpp, src/include/gambit/keys.hpp)

    The interface to the C library libsecp256k1: the class [Secp256k1] has
    the functions keys.cpp calls, the class [Secp256k1Laws] what the code
    relies on. Secp.v has the library's own functions as an instance and
    proves the laws for it; [TestCurve] is a small instance. The global
    context object ([KeyPair::context]) only caches tables and is left out. *)

From stdpp Require Import base list numbers strings.
From Stdlib Require Import ZArith Lia.
From S2P Require Import Prelude Keccak Hash Address.

#[local] Open Scope Z_scope.

(** ** The library interface *)

Class Secp256k1 : Type := {
  secp_pubkey : Type;
  secp_recsig : Type;
  secp_sig : Type;
  ec_seckey_verify : Bytes -> bool;
  ec_pubkey_create : Bytes -> option secp_pubkey;
  ec_pubkey_serialize : secp_pubkey -> Bytes;  (* SECP256K1_EC_UNCOMPRESSED *)
  ec_pubkey_parse : Bytes -> option secp_pubkey;
  ecdsa_sign_recoverable : Bytes -> Bytes -> option secp_recsig;  (* message, secret key *)
  recoverable_serialize_compact : secp_recsig -> Bytes * Z;
  recoverable_parse_compact : Bytes -> Z -> option secp_recsig;
  ecdsa_recover : secp_recsig -> Bytes -> option secp_pubkey;
  signature_parse_compact : Bytes -> option secp_sig;
  signature_normalize : secp_sig -> secp_sig;
  ecdsa_verify : secp_sig -> Bytes -> secp_pubkey -> bool;
}.

Class Secp256k1Laws (SC : Secp256k1) : Prop := {
  serialize_shape sk pk :
    ec_pubkey_create sk = Some pk ->
    exists b, ec_pubkey_serialize pk = 0x04 :: b /\ length b = 64%nat /\ bytes_ok b;
  parse_created sk pk :
    ec_pubkey_create sk = Some pk -> ec_pubkey_parse (ec_pubkey_serialize pk) = Some pk;
  create_valid sk : ec_seckey_verify sk = true -> is_Some (ec_pubkey_create sk);
  compact_shape msg sk rs :
    ecdsa_sign_recoverable msg sk = Some rs ->
    length (recoverable_serialize_compact rs).1 = 64%nat /\
    bytes_ok (recoverable_serialize_compact rs).1 /\
    0 <= (recoverable_serialize_compact rs).2 <= 3;
  parse_signed msg sk rs :
    ecdsa_sign_recoverable msg sk = Some rs ->
    recoverable_parse_compact (recoverable_serialize_compact rs).1
      (recoverable_serialize_compact rs).2 = Some rs;
  recover_signed msg sk rs :
    ecdsa_sign_recoverable msg sk = Some rs -> ecdsa_recover rs msg = ec_pubkey_create sk;
  verify_signed msg sk rs pk :
    ecdsa_sign_recoverable msg sk = Some rs -> ec_pubkey_create sk = Some pk ->
    exists sg, signature_parse_compact (recoverable_serialize_compact rs).1 = Some sg /\
      ecdsa_verify (signature_normalize sg) msg pk = true;
}.

(** ** The code *)

(** keys.hpp 14-19. *)
Record Signature : Type := mkSignature { sig_r : Bytes; sig_s : Bytes; sig_v : Z }.

#[export] Instance Signature_eq_dec : EqDecision Signature.
Proof. solve_decision. Defined.

(** The members' initial values: empty vectors, [v{0}]. *)
Definition empty_signature : Signature := mkSignature [] [] 0.

(** keys.hpp 30-54. *)
Record KeyPair : Type := mkKeyPair { priv_ : Bytes; pub_ : Bytes }.

(** [KeyPair()], keys.cpp 19. *)
Definition default_keypair : KeyPair := mkKeyPair (replicate 32 0) (replicate 64 0).

Section WithSecp.
Context {SC : Secp256k1}.

(** keys.cpp 37-51 and 62-76: the common end of the two constructors. *)
Definition with_public_key (priv : Bytes) : res KeyPair :=
  match ec_pubkey_create priv with
  | None => Throw "Failed to create secp256k1 public key"
  | Some pubkey =>
      let out := ec_pubkey_serialize pubkey in
      Ok (mkKeyPair priv (drop 1 (take 65 out)))
  end.

(** The [while (true)] of keys.cpp 28-35; [gen k] is the [k]-th value of the
    generator, 32 of them fill the key. *)
Fixpoint random_loop (gen : nat -> Z) (fuel : nat) (k : nat) : res Bytes :=
  match fuel with
  | O => OutOfFuel
  | S f =>
      let priv := (fun j => u8 (Z.land (gen (k + j)%nat) 0xFF)) <$> seq 0 32 in
      if ec_seckey_verify priv then Ok priv else random_loop gen f (k + 32)
  end.

(** keys.cpp 21-52. *)
Definition random (gen : nat -> Z) (fuel : nat) : res KeyPair :=
  priv ← random_loop gen fuel 0;
  with_public_key priv.

(** keys.cpp 54-77. *)
Definition fromPrivateKey32 (privKey : Bytes) : res KeyPair :=
  if negb (ec_seckey_verify privKey) then Throw "Invalid private key"
  else with_public_key privKey.

(** keys.cpp 79-86. *)
Definition fromPrivateKey (privKey : Bytes) : res KeyPair :=
  if negb (zlen privKey =? 32) then Throw "Private key must be 32 bytes"
  else fromPrivateKey32 privKey.

(** keys.cpp 88-90. *)
Definition address (kp : KeyPair) : res Address := Address.fromPublicKey (pub_ kp).

(** keys.cpp 92-126. [chainId] is not used by the code. *)
Definition sign (kp : KeyPair) (msgHash : Bytes) (chainId : Z) : res Signature :=
  match ecdsa_sign_recoverable msgHash (priv_ kp) with
  | None => Throw "Failed to sign message"
  | Some recsig =>
      let (compact, recid) := recoverable_serialize_compact recsig in
      Ok (mkSignature (take 32 compact) (take 32 (drop 32 compact)) (u8 recid))
  end.

(** keys.cpp 128-161. The two [memcpy]s read 32 bytes of [r] and [s]. *)
Definition verify (msgHash : Bytes) (sig : Signature) (pubKey : Bytes) : res bool :=
  if negb (zlen pubKey =? 64) then Throw "verify: pubKey must be 64 bytes"
  else
    match ec_pubkey_parse (0x04 :: pubKey) with
    | None => Ok false
    | Some pk =>
        if (zlen (sig_r sig) <? 32) || (zlen (sig_s sig) <? 32) then UB
        else
          match signature_parse_compact (take 32 (sig_r sig) ++ take 32 (sig_s sig)) with
          | None => Ok false
          | Some normsig => Ok (ecdsa_verify (signature_normalize normsig) msgHash pk)
          end
    end.

(** keys.cpp 169-183: the recovery id from [v]. *)
Definition recovery_id (v chainId : Z) : res Z :=
  if (v =? 0) || (v =? 1) then Ok v
  else if v <? 35 then Throw "recoverAddress: unsupported v"
  else
    let cid := (v - 35) / 2 in
    if negb (cid =? chainId) then Throw "recoverAddress: chainId mismatch"
    else Ok (u64 (v - u64 (35 + u64 (2 * chainId)))).

(** keys.cpp 163-215. *)
Definition recoverAddress (msgHash : Bytes) (sig : Signature) (chainId : Z) : res Address :=
  recId ← recovery_id (sig_v sig) chainId;
  if negb (zlen (sig_r sig) =? 32) || negb (zlen (sig_s sig) =? 32) then
    Throw "recoverAddress: invalid r/s size"
  else
    match recoverable_parse_compact (sig_r sig ++ sig_s sig) recId with
    | None => Throw "recoverAddress: parse_compact failed"
    | Some recSig =>
        match ecdsa_recover recSig msgHash with
        | None => Throw "recoverAddress: recover failed"
        | Some pubkey =>
            let pub := ec_pubkey_serialize pubkey in
            let pubBytes := drop 1 pub in
            let hash := keccak256 pubBytes in
            let addrBytes := drop (length hash - 20) hash in
            Address.fromBytes addrBytes
        end
    end.

End WithSecp.

(** ** A concrete instance

    A scheme on which the laws hold and the functions above evaluate: the
    public key repeats the secret key, and a signature reveals it. *)

Module TestCurve.

(** The first [n] bytes of a string, zero-extended. *)
Definition fit (n : nat) (b : Bytes) : Bytes := take n ((u8 <$> b) ++ replicate n 0).

Definition valid (sk : Bytes) : bool :=
  bool_decide (length sk = 32%nat /\ bytes_ok sk /\ sk <> replicate 32 0).

Definition curve : Secp256k1 := {|
  secp_pubkey := Bytes;
  secp_recsig := Bytes;
  secp_sig := Bytes;
  ec_seckey_verify := valid;
  ec_pubkey_create sk := if valid sk then Some (sk ++ sk) else None;
  ec_pubkey_serialize pk := 0x04 :: fit 64 pk;
  ec_pubkey_parse b := Some (drop 1 b);
  ecdsa_sign_recoverable msg sk := if valid sk then Some (fit 32 msg ++ sk) else None;
  recoverable_serialize_compact rs := (fit 64 rs, 0);
  recoverable_parse_compact b i := if i =? 0 then Some b else None;
  ecdsa_recover rs msg :=
    let sk := drop 32 rs in
    if bool_decide (take 32 rs = fit 32 msg) && valid sk then Some (sk ++ sk) else None;
  signature_parse_compact b := Some b;
  signature_normalize s := s;
  ecdsa_verify s msg pk := bool_decide (s = fit 32 msg ++ take 32 pk);
|}.

Lemma fit_length n b : length (fit n b) = n.
Proof. unfold fit. rewrite length_take, length_app, length_replicate, length_fmap. lia. Qed.

Lemma fit_bytes n b : bytes_ok (fit n b).
Proof.
  apply bytes_ok_take, bytes_ok_app. split.
  - apply Forall_fmap, Forall_forall. intros x _. apply u8_range.
  - apply Forall_replicate. by split.
Qed.

Lemma fit_id n b : length b = n -> bytes_ok b -> fit n b = b.
Proof.
  intros L H. unfold fit. assert (E : u8 <$> b = b).
  { apply list_eq. intros i. rewrite list_lookup_fmap. destruct (b !! i) eqn:E; [|done].
    cbn. f_equal. apply u8_id. exact (Forall_lookup_1 _ _ _ _ H E). }
  rewrite E. by apply take_app_length'.
Qed.

Lemma valid_shape sk : valid sk = true -> length sk = 32%nat /\ bytes_ok sk.
Proof. intros V. apply bool_decide_eq_true in V as (L & H & _). done. Qed.

(** A public key and a signature are 64 bytes: [fit] keeps them. *)
Lemma fit_pair a sk : valid sk = true -> length a = 32%nat -> bytes_ok a -> fit 64 (a ++ sk) = a ++ sk.
Proof.
  intros V L H. apply valid_shape in V as [Ls Hs]. apply fit_id; [rewrite length_app; lia|by apply bytes_ok_app].
Qed.

#[global] Instance curve_laws : Secp256k1Laws curve.
Proof.
  split; cbn.
  - intros sk pk E. exists (fit 64 pk). split; [done|]. split; [apply fit_length|apply fit_bytes].
  - intros sk pk E. destruct (valid sk) eqn:V; [|done]. injection E as <-. pose proof (valid_shape sk V) as [L H].
    f_equal. by apply fit_pair.
  - intros sk ->. eauto.
  - intros msg sk rs _. split; [apply fit_length|]. split; [apply fit_bytes|lia].
  - intros msg sk rs E. destruct (valid sk) eqn:V; [|done]. injection E as <-.
    f_equal. apply fit_pair; [done|apply fit_length|apply fit_bytes].
  - intros msg sk rs E. destruct (valid sk) eqn:V; [|done]. injection E as <-.
    rewrite take_app_length', drop_app_length' by (by rewrite fit_length).
    by rewrite bool_decide_true, V.
  - intros msg sk rs pk E C. destruct (valid sk) eqn:V; [|done]. injection E as <-. injection C as <-.
    pose proof (valid_shape sk V) as [L _]. eexists. split; [done|]. rewrite fit_pair by (done || apply fit_length || apply fit_bytes).
    rewrite take_app_length' by done. by apply bool_decide_true.
Qed.

End TestCurve.

(** ** Lemmas *)

Section Laws.
Context {SC : Secp256k1} {SL : Secp256k1Laws SC}.

(** The class invariant of a key pair made from a secret key. *)
Definition keypair_ok (kp : KeyPair) : Prop :=
  ec_seckey_verify (priv_ kp) = true /\
  exists pk, ec_pubkey_create (priv_ kp) = Some pk /\ pub_ kp = drop 1 (ec_pubkey_serialize pk).

Lemma with_public_key_ok priv kp :
  ec_seckey_verify priv = true -> with_public_key priv = Ok kp -> keypair_ok kp /\ priv_ kp = priv.
Proof.
  intros V E. unfold with_public_key in E. destruct (ec_pubkey_create priv) as [pk|] eqn:C; [|done].
  injection E as <-. split; [|done]. split; [done|]. exists pk. split; [done|]. cbn [pub_].
  destruct (serialize_shape _ pk C) as (b & -> & L & _). rewrite take_ge by (cbn [length]; lia). done.
Qed.

Lemma fromPrivateKey_ok sk kp : fromPrivateKey sk = Ok kp -> keypair_ok kp /\ priv_ kp = sk.
Proof.
  unfold fromPrivateKey, fromPrivateKey32. intros H. res_inv; to_prop. by apply with_public_key_ok.
Qed.

Lemma keypair_pub_length kp : keypair_ok kp -> length (pub_ kp) = 64%nat.
Proof.
  intros (_ & pk & C & ->). destruct (serialize_shape _ pk C) as (b & -> & L & _). done.
Qed.

Lemma address_defined kp :
  keypair_ok kp -> address kp = Ok (mkAddress (drop 12 (keccak256 (pub_ kp)))).
Proof. intros K. apply fromPublicKey_64. by apply keypair_pub_length. Qed.

Lemma address_ok kp a : address kp = Ok a -> addr_ok a.
Proof. apply fromPublicKey_ok. Qed.

Lemma sign_shape kp msg c sig :
  sign kp msg c = Ok sig ->
  length (sig_r sig) = 32%nat /\ length (sig_s sig) = 32%nat /\
  bytes_ok (sig_r sig) /\ bytes_ok (sig_s sig) /\ 0 <= sig_v sig <= 3.
Proof.
  unfold sign. destruct (ecdsa_sign_recoverable _ _) as [rs|] eqn:Es; [|done].
  destruct (compact_shape _ _ rs Es) as (L & B & R).
  destruct (recoverable_serialize_compact rs) as [compact recid]. cbn in L, B, R.
  intros [= <-]. cbn. rewrite !length_take, length_drop, u8_id by (unfold is_u8; lia).
  repeat split; auto with gambit; lia.
Qed.

(** The full EIP-155 form of [v] stands for its recovery id. *)
Lemma recovery_id_full c i :
  0 <= c -> 35 + 2 * c + i < 256 -> i = 0 \/ i = 1 -> recovery_id (35 + 2 * c + i) c = Ok i.
Proof.
  intros Hc Hv Hi. unfold recovery_id.
  replace ((35 + 2 * c + i - 35) / 2) with c by (apply Z.div_unique with i; lia). z_tests. cbn [orb negb].
  rewrite (u64_id (2 * c)), (u64_id (35 + 2 * c)), u64_id by (unfold is_u64; lia). f_equal. lia.
Qed.

(** Recovery from a signature of a key pair, with the recovery id. *)
Lemma recover_own kp msg c c' sig :
  keypair_ok kp -> sign kp msg c = Ok sig -> sig_v sig <= 1 ->
  recoverAddress msg sig c' = address kp.
Proof.
  intros K E Hv. pose proof (sign_shape _ _ _ _ E) as (Lr & Ls & _ & _ & R). unfold sign in E.
  destruct (ecdsa_sign_recoverable msg (priv_ kp)) as [rs|] eqn:Es; [|done].
  pose proof (parse_signed _ _ _ Es) as P. pose proof (recover_signed _ _ _ Es) as Q.
  destruct (compact_shape _ _ rs Es) as (L & _ & R').
  destruct (recoverable_serialize_compact rs) as [compact recid]. cbn in L, P, R'.
  injection E as <-. cbn in *. unfold recoverAddress. cbn [sig_v sig_r sig_s].
  rewrite (u8_id recid) in * by (unfold is_u8; lia).
  assert (Hid : recovery_id recid c' = Ok recid).
  { unfold recovery_id. assert (recid = 0 \/ recid = 1) as [-> | ->] by lia; done. }
  rewrite Hid. cbn [mbind res_bind]. unfold zlen. rewrite Lr, Ls. cbn [Z.eqb negb orb Pos.eqb Z.of_nat Pos.of_succ_nat Pos.succ].
  rewrite (take_ge (drop 32 compact)) by (rewrite length_drop; lia). rewrite take_drop, P, Q.
  destruct K as (V & pk & C & Hp). rewrite C. unfold address.
  rewrite fromPublicKey_64, <- Hp, keccak256_length.
  - apply fromBytes_ok; [auto with gambit|]. rewrite length_drop, keccak256_length. done.
  - apply keypair_pub_length. split; [done|]. eauto.
Qed.

(** Verification of a signature of a key pair. *)
Lemma verify_own kp msg c sig :
  keypair_ok kp -> sign kp msg c = Ok sig -> verify msg sig (pub_ kp) = Ok true.
Proof.
  intros K E. pose proof (keypair_pub_length kp K) as Lp. pose proof (sign_shape _ _ _ _ E) as (Lr & Ls & _).
  destruct K as (_ & pk & C & Hp). destruct (serialize_shape _ pk C) as (b & Eb & _).
  unfold verify, zlen. rewrite Lp, Lr, Ls. cbn [Z.of_nat Z.eqb Pos.eqb negb Pos.of_succ_nat Pos.succ].
  assert (Ep : 0x04 :: pub_ kp = ec_pubkey_serialize pk) by (by rewrite Hp, Eb).
  rewrite Ep, (parse_created _ pk C).
  unfold sign in E. destruct (ecdsa_sign_recoverable msg (priv_ kp)) as [rs|] eqn:Es; [|done].
  destruct (verify_signed _ _ rs pk Es C) as (sg & Eg & V). destruct (compact_shape _ _ rs Es) as (L & _ & _).
  destruct (recoverable_serialize_compact rs) as [compact recid]. cbn [fst] in *. injection E as <-. cbn [sig_r sig_s].
  rewrite !(take_ge (take _ _)) by (rewrite length_take; lia).
  rewrite (take_ge (drop 32 compact)) by (rewrite length_drop; lia). rewrite take_drop, Eg, V. done.
Qed.

End Laws.

(** Recovery returns an address or throws. *)
Lemma recoverAddress_returns {SC : Secp256k1} msg sig c :
  (exists a, recoverAddress msg sig c = Ok a) \/ exists w, recoverAddress msg sig c = Throw w.
Proof.
  unfold recoverAddress, recovery_id, fromBytes.
  repeat (case_match; cbn [mbind res_bind]; try by eauto); eauto.
Qed.

(** ** Properties *)

(** Signing and recovery agree. For a key pair built from a valid secret
    key, the address recovered from its signature of a message (recovery id
    0 or 1, stored as such in [v]) is the key pair's own address, whatever
    chain id the verifier uses. *)
Theorem sign_recovers_address {SC : Secp256k1} {SL : Secp256k1Laws SC}
    (sk : Bytes) (kp : KeyPair) (msg : Bytes) (c c' : Z) (sig : Signature) :
  fromPrivateKey sk = Ok kp -> sign kp msg c = Ok sig -> sig_v sig <= 1 ->
  exists a, address kp = Ok a /\ addr_ok a /\ recoverAddress msg sig c' = Ok a.
Proof.
  intros K E Hv. apply fromPrivateKey_ok in K as [K _].
  pose proof (recover_own kp msg c c' sig K E Hv) as R.
  pose proof (address_defined kp K) as A.
  eexists. split; [exact A|]. split; [|by rewrite R].
  split; cbn [bytes_]; [by rewrite length_drop, keccak256_length|auto with gambit].
Qed.

Lemma sign_recovers_address_witness :
  exists a,
    @address (mkKeyPair (replicate 32 7) (replicate 64 7)) = Ok a /\ addr_ok a /\
    @recoverAddress TestCurve.curve (replicate 32 1) (mkSignature (replicate 32 1) (replicate 32 7) 0) 5 = Ok a.
Proof.
  apply (@sign_recovers_address TestCurve.curve _ (replicate 32 7) _ _ 5);
    [by vm_compute|by vm_compute|by vm_compute].
Defined.

(** EIP-155. For a one-byte [v] the two full forms 35 + 2*chainId + {0,1}
    are equivalent to the bare recovery ids 0 and 1, and every other value
    of [v] is rejected with an exception: a signature for another chain id
    never recovers an address, except through the bare ids, which are not
    bound to a chain. *)
Theorem recoverAddress_eip155 {SC : Secp256k1} (msg r s : Bytes) (v c : Z) :
  is_u8 v -> is_u64 c ->
  (forall i, i = 0 \/ i = 1 -> v = 35 + 2 * c + i ->
     recoverAddress msg (mkSignature r s v) c = recoverAddress msg (mkSignature r s i) c) /\
  (v <> 0 -> v <> 1 -> v <> 35 + 2 * c -> v <> 36 + 2 * c ->
     exists w, recoverAddress msg (mkSignature r s v) c = Throw w).
Proof.
  intros Hv Hc. unfold is_u8, is_u64 in *. unfold recoverAddress. cbn [sig_v sig_r sig_s]. split.
  - intros i Hi ->. rewrite recovery_id_full by lia. by destruct Hi as [-> | ->].
  - intros N0 N1 N35 N36. unfold recovery_id. z_tests. cbn [orb].
    destruct (v <? 35) eqn:E; [by eexists|]. to_prop.
    destruct (Z.eqb_spec ((v - 35) / 2) c) as [D|D]; [|by eexists].
    pose proof (Z.div_mod (v - 35) 2 ltac:(lia)). pose proof (Z.mod_pos_bound (v - 35) 2 ltac:(lia)). lia.
Qed.

Lemma recoverAddress_eip155_witness :
  @recoverAddress TestCurve.curve (replicate 32 1) (mkSignature (replicate 32 1) (replicate 32 7) 37) 1
  = @recoverAddress TestCurve.curve (replicate 32 1) (mkSignature (replicate 32 1) (replicate 32 7) 0) 1.
Proof.
  apply (proj1 (@recoverAddress_eip155 TestCurve.curve (replicate 32 1) (replicate 32 1) (replicate 32 7) 37 1
                  ltac:(by split) ltac:(by split))); [by left|done].
Defined.

(** A key pair accepts its own signatures. [KeyPair::verify] with the 64
    bytes of the key pair's public key returns true for what [sign] returns,
    whatever the chain id. *)
Theorem own_signature_verifies {SC : Secp256k1} {SL : Secp256k1Laws SC}
    (sk : Bytes) (kp : KeyPair) (msg : Bytes) (c : Z) (sig : Signature) :
  fromPrivateKey sk = Ok kp -> sign kp msg c = Ok sig -> verify msg sig (pub_ kp) = Ok true.
Proof. intros K E. apply fromPrivateKey_ok in K as [K _]. by apply (verify_own kp msg c). Qed.

Lemma own_signature_verifies_witness :
  @verify TestCurve.curve (replicate 32 1) (mkSignature (replicate 32 1) (replicate 32 7) 0) (replicate 64 7) = Ok true.
Proof.
  apply (@own_signature_verifies TestCurve.curve _ (replicate 32 7) (mkKeyPair (replicate 32 7) (replicate 64 7)) _ 5);
    by vm_compute.
Defined.
