(* ===== verification/Secp.v ===== *)
(** * libsecp256k1 as the program uses it

    The functions of Ecdsa.v that keys.cpp calls make an instance of the
    class [Secp256k1] of Keys.v, and the laws Keys.v relies on are theorems
    about them ([secp_laws]): signing, recovery and verification of the
    program rest on the library's code down to the group operations. *)

From stdpp Require Import base list numbers.
From Stdlib Require Import ZArith Lia Zdivisibility Zcong.
From S2P Require Import Prelude Keccak Sha256 Sha256Stream Scalar ScalarSpec Primes Ecdsa EcdsaSpec Keys.

#[local] Open Scope Z_scope.
#[local] Opaque N ecdsa_sig_sign ecdsa_sig_recover ecdsa_sig_verify scalar_set_b32 scalar_set_b32_seckey
  rfc6979_hmac_sha256_generate rfc6979_hmac_sha256_initialize Rfc6979.candidate Rfc6979.init.

(** ** The library's functions on 32-byte arrays *)

Section Api.
Context `{MI : Modinv} {ML : ModinvLaws MI} `{EC : Curve} {EL : CurveLaws EC}.
Context (mem : hmac_sha256) (M : mem_ok mem).

Lemma set_b32_ok b : bytes32 b ->
  scalar_ok (scalar_set_b32 b).1 /\ val (scalar_set_b32 b).1 = be_val b mod N.
Proof.
  intros [L B]. pose proof (set_b32_spec b L B) as S. destruct (scalar_set_b32 b) as [r o].
  by destruct S as (K & V & _).
Qed.

(** A secret key: its scalar, a unit when the key is valid. *)
Lemma seckey_ok b : bytes32 b ->
  scalar_ok (scalar_set_b32_seckey b).1 /\
  ((scalar_set_b32_seckey b).2 = true -> unit_scalar (scalar_set_b32_seckey b).1 /\ val (scalar_set_b32_seckey b).1 = be_val b).
Proof.
  intros [L B]. pose proof (set_b32_seckey_spec b L B) as S. destruct (scalar_set_b32_seckey b) as [r ok].
  destruct S as (K & V & ->). split; [done|]. cbn [fst snd]. intros H. to_prop.
  rewrite Z.mod_small in V by lia. split; [|done]. split; [done|].
  rewrite is_zero_spec by apply K. apply Z.eqb_neq. lia.
Qed.

(** A loop that ignores its index. *)
Lemma foldl_iter {A B} (g : A -> A) (l : list B) a : foldl (fun st _ => g st) a l = Nat.iter (length l) g a.
Proof. revert a. induction l as [|x l IH]; intros a; [done|]. cbn [foldl length]. by rewrite IH, Nat.iter_succ_r. Qed.

Lemma iter_state {A B} (g : A -> A * B) a b c :
  Nat.iter (S c) (fun st => g st.1) (a, b) = g (Nat.iter c (fun x => (g x).1) a).
Proof. induction c as [|c IH]; [done|]. rewrite Nat.iter_succ, IH. done. Qed.

(** The loop of the nonce function. *)
Lemma generate_times rng c :
  foldl (fun st _ => rfc6979_hmac_sha256_generate mem st.1 32) (rng, []) (seq 0 (S c)) =
  rfc6979_hmac_sha256_generate mem (Nat.iter c (fun r => (rfc6979_hmac_sha256_generate mem r 32).1) rng) 32.
Proof.
  rewrite (foldl_iter (fun st => rfc6979_hmac_sha256_generate mem st.1 32)), length_seq.
  apply (iter_state (fun r => rfc6979_hmac_sha256_generate mem r 32)).
Qed.

(** The nonces are the candidates of RFC 6979 for the key and the reduced hash. *)
Lemma nonce_spec msg32 key32 i :
  bytes32 msg32 -> bytes32 key32 ->
  nonce_function_rfc6979 mem msg32 key32 None None i =
  Rfc6979.candidate (Rfc6979.init (key32 ++ scalar_get_b32 (scalar_set_b32 msg32).1)) i.
Proof.
  intros Hm [Lk Bk]. destruct (set_b32_ok msg32 Hm) as [K _]. unfold nonce_function_rfc6979.
  destruct (scalar_set_b32 msg32) as [m o]. change ((m, o).1) with m in *.
  destruct (get_b32_spec m (proj1 K)) as (_ & Bm & Lm).
  assert (Ek : key32 ++ scalar_get_b32 m ++ default [] (None : option Bytes) ++ default [] (None : option Bytes) =
    key32 ++ scalar_get_b32 m) by (cbn [default from_option]; by rewrite !app_nil_r).
  rewrite Ek. generalize dependent (scalar_get_b32 m). intros msgmod32 Bm Lm Ek. cbv zeta. rewrite generate_times.
  apply candidates_spec; [done|by apply bytes_ok_app|unfold zlen; rewrite length_app; lia].
Qed.

Lemma nonce_bytes32 msg32 key32 i :
  bytes32 msg32 -> bytes32 key32 -> bytes32 (nonce_function_rfc6979 mem msg32 key32 None None i).
Proof. intros. rewrite nonce_spec by done. apply candidate_bytes32. Qed.

(** One turn of the loop. *)
Definition sign_turn (sec msg : scalar) (nonce32 : Bytes) : option (scalar * scalar * Z) :=
  let '(non, is_nonce_valid) := scalar_set_b32_seckey nonce32 in
  if is_nonce_valid then
    let '(r, s, recid, ret) := ecdsa_sig_sign sec msg non in
    if ret then Some (r, s, recid) else None
  else None.

Lemma sign_loop_S f sec msg msg32 key32 i :
  sign_loop mem (S f) sec msg msg32 key32 i =
  match sign_turn sec msg (nonce_function_rfc6979 mem msg32 key32 None None i) with
  | Some res => Some res
  | None => sign_loop mem f sec msg msg32 key32 (S i)
  end.
Proof.
  cbn [sign_loop]. unfold sign_turn. generalize (nonce_function_rfc6979 mem msg32 key32 None None i). intros b.
  destruct (scalar_set_b32_seckey b) as [k ok]. destruct ok; [|done].
  by destruct (ecdsa_sig_sign sec msg k) as [[[r s] recid] []].
Qed.

(** The loop ends with a nonce that gives a signature. *)
Lemma sign_loop_nonce fuel sec msg msg32 key32 i r s recid :
  bytes32 msg32 -> bytes32 key32 ->
  sign_loop mem fuel sec msg msg32 key32 i = Some (r, s, recid) ->
  exists k, unit_scalar k /\ ecdsa_sig_sign sec msg k = (r, s, recid, true).
Proof.
  intros Hm Hk. revert i. induction fuel as [|fuel IH]; intros i E; [done|]. rewrite sign_loop_S in E.
  pose proof (nonce_bytes32 msg32 key32 i Hm Hk) as Hn. destruct (sign_turn _ _ _) eqn:Et; [|by apply IH in E].
  injection E as ->. generalize dependent (nonce_function_rfc6979 mem msg32 key32 None None i). intros b Et Hb.
  unfold sign_turn in Et. destruct (seckey_ok b Hb) as [_ U].
  destruct (scalar_set_b32_seckey b) as [k ok]. cbn [fst snd] in U. destruct ok; [|discriminate Et].
  destruct (U eq_refl) as [Uk _]. exists k. split; [done|].
  destruct (ecdsa_sig_sign sec msg k) as [[[r' s'] recid'] ret]. destruct ret; [|discriminate Et]. by injection Et as -> -> ->.
Qed.

(** More turns do not change the result. *)
Lemma sign_loop_fuel f f' sec msg msg32 key32 i res :
  (f <= f')%nat -> sign_loop mem f sec msg msg32 key32 i = Some res ->
  sign_loop mem f' sec msg msg32 key32 i = Some res.
Proof.
  revert f' i. induction f as [|f IH]; intros f' i Hf E; [done|]. destruct f' as [|f']; [lia|].
  rewrite sign_loop_S in *. destruct (sign_turn _ _ _); [done|]. apply IH; [lia|done].
Qed.

Lemma one_ok : unit_scalar scalar_one.
Proof. Local Transparent N. split; [by apply (bool_decide_unpack _); vm_compute|done]. Qed.

Lemma scalar_zero_ok : scalar_ok scalar_zero.
Proof. Local Transparent N. by apply (bool_decide_unpack _); vm_compute. Qed.

#[local] Opaque N.

Lemma cmov_keep a b : scalar_ok a -> scalar_ok b -> scalar_cmov a b (Z.b2z (negb true)) = a.
Proof. intros A B. by rewrite cmov_spec by (apply A || apply B). Qed.

(** A successful recoverable signature: a valid key, and one turn of the loop. *)
Lemma sign_recoverable_inv fuel msg32 key32 rs :
  bytes32 msg32 -> bytes32 key32 ->
  secp256k1_ecdsa_sign_recoverable mem fuel msg32 key32 = Some rs ->
  let d := (scalar_set_b32_seckey key32).1 in
  (scalar_set_b32_seckey key32).2 = true /\ unit_scalar d /\
  exists k, unit_scalar k /\
    ecdsa_sig_sign d (scalar_set_b32 msg32).1 k = (rs_r rs, rs_s rs, rs_recid rs, true) /\
    scalar_ok (rs_r rs) /\ scalar_ok (rs_s rs) /\ val (rs_s rs) <= N / 2 /\ 0 <= rs_recid rs <= 3.
Proof.
  intros Hm Hk E. unfold secp256k1_ecdsa_sign_recoverable, ecdsa_sign_inner in E.
  destruct (seckey_ok key32 Hk) as [Kd Ud]. destruct (set_b32_ok msg32 Hm) as [Km _].
  destruct (scalar_set_b32_seckey key32) as [d ok]. destruct (scalar_set_b32 msg32) as [m o]. cbn [fst snd] in *.
  destruct (sign_loop _ _ _ _ _ _ _) as [[[r s] recid]|] eqn:El; [|done].
  destruct ok; [|done]. destruct (Ud eq_refl) as [U _]. rewrite cmov_keep in El by (apply U || apply one_ok).
  apply sign_loop_nonce in El as (k & Uk & Es); [|done|done].
  destruct (sig_sign_spec d m k (proj1 U) Km Uk) as (r' & s' & h & E' & Kr & Ks & Ls & _).
  rewrite Es in E'. injection E' as <- <- Er _.
  destruct (recid_bits (N <=? x_of (zmul (val k) generator)) (Z.odd (y_of (zmul (val k) generator))) h) as (Rg & _).
  rewrite <- Er in Rg. rewrite !cmov_keep in E by (done || apply scalar_zero_ok). injection E as <-. cbn [rs_r rs_s rs_recid].
  rewrite u8_id by (unfold is_u8; lia). split; [done|]. split; [done|]. by exists k.
Qed.

Lemma create_spec key32 : bytes32 key32 ->
  secp256k1_ec_pubkey_create key32 =
  if (scalar_set_b32_seckey key32).2 then Some (zmul (val (scalar_set_b32_seckey key32).1) generator) else None.
Proof.
  intros Hk. unfold secp256k1_ec_pubkey_create, ec_pubkey_create_helper.
  destruct (seckey_ok key32 Hk) as [Kd Ud]. destruct (scalar_set_b32_seckey key32) as [d ok]. cbn [fst snd] in *.
  destruct ok; [|done]. rewrite cmov_keep by (done || apply one_ok). by rewrite ecmult_gen_spec.
Qed.

Lemma recover_sign fuel msg32 key32 rs :
  bytes32 msg32 -> bytes32 key32 ->
  secp256k1_ecdsa_sign_recoverable mem fuel msg32 key32 = Some rs ->
  secp256k1_ecdsa_recover rs msg32 = secp256k1_ec_pubkey_create key32.
Proof.
  intros Hm Hk E. destruct (sign_recoverable_inv _ _ _ _ Hm Hk E) as (Hv & U & k & Uk & Es & _).
  rewrite create_spec, Hv by done. destruct (set_b32_ok msg32 Hm) as [Km _].
  apply sig_sign_recovers in Es as [Er _]; [|apply U|done|done|done].
  unfold secp256k1_ecdsa_recover. by destruct (scalar_set_b32 msg32).
Qed.

(** ** Encodings *)

Lemma compact_halves r s : limbs_ok r -> limbs_ok s ->
  take 32 (scalar_get_b32 r ++ scalar_get_b32 s) = scalar_get_b32 r /\
  take 32 (drop 32 (scalar_get_b32 r ++ scalar_get_b32 s)) = scalar_get_b32 s.
Proof.
  intros Hr Hs. destruct (get_b32_spec r Hr) as (_ & _ & Lr), (get_b32_spec s Hs) as (_ & _ & Ls).
  rewrite take_app_length', drop_app_length' by done. by rewrite take_ge by lia.
Qed.

Lemma parse_compact_serialize rs :
  scalar_ok (rs_r rs) -> scalar_ok (rs_s rs) -> 0 <= rs_recid rs <= 3 ->
  recoverable_signature_parse_compact (recoverable_signature_serialize_compact rs).1
    (recoverable_signature_serialize_compact rs).2 = Some rs.
Proof.
  intros Kr Ks R. unfold recoverable_signature_parse_compact, recoverable_signature_serialize_compact. cbn [fst snd].
  destruct (compact_halves (rs_r rs) (rs_s rs)) as [-> ->]; [apply Kr|apply Ks|]. z_tests. cbn [andb negb].
  rewrite !set_get_b32 by done. cbn [Z.eqb andb]. rewrite u8_id by (unfold is_u8; lia). by destruct rs.
Qed.

Lemma verify_sign fuel msg32 key32 rs pk :
  bytes32 msg32 -> bytes32 key32 ->
  secp256k1_ecdsa_sign_recoverable mem fuel msg32 key32 = Some rs ->
  secp256k1_ec_pubkey_create key32 = Some pk ->
  exists sg, secp256k1_signature_parse_compact (recoverable_signature_serialize_compact rs).1 = Some sg /\
    secp256k1_ecdsa_verify (secp256k1_signature_normalize sg).1 msg32 pk = true.
Proof.
  intros Hm Hk E Ec. destruct (sign_recoverable_inv _ _ _ _ Hm Hk E) as (Hv & U & k & Uk & Es & Kr & Ks & Ls & _).
  rewrite create_spec, Hv in Ec by done. injection Ec as <-. destruct (set_b32_ok msg32 Hm) as [Km _].
  exists (mkSig (rs_r rs) (rs_s rs)). split.
  { unfold secp256k1_signature_parse_compact, recoverable_signature_serialize_compact. cbn [fst].
    destruct (compact_halves (rs_r rs) (rs_s rs)) as [-> ->]; [apply Kr|apply Ks|]. by rewrite !set_get_b32. }
  assert (H0 : scalar_is_high (rs_s rs) = 0).
  { rewrite is_high_spec by apply Ks. by rewrite (proj2 (Z.ltb_ge (N / 2) (val (rs_s rs)))). }
  unfold secp256k1_ecdsa_verify, secp256k1_signature_normalize. cbn [es_r es_s fst]. rewrite H0. cbn [Z.eqb negb es_s].
  apply sig_sign_verifies in Es; [|apply U|done|done].
  destruct (scalar_set_b32 msg32) as [m o]. cbn [fst] in Es. rewrite H0. cbn [Z.eqb andb].
  unfold pubkey_load. pose proof (x_range _ (unit_finite _ U)). by z_tests.
Qed.

Lemma pubkey_roundtrip A : A <> infinity ->
  exists b, secp256k1_ec_pubkey_serialize A false = Some (0x04 :: b) /\ length b = 64%nat /\ bytes_ok b /\
    secp256k1_ec_pubkey_parse (0x04 :: b) = Some A.
Proof.
  intros HA. pose proof (x_range A HA) as X. pose proof (y_range A HA) as Y.
  destruct (fe_get_b32_ok (x_of A)) as (Ex & Bx & Lx); [lia|]. destruct (fe_get_b32_ok (y_of A)) as (Ey & By & Ly); [lia|].
  exists (fe_get_b32 (x_of A) ++ fe_get_b32 (y_of A)).
  unfold secp256k1_ec_pubkey_serialize, pubkey_load, eckey_pubkey_serialize. z_tests. rewrite is_infinity_false by done.
  split; [done|]. split; [rewrite length_app; lia|]. split; [by apply bytes_ok_app|].
  unfold secp256k1_ec_pubkey_parse, eckey_pubkey_parse. change (at_ (0x04 :: _) 0) with 0x04.
  assert (Lz : zlen (0x04 :: fe_get_b32 (x_of A) ++ fe_get_b32 (y_of A)) = 65)
    by (rewrite zlen_cons, zlen_app; unfold zlen; lia).
  rewrite Lz. cbn [Z.eqb Pos.eqb andb orb].
  assert (D1 : fe_set_b32_limit (drop 1 (0x04 :: fe_get_b32 (x_of A) ++ fe_get_b32 (y_of A))) = (x_of A, true)).
  { unfold fe_set_b32_limit. cbn [drop skipn]. rewrite drop_0, take_app_length', Ex by done. f_equal. apply Z.ltb_lt. lia. }
  assert (D2 : fe_set_b32_limit (drop 33 (0x04 :: fe_get_b32 (x_of A) ++ fe_get_b32 (y_of A))) = (y_of A, true)).
  { unfold fe_set_b32_limit. cbn [drop skipn]. rewrite drop_app_length', take_ge, Ey by (done || lia). f_equal. apply Z.ltb_lt. lia. }
  rewrite D1, D2. cbn [negb orb]. by apply set_xy_point.
Qed.

End Api.

(** ** The instance *)

(** The [n] bytes at a pointer. *)
Definition bytes_at (n : nat) (b : Bytes) : Bytes := TestCurve.fit n b.

Lemma bytes_at_32 b : bytes32 (bytes_at 32 b).
Proof. split; [apply TestCurve.fit_length|apply TestCurve.fit_bytes]. Qed.

#[local] Hint Resolve bytes_at_32 : gambit.

Section Instance.
Context `{MI : Modinv} `{EC : Curve} (mem : hmac_sha256) (fuel : nat).

(** The functions keys.cpp calls. A failed [secp256k1_ec_pubkey_serialize]
    leaves the cleared output. *)
Definition secp : Secp256k1 := {|
  secp_pubkey := point;
  secp_recsig := recoverable_signature;
  secp_sig := ecdsa_signature;
  ec_seckey_verify sk := secp256k1_ec_seckey_verify (bytes_at 32 sk);
  ec_pubkey_create sk := secp256k1_ec_pubkey_create (bytes_at 32 sk);
  ec_pubkey_serialize pk := default (replicate 65 0) (secp256k1_ec_pubkey_serialize pk false);
  ec_pubkey_parse b := secp256k1_ec_pubkey_parse b;
  ecdsa_sign_recoverable msg sk := secp256k1_ecdsa_sign_recoverable mem fuel (bytes_at 32 msg) (bytes_at 32 sk);
  recoverable_serialize_compact := recoverable_signature_serialize_compact;
  recoverable_parse_compact := recoverable_signature_parse_compact;
  ecdsa_recover rs msg := secp256k1_ecdsa_recover rs (bytes_at 32 msg);
  signature_parse_compact := secp256k1_signature_parse_compact;
  signature_normalize sg := (secp256k1_signature_normalize sg).1;
  ecdsa_verify sg msg pk := secp256k1_ecdsa_verify sg (bytes_at 32 msg) pk;
|}.

Context {ML : ModinvLaws MI} {EL : CurveLaws EC} (M : mem_ok mem).

Lemma created_point sk pk :
  secp256k1_ec_pubkey_create (bytes_at 32 sk) = Some pk -> pk <> infinity.
Proof.
  intros E. rewrite create_spec in E by auto with gambit. destruct (seckey_ok _ (bytes_at_32 sk)) as [_ U].
  destruct (scalar_set_b32_seckey _) as [d ok]. cbn [fst snd] in *. destruct ok; [|done].
  injection E as <-. apply unit_finite. by apply U.
Qed.

(** The laws Keys.v asks for hold of the library. *)
#[export] Instance secp_laws : Secp256k1Laws secp.
Proof.
  split.
  - intros sk pk E. destruct (pubkey_roundtrip pk (created_point sk pk E)) as (b & Eb & L & B & _).
    exists b. cbn. by rewrite Eb.
  - intros sk pk E. destruct (pubkey_roundtrip pk (created_point sk pk E)) as (b & Eb & _ & _ & Ep).
    cbn. by rewrite Eb.
  - intros sk V. cbn in *. rewrite create_spec by auto with gambit. unfold secp256k1_ec_seckey_verify in V.
    rewrite V. by eexists.
  - intros msg sk rs E. apply sign_recoverable_inv in E as (_ & _ & k & _ & _ & Kr & Ks & _ & R); [|done|auto with gambit..].
    cbn [recoverable_serialize_compact secp]. unfold recoverable_signature_serialize_compact. cbn [fst snd].
    destruct (get_b32_spec _ (proj1 Kr)) as (_ & Br & Lr), (get_b32_spec _ (proj1 Ks)) as (_ & Bs & Ls).
    split; [rewrite length_app; lia|]. split; [by apply bytes_ok_app|done].
  - intros msg sk rs E. apply sign_recoverable_inv in E as (_ & _ & k & _ & _ & Kr & Ks & _ & R); [|done|auto with gambit..].
    by apply parse_compact_serialize.
  - intros msg sk rs E. apply (recover_sign mem M) in E; [done|auto with gambit..].
  - intros msg sk rs pk E C. apply (verify_sign mem M fuel (bytes_at 32 msg) (bytes_at 32 sk)); auto with gambit.
Qed.

(** The stored [s] is at most half the order. *)
Lemma signed_low kp msg c sig : @sign secp kp msg c = Ok sig -> be_val (sig_s sig) <= N / 2.
Proof.
  unfold sign. destruct (@ecdsa_sign_recoverable secp msg (priv_ kp)) as [rs|] eqn:E; [|done].
  apply sign_recoverable_inv in E as (_ & _ & k & _ & _ & Kr & Ks & L & _); [|done|auto with gambit..].
  cbn [recoverable_serialize_compact secp]. unfold recoverable_signature_serialize_compact. 
  intros Es. apply (f_equal (fun r => match r with Ok g => sig_s g | _ => [] end)) in Es. cbn [sig_s] in Es.
  destruct (compact_halves (rs_r rs) (rs_s rs)) as [_ Eh]; [apply Kr|apply Ks|].
  rewrite Eh in Es. rewrite <- Es.
  by rewrite (proj1 (get_b32_spec _ (proj1 Ks))).
Qed.

End Instance.

(** ** Properties *)

(** C13: signing, recovery and verification down to the group laws. For a key
    pair and a signature made with libsecp256k1's own code (scalars in four
    limbs, RFC 6979 nonces from SHA-256, low-s normalization), over any group
    and inversion that satisfy their laws: the signature's [s] is in the low
    half, [KeyPair::verify] accepts it, and for a recovery id 0 or 1
    [recoverAddress] returns the key pair's address. *)
Theorem libsecp_keys_correct `{MI : Modinv} {ML : ModinvLaws MI} `{EC : Curve} {EL : CurveLaws EC}
    (mem : hmac_sha256) (fuel : nat) (sk : Bytes) (kp : KeyPair) (msg : Bytes) (c c' : Z) (sig : Signature) :
  mem_ok mem ->
  @fromPrivateKey (secp mem fuel) sk = Ok kp -> @sign (secp mem fuel) kp msg c = Ok sig ->
  be_val (sig_s sig) <= N / 2 /\
  @verify (secp mem fuel) msg sig (pub_ kp) = Ok true /\
  (sig_v sig <= 1 -> @recoverAddress (secp mem fuel) msg sig c' = address kp).
Proof.
  intros M K E. pose proof (secp_laws mem fuel M) as SL.
  apply (@fromPrivateKey_ok (secp mem fuel) SL) in K as [K _].
  split; [by apply (signed_low mem fuel M kp msg c)|].
  split; [by apply (@verify_own (secp mem fuel) SL kp msg c)|].
  intros Hv. by apply (@recover_own (secp mem fuel) SL kp msg c).
Qed.

(** The key 1, 2, ..., 32 in the toy group, with real SHA-256 nonces. *)
Definition toy_secp : Secp256k1 := @secp Toy.modinv Toy.curve Toy.memory 4.

Definition toy_sk : Bytes := Z.of_nat <$> seq 1 32.

Definition toy_kp : KeyPair :=
  Eval vm_compute in match @fromPrivateKey toy_secp toy_sk with Ok kp => kp | _ => default_keypair end.

Definition toy_sig : Signature :=
  Eval vm_compute in match @sign toy_secp toy_kp (replicate 32 0x5A) 1 with Ok s => s | _ => empty_signature end.

Lemma libsecp_keys_correct_witness :
  @verify toy_secp (replicate 32 0x5A) toy_sig (pub_ toy_kp) = Ok true /\
  @recoverAddress toy_secp (replicate 32 0x5A) toy_sig 7 = address toy_kp.
Proof.
  destruct (@libsecp_keys_correct Toy.modinv _ Toy.curve _ Toy.memory 4 toy_sk toy_kp (replicate 32 0x5A) 1 7 toy_sig)
    as (_ & V & R); [by split|by vm_compute|by vm_compute|].
  split; [exact V|]. apply R. by vm_compute.
Defined.
