(* ===== verification/Transaction.v ===== *)
(** * Transactions (src/src/transaction.cpp, src/include/gambit/transaction.hpp)

    The EIP-155 transaction: its two RLP encodings, signing, sender
    verification and the wire format. *)

From stdpp Require Import base list numbers strings.
From Stdlib Require Import ZArith Lia.
From S2P Require Import Prelude Keccak Hash Rlp Address Keys.

#[local] Open Scope Z_scope.

(** transaction.hpp 13-56. *)
Record Transaction : Type := mkTransaction {
  tx_nonce : Z;
  tx_gasPrice : Z;
  tx_gasLimit : Z;
  tx_to : Address;
  tx_value : Z;
  tx_data : Bytes;
  tx_chainId : Z;
  tx_from : Address;
  tx_sig : Signature;
  tx_hash : std_string;
}.

#[export] Instance Transaction_eq_dec : EqDecision Transaction.
Proof. solve_decision. Defined.

(** The default member initialisers, transaction.hpp 16-30. *)
Definition default_transaction : Transaction :=
  mkTransaction 0 0 0 Address.zero 0 [] 1 Address.zero empty_signature [].

(** transaction.cpp 17-24 and 47-54: a zero [to] is the empty string. *)
Definition encode_to (to : Address) : Bytes :=
  if bool_decide (bytes_ to = replicate 20 0) then encodeBytes [] else encodeBytes (bytes_ to).

(** transaction.cpp 7-35. *)
Definition rlpEncodeForSigning (tx : Transaction) : Bytes :=
  encodeList
    [ encodeUint (tx_nonce tx);
      encodeUint (tx_gasPrice tx);
      encodeUint (tx_gasLimit tx);
      encode_to (tx_to tx);
      encodeUint (tx_value tx);
      encodeBytes (tx_data tx);
      encodeUint (tx_chainId tx);
      encodeUint 0;
      encodeUint 0 ].

(** transaction.cpp 60. *)
Definition full_v (tx : Transaction) : Z :=
  u64 (u64 (sig_v (tx_sig tx) + 35) + u64 (2 * tx_chainId tx)).

(** transaction.cpp 37-67. *)
Definition rlpEncodeSigned (tx : Transaction) : Bytes :=
  encodeList
    [ encodeUint (tx_nonce tx);
      encodeUint (tx_gasPrice tx);
      encodeUint (tx_gasLimit tx);
      encode_to (tx_to tx);
      encodeUint (tx_value tx);
      encodeBytes (tx_data tx);
      encodeUint (full_v tx);
      encodeBytes (sig_r (tx_sig tx));
      encodeBytes (sig_s (tx_sig tx)) ].

(** transaction.cpp 69-73. *)
Definition signingHash (tx : Transaction) : Bytes := keccak256_32 (rlpEncodeForSigning tx).

(** transaction.cpp 172-177. *)
Definition computeHash (tx : Transaction) : std_string :=
  str "0x" ++ Hash.toHex (keccak256 (rlpEncodeSigned tx)).

(** transaction.cpp 96-100. *)
Definition toHex (tx : Transaction) : std_string := str "0x" ++ Hash.toHex (rlpEncodeSigned tx).

(** The lambda of transaction.cpp 118-124. *)
Definition toUint (b : Bytes) : Z := be_fold b.

(** [L[i].bytes]. *)
Definition field (L : list Decoded) (i : nat) : Bytes :=
  match L !! i with Some d => d_bytes d | None => [] end.

Section WithSecp.
Context {SC : Secp256k1}.

(** transaction.cpp 75-94. *)
Definition verifySignature (tx : Transaction) : res bool :=
  catch_all
    (recovered ← recoverAddress (signingHash tx) (tx_sig tx) (tx_chainId tx);
     if negb (isZero (tx_from tx)) && negb (Address.eqb recovered (tx_from tx)) then Ok false
     else Ok true)
    (Ok false).

(** transaction.cpp 102-170. *)
Definition fromHex (hex : std_string) : res Transaction :=
  let h := strip0x hex in
  raw ← Hash.fromHex h;
  root ← decode raw;
  if negb (d_isList root) || (zlen (d_list root) <? 9) then
    Throw "Transaction::fromHex: invalid RLP tx"
  else
    let L := d_list root in
    to ← (if bool_decide (field L 3 = []) then Ok Address.zero else Address.fromBytes (field L 3));
    let vFull := toUint (field L 6) in
    let r := field L 7 in
    let s := field L 8 in
    if negb (zlen r =? 32) || negb (zlen s =? 32) then
      Throw "Transaction::fromHex: invalid r/s size"
    else
      let chainId := if vFull >=? 35 then (vFull - 35) / 2 else 0 in
      let sig := mkSignature r s (u8 vFull) in
      let tx := mkTransaction (toUint (field L 0)) (toUint (field L 1)) (toUint (field L 2)) to
                  (toUint (field L 4)) (field L 5) chainId Address.zero sig [] in
      let hash := computeHash tx in
      let msgHash := signingHash tx in
      from ← recoverAddress msgHash sig chainId;
      Ok (mkTransaction (tx_nonce tx) (tx_gasPrice tx) (tx_gasLimit tx) to (tx_value tx)
            (tx_data tx) chainId from sig hash).

(** transaction.cpp 179-188. *)
Definition signWith (tx : Transaction) (key : KeyPair) : res Transaction :=
  let hash32 := signingHash tx in
  sig ← sign key hash32 (tx_chainId tx);
  from ← address key;
  let tx := mkTransaction (tx_nonce tx) (tx_gasPrice tx) (tx_gasLimit tx) (tx_to tx) (tx_value tx)
              (tx_data tx) (tx_chainId tx) from sig (tx_hash tx) in
  Ok (mkTransaction (tx_nonce tx) (tx_gasPrice tx) (tx_gasLimit tx) (tx_to tx) (tx_value tx)
        (tx_data tx) (tx_chainId tx) from sig (computeHash tx)).

End WithSecp.

(** A transfer on chain 1, and the same signed by a key pair of the concrete
    scheme of Keys.v. *)
Module Sample.

Definition key : KeyPair := mkKeyPair (replicate 32 7) (replicate 64 7).

Definition transfer : Transaction :=
  mkTransaction 0 0 21000 (mkAddress (replicate 20 9)) 5 [1; 2] 1 Address.zero empty_signature [].

Definition signed : Transaction := Eval vm_compute in
  match @signWith TestCurve.curve transfer key with Ok t => t | _ => default_transaction end.

Definition reread : Transaction := Eval vm_compute in
  match @fromHex TestCurve.curve (toHex signed) with Ok t => t | _ => default_transaction end.

End Sample.

(** ** Well-formed transactions: every member in the range of its type *)

Record tx_ok (tx : Transaction) : Prop := {
  ok_nonce : is_u64 (tx_nonce tx);
  ok_gasPrice : is_u64 (tx_gasPrice tx);
  ok_gasLimit : is_u64 (tx_gasLimit tx);
  ok_to : addr_ok (tx_to tx);
  ok_value : is_u64 (tx_value tx);
  ok_data : bytes_ok (tx_data tx);
  ok_chainId : is_u64 (tx_chainId tx);
  ok_from : addr_ok (tx_from tx);
  ok_v : is_u8 (sig_v (tx_sig tx));
  ok_r : bytes_ok (sig_r (tx_sig tx));
  ok_s : bytes_ok (sig_s (tx_sig tx));
}.

(** [tx_ok] of a concrete transaction, by evaluation. *)
Ltac tx_ok_tac :=
  split; cbn; first [by split|apply (bool_decide_unpack _); by vm_compute].

(** ** The encodings as items *)

Definition to_bytes (to : Address) : Bytes :=
  if bool_decide (bytes_ to = replicate 20 0) then [] else bytes_ to.

Definition head_items (tx : Transaction) : list item :=
  [ Str (be_bytes (tx_nonce tx)); Str (be_bytes (tx_gasPrice tx)); Str (be_bytes (tx_gasLimit tx));
    Str (to_bytes (tx_to tx)); Str (be_bytes (tx_value tx)); Str (tx_data tx) ].

Definition signed_items (tx : Transaction) : list item :=
  head_items tx ++
  [Str (be_bytes (full_v tx)); Str (sig_r (tx_sig tx)); Str (sig_s (tx_sig tx))].

Definition unsigned_items (tx : Transaction) : list item :=
  head_items tx ++ [Str (be_bytes (tx_chainId tx)); Str []; Str []].

Lemma encode_to_bytes to : encode_to to = encode_item (Str (to_bytes to)).
Proof. unfold encode_to, to_bytes. by case_bool_decide. Qed.

Lemma full_v_range tx : is_u64 (full_v tx).
Proof. apply u64_range. Qed.

Lemma full_v_small tx :
  0 <= sig_v (tx_sig tx) -> 0 <= tx_chainId tx -> sig_v (tx_sig tx) + 35 + 2 * tx_chainId tx < 2 ^ 64 ->
  full_v tx = 35 + 2 * tx_chainId tx + sig_v (tx_sig tx).
Proof.
  intros Hv Hc H. unfold full_v. rewrite (u64_id (_ + 35)), (u64_id (2 * _)), u64_id
    by (unfold is_u64; lia). lia.
Qed.

Lemma rlpEncodeSigned_item tx : tx_ok tx -> rlpEncodeSigned tx = encode_item (Lst (signed_items tx)).
Proof.
  intros O. unfold rlpEncodeSigned. rewrite encode_to_bytes, !encodeUint_item by apply O || apply full_v_range.
  reflexivity.
Qed.

Lemma rlpEncodeForSigning_item tx :
  tx_ok tx -> rlpEncodeForSigning tx = encode_item (Lst (unsigned_items tx)).
Proof.
  intros O. unfold rlpEncodeForSigning. rewrite encode_to_bytes, !encodeUint_item by apply O || by split.
  reflexivity.
Qed.

Lemma to_bytes_ok to : addr_ok to -> bytes_ok (to_bytes to).
Proof. intros [_ H]. unfold to_bytes. case_bool_decide; [constructor|done]. Qed.

Lemma to_bytes_inj a b : addr_ok a -> addr_ok b -> to_bytes a = to_bytes b -> a = b.
Proof.
  intros [La _] [Lb _]. unfold to_bytes. destruct a as [x], b as [y]. cbn [bytes_] in *.
  case_bool_decide; case_bool_decide; intros; subst; try done; congruence.
Qed.

Lemma be_bytes_ok v : is_u64 v -> bytes_ok (be_bytes v).
Proof. intros H. by apply be_bytes_spec. Qed.

Lemma be_bytes_inj v w : is_u64 v -> is_u64 w -> be_bytes v = be_bytes w -> v = w.
Proof. intros Hv Hw E. rewrite <- (be_fold_bytes v), <- (be_fold_bytes w), E; done. Qed.

Lemma head_items_ok tx : tx_ok tx -> Forall item_ok (head_items tx).
Proof.
  intros O. repeat constructor; cbn [item_ok];
    (apply be_bytes_ok || apply to_bytes_ok || idtac); apply O.
Qed.

Lemma signed_items_ok tx : tx_ok tx -> item_ok (Lst (signed_items tx)).
Proof.
  intros O. apply item_ok_Lst, Forall_app. split; [by apply head_items_ok|].
  repeat constructor; cbn [item_ok]; [apply be_bytes_ok, full_v_range|apply O..].
Qed.

Lemma unsigned_items_ok tx : tx_ok tx -> item_ok (Lst (unsigned_items tx)).
Proof.
  intros O. apply item_ok_Lst, Forall_app. split; [by apply head_items_ok|].
  repeat constructor; cbn [item_ok]; apply be_bytes_ok, O.
Qed.

(** ** The wire format *)

Lemma decode_to to :
  addr_ok to ->
  (if bool_decide (to_bytes to = []) then Ok Address.zero else Address.fromBytes (to_bytes to)) = Ok to.
Proof.
  intros [L H]. unfold to_bytes. destruct to as [bs]. cbn [bytes_] in *.
  destruct (bool_decide (bs = replicate 20 0)) eqn:E.
  - apply bool_decide_eq_true in E as ->. done.
  - rewrite bool_decide_eq_false_2 by (intros ->; done). by apply fromBytes_ok.
Qed.

(** What [fromHex] has read when it comes to the sender. *)
Definition received (tx : Transaction) : Transaction :=
  let v := full_v tx in
  mkTransaction (tx_nonce tx) (tx_gasPrice tx) (tx_gasLimit tx) (tx_to tx) (tx_value tx) (tx_data tx)
    (if v >=? 35 then (v - 35) / 2 else 0) Address.zero
    (mkSignature (sig_r (tx_sig tx)) (sig_s (tx_sig tx)) (u8 v)) [].

Definition with_sender (tx : Transaction) (from : Address) : Transaction :=
  mkTransaction (tx_nonce tx) (tx_gasPrice tx) (tx_gasLimit tx) (tx_to tx) (tx_value tx) (tx_data tx)
    (tx_chainId tx) from (tx_sig tx) (computeHash tx).

Definition sig_sized (tx : Transaction) : Prop :=
  length (sig_r (tx_sig tx)) = 32%nat /\ length (sig_s (tx_sig tx)) = 32%nat.

(** A size the node can hold in memory. *)
Definition wire_sized (tx : Transaction) : Prop := zlen (rlpEncodeSigned tx) < 2 ^ 64.

Lemma rlpEncodeSigned_bytes tx : tx_ok tx -> wire_sized tx -> bytes_ok (rlpEncodeSigned tx).
Proof.
  unfold wire_sized. intros O Hs. rewrite rlpEncodeSigned_item in Hs |- * by done.
  apply encode_item_bytes; [by apply signed_items_ok|done].
Qed.

Lemma decode_signed tx :
  tx_ok tx -> wire_sized tx -> decode (rlpEncodeSigned tx) = Ok (to_decoded (Lst (signed_items tx))).
Proof.
  unfold wire_sized. intros O Hs. rewrite rlpEncodeSigned_item in Hs |- * by done.
  apply decode_whole; [by apply signed_items_ok|done].
Qed.

Lemma fromHex_wire {SC : Secp256k1} tx :
  tx_ok tx -> sig_sized tx -> wire_sized tx ->
  fromHex (toHex tx) =
  (from ← recoverAddress (signingHash (received tx)) (tx_sig (received tx)) (tx_chainId (received tx));
   Ok (with_sender (received tx) from)).
Proof.
  intros O [Lr Ls] Hs. unfold fromHex, toHex.
  rewrite strip0x_prefixed, fromHex_toHex by (by apply rlpEncodeSigned_bytes). cbn [mbind res_bind].
  rewrite decode_signed by done. cbn [mbind res_bind].
  change (d_list (to_decoded (Lst (signed_items tx)))) with (to_decoded <$> signed_items tx).
  set (L := to_decoded <$> signed_items tx).
  assert (EL : zlen L = 9) by done. rewrite EL. cbn [d_isList to_decoded negb orb Z.ltb Z.compare Pos.compare Pos.compare_cont].
  assert (F : (forall v, is_u64 v -> toUint (be_bytes v) = v)) by (intros; by apply be_fold_bytes).
  change (field L 3) with (to_bytes (tx_to tx)). rewrite decode_to by apply O. cbn [mbind res_bind].
  change (field L 7) with (sig_r (tx_sig tx)). change (field L 8) with (sig_s (tx_sig tx)).
  change (field L 6) with (be_bytes (full_v tx)). change (field L 5) with (tx_data tx).
  change (field L 0) with (be_bytes (tx_nonce tx)). change (field L 1) with (be_bytes (tx_gasPrice tx)).
  change (field L 2) with (be_bytes (tx_gasLimit tx)). change (field L 4) with (be_bytes (tx_value tx)).
  rewrite !F by apply O || apply full_v_range. unfold zlen. rewrite Lr, Ls. reflexivity.
Qed.

(** A signature with a bare recovery id, on a chain whose full [v] fits a byte. *)
Lemma received_small tx :
  tx_ok tx -> sig_v (tx_sig tx) = 0 \/ sig_v (tx_sig tx) = 1 -> tx_chainId tx <= 109 ->
  tx_chainId (received tx) = tx_chainId tx /\
  sig_v (tx_sig (received tx)) = 35 + 2 * tx_chainId tx + sig_v (tx_sig tx).
Proof.
  intros O Hv Hc. destruct (ok_chainId _ O) as [Hc0 _].
  unfold received. cbn [tx_chainId tx_sig sig_v]. rewrite full_v_small by lia. z_tests. split.
  - symmetry. apply Z.div_unique with (sig_v (tx_sig tx)); lia.
  - apply u8_id. unfold is_u8. lia.
Qed.

Lemma signingHash_ext tx tx' :
  tx_nonce tx = tx_nonce tx' -> tx_gasPrice tx = tx_gasPrice tx' -> tx_gasLimit tx = tx_gasLimit tx' ->
  tx_to tx = tx_to tx' -> tx_value tx = tx_value tx' -> tx_data tx = tx_data tx' ->
  tx_chainId tx = tx_chainId tx' -> signingHash tx = signingHash tx'.
Proof. intros. unfold signingHash, rlpEncodeForSigning. congruence. Qed.

Lemma recover_received {SC : Secp256k1} tx :
  tx_ok tx -> sig_v (tx_sig tx) = 0 \/ sig_v (tx_sig tx) = 1 -> tx_chainId tx <= 109 ->
  recoverAddress (signingHash (received tx)) (tx_sig (received tx)) (tx_chainId (received tx))
  = recoverAddress (signingHash tx) (tx_sig tx) (tx_chainId tx).
Proof.
  intros O Hv Hc. destruct (received_small tx O Hv Hc) as [Ec Ev].
  rewrite (signingHash_ext (received tx) tx), Ec by done.
  unfold recoverAddress. rewrite Ev, recovery_id_full by (destruct (ok_chainId _ O); lia).
  cbn [mbind res_bind received tx_sig sig_r sig_s].
  assert (E : recovery_id (sig_v (tx_sig tx)) (tx_chainId tx) = Ok (sig_v (tx_sig tx))).
  { unfold recovery_id. by destruct Hv as [-> | ->]. }
  by rewrite E.
Qed.

(** The check of the signature never lets an exception out. *)
Lemma verifySignature_total {SC : Secp256k1} tx : exists ok, verifySignature tx = Ok ok.
Proof.
  unfold verifySignature.
  destruct (recoverAddress_returns (signingHash tx) (tx_sig tx) (tx_chainId tx)) as [[a ->]|[w ->]]; cbn; [|eauto].
  destruct (_ && _); eauto.
Qed.

(** A transaction signed by a key pair. *)
Lemma signWith_inv {SC : Secp256k1} tx key tx' :
  signWith tx key = Ok tx' ->
  exists sig from,
    sign key (signingHash tx) (tx_chainId tx) = Ok sig /\ address key = Ok from /\
    signingHash tx' = signingHash tx /\
    tx' = mkTransaction (tx_nonce tx) (tx_gasPrice tx) (tx_gasLimit tx) (tx_to tx) (tx_value tx)
            (tx_data tx) (tx_chainId tx) from sig (computeHash tx') .
Proof.
  unfold signWith. intros H.
  apply bind_Ok in H as (sig & Es & H). apply bind_Ok in H as (from & Ea & H). injection H as <-.
  exists sig, from. done.
Qed.

Lemma signWith_ok {SC : Secp256k1} {SL : Secp256k1Laws SC} tx key tx' :
  tx_ok tx -> signWith tx key = Ok tx' -> tx_ok tx' /\ sig_sized tx'.
Proof.
  intros O H. destruct (signWith_inv _ _ _ H) as (sig & from & Es & Ea & _ & ->).
  apply sign_shape in Es as (Lr & Ls & Br & Bs & Hv). apply address_ok in Ea.
  split; [|done]. destruct O. split; cbn; try done. unfold is_u8. lia.
Qed.

(** A signed transaction as its receiver has it. *)
Lemma signed_received {SC : Secp256k1} {SL : Secp256k1Laws SC} key tx stx :
  keypair_ok key -> tx_ok tx -> tx_chainId tx <= 109 ->
  signWith tx key = Ok stx -> sig_v (tx_sig stx) <= 1 -> wire_sized stx ->
  exists from, address key = Ok from /\ tx_chainId (received stx) = tx_chainId tx /\
    fromHex (toHex stx) = Ok (with_sender (received stx) from) /\
    verifySignature (with_sender (received stx) from) = Ok true.
Proof.
  intros K O Hc E Hv Hs. destruct (signWith_ok _ _ _ O E) as [O' Sz].
  destruct (signWith_inv _ _ _ E) as (sig & from & Es & Ea & Eh & Etx).
  assert (Es' : tx_sig stx = sig /\ tx_chainId stx = tx_chainId tx) by (rewrite Etx; done).
  destruct Es' as [Esig Ecid].
  assert (V : sig_v (tx_sig stx) = 0 \/ sig_v (tx_sig stx) = 1) by (destruct (ok_v _ O'); lia).
  destruct (received_small stx O' V ltac:(lia)) as [Ec Ev].
  assert (R : recoverAddress (signingHash (received stx)) (tx_sig (received stx)) (tx_chainId (received stx))
              = Ok from).
  { rewrite recover_received by (done || lia). rewrite Eh, Esig. rewrite <- Ea.
    apply recover_own with (tx_chainId tx); [done..|by rewrite <- Esig]. }
  exists from. rewrite fromHex_wire, R by done. split; [done|]. split; [congruence|]. split; [done|].
  unfold verifySignature.
  change (signingHash (with_sender (received stx) from)) with (signingHash (received stx)).
  change (tx_sig (with_sender (received stx) from)) with (tx_sig (received stx)).
  change (tx_chainId (with_sender (received stx) from)) with (tx_chainId (received stx)).
  rewrite R. cbn [mbind res_bind]. change (tx_from (with_sender (received stx) from)) with from.
  rewrite (proj2 (Address.eqb_eq from from) eq_refl), andb_false_r. done.
Qed.

(** The wire form determines the fields it carries. *)
Lemma signed_items_v tx tx' :
  signed_items tx = signed_items tx' -> full_v tx = full_v tx'.
Proof. intros E. injection E as _ _ _ _ _ _ E _ _. by apply be_bytes_inj in E; try apply full_v_range. Qed.

Lemma unsigned_items_inj tx tx' :
  tx_ok tx -> tx_ok tx' -> unsigned_items tx = unsigned_items tx' ->
  tx_nonce tx = tx_nonce tx' /\ tx_gasPrice tx = tx_gasPrice tx' /\
  tx_gasLimit tx = tx_gasLimit tx' /\ tx_to tx = tx_to tx' /\ tx_value tx = tx_value tx' /\
  tx_data tx = tx_data tx' /\ tx_chainId tx = tx_chainId tx'.
Proof.
  intros O O' E. injection E as E1 E2 E3 E4 E5 E6 E7.
  apply be_bytes_inj in E1, E2, E3, E5, E7; try apply O; try apply O'.
  apply to_bytes_inj in E4; try apply O; try apply O'. done.
Qed.

Lemma received_ok tx : tx_ok tx -> tx_ok (received tx).
Proof.
  intros O. pose proof (full_v_range tx) as [H0 H1]. destruct O. split; cbn; try done.
  - unfold is_u64. destruct (_ >=? 35) eqn:E; to_prop; [|lia].
    split; [apply Z.div_pos; lia|apply Z.div_lt_upper_bound; lia].
  - apply zero_ok.
  - apply u8_range.
Qed.

(** The encoders add 35 + 2*chainId to a [v] that [fromHex] has left full. *)
Lemma received_encoding_differs tx :
  tx_ok tx -> wire_sized tx -> sig_v (tx_sig tx) = 0 \/ sig_v (tx_sig tx) = 1 -> tx_chainId tx <= 109 ->
  rlpEncodeSigned (received tx) <> rlpEncodeSigned tx.
Proof.
  unfold wire_sized. intros O W V Hc Eq. rewrite !rlpEncodeSigned_item in * by (try apply received_ok; done). symmetry in Eq.
  apply encode_item_inj in Eq; [|by apply signed_items_ok|by apply signed_items_ok, received_ok|done].
  apply (f_equal (fun it => if it is Lst l then l else [])) in Eq. apply signed_items_v in Eq.
  destruct (received_small tx O V Hc) as [Ec Ev]. destruct (ok_chainId _ O) as [Hc0 _].
  rewrite !full_v_small in Eq by lia. lia.
Qed.

(** How the receiver [rtx] of a transaction [tx], signed as [stx] by the
    holder of the address [from], stands to them: the transfer, the sender
    and the two halves of the signature are the signer's, [v] is the full
    [v] of the wire, and the hash is that of the receiver's own encoding,
    which the signer's hash equals only if Keccak-256 collides. *)
Record as_received (tx stx : Transaction) (from : Address) (rtx : Transaction) : Prop := {
  rcv_nonce : tx_nonce rtx = tx_nonce tx;
  rcv_gasPrice : tx_gasPrice rtx = tx_gasPrice tx;
  rcv_gasLimit : tx_gasLimit rtx = tx_gasLimit tx;
  rcv_to : tx_to rtx = tx_to tx;
  rcv_value : tx_value rtx = tx_value tx;
  rcv_data : tx_data rtx = tx_data tx;
  rcv_chainId : tx_chainId rtx = tx_chainId tx;
  rcv_from : tx_from rtx = from;
  rcv_r : sig_r (tx_sig rtx) = sig_r (tx_sig stx);
  rcv_s : sig_s (tx_sig rtx) = sig_s (tx_sig stx);
  rcv_v : sig_v (tx_sig rtx) = 35 + 2 * tx_chainId tx + sig_v (tx_sig stx);
  rcv_hash : tx_hash rtx = computeHash rtx;
  rcv_other_hash : tx_hash rtx = tx_hash stx -> collision (rlpEncodeSigned rtx) (rlpEncodeSigned stx);
}.

Lemma signed_as_received {SC : Secp256k1} {SL : Secp256k1Laws SC} key tx stx from :
  keypair_ok key -> tx_ok tx -> tx_chainId tx <= 109 ->
  signWith tx key = Ok stx -> sig_v (tx_sig stx) <= 1 -> wire_sized stx -> address key = Ok from ->
  exists rtx, fromHex (toHex stx) = Ok rtx /\ verifySignature rtx = Ok true /\ as_received tx stx from rtx.
Proof.
  intros K O Hc E Hv Hs Ea. destruct (signed_received key tx stx K O Hc E Hv Hs) as (from' & Ea' & Ec & Er & Ev).
  assert (from' = from) as -> by congruence. destruct (signWith_ok _ _ _ O E) as [O' _].
  destruct (signWith_inv _ _ _ E) as (sig & from' & _ & _ & _ & Etx).
  assert (V : sig_v (tx_sig stx) = 0 \/ sig_v (tx_sig stx) = 1) by (destruct (ok_v _ O'); lia).
  assert (Ecid : tx_chainId stx = tx_chainId tx) by (rewrite Etx; done).
  assert (Eh : tx_hash stx = computeHash stx) by (rewrite Etx at 1; done).
  exists (with_sender (received stx) from). split; [done|]. split; [done|].
  split; try (rewrite Etx; done); try done.
  - change (sig_v (tx_sig (received stx)) = 35 + 2 * tx_chainId tx + sig_v (tx_sig stx)).
    rewrite <- Ecid. apply received_small; [done|done|lia].
  - rewrite Eh. cbn [with_sender tx_hash]. unfold computeHash. intros Eq. apply app_inv_head in Eq.
    apply digest_inj in Eq as [Eq|C]; [|exact C]. exfalso.
    by apply (received_encoding_differs stx O' Hs V ltac:(lia)).
Qed.

(** A full [v] beyond a byte is cut to a value that does not match the chain id. *)
Lemma recovery_id_cut vf :
  is_u64 vf -> 256 <= vf -> u8 vf <> 0 -> u8 vf <> 1 ->
  exists w, recovery_id (u8 vf) ((vf - 35) / 2) = Throw w.
Proof.
  intros [_ H] Hv N0 N1. unfold recovery_id. pose proof (u8_range vf) as [R0 R1]. z_tests. cbn [orb].
  destruct (u8 vf <? 35) eqn:E; [by eexists|]. to_prop.
  destruct (Z.eqb_spec ((u8 vf - 35) / 2) ((vf - 35) / 2)) as [D|D]; [exfalso|by eexists].
  unfold u8 in *. pose proof (Z.div_mod vf (2 ^ 8) ltac:(lia)).
  pose proof (Z.div_mod (vf - 35) 2 ltac:(lia)). pose proof (Z.mod_pos_bound (vf - 35) 2 ltac:(lia)).
  pose proof (Z.div_mod (vf mod 2 ^ 8 - 35) 2 ltac:(lia)).
  pose proof (Z.mod_pos_bound (vf mod 2 ^ 8 - 35) 2 ltac:(lia)). lia.
Qed.

(** ** What the reader returns is well formed *)

Lemma field_ok L i : Forall decoded_ok L -> bytes_ok (field L i).
Proof.
  intros H. unfold field. destruct (L !! i) as [d|] eqn:E; [|constructor].
  apply decoded_ok_list. exact (Forall_lookup_1 _ _ _ _ H E).
Qed.

Lemma recoverAddress_ok {SC : Secp256k1} msg sig c a : recoverAddress msg sig c = Ok a -> addr_ok a.
Proof.
  unfold recoverAddress. intros H. apply bind_Ok in H as (i & _ & H). destruct (_ || _); [done|].
  destruct (recoverable_parse_compact _ _); [|done]. destruct (ecdsa_recover _ _) as [pk|]; [|done].
  apply fromBytes_inv in H as [-> L]. split; [done|]. cbn. apply bytes_ok_drop, keccak256_bytes.
Qed.

Lemma fromHex_ok {SC : Secp256k1} hex tx : fromHex hex = Ok tx -> tx_ok tx.
Proof.
  unfold fromHex. intros H. apply bind_Ok in H as (raw & Er & H). apply fromHex_bytes in Er.
  apply bind_Ok in H as (root & Ed & H). apply decode_bytes in Ed; [|done].
  apply decoded_ok_list in Ed as [_ L]. destruct (_ || _); [done|]. set (ds := d_list root) in *.
  apply bind_Ok in H as (to & Et & H). destruct (_ || _); [done|].
  apply bind_Ok in H as (from & Ef & H). apply Ok_inj in H. subst tx.
  pose proof (fun i => field_ok ds i L) as F.
  assert (U : forall i, is_u64 (toUint (field ds i))) by (intros i; by apply be_fold_range).
  split; cbn; try (apply U); try (apply F); try apply u8_range.
  - destruct (bool_decide _); [injection Et as <-; apply zero_ok|].
    apply fromBytes_inv in Et as [-> Lt]. split; [done|apply F].
  - destruct (U 6%nat) as [U0 U1]. unfold is_u64. destruct (_ >=? 35) eqn:E; to_prop; [|lia].
    split; [apply Z.div_pos; lia|apply Z.div_lt_upper_bound; lia].
  - by apply recoverAddress_ok in Ef.
Qed.

Lemma addr_fromBytes_returns b : returns (Address.fromBytes b).
Proof. unfold fromBytes. destruct (negb _); [right; by eexists|left; by eexists]. Qed.

Lemma fromHex_stops {SC : Secp256k1} hex : zlen hex < 2 ^ 63 -> fromHex hex <> OutOfFuel.
Proof.
  intros S E. unfold fromHex in E.
  destruct (fromHex_returns (strip0x hex)) as [[raw Er]|[w Er]]; rewrite Er in E; [|done]. cbn [mbind res_bind] in E.
  pose proof (fromHex_bytes _ _ Er) as B. apply fromHex_size in Er.
  assert (Hs : zlen (strip0x hex) <= zlen hex).
  { unfold strip0x, zlen. destruct (_ || _); [rewrite length_drop; lia|lia]. }
  pose proof (decode_stops raw B ltac:(lia)) as D. destruct (decode raw) as [root| | |]; try done.
  cbn [mbind res_bind] in E. destruct (_ || _); [done|].
  destruct (bool_decide _); cbn [mbind res_bind] in E.
  - destruct (_ || _); [done|].
    match type of E with (recoverAddress ?m ?s ?c ≫= _) = _ => destruct (recoverAddress_returns m s c) as [[a Ea]|[w Ea]]; rewrite Ea in E end; done.
  - destruct (addr_fromBytes_returns (field (d_list root) 3)) as [[to Et]|[w Et]]; rewrite Et in E; [|done].
    cbn [mbind res_bind] in E. destruct (_ || _); [done|].
    match type of E with (recoverAddress ?m ?s ?c ≫= _) = _ => destruct (recoverAddress_returns m s c) as [[a Ea]|[w Ea]]; rewrite Ea in E end; done.
Qed.

(** ** Properties *)

(** C22: round trip of a signed transaction over the wire. On a chain id up to
    109 and for a signature whose recovery id is 0 or 1 (with 2 or 3 the full
    [v] on the wire is that of the next chain id), the receiver of [toHex] reads back
    nonce, gas price, gas limit, receiver, value, data and chain id as they
    were signed, the two halves of the signature, and the full [v]; it
    recovers the signer as the sender and accepts the signature. The hash it
    stores is that of its own encoding, which differs from the signer's
    unless Keccak-256 collides. *)
Theorem signed_tx_roundtrip {SC : Secp256k1} {SL : Secp256k1Laws SC}
    (sk : Bytes) (key : KeyPair) (tx stx : Transaction) (from : Address) :
  fromPrivateKey sk = Ok key -> address key = Ok from -> tx_ok tx -> tx_chainId tx <= 109 ->
  signWith tx key = Ok stx -> sig_v (tx_sig stx) <= 1 -> wire_sized stx ->
  exists rtx, fromHex (toHex stx) = Ok rtx /\ verifySignature rtx = Ok true /\ as_received tx stx from rtx.
Proof.
  intros K Ea O Hc E Hv Hs. apply fromPrivateKey_ok in K as [K _]. by apply (signed_as_received key).
Qed.

Lemma signed_tx_roundtrip_witness :
  exists rtx, @fromHex TestCurve.curve (toHex Sample.signed) = Ok rtx /\
    @verifySignature TestCurve.curve rtx = Ok true /\ as_received Sample.transfer Sample.signed (tx_from Sample.signed) rtx.
Proof.
  apply (@signed_tx_roundtrip TestCurve.curve _ (replicate 32 7) Sample.key Sample.transfer Sample.signed (tx_from Sample.signed));
    [vm_compute; reflexivity|vm_compute; reflexivity|tx_ok_tac|done|vm_compute; reflexivity|done|vm_compute; reflexivity].
Defined.

(** C23: the signing hash binds the transaction. Two transactions with the same
    signing hash agree on every signed field, the chain id included, unless
    their encodings collide under Keccak-256: a signature cannot be moved to
    another transaction or to another chain. *)
Theorem signingHash_binding (tx tx' : Transaction) :
  tx_ok tx -> tx_ok tx' ->
  zlen (rlpEncodeForSigning tx) < 2 ^ 64 ->
  signingHash tx = signingHash tx' ->
  (tx_nonce tx = tx_nonce tx' /\ tx_gasPrice tx = tx_gasPrice tx' /\
   tx_gasLimit tx = tx_gasLimit tx' /\ tx_to tx = tx_to tx' /\ tx_value tx = tx_value tx' /\
   tx_data tx = tx_data tx' /\ tx_chainId tx = tx_chainId tx') \/
  collision (rlpEncodeForSigning tx) (rlpEncodeForSigning tx').
Proof.
  intros O O' S E.
  destruct (decide (rlpEncodeForSigning tx = rlpEncodeForSigning tx')) as [Er|N]; [left|by right].
  rewrite (rlpEncodeForSigning_item tx), (rlpEncodeForSigning_item tx') in * by done.
  apply encode_item_inj in Er; [|by apply unsigned_items_ok|by apply unsigned_items_ok|done..].
  apply unsigned_items_inj; [done..|congruence].
Qed.

Lemma signingHash_binding_witness :
  tx_nonce default_transaction = tx_nonce default_transaction \/
  collision (rlpEncodeForSigning default_transaction) (rlpEncodeForSigning default_transaction).
Proof.
  destruct (signingHash_binding default_transaction default_transaction) as [[H _]|H];
    [tx_ok_tac|tx_ok_tac|vm_compute; reflexivity|done|by left|by right].
Defined.

(** The wire format loses large chain ids. A signed transaction whose full
    [v] = 35 + 2*chainId + recid needs more than one byte (chain id 111 and
    above, the node's default 1337 among them) cannot be read back: [fromHex]
    keeps only the low byte of [v] and then throws on the chain id, unless
    that byte happens to be 0 or 1. *)
Theorem large_chain_id_rejected {SC : Secp256k1} (tx : Transaction) :
  tx_ok tx -> sig_sized tx -> wire_sized tx ->
  256 <= full_v tx -> u8 (full_v tx) <> 0 -> u8 (full_v tx) <> 1 ->
  exists w, fromHex (toHex tx) = Throw w.
Proof.
  intros O Sz W Hv N0 N1. rewrite fromHex_wire by done.
  destruct (recovery_id_cut (full_v tx) (full_v_range tx) Hv N0 N1) as [w E].
  exists w. unfold recoverAddress. cbn [received tx_sig tx_chainId sig_v]. z_tests. by rewrite E.
Qed.

Lemma large_chain_id_rejected_witness :
  exists w, @fromHex TestCurve.curve
    (toHex (mkTransaction 0 0 0 Address.zero 0 [] 1337 Address.zero
              (mkSignature (replicate 32 1) (replicate 32 1) 0) [])) = Throw w.
Proof.
  apply large_chain_id_rejected; [tx_ok_tac|done|vm_compute; reflexivity|vm_compute; discriminate..].
Defined.

(** The receiver's hash of a transaction is not the sender's. [fromHex]
    keeps the full [v] in [sig.v], and the encoders add 35 + 2*chainId to it
    again: the received transaction re-encodes differently and, short of a
    Keccak collision, its [hash] differs from the hash under which the
    signer knows the transaction. *)
Theorem received_hash_differs {SC : Secp256k1} (tx rtx : Transaction) :
  tx_ok tx -> sig_sized tx -> wire_sized tx ->
  (sig_v (tx_sig tx) = 0 \/ sig_v (tx_sig tx) = 1) -> tx_chainId tx <= 109 ->
  fromHex (toHex tx) = Ok rtx ->
  rlpEncodeSigned rtx <> rlpEncodeSigned tx /\
  (tx_hash rtx = computeHash tx -> collision (rlpEncodeSigned rtx) (rlpEncodeSigned tx)).
Proof.
  intros O Sz W V Hc E. rewrite fromHex_wire in E by done.
  apply bind_Ok in E as (from & _ & E). injection E as <-.
  pose proof (received_encoding_differs tx O W V Hc) as N.
  split; [done|]. cbn [with_sender tx_hash]. unfold computeHash. intros Eh.
  apply app_inv_head in Eh. by apply digest_inj in Eh as [Eh|Eh].
Qed.

Lemma received_hash_differs_witness : rlpEncodeSigned Sample.reread <> rlpEncodeSigned Sample.signed.
Proof.
  refine (proj1 (@received_hash_differs TestCurve.curve Sample.signed Sample.reread _ _ _ _ _ _));
    [tx_ok_tac|done|vm_compute; reflexivity|by left|done|vm_compute; reflexivity].
Defined.
