(* ===== verification/Bloom.v ===== *)
(** * The log filter (src/src/bloom.cpp, src/include/gambit/bloom.hpp)

    A 2048-bit Bloom filter with three positions per element, and its
    refinement of a set of bit positions. *)

From stdpp Require Import base list numbers strings.
From Stdlib Require Import ZArith Lia.
From S2P Require Import Prelude Keccak Hash.

#[local] Open Scope Z_scope.

(** bloom.hpp 13. *)
Definition kBytes : nat := 256.

(** bloom.hpp 11-20. *)
Record Bloom : Type := mkBloom { bits : Bytes }.

#[export] Instance Bloom_eq_dec : EqDecision Bloom.
Proof. solve_decision. Defined.

(** [bits{}]. *)
Definition empty_bloom : Bloom := mkBloom (replicate kBytes 0).

(** The body of the loop, bloom.cpp 9-13. *)
Definition add_bit (h : Bytes) (b : Bloom) (i : nat) : Bloom :=
  let v := u16 (Z.lor (Z.shiftl (nth (2 * i) h 0) 8) (nth (2 * i + 1) h 0)) in
  let v := Z.land v 2047 in
  let byteIndex := Z.shiftr v 3 in
  let bit := u8 (Z.shiftl 1 (Z.land v 7)) in
  mkBloom (alter (fun x => Z.lor x bit) (Z.to_nat byteIndex) (bits b)).

(** bloom.cpp 5-15. *)
Definition add (b : Bloom) (data : Bytes) : Bloom :=
  let h := keccak256 data in
  for_range 3 (add_bit h) b.

(** bloom.cpp 17-20. *)
Definition add_hex (b : Bloom) (hex : std_string) : res Bloom :=
  d ← fromHex hex;
  Ok (add b d).

(** bloom.cpp 22-24. *)
Definition toHex (b : Bloom) : std_string := str "0x" ++ Hash.toHex (bits b).

(** ** The filter as a set of bit positions *)

Definition bloom_ok (b : Bloom) : Prop := length (bits b) = kBytes /\ bytes_ok (bits b).

(** Bit [j] of the filter. *)
Definition bit_set (b : Bloom) (j : Z) : bool :=
  Z.testbit (nth (Z.to_nat (j / 8)) (bits b) 0) (j mod 8).

(** The position that the [i]-th pair of bytes of a digest stands for. *)
Definition position (h : Bytes) (i : nat) : Z :=
  (nth (2 * i) h 0 * 256 + nth (2 * i + 1) h 0) mod 2048.

Definition positions (data : Bytes) : list Z := position (keccak256 data) <$> [0%nat; 1%nat; 2%nat].

Lemma nth_ok (h : Bytes) i : bytes_ok h -> is_u8 (nth i h 0).
Proof.
  intros H. destruct (decide (i < length h)%nat).
  - apply (Forall_nth is_u8 0 h); [exact H|lia].
  - rewrite nth_overflow by lia. by split.
Qed.

Lemma position_range h i : 0 <= position h i < 2048.
Proof. apply Z.mod_pos_bound. lia. Qed.

(** The loop's arithmetic computes the position. *)
Lemma position_code h i :
  bytes_ok h ->
  Z.land (u16 (Z.lor (Z.shiftl (nth (2 * i) h 0) 8) (nth (2 * i + 1) h 0))) 2047 = position h i.
Proof.
  intros H. destruct (nth_ok h (2 * i) H) as [A0 A1]. pose proof (nth_ok h (2 * i + 1) H) as B.
  rewrite (lor_shiftl_add _ _ 8) by (lia || exact B). destruct B as [B0 B1].
  unfold u16. rewrite Z.mod_small by lia.
  change 2047 with (Z.ones 11). rewrite Z.land_ones by lia. reflexivity.
Qed.

Lemma bit_mask_spec p k :
  0 <= p -> 0 <= k < 8 -> Z.testbit (u8 (Z.shiftl 1 (Z.land p 7))) k = (k =? p mod 8).
Proof.
  intros Hp Hk. change 7 with (Z.ones 3). rewrite Z.land_ones by lia. change (2 ^ 3) with 8.
  pose proof (Z.mod_pos_bound p 8 ltac:(lia)) as R. rewrite Z.shiftl_1_l. unfold u8.
  rewrite Z.mod_pow2_bits_low by lia. rewrite Z.pow2_bits_eqb by lia.
  destruct (Z.eqb_spec (p mod 8) k), (Z.eqb_spec k (p mod 8)); lia.
Qed.

Lemma nth_alter (f : Z -> Z) i j (l : Bytes) :
  (i < length l)%nat -> nth j (alter f i l) 0 = if decide (i = j) then f (nth j l 0) else nth j l 0.
Proof.
  intros Hi. destruct (decide (i = j)) as [->|N].
  - destruct (lookup_lt_is_Some_2 l j Hi) as [x E]. rewrite (nth_lookup_Some l j 0 x E).
    apply nth_lookup_Some. by rewrite list_lookup_alter_eq, E.
  - rewrite !nth_lookup. by rewrite list_lookup_alter_ne.
Qed.

Lemma byte_index p : 0 <= p < 2048 -> (Z.to_nat (p / 8) < 256)%nat.
Proof.
  intros [H0 H]. assert (0 <= p / 8 < 256); [|lia].
  split; [apply Z.div_pos; lia|apply Z.div_lt_upper_bound; lia].
Qed.

(** One iteration sets its position and nothing else, in bounds. *)
Lemma add_bit_spec h b i j :
  bloom_ok b -> bytes_ok h -> 0 <= j < 2048 ->
  bit_set (add_bit h b i) j = bit_set b j || (j =? position h i).
Proof.
  intros [L _] H Hj. unfold add_bit, bit_set. rewrite position_code by done.
  pose proof (position_range h i) as R. set (p := position h i) in *. cbn [bits].
  rewrite Z.shiftr_div_pow2 by lia. change (2 ^ 3) with 8.
  rewrite nth_alter by (rewrite L; by apply byte_index).
  pose proof (Z.mod_pos_bound j 8 ltac:(lia)) as Rj.
  pose proof (Z.div_mod j 8 ltac:(lia)) as Dj. pose proof (Z.div_mod p 8 ltac:(lia)) as Dp.
  assert (0 <= p / 8) by (apply Z.div_pos; lia). assert (0 <= j / 8) by (apply Z.div_pos; lia).
  destruct (decide (Z.to_nat (p / 8) = Z.to_nat (j / 8))) as [E|E].
  - rewrite Z.lor_spec, bit_mask_spec by lia. f_equal.
    destruct (Z.eqb_spec (j mod 8) (p mod 8)), (Z.eqb_spec j p); lia || congruence.
  - replace (j =? p) with false by (symmetry; apply Z.eqb_neq; intros ->; done). by rewrite orb_false_r.
Qed.

Lemma add_bit_ok h b i : bloom_ok b -> bloom_ok (add_bit h b i).
Proof.
  intros [L B]. split; cbn [add_bit bits]; [by rewrite length_alter|].
  apply Forall_alter; [done|]. intros x _ Hx. apply (lor_bound _ _ 8); [lia|exact Hx|apply u8_range].
Qed.

Lemma empty_bloom_ok : bloom_ok empty_bloom.
Proof. split; [done|]. apply Forall_replicate. by split. Qed.

Lemma empty_bit j : bit_set empty_bloom j = false.
Proof.
  unfold bit_set, empty_bloom. cbn [bits]. rewrite nth_lookup.
  destruct (replicate kBytes 0 !! Z.to_nat (j / 8)) as [x|] eqn:E; cbn [default from_option];
    [apply lookup_replicate in E as [-> _]|]; apply Z.bits_0.
Qed.

Lemma add_ok b d : bloom_ok b -> bloom_ok (add b d).
Proof. intros O. unfold add, for_range. cbn [seq foldl]. by repeat apply add_bit_ok. Qed.

(** [add] is the insertion of the element's three positions. *)
Lemma add_spec b d j :
  bloom_ok b -> 0 <= j < 2048 -> bit_set (add b d) j = true <-> bit_set b j = true \/ j ∈ positions d.
Proof.
  intros O Hj. unfold add, for_range. cbn [seq foldl]. pose proof (keccak256_bytes d).
  rewrite !add_bit_spec by (repeat apply add_bit_ok; done).
  unfold positions. cbn [fmap list_fmap]. rewrite !elem_of_cons, elem_of_nil, !orb_true_iff, !Z.eqb_eq. tauto.
Qed.

#[export] Hint Resolve empty_bloom_ok add_ok add_bit_ok : gambit.

Lemma add_all_ok ds b : bloom_ok b -> bloom_ok (foldl add b ds).
Proof. revert b. induction ds as [|d ds IH]; cbn; auto with gambit. Qed.

Lemma add_all_spec ds b j :
  bloom_ok b -> 0 <= j < 2048 ->
  bit_set (foldl add b ds) j = true <-> bit_set b j = true \/ exists d, d ∈ ds /\ j ∈ positions d.
Proof.
  revert b. induction ds as [|d ds IH]; intros b O Hj; cbn [foldl].
  { split; [by left|]. intros [H|(d & H & _)]; [done|by apply elem_of_nil in H]. }
  rewrite IH by auto with gambit. rewrite add_spec by done. setoid_rewrite elem_of_cons.
  split.
  - intros [[H|H]|(x & H & P)]; [by left|right; by exists d; eauto|right; by exists x; eauto].
  - intros [H|(x & [->|H] & P)]; [by left; left|by left; right|right; by exists x].
Qed.

(** ** Properties *)

(** The filter refines a set of positions. After any sequence of [add]s
    to the empty filter, the array still holds 256 bytes, a bit is set
    exactly when it is one of the three positions of some added element, and
    so an added element is always reported present (no false negatives). *)
Theorem bloom_refines_set (ds : list Bytes) :
  bloom_ok (foldl add empty_bloom ds) /\
  (forall j, 0 <= j < 2048 ->
     bit_set (foldl add empty_bloom ds) j = true <-> exists d, d ∈ ds /\ j ∈ positions d) /\
  (forall d, d ∈ ds -> Forall (fun j => bit_set (foldl add empty_bloom ds) j = true) (positions d)).
Proof.
  assert (S : forall j, 0 <= j < 2048 ->
     bit_set (foldl add empty_bloom ds) j = true <-> exists d, d ∈ ds /\ j ∈ positions d).
  { intros j Hj. rewrite add_all_spec by auto with gambit. rewrite empty_bit.
    split; [by intros [?|?]|by right]. }
  split; [apply add_all_ok; auto with gambit|]. split; [exact S|].
  intros d Hd. apply Forall_forall. intros j Hj. apply S; [|eauto].
  apply list_elem_of_fmap in Hj as (i & -> & _). apply position_range.
Qed.
