(* ===== verification/Receipt.v ===== *)
(** * Logs and receipts (src/src/receipt.cpp, src/include/gambit/receipt.hpp, log.hpp) *)

From stdpp Require Import base list numbers strings.
From Stdlib Require Import ZArith Lia.
From S2P Require Import Prelude Keccak Hash Rlp Address.

#[local] Open Scope Z_scope.

(** log.hpp 11-15. *)
Record Log : Type := mkLog {
  log_address : Address;
  log_topics : list std_string;
  log_data : Bytes;
}.

(** receipt.hpp 11-18. *)
Record Receipt : Type := mkReceipt {
  rc_status : bool;
  rc_cumulativeGasUsed : Z;
  rc_logs : list Log;
}.

#[export] Instance Log_eq_dec : EqDecision Log.
Proof. solve_decision. Defined.

#[export] Instance Receipt_eq_dec : EqDecision Receipt.
Proof. solve_decision. Defined.

(** receipt.hpp 12-14. *)
Definition default_receipt : Receipt := mkReceipt true 0 [].

(** receipt.cpp 15-22. *)
Definition encode_log (log : Log) : res Bytes :=
  topicBytes ← res_map (fun t => b ← Hash.fromHex t; Ok (encodeBytes b)) (log_topics log);
  Ok (encodeList [encodeBytes (bytes_ (log_address log)); encodeList topicBytes; encodeBytes (log_data log)]).

(** receipt.cpp 5-28. *)
Definition rlpEncode (r : Receipt) : res Bytes :=
  logItems ← res_map encode_log (rc_logs r);
  Ok (encodeList [encodeUint (if rc_status r then 1 else 0); encodeUint (rc_cumulativeGasUsed r);
                  encodeList logItems]).

(** ** The encoding as an item *)

Definition log_ok (l : Log) : Prop := addr_ok (log_address l) /\ bytes_ok (log_data l).

Definition receipt_ok (r : Receipt) : Prop := is_u64 (rc_cumulativeGasUsed r) /\ Forall log_ok (rc_logs r).

(** The log with each topic read as the bytes it denotes. *)
Definition log_view (l : Log) : Bytes * list (res Bytes) * Bytes :=
  (bytes_ (log_address l), Hash.fromHex <$> log_topics l, log_data l).

Definition log_item (l : Log) (ts : list Bytes) : item :=
  Lst [Str (bytes_ (log_address l)); Lst (Str <$> ts); Str (log_data l)].

Definition receipt_item (r : Receipt) (tss : list (list Bytes)) : item :=
  Lst [Str (be_bytes (if rc_status r then 1 else 0)); Str (be_bytes (rc_cumulativeGasUsed r));
       Lst (zip_with log_item (rc_logs r) tss)].

Lemma encode_topics ts bs :
  res_map (fun t => b ← Hash.fromHex t; Ok (encodeBytes b)) ts = Ok bs ->
  exists raw, Hash.fromHex <$> ts = Ok <$> raw /\ Forall bytes_ok raw /\ bs = encode_item <$> (Str <$> raw).
Proof.
  revert bs. induction ts as [|t ts IH]; intros bs H; cbn [res_map] in H.
  { injection H as <-. exists []. by repeat split. }
  apply bind_Ok in H as (y & Ey & H). apply bind_Ok in Ey as (b & Eb & Ey). injection Ey as <-.
  apply bind_Ok in H as (ys & Eys & H). injection H as <-.
  destruct (IH _ Eys) as (raw & E1 & E2 & ->). exists (b :: raw). cbn [fmap list_fmap].
  rewrite Eb. split; [f_equal; exact E1|]. split; [|done]. constructor; [|done].
  by apply fromHex_bytes in Eb.
Qed.

Lemma encode_log_item l b :
  log_ok l -> encode_log l = Ok b ->
  exists ts, Hash.fromHex <$> log_topics l = Ok <$> ts /\ item_ok (log_item l ts) /\
             b = encode_item (log_item l ts).
Proof.
  intros [[_ Ha] Hd] H. unfold encode_log in H. apply bind_Ok in H as (bs & E & H). injection H as <-.
  apply encode_topics in E as (ts & E1 & E2 & ->). exists ts. split; [done|]. split; [|done].
  apply item_ok_Lst. repeat constructor; [exact Ha| |exact Hd].
  apply item_ok_Lst, Forall_fmap. exact E2.
Qed.

Lemma encode_logs_items ls bs :
  Forall log_ok ls -> res_map encode_log ls = Ok bs ->
  exists tss, length tss = length ls /\
    (fun l => Hash.fromHex <$> log_topics l) <$> ls = (fun ts => Ok <$> ts) <$> tss /\
    Forall item_ok (zip_with log_item ls tss) /\ bs = encode_item <$> zip_with log_item ls tss.
Proof.
  revert bs. induction ls as [|l ls IH]; intros bs O H; cbn [res_map] in H.
  { injection H as <-. exists []. by repeat split. }
  apply Forall_cons in O as [Ol O]. apply bind_Ok in H as (b & Eb & H).
  apply bind_Ok in H as (bs' & Ebs & H). injection H as <-.
  destruct (encode_log_item _ _ Ol Eb) as (ts & T1 & T2 & ->).
  destruct (IH _ O Ebs) as (tss & L & V & I & ->). exists (ts :: tss). cbn.
  split; [by rewrite L|]. split; [by rewrite T1; f_equal|]. split; [by constructor|done].
Qed.

Lemma rlpEncode_item r b :
  receipt_ok r -> rlpEncode r = Ok b ->
  exists tss, length tss = length (rc_logs r) /\
    (fun l => Hash.fromHex <$> log_topics l) <$> rc_logs r = (fun ts => Ok <$> ts) <$> tss /\
    item_ok (receipt_item r tss) /\ b = encode_item (receipt_item r tss).
Proof.
  intros [Hg Hl] H. unfold rlpEncode in H. apply bind_Ok in H as (bs & E & H). injection H as <-.
  destruct (encode_logs_items _ _ Hl E) as (tss & L & V & I & ->). exists tss.
  assert (Hs : is_u64 (if rc_status r then 1 else 0)) by (by destruct (rc_status r)).
  split; [done|]. split; [done|]. split.
  - apply item_ok_Lst. repeat constructor; [by apply be_bytes_spec|by apply be_bytes_spec|].
    by apply item_ok_Lst.
  - rewrite !encodeUint_item by done. reflexivity.
Qed.

#[local] Instance Str_inj : Inj (=) (=) Str.
Proof. by intros ?? [=]. Qed.

Lemma log_items_inj ls1 ls2 tss1 tss2 :
  length tss1 = length ls1 -> length tss2 = length ls2 ->
  (fun l => Hash.fromHex <$> log_topics l) <$> ls1 = (fun ts => Ok <$> ts) <$> tss1 ->
  (fun l => Hash.fromHex <$> log_topics l) <$> ls2 = (fun ts => Ok <$> ts) <$> tss2 ->
  zip_with log_item ls1 tss1 = zip_with log_item ls2 tss2 -> log_view <$> ls1 = log_view <$> ls2.
Proof.
  revert ls2 tss1 tss2. induction ls1 as [|l1 ls1 IH]; intros [|l2 ls2] [|t1 tss1] [|t2 tss2] L1 L2 V1 V2 E; try done.
  cbn in *. injection V1 as V1 V1'. injection V2 as V2 V2'. injection E as Ea Et Ed Ez.
  apply (inj (fmap Str)) in Et. f_equal; [|by apply (IH _ tss1 tss2); lia || done].
  unfold log_view. rewrite V1, V2, Ea, Et, Ed. done.
Qed.

Lemma rlpEncode_empty_logs st g : exists b, rlpEncode (mkReceipt st g []) = Ok b /\ b <> [].
Proof. eexists. split; [reflexivity|]. apply encodeList_nonempty. Qed.

Lemma rlpEncode_plain st g :
  is_u64 g -> exists b, rlpEncode (mkReceipt st g []) = Ok b /\ b <> [] /\ bytes_ok b.
Proof.
  intros G. destruct (rlpEncode_empty_logs st g) as (b & E & N). exists b. split; [done|]. split; [done|].
  destruct (rlpEncode_item (mkReceipt st g []) b) as (tss & L & _ & I & ->); [by split|done|].
  apply encode_item_bytes; [done|]. destruct tss; [|done]. cbn [receipt_item encode_item fmap list_fmap zip_with rc_logs].
  destruct (be_bytes_spec g G) as (_ & _ & Lg & _).
  assert (Ls : zlen (be_bytes (if st then 1 else 0)) <= 1) by (by destruct st).
  cbn [rc_status rc_cumulativeGasUsed].
  pose proof (encodeBytes_upto (be_bytes (if st then 1 else 0)) ltac:(lia)).
  pose proof (encodeBytes_upto (be_bytes g) ltac:(lia)).
  assert (Le : zlen (encodeList []) = 1) by done.
  pose proof (encodeList_upto [encodeBytes (be_bytes (if st then 1 else 0)); encodeBytes (be_bytes g); encodeList []]) as U.
  cbn [concat] in U. rewrite !zlen_app, zlen_nil, Le in U. lia.
Qed.

(** ** Properties *)

(** The receipt encoding is binding. Two receipts with the same encoding
    have the same status, cumulative gas and logs (addresses, data, and the
    bytes their hexadecimal topics denote). *)
Theorem receipt_rlp_binding (r1 r2 : Receipt) (b : Bytes) :
  receipt_ok r1 -> receipt_ok r2 -> zlen b < 2 ^ 64 ->
  rlpEncode r1 = Ok b -> rlpEncode r2 = Ok b ->
  rc_status r1 = rc_status r2 /\ rc_cumulativeGasUsed r1 = rc_cumulativeGasUsed r2 /\
  log_view <$> rc_logs r1 = log_view <$> rc_logs r2.
Proof.
  intros O1 O2 S E1 E2.
  destruct (rlpEncode_item _ _ O1 E1) as (t1 & L1 & V1 & I1 & B1).
  destruct (rlpEncode_item _ _ O2 E2) as (t2 & L2 & V2 & I2 & B2). subst b.
  apply encode_item_inj in B2; [|done..]. injection B2 as Es Eg El.
  split; [by destruct (rc_status r1), (rc_status r2)|]. split; [|by apply (log_items_inj _ _ t1 t2)].
  rewrite <- (be_fold_bytes (rc_cumulativeGasUsed r1)), <- (be_fold_bytes (rc_cumulativeGasUsed r2)), Eg;
    [done|apply O2|apply O1].
Qed.

Lemma receipt_rlp_binding_witness :
  log_view <$> [mkLog Address.zero [str "0xAB"] [1]] = log_view <$> [mkLog Address.zero [str "ab"] [1]].
Proof.
  assert (O : forall ts, receipt_ok (mkReceipt true 7 [mkLog Address.zero ts [1]])).
  { intros ts. split; [by split|]. repeat constructor; apply zero_ok || done. }
  destruct (receipt_rlp_binding _ _
              ([221; 1; 7; 218; 217; 148] ++ replicate 20 0 ++ [194; 129; 171; 1])
              (O [str "0xAB"]) (O [str "ab"])) as (_ & _ & H); [reflexivity..|exact H].
Defined.
