(* ===== verification/State.v ===== *)
(** * The account state (src/src/state.cpp, src/include/gambit/state.hpp,
      account.hpp, genesis.hpp)

    The accounts by lower-case hexadecimal address, the transfer of a
    transaction, and the state root. *)

From stdpp Require Import base list gmap numbers strings.
From Stdlib Require Import ZArith Lia.
From S2P Require Import Prelude Keccak Hash Rlp Address Mpt Keys Transaction.

#[local] Open Scope Z_scope.

(** account.hpp 6-10. *)
Record Account : Type := mkAccount { acc_balance : Z; acc_nonce : Z }.

#[export] Instance Account_eq_dec : EqDecision Account.
Proof. solve_decision. Defined.

Definition default_account : Account := mkAccount 0 0.

(** genesis.hpp 8-11. *)
Record GenesisAccount : Type := mkGenesisAccount { ga_address : Address; ga_balance : Z }.

(** genesis.hpp 13-16. *)
Record GenesisConfig : Type := mkGenesisConfig {
  gc_premine : list GenesisAccount;
  gc_chainId : Z;
}.

(** state.hpp 15-32: the one member. *)
Record State : Type := mkState { accounts_ : gmap std_string Account }.

(** state.cpp 9-13. *)
Definition State_of_genesis (genesis : GenesisConfig) : State :=
  foldl (fun s ga => mkState (<[Address.toHex false (ga_address ga) := mkAccount (ga_balance ga) 0]> (accounts_ s)))
    (mkState ∅) (gc_premine genesis).

(** state.cpp 15-18. The result stands for a reference into the map: the key
    of the entry, which [accounts_[key]] has created when it was missing. *)
Definition getOrCreate (s : State) (addr : Address) : State * std_string :=
  let key := Address.toHex false addr in
  (match accounts_ s !! key with
   | Some _ => s
   | None => mkState (<[key := default_account]> (accounts_ s))
   end, key).

(** Reading and assigning through such a reference. *)
Definition deref (s : State) (ref : std_string) : Account :=
  default default_account (accounts_ s !! ref).

Definition update (s : State) (ref : std_string) (f : Account -> Account) : State :=
  mkState (alter f ref (accounts_ s)).

(** state.cpp 20-25. *)
Definition get (s : State) (addr : Address) : option Account :=
  let key := Address.toHex false addr in
  accounts_ s !! key.

Definition balance_sub (v : Z) (a : Account) : Account := mkAccount (u64 (acc_balance a - v)) (acc_nonce a).

Definition balance_add (v : Z) (a : Account) : Account := mkAccount (u64 (acc_balance a + v)) (acc_nonce a).

Definition nonce_inc (a : Account) : Account := mkAccount (acc_balance a) (u64 (acc_nonce a + 1)).

(** state.cpp 27-38. The state is returned also when the call throws, as the
    object keeps what was done before; [fromAcc] and [toAcc] may be the same
    entry. *)
Definition applyTransaction (s : State) (from : Address) (tx : Transaction) : State * res unit :=
  let (s, fromAcc) := getOrCreate s from in
  let (s, toAcc) := getOrCreate s (tx_to tx) in
  if acc_balance (deref s fromAcc) <? tx_value tx then (s, Throw "Insufficient balance")
  else
    let s := update s fromAcc (balance_sub (tx_value tx)) in
    let s := update s fromAcc nonce_inc in
    let s := update s toAcc (balance_add (tx_value tx)) in
    (s, Ok ()).

(** state.cpp 47-52. *)
Definition encode_account (acc : Account) : Bytes :=
  encodeList [encodeUint (acc_balance acc); encodeUint (acc_nonce acc)].

(** state.cpp 43-55: the loop, on the entries in the order in which the hash
    table yields them. *)
Fixpoint root_loop (trie : node) (entries : list (std_string * Account)) : res node :=
  match entries with
  | [] => Ok trie
  | (addrHex, acc) :: entries' =>
      key ← Hash.fromHex addrHex;
      root_loop (put trie key (encode_account acc)) entries'
  end.

(** state.cpp 40-58, the accounts being visited in the order given. *)
Definition root_in_order (entries : list (std_string * Account)) : res std_string :=
  trie ← root_loop empty_node entries;
  Ok (rootHash trie).

(** state.cpp 40-58, in one order of iteration; [root_any_order] below covers
    the others. *)
Definition root (s : State) : res std_string := root_in_order (map_to_list (accounts_ s)).

(** ** The invariant *)

Definition account_ok (a : Account) : Prop := is_u64 (acc_balance a) /\ is_u64 (acc_nonce a).

(** "Keyed by lowercase hex address" (state.hpp 30), members in range. *)
Definition state_ok (s : State) : Prop :=
  map_Forall (fun k a => (exists addr, addr_ok addr /\ k = Address.toHex false addr) /\ account_ok a) (accounts_ s).

(** The ledger as a function of the address: a missing account reads as the
    empty one. *)
Definition view (s : State) (a : Address) : Account := default default_account (get s a).

(** The sum of all balances. *)
Definition supply (s : State) : Z := map_fold (fun _ a t => acc_balance a + t) 0 (accounts_ s).

Lemma default_account_ok : account_ok default_account.
Proof. by repeat split. Qed.

#[export] Hint Resolve default_account_ok : gambit.

#[local] Arguments Address.toHex : simpl never.

Lemma view_ok s a : state_ok s -> account_ok (view s a).
Proof.
  intros S. unfold view, get. destruct (accounts_ s !! _) as [x|] eqn:E; [|apply default_account_ok].
  by apply (S _ _ E).
Qed.

Lemma getOrCreate_snd s a : (getOrCreate s a).2 = Address.toHex false a.
Proof. done. Qed.

Lemma getOrCreate_view s a b : view (getOrCreate s a).1 b = view s b.
Proof.
  unfold getOrCreate, view, get. destruct (accounts_ s !! Address.toHex false a) eqn:E; [done|].
  cbn [fst accounts_]. destruct (decide (Address.toHex false a = Address.toHex false b)) as [Eq|N].
  - by rewrite <- Eq, lookup_insert_eq, E.
  - by rewrite lookup_insert_ne.
Qed.

Lemma getOrCreate_present s a : is_Some (accounts_ (getOrCreate s a).1 !! Address.toHex false a).
Proof. unfold getOrCreate. destruct (accounts_ s !! _) eqn:E; cbn [fst accounts_]; [by rewrite E|by rewrite lookup_insert_eq]. Qed.

Lemma getOrCreate_grows s a k : is_Some (accounts_ s !! k) -> is_Some (accounts_ (getOrCreate s a).1 !! k).
Proof.
  intros H. unfold getOrCreate. destruct (accounts_ s !! Address.toHex false a) eqn:E; [done|]. cbn [fst accounts_].
  destruct (decide (Address.toHex false a = k)) as [->|N]; [by rewrite lookup_insert_eq|by rewrite lookup_insert_ne].
Qed.

Lemma getOrCreate_ok s a : state_ok s -> addr_ok a -> state_ok (getOrCreate s a).1.
Proof.
  intros S A. unfold getOrCreate. destruct (accounts_ s !! _) eqn:E; [done|]. cbn [fst accounts_].
  apply map_Forall_insert_2; [|done]. split; [by exists a|apply default_account_ok].
Qed.

Lemma update_ok s k f : state_ok s -> (forall a, account_ok a -> account_ok (f a)) -> state_ok (update s k f).
Proof.
  intros S F i a. cbn. rewrite lookup_alter_Some. intros [(<- & y & Hy & ->)|[_ H]]; [|by apply S].
  destruct (S _ _ Hy) as [K A]. eauto.
Qed.

Lemma balance_sub_ok v a : account_ok a -> account_ok (balance_sub v a).
Proof. intros [_ H]. split; [apply u64_range|done]. Qed.

Lemma balance_add_ok v a : account_ok a -> account_ok (balance_add v a).
Proof. intros [_ H]. split; [apply u64_range|done]. Qed.

Lemma nonce_inc_ok a : account_ok a -> account_ok (nonce_inc a).
Proof. intros [H _]. split; [done|apply u64_range]. Qed.

#[export] Hint Resolve getOrCreate_ok update_ok balance_sub_ok balance_add_ok nonce_inc_ok : gambit.

Lemma update_view s k f a :
  is_Some (accounts_ s !! k) ->
  view (update s k f) a = if decide (k = Address.toHex false a) then f (view s a) else view s a.
Proof.
  intros [x E]. unfold view, get, update. cbn [accounts_]. destruct (decide _) as [<-|N].
  - by rewrite lookup_alter_eq, E.
  - by rewrite lookup_alter_ne.
Qed.

Lemma update_present s k f i : is_Some (accounts_ s !! i) -> is_Some (accounts_ (update s k f) !! i).
Proof.
  intros H. cbn. destruct (decide (k = i)) as [->|N]; [rewrite lookup_alter_eq|by rewrite lookup_alter_ne].
  by apply fmap_is_Some.
Qed.

#[export] Hint Resolve getOrCreate_present getOrCreate_grows update_present : gambit.

Lemma applyTransaction_ok s from tx :
  state_ok s -> addr_ok from -> addr_ok (tx_to tx) -> state_ok (applyTransaction s from tx).1.
Proof.
  intros S F T. unfold applyTransaction.
  pose proof (getOrCreate_ok s from S F) as S1. destruct (getOrCreate s from) as [s1 k1].
  pose proof (getOrCreate_ok s1 _ S1 T) as S2. destruct (getOrCreate s1 (tx_to tx)) as [s2 k2]. cbn in *.
  destruct (_ <? _); cbn; auto with gambit.
Qed.

(** ** Supply *)

Lemma supply_fold_comm (k1 k2 : std_string) (a1 a2 : Account) (t : Z) :
  acc_balance a1 + (acc_balance a2 + t) = acc_balance a2 + (acc_balance a1 + t).
Proof. lia. Qed.

Lemma supply_insert k a m :
  m !! k = None -> supply (mkState (<[k := a]> m)) = acc_balance a + supply (mkState m).
Proof.
  intros H. unfold supply. cbn. rewrite map_fold_insert_L; [done|intros; apply (supply_fold_comm [] [])|done].
Qed.

Lemma supply_update s k f a :
  accounts_ s !! k = Some a ->
  supply (update s k f) = supply s + acc_balance (f a) - acc_balance a.
Proof.
  intros E. unfold update. destruct s as [m]. cbn in *.
  rewrite <- (insert_delete_id m k a E) at 2. rewrite supply_insert by apply lookup_delete_eq.
  replace (alter f k m) with (<[k := f a]> (delete k m)).
  - rewrite supply_insert by apply lookup_delete_eq. lia.
  - apply map_eq. intros i. destruct (decide (k = i)) as [<-|N].
    + by rewrite lookup_insert_eq, lookup_alter_eq, E.
    + by rewrite lookup_insert_ne, lookup_alter_ne, lookup_delete_ne.
Qed.

Lemma supply_getOrCreate s a : supply (getOrCreate s a).1 = supply s.
Proof.
  unfold getOrCreate. destruct (accounts_ s !! _) eqn:E; [done|]. cbn. destruct s as [m].
  by rewrite supply_insert.
Qed.

Lemma supply_nonneg s : state_ok s -> 0 <= supply s.
Proof.
  unfold state_ok, supply. destruct s as [m]. cbn. induction m as [|k a m H IH] using map_ind.
  { by rewrite map_fold_empty. }
  intros S. apply map_Forall_insert in S as [[_ [[B _] _]] S]; [|done].
  rewrite map_fold_insert_L; [|intros; apply (supply_fold_comm [] [])|done]. specialize (IH S). lia.
Qed.

Lemma balance_le_supply s k a : state_ok s -> accounts_ s !! k = Some a -> acc_balance a <= supply s.
Proof.
  intros S E. destruct s as [m]. cbn in E.
  rewrite <- (insert_delete_id m k a E), supply_insert by apply lookup_delete_eq.
  assert (0 <= supply (mkState (delete k m))); [|lia]. apply supply_nonneg.
  intros i x. cbn. intros [_ H]%lookup_delete_Some. by apply S.
Qed.

Lemma deref_view s a : deref s (Address.toHex false a) = view s a.
Proof. done. Qed.

(** ** The transfer *)

(** The state once both references are taken. *)
Definition touched (s : State) (from to : Address) : State :=
  (getOrCreate (getOrCreate s from).1 to).1.

Lemma touched_facts s from to :
  (forall a, view (touched s from to) a = view s a) /\ supply (touched s from to) = supply s /\
  is_Some (accounts_ (touched s from to) !! Address.toHex false from) /\
  is_Some (accounts_ (touched s from to) !! Address.toHex false to).
Proof.
  unfold touched. rewrite !supply_getOrCreate.
  split; [intros a; by rewrite !getOrCreate_view|]. split; [done|]. auto with gambit.
Qed.

Lemma touched_ok s from to : state_ok s -> addr_ok from -> addr_ok to -> state_ok (touched s from to).
Proof. unfold touched. auto with gambit. Qed.

Lemma applyTransaction_unfold s from tx :
  applyTransaction s from tx =
  let t := touched s from (tx_to tx) in
  if acc_balance (view s from) <? tx_value tx then (t, Throw "Insufficient balance")
  else (update (update (update t (Address.toHex false from) (balance_sub (tx_value tx)))
                  (Address.toHex false from) nonce_inc)
          (Address.toHex false (tx_to tx)) (balance_add (tx_value tx)), Ok ()).
Proof.
  unfold applyTransaction, touched.
  rewrite <- (proj1 (touched_facts s from (tx_to tx)) from), <- deref_view. unfold touched.
  pose proof (getOrCreate_snd s from) as K1. destruct (getOrCreate s from) as [s1 k1].
  cbn [fst snd] in *. subst k1. pose proof (getOrCreate_snd s1 (tx_to tx)) as K2. destruct (getOrCreate s1 (tx_to tx)) as [s2 k2].
  cbn in K2. subst k2. done.
Qed.

(** What a successful transfer makes of the account at [a]. *)
Definition transferred (s : State) (from to : Address) (v : Z) (a : Address) : Account :=
  let x := view s a in
  if decide (a = from) then
    mkAccount (if decide (a = to) then acc_balance x else acc_balance x - v) (u64 (acc_nonce x + 1))
  else if decide (a = to) then mkAccount (u64 (acc_balance x + v)) (acc_nonce x)
  else x.

Lemma transfer_view s from to v a :
  state_ok s -> addr_ok from -> addr_ok to -> addr_ok a -> 0 <= v <= acc_balance (view s from) ->
  view (update (update (update (touched s from to) (Address.toHex false from) (balance_sub v))
                  (Address.toHex false from) nonce_inc) (Address.toHex false to) (balance_add v)) a
  = transferred s from to v a.
Proof.
  intros S F T A Hv. destruct (touched_facts s from to) as (Vw & _ & Pf & Pt).
  assert (K : forall b, addr_ok b -> Address.toHex false b = Address.toHex false a <-> b = a).
  { intros b Hb. split; [by apply toHex_plain_inj|by intros ->]. }
  rewrite !update_view, Vw by auto with gambit. unfold transferred.
  destruct (view_ok s a S) as [[B0 B1] _].
  destruct (decide (Address.toHex false from = _)) as [E1|E1]; rewrite (K from F) in E1.
  - subst from. rewrite (decide_True (P := a = a)) by done.
    destruct (decide (Address.toHex false to = _)) as [E2|E2]; rewrite (K to T) in E2;
      unfold balance_add, nonce_inc, balance_sub; cbn [acc_balance acc_nonce];
      rewrite (u64_id (_ - v)) by (unfold is_u64; lia).
    + rewrite decide_True, u64_id by (done || unfold is_u64; lia). f_equal. lia.
    + by rewrite decide_False by congruence.
  - rewrite (decide_False (P := a = from)) by congruence.
    destruct (decide (Address.toHex false to = _)) as [E2|E2]; rewrite (K to T) in E2;
      [by rewrite decide_True|by rewrite decide_False by congruence].
Qed.

Lemma transfer_supply s from to v :
  state_ok s -> addr_ok from -> addr_ok to -> 0 <= v <= acc_balance (view s from) -> supply s < 2 ^ 64 ->
  supply (update (update (update (touched s from to) (Address.toHex false from) (balance_sub v))
                    (Address.toHex false from) nonce_inc) (Address.toHex false to) (balance_add v))
  = supply s.
Proof.
  intros S F T Hv Hs. destruct (touched_facts s from to) as (Vw & Sup & [x Ex] & Pt).
  pose proof (touched_ok s from to S F T) as O. set (t := touched s from to) in *.
  assert (Bx : view s from = x) by (rewrite <- Vw; unfold view, get; by rewrite Ex).
  set (t1 := update t (Address.toHex false from) (balance_sub v)).
  assert (E1 : supply t1 = supply s - v).
  { unfold t1. rewrite (supply_update t _ _ x Ex), Sup. cbn. rewrite Bx in Hv.
    destruct (view_ok s from S) as [[B0 B1] _]. rewrite Bx in B0, B1.
    rewrite u64_id by (unfold is_u64; lia). lia. }
  set (t2 := update t1 (Address.toHex false from) nonce_inc).
  assert (E2 : supply t2 = supply s - v).
  { unfold t2. rewrite (supply_update t1 _ _ (balance_sub v x)), E1; [cbn; lia|].
    unfold t1, update. cbn [accounts_]. by rewrite lookup_alter_eq, Ex. }
  assert (O2 : state_ok t2) by (unfold t2, t1; auto with gambit).
  assert (Pt2 : is_Some (accounts_ t2 !! Address.toHex false to)) by (unfold t2, t1; auto with gambit).
  destruct Pt2 as [y Ey]. rewrite (supply_update t2 _ _ y Ey), E2. cbn.
  pose proof (balance_le_supply t2 _ _ O2 Ey). destruct (O2 _ _ Ey) as [_ [[B _] _]].
  rewrite u64_id by (unfold is_u64; lia). lia.
Qed.

Lemma apply_supply s from tx :
  state_ok s -> addr_ok from -> tx_ok tx -> supply s < 2 ^ 64 ->
  supply (applyTransaction s from tx).1 = supply s.
Proof.
  intros S F O Hs. rewrite applyTransaction_unfold. cbn zeta. destruct (_ <? _) eqn:E; to_prop.
  - apply touched_facts.
  - apply transfer_supply; [done|done|apply O|destruct (ok_value _ O); lia|done].
Qed.

(** A transfer the sender can pay for. *)
Lemma apply_success s from tx :
  state_ok s -> addr_ok from -> tx_ok tx -> tx_value tx <= acc_balance (view s from) ->
  exists s', applyTransaction s from tx = (s', Ok ()) /\ state_ok s' /\
    forall a, addr_ok a -> view s' a = transferred s from (tx_to tx) (tx_value tx) a.
Proof.
  intros S F O H. pose proof (applyTransaction_ok s from tx S F (ok_to _ O)) as S'. revert S'.
  rewrite applyTransaction_unfold. cbn zeta. rewrite (proj2 (Z.ltb_ge _ _)) by lia.
  intros S'. eexists. split; [done|]. split; [exact S'|]. intros a A.
  apply transfer_view; [done|done|apply O|done|]. destruct (ok_value _ O). lia.
Qed.

(** ** The root *)

Lemma encode_account_item a :
  account_ok a -> encode_account a = encode_item (Lst [Str (be_bytes (acc_balance a)); Str (be_bytes (acc_nonce a))]).
Proof. intros [B N]. unfold encode_account. by rewrite !encodeUint_item. Qed.

Lemma account_item_ok a : account_ok a -> item_ok (Lst [Str (be_bytes (acc_balance a)); Str (be_bytes (acc_nonce a))]).
Proof. intros [B N]. apply item_ok_Lst. repeat constructor; by apply be_bytes_spec. Qed.

Lemma account_size a : account_ok a -> zlen (encode_account a) <= 64.
Proof.
  intros [B N]. unfold encode_account. rewrite !encodeUint_item by done. cbn [encode_item].
  destruct (be_bytes_spec _ B) as (_ & _ & L1 & _), (be_bytes_spec _ N) as (_ & _ & L2 & _).
  pose proof (encodeBytes_upto (be_bytes (acc_balance a)) ltac:(lia)).
  pose proof (encodeBytes_upto (be_bytes (acc_nonce a)) ltac:(lia)).
  pose proof (encodeList_upto [encodeBytes (be_bytes (acc_balance a)); encodeBytes (be_bytes (acc_nonce a))]) as P.
  cbn [concat] in P. rewrite !zlen_app, zlen_nil in P. lia.
Qed.

Lemma encode_account_ok a : account_ok a -> bytes_ok (encode_account a) /\ encode_account a <> [].
Proof.
  intros A. split; [|apply encodeList_nonempty]. pose proof (account_size a A) as L.
  rewrite encode_account_item in * by done. apply encode_item_bytes; [by apply account_item_ok|lia].
Qed.

Lemma encode_account_inj a b : account_ok a -> account_ok b -> encode_account a = encode_account b -> a = b.
Proof.
  intros A B E. pose proof (account_size a A) as L. rewrite !encode_account_item in * by done.
  apply encode_item_inj in E; [|by apply account_item_ok|by apply account_item_ok|lia].
  injection E as E1 E2. destruct a, b, A, B. cbn in *. f_equal; by apply be_bytes_inj.
Qed.

(** The bytes an entry is put under. *)
Definition raw_key (k : std_string) : Bytes := match Hash.fromHex k with Ok b => b | _ => [] end.

Definition trie_entry (e : std_string * Account) : Bytes * Bytes := (raw_key e.1, encode_account e.2).

Definition valid_entry (e : std_string * Account) : Prop :=
  (exists addr, addr_ok addr /\ e.1 = Address.toHex false addr) /\ account_ok e.2.

Definition state_trie (s : State) : node := build (trie_entry <$> map_to_list (accounts_ s)).

Lemma valid_entries s : state_ok s -> Forall valid_entry (map_to_list (accounts_ s)).
Proof. intros S. apply Forall_forall. intros [k a] H. apply elem_of_map_to_list in H. by apply (S _ _ H). Qed.

Lemma raw_key_plain a : addr_ok a -> raw_key (Address.toHex false a) = bytes_ a.
Proof. intros A. unfold raw_key. by rewrite fromHex_plain. Qed.

Lemma raw_key_inj e1 e2 : valid_entry e1 -> valid_entry e2 -> raw_key e1.1 = raw_key e2.1 -> e1.1 = e2.1.
Proof.
  intros [(a & A & ->) _] [(b & B & ->) _]. rewrite !raw_key_plain by done.
  intros E. destruct a, b. cbn in E. by subst.
Qed.

Lemma trie_entry_ok e : valid_entry e -> entry_ok (trie_entry e).
Proof.
  intros [(a & A & E) O]. destruct (encode_account_ok _ O) as [B N]. unfold trie_entry. rewrite E, raw_key_plain by done.
  split; [apply A|done].
Qed.

Lemma root_loop_valid es t :
  Forall valid_entry es -> root_loop t es = Ok (put_all t (trie_entry <$> es)).
Proof.
  revert t. induction es as [|[k a] es IH]; intros t V; [done|]. apply Forall_cons_1 in V as [V Vs].
  destruct V as [(b & B & E) O]. cbn in E. subst k. cbn [root_loop]. rewrite fromHex_plain by done.
  cbn [mbind res_bind]. rewrite IH by done. unfold trie_entry at 2. cbn [fmap list_fmap put_all foldl fst snd].
  by rewrite raw_key_plain.
Qed.

Lemma root_in_order_valid es :
  Forall valid_entry es -> root_in_order es = Ok (rootHash (build (trie_entry <$> es))).
Proof. intros V. unfold root_in_order. by rewrite root_loop_valid. Qed.

Lemma root_trie s : state_ok s -> root s = Ok (rootHash (state_trie s)).
Proof. intros S. by apply root_in_order_valid, valid_entries. Qed.

Lemma trie_keys_NoDup es : Forall valid_entry es -> NoDup es.*1 -> NoDup (trie_entry <$> es).*1.
Proof.
  induction es as [|e es IH]; intros V N; [constructor|]. apply Forall_cons_1 in V as [V Vs].
  cbn [fmap list_fmap] in *. apply NoDup_cons in N as [Nin N]. apply NoDup_cons. split; [|by apply IH].
  intros H. apply Nin. apply list_elem_of_fmap in H as (x & Ex & Hx).
  apply list_elem_of_fmap in Hx as (e' & -> & He'). apply list_elem_of_fmap. exists e'. split; [|done].
  apply raw_key_inj; [done| |done]. by apply (proj1 (Forall_forall _ _) Vs).
Qed.

Lemma state_trie_entries s k v :
  state_ok s -> bytes_ok k ->
  Mpt.get (state_trie s) k = Some v <-> (k, v) ∈ trie_entry <$> map_to_list (accounts_ s).
Proof.
  intros S K. pose proof (valid_entries s S) as V. apply get_build; [| |done].
  - apply trie_keys_NoDup; [done|]. apply NoDup_fst_map_to_list.
  - apply Forall_fmap. apply (Forall_impl _ _ _ V). apply trie_entry_ok.
Qed.

(** The trie determines the accounts. *)
Lemma state_trie_lookup s addr acc :
  state_ok s -> addr_ok addr ->
  accounts_ s !! Address.toHex false addr = Some acc -> Mpt.get (state_trie s) (bytes_ addr) = Some (encode_account acc).
Proof.
  intros S A E. apply state_trie_entries; [done|apply A|]. apply list_elem_of_fmap.
  exists (Address.toHex false addr, acc). unfold trie_entry. cbn [fst snd]. rewrite raw_key_plain by done.
  split; [done|]. by apply elem_of_map_to_list.
Qed.

Lemma state_trie_sub s1 s2 k a :
  state_ok s1 -> state_ok s2 -> state_trie s1 = state_trie s2 ->
  accounts_ s1 !! k = Some a -> accounts_ s2 !! k = Some a.
Proof.
  intros S1 S2 E H. destruct (S1 _ _ H) as [(addr & A & ->) O].
  apply state_trie_lookup in H; [|done..]. rewrite E in H.
  apply state_trie_entries in H; [|done|apply A]. apply list_elem_of_fmap in H as ([k' a'] & Et & H).
  apply elem_of_map_to_list in H. destruct (S2 _ _ H) as [(addr' & A' & ->) O'].
  unfold trie_entry in Et. cbn [fst snd] in Et. rewrite raw_key_plain in Et by done. injection Et as E1 E2.
  apply encode_account_inj in E2; [|done..]. destruct addr, addr'. cbn in E1. by subst.
Qed.

Lemma state_trie_wf s : state_ok s -> wf (state_trie s).
Proof.
  intros S. apply build_wf, Forall_fmap, (Forall_impl _ _ _ (valid_entries s S)). apply trie_entry_ok.
Qed.

(** ** Genesis *)

Definition genesis_ok (g : GenesisConfig) : Prop :=
  Forall (fun ga => addr_ok (ga_address ga) /\ is_u64 (ga_balance ga)) (gc_premine g).

Lemma genesis_state_ok g : genesis_ok g -> state_ok (State_of_genesis g).
Proof.
  unfold genesis_ok, State_of_genesis. generalize (gc_premine g). intros l H.
  assert (S : state_ok (mkState ∅)) by apply map_Forall_empty.
  revert S. generalize (mkState ∅). induction H as [|ga l [A B] _ IH]; intros s S; [done|].
  cbn [foldl]. apply IH. apply map_Forall_insert_2; [|done]. split; [by exists (ga_address ga)|].
  split; [done|by split].
Qed.

(** ** Properties *)

(** C7: the transfer, on every branch. [applyTransaction] throws exactly when
    the sender's balance is below the value and then leaves every account as
    it read before; otherwise it returns, the sender's nonce goes up by one,
    the value moves from the sender to the receiver (nothing moves when they
    are the same account) and no other account changes. *)
Theorem applyTransaction_spec (s : State) (from : Address) (tx : Transaction) :
  state_ok s -> addr_ok from -> tx_ok tx ->
  let '(s', r) := applyTransaction s from tx in
  if decide (acc_balance (view s from) < tx_value tx)
  then r = Throw "Insufficient balance" /\ forall a, view s' a = view s a
  else r = Ok () /\ forall a, addr_ok a -> view s' a = transferred s from (tx_to tx) (tx_value tx) a.
Proof.
  intros S F O. rewrite applyTransaction_unfold. cbn zeta. destruct (_ <? _) eqn:E; to_prop.
  - rewrite decide_True by done. split; [done|]. apply touched_facts.
  - destruct (apply_success s from tx S F O ltac:(lia)) as (s' & E' & _ & V).
    rewrite decide_False by lia. rewrite applyTransaction_unfold in E'. cbn zeta in E'.
    rewrite (proj2 (Z.ltb_ge _ _)) in E' by lia. injection E' as E'. rewrite E'. done.
Qed.

(** Two accounts, and a transfer between them. *)
Definition sample_state : State :=
  mkState {[ Address.toHex false (mkAddress (replicate 20 1)) := mkAccount 100 7;
             Address.toHex false (mkAddress (replicate 20 9)) := mkAccount 5 0 ]}.

Lemma sample_state_ok : state_ok sample_state.
Proof.
  apply map_Forall_insert_2; [|apply map_Forall_singleton].
  - split; [|by repeat split]. exists (mkAddress (replicate 20 1)). split; [|done].
    by apply (bool_decide_unpack _).
  - split; [|by repeat split]. exists (mkAddress (replicate 20 9)). split; [|done].
    by apply (bool_decide_unpack _).
Qed.

Lemma applyTransaction_spec_witness :
  let '(s', r) := applyTransaction sample_state (mkAddress (replicate 20 1)) Sample.transfer in
  r = Ok () /\
  forall a, addr_ok a ->
    view s' a = transferred sample_state (mkAddress (replicate 20 1)) (mkAddress (replicate 20 9)) 5 a.
Proof.
  pose proof (applyTransaction_spec sample_state (mkAddress (replicate 20 1)) Sample.transfer
                sample_state_ok ltac:(by apply (bool_decide_unpack _)) ltac:(tx_ok_tac)) as H.
  destruct (applyTransaction _ _ _) as [s' r]. rewrite decide_False in H; [exact H|].
  apply (bool_decide_unpack _). vm_compute. reflexivity.
Defined.

(** C8: conservation. As long as the total supply fits in 64 bits, applying a
    transaction keeps the sum of all balances, whether it succeeds or
    throws, and keeps the state well formed. *)
Theorem applyTransaction_conserves (s : State) (from : Address) (tx : Transaction) :
  state_ok s -> addr_ok from -> tx_ok tx -> supply s < 2 ^ 64 ->
  supply (applyTransaction s from tx).1 = supply s /\ state_ok (applyTransaction s from tx).1.
Proof.
  intros S F O Hs. split; [by apply apply_supply|]. apply applyTransaction_ok; [done|done|apply O].
Qed.

Lemma applyTransaction_conserves_witness :
  supply (applyTransaction sample_state (mkAddress (replicate 20 1)) Sample.transfer).1 = 105.
Proof.
  destruct (applyTransaction_conserves sample_state (mkAddress (replicate 20 1)) Sample.transfer)
    as [H _]; [apply sample_state_ok|by apply (bool_decide_unpack _)|tx_ok_tac|vm_compute; reflexivity|].
  rewrite H. vm_compute. reflexivity.
Defined.

(** The root does not depend on the hash table. Whatever the order in
    which the accounts are visited, [root] returns the same digest, and it
    never throws. *)
Theorem root_any_order (s : State) (entries : list (std_string * Account)) :
  state_ok s -> Permutation entries (map_to_list (accounts_ s)) ->
  root_in_order entries = root s /\ exists h, root s = Ok h.
Proof.
  intros S P. pose proof (valid_entries s S) as V. rewrite root_trie by done. split; [|eauto].
  assert (V' : Forall valid_entry entries) by (by rewrite P).
  rewrite root_in_order_valid by done. do 2 f_equal. apply build_perm.
  - by apply fmap_Permutation.
  - apply trie_keys_NoDup; [done|]. rewrite P. apply NoDup_fst_map_to_list.
  - apply Forall_fmap, (Forall_impl _ _ _ V'). apply trie_entry_ok.
Qed.

Lemma root_any_order_witness : root_in_order (reverse (map_to_list (accounts_ sample_state))) = root sample_state.
Proof. apply root_any_order; [apply sample_state_ok|]. apply reverse_Permutation. Defined.

(** C19: the root commits to the state. Two states with the same root have the
    same accounts, balances and nonces, unless their trie encodings collide
    under Keccak-256. *)
Theorem root_binding (s1 s2 : State) (h : std_string) :
  state_ok s1 -> state_ok s2 -> zlen (encodeNode (state_trie s1)) < 2 ^ 64 ->
  root s1 = Ok h -> root s2 = Ok h ->
  accounts_ s1 = accounts_ s2 \/ collision (encodeNode (state_trie s1)) (encodeNode (state_trie s2)).
Proof.
  intros S1 S2 L E1 E2. rewrite root_trie in E1, E2 by done. injection E1 as E1. injection E2 as E2.
  destruct (rootHash_inj (state_trie s1) (state_trie s2)) as [E|C];
    [by apply state_trie_wf|by apply state_trie_wf|done|congruence|left|by right].
  apply map_eq. intros k. apply option_eq. intros a. split; apply state_trie_sub; done.
Qed.

Lemma root_binding_witness :
  accounts_ sample_state = accounts_ sample_state \/
  collision (encodeNode (state_trie sample_state)) (encodeNode (state_trie sample_state)).
Proof.
  apply (root_binding sample_state sample_state (rootHash (state_trie sample_state)));
    [apply sample_state_ok|apply sample_state_ok|vm_compute; reflexivity|apply root_trie, sample_state_ok..].
Defined.
