(* ===== verification/Zk.v ===== *)
(** * The block proof (src/src/zk.cpp, src/include/gambit/zk.hpp)

    The hash commitment that stands for a zero-knowledge proof of the state
    transition. *)

From stdpp Require Import base list numbers strings.
From Stdlib Require Import ZArith Lia.
From S2P Require Import Prelude Keccak Hash.

#[local] Open Scope Z_scope.

(** zk.hpp 6-12. *)
Record ZkProof : Type := mkZkProof {
  zk_proof : std_string;
  zk_stateBefore : std_string;
  zk_stateAfter : std_string;
  zk_txRoot : std_string;
  zk_commitment : std_string;
}.

#[export] Instance ZkProof_eq_dec : EqDecision ZkProof.
Proof. solve_decision. Defined.

Definition empty_proof : ZkProof := mkZkProof [] [] [] [] [].

(** zk.cpp 6-24. *)
Definition generate (stateBefore stateAfter txRoot : std_string) : ZkProof :=
  let concat := stateBefore ++ str "|" ++ stateAfter ++ str "|" ++ txRoot in
  let proof := Hash.toHex (keccak256 concat) in
  let c := proof ++ str "|" ++ stateBefore ++ str "|" ++ stateAfter ++ str "|" ++ txRoot in
  mkZkProof proof stateBefore stateAfter txRoot (Hash.toHex (keccak256 c)).

(** zk.cpp 28: the text under the commitment. *)
Definition committed (p : ZkProof) : std_string :=
  zk_proof p ++ str "|" ++ zk_stateBefore p ++ str "|" ++ zk_stateAfter p ++ str "|" ++ zk_txRoot p.

(** zk.cpp 26-32. *)
Definition verify (p : ZkProof) : bool :=
  let expected := Hash.toHex (keccak256 (committed p)) in
  bool_decide (expected = zk_commitment p).

(** ** Lemmas *)

(** No field holds the separator. *)
Record proof_plain (p : ZkProof) : Prop := {
  plain_proof : free_of 124 (zk_proof p);
  plain_before : free_of 124 (zk_stateBefore p);
  plain_after : free_of 124 (zk_stateAfter p);
}.

Lemma verify_true p : verify p = true <-> zk_commitment p = Hash.toHex (keccak256 (committed p)).
Proof. unfold verify. rewrite bool_decide_eq_true. done. Qed.

Lemma generate_verifies before after txRoot : verify (generate before after txRoot) = true.
Proof. by apply verify_true. Qed.

Lemma generate_plain before after txRoot :
  free_of 124 before -> free_of 124 after -> proof_plain (generate before after txRoot).
Proof. intros B A. split; [|done..]. cbn [generate zk_proof]. apply toHex_free, keccak256_bytes. Qed.

Lemma committed_inj p q :
  proof_plain p -> proof_plain q -> committed p = committed q ->
  zk_proof p = zk_proof q /\ zk_stateBefore p = zk_stateBefore q /\
  zk_stateAfter p = zk_stateAfter q /\ zk_txRoot p = zk_txRoot q.
Proof.
  intros [P1 P2 P3] [Q1 Q2 Q3] E. unfold committed in E. cbn [str app] in E.
  apply split_sep in E as [E1 E]; [|done..]. apply split_sep in E as [E2 E]; [|done..].
  by apply split_sep in E as [E3 E4].
Qed.

(** ** Properties *)

(** Completeness and binding of the block proof. A generated proof
    verifies; and two verifying proofs with the same commitment are about the
    same transition (same blob, state roots and transaction root), unless
    the committed texts collide under Keccak-256. *)
Theorem zk_commitment_binding (before after txRoot : std_string) (p : ZkProof) :
  free_of 124 before -> free_of 124 after -> proof_plain p ->
  verify (generate before after txRoot) = true /\
  (verify p = true -> zk_commitment p = zk_commitment (generate before after txRoot) ->
   p = generate before after txRoot \/
   collision (committed p) (committed (generate before after txRoot))).
Proof.
  intros B A P. split; [apply generate_verifies|]. intros V E.
  pose proof (generate_verifies before after txRoot) as G. set (g := generate before after txRoot) in *.
  pose proof V as V'. apply verify_true in V', G. rewrite V', G in E.
  destruct (digest_inj _ _ E) as [C|C]; [left|by right].
  apply committed_inj in C as (C1 & C2 & C3 & C4); [|done|by apply generate_plain].
  rewrite E, <- G in V'. destruct p, g. cbn in *. congruence.
Qed.

Lemma zk_commitment_binding_witness : verify (generate (str "0xaa") (str "0xbb") (str "0x00")) = true.
Proof.
  apply (zk_commitment_binding _ _ _ empty_proof); [by apply (bool_decide_unpack _)..|].
  split; by apply (bool_decide_unpack _).
Defined.
