(* ===== verification/Block.v ===== *)
(** * Blocks (src/src/block.cpp, src/include/gambit/block.hpp)

    The block, its hash, and its wire format. The constructor's reading of
    the system clock is an argument. *)

From stdpp Require Import base list numbers strings.
From Stdlib Require Import ZArith Lia.
From S2P Require Import Prelude Keccak Hash Rlp Address Keys Transaction Bloom Receipt Zk.

#[local] Open Scope Z_scope.

(** block.hpp 14-53. *)
Record Block : Type := mkBlock {
  blk_index : Z;
  blk_prevHash : std_string;
  blk_stateBefore : std_string;
  blk_stateAfter : std_string;
  blk_txRoot : std_string;
  blk_receiptsRoot : std_string;
  blk_proof : ZkProof;
  blk_timestamp : Z;
  blk_hash : std_string;
  blk_nonce : Z;
  blk_transactions : list Transaction;
  blk_receipts : list Receipt;
  blk_logsBloom : Bloom;
}.

#[export] Instance Block_eq_dec : EqDecision Block.
Proof. solve_decision. Defined.

(** block.cpp 26-38. *)
Definition block_text (b : Block) : std_string :=
  print_dec (blk_index b) ++ str "|" ++ blk_prevHash b ++ str "|" ++ blk_stateBefore b ++ str "|" ++
  blk_stateAfter b ++ str "|" ++ blk_txRoot b ++ str "|" ++ blk_receiptsRoot b ++ str "|" ++
  zk_commitment (blk_proof b) ++ str "|" ++ print_dec (blk_timestamp b).

(** block.cpp 26-38. *)
Definition computeHash (b : Block) : std_string := Hash.toHex (keccak256 (block_text b)).

(** Assigning [hash]. *)
Definition set_hash (b : Block) (h : std_string) : Block :=
  mkBlock (blk_index b) (blk_prevHash b) (blk_stateBefore b) (blk_stateAfter b) (blk_txRoot b)
    (blk_receiptsRoot b) (blk_proof b) (blk_timestamp b) h (blk_nonce b) (blk_transactions b)
    (blk_receipts b) (blk_logsBloom b).

(** block.cpp 7-24; [now] is [system_clock::now().time_since_epoch().count()]. *)
Definition new_Block (idx : Z) (prev before after txRoot_ : std_string) (proof_ : ZkProof) (now : Z) : Block :=
  let b := mkBlock idx prev before after txRoot_ [] proof_ (u64 now) [] 0 [] [] empty_bloom in
  set_hash b (computeHash b).

(** block.cpp 97-126. *)
Definition rlpEncode (b : Block) : res Bytes :=
  let txItems := rlpEncodeSigned <$> blk_transactions b in
  rcItems ← res_map Receipt.rlpEncode (blk_receipts b);
  Ok (encodeList
    [ encodeUint (blk_index b);
      encodeString (blk_prevHash b);
      encodeString (blk_stateBefore b);
      encodeString (blk_stateAfter b);
      encodeString (blk_txRoot b);
      encodeString (zk_proof (blk_proof b));
      encodeString (zk_commitment (blk_proof b));
      encodeUint (blk_timestamp b);
      encodeString (blk_hash b);
      encodeList txItems;
      encodeBytes (bits (blk_logsBloom b));
      encodeList rcItems ]).

(** block.cpp 40-43. *)
Definition toHex (b : Block) : res std_string :=
  enc ← rlpEncode b;
  Ok (str "0x" ++ Hash.toHex enc).

(** The element [L[i]]. *)
Definition elem (L : list Decoded) (i : nat) : Decoded := default (mkDecoded false [] []) (L !! i).

Section WithSecp.
Context {SC : Secp256k1}.

(** block.cpp 68-93, the same statements in [rlpDecode] (141-161): the
    members are read from the first ten elements. *)
Definition read_block (L : list Decoded) (not_a_list : string) : res Block :=
  let txListNode := elem L 9 in
  if negb (d_isList txListNode) then Throw not_a_list
  else
    txs ← res_map (fun item => Transaction.fromHex (str "0x" ++ Hash.toHex (d_bytes item))) (d_list txListNode);
    Ok (mkBlock (toUint (field L 0)) (field L 1) (field L 2) (field L 3) (field L 4) []
          (mkZkProof (field L 5) [] [] [] (field L 6)) (toUint (field L 7)) (field L 8) 0 txs [] empty_bloom).

(** block.cpp 45-94. *)
Definition fromHex (hex : std_string) : res Block :=
  let h := strip0x hex in
  raw ← Hash.fromHex h;
  root ← decode raw;
  if negb (d_isList root) || (zlen (d_list root) <? 10) then Throw "Block::fromHex: invalid RLP block"
  else read_block (d_list root) "Block::fromHex: tx list not a list".

(** block.cpp 128-162. *)
Definition rlpDecode (raw : Bytes) : res Block :=
  root ← decode raw;
  if negb (d_isList root) || (zlen (d_list root) <? 10) then Throw "Invalid RLP block"
  else read_block (d_list root) "Block txs must be list".

End WithSecp.

(** ** Well-formed blocks *)

Record block_ok (b : Block) : Prop := {
  ok_index : is_u64 (blk_index b);
  ok_prevHash : bytes_ok (blk_prevHash b);
  ok_stateBefore : bytes_ok (blk_stateBefore b);
  ok_stateAfter : bytes_ok (blk_stateAfter b);
  ok_txRoot : bytes_ok (blk_txRoot b);
  ok_proof : bytes_ok (zk_proof (blk_proof b));
  ok_commitment : bytes_ok (zk_commitment (blk_proof b));
  ok_timestamp : is_u64 (blk_timestamp b);
  ok_hash : bytes_ok (blk_hash b);
  ok_transactions : Forall tx_ok (blk_transactions b);
  ok_receipts : Forall receipt_ok (blk_receipts b);
  ok_bloom : bloom_ok (blk_logsBloom b);
}.

(** No text of the header holds the separator of [computeHash]. *)
Record header_plain (b : Block) : Prop := {
  hp_prevHash : free_of 124 (blk_prevHash b);
  hp_stateBefore : free_of 124 (blk_stateBefore b);
  hp_stateAfter : free_of 124 (blk_stateAfter b);
  hp_txRoot : free_of 124 (blk_txRoot b);
  hp_receiptsRoot : free_of 124 (blk_receiptsRoot b);
  hp_commitment : free_of 124 (zk_commitment (blk_proof b));
}.

Lemma block_text_inj b c :
  is_u64 (blk_index b) -> is_u64 (blk_index c) -> is_u64 (blk_timestamp b) -> is_u64 (blk_timestamp c) ->
  header_plain b -> header_plain c -> block_text b = block_text c ->
  blk_index b = blk_index c /\ blk_prevHash b = blk_prevHash c /\
  blk_stateBefore b = blk_stateBefore c /\ blk_stateAfter b = blk_stateAfter c /\
  blk_txRoot b = blk_txRoot c /\ blk_receiptsRoot b = blk_receiptsRoot c /\
  zk_commitment (blk_proof b) = zk_commitment (blk_proof c) /\ blk_timestamp b = blk_timestamp c.
Proof.
  intros Ib Ic Tb Tc [] [] E. unfold block_text in E. cbn [str app] in E.
  apply split_sep in E as [E1 E]; [|apply print_dec_free..]. do 6 (apply split_sep in E as [? E]; [|done..]).
  apply print_dec_inj in E1, E; done.
Qed.

(** ** The encoding as an item *)

Lemma receipts_items rs bs :
  Forall receipt_ok rs -> res_map Receipt.rlpEncode rs = Ok bs ->
  exists its, Forall item_ok its /\ bs = encode_item <$> its.
Proof.
  revert bs. induction rs as [|r rs IH]; intros bs O H; cbn [res_map] in H.
  { injection H as <-. by exists []. }
  apply Forall_cons in O as [Or O]. apply bind_Ok in H as (b & Eb & H).
  apply bind_Ok in H as (bs' & Ebs & H). injection H as <-.
  destruct (rlpEncode_item _ _ Or Eb) as (tss & _ & _ & I & ->). destruct (IH _ O Ebs) as (its & I' & ->).
  exists (receipt_item r tss :: its). by split; [constructor|].
Qed.

Definition block_items (b : Block) (receipts : list item) : list item :=
  [ Str (be_bytes (blk_index b)); Str (blk_prevHash b); Str (blk_stateBefore b); Str (blk_stateAfter b);
    Str (blk_txRoot b); Str (zk_proof (blk_proof b)); Str (zk_commitment (blk_proof b));
    Str (be_bytes (blk_timestamp b)); Str (blk_hash b);
    Lst ((fun tx => Lst (signed_items tx)) <$> blk_transactions b);
    Str (bits (blk_logsBloom b)); Lst receipts ].

Lemma rlpEncode_block b enc :
  block_ok b -> rlpEncode b = Ok enc ->
  exists its, item_ok (Lst (block_items b its)) /\ enc = encode_item (Lst (block_items b its)).
Proof.
  intros O H. unfold rlpEncode in H. apply bind_Ok in H as (rc & Er & H). injection H as <-.
  apply receipts_items in Er as (its & I & ->); [|apply O]. exists its. split.
  - apply item_ok_Lst. repeat constructor; cbn [item_ok]; try apply O; try (by apply be_bytes_spec, O); try done.
    + apply (item_ok_Lst (_ <$> _)), Forall_fmap, (Forall_impl _ _ _ (ok_transactions _ O)).
      intros tx Ht. by apply signed_items_ok.
    + by apply item_ok_Lst.
  - rewrite !encodeUint_item by apply O. cbn [encode_item block_items fmap list_fmap].
    do 9 f_equal. f_equal. f_equal. rewrite <- list_fmap_compose. f_equal.
    apply list_fmap_ext. intros i tx Htx. apply rlpEncodeSigned_item.
    apply (Forall_lookup_1 _ _ _ _ (ok_transactions _ O) Htx).
Qed.

(** ** The wire format *)

(** What the reader makes of a block without transactions. *)
Definition received_block (b : Block) : Block :=
  mkBlock (blk_index b) (blk_prevHash b) (blk_stateBefore b) (blk_stateAfter b) (blk_txRoot b) []
    (mkZkProof (zk_proof (blk_proof b)) [] [] [] (zk_commitment (blk_proof b)))
    (blk_timestamp b) (blk_hash b) 0 [] [] empty_bloom.

Lemma decode_block {SC : Secp256k1} b h :
  block_ok b -> toHex b = Ok h -> zlen h < 2 ^ 64 ->
  exists its, fromHex h =
    read_block (to_decoded <$> block_items b its) "Block::fromHex: tx list not a list".
Proof.
  intros O H S. unfold toHex in H. apply bind_Ok in H as (enc & E & H).
  assert (h = str "0x" ++ Hash.toHex enc) as -> by congruence. clear H.
  destruct (rlpEncode_block _ _ O E) as (its & I & ->). exists its.
  set (it := Lst (block_items b its)) in *.
  assert (L : zlen (encode_item it) < 2 ^ 64 /\ bytes_ok (encode_item it)).
  { destruct (decide (zlen (encode_item it) < 2 ^ 64)) as [L|L]; [by split; [|apply encode_item_bytes]|].
    exfalso. apply L. rewrite zlen_app in S. change (zlen (str "0x")) with 2 in S.
    pose proof (toHex_long (encode_item it)). lia. }
  destruct L as [L B]. unfold fromHex. rewrite strip0x_prefixed, fromHex_toHex by done.
  cbn [mbind res_bind]. rewrite decode_whole by done. reflexivity.
Qed.

Lemma read_block_txs {SC : Secp256k1} b its what :
  block_ok b ->
  read_block (to_decoded <$> block_items b its) what =
  (txs ← res_map (fun item => Transaction.fromHex (str "0x" ++ Hash.toHex (d_bytes item)))
           (to_decoded <$> ((fun tx => Lst (signed_items tx)) <$> blk_transactions b));
   Ok (mkBlock (blk_index b) (blk_prevHash b) (blk_stateBefore b) (blk_stateAfter b) (blk_txRoot b) []
         (mkZkProof (zk_proof (blk_proof b)) [] [] [] (zk_commitment (blk_proof b)))
         (blk_timestamp b) (blk_hash b) 0 txs [] empty_bloom)).
Proof.
  intros O. unfold read_block. set (L := to_decoded <$> block_items b its).
  change (elem L 9) with (to_decoded (Lst ((fun tx => Lst (signed_items tx)) <$> blk_transactions b))).
  cbn [d_isList d_list to_decoded negb].
  change (field L 0) with (be_bytes (blk_index b)). change (field L 7) with (be_bytes (blk_timestamp b)).
  unfold toUint. rewrite !be_fold_bytes by apply O. reflexivity.
Qed.

(** A transaction inside a block is a list, whose [bytes] are empty. *)
Lemma empty_tx_text {SC : Secp256k1} :
  Transaction.fromHex (str "0x" ++ Hash.toHex []) = Throw "RLP decode overflow".
Proof. reflexivity. Qed.

Lemma block_reader {SC : Secp256k1} b h :
  block_ok b -> toHex b = Ok h -> zlen h < 2 ^ 64 ->
  fromHex h = if decide (blk_transactions b = []) then Ok (received_block b) else Throw "RLP decode overflow".
Proof.
  intros O H S. destruct (decode_block b h O H S) as [its ->]. rewrite read_block_txs by done.
  destruct (blk_transactions b) as [|tx txs] eqn:E; [by rewrite decide_True|]. rewrite decide_False by done.
  cbn [fmap list_fmap res_map to_decoded d_bytes]. by rewrite empty_tx_text.
Qed.

(** A received proof has lost the texts it commits to. *)
Lemma received_proof_fails b :
  proof_plain (blk_proof b) -> verify (blk_proof b) = true -> zk_stateBefore (blk_proof b) <> [] ->
  verify (blk_proof (received_block b)) = true ->
  collision (committed (blk_proof (received_block b))) (committed (blk_proof b)).
Proof.
  intros P V N R. apply verify_true in V, R.
  change (zk_commitment (blk_proof (received_block b))) with (zk_commitment (blk_proof b)) in R.
  rewrite V in R. symmetry in R. apply digest_inj in R as [E|C]; [|done].
  exfalso. apply committed_inj in E as (_ & E & _); [by cbn in E| |done].
  split; cbn; [apply P|constructor..].
Qed.

(** ** Properties *)

(** The block hash binds the header. Two blocks with the same
    [computeHash] have the same index, parent, state roots, transaction and
    receipts roots, proof commitment and timestamp, unless the hashed texts
    collide under Keccak-256. *)
Theorem block_hash_binding (b c : Block) :
  block_ok b -> block_ok c -> header_plain b -> header_plain c -> computeHash b = computeHash c ->
  (blk_index b = blk_index c /\ blk_prevHash b = blk_prevHash c /\
   blk_stateBefore b = blk_stateBefore c /\ blk_stateAfter b = blk_stateAfter c /\
   blk_txRoot b = blk_txRoot c /\ blk_receiptsRoot b = blk_receiptsRoot c /\
   zk_commitment (blk_proof b) = zk_commitment (blk_proof c) /\ blk_timestamp b = blk_timestamp c) \/
  collision (block_text b) (block_text c).
Proof.
  intros Ob Oc Pb Pc E. destruct (digest_inj _ _ E) as [T|C]; [left|by right].
  apply block_text_inj; [apply Ob|apply Oc|apply Ob|apply Oc|done..].
Qed.

(** A block over two roots, without and with a transaction. *)
Module SampleBlock.

Definition proof : ZkProof := Eval vm_compute in generate (str "0xaa") (str "0xbb") (str "0x00").

Definition empty : Block := Eval vm_compute in
  new_Block 1 (str "abcd") (str "0xaa") (str "0xbb") (str "0x00") proof 1700000000.

Definition full : Block :=
  mkBlock (blk_index empty) (blk_prevHash empty) (blk_stateBefore empty) (blk_stateAfter empty)
    (blk_txRoot empty) [] proof (blk_timestamp empty) (blk_hash empty) 0 [Sample.signed] [default_receipt] empty_bloom.

Definition empty_hex : std_string := Eval vm_compute in
  match toHex empty with Ok h => h | _ => [] end.

Definition full_hex : std_string := Eval vm_compute in
  match toHex full with Ok h => h | _ => [] end.

Lemma empty_ok : block_ok empty.
Proof. split; try (apply (bool_decide_unpack _); vm_compute; reflexivity). all: constructor. Qed.

End SampleBlock.

Lemma block_hash_binding_witness :
  blk_index SampleBlock.empty = blk_index SampleBlock.empty \/
  collision (block_text SampleBlock.empty) (block_text SampleBlock.empty).
Proof.
  destruct (block_hash_binding SampleBlock.empty SampleBlock.empty) as [(H & _)|H];
    [apply SampleBlock.empty_ok|apply SampleBlock.empty_ok| | |reflexivity|left; exact H|right; exact H].
  all: split; apply (bool_decide_unpack _); vm_compute; reflexivity.
Defined.

(** C37: the block wire format. Reading back the text of a block without
    transactions gives its header fields, transaction root, proof blob and
    commitment, timestamp and hash (the receipts root, the proof's state
    roots, the receipts and the filter are lost). A block that carries at
    least one transaction cannot be read back at all: the encoder nests the
    transactions as lists and the decoder looks for byte strings. *)
Theorem block_wire_format {SC : Secp256k1} (b : Block) (h : std_string) :
  block_ok b -> toHex b = Ok h -> zlen h < 2 ^ 64 ->
  (blk_transactions b = [] -> fromHex h = Ok (received_block b)) /\
  (blk_transactions b <> [] -> fromHex h = Throw "RLP decode overflow").
Proof.
  intros O H S. rewrite (block_reader b h O H S).
  split; intros E; [by rewrite decide_True|by rewrite decide_False].
Qed.

Lemma block_wire_format_witness :
  @fromHex TestCurve.curve SampleBlock.empty_hex = Ok (received_block SampleBlock.empty) /\
  @fromHex TestCurve.curve SampleBlock.full_hex = Throw "RLP decode overflow".
Proof.
  split.
  - apply (block_wire_format SampleBlock.empty);
      [apply SampleBlock.empty_ok|vm_compute; reflexivity|vm_compute; reflexivity|reflexivity].
  - apply (block_wire_format SampleBlock.full); [|vm_compute; reflexivity|vm_compute; reflexivity|discriminate].
    split; try (apply (bool_decide_unpack _); vm_compute; reflexivity).
    constructor; [tx_ok_tac|constructor].
Defined.

(** A gossiped proof does not verify. The wire format drops the state
    roots and the transaction root that a proof commits to, so the proof of
    a block read from the wire verifies only if Keccak-256 collides. *)
Theorem received_proof_rejected {SC : Secp256k1} (b rb : Block) (h : std_string) :
  block_ok b -> toHex b = Ok h -> zlen h < 2 ^ 64 -> fromHex h = Ok rb ->
  proof_plain (blk_proof b) -> verify (blk_proof b) = true -> zk_stateBefore (blk_proof b) <> [] ->
  verify (blk_proof rb) = true -> collision (committed (blk_proof rb)) (committed (blk_proof b)).
Proof.
  intros O H S R P V N. rewrite (block_reader b h O H S) in R. destruct (decide _); [|done].
  injection R as <-. by apply received_proof_fails.
Qed.

Lemma received_proof_rejected_witness :
  verify (blk_proof (received_block SampleBlock.empty)) = true ->
  collision (committed (blk_proof (received_block SampleBlock.empty))) (committed (blk_proof SampleBlock.empty)).
Proof.
  apply (@received_proof_rejected TestCurve.curve SampleBlock.empty (received_block SampleBlock.empty)
           SampleBlock.empty_hex); [apply SampleBlock.empty_ok| | | | | |discriminate].
  1-3: vm_compute; reflexivity.
  - split; apply (bool_decide_unpack _); vm_compute; reflexivity.
  - vm_compute; reflexivity.
Defined.
