(* ===== verification/Blockchain.v ===== *)
(** * The chain (src/src/blockchain.cpp, src/include/gambit/blockchain.hpp)

    The chain of blocks, the account state and the pool of pending
    transactions. [mutex_] makes [addTransaction], [mineBlock] and [addBlock]
    atomic, so a run of the object is a sequence of their calls ([step]);
    ChainThreads.v has the calls access by access, and proves it. *)

From stdpp Require Import base list gmap numbers strings.
From Stdlib Require Import ZArith Lia.
From S2P Require Import Prelude Keccak Hash Rlp Address Mpt Keys Transaction Bloom Receipt State.
From S2P Require Import Zk Block.

#[local] Open Scope Z_scope.
#[local] Open Scope act_scope.

(** blockchain.hpp 12-45. *)
Record Blockchain : Type := mkBlockchain {
  chain_ : list Block;
  state_ : State;
  mempool_ : list Transaction;
  chainId_ : Z;
}.

Definition set_state (bc : Blockchain) (s : State) : Blockchain :=
  mkBlockchain (chain_ bc) s (mempool_ bc) (chainId_ bc).

(** blockchain.cpp 16-27. *)
Definition initGenesis (now : Z) (bc : Blockchain) : res Blockchain :=
  before ← root (state_ bc);
  after ← root (state_ bc);
  pb ← root (state_ bc);
  pa ← root (state_ bc);
  let genesisBlock := new_Block 0 (str "0x00") before after (str "0x00") (generate pb pa (str "0x00")) now in
  Ok (mkBlockchain (chain_ bc ++ [genesisBlock]) (state_ bc) (mempool_ bc) (chainId_ bc)).

(** blockchain.cpp 10-14. *)
Definition new_Blockchain (genesis : GenesisConfig) (now : Z) : res Blockchain :=
  initGenesis now (mkBlockchain [] (State_of_genesis genesis) [] (gc_chainId genesis)).

(** blockchain.cpp 29-78. The error text is passed in and out. *)
Definition validateTransaction {SC : Secp256k1} (bc : Blockchain) (tx : Transaction) (err : string) :
  res (bool * string) :=
  if negb (tx_chainId tx =? chainId_ bc) then Ok (false, "Invalid chainId")
  else
    signed ← verifySignature tx;
    if negb signed then Ok (false, "Invalid signature")
    else
      let acc := State.get (state_ bc) (tx_from tx) in
      let expectedNonce := match acc with Some a => acc_nonce a | None => 0 end in
      if negb (tx_nonce tx =? expectedNonce) then Ok (false, "Invalid nonce")
      else
        let gasCost := u64 (tx_gasPrice tx * tx_gasLimit tx) in
        if negb (tx_gasPrice tx =? 0) && negb (gasCost / tx_gasPrice tx =? tx_gasLimit tx) then
          Ok (false, "Gas cost overflow")
        else
          let needed := u64 (gasCost + tx_value tx) in
          if needed <? gasCost then Ok (false, "Total cost overflow")
          else
            let bal := match acc with Some a => acc_balance a | None => 0 end in
            if bal <? needed then Ok (false, "Insufficient funds")
            else Ok (true, err).

(** blockchain.cpp 80-84. *)
Definition addTransaction (bc : Blockchain) (tx : Transaction) : Blockchain :=
  mkBlockchain (chain_ bc) (state_ bc) (mempool_ bc ++ [tx]) (chainId_ bc).

(** blockchain.cpp 86-101. *)
Definition computeTxRoot (txs : list Transaction) : std_string :=
  if bool_decide (txs = []) then str "0x00"
  else
    let concat := foldl (fun concat tx => concat ++ (Transaction.toHex tx ++ str "|")) [] txs in
    Hash.toHex (keccak256 concat).

(** The loop of blockchain.cpp 110-113. *)
Fixpoint apply_all (txs : list Transaction) : act State unit :=
  match txs with
  | [] => act_ret ()
  | tx :: txs' => (fun s => applyTransaction s (tx_from tx) tx) ;; apply_all txs'
  end.

(** A call of a member function of [state_]. *)
Definition on_state {A} (m : act State A) : act Blockchain A := fun bc =>
  let (s, r) := m (state_ bc) in (set_state bc s, r).

(** blockchain.cpp 118-128: the receipts pushed so far and [cumulativeGas]. *)
Definition make_receipts (txs : list Transaction) : list Receipt :=
  (foldl (fun '(receipts, cumulativeGas) tx =>
            let cumulativeGas := u64 (cumulativeGas + tx_gasLimit tx) in
            (receipts ++ [mkReceipt true cumulativeGas []], cumulativeGas))
     ([], 0) txs).1.

(** blockchain.cpp 131-136, from index [i] on. *)
Fixpoint receipts_trie (i : Z) (trie : node) (receipts : list Receipt) : res node :=
  match receipts with
  | [] => Ok trie
  | r :: receipts' =>
      let key := [u8 i] in
      v ← Receipt.rlpEncode r;
      receipts_trie (i + 1) (put trie key v) receipts'
  end.

(** blockchain.cpp 131-137. *)
Definition receipts_root (receipts : list Receipt) : res std_string :=
  trie ← receipts_trie 0 empty_node receipts;
  Ok (rootHash trie).

(** [chain_.back().hash]; [back()] of an empty vector is undefined. *)
Definition back_hash (chain : list Block) : res std_string :=
  match last chain with Some b => Ok (blk_hash b) | None => UB end.

(** blockchain.cpp 149-151. *)
Definition attach (block : Block) (txs : list Transaction) (receipts : list Receipt)
    (receiptsRoot : std_string) : Block :=
  mkBlock (blk_index block) (blk_prevHash block) (blk_stateBefore block) (blk_stateAfter block)
    (blk_txRoot block) receiptsRoot (blk_proof block) (blk_timestamp block) (blk_hash block)
    (blk_nonce block) txs receipts (blk_logsBloom block).

(** blockchain.cpp 103-157; [now] is the clock the block's constructor reads. *)
Definition mineBlock (now : Z) : act Blockchain Block :=
  bc <- act_self ;;
  before <- act_lift (root (state_ bc)) ;;
  on_state (apply_all (mempool_ bc)) ;;
  bc <- act_self ;;
  after <- act_lift (root (state_ bc)) ;;
  let txRoot := computeTxRoot (mempool_ bc) in
  let receipts := make_receipts (mempool_ bc) in
  receiptsRoot <- act_lift (receipts_root receipts) ;;
  let proof := generate before after txRoot in
  prev <- act_lift (back_hash (chain_ bc)) ;;
  let block := attach (new_Block (zlen (chain_ bc)) prev before after txRoot proof now)
                 (mempool_ bc) receipts receiptsRoot in
  act_modify (fun bc => mkBlockchain (chain_ bc ++ [block]) (state_ bc) [] (chainId_ bc)) ;;
  act_ret block.

(** blockchain.cpp 159-183. *)
Definition addBlock (block : Block) : act Blockchain bool :=
  bc <- act_self ;;
  if negb (blk_index block =? zlen (chain_ bc)) then act_ret false
  else
    back <- act_lift (back_hash (chain_ bc)) ;;
    if negb (bool_decide (blk_prevHash block = back)) then act_ret false
    else if negb (verify (blk_proof block)) then act_ret false
    else
      act_modify (fun bc => mkBlockchain (chain_ bc ++ [block]) (state_ bc) (mempool_ bc) (chainId_ bc)) ;;
      act_ret true.

(** ** Runs of the object *)

Inductive step (bc : Blockchain) : Blockchain -> Prop :=
| step_addTransaction tx : tx_ok tx -> step bc (addTransaction bc tx)
| step_mineBlock now : step bc (mineBlock now bc).1
| step_addBlock block : step bc (addBlock block bc).1.

Inductive reachable (g : GenesisConfig) : Blockchain -> Prop :=
| reach_genesis now bc : new_Blockchain g now = Ok bc -> reachable g bc
| reach_step bc bc' : reachable g bc -> step bc bc' -> reachable g bc'.

(** What the program around the chain does with it: it queues only
    transactions that have just passed the check. *)
Inductive node_step {SC : Secp256k1} (bc : Blockchain) : Blockchain -> Prop :=
| node_queue tx err :
    tx_ok tx -> validateTransaction bc tx "" = Ok (true, err) -> node_step bc (addTransaction bc tx)
| node_mine now : node_step bc (mineBlock now bc).1
| node_add block : node_step bc (addBlock block bc).1.

Inductive node_reachable {SC : Secp256k1} (g : GenesisConfig) : Blockchain -> Prop :=
| node_genesis_reach now bc : new_Blockchain g now = Ok bc -> node_reachable g bc
| node_step_reach bc bc' : node_reachable g bc -> node_step bc bc' -> node_reachable g bc'.

(** ** The invariant *)

(** Each block sits at its own index, carries a proof that verifies, and
    names the hash of the block before it. *)
Record linked (chain : list Block) : Prop := {
  linked_index i b : chain !! i = Some b -> blk_index b = Z.of_nat i;
  linked_proof i b : chain !! i = Some b -> verify (blk_proof b) = true;
  linked_prev i b c : chain !! i = Some b -> chain !! S i = Some c -> blk_prevHash c = blk_hash b;
}.

Record chain_ok (g : GenesisConfig) (bc : Blockchain) : Prop := {
  chain_nonempty : chain_ bc <> [];
  chain_linked : linked (chain_ bc);
  chain_state : state_ok (state_ bc);
  chain_mempool : Forall tx_ok (mempool_ bc);
  chain_id : chainId_ bc = gc_chainId g;
  chain_supply : supply (State_of_genesis g) < 2 ^ 64 -> supply (state_ bc) = supply (State_of_genesis g);
}.

Lemma linked_snoc chain b l :
  linked chain -> last chain = Some l -> blk_index b = zlen chain -> blk_prevHash b = blk_hash l ->
  verify (blk_proof b) = true -> linked (chain ++ [b]).
Proof.
  intros [L1 L2 L3] E Ei Ep Ev. split.
  - intros i c. rewrite lookup_app_Some, list_lookup_singleton_Some. intros [H|(H & Hi & <-)]; [eauto|].
    rewrite Ei. unfold zlen. lia.
  - intros i c. rewrite lookup_app_Some, list_lookup_singleton_Some. intros [H|(H & Hi & <-)]; [eauto|done].
  - intros i c d Hc Hd. apply lookup_app_Some in Hd as [Hd|(Hl & Hd)].
    + rewrite lookup_app_l in Hc; [eauto|]. apply lookup_lt_Some in Hd. lia.
    + apply list_lookup_singleton_Some in Hd as [Hi <-]. rewrite Ep.
      rewrite lookup_app_l in Hc by lia. rewrite last_lookup in E. replace (pred (length chain)) with i in E by lia.
      congruence.
Qed.

Lemma linked_singleton b : blk_index b = 0 -> verify (blk_proof b) = true -> linked [b].
Proof.
  intros E V. split.
  - intros i c [-> <-]%list_lookup_singleton_Some. done.
  - intros i c [-> <-]%list_lookup_singleton_Some. done.
  - intros i c d _ H. apply list_lookup_singleton_Some in H as [? _]. lia.
Qed.

(** ** The transaction loop *)

(** Where the loop stops: before the first transaction its sender cannot pay. *)
Definition stuck_at (txs : list Transaction) (s s' : State) : Prop :=
  exists txs1 tx txs2 s1,
    txs = txs1 ++ tx :: txs2 /\ apply_all txs1 s = (s1, Ok ()) /\
    acc_balance (view s1 (tx_from tx)) < tx_value tx /\ s' = touched s1 (tx_from tx) (tx_to tx).

Lemma apply_all_cons tx txs s :
  apply_all (tx :: txs) s =
  if acc_balance (view s (tx_from tx)) <? tx_value tx
  then (touched s (tx_from tx) (tx_to tx), Throw "Insufficient balance")
  else apply_all txs (applyTransaction s (tx_from tx) tx).1.
Proof.
  cbn [apply_all]. unfold act_bind. rewrite applyTransaction_unfold. cbn zeta. by destruct (_ <? _).
Qed.

Lemma apply_all_cases txs s :
  (exists s', apply_all txs s = (s', Ok ())) \/
  (exists s', apply_all txs s = (s', Throw "Insufficient balance") /\ stuck_at txs s s').
Proof.
  revert s. induction txs as [|tx txs IH]; intros s; [left; by eexists|].
  rewrite apply_all_cons. destruct (_ <? _) eqn:E.
  - right. eexists. split; [done|]. exists [], tx, txs, s. to_prop. done.
  - destruct (IH (applyTransaction s (tx_from tx) tx).1) as [H|(s' & H & (t1 & t & t2 & s1 & -> & Ha & Hb & ->))];
      [by left|right]. eexists. split; [exact H|]. exists (tx :: t1), t, t2, s1.
    split; [done|]. split; [|done]. by rewrite apply_all_cons, E.
Qed.

Lemma apply_all_inv txs s :
  state_ok s -> Forall tx_ok txs ->
  state_ok (apply_all txs s).1 /\ (supply s < 2 ^ 64 -> supply (apply_all txs s).1 = supply s).
Proof.
  intros S O. revert s S. induction O as [|tx txs Ht _ IH]; intros s S; [done|].
  rewrite apply_all_cons. destruct (_ <? _).
  - cbn [fst]. split; [apply touched_ok; apply S || apply Ht|intros _; apply touched_facts].
  - destruct (IH (applyTransaction s (tx_from tx) tx).1) as [I1 I2].
    { apply applyTransaction_ok; [done|apply Ht..]. }
    split; [done|]. intros Hs. rewrite <- (apply_supply s (tx_from tx) tx) in Hs |- * by (done || apply Ht).
    by apply I2.
Qed.

(** ** Receipts *)

Definition plain_receipt (r : Receipt) : Prop := rc_logs r = [].

Lemma make_receipts_plain txs : Forall plain_receipt (make_receipts txs) /\ length (make_receipts txs) = length txs.
Proof.
  unfold make_receipts.
  assert (G : forall acc, Forall plain_receipt acc.1 ->
    let r := foldl (fun '(receipts, cumulativeGas) tx =>
            let cumulativeGas := u64 (cumulativeGas + tx_gasLimit tx) in
            (receipts ++ [mkReceipt true cumulativeGas []], cumulativeGas)) acc txs in
    Forall plain_receipt r.1 /\ length r.1 = (length acc.1 + length txs)%nat).
  { induction txs as [|tx txs IH]; intros [rs g] H; cbn [foldl fst length] in *; [split; [done|lia]|].
    destruct (IH (rs ++ [mkReceipt true (u64 (g + tx_gasLimit tx)) []], u64 (g + tx_gasLimit tx))) as [I1 I2].
    { apply Forall_app. split; [done|]. by repeat constructor. }
    split; [done|]. rewrite I2. cbn [fst]. rewrite length_app. cbn. lia. }
  apply (G ([], 0)). constructor.
Qed.

Lemma plain_receipt_encodes r : plain_receipt r -> exists v, Receipt.rlpEncode r = Ok v /\ v <> [].
Proof. intros H. destruct r as [st g ls]. cbn in H. unfold plain_receipt in H. cbn in H. subst ls. apply rlpEncode_empty_logs. Qed.

Lemma receipts_trie_total i t rs : Forall plain_receipt rs -> exists t', receipts_trie i t rs = Ok t'.
Proof.
  intros H. revert i t. induction H as [|r rs Hr _ IH]; intros i t; [by eexists|].
  cbn [receipts_trie]. destruct (plain_receipt_encodes r Hr) as (v & -> & _). cbn [mbind res_bind]. apply IH.
Qed.

Lemma receipts_root_total txs : exists h, receipts_root (make_receipts txs) = Ok h.
Proof.
  unfold receipts_root. destruct (receipts_trie_total 0 empty_node (make_receipts txs)) as [t ->]; [|by eexists].
  apply make_receipts_plain.
Qed.

(** ** Mining *)

(** The block that a successful call appends. *)
Definition mined (bc : Blockchain) (prev before after receiptsRoot : std_string) (now : Z) : Block :=
  attach (new_Block (zlen (chain_ bc)) prev before after (computeTxRoot (mempool_ bc))
            (generate before after (computeTxRoot (mempool_ bc))) now)
    (mempool_ bc) (make_receipts (mempool_ bc)) receiptsRoot.

Lemma back_hash_last chain : chain <> [] -> exists l, last chain = Some l /\ back_hash chain = Ok (blk_hash l).
Proof.
  intros N. unfold back_hash. destruct (last chain) as [l|] eqn:E; [by exists l|].
  by apply last_None in E.
Qed.

Lemma mineBlock_success bc s' now :
  chain_ bc <> [] -> state_ok (state_ bc) -> Forall tx_ok (mempool_ bc) ->
  apply_all (mempool_ bc) (state_ bc) = (s', Ok ()) ->
  exists l before after rr,
    last (chain_ bc) = Some l /\ root (state_ bc) = Ok before /\ root s' = Ok after /\
    receipts_root (make_receipts (mempool_ bc)) = Ok rr /\
    let b := mined bc (blk_hash l) before after rr now in
    mineBlock now bc = (mkBlockchain (chain_ bc ++ [b]) s' [] (chainId_ bc), Ok b).
Proof.
  intros N S O E. destruct (back_hash_last _ N) as (l & El & Eb).
  destruct (receipts_root_total (mempool_ bc)) as [rr Er].
  assert (S' : state_ok s').
  { pose proof (apply_all_inv _ _ S O) as [I _]. by rewrite E in I. }
  exists l, (rootHash (state_trie (state_ bc))), (rootHash (state_trie s')), rr.
  rewrite !root_trie by done. split; [done|]. split; [done|]. split; [done|]. split; [done|]. cbn zeta.
  unfold mineBlock, act_bind, act_self, act_lift, on_state. rewrite root_trie by done. rewrite E.
  cbn [set_state state_ mempool_ chain_]. rewrite root_trie by done. rewrite Er, Eb. reflexivity.
Qed.

Lemma mineBlock_failure bc s' now :
  state_ok (state_ bc) ->
  apply_all (mempool_ bc) (state_ bc) = (s', Throw "Insufficient balance") ->
  mineBlock now bc = (set_state bc s', Throw "Insufficient balance").
Proof.
  intros S E. unfold mineBlock, act_bind, act_self, act_lift, on_state. rewrite root_trie by done. by rewrite E.
Qed.

(** ** The invariant is kept *)

(** The chain that the constructor leaves. *)
Definition genesis_chain (g : GenesisConfig) (now : Z) : Blockchain :=
  let s := State_of_genesis g in
  let r := rootHash (state_trie s) in
  mkBlockchain [new_Block 0 (str "0x00") r r (str "0x00") (generate r r (str "0x00")) now] s [] (gc_chainId g).

Lemma new_Blockchain_ok g now : genesis_ok g -> new_Blockchain g now = Ok (genesis_chain g now).
Proof.
  intros G. unfold new_Blockchain, initGenesis. cbn [state_ chain_ mempool_ chainId_].
  rewrite root_trie by (by apply genesis_state_ok). reflexivity.
Qed.

Lemma chain_ok_genesis g now bc : genesis_ok g -> new_Blockchain g now = Ok bc -> chain_ok g bc.
Proof.
  intros G H. pose proof (genesis_state_ok g G) as S. rewrite new_Blockchain_ok in H by done.
  injection H as <-. split; cbn [genesis_chain chain_ state_ mempool_ chainId_]; try done.
  apply linked_singleton; [done|]. apply generate_verifies.
Qed.

Lemma chain_ok_mine g bc now : chain_ok g bc -> chain_ok g (mineBlock now bc).1.
Proof.
  intros [N L S O C U]. pose proof (apply_all_inv _ _ S O) as [I1 I2].
  destruct (apply_all_cases (mempool_ bc) (state_ bc)) as [[s' E]|(s' & E & _)]; rewrite E in I1, I2.
  - destruct (mineBlock_success bc s' now N S O E) as (l & before & after & rr & El & _ & _ & _ & ->).
    split; cbn [fst chain_ state_ mempool_ chainId_ snd] in *; [|by eapply linked_snoc; [..|apply generate_verifies]|done| |done|].
    + intros H. by apply app_eq_nil in H as [_ ?].
    + constructor.
    + intros Hs. rewrite I2; auto. by rewrite U.
  - rewrite (mineBlock_failure bc s' now S E).
    split; cbn [fst set_state chain_ state_ mempool_ chainId_] in *; try done.
    intros Hs. rewrite I2; auto. by rewrite U.
Qed.

(** [addBlock] in one equation. *)
Lemma addBlock_unfold b bc l :
  last (chain_ bc) = Some l ->
  addBlock b bc =
  if decide (blk_index b = zlen (chain_ bc) /\ blk_prevHash b = blk_hash l /\ verify (blk_proof b) = true)
  then (mkBlockchain (chain_ bc ++ [b]) (state_ bc) (mempool_ bc) (chainId_ bc), Ok true)
  else (bc, Ok false).
Proof.
  intros El. unfold addBlock, act_bind, act_self, act_lift, act_ret, act_modify, back_hash. rewrite El.
  destruct (Z.eqb_spec (blk_index b) (zlen (chain_ bc))) as [Ei|Ei]; cbn [negb];
    [|by rewrite decide_False by tauto].
  case_bool_decide as Ep; cbn [negb]; [|by rewrite decide_False by tauto].
  destruct (verify (blk_proof b)) eqn:Ev; cbn [negb]; [by rewrite decide_True|].
  rewrite decide_False; [done|]. by intros (_ & _ & ?).
Qed.

Lemma chain_ok_addBlock g bc b : chain_ok g bc -> chain_ok g (addBlock b bc).1.
Proof.
  intros [N L S O C U]. destruct (back_hash_last _ N) as (l & El & _).
  rewrite (addBlock_unfold b bc l El). destruct (decide _) as [(Ei & Ep & Ev)|_]; [|by split].
  split; cbn [fst chain_ state_ mempool_ chainId_]; try done.
  - intros H. by apply app_eq_nil in H as [_ ?].
  - by apply (linked_snoc _ b l).
Qed.

Lemma reachable_ok g bc : genesis_ok g -> reachable g bc -> chain_ok g bc.
Proof.
  intros G R. induction R as [now bc H|bc bc' R IH St]; [by eapply chain_ok_genesis|].
  destruct St as [tx Ht|now|b]; [|by apply chain_ok_mine|by apply chain_ok_addBlock].
  destruct IH. split; try done. cbn. apply Forall_app. split; [done|]. by constructor.
Qed.

(** ** Validation *)

(** What a transaction may cost its sender at most. *)
Definition max_cost (tx : Transaction) : Z := tx_value tx + tx_gasPrice tx * tx_gasLimit tx.

Lemma gas_overflow_check p l :
  is_u64 p -> is_u64 l ->
  negb (p =? 0) && negb (u64 (p * l) / p =? l) = false <-> p * l < 2 ^ 64.
Proof.
  intros [P0 P] [L0 L]. rewrite andb_false_iff, !negb_false_iff, !Z.eqb_eq. split.
  - intros [->|E]; [lia|]. destruct (Z.eq_dec p 0) as [->|N]; [lia|].
    destruct (Z_lt_le_dec (p * l) (2 ^ 64)) as [|Hge]; [done|exfalso].
    pose proof (Z.div_mod (u64 (p * l)) p ltac:(lia)) as D.
    pose proof (Z.mod_pos_bound (u64 (p * l)) p ltac:(lia)).
    pose proof (u64_range (p * l)) as [? ?]. rewrite E in D. nia.
  - intros Hlt. destruct (Z.eq_dec p 0) as [->|N]; [by left|right].
    rewrite u64_id by (unfold is_u64; nia). by rewrite Z.mul_comm, Z.div_mul.
Qed.

Lemma add_overflow_check a b : is_u64 a -> is_u64 b -> (u64 (a + b) <? a) = false <-> a + b < 2 ^ 64.
Proof.
  intros [A0 A] [B0 B]. rewrite Z.ltb_ge. unfold u64. split.
  - intros H. destruct (Z_lt_le_dec (a + b) (2 ^ 64)) as [|Hge]; [done|exfalso].
    rewrite <- (Z_mod_plus_full _ (-1)), Z.mod_small in H by lia. lia.
  - intros H. rewrite Z.mod_small by lia. lia.
Qed.

Lemma validate_returns {SC : Secp256k1} bc tx err : exists ok e, validateTransaction bc tx err = Ok (ok, e).
Proof.
  unfold validateTransaction. destruct (verifySignature_total tx) as [v ->]. cbn [mbind res_bind].
  repeat (case_match; eauto).
Qed.

(** The check always returns, and decides the four conditions. *)
Lemma validate_decides {SC : Secp256k1} (bc : Blockchain) (tx : Transaction) (err : string) :
  state_ok (state_ bc) -> tx_ok tx ->
  exists ok e, validateTransaction bc tx err = Ok (ok, e) /\
    (ok = true <->
     tx_chainId tx = chainId_ bc /\ verifySignature tx = Ok true /\
     tx_nonce tx = acc_nonce (view (state_ bc) (tx_from tx)) /\
     max_cost tx <= acc_balance (view (state_ bc) (tx_from tx))).
Proof.
  intros S O. unfold validateTransaction, max_cost, view.
  destruct (view_ok (state_ bc) (tx_from tx) S) as [[B0 B1] _]. unfold view in B0, B1.
  set (acc := State.get (state_ bc) (tx_from tx)) in *.
  assert (En : match acc with Some a => acc_nonce a | None => 0 end = acc_nonce (default default_account acc)) by (by destruct acc).
  assert (Eb : match acc with Some a => acc_balance a | None => 0 end = acc_balance (default default_account acc)) by (by destruct acc).
  rewrite En, Eb. clear En Eb. set (a := default default_account acc) in *.
  pose proof (gas_overflow_check _ _ (ok_gasPrice _ O) (ok_gasLimit _ O)) as GC.
  destruct (ok_gasPrice _ O) as [P0 P1], (ok_gasLimit _ O) as [L0 L1], (ok_value _ O) as [V0 V1].
  destruct (Z.eqb_spec (tx_chainId tx) (chainId_ bc)) as [Ec|Ec]; cbn [negb];
    [|eexists _, _; split; [done|]; split; [done|tauto]].
  destruct (verifySignature_total tx) as [[] Ev]; rewrite Ev; cbn [mbind res_bind negb];
    [|eexists _, _; split; [done|]; split; [done|]; by intros (_ & ? & _)].
  destruct (Z.eqb_spec (tx_nonce tx) (acc_nonce a)) as [Eo|Eo]; cbn [negb];
    [|eexists _, _; split; [done|]; split; [done|tauto]].
  destruct (_ && _).
  { eexists _, _. split; [done|]. split; [done|]. intros (_ & _ & _ & H). exfalso.
    enough (true = false) by done. apply GC. nia. }
  pose proof (proj1 GC eq_refl) as Hg. rewrite (u64_id (tx_gasPrice tx * _)) by (unfold is_u64; nia).
  pose proof (add_overflow_check (tx_gasPrice tx * tx_gasLimit tx) (tx_value tx)
                ltac:(unfold is_u64; nia) (ok_value _ O)) as AC.
  destruct (_ <? tx_gasPrice tx * tx_gasLimit tx).
  { eexists _, _. split; [done|]. split; [done|]. intros (_ & _ & _ & H). exfalso.
    enough (true = false) by done. apply AC. nia. }
  pose proof (proj1 AC eq_refl) as Ha. rewrite u64_id by (unfold is_u64; nia).
  destruct (acc_balance a <? _) eqn:E2; to_prop; eexists _, _; (split; [done|]).
  - split; [done|]. intros (_ & _ & _ & H). lia.
  - split; [|done]. intros _. repeat split; [done..|lia].
Qed.

(** A transaction that meets them passes, and [err] is left alone. *)
Lemma validate_accepts {SC : Secp256k1} (bc : Blockchain) (tx : Transaction) (err : string) :
  state_ok (state_ bc) -> tx_ok tx ->
  tx_chainId tx = chainId_ bc /\ verifySignature tx = Ok true /\
  tx_nonce tx = acc_nonce (view (state_ bc) (tx_from tx)) /\ max_cost tx <= acc_balance (view (state_ bc) (tx_from tx)) ->
  validateTransaction bc tx err = Ok (true, err).
Proof.
  intros S O H. destruct (validate_decides bc tx err S O) as (ok & e & E & D). apply D in H as ->.
  rewrite E. unfold validateTransaction in E. res_inv; congruence.
Qed.

(** ** The pool of a node *)

(** What a checked transaction keeps from its check: the chain id, the
    signature of its sender, and costs that do not overflow. *)
Definition admitted {SC : Secp256k1} (cid : Z) (tx : Transaction) : Prop :=
  tx_chainId tx = cid /\ verifySignature tx = Ok true /\ max_cost tx < 2 ^ 64.

Lemma node_step_step {SC : Secp256k1} bc bc' : node_step bc bc' -> step bc bc'.
Proof. intros []; by constructor. Qed.

Lemma node_reachable_reachable {SC : Secp256k1} g bc : node_reachable g bc -> reachable g bc.
Proof. intros R. induction R as [now bc E|bc bc' _ IH St]; [by eapply reach_genesis|eapply reach_step; [exact IH|by apply node_step_step]]. Qed.

Lemma validated_admitted {SC : Secp256k1} bc tx err :
  state_ok (state_ bc) -> tx_ok tx -> validateTransaction bc tx "" = Ok (true, err) -> admitted (chainId_ bc) tx.
Proof.
  intros S O E. destruct (validate_decides bc tx "" S O) as (ok & e & E' & D). rewrite E in E'. injection E' as <- <-.
  destruct (proj1 D eq_refl) as (Hc & Hv & _ & Hm). split; [done|]. split; [done|].
  destruct (view_ok (state_ bc) (tx_from tx) S) as [[_ B] _]. lia.
Qed.

Lemma mine_frame bc now :
  mempool_ (mineBlock now bc).1 = [] \/ mempool_ (mineBlock now bc).1 = mempool_ bc.
Proof.
  unfold mineBlock, act_bind, act_self, act_lift, on_state, act_modify, act_ret.
  repeat (case_match; simplify_eq/=; try by (left + right)).
Qed.

Lemma node_pool {SC : Secp256k1} g bc :
  genesis_ok g -> node_reachable g bc -> Forall (admitted (gc_chainId g)) (mempool_ bc).
Proof.
  intros G R. induction R as [now bc E|bc bc' R IH St].
  - rewrite new_Blockchain_ok in E by done. injection E as <-. constructor.
  - pose proof (reachable_ok g bc G (node_reachable_reachable g bc R)) as [N _ S _ C _].
    destruct St as [tx err O V|now|b].
    + apply Forall_app. split; [done|]. constructor; [|constructor]. rewrite <- C. by eapply validated_admitted.
    + destruct (mine_frame bc now) as [-> | ->]; [constructor|done].
    + destruct (back_hash_last _ N) as (l & El & _). rewrite (addBlock_unfold b bc l El). by destruct (decide _).
Qed.

(** ** Roots of transaction lists *)

Lemma txRoot_acc acc txs :
  foldl (fun concat tx => concat ++ (Transaction.toHex tx ++ str "|")) acc txs
  = acc ++ concat ((fun tx => Transaction.toHex tx ++ str "|") <$> txs).
Proof.
  revert acc. induction txs as [|tx txs IH]; intros acc; cbn [foldl fmap list_fmap concat];
    [by rewrite app_nil_r|]. rewrite IH. by rewrite !app_assoc.
Qed.

Definition txRoot_text (txs : list Transaction) : std_string :=
  concat ((fun tx => Transaction.toHex tx ++ str "|") <$> txs).

Lemma txRoot_text_inj txs1 txs2 :
  Forall (fun tx => tx_ok tx /\ wire_sized tx) txs1 -> Forall (fun tx => tx_ok tx /\ wire_sized tx) txs2 ->
  txRoot_text txs1 = txRoot_text txs2 -> rlpEncodeSigned <$> txs1 = rlpEncodeSigned <$> txs2.
Proof.
  assert (F : forall tx, tx_ok tx /\ wire_sized tx -> free_of 124 (Transaction.toHex tx)).
  { intros tx [O W]. apply free_of_app. split; [by apply (bool_decide_unpack _)|].
    apply toHex_free. by apply rlpEncodeSigned_bytes. }
  intros H1. revert txs2. induction H1 as [|t1 l1 [O1 W1] _ IH]; intros [|t2 l2] H2 E.
  - done.
  - exfalso. symmetry in E. apply app_eq_nil in E as [E _]. by apply app_eq_nil in E as [_ ?].
  - exfalso. apply app_eq_nil in E as [E _]. by apply app_eq_nil in E as [_ ?].
  - apply Forall_cons in H2 as [[O2 W2] H2]. unfold txRoot_text in E. cbn [fmap list_fmap concat] in E.
    rewrite <- !app_assoc in E. apply split_sep in E as [Et E]; [|by apply F..].
    cbn [fmap list_fmap]. f_equal; [|by apply IH].
    apply app_inv_head in Et. apply Hash.toHex_inj in Et; [done|by apply rlpEncodeSigned_bytes..].
Qed.

(** ** Receipts that share a key *)

Definition receipt_bytes (r : Receipt) : Bytes := match Receipt.rlpEncode r with Ok v => v | _ => [] end.

Fixpoint receipt_entries (i : Z) (rs : list Receipt) : list (Bytes * Bytes) :=
  match rs with
  | [] => []
  | r :: rs' => ([u8 i], receipt_bytes r) :: receipt_entries (i + 1) rs'
  end.

(** A receipt as [mineBlock] makes it. *)
Definition made_receipt (r : Receipt) : Prop := plain_receipt r /\ is_u64 (rc_cumulativeGasUsed r).

Lemma made_receipt_encodes r :
  made_receipt r -> Receipt.rlpEncode r = Ok (receipt_bytes r) /\ receipt_bytes r <> [] /\ bytes_ok (receipt_bytes r).
Proof.
  intros [P G]. destruct r as [st g ls]. unfold plain_receipt in P. cbn in P, G. subst ls.
  destruct (rlpEncode_plain st g G) as (b & E & N & B). unfold receipt_bytes. by rewrite E.
Qed.

Lemma receipts_trie_entries i t rs :
  Forall made_receipt rs -> receipts_trie i t rs = Ok (put_all t (receipt_entries i rs)).
Proof.
  intros H. revert i t. induction H as [|r rs Hr _ IH]; intros i t; [done|].
  cbn [receipts_trie receipt_entries]. destruct (made_receipt_encodes r Hr) as (-> & _).
  cbn [mbind res_bind]. by rewrite IH.
Qed.

Lemma receipt_entries_ok i rs : Forall made_receipt rs -> Forall entry_ok (receipt_entries i rs).
Proof.
  intros H. revert i. induction H as [|r rs Hr _ IH]; intros i; cbn [receipt_entries]; constructor; [|done].
  destruct (made_receipt_encodes r Hr) as (_ & N & B). split; [|done].
  repeat constructor; apply u8_range.
Qed.

Lemma receipt_entries_keys i rs j :
  i <= j < i + zlen rs -> [u8 j] ∈ (receipt_entries i rs).*1.
Proof.
  revert i. induction rs as [|r rs IH]; intros i H.
  { unfold zlen in H. cbn in H. lia. }
  cbn [receipt_entries fmap list_fmap fst]. rewrite zlen_cons in H. apply elem_of_cons.
  destruct (Z.eq_dec j i) as [->|N]; [by left|right]. apply IH. lia.
Qed.

(** ** Properties *)

(** C1: the chain invariant. Whatever sequence of [addTransaction],
    [mineBlock] (successful or not) and [addBlock] calls has run since
    genesis: the chain is not empty, every block sits at its own index, its
    proof verifies and it names the hash of its predecessor; the accounts are
    well formed; and, if the genesis accounts together hold less than 2^64,
    the total supply is that of the genesis block (with more, a credit can
    wrap around). *)
Theorem chain_invariant (g : GenesisConfig) (bc : Blockchain) :
  genesis_ok g -> reachable g bc ->
  chain_ bc <> [] /\ linked (chain_ bc) /\ state_ok (state_ bc) /\
  (supply (State_of_genesis g) < 2 ^ 64 -> supply (state_ bc) = supply (State_of_genesis g)).
Proof. intros G R. by destruct (reachable_ok g bc G R). Qed.

(** A chain with one funded account and two transfers in its pool, of which
    the account can pay one. *)
Module SampleChain.

Definition genesis : GenesisConfig :=
  mkGenesisConfig [mkGenesisAccount (mkAddress (replicate 20 1)) 10] 1.

Definition transfer : Transaction :=
  mkTransaction 0 0 0 (mkAddress (replicate 20 9)) 6 [] 1 (mkAddress (replicate 20 1)) empty_signature [].

Definition start : Blockchain := genesis_chain genesis 1700000000.

Definition pending : Blockchain := addTransaction start transfer.

Definition overdrawn : Blockchain := addTransaction pending transfer.

(** A chain on which the signer of the signed sample transfer owns 100. *)
Definition rich_genesis : GenesisConfig := mkGenesisConfig [mkGenesisAccount (tx_from Sample.signed) 100] 1.

Definition rich : Blockchain := genesis_chain rich_genesis 1700000000.

Lemma rich_valid : genesis_ok rich_genesis.
Proof. constructor; [|constructor]. apply (bool_decide_unpack _). vm_compute. reflexivity. Qed.

Lemma rich_reachable : reachable rich_genesis rich.
Proof. apply (reach_genesis _ 1700000000). apply new_Blockchain_ok, rich_valid. Qed.

Lemma genesis_valid : genesis_ok genesis.
Proof. constructor; [|constructor]. by apply (bool_decide_unpack _). Qed.

Lemma transfer_ok : tx_ok transfer.
Proof. tx_ok_tac. Qed.

Lemma start_reachable : reachable genesis start.
Proof. apply (reach_genesis _ 1700000000). apply new_Blockchain_ok, genesis_valid. Qed.

Lemma pending_reachable : reachable genesis pending.
Proof. eapply reach_step; [apply start_reachable|]. apply step_addTransaction, transfer_ok. Qed.

Lemma overdrawn_reachable : reachable genesis overdrawn.
Proof. eapply reach_step; [apply pending_reachable|]. apply step_addTransaction, transfer_ok. Qed.

Lemma pending_mines : exists bc' b, mineBlock 5 pending = (bc', Ok b).
Proof.
  destruct (reachable_ok _ _ genesis_valid pending_reachable) as [N _ S O _ _].
  destruct (apply_all_cases (mempool_ pending) (state_ pending)) as [[s' E]|(s' & E & _)];
    [|apply (f_equal snd) in E; vm_compute in E; discriminate E].
  destruct (mineBlock_success pending s' 5 N S O E) as (l & be & af & rr & _ & _ & _ & _ & H). eauto.
Qed.

End SampleChain.

Lemma chain_invariant_witness : linked (chain_ SampleChain.overdrawn).
Proof.
  apply (chain_invariant SampleChain.genesis SampleChain.overdrawn);
    [apply SampleChain.genesis_valid|apply SampleChain.overdrawn_reachable].
Defined.

(** C4: mining, on every branch. From a reachable chain [mineBlock] has
    exactly two outcomes. Either every pending transaction is applied in
    order, the pool is emptied, and one block is appended whose state roots
    are those before and after the transactions and which carries the
    transactions with one receipt each; or it throws at the first
    transaction whose sender cannot pay, with the chain and the pool as
    before but the earlier transactions applied to the state. *)
Theorem mineBlock_spec (g : GenesisConfig) (bc : Blockchain) (now : Z) :
  genesis_ok g -> reachable g bc ->
  (exists b s',
     mineBlock now bc = (mkBlockchain (chain_ bc ++ [b]) s' [] (chainId_ bc), Ok b) /\
     apply_all (mempool_ bc) (state_ bc) = (s', Ok ()) /\
     root (state_ bc) = Ok (blk_stateBefore b) /\ root s' = Ok (blk_stateAfter b) /\
     blk_txRoot b = computeTxRoot (mempool_ bc) /\ blk_transactions b = mempool_ bc /\
     length (blk_receipts b) = length (mempool_ bc) /\
     receipts_root (blk_receipts b) = Ok (blk_receiptsRoot b)) \/
  (exists s',
     mineBlock now bc = (set_state bc s', Throw "Insufficient balance") /\
     stuck_at (mempool_ bc) (state_ bc) s').
Proof.
  intros G R. destruct (reachable_ok g bc G R) as [N L S O C U].
  destruct (apply_all_cases (mempool_ bc) (state_ bc)) as [[s' E]|(s' & E & St)]; [left|right].
  - destruct (mineBlock_success bc s' now N S O E) as (l & before & after & rr & El & Eb & Ea & Er & Em).
    eexists _, s'. split; [exact Em|]. split; [done|]. split; [exact Eb|]. split; [exact Ea|].
    split; [done|]. split; [done|]. split; [|exact Er]. apply make_receipts_plain.
  - exists s'. split; [by apply mineBlock_failure|done].
Qed.

Lemma mineBlock_spec_witness :
  exists s', mineBlock 5 SampleChain.overdrawn = (set_state SampleChain.overdrawn s', Throw "Insufficient balance").
Proof.
  destruct (mineBlock_spec SampleChain.genesis SampleChain.overdrawn 5)
    as [(b & s' & _ & E & _)|(s' & H & _)];
    [apply SampleChain.genesis_valid|apply SampleChain.overdrawn_reachable| |exists s'; exact H].
  exfalso. apply (f_equal snd) in E. vm_compute in E. discriminate E.
Defined.

(** A failed [mineBlock] is not rolled back. There is a reachable chain on
    which [mineBlock] throws, the chain and the pool stay as they were, and
    yet an account has been debited: the state no longer is the one the last
    block commits to, and the paid transaction is still pending. *)
Theorem failed_mining_keeps_effects :
  exists g bc bc' now,
    genesis_ok g /\ reachable g bc /\ mineBlock now bc = (bc', Throw "Insufficient balance") /\
    chain_ bc' = chain_ bc /\ mempool_ bc' = mempool_ bc /\
    acc_balance (view (state_ bc) (mkAddress (replicate 20 1))) = 10 /\
    acc_balance (view (state_ bc') (mkAddress (replicate 20 1))) = 4 /\
    (exists l, last (chain_ bc') = Some l /\ root (state_ bc) = Ok (blk_stateAfter l) /\
       (root (state_ bc') = Ok (blk_stateAfter l) ->
        collision (encodeNode (state_trie (state_ bc'))) (encodeNode (state_trie (state_ bc))))).
Proof.
  pose proof (reachable_ok _ _ SampleChain.genesis_valid SampleChain.overdrawn_reachable) as [_ _ S O _ _].
  destruct (apply_all (mempool_ SampleChain.overdrawn) (state_ SampleChain.overdrawn)) as [s' r] eqn:E.
  assert (S' : state_ok s') by (pose proof (apply_all_inv _ _ S O) as [I _]; by rewrite E in I).
  assert (Er : r = Throw "Insufficient balance") by (apply (f_equal snd) in E; vm_compute in E; by rewrite <- E).
  assert (Es : s' = (apply_all (mempool_ SampleChain.overdrawn) (state_ SampleChain.overdrawn)).1) by (by rewrite E).
  subst r. exists SampleChain.genesis, SampleChain.overdrawn, (set_state SampleChain.overdrawn s'), 5.
  split; [apply SampleChain.genesis_valid|]. split; [apply SampleChain.overdrawn_reachable|].
  split; [by apply mineBlock_failure|]. split; [done|]. split; [done|].
  split; [vm_compute; reflexivity|]. split; [cbn [state_ set_state]; rewrite Es; vm_compute; reflexivity|].
  eexists. split; [reflexivity|]. split; [by apply root_trie|]. cbn [state_ set_state].
  rewrite root_trie by done. intros Eq.
  assert (Eh : rootHash (state_trie s') = rootHash (state_trie (state_ SampleChain.overdrawn))) by exact (Ok_inj _ _ Eq).
  apply rootHash_inj in Eh as [Et|C]; [exfalso|done|by apply state_trie_wf..|].
  - assert (Ev : acc_balance (view s' (mkAddress (replicate 20 1))) = 4) by (rewrite Es; vm_compute; reflexivity).
    assert (H : accounts_ (state_ SampleChain.overdrawn) !! Address.toHex false (mkAddress (replicate 20 1)) = Some (mkAccount 10 0))
      by (vm_compute; reflexivity).
    apply (state_trie_sub _ s') in H; [|done..]. unfold view, State.get in Ev. by rewrite H in Ev.
  - rewrite Es. vm_compute. reflexivity.
Qed.

(** C6: the transaction check is exact. For a well-formed transaction,
    [validateTransaction] always returns, and it returns true exactly when
    the chain id is the node's, the signature verifies, the nonce is the
    sender's next one, and the sender's balance covers value plus
    gasPrice * gasLimit computed without overflow. *)
Theorem validateTransaction_exact {SC : Secp256k1} (bc : Blockchain) (tx : Transaction) (err : string) :
  state_ok (state_ bc) -> tx_ok tx ->
  exists ok e, validateTransaction bc tx err = Ok (ok, e) /\
    (ok = true <->
     tx_chainId tx = chainId_ bc /\ verifySignature tx = Ok true /\
     tx_nonce tx = acc_nonce (view (state_ bc) (tx_from tx)) /\
     max_cost tx <= acc_balance (view (state_ bc) (tx_from tx))).
Proof. apply validate_decides. Qed.

Lemma validateTransaction_exact_witness :
  exists ok e, @validateTransaction TestCurve.curve SampleChain.start Sample.signed "" = Ok (ok, e).
Proof.
  destruct (@validateTransaction_exact TestCurve.curve SampleChain.start Sample.signed "") as (ok & e & H & _);
    [|tx_ok_tac|by exists ok, e].
  apply (reachable_ok SampleChain.genesis); [apply SampleChain.genesis_valid|apply SampleChain.start_reachable].
Defined.

(** C5: accepting a block. On a reachable chain [addBlock] returns true
    exactly when the block's index is the chain's length, its parent hash is
    that of the last block and its proof verifies; it then appends the block
    and nothing else: neither the accounts nor the pool reflect the block's
    transactions. Otherwise nothing changes. *)
Theorem addBlock_spec (g : GenesisConfig) (bc : Blockchain) (b : Block) :
  genesis_ok g -> reachable g bc ->
  exists l, last (chain_ bc) = Some l /\
    addBlock b bc =
    if decide (blk_index b = zlen (chain_ bc) /\ blk_prevHash b = blk_hash l /\ verify (blk_proof b) = true)
    then (mkBlockchain (chain_ bc ++ [b]) (state_ bc) (mempool_ bc) (chainId_ bc), Ok true)
    else (bc, Ok false).
Proof.
  intros G R. destruct (reachable_ok g bc G R) as [N _ _ _ _ _].
  destruct (back_hash_last _ N) as (l & El & _). exists l. split; [done|]. by apply addBlock_unfold.
Qed.

Lemma addBlock_spec_witness :
  addBlock (mkBlock 7 [] [] [] [] [] empty_proof 0 [] 0 [] [] empty_bloom) SampleChain.start = (SampleChain.start, Ok false).
Proof.
  destruct (addBlock_spec SampleChain.genesis SampleChain.start (mkBlock 7 [] [] [] [] [] empty_proof 0 [] 0 [] [] empty_bloom)
              SampleChain.genesis_valid SampleChain.start_reachable) as (l & El & E).
  rewrite E, decide_False; [reflexivity|]. intros (Ei & _). discriminate Ei.
Defined.

(** An honest block is accepted. A block mined by one node, handed over
    unchanged to another node whose chain has the same length and the same
    last hash, is accepted and appended there. *)
Theorem mined_block_accepted (g g' : GenesisConfig) (bc bc1 bc2 : Blockchain) (now : Z) (b : Block) :
  genesis_ok g -> reachable g bc -> genesis_ok g' -> reachable g' bc2 ->
  mineBlock now bc = (bc1, Ok b) ->
  zlen (chain_ bc2) = zlen (chain_ bc) -> blk_hash <$> last (chain_ bc2) = blk_hash <$> last (chain_ bc) ->
  exists bc2', addBlock b bc2 = (bc2', Ok true) /\ chain_ bc2' = chain_ bc2 ++ [b] /\ linked (chain_ bc2').
Proof.
  intros G R G' R' E Hl Hh. destruct (reachable_ok g bc G R) as [N _ S O _ _].
  pose proof (reachable_ok g' bc2 G' R') as K2.
  destruct (apply_all_cases (mempool_ bc) (state_ bc)) as [[s' Ea]|(s' & Ea & _)];
    [|by rewrite (mineBlock_failure bc s' now S Ea) in E].
  destruct (mineBlock_success bc s' now N S O Ea) as (l & before & after & rr & El & _ & _ & _ & Em).
  rewrite Em in E. injection E as _ <-. rewrite El in Hh.
  destruct (last (chain_ bc2)) as [l2|] eqn:El2; [|done]. injection Hh as Hh.
  pose proof (chain_ok_addBlock g' bc2 (mined bc (blk_hash l) before after rr now) K2) as K.
  rewrite (addBlock_unfold _ bc2 l2 El2) in K |- *.
  rewrite decide_True in K |- * by (split; [done|]; split; [done|]; apply generate_verifies).
  eexists. split; [done|]. split; [done|]. apply K.
Qed.

Lemma mined_block_accepted_witness :
  exists b bc2', addBlock b SampleChain.start = (bc2', Ok true) /\ linked (chain_ bc2').
Proof.
  destruct SampleChain.pending_mines as (bc1 & b & E).
  destruct (mined_block_accepted SampleChain.genesis SampleChain.genesis SampleChain.pending bc1 SampleChain.start 5 b
              SampleChain.genesis_valid SampleChain.pending_reachable SampleChain.genesis_valid
              SampleChain.start_reachable E eq_refl eq_refl) as (bc2' & H & _ & L).
  exists b, bc2'. split; [exact H|exact L].
Defined.

(** The stored hash of a mined block does not cover its receipts root.
    [mineBlock] stores the receipts root after the constructor has hashed the
    block: the stored hash is that of the block with an empty receipts root,
    and it equals [computeHash] of the block only under a collision. *)
Theorem mined_hash_stale (g : GenesisConfig) (bc bc1 : Blockchain) (now : Z) (b : Block) :
  genesis_ok g -> reachable g bc -> mineBlock now bc = (bc1, Ok b) ->
  let b0 := attach b (blk_transactions b) (blk_receipts b) [] in
  blk_hash b = Block.computeHash b0 /\
  (blk_hash b = Block.computeHash b -> collision (block_text b0) (block_text b)).
Proof.
  intros G R E b0. destruct (reachable_ok g bc G R) as [N _ S O _ _].
  destruct (apply_all_cases (mempool_ bc) (state_ bc)) as [[s' Ea]|(s' & Ea & _)];
    [|by rewrite (mineBlock_failure bc s' now S Ea) in E].
  destruct (mineBlock_success bc s' now N S O Ea) as (l & before & after & rr & El & _ & _ & Er & Em).
  rewrite Em in E. injection E as _ Eb.
  assert (H : blk_hash b = Block.computeHash b0) by (unfold b0; by rewrite <- Eb).
  assert (Hr : blk_receiptsRoot b <> []).
  { unfold receipts_root in Er. apply bind_Ok in Er as (t & _ & Et).
    assert (rr = rootHash t) as -> by congruence. rewrite <- Eb. apply rootHash_nonempty. }
  split; [done|]. rewrite H. intros Eh. apply digest_inj in Eh as [Et|C]; [exfalso|done].
  apply Hr. apply (f_equal length) in Et. unfold block_text in Et. rewrite !length_app in Et. cbn in Et.
  destruct (blk_receiptsRoot b); [done|]. cbn in Et. lia.
Qed.

Lemma mined_hash_stale_witness :
  exists b, blk_hash b = Block.computeHash (attach b (blk_transactions b) (blk_receipts b) []).
Proof.
  destruct SampleChain.pending_mines as (bc1 & b & E). exists b.
  exact (proj1 (mined_hash_stale SampleChain.genesis SampleChain.pending bc1 5 b
                  SampleChain.genesis_valid SampleChain.pending_reachable E)).
Defined.

(** The receipts root forgets receipts. The trie key is the low byte of
    the receipt's position, so in a block of more than 256 transactions the
    receipts root does not depend on the first receipt. *)
Theorem receipts_root_forgets (r r' : Receipt) (rest : list Receipt) :
  made_receipt r -> made_receipt r' -> Forall made_receipt rest -> 256 <= zlen rest ->
  receipts_root (r :: rest) = receipts_root (r' :: rest) /\ exists h, receipts_root (r :: rest) = Ok h.
Proof.
  intros Hr Hr' Hs L.
  assert (K : forall x, made_receipt x -> receipts_root (x :: rest) = Ok (rootHash (put_all empty_node (receipt_entries 1 rest)))).
  { intros x Hx. unfold receipts_root. rewrite receipts_trie_entries by (by constructor).
    cbn [mbind res_bind]. do 2 f_equal. cbn [receipt_entries].
    apply (put_all_overwritten (receipt_entries 1 rest) empty_node [u8 0] (receipt_bytes x)).
    - apply empty_wf.
    - pose proof (receipt_entries_ok 0 [x] ltac:(by constructor)) as F. by apply Forall_cons in F as [? _].
    - by apply receipt_entries_ok.
    - change [u8 0] with [u8 256]. apply receipt_entries_keys. lia. }
  rewrite (K r Hr), (K r' Hr'). eauto.
Qed.

Lemma receipts_root_forgets_witness :
  receipts_root (mkReceipt true 1 [] :: replicate 256 (mkReceipt true 9 []))
  = receipts_root (mkReceipt true 2 [] :: replicate 256 (mkReceipt true 9 [])).
Proof.
  apply receipts_root_forgets; [by repeat split|by repeat split| |vm_compute; discriminate].
  apply Forall_replicate. by repeat split.
Defined.

(** The transaction root commits to the list. Two lists of transactions
    with the same root have the same signed encodings in the same order,
    unless the hashed texts collide under Keccak-256. *)
Theorem computeTxRoot_binding (txs1 txs2 : list Transaction) :
  Forall (fun tx => tx_ok tx /\ wire_sized tx) txs1 -> Forall (fun tx => tx_ok tx /\ wire_sized tx) txs2 ->
  computeTxRoot txs1 = computeTxRoot txs2 ->
  rlpEncodeSigned <$> txs1 = rlpEncodeSigned <$> txs2 \/ collision (txRoot_text txs1) (txRoot_text txs2).
Proof.
  intros H1 H2 E. unfold computeTxRoot in E.
  assert (Ln : forall x, Hash.toHex (keccak256 x) <> str "0x00").
  { intros x Ex. apply (f_equal length) in Ex. rewrite toHex_length, keccak256_length in Ex by apply keccak256_bytes.
    discriminate Ex. }
  rewrite !txRoot_acc in E. case_bool_decide as E1; case_bool_decide as E2.
  - left. by subst.
  - symmetry in E. by apply Ln in E.
  - by apply Ln in E.
  - apply digest_inj in E as [Et|C]; [left|by right]. by apply txRoot_text_inj.
Qed.

Lemma computeTxRoot_binding_witness :
  rlpEncodeSigned <$> [Sample.signed] = rlpEncodeSigned <$> [Sample.signed] \/
  collision (txRoot_text [Sample.signed]) (txRoot_text [Sample.signed]).
Proof.
  apply computeTxRoot_binding; [| |reflexivity]; (constructor; [|constructor]); (split; [tx_ok_tac|vm_compute; reflexivity]).
Defined.

(** A pending transaction can be submitted again. The check looks at the
    account only, so a valid transaction still passes while it is already in
    the pool, and a block mined with both copies moves the value twice on one
    signature. *)
Theorem duplicate_transaction_applied {SC : Secp256k1} (g : GenesisConfig) (bc : Blockchain)
    (tx : Transaction) (now : Z) (err : string) :
  genesis_ok g -> reachable g bc -> mempool_ bc = [] -> tx_ok tx -> tx_from tx <> tx_to tx ->
  validateTransaction bc tx err = Ok (true, err) ->
  2 * tx_value tx <= acc_balance (view (state_ bc) (tx_from tx)) ->
  validateTransaction (addTransaction bc tx) tx err = Ok (true, err) /\
  exists bc' b, mineBlock now (addTransaction (addTransaction bc tx) tx) = (bc', Ok b) /\
    acc_balance (view (state_ bc') (tx_from tx)) = acc_balance (view (state_ bc) (tx_from tx)) - 2 * tx_value tx.
Proof.
  intros G R Em O Ne V B. split; [exact V|]. destruct (reachable_ok g bc G R) as [N _ S _ _ _].
  pose proof (ok_value _ O) as [V0 _]. pose proof (ok_from _ O) as F.
  destruct (apply_success (state_ bc) (tx_from tx) tx S F O ltac:(lia)) as (s1 & E1 & S1 & W1).
  assert (B1 : acc_balance (view s1 (tx_from tx)) = acc_balance (view (state_ bc) (tx_from tx)) - tx_value tx).
  { rewrite W1 by done. unfold transferred. rewrite decide_True by done. by rewrite decide_False. }
  destruct (apply_success s1 (tx_from tx) tx S1 F O ltac:(lia)) as (s2 & E2 & S2 & W2).
  destruct (mineBlock_success (addTransaction (addTransaction bc tx) tx) s2 now) as (l & be & af & rr & _ & _ & _ & _ & E).
  - done.
  - done.
  - cbn [addTransaction mempool_]. rewrite Em. by do 2 (constructor; [done|]).
  - cbn [addTransaction mempool_ state_]. rewrite Em. cbn [app apply_all]. unfold act_bind. by rewrite E1, E2.
  - eexists _, _. split; [exact E|]. cbn [state_]. rewrite W2 by done. unfold transferred.
    rewrite decide_True by done. rewrite decide_False by done. cbn [acc_balance]. lia.
Qed.

Lemma duplicate_transaction_applied_witness :
  exists bc' b,
    mineBlock 5 (addTransaction (addTransaction SampleChain.rich Sample.signed) Sample.signed) = (bc', Ok b) /\
    acc_balance (view (state_ bc') (tx_from Sample.signed)) = 90.
Proof.
  destruct (@duplicate_transaction_applied TestCurve.curve SampleChain.rich_genesis SampleChain.rich Sample.signed 5 "")
    as (_ & bc' & b & E & B).
  - apply SampleChain.rich_valid.
  - apply SampleChain.rich_reachable.
  - reflexivity.
  - tx_ok_tac.
  - vm_compute. discriminate.
  - vm_compute. reflexivity.
  - vm_compute. discriminate.
  - exists bc', b. split; [exact E|]. rewrite B. vm_compute. reflexivity.
Defined.
