(* ===== verification/P2PMessage.v ===== *)
(** * Wire messages (src/src/p2p_message.cpp, src/include/gambit/p2p_message.hpp)

    One type byte, a 32-bit big-endian length, the payload. *)

From stdpp Require Import base list numbers strings.
From Stdlib Require Import ZArith Lia.
From S2P Require Import Prelude.

#[local] Open Scope Z_scope.

(** p2p_message.hpp 8-16. The enumeration has the fixed underlying type
    [uint8_t], so every byte is a value of it. *)
Definition MessageType : Type := Z.

Definition HELLO : MessageType := 0.
Definition NEW_TX : MessageType := 1.
Definition NEW_BLOCK : MessageType := 2.
Definition GET_BLOCKS : MessageType := 3.
Definition BLOCKS_RESPONSE : MessageType := 4.
Definition PING : MessageType := 5.
Definition PONG : MessageType := 6.

(** p2p_message.hpp 18-26. *)
Record Message : Type := mkMessage { msg_type : MessageType; msg_payload : Bytes }.

#[export] Instance Message_eq_dec : EqDecision Message.
Proof. solve_decision. Defined.

(** p2p_message.cpp 12-15: the length, most significant byte first. *)
Definition len_bytes (len : Z) : Bytes :=
  [ Z.land (Z.shiftr len 24) 0xFF; Z.land (Z.shiftr len 16) 0xFF;
    Z.land (Z.shiftr len 8) 0xFF; Z.land len 0xFF ].

(** p2p_message.cpp 6-19. *)
Definition encode (m : Message) : Bytes :=
  let len := u32 (zlen (msg_payload m)) in
  u8 (msg_type m) :: len_bytes len ++ msg_payload m.

(** p2p_message.cpp 29-33, and p2p_peer.cpp 64-68: the length from the four
    bytes after the type. *)
Definition read_len (data : Bytes) : Z :=
  u32 (Z.lor (Z.lor (Z.lor (Z.shiftl (nth 1 data 0) 24) (Z.shiftl (nth 2 data 0) 16))
               (Z.shiftl (nth 3 data 0) 8)) (nth 4 data 0)).

(** p2p_message.cpp 21-41. [5 + len] is a sum of 32-bit integers and wraps;
    the iterators of [assign] do not, and must stay inside [data]. *)
Definition decode (data : Bytes) : res Message :=
  if zlen data <? 5 then Throw "Message::decode: too short"
  else
    let type := nth 0 data 0 in
    let len := read_len data in
    if zlen data <? u32 (5 + len) then Throw "Message::decode: incomplete payload"
    else if zlen data <? 5 + len then UB
    else Ok (mkMessage type (take (Z.to_nat len) (drop 5 data))).

(** ** Lemmas *)

Definition message_ok (m : Message) : Prop :=
  is_u8 (msg_type m) /\ bytes_ok (msg_payload m) /\ zlen (msg_payload m) < 2 ^ 32.

(** The four bytes as digits in base 256. *)
Lemma read_len_digits t b1 b2 b3 b4 rest :
  is_u8 b1 -> is_u8 b2 -> is_u8 b3 -> is_u8 b4 ->
  read_len (t :: b1 :: b2 :: b3 :: b4 :: rest) = ((b1 * 256 + b2) * 256 + b3) * 256 + b4.
Proof.
  intros [? ?] [? ?] [? ?] [? ?]. unfold read_len. cbn [nth].
  rewrite <- Z.lor_assoc, <- Z.lor_assoc.
  rewrite (lor_shiftl_add b3 b4 8) by lia.
  rewrite (lor_shiftl_add b2 _ 16) by lia. rewrite (lor_shiftl_add b1 _ 24) by lia.
  rewrite u32_id by (unfold is_u32; lia). lia.
Qed.

Lemma byte_digit v k : 0 <= k -> Z.land (Z.shiftr v k) 0xFF = (v / 2 ^ k) mod 256.
Proof. intros H. rewrite land_255, Z.shiftr_div_pow2 by lia. done. Qed.

Lemma read_len_bytes t len rest : is_u32 len -> read_len (t :: len_bytes len ++ rest) = len.
Proof.
  intros [H0 H]. unfold len_bytes. cbn [app]. rewrite !byte_digit by lia. rewrite land_255.
  rewrite read_len_digits by (apply Z.mod_pos_bound; lia).
  pose proof (Z.div_mod len 256 ltac:(lia)). pose proof (Z.div_mod (len / 256) 256 ltac:(lia)).
  pose proof (Z.div_mod (len / 256 / 256) 256 ltac:(lia)).
  change (2 ^ 8) with 256 in *. change (2 ^ 16) with (256 * 256) in *. change (2 ^ 24) with (256 * (256 * 256)) in *.
  rewrite <- !Z.div_div by lia.
  assert (len / 256 / 256 / 256 < 256) by (repeat (apply Z.div_lt_upper_bound; [lia|]); lia).
  assert (0 <= len / 256 / 256 / 256) by (repeat (apply Z.div_pos; [|lia]); lia).
  rewrite (Z.mod_small (len / 256 / 256 / 256)) by lia. lia.
Qed.

Lemma encode_length m : zlen (encode m) = 5 + zlen (msg_payload m).
Proof. unfold encode, len_bytes. cbn [app]. rewrite !zlen_cons. lia. Qed.

Lemma encode_header m rest :
  message_ok m ->
  nth 0 (encode m ++ rest) 0 = msg_type m /\ read_len (encode m ++ rest) = zlen (msg_payload m) /\
  drop 5 (encode m ++ rest) = msg_payload m ++ rest.
Proof.
  intros (T & B & L). unfold encode. rewrite u8_id by done.
  rewrite u32_id by (split; [apply zlen_nonneg|done]). cbn [app]. rewrite <- app_assoc.
  split; [done|]. split; [|done]. apply read_len_bytes. split; [apply zlen_nonneg|done].
Qed.

(** ** Properties *)

(** Messages survive the wire. A message whose payload is shorter than
    2^32 - 5 bytes decodes from its encoding (with any bytes after it) to
    itself. *)
Theorem message_roundtrip (m : Message) (rest : Bytes) :
  message_ok m -> zlen (msg_payload m) < 2 ^ 32 - 5 -> decode (encode m ++ rest) = Ok m.
Proof.
  intros O L. unfold decode. destruct (encode_header m rest O) as (E1 & E2 & E3).
  rewrite E1, E2, E3, zlen_app, encode_length. pose proof (zlen_nonneg (msg_payload m)). pose proof (zlen_nonneg rest).
  rewrite u32_id by (unfold is_u32; lia). z_tests. rewrite zlen_to_nat, take_seam. by destruct m.
Qed.

Lemma message_roundtrip_witness :
  decode (encode (mkMessage NEW_TX [1; 2; 3]) ++ [9]) = Ok (mkMessage NEW_TX [1; 2; 3]).
Proof. apply message_roundtrip; [|vm_compute; reflexivity]. by apply (bool_decide_unpack _). Defined.

(** When decoding a message is undefined. The bound check of [decode]
    adds 5 to the announced length in 32 bits; the call has undefined
    behaviour exactly on inputs that announce a length of at least 2^32 - 5
    and hold fewer bytes than that, and it is defined on every other input.
    Five bytes suffice for such an input. *)
Theorem decode_undefined_iff (data : Bytes) :
  bytes_ok data ->
  (decode data = UB <->
   5 <= zlen data /\ 2 ^ 32 <= 5 + read_len data /\ 5 + read_len data - 2 ^ 32 <= zlen data < 5 + read_len data) /\
  decode [1; 255; 255; 255; 251] = UB.
Proof.
  intros B. split; [|reflexivity]. unfold decode.
  assert (R : is_u32 (read_len data)) by apply u32_range. destruct R as [R0 R1].
  assert (W : u32 (5 + read_len data) = if 5 + read_len data <? 2 ^ 32 then 5 + read_len data else 5 + read_len data - 2 ^ 32).
  { destruct (_ <? _) eqn:E; to_prop; [apply u32_id; unfold is_u32; lia|].
    unfold u32. rewrite <- (Z_mod_plus_full _ (-1)), Z.mod_small; lia. }
  rewrite W. clear W. destruct (zlen data <? 5) eqn:E1; to_prop; [split; [done|lia]|].
  destruct (5 + read_len data <? 2 ^ 32) eqn:E2; to_prop.
  - destruct (zlen data <? 5 + read_len data); (split; [done|lia]).
  - destruct (zlen data <? _) eqn:E3; to_prop; [split; [done|lia]|].
    destruct (zlen data <? 5 + _) eqn:E4; to_prop; (split; [|lia || done]); [intros _; lia|done].
Qed.

Lemma decode_undefined_iff_witness : decode [1; 255; 255; 255; 251] = UB.
Proof. apply (decode_undefined_iff [1]). by apply (bool_decide_unpack _). Defined.
