(* ===== verification/P2PPeer.v ===== *)
(** * Peer connections (src/src/p2p_peer.cpp, src/include/gambit/p2p_peer.hpp)

    The receive loop over a stream socket. The operating system's socket is a
    parameter ([Socket]); [SocketLaws] states what POSIX documents of [recv]
    with MSG_WAITALL on a connection whose remote end sends a finite stream
    and closes. *)

From stdpp Require Import base list numbers strings.
From Stdlib Require Import ZArith Lia.
From S2P Require Import Prelude P2PMessage.

#[local] Open Scope Z_scope.

(** ** The socket interface *)

Class Socket : Type := {
  sock : Type;
  (** [recv(fd, buf, len, MSG_WAITALL)]: its return value, the bytes it wrote
      to the start of the buffer, and the socket after the call. *)
  recv : sock -> Z -> Z * Bytes * sock;
  (** [send(fd, data, size, 0)], its result ignored by the code. *)
  send_bytes : sock -> Bytes -> sock;
}.

Class SocketLaws (SK : Socket) : Type := {
  (** The bytes still to be received before the end of the stream. *)
  pending : sock -> Bytes;
  recv_waitall s len :
    0 <= len ->
    exists s', recv s len = (zlen (take (Z.to_nat len) (pending s)), take (Z.to_nat len) (pending s), s') /\
               pending s' = drop (Z.to_nat len) (pending s);
}.

(** A stream of given bytes, for evaluation. *)
Module TestSocket.

Definition stream : Socket := {|
  sock := Bytes;
  recv s len := (zlen (take (Z.to_nat len) s), take (Z.to_nat len) s, drop (Z.to_nat len) s);
  send_bytes s _ := s;
|}.

#[global] Instance stream_laws : SocketLaws stream.
Proof. refine {| pending := (fun s => s) : @sock stream -> Bytes |}. intros s len _. by eexists. Defined.

End TestSocket.

(** ** The code *)

(** p2p_peer.hpp 13-35, the state the code keeps besides the thread. *)
Record Peer {SK : Socket} : Type := mkPeer {
  socketFd_ : sock;
  remoteAddr_ : std_string;
  running_ : bool;
}.
Arguments Peer : clear implicits.
Arguments mkPeer {SK}.

Section WithSocket.
Context {SK : Socket}.

(** p2p_peer.cpp 20-21. *)
Definition new_Peer (socketFd : sock) (remoteAddr : std_string) : Peer SK :=
  mkPeer socketFd remoteAddr false.

(** p2p_peer.cpp 44-52. *)
Definition send (p : Peer SK) (msg : Message) : Peer SK :=
  let encoded := encode msg in
  mkPeer (send_bytes (socketFd_ p) encoded) (remoteAddr_ p) (running_ p).

(** One iteration of the loop, p2p_peer.cpp 56-82: the message to hand over,
    or [None] for [break]. A header of which only a part arrived is read all
    the same: its other bytes are indeterminate. The payload vector is
    zero-filled before [recv] writes to it. *)
Definition recv_one (s : sock) : res (option Message * sock) :=
  let '(n, header, s) := recv s 5 in
  if n <=? 0 then Ok (None, s)
  else if n <? 5 then UB
  else
    let len := read_len header in
    let '(n, got, s) := recv s len in
    if n <=? 0 then Ok (None, s)
    else
      let payload := got ++ replicate (Z.to_nat len - length got) 0 in
      Ok (Some (mkMessage (nth 0 header 0) payload), s).

(** p2p_peer.cpp 54-86. The handler works on a state [H]; the fuel bounds the
    number of messages. The result is [running_] and the handler's state. *)
Fixpoint recvLoop {H} (handler : H -> Message -> H) (fuel : nat) (s : sock) (h : H) : res (bool * H) :=
  match fuel with
  | O => OutOfFuel
  | S f =>
      r ← recv_one s;
      match r with
      | (None, s') => Ok (false, h)
      | (Some msg, s') => recvLoop handler f s' (handler h msg)
      end
  end.

(** p2p_peer.cpp 27-31, with the thread's whole run: [start] sets the handler
    and [running_], and the loop runs until it breaks. *)
Definition run {H} (handler : H -> Message -> H) (fuel : nat) (p : Peer SK) (h : H) : res (bool * H) :=
  recvLoop handler fuel (socketFd_ p) h.

(** ** Lemmas *)

Context {SL : SocketLaws SK}.

(** A message the loop can take in: with a payload. *)
Definition deliverable (m : Message) : Prop := message_ok m /\ msg_payload m <> [].

Lemma recv_take s len :
  0 <= len -> len <= zlen (pending s) ->
  exists s', recv s len = (len, take (Z.to_nat len) (pending s), s') /\ pending s' = drop (Z.to_nat len) (pending s).
Proof.
  intros L0 L. destruct (recv_waitall s len L0) as (s' & E & P). exists s'. split; [|done].
  rewrite E. do 2 f_equal. unfold zlen in *. rewrite length_take. lia.
Qed.

Lemma read_len_take data : 5 <= zlen data -> read_len (take 5 data) = read_len data.
Proof.
  intros H. destruct data as [|b0 [|b1 [|b2 [|b3 [|b4 data]]]]]; try (unfold zlen in H; cbn in H; lia). done.
Qed.

Lemma nth0_take data : 5 <= zlen data -> nth 0 (take 5 data) 0 = nth 0 data 0.
Proof. intros H. destruct data; [unfold zlen in H; cbn in H; lia|]. done. Qed.

(** The header of a pending message. *)
Lemma recv_header s m rest :
  pending s = encode m ++ rest ->
  exists s', recv s 5 = (5, take 5 (encode m ++ rest), s') /\ pending s' = drop 5 (encode m ++ rest).
Proof.
  intros P. destruct (recv_take s 5) as (s' & E & Q); [lia| |].
  - rewrite P, zlen_app, encode_length. pose proof (zlen_nonneg (msg_payload m)). pose proof (zlen_nonneg rest). lia.
  - exists s'. by rewrite <- P.
Qed.

Lemma encode_long m rest : 5 <= zlen (encode m ++ rest).
Proof. rewrite zlen_app, encode_length. pose proof (zlen_nonneg (msg_payload m)). pose proof (zlen_nonneg rest). lia. Qed.

Lemma recv_one_message s m rest :
  deliverable m -> pending s = encode m ++ rest ->
  exists s', recv_one s = Ok (Some m, s') /\ pending s' = rest.
Proof.
  intros [O N] P. destruct (recv_header s m rest P) as (s1 & E1 & P1).
  destruct (encode_header m rest O) as (H1 & H2 & H3). rewrite H3 in P1.
  unfold recv_one. rewrite E1. cbn [Z.leb Z.ltb Z.compare Pos.compare Pos.compare_cont].
  rewrite read_len_take, nth0_take, H1, H2 by apply encode_long.
  destruct (recv_take s1 (zlen (msg_payload m))) as (s2 & E2 & P2);
    [apply zlen_nonneg|rewrite P1, zlen_app; pose proof (zlen_nonneg rest); lia|].
  rewrite E2. assert (0 < zlen (msg_payload m)).
  { destruct (msg_payload m); [done|]. rewrite zlen_cons. pose proof (zlen_nonneg l). lia. }
  z_tests. exists s2. rewrite P1, zlen_to_nat, take_seam in *. rewrite drop_seam in P2.
  rewrite Nat.sub_diag. cbn [replicate]. rewrite app_nil_r. by destruct m.
Qed.

Lemma recv_one_empty s m rest :
  message_ok m -> msg_payload m = [] -> pending s = encode m ++ rest -> exists s', recv_one s = Ok (None, s').
Proof.
  intros O N P. destruct (recv_header s m rest P) as (s1 & E1 & P1).
  destruct (encode_header m rest O) as (H1 & H2 & H3).
  unfold recv_one. rewrite E1. cbn [Z.leb Z.ltb Z.compare Pos.compare Pos.compare_cont].
  rewrite read_len_take, H2, N by apply encode_long.
  destruct (recv_waitall s1 (zlen (@nil Z)) ltac:(done)) as (s2 & E2 & _). rewrite E2. by exists s2.
Qed.

Lemma recv_one_end s : pending s = [] -> exists s', recv_one s = Ok (None, s').
Proof.
  intros P. unfold recv_one. destruct (recv_waitall s 5 ltac:(lia)) as (s' & E & _).
  rewrite E, P. by exists s'.
Qed.

Lemma recvLoop_messages {H} (handler : H -> Message -> H) ms rest s h fuel :
  Forall deliverable ms -> pending s = concat (encode <$> ms) ++ rest ->
  exists s', pending s' = rest /\
    recvLoop handler (length ms + fuel) s h = recvLoop handler fuel s' (foldl handler h ms).
Proof.
  intros D. revert s h. induction D as [|m ms Dm _ IH]; intros s h P; cbn [fmap list_fmap concat foldl] in *.
  { by exists s. }
  rewrite <- app_assoc in P. destruct (recv_one_message s m _ Dm P) as (s1 & E1 & P1).
  destruct (IH s1 (handler h m) P1) as (s' & P' & E'). exists s'. split; [done|].
  cbn [length Nat.add recvLoop]. rewrite E1. cbn [mbind res_bind]. exact E'.
Qed.

End WithSocket.

(** ** Properties *)

(** C32: the receive loop delivers the stream. When the remote end sends
    messages with non-empty payloads and closes, the loop hands exactly
    these messages to the handler, in order, and ends with [running_] off. *)
Theorem recvLoop_delivers {SK : Socket} {SL : SocketLaws SK} {H}
    (handler : H -> Message -> H) (p : Peer SK) (ms : list Message) (h : H) (fuel : nat) :
  Forall deliverable ms -> pending (socketFd_ p) = concat (encode <$> ms) -> (length ms < fuel)%nat ->
  run handler fuel p h = Ok (false, foldl handler h ms).
Proof.
  intros D P F. unfold run. rewrite <- (app_nil_r (concat _)) in P.
  destruct (recvLoop_messages handler ms [] (socketFd_ p) h (fuel - length ms) D P) as (s' & P' & E).
  replace (length ms + (fuel - length ms))%nat with fuel in E by lia. rewrite E.
  destruct (fuel - length ms)%nat as [|f] eqn:Ef; [lia|]. cbn [recvLoop].
  destruct (recv_one_end s' P') as (s'' & ->). done.
Qed.

Lemma recvLoop_delivers_witness :
  @run TestSocket.stream _ (fun h m => h ++ [m]) 3
    (@mkPeer TestSocket.stream (encode (mkMessage NEW_TX [1; 2]) ++ encode (mkMessage NEW_BLOCK [3])) [] true) []
  = Ok (false, [mkMessage NEW_TX [1; 2]; mkMessage NEW_BLOCK [3]]).
Proof.
  apply (@recvLoop_delivers TestSocket.stream _ (list Message) (fun h m => h ++ [m]) _
           [mkMessage NEW_TX [1; 2]; mkMessage NEW_BLOCK [3]] []);
    [|reflexivity|cbn; lia].
  repeat constructor; by apply (bool_decide_unpack _) || done.
Defined.

(** An empty message ends the connection. [recv] of zero bytes returns
    0, which the loop takes for the end of the stream: a message with an
    empty payload (a PING, say) is not delivered, and neither is any message
    after it. *)
Theorem empty_payload_stops_loop {SK : Socket} {SL : SocketLaws SK} {H}
    (handler : H -> Message -> H) (p : Peer SK) (ms : list Message) (m : Message) (rest : Bytes) (h : H) (fuel : nat) :
  Forall deliverable ms -> message_ok m -> msg_payload m = [] ->
  pending (socketFd_ p) = concat (encode <$> ms) ++ encode m ++ rest -> (length ms < fuel)%nat ->
  run handler fuel p h = Ok (false, foldl handler h ms).
Proof.
  intros D O N P F. unfold run.
  destruct (recvLoop_messages handler ms _ (socketFd_ p) h (fuel - length ms) D P) as (s' & P' & E).
  replace (length ms + (fuel - length ms))%nat with fuel in E by lia. rewrite E.
  destruct (fuel - length ms)%nat as [|f] eqn:Ef; [lia|]. cbn [recvLoop].
  destruct (recv_one_empty s' m rest O N P') as (s'' & ->). done.
Qed.

Lemma empty_payload_stops_loop_witness :
  @run TestSocket.stream _ (fun h m => h ++ [m]) 5
    (@mkPeer TestSocket.stream (encode (mkMessage NEW_TX [1; 2]) ++ encode (mkMessage PING []) ++ encode (mkMessage NEW_BLOCK [3])) [] true) []
  = Ok (false, [mkMessage NEW_TX [1; 2]]).
Proof.
  apply (@empty_payload_stops_loop TestSocket.stream _ (list Message) (fun h m => h ++ [m]) _
           [mkMessage NEW_TX [1; 2]] (mkMessage PING []) (encode (mkMessage NEW_BLOCK [3])) []); [| |reflexivity|reflexivity|cbn; lia].
  - repeat constructor; by apply (bool_decide_unpack _) || done.
  - by apply (bool_decide_unpack _).
Defined.
