(* ===== verification/ZkSeeder.v ===== *)
(** * The peer seeder (src/src/zk_seeder.cpp, zk_seeder_client.cpp and headers)

    The service's registry of peers, the signed registration request, and the
    client that builds it. The clocks of client and service are arguments. *)

From stdpp Require Import base list numbers strings.
From Stdlib Require Import ZArith Lia.
From S2P Require Import Prelude Keccak Hash Address Keys.

#[local] Open Scope Z_scope.

(** zk_seeder.hpp 13-19. *)
Record PeerInfo : Type := mkPeerInfo {
  pi_nodeId : Address;
  pi_ip : std_string;
  pi_port : Z;
  pi_lastSeen : Z;
  pi_score : Z;
}.

#[export] Instance PeerInfo_eq_dec : EqDecision PeerInfo.
Proof. solve_decision. Defined.

Definition set_lastSeen (p : PeerInfo) (t : Z) : PeerInfo :=
  mkPeerInfo (pi_nodeId p) (pi_ip p) (pi_port p) t (pi_score p).

Definition set_nodeId (p : PeerInfo) (a : Address) : PeerInfo :=
  mkPeerInfo a (pi_ip p) (pi_port p) (pi_lastSeen p) (pi_score p).

(** zk_seeder.cpp 46-48, zk_seeder_client.cpp 36-38: eight bytes, most
    significant first. *)
Definition time_bytes (t : Z) : Bytes :=
  (fun i => u8 (Z.land (Z.shiftr t (8 * i)) 0xFF)) <$> [7; 6; 5; 4; 3; 2; 1; 0].

(** zk_seeder.cpp 40-48, the same statements in zk_seeder_client.cpp 27-38. *)
Definition seeder_message (p : PeerInfo) : Bytes :=
  bytes_ (pi_nodeId p) ++ pi_ip p ++ [u8 (Z.shiftr (pi_port p) 8); u8 (Z.land (pi_port p) 0xFF)]
  ++ time_bytes (pi_lastSeen p).

(** zk_seeder.hpp 21-41: the registry, and the chain id it reads from the chain. *)
Record ZkSeederService : Type := mkSeeder { seeder_chainId : Z; peers_ : list PeerInfo }.

Section WithSecp.
Context {SC : Secp256k1}.

(** zk_seeder.cpp 33-77. *)
Definition verifyProof (svc : ZkSeederService) (peer : PeerInfo) (proof : Bytes) (err : string) :
  res (bool * string) :=
  let msgHash := keccak256_32 (seeder_message peer) in
  if negb (zlen proof =? 65) then Ok (false, "Invalid proof size")
  else
    let sig := mkSignature (take 32 proof) (take 32 (drop 32 proof)) (nth 64 proof 0) in
    match recoverAddress msgHash sig (seeder_chainId svc) with
    | Ok recovered =>
        if negb (Address.eqb recovered (pi_nodeId peer)) then Ok (false, "Proof does not match nodeId")
        else Ok (true, err)
    | Throw what => Ok (false, what)
    | UB => UB
    | OutOfFuel => OutOfFuel
    end.

(** zk_seeder.cpp 90-98: replace the first record with the id, or append. *)
Fixpoint upsert (p : PeerInfo) (peers : list PeerInfo) : list PeerInfo :=
  match peers with
  | [] => [p]
  | x :: peers' => if Address.eqb (pi_nodeId x) (pi_nodeId p) then p :: peers' else x :: upsert p peers'
  end.

(** zk_seeder.cpp 79-101; [now] is the service's clock in seconds. *)
Definition registerPeer (now : Z) (svc : ZkSeederService) (peer : PeerInfo) (proof : Bytes) (err : string) :
  ZkSeederService * res (bool * string) :=
  let p := set_lastSeen peer now in
  match verifyProof svc p proof err with
  | Ok (true, err) => (mkSeeder (seeder_chainId svc) (upsert p (peers_ svc)), Ok (true, err))
  | r => (svc, r)
  end.

(** zk_seeder.cpp 103-112. *)
Definition getPeers (svc : ZkSeederService) (limit : Z) : list PeerInfo :=
  let out := peers_ svc in
  if zlen out >? limit then take (Z.to_nat limit) out else out.

(** zk_seeder.cpp 114-124; [None] for a return of false. *)
Definition getRecordFor (svc : ZkSeederService) (nodeId : Address) : option PeerInfo :=
  snd <$> list_find (fun x => Address.eqb (pi_nodeId x) nodeId = true) (peers_ svc).

(** zk_seeder_client.cpp 8-58; [now] is the client's clock in seconds. The
    peer record is an in/out argument. *)
Definition buildSeederProof (now : Z) (key : KeyPair) (peer : PeerInfo) (chainId : Z) : PeerInfo * res Bytes :=
  match address key with
  | Ok addrFromKey =>
      if negb (Address.eqb (pi_nodeId peer) Address.zero) && negb (Address.eqb (pi_nodeId peer) addrFromKey) then
        (peer, Throw "buildSeederProof: peer.nodeId does not match key")
      else
        let peer := set_lastSeen (set_nodeId peer addrFromKey) now in
        let msgHash := keccak256_32 (seeder_message peer) in
        (peer,
         sig ← sign key msgHash chainId;
         if negb (zlen (sig_r sig) =? 32) || negb (zlen (sig_s sig) =? 32) then
           Throw "buildSeederProof: signer produced invalid r/s size"
         else Ok (sig_r sig ++ sig_s sig ++ [sig_v sig]))
  | Throw w => (peer, Throw w)
  | UB => (peer, UB)
  | OutOfFuel => (peer, OutOfFuel)
  end.

End WithSecp.

(** ** The registry *)

(** At most one record for a node. *)
Definition unique_ids (peers : list PeerInfo) : Prop := NoDup (pi_nodeId <$> peers).

Lemma upsert_ids p peers a : a ∈ pi_nodeId <$> upsert p peers <-> a = pi_nodeId p \/ a ∈ pi_nodeId <$> peers.
Proof.
  induction peers as [|x peers IH]; cbn [upsert fmap list_fmap].
  - rewrite elem_of_cons. done.
  - destruct (Address.eqb _ _) eqn:E; cbn [fmap list_fmap]; rewrite !elem_of_cons.
    + apply eqb_eq in E. rewrite E. tauto.
    + rewrite IH. tauto.
Qed.

Lemma upsert_unique p peers : unique_ids peers -> unique_ids (upsert p peers).
Proof.
  unfold unique_ids. induction peers as [|x peers IH]; cbn [upsert fmap list_fmap]; intros N.
  - apply NoDup_singleton.
  - apply NoDup_cons in N as [Nin N]. destruct (Address.eqb _ _) eqn:E; cbn [fmap list_fmap].
    + apply eqb_eq in E. rewrite <- E. by apply NoDup_cons.
    + apply NoDup_cons. split; [|by apply IH]. rewrite upsert_ids. intros [Eq|H]; [|done].
      rewrite Eq in E. by rewrite (proj2 (eqb_eq _ _) eq_refl) in E.
Qed.

Lemma eqb_refl a : Address.eqb a a = true.
Proof. by apply eqb_eq. Qed.

Lemma record_upsert c p peers a :
  getRecordFor (mkSeeder c (upsert p peers)) a
  = if decide (a = pi_nodeId p) then Some p else getRecordFor (mkSeeder c peers) a.
Proof.
  unfold getRecordFor. cbn [peers_]. induction peers as [|x peers IH]; cbn [upsert list_find].
  - destruct (decide (a = pi_nodeId p)) as [->|N].
    + by rewrite decide_True by apply eqb_refl.
    + rewrite decide_False; [done|]. intros E%eqb_eq. congruence.
  - destruct (Address.eqb (pi_nodeId x) (pi_nodeId p)) eqn:E; cbn [list_find].
    + apply eqb_eq in E. destruct (decide (a = pi_nodeId p)) as [->|N].
      * by rewrite decide_True by apply eqb_refl.
      * rewrite !decide_False by (intros E'%eqb_eq; congruence). done.
    + destruct (decide (Address.eqb (pi_nodeId x) a = true)) as [Ea|Ea].
      * apply eqb_eq in Ea. rewrite decide_False; [done|]. intros ->.
        rewrite Ea, eqb_refl in E. done.
      * destruct (list_find _ (upsert p peers)) as [[i y]|], (list_find _ peers) as [[j z]|]; cbn in *;
          destruct (decide (a = pi_nodeId p)); cbn in *; congruence.
Qed.

(** ** The signed message *)

Lemma time_bytes_val t : is_u64 t -> be_val (time_bytes t) = t.
Proof.
  intros [T0 T]. pose (f k := t / 2 ^ (8 * k)).
  assert (D : forall k, 0 <= k -> u8 (Z.land (Z.shiftr t (8 * k)) 0xFF) = f k mod 256).
  { intros k Hk. rewrite land_255, Z.shiftr_div_pow2 by lia. apply u8_id.
    unfold is_u8. pose proof (Z.mod_pos_bound (t / 2 ^ (8 * k)) 256). unfold f. lia. }
  assert (S : forall k k', 0 <= k -> k' = k + 1 -> f k = f k' * 256 + f k mod 256).
  { intros k k' Hk ->. unfold f. replace (8 * (k + 1)) with (8 * k + 8) by lia. rewrite Z.pow_add_r by lia.
    rewrite <- Z.div_div by lia. change (2 ^ 8) with 256.
    pose proof (Z.div_mod (t / 2 ^ (8 * k)) 256 ltac:(lia)). lia. }
  assert (F0 : f 0 = t) by (unfold f; by rewrite Z.div_1_r).
  assert (F8 : f 8 = 0) by (apply Z.div_small; lia).
  unfold time_bytes. cbn [fmap list_fmap]. rewrite !D by lia. unfold be_val. cbn [foldl].
  pose proof (S 0 1 ltac:(lia) eq_refl) as S0. pose proof (S 1 2 ltac:(lia) eq_refl) as S1. pose proof (S 2 3 ltac:(lia) eq_refl) as S2.
  pose proof (S 3 4 ltac:(lia) eq_refl) as S3. pose proof (S 4 5 ltac:(lia) eq_refl) as S4. pose proof (S 5 6 ltac:(lia) eq_refl) as S5.
  pose proof (S 6 7 ltac:(lia) eq_refl) as S6. pose proof (S 7 8 ltac:(lia) eq_refl) as S7.
  clearbody f. lia.
Qed.

Definition peer_ok (p : PeerInfo) : Prop :=
  addr_ok (pi_nodeId p) /\ bytes_ok (pi_ip p) /\ 0 <= pi_port p < 2 ^ 16 /\ is_u64 (pi_lastSeen p).

Lemma port_bytes_inj a b :
  0 <= a < 2 ^ 16 -> 0 <= b < 2 ^ 16 ->
  [u8 (Z.shiftr a 8); u8 (Z.land a 0xFF)] = [u8 (Z.shiftr b 8); u8 (Z.land b 0xFF)] -> a = b.
Proof.
  intros A B E. rewrite !shiftr_8, !land_255 in E.
  assert (D : forall x, 0 <= x < 2 ^ 16 -> u8 (x / 256) = x / 256 /\ u8 (x mod 256) = x mod 256).
  { intros x X. pose proof (Z.mod_pos_bound x 256 ltac:(lia)). split; apply u8_id; unfold is_u8; [|lia].
    split; [apply Z.div_pos; lia|apply Z.div_lt_upper_bound; lia]. }
  destruct (D a A) as [A1 A2], (D b B) as [B1 B2]. rewrite A1, A2, B1, B2 in E. injection E as E1 E2.
  rewrite (Z.div_mod a 256), (Z.div_mod b 256) by lia. lia.
Qed.

Lemma seeder_message_inj p q :
  peer_ok p -> peer_ok q -> seeder_message p = seeder_message q ->
  pi_nodeId p = pi_nodeId q /\ pi_ip p = pi_ip q /\ pi_port p = pi_port q /\ pi_lastSeen p = pi_lastSeen q.
Proof.
  intros ((La & _) & _ & Pp & Tp) ((Lb & _) & _ & Pq & Tq) E. unfold seeder_message in E.
  apply app_inj_1 in E as [Ea E]; [|by rewrite La, Lb].
  rewrite !app_assoc in E. apply app_inj_2 in E as [E Et]; [|done].
  apply app_inj_2 in E as [Ei Ep]; [|done].
  split; [destruct (pi_nodeId p), (pi_nodeId q); cbn in Ea; by subst|]. split; [done|].
  split; [by apply port_bytes_inj|]. rewrite <- (time_bytes_val _ Tp), <- (time_bytes_val _ Tq). by rewrite Et.
Qed.

(** ** Verification *)

Lemma verifyProof_exact {SC : Secp256k1} svc peer proof err :
  exists ok e, verifyProof svc peer proof err = Ok (ok, e) /\
    (ok = true <->
     zlen proof = 65 /\
     recoverAddress (keccak256_32 (seeder_message peer))
       (mkSignature (take 32 proof) (take 32 (drop 32 proof)) (nth 64 proof 0)) (seeder_chainId svc)
     = Ok (pi_nodeId peer)).
Proof.
  unfold verifyProof. destruct (Z.eqb_spec (zlen proof) 65) as [L|L]; cbn [negb];
    [|eexists _, _; split; [done|]; split; [done|tauto]].
  destruct (recoverAddress_returns (keccak256_32 (seeder_message peer))
       (mkSignature (take 32 proof) (take 32 (drop 32 proof)) (nth 64 proof 0)) (seeder_chainId svc))
    as [[a E]|[w E]]; rewrite E.
  - destruct (Address.eqb a (pi_nodeId peer)) eqn:Ea; cbn [negb]; eexists _, _; (split; [done|]).
    + apply eqb_eq in Ea as ->. done.
    + split; [done|]. intros [_ Eq]. injection Eq as ->. by rewrite eqb_refl in Ea.
  - eexists _, _. split; [done|]. split; [done|]. by intros [_ ?].
Qed.

(** What the client signs and sends. *)
Lemma buildSeederProof_shape {SC : Secp256k1} {SL : Secp256k1Laws SC} now key peer c peer' proof :
  buildSeederProof now key peer c = (peer', Ok proof) ->
  exists a sig, address key = Ok a /\ peer' = set_lastSeen (set_nodeId peer a) now /\
    sign key (keccak256_32 (seeder_message peer')) c = Ok sig /\
    proof = sig_r sig ++ sig_s sig ++ [sig_v sig].
Proof.
  unfold buildSeederProof. destruct (address key) as [a| | |] eqn:Ea; [|by intros [=]..].
  destruct (_ && _); [by intros [=]|]. intros [= <- H].
  apply bind_Ok in H as (sig & Es & H). destruct (_ || _); [done|]. injection H as <-. by exists a, sig.
Qed.

Lemma proof_parts r s v :
  length r = 32%nat -> length s = 32%nat ->
  take 32 (r ++ s ++ [v]) = r /\ take 32 (drop 32 (r ++ s ++ [v])) = s /\ nth 64 (r ++ s ++ [v]) 0 = v.
Proof.
  intros Lr Ls. rewrite <- Lr at 1 3. rewrite take_seam, drop_seam. rewrite <- Ls at 1. rewrite take_seam.
  split; [done|]. split; [done|]. rewrite !app_nth2 by lia. rewrite Lr, Ls. done.
Qed.

(** ** Properties *)

(** The seeder's registry. A registration request always gets an answer.
    It is accepted exactly when its proof is a 65-byte signature, over the
    record stamped with the service's own time, that recovers the node id it
    claims; then the node's record is that one, every other node's record
    is as before, and no node has two records. A refused request changes
    nothing. *)
Theorem registerPeer_spec {SC : Secp256k1} (now : Z) (svc : ZkSeederService) (peer : PeerInfo)
    (proof : Bytes) (err : string) :
  unique_ids (peers_ svc) ->
  exists svc' ok e, registerPeer now svc peer proof err = (svc', Ok (ok, e)) /\
    (ok = true <->
     zlen proof = 65 /\
     recoverAddress (keccak256_32 (seeder_message (set_lastSeen peer now)))
       (mkSignature (take 32 proof) (take 32 (drop 32 proof)) (nth 64 proof 0)) (seeder_chainId svc)
     = Ok (pi_nodeId peer)) /\
    unique_ids (peers_ svc') /\ (ok = false -> svc' = svc) /\
    (ok = true -> forall a, getRecordFor svc' a =
       if decide (a = pi_nodeId peer) then Some (set_lastSeen peer now) else getRecordFor svc a).
Proof.
  intros U. destruct (verifyProof_exact svc (set_lastSeen peer now) proof err) as (ok & e & E & X).
  unfold registerPeer. rewrite E. destruct ok.
  - eexists _, true, e. split; [done|]. split; [exact X|]. split; [by apply upsert_unique|].
    split; [done|]. intros _ a. rewrite record_upsert. by destruct svc.
  - eexists _, false, e. split; [done|]. split; [exact X|]. done.
Qed.

(** Client and service agree, within a second. A proof that the client
    builds for its own key is accepted, and the node's record is then the
    one the client prepared, when the service reads the same second from its
    clock; in any other second the service checks the signature against a
    different message. *)
Theorem seeder_accepts_own_proof {SC : Secp256k1} {SL : Secp256k1Laws SC}
    (sk : Bytes) (key : KeyPair) (now now' : Z) (svc : ZkSeederService) (peer peer' : PeerInfo) (proof : Bytes) :
  fromPrivateKey sk = Ok key -> is_u64 now -> is_u64 now' -> bytes_ok (pi_ip peer) -> 0 <= pi_port peer < 2 ^ 16 ->
  buildSeederProof now key peer (seeder_chainId svc) = (peer', Ok proof) -> nth 64 proof 0 <= 1 ->
  (exists svc', registerPeer now svc peer' proof "" = (svc', Ok (true, "")) /\
     getRecordFor svc' (pi_nodeId peer') = Some peer') /\
  (now' <> now -> seeder_message (set_lastSeen peer' now') <> seeder_message peer').
Proof.
  intros K T T' Bi Bp E V. apply fromPrivateKey_ok in K as [K _].
  destruct (buildSeederProof_shape _ _ _ _ _ _ E) as (a & sig & Ea & -> & Es & ->).
  destruct (sign_shape _ _ _ _ Es) as (Lr & Ls & _ & _ & Rv).
  destruct (proof_parts (sig_r sig) (sig_s sig) (sig_v sig) Lr Ls) as (P1 & P2 & P3). rewrite P3 in V.
  set (p := set_lastSeen (set_nodeId peer a) now) in *. split.
  - assert (Er : recoverAddress (keccak256_32 (seeder_message p))
                   (mkSignature (sig_r sig) (sig_s sig) (sig_v sig)) (seeder_chainId svc) = Ok a).
    { rewrite <- Ea. destruct sig. by apply (recover_own key _ (seeder_chainId svc)). }
    unfold registerPeer, verifyProof. change (set_lastSeen p now) with p. rewrite P1, P2, P3.
    replace (zlen (sig_r sig ++ sig_s sig ++ [sig_v sig])) with 65
      by (unfold zlen; rewrite !length_app, Lr, Ls; done).
    cbn [Z.eqb Pos.eqb negb]. rewrite Er. change (pi_nodeId p) with a. rewrite eqb_refl. cbn [negb].
    eexists. split; [done|]. rewrite record_upsert. by rewrite decide_True.
  - intros N Em. apply address_ok in Ea.
    apply seeder_message_inj in Em as (_ & _ & _ & Et); [by cbn in Et|by split; [|split; [|split]]..].
Qed.

(** A registration by a key pair of the concrete scheme of Keys.v. *)
Module SampleSeeder.

Definition key : KeyPair := mkKeyPair (replicate 32 7) (replicate 64 7).

Definition service : ZkSeederService := mkSeeder 1 [].

Definition request : PeerInfo := mkPeerInfo Address.zero (str "10.0.0.1") 30303 0 0.

Definition prepared : PeerInfo := Eval vm_compute in (@buildSeederProof TestCurve.curve 1700000000 key request 1).1.

Definition proof : Bytes := Eval vm_compute in
  match (@buildSeederProof TestCurve.curve 1700000000 key request 1).2 with Ok b => b | _ => [] end.

End SampleSeeder.

Lemma registerPeer_spec_witness :
  exists svc' ok e, @registerPeer TestCurve.curve 0 SampleSeeder.service SampleSeeder.prepared [] "" = (svc', Ok (ok, e)).
Proof.
  destruct (@registerPeer_spec TestCurve.curve 0 SampleSeeder.service SampleSeeder.prepared [] "")
    as (svc' & ok & e & E & _); [constructor|by exists svc', ok, e].
Defined.

Lemma seeder_accepts_own_proof_witness :
  exists svc', @registerPeer TestCurve.curve 1700000000 SampleSeeder.service SampleSeeder.prepared SampleSeeder.proof ""
               = (svc', Ok (true, "")).
Proof.
  destruct (@seeder_accepts_own_proof TestCurve.curve _ (replicate 32 7) SampleSeeder.key 1700000000 1700000001
              SampleSeeder.service SampleSeeder.request SampleSeeder.prepared SampleSeeder.proof)
    as [(svc' & E & _) _]; [vm_compute; reflexivity|by split|by split|apply bytes_ok_str|by split| | |exists svc'; exact E].
  - vm_compute. reflexivity.
  - vm_compute. discriminate.
Defined.
