(* ===== verification/DnsSeed.v ===== *)
(** * Seed nodes (src/src/dns_seed.cpp, src/include/gambit/dns_seed.hpp)

    The list of seed domains and their resolution. The resolver of the
    system is a parameter: for a domain, the IPv4 addresses in the order
    [getaddrinfo] lists them, or [None] when it reports an error. *)

From stdpp Require Import base list numbers strings.
From Stdlib Require Import ZArith.
From S2P Require Import Prelude.

(** dns_seed.hpp 7-16. *)
Record DNSSeedManager : Type := mkSeeds { seeds_ : list std_string }.

(** dns_seed.cpp 10-15. *)
Definition new_DNSSeedManager : DNSSeedManager :=
  mkSeeds [str "seed1.gambitswap.com"; str "seed2.gambitswap.com"; str "seed3.gambitswap.com"].

(** dns_seed.cpp 17-19. *)
Definition addSeed (m : DNSSeedManager) (domain : std_string) : DNSSeedManager := mkSeeds (seeds_ m ++ [domain]).

(** dns_seed.cpp 21-49. *)
Definition resolveAll (getaddrinfo : std_string -> option (list std_string)) (m : DNSSeedManager) : list std_string :=
  foldl (fun results seed =>
    match getaddrinfo seed with
    | None => results
    | Some ips => foldl (fun results ip => results ++ [ip]) results ips
    end) [] (seeds_ m).

(** ** Lemmas *)

Lemma push_all (l acc : list std_string) : foldl (fun results ip => results ++ [ip]) acc l = acc ++ l.
Proof.
  revert acc. induction l as [|x l IH]; intros acc; [by rewrite app_nil_r|]. cbn. by rewrite IH, <- app_assoc.
Qed.

(** The addresses of all seeds that resolve, in order. *)
Lemma resolveAll_concat getaddrinfo m :
  resolveAll getaddrinfo m = concat ((fun seed => default [] (getaddrinfo seed)) <$> seeds_ m).
Proof.
  unfold resolveAll. destruct m as [seeds]. cbn.
  assert (H : forall acc, foldl (fun results seed => match getaddrinfo seed with
    | None => results | Some ips => foldl (fun results ip => results ++ [ip]) results ips end) acc seeds
    = acc ++ concat ((fun seed => default [] (getaddrinfo seed)) <$> seeds)); [|apply (H [])].
  induction seeds as [|s seeds IH]; intros acc; [by rewrite app_nil_r|]. cbn [foldl fmap list_fmap concat].
  rewrite IH. destruct (getaddrinfo s) as [ips|]; [|done]. rewrite push_all. by rewrite <- app_assoc.
Qed.

(** Adding a seed adds its addresses behind the others. *)
Lemma resolveAll_addSeed getaddrinfo m domain :
  resolveAll getaddrinfo (addSeed m domain) = resolveAll getaddrinfo m ++ default [] (getaddrinfo domain).
Proof.
  rewrite !resolveAll_concat. unfold addSeed. cbn. rewrite fmap_app, concat_app. cbn. by rewrite app_nil_r.
Qed.
