(* ===== verification/P2PNode.v ===== *)
(** * The network node (src/src/p2p_node.cpp, src/include/gambit/p2p_node.hpp)

    What a node does with the messages of its peers, and what it sends.
    Sockets are those of P2PPeer.v; a connection attempt or an accepted
    connection is given by its outcome. *)

From stdpp Require Import base list gmap numbers strings.
From Stdlib Require Import ZArith Lia.
From S2P Require Import Prelude Keccak Hash Rlp Address Mpt Keys Transaction State Zk Block.
From S2P Require Import Blockchain P2PMessage P2PPeer ZkSeeder DnsSeed.

#[local] Open Scope Z_scope.
#[local] Open Scope act_scope.

Section WithSecp.
Context {SC : Secp256k1}.

(** p2p_node.cpp 179-190. *)
Definition handleNewTx (msg : Message) : act Blockchain unit :=
  let hex := msg_payload msg in
  act_catch
    (tx <- act_lift (Transaction.fromHex hex) ;;
     bc <- act_self ;;
     v <- act_lift (validateTransaction bc tx "") ;;
     if fst v then act_modify (fun bc => addTransaction bc tx) else act_ret ()).

(** p2p_node.cpp 192-200. *)
Definition handleNewBlock (msg : Message) : act Blockchain unit :=
  let hex := msg_payload msg in
  act_catch
    (block <- act_lift (Block.fromHex hex) ;;
     addBlock block ;;
     act_ret ()).

(** p2p_node.cpp 166-177. *)
Definition onMessage (msg : Message) : act Blockchain unit :=
  if msg_type msg =? NEW_TX then handleNewTx msg
  else if msg_type msg =? NEW_BLOCK then handleNewBlock msg
  else act_ret ().

End WithSecp.

(** p2p_node.hpp 15-51: the members besides the threads. The chain is shared
    with the rest of the program and passed separately. *)
Record P2PNode {SK : Socket} : Type := mkNode {
  listenPort_ : Z;
  node_running_ : bool;
  keyPair_ : KeyPair;
  node_peers_ : list (Peer SK);
}.
Arguments P2PNode : clear implicits.
Arguments mkNode {SK}.

Section WithSocket.
Context {SK : Socket} {SC : Secp256k1}.

(** p2p_node.cpp 29-30; the key pair is the one [KeyPair::random] returned. *)
Definition new_P2PNode (listenPort : Z) (keyPair : KeyPair) : P2PNode SK := mkNode listenPort false keyPair [].

(** A peer joins: p2p_node.cpp 104-112 and 129-137. *)
Definition join (node : P2PNode SK) (fd : sock) (addr : std_string) : P2PNode SK :=
  mkNode (listenPort_ node) (node_running_ node) (keyPair_ node)
    (node_peers_ node ++ [mkPeer fd addr true]).

(** p2p_node.cpp 116-138; [conn] is the connected socket, [None] when
    [connect] fails. *)
Definition connectTo (node : P2PNode SK) (host : std_string) (conn : option sock) : P2PNode SK :=
  match conn with
  | None => node
  | Some fd => join node fd host
  end.

(** p2p_node.cpp 95-114, one iteration; [conn] is what [accept] returns. *)
Definition accept_one (node : P2PNode SK) (conn : option (sock * std_string)) : P2PNode SK :=
  match conn with
  | None => node
  | Some (fd, addr) => join node fd addr
  end.

(** p2p_node.cpp 32-64: the seeds are resolved and dialled in order, then the
    node listens. [dial] is the outcome of each [connect]. *)
Definition start (node : P2PNode SK) (getaddrinfo : std_string -> option (list std_string))
    (dial : std_string -> option sock) : P2PNode SK :=
  let dns := new_DNSSeedManager in
  let seedIPs := resolveAll getaddrinfo dns in
  let node := foldl (fun node ip => connectTo node ip (dial ip)) node seedIPs in
  mkNode (listenPort_ node) true (keyPair_ node) (node_peers_ node).

(** p2p_node.cpp 68-70. *)
Definition myNodeId (node : P2PNode SK) : res Address := address (keyPair_ node).

(** p2p_node.cpp 72-74. *)
Definition node_buildSeederProof (now : Z) (node : P2PNode SK) (bc : Blockchain) (peer : PeerInfo) :
  PeerInfo * res Bytes :=
  ZkSeeder.buildSeederProof now (keyPair_ node) peer (chainId_ bc).

(** Sending to every peer, p2p_node.cpp 147-150 and 160-163. *)
Definition send_all (node : P2PNode SK) (msg : Message) : P2PNode SK :=
  mkNode (listenPort_ node) (node_running_ node) (keyPair_ node) ((fun p => P2PPeer.send p msg) <$> node_peers_ node).

(** p2p_node.cpp 140-151. *)
Definition broadcastNewTx (node : P2PNode SK) (tx : Transaction) : P2PNode SK :=
  send_all node (mkMessage NEW_TX (Transaction.toHex tx)).

(** p2p_node.cpp 153-164. *)
Definition broadcastNewBlock (node : P2PNode SK) (block : Block) : res (P2PNode SK) :=
  hex ← Block.toHex block;
  Ok (send_all node (mkMessage NEW_BLOCK hex)).

End WithSocket.

(** ** Lemmas *)

Section Lemmas.
Context {SC : Secp256k1}.

Lemma act_catch_unit {S} (m : act S unit) s : (act_catch m s).1 = (m s).1.
Proof. unfold act_catch. by destruct (m s) as [s' []]. Qed.

(** A handler does nothing to the chain, or makes one call on it. *)
Lemma handleNewTx_step msg bc : (handleNewTx msg bc).1 = bc \/ node_step bc (handleNewTx msg bc).1.
Proof.
  unfold handleNewTx. cbn zeta. rewrite act_catch_unit. unfold act_bind, act_lift, act_self.
  destruct (Transaction.fromHex _) as [tx| | |] eqn:E; try by left.
  apply fromHex_ok in E. destruct (validateTransaction bc tx "") as [[[] e]| | |] eqn:V; try by left.
  right. by apply (node_queue bc tx e).
Qed.

Lemma handleNewBlock_step msg bc : (handleNewBlock msg bc).1 = bc \/ node_step bc (handleNewBlock msg bc).1.
Proof.
  unfold handleNewBlock. cbn zeta. rewrite act_catch_unit. unfold act_bind at 1. unfold act_lift.
  destruct (Block.fromHex _) as [b| | |]; try by left. right.
  pose proof (node_add bc b) as St. unfold act_bind, act_ret.
  by destruct (addBlock b bc) as [bc' []].
Qed.

Lemma onMessage_step msg bc : (onMessage msg bc).1 = bc \/ node_step bc (onMessage msg bc).1.
Proof.
  unfold onMessage. destruct (_ =? NEW_TX); [apply handleNewTx_step|].
  destruct (_ =? NEW_BLOCK); [apply handleNewBlock_step|by left].
Qed.

End Lemmas.

Section NodeLemmas.
Context {SK : Socket}.

(** A connected peer for every address that answers. *)
Definition dialled (dial : std_string -> option sock) (ips : list std_string) : list (Peer SK) :=
  concat ((fun ip => match dial ip with Some fd => [mkPeer fd ip true] | None => [] end) <$> ips).

Lemma connect_all dial ips : forall node : P2PNode SK,
  foldl (fun node ip => connectTo node ip (dial ip)) node ips
  = mkNode (listenPort_ node) (node_running_ node) (keyPair_ node) (node_peers_ node ++ dialled dial ips).
Proof.
  induction ips as [|ip ips IH]; intros node; [cbn; rewrite app_nil_r; by destruct node|].
  cbn [foldl]. rewrite IH. unfold dialled, connectTo, join. cbn [fmap list_fmap concat].
  destruct (dial ip); cbn; [by rewrite <- app_assoc|done].
Qed.

(** Starting a node connects it to the seeds that resolve and answer, in
    the order of the seed list, and leaves its key and port alone. *)
Lemma start_peers (node : P2PNode SK) getaddrinfo dial :
  start node getaddrinfo dial
  = mkNode (listenPort_ node) true (keyPair_ node)
      (node_peers_ node ++ dialled dial
        (concat ((fun seed => default [] (getaddrinfo seed)) <$> seeds_ new_DNSSeedManager))).
Proof. unfold start. by rewrite connect_all, resolveAll_concat. Qed.

End NodeLemmas.

(** ** Properties *)

(** No message breaks the chain. Whatever a peer sends, of whatever type
    and with whatever payload, the chain a node holds after handling it is
    one that calls of the chain's own operations reach from genesis, so the
    chain invariant still holds. *)
Theorem onMessage_keeps_invariant {SC : Secp256k1} (g : GenesisConfig) (bc : Blockchain) (msg : Message) :
  genesis_ok g -> reachable g bc ->
  reachable g (onMessage msg bc).1 /\ linked (chain_ (onMessage msg bc).1) /\
  (supply (State_of_genesis g) < 2 ^ 64 ->
   supply (state_ (onMessage msg bc).1) = supply (State_of_genesis g)).
Proof.
  intros G R. assert (R' : reachable g (onMessage msg bc).1).
  { destruct (onMessage_step msg bc) as [->|St]; [done|]. eapply reach_step; [exact R|]. by apply node_step_step. }
  split; [done|]. by destruct (reachable_ok g _ G R').
Qed.

Lemma onMessage_keeps_invariant_witness :
  linked (chain_ (@onMessage TestCurve.curve (mkMessage NEW_TX [1; 2]) SampleChain.start).1).
Proof.
  apply (@onMessage_keeps_invariant TestCurve.curve SampleChain.genesis);
    [apply SampleChain.genesis_valid|apply SampleChain.start_reachable].
Defined.

(** C39: what a NEW_TX message with a long RLP string does, for every length
    it announces. The payload is the hexadecimal of a string header with an
    eight-byte length and of any bytes, fewer than 2^62, after it. If the length is 2^64 - 9 or
    more, the decoder's check [offset + len > in.size()] wraps around and
    passes, and a vector is built from an iterator range that ends before it
    begins: undefined behaviour, which the handler's [catch] does not stop,
    on any node and whatever its chain holds. For every smaller length the
    message is ignored and the chain is as it was. *)
Theorem hostile_message_undefined {SC : Secp256k1} (bc : Blockchain) (len8 rest : Bytes) :
  length len8 = 8%nat -> bytes_ok len8 -> bytes_ok rest -> zlen rest < 2 ^ 62 ->
  onMessage (mkMessage NEW_TX (str "0x" ++ Hash.toHex (0xBF :: len8 ++ rest))) bc =
  (bc, if 2 ^ 64 - 9 <=? be_val len8 then UB else Ok ()).
Proof.
  intros L B Br Hr. change (onMessage ?m bc) with (handleNewTx m bc). unfold handleNewTx, act_catch, act_bind, act_lift.
  cbn [msg_payload]. unfold Transaction.fromHex. rewrite strip0x_prefixed, fromHex_toHex.
  - cbn [mbind res_bind]. rewrite decode_long_string by done.
    destruct (_ <=? _); [done|]. by destruct (_ <? _).
  - apply bytes_ok_cons. split; [by split|]. by apply bytes_ok_app.
Qed.

Lemma hostile_message_undefined_witness :
  @onMessage TestCurve.curve (mkMessage NEW_TX (str "0xbfffffffffffffffff")) SampleChain.start = (SampleChain.start, UB) /\
  @onMessage TestCurve.curve (mkMessage NEW_TX (str "0xbf0000000000000001aa")) SampleChain.start = (SampleChain.start, Ok ()).
Proof.
  split.
  - apply (@hostile_message_undefined TestCurve.curve SampleChain.start (replicate 8 0xFF) []);
      [done|by apply (bool_decide_unpack _)|constructor|done].
  - apply (@hostile_message_undefined TestCurve.curve SampleChain.start [0; 0; 0; 0; 0; 0; 0; 1] [0xAA]);
      [done|by apply (bool_decide_unpack _)|by apply (bool_decide_unpack _)|done].
Defined.

(** C38: transactions spread. A holder of a key signs a transaction, with chain
    id up to 109 and recovery id 0 or 1, and a node broadcasts it: each of its
    peers is sent one message. A node whose connection brings this message
    and then closes, and on whose chain the nonce is the next one and the
    cost is covered, ends up with its chain as it was but for one transaction
    at the end of the pool: nonce, gas price, gas limit, receiver, value,
    data and chain id as they were signed, the signer as sender (its hash is
    the receiving node's own, see the round trip of transactions). *)
Theorem gossiped_tx_accepted {SC : Secp256k1} {SL : Secp256k1Laws SC} {SK SK' : Socket} {SS : SocketLaws SK'}
    (g : GenesisConfig) (sk : Bytes) (key : KeyPair) (tx stx : Transaction) (from : Address)
    (node : P2PNode SK) (p : Peer SK') (bc : Blockchain) (fuel : nat) :
  fromPrivateKey sk = Ok key -> address key = Ok from -> tx_ok tx -> tx_chainId tx <= 109 -> signWith tx key = Ok stx ->
  sig_v (tx_sig stx) <= 1 -> zlen (Transaction.toHex stx) < 2 ^ 32 ->
  genesis_ok g -> reachable g bc -> chainId_ bc = tx_chainId tx ->
  tx_nonce tx = acc_nonce (view (state_ bc) from) -> max_cost tx <= acc_balance (view (state_ bc) from) ->
  let msg := mkMessage NEW_TX (Transaction.toHex stx) in
  node_peers_ (broadcastNewTx node stx) =
    (fun q => mkPeer (send_bytes (socketFd_ q) (encode msg)) (remoteAddr_ q) (running_ q)) <$> node_peers_ node /\
  exists rtx,
    (pending (socketFd_ p) = encode msg -> (1 < fuel)%nat ->
     run (fun bc m => (onMessage m bc).1) fuel p bc = Ok (false, addTransaction bc rtx)) /\
    as_received tx stx from rtx.
Proof.
  intros K Ea O Hc E Hv Hs G R Ci En Eb. apply fromPrivateKey_ok in K as [K _].
  destruct (signWith_ok _ _ _ O E) as [O' _].
  assert (W : wire_sized stx).
  { unfold wire_sized. unfold Transaction.toHex in Hs. rewrite zlen_app in Hs.
    pose proof (toHex_long (rlpEncodeSigned stx)). change (zlen (str "0x")) with 2 in Hs. lia. }
  destruct (signed_as_received key tx stx from K O Hc E Hv W Ea) as (rtx & Er & Ev & A).
  destruct (reachable_ok g bc G R) as [_ _ S _ _ _].
  assert (V : validateTransaction bc rtx "" = Ok (true, ""%string)).
  { destruct A. apply validate_accepts; [done|by eapply fromHex_ok|]. unfold max_cost in *. split_and!; congruence. }
  set (msg := mkMessage NEW_TX (Transaction.toHex stx)). split; [done|]. exists rtx. split; [|done].
  intros P F. assert (H : (onMessage msg bc).1 = addTransaction bc rtx).
  { change (onMessage msg bc) with (handleNewTx msg bc). unfold handleNewTx, act_catch, act_bind, act_lift, act_self.
    cbn [msg msg_payload]. rewrite Er. cbn beta iota. by rewrite V. }
  rewrite <- H. pose proof (recvLoop_messages (fun bc m => (onMessage m bc).1) [msg] [] (socketFd_ p) bc (fuel - 1)) as L.
  destruct L as (s' & P' & L); [|by rewrite P; cbn [fmap list_fmap concat]; rewrite !app_nil_r|].
  { constructor; [|constructor]. split; [|done]. split; [by split|]. split; [|done].
    apply bytes_ok_app. split; [by apply (bool_decide_unpack _)|]. apply toHex_bytes, rlpEncodeSigned_bytes; done. }
  unfold run. replace fuel with (length [msg] + (fuel - 1))%nat by (cbn; lia). rewrite L.
  destruct (fuel - 1)%nat as [|f] eqn:Ef; [lia|]. cbn [recvLoop]. by destruct (recv_one_end s' P') as (s'' & ->).
Qed.

Lemma gossiped_tx_accepted_witness :
  exists rtx, @run TestSocket.stream _ (fun bc m => (@onMessage TestCurve.curve m bc).1) 2
      (@mkPeer TestSocket.stream (encode (mkMessage NEW_TX (Transaction.toHex Sample.signed))) [] true) SampleChain.rich
    = Ok (false, addTransaction SampleChain.rich rtx) /\ as_received Sample.transfer Sample.signed (tx_from Sample.signed) rtx.
Proof.
  destruct (@gossiped_tx_accepted TestCurve.curve _ TestSocket.stream TestSocket.stream _ SampleChain.rich_genesis (replicate 32 7)
              Sample.key Sample.transfer Sample.signed (tx_from Sample.signed) (mkNode 30303 true Sample.key [])
              (@mkPeer TestSocket.stream (encode (mkMessage NEW_TX (Transaction.toHex Sample.signed))) [] true) SampleChain.rich 2)
    as (_ & rtx & D & A);
    [vm_compute; reflexivity|vm_compute; reflexivity|tx_ok_tac|done|vm_compute; reflexivity|done|vm_compute; reflexivity
    |apply SampleChain.rich_valid|apply SampleChain.rich_reachable|reflexivity|vm_compute; reflexivity|vm_compute; discriminate|].
  exists rtx. split; [apply D; [reflexivity|lia]|exact A].
Defined.

(** Blocks do not spread. A node that receives a well-formed block whose
    proof verifies, in the form in which nodes broadcast blocks, leaves its
    chain as it was, unless Keccak-256 collides: a block with transactions
    cannot be decoded, and a block without loses the texts its proof is
    checked against. *)
Theorem gossiped_block_ignored {SC : Secp256k1} (g : GenesisConfig) (bc : Blockchain) (b : Block) (h : std_string) :
  genesis_ok g -> reachable g bc ->
  block_ok b -> Block.toHex b = Ok h -> zlen h < 2 ^ 64 ->
  proof_plain (blk_proof b) -> verify (blk_proof b) = true -> zk_stateBefore (blk_proof b) <> [] ->
  onMessage (mkMessage NEW_BLOCK h) bc = (bc, Ok ()) \/
  collision (committed (blk_proof (received_block b))) (committed (blk_proof b)).
Proof.
  intros G R O H S P V N. destruct (reachable_ok g bc G R) as [Nc _ _ _ _ _].
  destruct (verify (blk_proof (received_block b))) eqn:Vr; [right; by apply received_proof_fails|left].
  change (onMessage ?m bc) with (handleNewBlock m bc). unfold handleNewBlock, act_catch, act_bind, act_lift.
  cbn [msg_payload]. rewrite (block_reader b h O H S). destruct (decide _); [|done].
  destruct (back_hash_last _ Nc) as (l & El & _). rewrite (addBlock_unfold _ bc l El).
  rewrite decide_False; [done|]. intros (_ & _ & Vt). congruence.
Qed.

Lemma gossiped_block_ignored_witness :
  @onMessage TestCurve.curve (mkMessage NEW_BLOCK SampleBlock.empty_hex) SampleChain.start = (SampleChain.start, Ok ()) \/
  collision (committed (blk_proof (received_block SampleBlock.empty))) (committed (blk_proof SampleBlock.empty)).
Proof.
  apply (@gossiped_block_ignored TestCurve.curve SampleChain.genesis SampleChain.start SampleBlock.empty);
    [apply SampleChain.genesis_valid|apply SampleChain.start_reachable|apply SampleBlock.empty_ok|..].
  - vm_compute. reflexivity.
  - vm_compute. reflexivity.
  - split; apply (bool_decide_unpack _); vm_compute; reflexivity.
  - vm_compute. reflexivity.
  - discriminate.
Defined.
