(* ===== verification/P2PThreads.v ===== *)
(** * The threads of the network node (src/src/p2p_node.cpp, p2p_peer.cpp)

    [P2PNode] runs an accept thread and one receiver thread per peer; other
    threads (the miner, the main thread) broadcast. This file follows them
    statement by statement through accepting, receiving, broadcasting and
    [stop()]: their flags, the descriptors, the joins and [peersMutex_]. What
    the messages do is in P2PNode.v and P2PPeer.v; here a message is only
    received and handled. Outside events decide when a connection arrives,
    when bytes arrive, when the remote end closes, and whether it reads what
    it is sent: a blocking [::send] waits while it does not. Handlers take the
    chain's mutex only for a bounded time (ChainThreads.v) and are one step
    here. Not followed: an allocation of a payload that fails (p2p_peer.cpp
    70), which ends the process, and a descriptor number that the system
    gives out again after [close]. *)

From stdpp Require Import base list numbers.
From Stdlib Require Import Lia.
From S2P Require Import Prelude.

(** ** Peers *)

(** A socket descriptor, [shutdown] and [close]. *)
Inductive fd_state : Type := Open | ShutDown | Closed.

(** The connection as the remote end left it: up, closed by it, or reset
    after we wrote to a closed end. *)
Inductive conn_state : Type := Up | Fin | Reset.

#[export] Instance conn_state_eq_dec : EqDecision conn_state.
Proof. solve_decision. Defined.

(** Where a receiver thread is in p2p_peer.cpp 54-86: not created, at the
    loop's test, in the [recv] of a header, in that of a payload, in the
    handler, at the assignment after the loop, ended. *)
Inductive recv_pc : Type := RIdle | RTest | RHeader | RPayload | RHandle | RExit | RDone.

#[export] Instance recv_pc_eq_dec : EqDecision recv_pc.
Proof. solve_decision. Defined.

(** p2p_peer.hpp 27-32; [p_empty]: the receive loop ended on a message without
    payload; [p_full]: the remote end does not read, and the buffers in
    between do not take the next message. *)
Record peer : Type := mkPeerT {
  p_running : bool;
  p_fd : fd_state;
  p_conn : conn_state;
  p_recv : recv_pc;
  p_joinable : bool;
  p_empty : bool;
  p_full : bool;
}.

(** p2p_peer.cpp 20-21, on a fresh connection. *)
Definition fresh_peer : peer := mkPeerT false Open Up RIdle false false false.

Definition set_running (b : bool) (p : peer) : peer :=
  mkPeerT b (p_fd p) (p_conn p) (p_recv p) (p_joinable p) (p_empty p) (p_full p).

Definition set_fd (fd : fd_state) (p : peer) : peer :=
  mkPeerT (p_running p) fd (p_conn p) (p_recv p) (p_joinable p) (p_empty p) (p_full p).

Definition set_conn (c : conn_state) (p : peer) : peer :=
  mkPeerT (p_running p) (p_fd p) c (p_recv p) (p_joinable p) (p_empty p) (p_full p).

Definition set_recv (r : recv_pc) (p : peer) : peer :=
  mkPeerT (p_running p) (p_fd p) (p_conn p) r (p_joinable p) (p_empty p) (p_full p).

Definition set_full (b : bool) (p : peer) : peer :=
  mkPeerT (p_running p) (p_fd p) (p_conn p) (p_recv p) (p_joinable p) (p_empty p) b.

(** p2p_peer.cpp 30: the thread starts at the loop's test. *)
Definition spawn (p : peer) : peer :=
  mkPeerT (p_running p) (p_fd p) (p_conn p) RTest true (p_empty p) (p_full p).

Definition joined (p : peer) : peer :=
  mkPeerT (p_running p) (p_fd p) (p_conn p) (p_recv p) false (p_empty p) (p_full p).

(** p2p_peer.cpp 70-76: of a message whose length is 0, [recv] receives 0
    bytes and the loop ends, on a connection that may be up. *)
Definition got_empty (p : peer) : peer :=
  mkPeerT (p_running p) (p_fd p) (p_conn p) RExit (p_joinable p) true (p_full p).

(** What a call of [recv] comes back with: the bytes it asked for; nothing or
    an error; the 0 bytes it asked for. *)
Inductive received : Type := Data | Nothing | Empty.

(** Bytes may be there while the descriptor is open, nothing once the remote
    end or we have ended the connection. While it is up and no byte has come,
    the call waits. *)
Definition may_receive (p : peer) (r : received) : bool :=
  match r, p_fd p, p_conn p with
  | Nothing, Open, Up => false
  | Nothing, _, _ => true
  | _, Closed, _ => false
  | _, _, _ => true
  end.

(** p2p_peer.cpp 54-86, one statement of the receiver thread. *)
Definition recv_step (r : received) (p : peer) : option peer :=
  match p_recv p with
  | RIdle | RDone => None
  | RTest => Some (set_recv (if p_running p then RHeader else RExit) p)
  | RHeader =>
      if may_receive p r then
        match r with
        | Data => Some (set_recv RPayload p)
        | Nothing => Some (set_recv RExit p)
        | Empty => None
        end
      else None
  | RPayload =>
      if may_receive p r then
        match r with
        | Data => Some (set_recv RHandle p)
        | Nothing => Some (set_recv RExit p)
        | Empty => Some (got_empty p)
        end
      else None
  | RHandle => Some (set_recv RTest p)
  | RExit => Some (set_recv RDone (set_running false p))
  end.

(** Where a thread is in [Peer::stop], p2p_peer.cpp 33-42. *)
Inductive stop_pc : Type := PTest | PFlag | PShut | PClose | PJoin.

(** p2p_peer.cpp 33-42, one statement; the next one, or [None] at the end. A
    join waits for the thread to end. *)
Definition stop_step (pc : stop_pc) (p : peer) : option (peer * option stop_pc) :=
  match pc with
  | PTest => Some (p, Some (if p_running p then PFlag else PJoin))
  | PFlag => Some (set_running false p, Some PShut)
  | PShut => Some (set_fd ShutDown p, Some PClose)
  | PClose => Some (set_fd Closed p, Some PJoin)
  | PJoin =>
      if p_joinable p then
        match p_recv p with RDone => Some (joined p, None) | _ => None end
      else Some (p, None)
  end.

(** How [::send] ends, if it does. *)
Inductive sending : Type := Sent (p : peer) | Waits | Killed.

(** [::send] of a broadcast (p2p_peer.cpp 50). On a connection that was reset
    the process gets SIGPIPE, which it neither handles nor blocks; the first
    write after the remote end closed is answered by a reset. The socket is a
    blocking one: while the message does not fit, the call waits. *)
Definition send_step (p : peer) : sending :=
  match p_fd p, p_conn p with
  | Closed, _ => Sent p
  | ShutDown, _ => Killed
  | Open, Reset => Killed
  | Open, Up => if p_full p then Waits else Sent p
  | Open, Fin => if p_full p then Waits else Sent (set_conn Reset p)
  end.

(** ** The node *)

(** Where the accept thread is in p2p_node.cpp 95-114. *)
Inductive accept_pc : Type := ATest | AAccept | ALock | APush | AUnlock | ASetRun (i : nat) | ASpawn (i : nat) | ADone.

(** Where the thread that calls [P2PNode::stop] is, p2p_node.cpp 76-93. *)
Inductive main_pc : Type := MRun | MShut | MClose | MJoin | MLock | MPeer (i : nat) (pc : stop_pc) | MNext (i : nat) | MDone.

(** A broadcasting thread, p2p_node.cpp 147-150: outside, or at peer [i]. *)
Inductive cast_pc : Type := BOut | BSend (i : nat).

Inductive owner : Type := OMain | OAccept | OCast (j : nat).

#[export] Instance owner_eq_dec : EqDecision owner.
Proof. solve_decision. Defined.

(** p2p_node.hpp 33-40. [n_listening] is what [bind] and [listen] achieved,
    whose results the code ignores. *)
Record node : Type := mkNodeT {
  n_running : bool;
  n_listen : fd_state;
  n_listening : bool;
  n_mutex : option owner;
  n_peers : list peer;
  n_main : main_pc;
  n_accept : accept_pc;
  n_casts : list cast_pc;
  n_killed : bool;
}.

Definition at_main (n : node) (pc : main_pc) : node :=
  mkNodeT (n_running n) (n_listen n) (n_listening n) (n_mutex n) (n_peers n) pc (n_accept n) (n_casts n) (n_killed n).

Definition at_accept (n : node) (pc : accept_pc) : node :=
  mkNodeT (n_running n) (n_listen n) (n_listening n) (n_mutex n) (n_peers n) (n_main n) pc (n_casts n) (n_killed n).

Definition at_cast (n : node) (j : nat) (pc : cast_pc) : node :=
  mkNodeT (n_running n) (n_listen n) (n_listening n) (n_mutex n) (n_peers n) (n_main n) (n_accept n) (<[j := pc]> (n_casts n)) (n_killed n).

Definition with_listen (n : node) (fd : fd_state) : node :=
  mkNodeT (n_running n) fd (n_listening n) (n_mutex n) (n_peers n) (n_main n) (n_accept n) (n_casts n) (n_killed n).

Definition with_mutex (n : node) (o : option owner) : node :=
  mkNodeT (n_running n) (n_listen n) (n_listening n) o (n_peers n) (n_main n) (n_accept n) (n_casts n) (n_killed n).

Definition with_peers (n : node) (ps : list peer) : node :=
  mkNodeT (n_running n) (n_listen n) (n_listening n) (n_mutex n) ps (n_main n) (n_accept n) (n_casts n) (n_killed n).

Definition with_flag (n : node) (b : bool) : node :=
  mkNodeT b (n_listen n) (n_listening n) (n_mutex n) (n_peers n) (n_main n) (n_accept n) (n_casts n) (n_killed n).

Definition killed (n : node) : node :=
  mkNodeT (n_running n) (n_listen n) (n_listening n) (n_mutex n) (n_peers n) (n_main n) (n_accept n) (n_casts n) true.

(** p2p_node.cpp 32-64 once it has returned: the flag is set, the accept
    thread runs. The seeds that were dialled have their threads. *)
Definition started (listening : bool) (seeds casts : nat) : node :=
  mkNodeT true Open listening None (replicate seeds (spawn (set_running true fresh_peer))) MRun ATest (replicate casts BOut) false.

(** p2p_node.cpp 76-93, one statement of [stop]. The loop over the peers
    goes through [MNext]. *)
Definition main_step (n : node) : option node :=
  match n_main n with
  | MRun => Some (at_main (with_flag n false) MShut)
  | MShut => Some (at_main (with_listen n ShutDown) MClose)
  | MClose => Some (at_main (with_listen n Closed) MJoin)
  | MJoin => match n_accept n with ADone => Some (at_main n MLock) | _ => None end
  | MLock => match n_mutex n with None => Some (at_main (with_mutex n (Some OMain)) (MNext 0)) | _ => None end
  | MNext i =>
      if bool_decide (i < length (n_peers n))%nat then Some (at_main n (MPeer i PTest))
      else Some (at_main (with_mutex n None) MDone)
  | MPeer i pc =>
      match n_peers n !! i with
      | None => None
      | Some p =>
          match stop_step pc p with
          | None => None
          | Some (p', Some pc') => Some (at_main (with_peers n (<[i := p']> (n_peers n))) (MPeer i pc'))
          | Some (p', None) => Some (at_main (with_peers n (<[i := p']> (n_peers n))) (MNext (S i)))
          end
      end
  | MDone => None
  end.

(** p2p_node.cpp 95-114, one statement of the accept thread. [conn] is what
    [accept] returns: a connection, which needs an open and listening socket,
    or an error. *)
Definition accept_step (conn : bool) (n : node) : option node :=
  let hears := match n_listen n with Open => n_listening n | _ => false end in
  match n_accept n with
  | ATest => Some (at_accept n (if n_running n then AAccept else ADone))
  | AAccept =>
      if conn then if hears then Some (at_accept n ALock) else None
      else Some (at_accept n ATest)
  | ALock => match n_mutex n with None => Some (at_accept (with_mutex n (Some OAccept)) APush) | _ => None end
  | APush => Some (at_accept (with_peers n (n_peers n ++ [fresh_peer])) AUnlock)
  | AUnlock => Some (at_accept (with_mutex n None) (ASetRun (pred (length (n_peers n)))))
  | ASetRun i => Some (at_accept (with_peers n (alter (set_running true) i (n_peers n))) (ASpawn i))
  | ASpawn i => Some (at_accept (with_peers n (alter spawn i (n_peers n))) ATest)
  | ADone => None
  end.

(** p2p_node.cpp 147-150 and 160-163, one statement of a broadcast. *)
Definition cast_step (j : nat) (n : node) : option node :=
  match n_casts n !! j with
  | None => None
  | Some BOut => match n_mutex n with None => Some (at_cast (with_mutex n (Some (OCast j))) j (BSend 0)) | _ => None end
  | Some (BSend i) =>
      match n_peers n !! i with
      | None => Some (at_cast (with_mutex n None) j BOut)
      | Some p =>
          match send_step p with
          | Killed => Some (killed n)
          | Waits => None
          | Sent p' => Some (at_cast (with_peers n (<[i := p']> (n_peers n))) j (BSend (S i)))
          end
      end
  end.

(** Who moves next, and what the system answers. The last three are the
    remote ends': one closes, stops reading, reads again. *)
Inductive move : Type :=
| Main
| Accept (conn : bool)
| Recv (i : nat) (r : received)
| Cast (j : nat)
| RemoteCloses (i : nat)
| Fills (i : nat)
| Drains (i : nat).

(** A step of peer [i] alone. *)
Definition on_peer (i : nat) (f : peer -> option peer) (n : node) : option node :=
  match n_peers n !! i with
  | None => None
  | Some p => match f p with Some p' => Some (with_peers n (<[i := p']> (n_peers n))) | None => None end
  end.

Definition remote_closes (p : peer) : option peer := match p_conn p with Up => Some (set_conn Fin p) | _ => None end.

Definition node_step (m : move) (n : node) : option node :=
  if n_killed n then None
  else
    match m with
    | Main => main_step n
    | Accept conn => accept_step conn n
    | Recv i r => on_peer i (recv_step r) n
    | Cast j => cast_step j n
    | RemoteCloses i => on_peer i remote_closes n
    | Fills i => on_peer i (fun p => Some (set_full true p)) n
    | Drains i => on_peer i (fun p => Some (set_full false p)) n
    end.

Fixpoint run_moves (ms : list move) (n : node) : option node :=
  match ms with
  | [] => Some n
  | m :: ms => match node_step m n with Some n' => run_moves ms n' | None => None end
  end.

(** ** The invariant *)

(** How far a peer is in its life: made but not started, flag set, running,
    and the points of [Peer::stop]. *)
Inductive stage : Type := SNew | SSet | SLive | SShut | SClose | SJoin | SGone.

Definition stop_stage (pc : stop_pc) : stage :=
  match pc with PTest | PFlag => SLive | PShut => SShut | PClose => SClose | PJoin => SJoin end.

Definition accept_stage (n : node) (i : nat) : stage :=
  match n_accept n with
  | AUnlock => if bool_decide (i = pred (length (n_peers n))) then SNew else SLive
  | ASetRun j => if bool_decide (i = j) then SNew else SLive
  | ASpawn j => if bool_decide (i = j) then SSet else SLive
  | _ => SLive
  end.

Definition stage_of (n : node) (i : nat) : stage :=
  match n_main n with
  | MNext j => if bool_decide (i < j)%nat then SGone else SLive
  | MPeer j pc => if bool_decide (i < j)%nat then SGone else if bool_decide (i = j) then stop_stage pc else SLive
  | MDone => SGone
  | _ => accept_stage n i
  end.

Definition is_up (c : conn_state) : bool := match c with Up => true | _ => false end.

Definition is_idle (r : recv_pc) : bool := match r with RIdle => true | _ => false end.

Definition is_done (r : recv_pc) : bool := match r with RDone => true | _ => false end.

Definition is_open (fd : fd_state) : bool := match fd with Open => true | _ => false end.

Definition is_closed (fd : fd_state) : bool := match fd with Closed => true | _ => false end.

(** The remote end has ended the receive loop: it ended the connection, or
    sent a message without payload. *)
Definition cut (p : peer) : bool := negb (is_up (p_conn p)) || p_empty p.

(** The descriptor is closed, or the remote end had ended the loop. *)
Definition released (p : peer) : bool := is_closed (p_fd p) || (is_open (p_fd p) && cut p).

(** A running peer: its thread clears the flag itself when the remote end
    ends the loop. *)
Definition live_ok (p : peer) : bool :=
  match p_recv p with
  | RIdle => false
  | RExit => p_running p && cut p
  | RDone => negb (p_running p) && cut p
  | _ => p_running p
  end.

Definition stage_ok (s : stage) (p : peer) : bool :=
  match s with
  | SNew => negb (p_running p) && is_idle (p_recv p) && negb (p_joinable p) && is_open (p_fd p)
  | SSet => p_running p && is_idle (p_recv p) && negb (p_joinable p) && is_open (p_fd p)
  | SLive => p_joinable p && is_open (p_fd p) && live_ok p
  | SShut => p_joinable p && is_open (p_fd p) && negb (p_running p) && negb (is_idle (p_recv p))
  | SClose => p_joinable p && negb (p_running p) && negb (is_idle (p_recv p))
  | SJoin => p_joinable p && negb (p_running p) && negb (is_idle (p_recv p)) && (is_closed (p_fd p) || (is_done (p_recv p) && released p))
  | SGone => negb (p_joinable p) && negb (p_running p) && is_done (p_recv p) && released p
  end.

Definition main_in (pc : main_pc) : bool := match pc with MNext _ | MPeer _ _ => true | _ => false end.

Definition main_late (pc : main_pc) : bool := match pc with MLock | MNext _ | MPeer _ _ | MDone => true | _ => false end.

Definition accept_in (pc : accept_pc) : bool := match pc with APush | AUnlock => true | _ => false end.

(** Who is inside a critical section of [peersMutex_]. *)
Definition inside (n : node) (o : owner) : Prop :=
  match o with
  | OMain => main_in (n_main n) = true
  | OAccept => accept_in (n_accept n) = true
  | OCast j => exists i, n_casts n !! j = Some (BSend i)
  end.

Definition accept_index (n : node) : Prop :=
  match n_accept n with
  | AUnlock => n_peers n <> []
  | ASetRun j | ASpawn j => (j < length (n_peers n))%nat
  | _ => True
  end.

Definition listen_ok (n : node) : Prop :=
  n_listen n = match n_main n with MRun | MShut => Open | MClose => ShutDown | _ => Closed end.

Record inv (n : node) : Prop := {
  inv_peers i p : n_peers n !! i = Some p -> stage_ok (stage_of n i) p = true;
  inv_late : main_late (n_main n) = true -> n_accept n = ADone;
  inv_flag : n_running n = match n_main n with MRun => true | _ => false end;
  inv_done : n_accept n = ADone -> n_running n = false;
  inv_mutex o : n_mutex n = Some o <-> inside n o;
  inv_index : accept_index n;
  inv_main : match n_main n with MPeer i _ => (i < length (n_peers n))%nat | _ => True end;
  inv_listen : listen_ok n;
}.

(** Case analysis on the finitely many states of a peer. *)
Ltac peer_cases p := destruct p as [[] [] [] [] [] [] ?]; try done.

Lemma recv_step_ok s r p p' : recv_step r p = Some p' -> stage_ok s p = true -> stage_ok s p' = true.
Proof. destruct p as [run fd conn [] j e f]; try done; destruct r, fd, conn; try done; cbn; intros [= <-]; destruct s, run, j, e; done. Qed.

Lemma send_step_ok s p p' : send_step p = Sent p' -> stage_ok s p = true -> stage_ok s p' = true.
Proof. destruct p as [run fd conn pc j e []]; destruct fd, conn; try done; cbn; intros [= <-]; destruct s, run, pc, j, e; done. Qed.

Lemma remote_closes_ok s p p' : remote_closes p = Some p' -> stage_ok s p = true -> stage_ok s p' = true.
Proof. destruct p as [run fd conn pc j e f]; destruct conn; try done; cbn; intros [= <-]; destruct s, run, fd, pc, j, e; done. Qed.

Lemma full_ok s b p : stage_ok s (set_full b p) = stage_ok s p.
Proof. done. Qed.

Lemma stop_step_ok pc p p' pc' :
  stop_step pc p = Some (p', pc') -> stage_ok (stop_stage pc) p = true ->
  stage_ok (match pc' with Some pc' => stop_stage pc' | None => SGone end) p' = true.
Proof. destruct pc; peer_cases p; cbn; intros [= <- <-]; done. Qed.

(** A step of a peer that is neither the accepting nor the stopping thread's
    keeps everything else. *)
Lemma inv_peer_update n i p p' :
  inv n -> n_peers n !! i = Some p -> (stage_ok (stage_of n i) p = true -> stage_ok (stage_of n i) p' = true) ->
  inv (with_peers n (<[i := p']> (n_peers n))).
Proof.
  intros I L H.
  assert (St : forall j, stage_of (with_peers n (<[i := p']> (n_peers n))) j = stage_of n j).
  { intros j. unfold stage_of, accept_stage. cbn. by rewrite length_insert. }
  destruct I as [I1 I2 I3 I4 I5 I6 I7 I8]. split; try done.
  - intros j q Lq. rewrite St. apply list_lookup_insert_Some in Lq as [(<- & <- & _)|(N & Lq)]; [by apply H, I1|by apply I1].
  - unfold accept_index in *. cbn. destruct (n_accept n); rewrite ?length_insert; try done.
    intros E. apply (f_equal length) in E. rewrite length_insert in E. apply lookup_lt_Some in L. cbn in E. lia.
  - cbn. rewrite length_insert. done.
Qed.

Lemma on_peer_inv n i f n' :
  (forall s p p', f p = Some p' -> stage_ok s p = true -> stage_ok s p' = true) -> inv n -> on_peer i f n = Some n' -> inv n'.
Proof.
  intros F I E. unfold on_peer in E. destruct (n_peers n !! i) as [p|] eqn:L; [|done]. destruct (f p) as [p'|] eqn:Ef; [|done].
  injection E as <-. eapply inv_peer_update; [done..|]. by eapply F.
Qed.

(** Taking the free mutex, leaving it. *)
Lemma inside_free n o : inv n -> n_mutex n = None -> ~ inside n o.
Proof. intros I E H. apply (inv_mutex n I) in H. congruence. Qed.

Lemma inside_only n o o' : inv n -> inside n o -> inside n o' -> o = o'.
Proof. intros I H H'. apply (inv_mutex n I) in H, H'. congruence. Qed.

Lemma cast_inv n j n' : inv n -> n_killed n = false -> cast_step j n = Some n' -> n_killed n' = false -> inv n'.
Proof.
  intros I K E K'. unfold cast_step in E. destruct (n_casts n !! j) as [[|i]|] eqn:Ej; [| |done].
  - destruct (n_mutex n) eqn:M; [done|]. injection E as <-. destruct I as [I1 I2 I3 I4 I5 I6 I7 I8]. split; try done.
    intros o. cbn. destruct o as [| |j']; cbn.
    + split; [done|]. intros H. apply (I5 OMain) in H. congruence.
    + split; [done|]. intros H. apply (I5 OAccept) in H. congruence.
    + destruct (decide (j = j')) as [<-|N].
      * rewrite (list_lookup_insert_eq _ j) by (by eapply lookup_lt_Some). split; [by eexists|done].
      * rewrite list_lookup_insert_ne by done. split; [congruence|]. intros H. apply (I5 (OCast j')) in H. congruence.
  - assert (Ho : n_mutex n = Some (OCast j)) by (apply (inv_mutex n I (OCast j)); by exists i).
    destruct (n_peers n !! i) as [p|] eqn:Lp.
    + destruct (send_step p) as [p'| |] eqn:Es; [|done|injection E as <-; done]. injection E as <-.
      pose proof (inv_peer_update n i p p' I Lp (send_step_ok _ _ _ Es)) as [I1 I2 I3 I4 I5 I6 I7 I8]. split; try done.
      intros o. rewrite I5. destruct o as [| |j']; cbn; try done.
      destruct (decide (j = j')) as [<-|N]; [|by rewrite list_lookup_insert_ne].
      rewrite (list_lookup_insert_eq _ j) by (by eapply lookup_lt_Some). split; [by eexists|by exists i].
    + injection E as <-. destruct I as [I1 I2 I3 I4 I5 I6 I7 I8]. split; try done.
      intros o. cbn. split; [done|]. intros H. destruct o as [| |j']; cbn in H.
      * apply (I5 OMain) in H. congruence.
      * apply (I5 OAccept) in H. congruence.
      * destruct (decide (j = j')) as [<-|N].
        { rewrite (list_lookup_insert_eq _ j) in H by (by eapply lookup_lt_Some). by destruct H. }
        { rewrite list_lookup_insert_ne in H by done. apply (I5 (OCast j')) in H. congruence. }
Qed.

(** While the accept thread lives, the stopping thread has not reached the
    peers. *)
Lemma early n : inv n -> n_accept n <> ADone -> main_late (n_main n) = false.
Proof. intros I N. destruct (main_late (n_main n)) eqn:E; [|done]. by apply (inv_late n I) in E. Qed.

Lemma early_stage n i : main_late (n_main n) = false -> stage_of n i = accept_stage n i.
Proof. unfold stage_of. by destruct (n_main n). Qed.

(** Only the accept thread changes: what is left to show. *)
Lemma accept_inv_intro n n' :
  inv n -> n_accept n <> ADone -> n_main n' = n_main n -> n_running n' = n_running n -> n_listen n' = n_listen n ->
  n_casts n' = n_casts n ->
  (forall i p, n_peers n' !! i = Some p -> stage_ok (accept_stage n' i) p = true) ->
  (n_accept n' = ADone -> n_running n = false) ->
  (forall o, n_mutex n' = Some o <-> inside n' o) -> accept_index n' -> inv n'.
Proof.
  intros I N Em Er El Ec P D M X. pose proof (early n I N) as L. destruct I as [_ I2 I3 _ _ _ I7 I8]. split.
  - intros i p Lp. rewrite early_stage by (by rewrite Em). by apply P.
  - rewrite Em, L. done.
  - by rewrite Er, Em.
  - by rewrite Er.
  - done.
  - done.
  - rewrite Em. by destruct (n_main n).
  - unfold listen_ok in *. by rewrite El, Em.
Qed.

(** A step that moves the accept thread only, without the mutex. *)
Lemma accept_quiet_inv n pc :
  inv n -> n_accept n <> ADone -> accept_in (n_accept n) = false -> accept_in pc = false ->
  (forall i, accept_stage n i = SLive) -> (forall i, accept_stage (at_accept n pc) i = SLive) ->
  (pc = ADone -> n_running n = false) -> accept_index (at_accept n pc) -> inv (at_accept n pc).
Proof.
  intros I N A A' S S' D X. apply (accept_inv_intro n); try done.
  - intros i p Lp. rewrite S'. pose proof (inv_peers n I i p Lp) as H.
    by rewrite early_stage, S in H by (by apply early).
  - intros o. cbn. rewrite (inv_mutex n I o). destruct o as [| |j]; [done| |done]. cbn. by rewrite A, A'.
Qed.

Lemma accept_lock_inv n : inv n -> n_accept n = ALock -> n_mutex n = None -> inv (at_accept (with_mutex n (Some OAccept)) APush).
Proof.
  intros I E M. apply (accept_inv_intro n); try done; [by rewrite E| |].
  - intros i p Lp. pose proof (inv_peers n I i p Lp) as H. rewrite early_stage in H by (apply early; [done|by rewrite E]).
    unfold accept_stage in H. by rewrite E in H.
  - intros o. cbn. destruct o as [| |j]; cbn; [|done|]; (split; [done|]); intros H; exfalso;
      [by apply (inside_free n OMain I M)|by apply (inside_free n (OCast j) I M)].
Qed.

Lemma accept_push_inv n : inv n -> n_accept n = APush -> inv (at_accept (with_peers n (n_peers n ++ [fresh_peer])) AUnlock).
Proof.
  intros I E. apply (accept_inv_intro n); try done; [by rewrite E| | |].
  - intros i p Lp. unfold accept_stage. cbn in *. rewrite length_app, Nat.add_1_r. cbn.
    apply lookup_app_Some in Lp as [Lp|[Hl Lp]].
    + rewrite bool_decide_false by (apply lookup_lt_Some in Lp; lia).
      pose proof (inv_peers n I i p Lp) as H. rewrite early_stage in H by (apply early; [done|by rewrite E]).
      unfold accept_stage in H. by rewrite E in H.
    + apply list_lookup_singleton_Some in Lp as [Hi <-]. by rewrite bool_decide_true by lia.
  - intros o. cbn. rewrite (inv_mutex n I o). destruct o as [| |j]; [done| |done]. cbn. by rewrite E.
  - cbn. by destruct (n_peers n).
Qed.

Lemma accept_unlock_inv n :
  inv n -> n_accept n = AUnlock -> inv (at_accept (with_mutex n None) (ASetRun (pred (length (n_peers n))))).
Proof.
  intros I E. pose proof (inv_index n I) as X. unfold accept_index in X. rewrite E in X.
  apply (accept_inv_intro n); try done; [by rewrite E| | |].
  - intros i p Lp. pose proof (inv_peers n I i p Lp) as H. rewrite early_stage in H by (apply early; [done|by rewrite E]).
    unfold accept_stage in *. rewrite E in H. done.
  - intros o. cbn. split; [done|]. intros H.
    assert (Ho : inside n OAccept) by (cbn; by rewrite E).
    destruct o as [| |j]; cbn in H; [|done|].
    + pose proof (inside_only n OMain OAccept I H Ho). done.
    + pose proof (inside_only n (OCast j) OAccept I H Ho). done.
  - cbn. destruct (n_peers n); [done|]. cbn. lia.
Qed.

(** The accept thread works on the peer it made. *)
Lemma accept_alter_inv n i (f : peer -> peer) pc s s' :
  inv n -> accept_in (n_accept n) = false -> n_accept n <> ADone -> accept_in pc = false -> pc <> ADone ->
  (forall j, accept_stage n j = if bool_decide (j = i) then s else SLive) ->
  (forall j, accept_stage (at_accept (with_peers n (alter f i (n_peers n))) pc) j = if bool_decide (j = i) then s' else SLive) ->
  (forall p, stage_ok s p = true -> stage_ok s' (f p) = true) ->
  accept_index (at_accept (with_peers n (alter f i (n_peers n))) pc) ->
  inv (at_accept (with_peers n (alter f i (n_peers n))) pc).
Proof.
  intros I A N A' N' S S' F X. apply (accept_inv_intro n); try done.
  - intros j p Lp. rewrite S'. cbn in Lp. destruct (decide (j = i)) as [->|Nj].
    + rewrite bool_decide_true by done. rewrite list_lookup_alter in Lp. destruct (decide _); [|done].
      destruct (n_peers n !! i) as [q|] eqn:Lq; [|done]. injection Lp as <-. apply F.
      pose proof (inv_peers n I i q Lq) as H. rewrite early_stage, S, bool_decide_true in H by (done || by apply early). done.
    + rewrite bool_decide_false by done. rewrite list_lookup_alter_ne in Lp by done.
      pose proof (inv_peers n I j p Lp) as H. rewrite early_stage, S, bool_decide_false in H by (done || by apply early). done.
  - intros o. cbn. rewrite (inv_mutex n I o). destruct o as [| |j]; [done| |done]. cbn. by rewrite A, A'.
Qed.

Lemma accept_inv n conn n' : inv n -> accept_step conn n = Some n' -> inv n'.
Proof.
  intros I E. unfold accept_step in E. cbn zeta in E. pose proof (inv_index n I) as X. unfold accept_index in X.
  destruct (n_accept n) as [| | | | |i|i|] eqn:Ea; [| | | | | | |done].
  - injection E as <-. apply accept_quiet_inv; try done; rewrite ?Ea; try done; [by destruct (n_running n)| | | |].
    + intros i. unfold accept_stage. by rewrite Ea.
    + intros i. unfold accept_stage. cbn. by destruct (n_running n).
    + by destruct (n_running n).
    + unfold accept_index. cbn. by destruct (n_running n).
  - assert (Q : forall pc, (pc = ALock \/ pc = ATest) -> inv (at_accept n pc)).
    { intros pc [-> | ->]; apply accept_quiet_inv; try done; rewrite ?Ea; try done; intros i; unfold accept_stage; by rewrite Ea. }
    destruct conn; [destruct (match n_listen n with Open => _ | _ => _ end); [|done]|]; injection E as <-; apply Q; auto.
  - destruct (n_mutex n) eqn:M; [done|]. injection E as <-. by apply accept_lock_inv.
  - injection E as <-. by apply accept_push_inv.
  - injection E as <-. by apply accept_unlock_inv.
  - injection E as <-. apply (accept_alter_inv n i _ _ SNew SSet); try done; rewrite ?Ea; try done.
    + intros j. unfold accept_stage. by rewrite Ea.
    + intros p. by peer_cases p.
    + cbn. by rewrite length_alter.
  - injection E as <-. apply (accept_alter_inv n i _ _ SSet SLive); try done; rewrite ?Ea; try done.
    + intros j. unfold accept_stage. by rewrite Ea.
    + intros j. unfold accept_stage. cbn. by destruct (bool_decide _).
    + intros p. by peer_cases p.
Qed.

(** The first statements of [stop], before the peers. *)
Lemma main_early_inv n pc fd :
  inv n -> main_late (n_main n) = false -> main_late pc = false -> pc <> MRun ->
  fd = match pc with MRun | MShut => Open | MClose => ShutDown | _ => Closed end ->
  inv (at_main (with_listen (with_flag n false) fd) pc).
Proof.
  intros I L L' N ->. pose proof I as [I1 I2 I3 I4 I5 I6 I7 I8]. split; try done.
  - intros i p Lp. rewrite early_stage by done. pose proof (I1 i p Lp) as H. by rewrite early_stage in H.
  - cbn. by rewrite L'.
  - cbn. by destruct pc.
  - intros o. cbn. rewrite I5. destruct o; [|done..]. cbn. destruct (n_main n), pc; done.
  - cbn. by destruct pc.
Qed.

Lemma late_stage n i : inv n -> n_accept n = ADone -> accept_stage n i = SLive.
Proof. intros _ E. unfold accept_stage. by rewrite E. Qed.

(** The stopping thread at the peers, where it holds the mutex. *)
Lemma main_late_inv n n' :
  inv n -> n_accept n = ADone -> n_running n = false -> n_listen n = Closed -> main_late (n_main n') = true ->
  n_accept n' = n_accept n -> n_running n' = n_running n -> n_listen n' = n_listen n -> n_casts n' = n_casts n ->
  (forall i p, n_peers n' !! i = Some p -> stage_ok (stage_of n' i) p = true) ->
  (forall o, n_mutex n' = Some o <-> inside n' o) ->
  match n_main n' with MPeer i _ => (i < length (n_peers n'))%nat | _ => True end -> inv n'.
Proof.
  intros I A R Ls L Ea Er El Ec P M X. split; try done.
  - by rewrite Ea.
  - rewrite Er, R. by destruct (n_main n').
  - by rewrite Er.
  - unfold accept_index. by rewrite Ea, A.
  - unfold listen_ok. rewrite El, Ls. by destruct (n_main n').
Qed.

Lemma main_holds n : inv n -> main_in (n_main n) = true -> n_mutex n = Some OMain.
Proof. intros I H. by apply (inv_mutex n I OMain). Qed.

Lemma main_inside_move n ps pc o :
  inv n -> main_in (n_main n) = true -> main_in pc = true ->
  n_mutex (at_main (with_peers n ps) pc) = Some o <-> inside (at_main (with_peers n ps) pc) o.
Proof. intros I H H'. cbn. rewrite (inv_mutex n I o). destruct o; [cbn; by rewrite H, H'|done..]. Qed.

Lemma main_peer_inv n i pc p p' pc' :
  inv n -> n_main n = MPeer i pc -> n_peers n !! i = Some p -> stop_step pc p = Some (p', pc') ->
  inv (at_main (with_peers n (<[i := p']> (n_peers n))) (match pc' with Some pc' => MPeer i pc' | None => MNext (S i) end)).
Proof.
  intros I E Lp Es. pose proof (inv_late n I) as Ha. pose proof (inv_flag n I) as Hf. pose proof (inv_listen n I) as Hl.
  unfold listen_ok in Hl. rewrite E in Ha, Hf, Hl. specialize (Ha eq_refl).
  pose proof (inv_peers n I i p Lp) as Hp. unfold stage_of in Hp. rewrite E in Hp.
  rewrite bool_decide_false, bool_decide_true in Hp by (done || lia).
  pose proof (stop_step_ok _ _ _ _ Es Hp) as Hp'.
  apply (main_late_inv n); try done; [by destruct pc'| | |].
  - intros j q Lq. cbn in Lq. apply list_lookup_insert_Some in Lq as [(<- & <- & _)|(N & Lq)].
    + unfold stage_of. cbn. destruct pc' as [pc'|].
      * by rewrite bool_decide_false, bool_decide_true by (done || lia).
      * by rewrite bool_decide_true by lia.
    + pose proof (inv_peers n I j q Lq) as Hq. unfold stage_of in *. cbn. rewrite E in Hq.
      destruct (decide (j < i)%nat) as [Hj|Hj].
      * rewrite bool_decide_true in Hq by done. by destruct pc' as [pc'|]; rewrite bool_decide_true by lia.
      * rewrite !bool_decide_false in Hq by (done || lia). by destruct pc' as [pc'|]; rewrite !bool_decide_false by (done || lia).
  - intros o. apply main_inside_move; [done|by rewrite E|by destruct pc'].
  - cbn. destruct pc'; [|done]. rewrite length_insert. by eapply lookup_lt_Some.
Qed.

Lemma main_lock_inv n : inv n -> n_main n = MLock -> n_mutex n = None -> inv (at_main (with_mutex n (Some OMain)) (MNext 0)).
Proof.
  intros I E M. pose proof (inv_late n I) as Ha. pose proof (inv_flag n I) as Hf. pose proof (inv_listen n I) as Hl.
  unfold listen_ok in Hl. rewrite E in Ha, Hf, Hl. specialize (Ha eq_refl).
  apply (main_late_inv n); try done.
  - intros i p Lp. pose proof (inv_peers n I i p Lp) as H. unfold stage_of in *. rewrite E, late_stage in H by done.
    cbn. by rewrite bool_decide_false by lia.
  - intros o. cbn. destruct o as [| |j]; cbn; [done|..]; (split; [done|]); intros H; exfalso;
      [by apply (inside_free n OAccept I M)|by apply (inside_free n (OCast j) I M)].
Qed.

Lemma main_next_inv n i :
  inv n -> n_main n = MNext i ->
  inv (if bool_decide (i < length (n_peers n))%nat then at_main n (MPeer i PTest) else at_main (with_mutex n None) MDone).
Proof.
  intros I E. pose proof (inv_late n I) as Ha. pose proof (inv_flag n I) as Hf. pose proof (inv_listen n I) as Hl.
  unfold listen_ok in Hl. rewrite E in Ha, Hf, Hl. specialize (Ha eq_refl).
  assert (Hm : n_mutex n = Some OMain) by (apply main_holds; [done|by rewrite E]).
  case_bool_decide as Hi; apply (main_late_inv n); try done.
  - intros j p Lp. pose proof (inv_peers n I j p Lp) as H. unfold stage_of in *. rewrite E in H. cbn.
    destruct (bool_decide (j < i)%nat); [done|]. by destruct (bool_decide (j = i)).
  - intros o. apply (main_inside_move n (n_peers n)); [done|by rewrite E|done].
  - intros j p Lp. pose proof (inv_peers n I j p Lp) as H. unfold stage_of in *. rewrite E in H. cbn in *.
    by rewrite bool_decide_true in H by (apply lookup_lt_Some in Lp; lia).
  - intros o. cbn. split; [done|]. intros H. destruct o as [| |j]; cbn in H; [done|by rewrite Ha in H|].
    assert (Ho : n_mutex n = Some (OCast j)) by (by apply (inv_mutex n I (OCast j))). congruence.
Qed.

Lemma main_inv n n' : inv n -> main_step n = Some n' -> inv n'.
Proof.
  intros I E. unfold main_step in E. pose proof (inv_flag n I) as Hf. pose proof (inv_listen n I) as Hl. unfold listen_ok in Hl.
  destruct (n_main n) as [| | | | |i pc|i|] eqn:Em.
  - injection E as <-. pose proof (main_early_inv n MShut Open I) as G. rewrite Em in G.
    replace (at_main (with_flag n false) MShut) with (at_main (with_listen (with_flag n false) Open) MShut); [by apply G|].
    by rewrite <- Hl.
  - injection E as <-. pose proof (main_early_inv n MClose ShutDown I) as G. rewrite Em in G.
    replace (with_listen n ShutDown) with (with_listen (with_flag n false) ShutDown); [by apply G|]. by rewrite <- Hf.
  - injection E as <-. pose proof (main_early_inv n MJoin Closed I) as G. rewrite Em in G.
    replace (with_listen n Closed) with (with_listen (with_flag n false) Closed); [by apply G|]. by rewrite <- Hf.
  - destruct (n_accept n) eqn:Ea; try done. injection E as <-. apply (main_late_inv n); try done.
    + intros i p Lp. pose proof (inv_peers n I i p Lp) as H. unfold stage_of in *. by rewrite Em in H.
    + intros o. cbn. rewrite (inv_mutex n I o). destruct o; [cbn; by rewrite Em|done..].
  - destruct (n_mutex n) eqn:M; [done|]. injection E as <-. by apply main_lock_inv.
  - destruct (n_peers n !! i) as [p|] eqn:Lp; [|done]. destruct (stop_step pc p) as [[p' pc']|] eqn:Es; [|done].
    pose proof (main_peer_inv n i pc p p' pc' I Em Lp Es) as G. destruct pc' as [pc'|]; injection E as <-; exact G.
  - pose proof (main_next_inv n i I Em) as G. by destruct (bool_decide _); injection E as <-.
  - done.
Qed.

Lemma node_step_inv m n n' : inv n -> node_step m n = Some n' -> n_killed n' = false -> inv n'.
Proof.
  intros I E K. unfold node_step in E. destruct (n_killed n) eqn:K0; [done|]. destruct m as [|conn|i r|j|i|i|i].
  - by apply (main_inv n).
  - by apply (accept_inv n conn).
  - eapply on_peer_inv; [|done|exact E]. intros s p p'. apply recv_step_ok.
  - by apply (cast_inv n j).
  - eapply on_peer_inv; [|done|exact E]. intros s p p'. apply remote_closes_ok.
  - eapply on_peer_inv; [|done|exact E]. by intros s p p' [= <-].
  - eapply on_peer_inv; [|done|exact E]. by intros s p p' [= <-].
Qed.

Lemma run_moves_inv ms : forall n n', inv n -> n_killed n = false -> run_moves ms n = Some n' -> n_killed n' = false -> inv n'.
Proof.
  induction ms as [|m ms IH]; intros n n' I K E K'; cbn in E; [by injection E as <-|].
  destruct (node_step m n) as [n1|] eqn:E1; [|done]. destruct (n_killed n1) eqn:K1.
  - destruct ms as [|m' ms]; cbn in E; [congruence|]. unfold node_step in E. by rewrite K1 in E.
  - apply (IH n1); try done. by eapply node_step_inv.
Qed.

Lemma started_inv listening seeds casts : inv (started listening seeds casts).
Proof.
  split; try done.
  - intros i p Lp. apply lookup_replicate in Lp as [-> _]. done.
  - intros o. cbn. split; [done|]. destruct o as [| |j]; cbn; try done. intros [i H]. apply lookup_replicate in H as [? _]. done.
Qed.

(** ** What can still happen *)

(** A move of the program's own threads, with nothing coming from outside. *)
Definition internal (m : move) : Prop :=
  match m with Main | Accept false | Recv _ Nothing | Cast _ => True | _ => False end.

Definition can_reach (Q : node -> Prop) (n : node) : Prop :=
  exists ms n', Forall internal ms /\ run_moves ms n = Some n' /\ Q n'.

Lemma can_now (Q : node -> Prop) n : Q n -> can_reach Q n.
Proof. intros H. exists [], n. split; [constructor|done]. Qed.

Lemma can_step Q m n n' : internal m -> node_step m n = Some n' -> can_reach Q n' -> can_reach Q n.
Proof. intros I E (ms & n1 & F & R & H). exists (m :: ms), n1. cbn. rewrite E. split; [by constructor|done]. Qed.

Lemma can_trans (P Q : node -> Prop) n : can_reach P n -> (forall n', P n' -> can_reach Q n') -> can_reach Q n.
Proof.
  intros (ms & n1 & F & R & H) K. destruct (K n1 H) as (ms' & n2 & F' & R' & H'). exists (ms ++ ms'), n2.
  split; [by apply Forall_app|]. split; [|done]. clear F K H. revert n R.
  induction ms as [|m ms IH]; intros n R; cbn in *; [by injection R as ->|]. destruct (node_step m n); [by apply IH|done].
Qed.

(** Alive and in order, with the stopping thread and the accept thread at
    given points. *)
Record at_points (mpc : main_pc) (apc : accept_pc) (n : node) : Prop := {
  pts_inv : inv n;
  pts_alive : n_killed n = false;
  pts_main : n_main n = mpc;
  pts_accept : n_accept n = apc;
}.

(** A broadcast holds [peersMutex_] and waits in [::send] on peer [i]. *)
Record stalled (j i : nat) (n : node) : Prop := {
  stl_inv : inv n;
  stl_alive : n_killed n = false;
  stl_main : n_main n <> MDone;
  stl_cast : n_casts n !! j = Some (BSend i);
  stl_peer : exists p, n_peers n !! i = Some p /\ send_step p = Waits;
}.

(** What can keep [stop()] from its end: SIGPIPE or a send that waits. *)
Definition hindered (n : node) : Prop := n_killed n = true \/ exists j i, stalled j i n.

Lemma finish_cast mpc apc j : mpc <> MDone -> forall k n i,
  at_points mpc apc n -> n_casts n !! j = Some (BSend i) -> (length (n_peers n) - i <= k)%nat ->
  can_reach (fun n' => hindered n' \/ (at_points mpc apc n' /\ n_mutex n' = None)) n.
Proof.
  intros Nm. assert (End : forall n i, at_points mpc apc n -> n_casts n !! j = Some (BSend i) -> n_peers n !! i = None ->
    can_reach (fun n' => hindered n' \/ (at_points mpc apc n' /\ n_mutex n' = None)) n).
  { intros n i [I K Em Ea] Ej Lp.
    assert (E : cast_step j n = Some (at_cast (with_mutex n None) j BOut)) by (unfold cast_step; by rewrite Ej, Lp).
    apply (can_step _ (Cast j) _ (at_cast (with_mutex n None) j BOut)); [done|unfold node_step; by rewrite K|].
    apply can_now. right. split; [|done]. split; try done. by eapply cast_inv. }
  induction k as [|k IH]; intros n i P Ej Hk; destruct (n_peers n !! i) as [p|] eqn:Lp; try (by eapply End).
  - apply lookup_lt_Some in Lp. lia.
  - destruct P as [I K Em Ea]. destruct (send_step p) as [p'| |] eqn:Es.
    + set (n1 := at_cast (with_peers n (<[i := p']> (n_peers n))) j (BSend (S i))).
      assert (E : cast_step j n = Some n1) by (unfold cast_step; by rewrite Ej, Lp, Es).
      apply (can_step _ (Cast j) _ n1); [done|unfold node_step; by rewrite K|].
      apply (IH n1 (S i)); [split; try done; by eapply cast_inv| |cbn; rewrite length_insert; lia].
      cbn. apply list_lookup_insert_eq. by eapply lookup_lt_Some.
    + apply can_now. left. right. exists j, i. split; [done..|congruence|done|by exists p].
    + assert (E : cast_step j n = Some (killed n)) by (unfold cast_step; by rewrite Ej, Lp, Es).
      apply (can_step _ (Cast j) _ (killed n)); [done|unfold node_step; by rewrite K|]. apply can_now. left. by left.
Qed.

(** A broadcast under way comes to its end, waits or is killed. *)
Lemma free_of_casts mpc apc n :
  mpc <> MDone -> at_points mpc apc n ->
  can_reach (fun n' => hindered n' \/ (at_points mpc apc n' /\ forall j, n_mutex n' <> Some (OCast j))) n.
Proof.
  intros N P. destruct (n_mutex n) as [[| |j]|] eqn:M; try (apply can_now; right; split; [done|intros j'; congruence]).
  destruct P as [I K Em Ea]. pose proof M as Mj. apply (inv_mutex n I) in Mj as [i Ej].
  eapply can_trans; [by apply (finish_cast mpc apc j N (length (n_peers n)) n i); [|done|lia]|].
  intros n' [Hk|[P' M']]; apply can_now; [by left|right]. split; [done|]. intros j'. congruence.
Qed.

(** How many statements the accept thread has left once the node stops. *)
Definition accept_rank (pc : accept_pc) : nat :=
  match pc with ADone => 0 | ATest => 1 | AAccept | ASpawn _ => 2 | ASetRun _ => 3 | AUnlock => 4 | APush => 5 | ALock => 6 end.

Lemma accept_ends k : forall n apc,
  at_points MJoin apc n -> (accept_rank apc <= k)%nat -> (forall j, n_mutex n <> Some (OCast j)) ->
  can_reach (at_points MJoin ADone) n.
Proof.
  induction k as [|k IH]; intros n apc P Hk M; [destruct apc; cbn in Hk; try lia; by apply can_now|].
  pose proof P as [I K Em Ea]. pose proof (inv_flag n I) as Hf. rewrite Em in Hf.
  assert (S : forall n' apc', accept_step false n = Some n' -> n_main n' = MJoin -> n_killed n' = false -> n_accept n' = apc' ->
    (accept_rank apc' < accept_rank apc)%nat -> (forall j, n_mutex n' <> Some (OCast j)) -> can_reach (at_points MJoin ADone) n').
  { intros n' apc' E E1 E2 E3 L M'. apply (IH n' apc'); [split; try done; by eapply accept_inv|lia|done]. }
  assert (G : apc <> ADone -> exists n' apc', accept_step false n = Some n' /\ n_main n' = MJoin /\ n_killed n' = false /\
      n_accept n' = apc' /\ (accept_rank apc' < accept_rank apc)%nat /\ forall j, n_mutex n' <> Some (OCast j)).
  { intros N. unfold accept_step. cbn zeta. rewrite Hf, Ea.
    assert (Mf : apc = ALock -> n_mutex n = None).
    { intros ->. destruct (n_mutex n) as [[| |j]|] eqn:Mo; [| |by destruct (M j)|done]; apply (inv_mutex n I) in Mo; cbn in Mo;
        [by rewrite Em in Mo|by rewrite Ea in Mo]. }
    destruct apc as [| | | | |i|i|]; try rewrite Mf by done; try done;
      (eexists _, _; split; [reflexivity|]; cbn; do 3 (split; [done|]); split; [cbn; lia|]; done). }
  destruct apc; try (destruct G as (n' & apc' & E & E1 & E2 & E3 & L & M'); [done|];
    apply (can_step _ (Accept false) _ n'); [done|unfold node_step; by rewrite K|]; by eapply S).
  by apply can_now.
Qed.

(** A receiver whose peer is being stopped has at most three statements left. *)
Definition recv_rank (r : recv_pc) : nat :=
  match r with RDone => 0 | RExit => 1 | RIdle | RTest | RHeader | RPayload => 2 | RHandle => 3 end.

Lemma recv_ends_step p :
  stage_ok SJoin p = true -> p_recv p <> RDone ->
  exists p', recv_step Nothing p = Some p' /\ (recv_rank (p_recv p') < recv_rank (p_recv p))%nat.
Proof. peer_cases p; intros _ _; cbn; (eexists; split; [reflexivity|]; cbn; lia). Qed.

Lemma join_stage n i p pc : inv n -> n_main n = MPeer i pc -> n_peers n !! i = Some p -> stage_ok (stop_stage pc) p = true.
Proof.
  intros I Em Lp. pose proof (inv_peers n I i p Lp) as Hp. unfold stage_of in Hp. rewrite Em in Hp.
  by rewrite bool_decide_false, bool_decide_true in Hp by (done || lia).
Qed.

(** [main_step] at a peer, as a move. *)
Lemma stop_move Q n i pc p p' pc' :
  at_points (MPeer i pc) ADone n -> n_peers n !! i = Some p -> stop_step pc p = Some (p', pc') ->
  (forall n', at_points (match pc' with Some pc' => MPeer i pc' | None => MNext (S i) end) ADone n' ->
     n_peers n' = <[i := p']> (n_peers n) -> can_reach Q n') ->
  can_reach Q n.
Proof.
  intros [I K Em Ea] Lp Es G. pose proof (main_peer_inv n i pc p p' pc' I Em Lp Es) as I'.
  apply (can_step _ Main _ (at_main (with_peers n (<[i := p']> (n_peers n))) (match pc' with Some pc' => MPeer i pc' | None => MNext (S i) end)));
    [done|unfold node_step, main_step; rewrite K, Em, Lp, Es; by destruct pc'|]. apply G; [by split|done].
Qed.

Lemma join_peer i k : forall n p,
  at_points (MPeer i PJoin) ADone n -> n_peers n !! i = Some p -> (recv_rank (p_recv p) <= k)%nat ->
  can_reach (fun n' => at_points (MNext (S i)) ADone n' /\ length (n_peers n') = length (n_peers n)) n.
Proof.
  induction k as [|k IH]; intros n p P Lp Hk; pose proof P as [I K Em Ea]; pose proof (join_stage n i p PJoin I Em Lp) as Hp;
    destruct (decide (p_recv p = RDone)) as [Ed|Nd].
  1, 3: apply (stop_move _ n i PJoin p (joined p) None P Lp); [unfold stop_step; rewrite Ed; by peer_cases p|];
    intros n' P' E'; apply can_now; rewrite E', length_insert; done.
  all: destruct (recv_ends_step p Hp Nd) as (p' & Es & Hr).
  { lia. }
  set (n1 := with_peers n (<[i := p']> (n_peers n))).
  eapply (can_step _ (Recv i Nothing) _ n1); [done|unfold node_step, on_peer; by rewrite K, Lp, Es|].
  eapply can_trans; [apply (IH n1 p'); [split; try done; eapply (node_step_inv (Recv i Nothing)); [exact I|unfold node_step, on_peer; by rewrite K, Lp, Es|done]| |lia]|].
  - cbn. apply list_lookup_insert_eq. by eapply lookup_lt_Some.
  - intros n' [P' L']. apply can_now. split; [done|]. rewrite L'. cbn. by rewrite length_insert.
Qed.

(** [Peer::stop] on peer [i] comes back. *)
Lemma stop_peer i n pc :
  at_points (MPeer i pc) ADone n ->
  can_reach (fun n' => at_points (MNext (S i)) ADone n' /\ length (n_peers n') = length (n_peers n)) n.
Proof.
  assert (J : forall n, at_points (MPeer i PJoin) ADone n ->
    can_reach (fun n' => at_points (MNext (S i)) ADone n' /\ length (n_peers n') = length (n_peers n)) n).
  { intros n0 P. pose proof P as [I K Em Ea]. pose proof (inv_main n0 I) as Hi. rewrite Em in Hi.
    destruct (lookup_lt_is_Some_2 _ _ Hi) as [p Lp]. by apply (join_peer i 3 n0 p P Lp); destruct (p_recv p); cbn; lia. }
  assert (S : forall n pc pc', at_points (MPeer i pc) ADone n -> (forall p, exists p', stop_step pc p = Some (p', Some (pc' p))) ->
    (forall p n', at_points (MPeer i (pc' p)) ADone n' -> can_reach (fun n1 => at_points (MNext (S i)) ADone n1 /\ length (n_peers n1) = length (n_peers n')) n') ->
    can_reach (fun n1 => at_points (MNext (S i)) ADone n1 /\ length (n_peers n1) = length (n_peers n)) n).
  { intros n0 pc0 pc' P E C. pose proof P as [I K Em Ea]. pose proof (inv_main n0 I) as Hi. rewrite Em in Hi.
    destruct (lookup_lt_is_Some_2 _ _ Hi) as [p Lp]. destruct (E p) as [p' Es].
    apply (stop_move _ n0 i pc0 p p' (Some (pc' p)) P Lp Es). intros n' P' E'.
    eapply can_trans; [by apply (C p)|]. intros n1 [P1 L1]. apply can_now. split; [done|]. by rewrite L1, E', length_insert. }
  assert (C : forall n, at_points (MPeer i PClose) ADone n -> _) by
    (intros n0 P; apply (S n0 PClose (fun _ => PJoin) P); [by intros p; eexists|intros _ n' P'; exact (J n' P')]).
  assert (H : forall n, at_points (MPeer i PShut) ADone n -> _) by
    (intros n0 P; apply (S n0 PShut (fun _ => PClose) P); [by intros p; eexists|intros _ n' P'; exact (C n' P')]).
  assert (F : forall n, at_points (MPeer i PFlag) ADone n -> _) by
    (intros n0 P; apply (S n0 PFlag (fun _ => PShut) P); [by intros p; eexists|intros _ n' P'; exact (H n' P')]).
  intros P. destruct pc; [|exact (F n P)|exact (H n P)|exact (C n P)|exact (J n P)].
  apply (S n PTest (fun p => if p_running p then PFlag else PJoin) P); [by intros p; eexists|].
  intros p n' P'. destruct (p_running p); [exact (F n' P')|exact (J n' P')].
Qed.

(** All peers are stopped, from peer [i] on. *)
Lemma stop_peers k : forall n i,
  at_points (MNext i) ADone n -> (length (n_peers n) - i <= k)%nat -> can_reach (at_points MDone ADone) n.
Proof.
  induction k as [|k IH]; intros n i P Hk; pose proof P as [I K Em Ea].
  - pose proof (main_next_inv n i I Em) as I'. rewrite bool_decide_false in I' by lia.
    eapply (can_step _ Main); [done|unfold node_step, main_step; rewrite K, Em, bool_decide_false by lia; reflexivity|].
    apply can_now. by split.
  - pose proof (main_next_inv n i I Em) as I'. case_bool_decide as Hi.
    + eapply (can_step _ Main); [done|unfold node_step, main_step; rewrite K, Em, bool_decide_true by lia; reflexivity|].
      eapply can_trans; [apply (stop_peer i _ PTest); by split|]. intros n' [P' L']. cbn in L'. apply (IH n' (S i)); [done|lia].
    + eapply (can_step _ Main); [done|unfold node_step, main_step; rewrite K, Em, bool_decide_false by lia; reflexivity|].
      apply can_now. by split.
Qed.

(** The end of [stop], or what keeps it from there. *)
Definition stopped (n : node) : Prop := n_main n = MDone \/ hindered n.

Lemma stop_from_lock apc n : at_points MLock apc n -> can_reach stopped n.
Proof.
  intros P. eapply can_trans; [by apply (free_of_casts MLock apc)|]. intros n1 [Hk|[P1 M1]]; [apply can_now; by right|].
  pose proof P1 as [I K Em Ea]. pose proof (inv_late n1 I) as Hd. rewrite Em in Hd. specialize (Hd eq_refl).
  assert (M : n_mutex n1 = None).
  { destruct (n_mutex n1) as [[| |j]|] eqn:Mo; [| |by destruct (M1 j)|done]; apply (inv_mutex n1 I) in Mo; cbn in Mo;
      [by rewrite Em in Mo|by rewrite Hd in Mo]. }
  pose proof (main_lock_inv n1 I Em M) as I'.
  eapply (can_step _ Main); [done|unfold node_step, main_step; rewrite K, Em, M; reflexivity|].
  eapply can_trans; [apply (stop_peers (length (n_peers n1)) _ 0); [by split|cbn; lia]|].
  intros n' [_ _ Em' _]. apply can_now. by left.
Qed.

Lemma stop_from_join apc n : at_points MJoin apc n -> can_reach stopped n.
Proof.
  intros P. eapply can_trans; [by apply (free_of_casts MJoin apc)|]. intros n1 [Hk|[P1 M1]]; [apply can_now; by right|].
  eapply can_trans; [apply (accept_ends 6 n1 apc P1); [destruct apc; cbn; lia|done]|].
  intros n2 P2. pose proof P2 as [I K Em Ea].
  assert (E : main_step n2 = Some (at_main n2 MLock)) by (unfold main_step; by rewrite Em, Ea).
  eapply (can_step _ Main _ (at_main n2 MLock)); [done|unfold node_step; by rewrite K|].
  apply (stop_from_lock ADone). split; try done. by eapply main_inv.
Qed.

Lemma stop_early pc pc' n :
  at_points pc (n_accept n) n -> (forall m, n_main m = pc -> exists m', main_step m = Some m' /\ n_main m' = pc' /\ n_killed m' = n_killed m) ->
  (forall m, at_points pc' (n_accept m) m -> can_reach stopped m) -> can_reach stopped n.
Proof.
  intros [I K Em _] S C. destruct (S n Em) as (m' & E & Em' & K').
  eapply (can_step _ Main _ m'); [done|unfold node_step; by rewrite K|]. apply C. split; try done; [by eapply main_inv|congruence].
Qed.

Lemma stop_completes_inv n : inv n -> n_killed n = false -> can_reach stopped n.
Proof.
  intros I K.
  assert (J : forall m, at_points MJoin (n_accept m) m -> can_reach stopped m) by (intros m; apply stop_from_join).
  assert (C : forall m, at_points MClose (n_accept m) m -> can_reach stopped m).
  { intros m P. apply (stop_early MClose MJoin m P); [|done]. intros m0 E. unfold main_step. rewrite E. by eexists. }
  assert (H : forall m, at_points MShut (n_accept m) m -> can_reach stopped m).
  { intros m P. apply (stop_early MShut MClose m P); [|done]. intros m0 E. unfold main_step. rewrite E. by eexists. }
  assert (R : forall m, at_points MRun (n_accept m) m -> can_reach stopped m).
  { intros m P. apply (stop_early MRun MShut m P); [|done]. intros m0 E. unfold main_step. rewrite E. by eexists. }
  pose proof (inv_late n I) as L. destruct (n_main n) as [| | | | |i pc|i|] eqn:Em.
  - by apply R.
  - by apply H.
  - by apply C.
  - by apply J.
  - by apply (stop_from_lock (n_accept n)).
  - eapply can_trans; [apply (stop_peer i n pc); split; solve [done|by apply L]|]. intros n1 [P1 _].
    eapply can_trans; [by apply (stop_peers (length (n_peers n1)) n1 (S i) P1); lia|]. intros n2 [_ _ E2 _]. apply can_now. by left.
  - eapply can_trans; [apply (stop_peers (length (n_peers n)) n i); [split; solve [done|by apply L]|lia]|].
    intros n2 [_ _ E2 _]. apply can_now. by left.
  - apply can_now. by left.
Qed.

(** ** What keeps [stop()] from its end *)

(** A send that waits goes on waiting until the remote end reads. *)
Lemma stalled_peer j i k f n n' :
  (forall p p', f p = Some p' -> k = i -> send_step p = Waits -> send_step p' = Waits) ->
  stalled j i n -> on_peer k f n = Some n' -> inv n' -> stalled j i n'.
Proof.
  intros F [I K Nm Ej (p & Lp & Es)] E I'. unfold on_peer in E. destruct (n_peers n !! k) as [q|] eqn:Lq; [|done].
  destruct (f q) as [q'|] eqn:Ef; [|done]. injection E as <-. split; try done. cbn.
  destruct (decide (k = i)) as [->|N].
  - exists q'. split; [apply list_lookup_insert_eq; by eapply lookup_lt_Some|]. apply (F q); [done..|congruence].
  - exists p. by rewrite list_lookup_insert_ne.
Qed.

Lemma stalled_main j i n n' : stalled j i n -> main_step n = Some n' -> inv n' -> stalled j i n'.
Proof.
  intros [I K Nm Ej (p & Lp & Es)] E I'.
  assert (M : n_mutex n = Some (OCast j)) by (apply (inv_mutex n I (OCast j)); by exists i).
  assert (Ni : main_in (n_main n) = false).
  { destruct (main_in (n_main n)) eqn:Mi; [|done]. apply (main_holds n I) in Mi. congruence. }
  unfold main_step in E. destruct (n_main n) as [| | | | |k pc|k|] eqn:Em; try done.
  4: destruct (n_accept n); try done. 5: by rewrite M in E.
  all: injection E as <-; split; try done; by exists p.
Qed.

Lemma stalled_accept j i conn n n' : stalled j i n -> accept_step conn n = Some n' -> inv n' -> stalled j i n'.
Proof.
  intros [I K Nm Ej (p & Lp & Es)] E I'.
  assert (A : forall k f q, (send_step q = Waits -> send_step (f q) = Waits) -> n_peers n !! i = Some q -> send_step q = Waits ->
    exists q', alter f k (n_peers n) !! i = Some q' /\ send_step q' = Waits).
  { intros k f q F Lq Eq. destruct (decide (k = i)) as [->|N]; [|exists q; by rewrite list_lookup_alter_ne].
    exists (f q). rewrite list_lookup_alter_eq, Lq. auto. }
  assert (W : send_step (set_running true p) = Waits /\ send_step (spawn p) = Waits) by (clear -Es; by destruct p as [run [] [] pc jn e []]).
  unfold accept_step in E. cbn zeta in E. destruct (n_accept n) as [| | | | |k|k|]; try done.
  2: destruct conn; [destruct (match n_listen n with Open => _ | _ => _ end); [|done]|].
  4: destruct (n_mutex n); [done|].
  all: injection E as <-; split; try done; cbn; try (by exists p).
  - exists p. split; [by apply lookup_app_l_Some|done].
  - by apply (A k (set_running true) p); [intros _; apply W|..].
  - by apply (A k spawn p); [intros _; apply W|..].
Qed.

Lemma stalled_cast j i k n n' : stalled j i n -> cast_step k n = Some n' -> False.
Proof.
  intros [I K Nm Ej (p & Lp & Es)] E.
  assert (M : n_mutex n = Some (OCast j)) by (apply (inv_mutex n I (OCast j)); by exists i).
  unfold cast_step in E. destruct (n_casts n !! k) as [[|l]|] eqn:Ek; [by rewrite M in E| |done].
  assert (M' : n_mutex n = Some (OCast k)) by (apply (inv_mutex n I (OCast k)); by exists l).
  assert (k = j) as -> by congruence. rewrite Ek in Ej. injection Ej as ->. by rewrite Lp, Es in E.
Qed.

Lemma stalled_step m j i n n' : stalled j i n -> node_step m n = Some n' -> m <> Drains i -> stalled j i n'.
Proof.
  intros St E N. pose proof St as [I K Nm Ej _].
  assert (K' : n_killed n' = false -> inv n') by (by apply (node_step_inv m n)).
  unfold node_step in E. rewrite K in E. destruct m as [|conn|k r|k|k|k|k].
  - apply (stalled_main j i n n' St E). by eapply main_inv.
  - apply (stalled_accept j i conn n n' St E). by eapply accept_inv.
  - apply (stalled_peer j i k (recv_step r) n); [|done..|]. 2: eapply on_peer_inv; [|done|exact E]; intros s p p'; apply recv_step_ok.
    intros p p' Er _ Es. destruct p as [run fd cn [] jn e f]; try done; destruct r, fd, cn, f; try done; by injection Er as <-.
  - by destruct (stalled_cast j i k n n').
  - apply (stalled_peer j i k remote_closes n); [|done..|]. 2: eapply on_peer_inv; [|done|exact E]; intros s p p'; apply remote_closes_ok.
    intros [run fd [] pc jn e []] p' Er _ Es; try done; injection Er as <-; by destruct fd.
  - apply (stalled_peer j i k (fun p => Some (set_full true p)) n); [|done..|]. 2: eapply on_peer_inv; [|done|exact E]; by intros s p p' [= <-].
    intros [run fd cn pc jn e f] p' [= <-] _ Es. by destruct fd, cn, f.
  - apply (stalled_peer j i k (fun p => Some (set_full false p)) n); [|done..|]. 2: eapply on_peer_inv; [|done|exact E]; by intros s p p' [= <-].
    congruence.
Qed.

Lemma stalled_run ms j i : forall n n',
  stalled j i n -> ~ In (Drains i) ms -> run_moves ms n = Some n' -> stalled j i n'.
Proof.
  induction ms as [|m ms IH]; intros n n' St N E; cbn in *; [by injection E as <-|].
  destruct (node_step m n) as [n1|] eqn:E1; [|done]. apply (IH n1); [|tauto|done]. apply (stalled_step m j i n n1 St E1). intros ->. tauto.
Qed.

(** What the threads do to a peer by themselves. *)
Record kept_by_threads (P : peer -> Prop) : Prop := {
  kept_fresh : P fresh_peer;
  kept_running p b : P p -> P (set_running b p);
  kept_spawn p : P p -> P (spawn p);
  kept_recv p p' : recv_step Nothing p = Some p' -> P p -> P p';
  kept_send p p' : send_step p = Sent p' -> P p -> P p';
  kept_stop pc p p' pc' : stop_step pc p = Some (p', pc') -> P p -> P p';
}.

Lemma internal_keeps P m n n' :
  kept_by_threads P -> internal m -> node_step m n = Some n' -> Forall P (n_peers n) -> Forall P (n_peers n').
Proof.
  intros KP Im E F. unfold node_step in E. destruct (n_killed n); [done|].
  assert (A : forall f k, (forall p, P p -> P (f p)) -> Forall P (alter f k (n_peers n))).
  { intros f k Hf. apply Forall_alter; [done|]. intros p Lp _. apply Hf. rewrite Forall_lookup in F. by eapply F. }
  assert (U : forall i p p', n_peers n !! i = Some p -> (P p -> P p') -> Forall P (<[i := p']> (n_peers n))).
  { intros i p p' Lp Hp. apply Forall_insert; [done|]. apply Hp. rewrite Forall_lookup in F. by eapply F. }
  destruct m as [|[]|i []|j|i|i|i]; try done.
  - unfold main_step in E. destruct (n_main n) as [| | | | |i pc|i|]; try done.
    4: destruct (n_accept n); try done. 5: destruct (n_mutex n); try done.
    6: { destruct (n_peers n !! i) as [p|] eqn:Lp; [|done]. destruct (stop_step pc p) as [[p' pc']|] eqn:Es; [|done].
         assert (H : P p -> P p') by (by eapply kept_stop). destruct pc'; injection E as <-; cbn; by eapply U. }
    6: destruct (bool_decide _).
    all: by injection E as <-.
  - unfold accept_step in E. cbn zeta in E. destruct (n_accept n) as [| | | | |k|k|]; try done.
    3: destruct (n_mutex n); [done|].
    all: injection E as <-; cbn; try done.
    + apply Forall_app. split; [done|]. constructor; [apply KP|done].
    + apply A. intros p. by apply kept_running.
    + apply A. intros p. by apply kept_spawn.
  - unfold on_peer in E. destruct (n_peers n !! i) as [p|] eqn:Lp; [|done].
    destruct (recv_step Nothing p) as [p'|] eqn:Er; [|done]. injection E as <-. cbn. eapply U; [done|]. by eapply kept_recv.
  - unfold cast_step in E. destruct (n_casts n !! j) as [[|i]|]; [destruct (n_mutex n); [done|]; by injection E as <-| |done].
    destruct (n_peers n !! i) as [p|] eqn:Lp; [|by injection E as <-]. destruct (send_step p) as [p'| |] eqn:Es; [|done|by injection E as <-].
    injection E as <-. cbn. eapply U; [done|]. by eapply kept_send.
Qed.

Lemma internal_run P ms : forall n n',
  kept_by_threads P -> Forall internal ms -> run_moves ms n = Some n' -> Forall P (n_peers n) -> Forall P (n_peers n').
Proof.
  induction ms as [|m ms IH]; intros n n' KP Fi E F; cbn in E; [by injection E as <-|].
  destruct (node_step m n) as [n1|] eqn:E1; [|done]. inversion Fi as [|? ? Im Fi']; subst.
  apply (IH n1 n' KP Fi' E). by eapply internal_keeps.
Qed.

Ltac kept := split; [done|by intros []..| | |];
  [intros [run fd cn [] jn e f] p'; try done; destruct fd, cn; try done; by intros [= <-]
  |intros [run fd cn pc jn e f] p'; destruct fd, cn, f; try done; by intros [= <-]
  |intros [] [run fd cn pc jn e f] p' pc'; cbn; repeat case_match; try done; by intros [= <- <-]].

Lemma not_full_kept : kept_by_threads (fun p => p_full p = false).
Proof. kept. Qed.

Lemma up_kept : kept_by_threads (fun p => p_conn p = Up).
Proof. kept. Qed.

(** SIGPIPE needs a remote end that has gone. *)
Lemma up_not_killed m n n' :
  inv n -> Forall (fun p => p_conn p = Up) (n_peers n) -> node_step m n = Some n' -> n_killed n' = false.
Proof.
  intros I F E. unfold node_step in E. destruct (n_killed n) eqn:K; [done|].
  destruct m as [|conn|i r|j|i|i|i]; try (unfold on_peer in E; repeat case_match; simplify_eq; done).
  - unfold main_step in E. repeat case_match; simplify_eq; done.
  - unfold accept_step in E. repeat case_match; simplify_eq; done.
  - unfold cast_step in E. destruct (n_casts n !! j) as [[|i]|] eqn:Ej; [destruct (n_mutex n); [done|]; by injection E as <-| |done].
    destruct (n_peers n !! i) as [p|] eqn:Lp; [|by injection E as <-].
    destruct (send_step p) as [p'| |] eqn:Es; [by injection E as <-|done|]. exfalso.
    rewrite Forall_lookup in F. pose proof (F i p Lp) as Hu. cbn in Hu. pose proof (inv_peers n I i p Lp) as Hp.
    assert (Hs : stage_of n i = SClose).
    { destruct p as [run [] cn pc jn e f]; cbn in Hu; subst cn; [destruct f; done| |done].
      destruct (stage_of n i), run, pc, jn; done. }
    assert (Mi : main_in (n_main n) = true).
    { unfold stage_of, accept_stage in Hs. destruct (n_main n); cbn in *; repeat case_match; done. }
    apply (main_holds n I) in Mi. assert (M : n_mutex n = Some (OCast j)) by (apply (inv_mutex n I (OCast j)); by exists i). congruence.
Qed.

Lemma up_run ms : forall n n',
  inv n -> n_killed n = false -> Forall internal ms -> Forall (fun p => p_conn p = Up) (n_peers n) ->
  run_moves ms n = Some n' -> n_killed n' = false.
Proof.
  induction ms as [|m ms IH]; intros n n' I K Fi F E; cbn in E; [by injection E as <-|].
  destruct (node_step m n) as [n1|] eqn:E1; [|done]. inversion Fi as [|? ? Im Fi']; subst.
  pose proof (up_not_killed m n n1 I F E1) as K1. apply (IH n1); try done; [by eapply node_step_inv|].
  by apply (internal_keeps _ m n n1 up_kept).
Qed.

(** ** Properties *)

(** C25: [P2PNode::stop] leaves nothing running. Whatever connections came in,
    whatever was received or broadcast, and in whatever order the threads
    took their turns: once [stop()] has returned, the accept thread and every
    receiver thread have ended and been joined, the listening socket is
    closed, and each peer's descriptor is closed, unless the remote end had
    ended the peer's receive loop before, by ending the connection or by a
    message without payload: then it may still be open. *)
Theorem node_stop_quiesces (listening : bool) (seeds casts : nat) (ms : list move) (n : node) :
  run_moves ms (started listening seeds casts) = Some n -> n_killed n = false -> n_main n = MDone ->
  n_accept n = ADone /\ n_listen n = Closed /\
  Forall (fun p => p_recv p = RDone /\ p_joinable p = false /\ p_running p = false /\
                   (p_fd p = Closed \/ p_fd p = Open /\ (p_conn p <> Up \/ p_empty p = true))) (n_peers n).
Proof.
  intros E K Em. pose proof (run_moves_inv ms _ n (started_inv listening seeds casts) eq_refl E K) as I.
  pose proof (inv_late n I) as L. pose proof (inv_listen n I) as Hl. unfold listen_ok in Hl. rewrite Em in L, Hl.
  split; [by apply L|]. split; [done|]. apply Forall_lookup. intros i p Lp.
  pose proof (inv_peers n I i p Lp) as Hp. unfold stage_of in Hp. rewrite Em in Hp. clear -Hp.
  peer_cases p; cbn; intuition done.
Qed.

(** A connection comes in. *)
Definition connects : list move := replicate 7 (Accept true).

(** [stop()] up to the peers. *)
Definition stops : list move := [Main; Accept false; Main; Main; Main; Main].

(** One seed, one connection that comes in and sends a message without
    payload, then [stop]. *)
Definition sample_moves : list move :=
  connects ++ [Recv 1 Data; Recv 1 Data; Recv 1 Empty; Recv 1 Nothing] ++
  stops ++ replicate 5 Main ++ replicate 2 (Recv 0 Nothing) ++ replicate 5 Main.

Lemma node_stop_quiesces_witness :
  exists n, run_moves sample_moves (started true 1 1) = Some n /\ n_main n = MDone /\ n_accept n = ADone.
Proof.
  eexists. split; [vm_compute; reflexivity|]. split; [reflexivity|].
  apply (node_stop_quiesces true 1 1 sample_moves); [vm_compute; reflexivity|reflexivity|reflexivity].
Defined.



(** A remote end that does not read can hold up [stop()] for good: it connects
    and never reads, a broadcast waits in [::send] with [peersMutex_], and
    [stop()] waits for that mutex. *)
Theorem unread_send_stalls_stop (casts : nat) :
  exists ms n, run_moves ms (started true 0 (S casts)) = Some n /\ n_main n = MLock /\
    forall ms' n', ~ In (Drains 0) ms' -> run_moves ms' n = Some n' -> n_main n' = MLock.
Proof.
  exists (connects ++ [Fills 0; Cast 0] ++ removelast stops). eexists. split; [vm_compute; reflexivity|]. split; [reflexivity|].
  intros ms' n' N E.
  assert (St : stalled 0 0 (mkNodeT false Closed true (Some (OCast 0)) [mkPeerT true Open Up RTest true false true] MLock ADone
                              (BSend 0 :: replicate casts BOut) false)).
  { split; try done; [|by eexists]. eapply (run_moves_inv (connects ++ [Fills 0; Cast 0] ++ removelast stops) (started true 0 (S casts)));
      [apply started_inv|done|vm_compute; reflexivity|done]. }
  clear -St N E. revert St E.
  enough (G : forall n, stalled 0 0 n -> n_main n = MLock -> run_moves ms' n = Some n' -> n_main n' = MLock) by (intros St; by apply G).
  induction ms' as [|m ms' IH]; intros n St Em E; cbn in E; [by injection E as <-|].
  destruct (node_step m n) as [n1|] eqn:E1; [|done]. cbn in N. apply (IH ltac:(tauto) n1); [|..|done].
  - apply (stalled_step m 0 0 n n1 St E1). intros ->. tauto.
  - pose proof (stalled_step m 0 0 n n1 St E1 ltac:(intros ->; tauto)) as St1. clear N IH.
    destruct St as [I K _ Ej _]. assert (M : n_mutex n = Some (OCast 0)) by (apply (inv_mutex n I (OCast 0)); by exists 0%nat).
    unfold node_step in E1. rewrite K in E1. destruct m; try (unfold on_peer in E1; repeat case_match; simplify_eq; done).
    + unfold main_step in E1. by rewrite Em, M in E1.
    + unfold accept_step in E1. repeat case_match; simplify_eq; done.
    + unfold cast_step in E1. repeat case_match; simplify_eq; done.
Qed.

(** A remote peer can end the process. It connects and closes again; its
    receiver thread ends, but the peer stays in the list: of the next two
    broadcasts the first gets a reset for an answer and the second SIGPIPE. *)
Theorem departed_peer_kills_node (casts : nat) :
  exists ms n, run_moves ms (started true 0 (S casts)) = Some n /\ n_main n = MRun /\ n_killed n = true.
Proof.
  exists (connects ++ [RemoteCloses 0; Recv 0 Nothing; Recv 0 Nothing; Recv 0 Nothing] ++ replicate 5 (Cast 0)).
  eexists. split; [vm_compute; reflexivity|]. split; reflexivity.
Qed.

(** Descriptors leak. A peer whose remote end closed first clears its own
    flag, and [Peer::stop] closes the descriptor only under the flag: after
    [stop()] it is still open. *)
Theorem departed_peer_leaks_descriptor :
  exists ms n, run_moves ms (started true 0 0) = Some n /\ n_main n = MDone /\
    n_peers n = [mkPeerT false Open Fin RDone false false false].
Proof.
  exists (connects ++ [RemoteCloses 0; Recv 0 Nothing; Recv 0 Nothing; Recv 0 Nothing] ++ stops ++ replicate 4 Main).
  eexists. split; [vm_compute; reflexivity|]. split; reflexivity.
Qed.

(** A socket that does not listen keeps a processor busy. The results of
    [bind] and [listen] are ignored; when the port is taken, the accept loop
    goes round without ever waiting. *)
Theorem failed_bind_spins (seeds casts k : nat) :
  run_moves (concat (replicate k [Accept false; Accept false])) (started false seeds casts) = Some (started false seeds casts) /\
  forall n, run_moves [Accept false] (started false seeds casts) = Some n -> node_step (Accept true) n = None.
Proof. split; [induction k as [|k IH]; [done|exact IH]|]. by intros n [= <-]. Qed.

(** A descriptor is used after it was closed: [Peer::stop] closes the socket
    before it joins the receiver, which may then call [recv] on the number of
    a closed, and perhaps reused, descriptor. *)
Theorem recv_after_close :
  exists ms n p, run_moves ms (started true 1 0) = Some n /\ n_peers n = [p] /\ p_fd p = Closed /\ p_recv p = RHeader.
Proof.
  exists ([Recv 0 Data] ++ stops ++ replicate 5 Main).
  eexists _, _. split; [vm_compute; reflexivity|]. split; [reflexivity|]. split; reflexivity.
Qed.
