(* ===== verification/Miner.v ===== *)
(** * Mining (src/src/miner.cpp, zk_mining_engine.cpp and headers)

    The miner works against an abstract engine, as the code's base class
    [MiningEngine] has it: the class below is that interface, its laws are
    what the miner relies on, and the proof-of-state engine is an instance. *)

From stdpp Require Import base list gmap numbers strings.
From Stdlib Require Import ZArith Lia.
From S2P Require Import Prelude Keccak Hash Rlp Address Mpt Keys Transaction Bloom Receipt State.
From S2P Require Import Zk Block Blockchain P2PMessage P2PPeer ZkSeeder P2PNode.

#[local] Open Scope Z_scope.
#[local] Open Scope act_scope.

(** ** The engine interface *)

(** mining_engine.hpp 7-13. The clock that a block's constructor reads is an
    argument of [buildBlockTemplate]. *)
Class MiningEngine : Type := {
  buildBlockTemplate : Z -> Blockchain -> res Block;
  validateMinedBlock : Block -> Blockchain -> bool;
}.

(** A template extends the chain it was built on, with a proof that
    verifies; what the engine validates verifies. *)
Class EngineLaws (ME : MiningEngine) : Prop := {
  template_fits now bc b l :
    last (chain_ bc) = Some l -> buildBlockTemplate now bc = Ok b ->
    blk_index b = zlen (chain_ bc) /\ blk_prevHash b = blk_hash l /\ verify (blk_proof b) = true;
  template_validates now bc b : buildBlockTemplate now bc = Ok b -> validateMinedBlock b bc = true;
  template_receipts now bc b : buildBlockTemplate now bc = Ok b -> blk_receipts b = [];
}.

(** ** The proof-of-state engine *)

Module ZkMiningEngine.

(** zk_mining_engine.cpp 5-32. The transactions run on a copy of the state. *)
Definition buildBlockTemplate (now : Z) (chain : Blockchain) : res Block :=
  let mempool := mempool_ chain in
  before ← root (state_ chain);
  let (temp, applied) := apply_all mempool (state_ chain) in
  _ ← applied;
  after ← root temp;
  let txRoot := computeTxRoot mempool in
  let proof := generate before after txRoot in
  prev ← back_hash (chain_ chain);
  let b := new_Block (zlen (chain_ chain)) prev before after txRoot proof now in
  Ok (attach b mempool (blk_receipts b) (blk_receiptsRoot b)).

(** zk_mining_engine.cpp 34-36. *)
Definition validateMinedBlock (block : Block) (chain : Blockchain) : bool := verify (blk_proof block).

#[global] Instance engine : MiningEngine := {|
  Miner.buildBlockTemplate := buildBlockTemplate;
  Miner.validateMinedBlock := validateMinedBlock;
|}.

(** The template in one equation. *)
Lemma template_inv now bc b :
  buildBlockTemplate now bc = Ok b ->
  exists before after temp l,
    root (state_ bc) = Ok before /\ apply_all (mempool_ bc) (state_ bc) = (temp, Ok ()) /\ root temp = Ok after /\
    last (chain_ bc) = Some l /\
    b = attach (new_Block (zlen (chain_ bc)) (blk_hash l) before after (computeTxRoot (mempool_ bc))
                  (generate before after (computeTxRoot (mempool_ bc))) now) (mempool_ bc) [] [].
Proof.
  unfold buildBlockTemplate. intros H. apply bind_Ok in H as (before & Eb & H).
  destruct (apply_all _ _) as [temp r] eqn:Ea. apply bind_Ok in H as ([] & -> & H).
  apply bind_Ok in H as (after & Ef & H). apply bind_Ok in H as (prev & Ep & H).
  unfold back_hash in Ep. destruct (last (chain_ bc)) as [l|] eqn:El; [|done]. injection Ep as <-.
  apply Ok_inj in H. subst b. by exists before, after, temp, l.
Qed.

#[global] Instance engine_laws : EngineLaws engine.
Proof.
  split; cbn.
  - intros now bc b l El H. destruct (template_inv now bc b H) as (before & after & temp & l' & _ & _ & _ & El' & ->).
    rewrite El in El'. injection El' as <-. split; [done|]. split; [done|]. apply generate_verifies.
  - intros now bc b H. destruct (template_inv now bc b H) as (before & after & temp & l' & _ & _ & _ & El' & ->).
    apply generate_verifies.
  - intros now bc b H. by destruct (template_inv now bc b H) as (before & after & temp & l' & _ & _ & _ & El' & ->).
Qed.

End ZkMiningEngine.

(** ** The miner *)

Section Miner.
Context {SK : Socket} {ME : MiningEngine}.

(** miner.hpp 11-33: the chain and the node that the miner holds references
    to. *)
Definition Miner : Type := Blockchain * P2PNode SK.

Definition on_chain {A} (m : act Blockchain A) : act Miner A := fun '(bc, node) =>
  let (bc, r) := m bc in ((bc, node), r).

Definition on_node (f : P2PNode SK -> res (P2PNode SK)) : act Miner unit := fun '(bc, node) =>
  match f node with
  | Ok node => ((bc, node), Ok ())
  | Throw w => ((bc, node), Throw w)
  | UB => ((bc, node), UB)
  | OutOfFuel => ((bc, node), OutOfFuel)
  end.

(** miner.cpp 25-27. *)
Definition getWork (now : Z) (m : Miner) : res Block := buildBlockTemplate now m.1.

(** miner.cpp 29-37. The answer of [addBlock] is dropped. *)
Definition submitWork (b : Block) : act Miner bool :=
  m <- act_self ;;
  if negb (validateMinedBlock b m.1) then act_ret false
  else
    on_chain (addBlock b) ;;
    on_node (fun node => broadcastNewBlock node b) ;;
    act_ret true.

(** One turn of the loop, miner.cpp 41-52. *)
Definition mine_once (now : Z) : act Miner unit :=
  act_catch
    (m <- act_self ;;
     block <- act_lift (buildBlockTemplate now m.1) ;;
     on_chain (addBlock block) ;;
     on_node (fun node => broadcastNewBlock node block)).

(** miner.cpp 39-56, run for as many turns as the clock has readings. *)
Fixpoint loop (clock : list Z) : act Miner unit :=
  match clock with
  | [] => act_ret ()
  | now :: clock' => mine_once now ;; loop clock'
  end.

(** ** Lemmas *)

Lemma toHex_no_receipts b : blk_receipts b = [] -> exists h, Block.toHex b = Ok h.
Proof. intros E. unfold Block.toHex, Block.rlpEncode. rewrite E. cbn. eauto. Qed.

Lemma broadcast_ok node b : blk_receipts b = [] -> exists node', @broadcastNewBlock SK node b = Ok node'.
Proof. intros E. unfold broadcastNewBlock. destruct (toHex_no_receipts b E) as [h ->]. cbn. eauto. Qed.

Lemma mine_once_extends {EL : EngineLaws ME} now bc node b :
  chain_ bc <> [] -> buildBlockTemplate now bc = Ok b ->
  exists node', mine_once now (bc, node)
    = ((mkBlockchain (chain_ bc ++ [b]) (state_ bc) (mempool_ bc) (chainId_ bc), node'), Ok ()).
Proof.
  intros N E. destruct (back_hash_last _ N) as (l & El & _).
  destruct (broadcast_ok node b (template_receipts _ _ _ E)) as [node' En]. exists node'.
  unfold mine_once, act_catch, act_bind, act_self, act_lift, on_chain, on_node. cbn [fst].
  rewrite E. rewrite (addBlock_unfold b bc l El), decide_True by (by apply (template_fits now)).
  rewrite En. reflexivity.
Qed.

End Miner.

(** With the proof-of-state engine, a template exists when the pool can be paid. *)
Lemma zk_template bc now temp :
  chain_ bc <> [] -> state_ok (state_ bc) -> Forall tx_ok (mempool_ bc) ->
  apply_all (mempool_ bc) (state_ bc) = (temp, Ok ()) ->
  exists b, ZkMiningEngine.buildBlockTemplate now bc = Ok b /\ blk_transactions b = mempool_ bc /\
    root (state_ bc) = Ok (blk_stateBefore b) /\ root temp = Ok (blk_stateAfter b).
Proof.
  intros N S O E. destruct (back_hash_last _ N) as (l & El & Eb).
  assert (S' : state_ok temp) by (pose proof (apply_all_inv _ _ S O) as [I _]; by rewrite E in I).
  unfold ZkMiningEngine.buildBlockTemplate. rewrite !root_trie by done. cbn [mbind res_bind]. rewrite E.
  cbn [mbind res_bind]. rewrite !root_trie by done. cbn [mbind res_bind]. rewrite Eb. cbn [mbind res_bind].
  eexists. split; [reflexivity|]. done.
Qed.

(** ** Properties *)

(** Mining against the engine interface. With any engine whose templates
    extend the chain, one turn of the miner's loop on a reachable chain
    appends the template, keeps the chain linked, and changes neither the
    accounts nor the pool. *)
Theorem miner_extends_chain {SK : Socket} {ME : MiningEngine} {EL : EngineLaws ME} (g : GenesisConfig)
    (bc : Blockchain) (node : P2PNode SK) (now : Z) (b : Block) :
  genesis_ok g -> reachable g bc -> buildBlockTemplate now bc = Ok b ->
  exists bc' node', mine_once now (bc, node) = ((bc', node'), Ok ()) /\
    chain_ bc' = chain_ bc ++ [b] /\ linked (chain_ bc') /\ reachable g bc' /\
    state_ bc' = state_ bc /\ mempool_ bc' = mempool_ bc.
Proof.
  intros G R E. destruct (reachable_ok g bc G R) as [N _ _ _ _ _].
  destruct (mine_once_extends now bc node b N E) as (node' & Em).
  destruct (back_hash_last _ N) as (l & El & _).
  assert (R' : reachable g (mkBlockchain (chain_ bc ++ [b]) (state_ bc) (mempool_ bc) (chainId_ bc))).
  { eapply reach_step; [exact R|]. pose proof (step_addBlock bc b) as St.
    rewrite (addBlock_unfold b bc l El), decide_True in St by (by apply (template_fits now)). exact St. }
  eexists _, node'. split; [exact Em|]. split; [done|]. split; [|done].
  by destruct (reachable_ok g _ G R').
Qed.

Lemma miner_extends_chain_witness :
  exists b bc' node', @mine_once TestSocket.stream ZkMiningEngine.engine 5 (SampleChain.pending, mkNode 30303 true Sample.key [])
      = ((bc', node'), Ok ()) /\ chain_ bc' = chain_ SampleChain.pending ++ [b].
Proof.
  destruct (reachable_ok _ _ SampleChain.genesis_valid SampleChain.pending_reachable) as [N _ S O _ _].
  destruct (apply_all_cases (mempool_ SampleChain.pending) (state_ SampleChain.pending)) as [[s' E]|(s' & E & _)];
    [|exfalso; apply (f_equal snd) in E; vm_compute in E; discriminate E].
  destruct (zk_template SampleChain.pending 5 s' N S O E) as (b & Eb & _). exists b.
  destruct (@miner_extends_chain TestSocket.stream ZkMiningEngine.engine _ SampleChain.genesis SampleChain.pending
              (mkNode 30303 true Sample.key []) 5 b SampleChain.genesis_valid SampleChain.pending_reachable Eb)
    as (bc' & node' & Em & Ec & _).
  exists bc', node'. split; [exact Em|exact Ec].
Defined.

(** The miner's loop never settles a transaction. With the proof-of-state
    engine and a pool that can be paid, each turn of the loop appends one
    more block with the same pending transactions and the same state roots,
    while the accounts and the pool stay as they are, for ever. *)
Theorem miner_never_settles {SK : Socket} (g : GenesisConfig) (bc : Blockchain) (node : P2PNode SK)
    (temp : State) (clock : list Z) :
  genesis_ok g -> reachable g bc -> apply_all (mempool_ bc) (state_ bc) = (temp, Ok ()) ->
  exists bs node',
    @loop SK ZkMiningEngine.engine clock (bc, node)
      = ((mkBlockchain (chain_ bc ++ bs) (state_ bc) (mempool_ bc) (chainId_ bc), node'), Ok ()) /\
    length bs = length clock /\
    Forall (fun b => blk_transactions b = mempool_ bc /\ root (state_ bc) = Ok (blk_stateBefore b) /\
                     root temp = Ok (blk_stateAfter b)) bs.
Proof.
  intros G R E. revert bc node R E. induction clock as [|now clock IH]; intros bc node R E.
  { exists [], node. rewrite app_nil_r. split; [by destruct bc|]. by split. }
  destruct (reachable_ok g bc G R) as [N _ S O _ _].
  destruct (zk_template bc now temp N S O E) as (b & Eb & F).
  destruct (@mine_once_extends SK ZkMiningEngine.engine _ now bc node b N Eb) as (node1 & Em).
  set (bc1 := mkBlockchain (chain_ bc ++ [b]) (state_ bc) (mempool_ bc) (chainId_ bc)) in *.
  assert (R1 : reachable g bc1).
  { eapply reach_step; [exact R|]. destruct (back_hash_last _ N) as (l & El & _).
    pose proof (step_addBlock bc b) as St.
    rewrite (addBlock_unfold b bc l El), decide_True in St by (by apply (@template_fits ZkMiningEngine.engine _ now)).
    exact St. }
  destruct (IH bc1 node1 R1 E) as (bs & node' & Er & Lr & Fr).
  exists (b :: bs), node'. cbn [loop]. unfold act_bind. rewrite Em, Er. cbn [bc1 chain_ state_ mempool_ chainId_].
  split; [by rewrite <- app_assoc|]. split; [by cbn; rewrite Lr|]. by constructor.
Qed.

Lemma miner_never_settles_witness :
  exists bs node', @loop TestSocket.stream ZkMiningEngine.engine [5; 6; 7] (SampleChain.pending, mkNode 30303 true Sample.key [])
      = ((mkBlockchain (chain_ SampleChain.pending ++ bs) (state_ SampleChain.pending) (mempool_ SampleChain.pending)
            (chainId_ SampleChain.pending), node'), Ok ()) /\ length bs = 3%nat.
Proof.
  destruct (apply_all_cases (mempool_ SampleChain.pending) (state_ SampleChain.pending)) as [[s' E]|(s' & E & _)];
    [|exfalso; apply (f_equal snd) in E; vm_compute in E; discriminate E].
  destruct (@miner_never_settles TestSocket.stream SampleChain.genesis SampleChain.pending (mkNode 30303 true Sample.key [])
              s' [5; 6; 7] SampleChain.genesis_valid SampleChain.pending_reachable E) as (bs & node' & El & Eb & _).
  exists bs, node'. split; [exact El|exact Eb].
Defined.

(** Submitted work is acknowledged even when the chain refuses it. A
    block whose proof verifies but which does not extend the chain (a stale
    template, say) leaves the chain as it was, and [submitWork] still
    returns true. *)
Theorem submitWork_ignores_refusal {SK : Socket} (g : GenesisConfig) (bc : Blockchain) (node : P2PNode SK) (b : Block) :
  genesis_ok g -> reachable g bc -> verify (blk_proof b) = true -> blk_receipts b = [] ->
  blk_index b <> zlen (chain_ bc) ->
  exists node', @submitWork SK ZkMiningEngine.engine b (bc, node) = ((bc, node'), Ok true).
Proof.
  intros G R V Er Ni. destruct (reachable_ok g bc G R) as [N _ _ _ _ _].
  destruct (back_hash_last _ N) as (l & El & _). destruct (broadcast_ok node b Er) as [node' En]. exists node'.
  unfold submitWork, act_bind, act_self, on_chain, on_node. cbn [fst].
  change (validateMinedBlock b bc) with (verify (blk_proof b)). rewrite V. cbn [negb].
  rewrite (addBlock_unfold b bc l El), decide_False by tauto. rewrite En. reflexivity.
Qed.

Lemma submitWork_ignores_refusal_witness :
  exists node', @submitWork TestSocket.stream ZkMiningEngine.engine
      (mkBlock 7 [] [] [] [] [] SampleBlock.proof 0 [] 0 [] [] empty_bloom) (SampleChain.start, mkNode 30303 true Sample.key [])
    = ((SampleChain.start, node'), Ok true).
Proof.
  apply (@submitWork_ignores_refusal TestSocket.stream SampleChain.genesis);
    [apply SampleChain.genesis_valid|apply SampleChain.start_reachable|vm_compute; reflexivity|reflexivity|discriminate].
Defined.
