(* ===== verification/ServerThreads.v ===== *)
(** * The threads of the miner and of the RPC server (miner.cpp, rpc_server.cpp)

    [start] and [stop] of both, the loops their threads run and the flags
    and joins between them, statement by statement. What a turn of the miner
    does is in Miner.v, what a request does in RpcServer.v. *)

From stdpp Require Import base list numbers.
From Stdlib Require Import ZArith Lia.
From S2P Require Import Prelude.

#[local] Open Scope Z_scope.

(** ** The miner *)

Module MinerThread.

(** Where the thread is in miner.cpp 39-56: not created, at the test, in the
    body, asleep, ended. *)
Inductive loop_pc : Type := LNone | LTest | LTurn | LSleep | LDone.

(** Where the owner is: between calls, in [start] before the thread is made,
    in [stop] before and at the join. *)
Inductive caller_pc : Type := OIdle | OSpawn | OJoin.

(** miner.hpp 27-31. [m_turns] counts the turns that were begun;
    [m_terminated] is [std::terminate]. *)
Record miner : Type := mkMinerT {
  m_interval : Z;
  m_running : bool;
  m_loop : loop_pc;
  m_joinable : bool;
  m_owner : caller_pc;
  m_turns : nat;
  m_terminated : bool;
}.

(** miner.cpp 6-7, with the members' initial values. *)
Definition new_miner : miner := mkMinerT 1000 false LNone false OIdle 0 false.

(** miner.cpp 21-23. *)
Definition setInterval (ms : Z) (m : miner) : miner :=
  mkMinerT ms (m_running m) (m_loop m) (m_joinable m) (m_owner m) (m_turns m) (m_terminated m).

(** miner.cpp 9-13: the flag, then the thread. Assigning to a thread that is
    still joinable terminates the program. *)
Definition start_flag (m : miner) : miner :=
  mkMinerT (m_interval m) true (m_loop m) (m_joinable m) OSpawn (m_turns m) (m_terminated m).

(** miner.cpp 11. *)
Definition start_thread (m : miner) : miner :=
  if m_joinable m then mkMinerT (m_interval m) (m_running m) (m_loop m) (m_joinable m) OIdle (m_turns m) true
  else mkMinerT (m_interval m) (m_running m) LTest true OIdle (m_turns m) (m_terminated m).

(** miner.cpp 15-16. *)
Definition stop_flag (m : miner) : miner :=
  mkMinerT (m_interval m) false (m_loop m) (m_joinable m) OJoin (m_turns m) (m_terminated m).

(** miner.cpp 17: the join waits for the end of the loop. *)
Definition stop_join (m : miner) : option miner :=
  if m_joinable m then
    match m_loop m with
    | LDone => Some (mkMinerT (m_interval m) (m_running m) (m_loop m) false OIdle (m_turns m) (m_terminated m))
    | _ => None
    end
  else Some (mkMinerT (m_interval m) (m_running m) (m_loop m) (m_joinable m) OIdle (m_turns m) (m_terminated m)).

(** miner.cpp 39-56, one statement of the loop. *)
Definition loop_step (m : miner) : option miner :=
  let go pc turns := Some (mkMinerT (m_interval m) (m_running m) pc (m_joinable m) (m_owner m) turns (m_terminated m)) in
  match m_loop m with
  | LNone | LDone => None
  | LTest => if m_running m then go LTurn (S (m_turns m)) else go LDone (m_turns m)
  | LTurn => go LSleep (m_turns m)
  | LSleep => go LTest (m_turns m)
  end.

(** What the owner calls, and who goes next. *)
Inductive move : Type := CallStart | CallStop | CallSetInterval (ms : Z) | Owner | Loop.

Definition step (mv : move) (m : miner) : option miner :=
  if m_terminated m then None
  else
    match mv, m_owner m with
    | CallStart, OIdle => Some (start_flag m)
    | CallStop, OIdle => Some (stop_flag m)
    | CallSetInterval ms, OIdle => Some (setInterval ms m)
    | Owner, OSpawn => Some (start_thread m)
    | Owner, OJoin => stop_join m
    | Loop, _ => loop_step m
    | _, _ => None
    end.

Fixpoint run (mvs : list move) (m : miner) : option miner :=
  match mvs with
  | [] => Some m
  | mv :: mvs => match step mv m with Some m' => run mvs m' | None => None end
  end.

(** The thread exists exactly while it is joinable, and the loop runs on only
    while the flag is set or [stop] waits for it. *)
Definition thread_ok (m : miner) : bool :=
  match m_loop m, m_joinable m, m_owner m, m_running m with
  | LNone, true, _, _ => false
  | LNone, false, _, _ => true
  | LDone, true, OIdle, _ => false
  | LDone, _, _, _ => true
  | _, false, _, _ => false
  | _, true, OIdle, r => r
  | _, true, OSpawn, r => r
  | _, true, OJoin, r => negb r
  end.

Definition ok (m : miner) : bool :=
  m_terminated m || (thread_ok m && match m_owner m with OSpawn => m_running m | OJoin => negb (m_running m) | OIdle => true end &&
    (match m_owner m, m_running m, m_joinable m with OIdle, r, j => Bool.eqb r j | _, _, _ => true end)).

Lemma step_ok mv m m' : ok m = true -> step mv m = Some m' -> ok m' = true.
Proof.
  destruct m as [iv r l j o t tm]. destruct tm; [done|]. destruct mv; destruct r, l, j, o; cbn; intros H E; try done;
    injection E as <-; done.
Qed.

Lemma run_ok mvs : forall m m', ok m = true -> run mvs m = Some m' -> ok m' = true.
Proof.
  induction mvs as [|mv mvs IH]; intros m m' H E; cbn in E; [by injection E as <-|].
  destruct (step mv m) as [m1|] eqn:E1; [|done]. eapply IH; [|exact E]. by eapply step_ok.
Qed.

(** [Miner::stop] ends the loop. Between calls the thread exists exactly when
    the flag is set; after [stop()] has cleared the flag, no new turn begins;
    and from any point of its wait the loop reaches its end in at most three
    statements, so that the join returns. *)
Theorem miner_stop_joins (mvs : list move) (m : miner) :
  run mvs new_miner = Some m -> m_terminated m = false ->
  (m_owner m = OIdle -> m_running m = false -> m_loop m = LNone \/ m_loop m = LDone) /\
  (m_owner m = OJoin ->
     (forall m', step Loop m = Some m' -> m_turns m' = m_turns m) /\
     exists k m', (k <= 3)%nat /\ run (replicate k Loop ++ [Owner]) m = Some m' /\ m_owner m' = OIdle /\
       m_joinable m' = false /\ m_turns m' = m_turns m).
Proof.
  intros E T. pose proof (run_ok mvs new_miner m eq_refl E) as K. clear E. destruct m as [iv r l j o t tm]. cbn in T. subst tm.
  split.
  - cbn. intros -> ->. destruct l, j; cbn in K; auto; done.
  - cbn. intros ->. split; [destruct r, l, j; cbn in K |- *; try done; by intros m' [= <-]|].
    destruct r; [destruct l, j; cbn in K; done|].
    destruct l, j; cbn in K; try done;
      [exists 0%nat|exists 1%nat|exists 3%nat|exists 2%nat|exists 0%nat|exists 0%nat];
      (eexists; split; [lia|]; split; [reflexivity|]; done).
Qed.

Lemma miner_stop_joins_witness :
  exists m, run [CallStart; Owner; Loop; CallStop] new_miner = Some m /\ m_loop m = LTurn /\
    exists k m', (k <= 3)%nat /\ run (replicate k Loop ++ [Owner]) m = Some m' /\ m_turns m' = 1%nat.
Proof.
  eexists. split; [reflexivity|]. split; [reflexivity|].
  destruct (miner_stop_joins [CallStart; Owner; Loop; CallStop] _ eq_refl eq_refl) as [_ H].
  destruct (H eq_refl) as (_ & k & m' & L & E & _ & _ & T). exists k, m'. split; [exact L|]. split; [exact E|exact T].
Defined.

(** Starting a running miner ends the program: the second [start()] assigns
    to a thread that is still joinable. *)
Theorem second_start_terminates (mvs : list move) (m : miner) :
  run mvs new_miner = Some m -> m_terminated m = false -> m_owner m = OIdle -> m_running m = true ->
  exists m', run [CallStart; Owner] m = Some m' /\ m_terminated m' = true.
Proof.
  intros E T O R. pose proof (run_ok mvs new_miner m eq_refl E) as K. destruct m as [iv r l j o t tm]. cbn in *. subst.
  destruct j; [|destruct l; cbn in K; done]. eexists. split; reflexivity.
Qed.

Lemma second_start_terminates_witness :
  exists m', run [CallStart; Owner] new_miner ≫= run [CallStart; Owner] = Some m' /\ m_terminated m' = true.
Proof.
  destruct (second_start_terminates [CallStart; Owner] _ eq_refl eq_refl eq_refl eq_refl) as (m' & E & T).
  exists m'. split; [exact E|exact T].
Defined.

End MinerThread.

(** ** The RPC server *)

Module RpcThreads.

(** The listening socket: never made or forgotten ([listenSock_] is -1), open,
    shut down, or closed while the number is still stored. *)
Inductive sock : Type := NoSock | Opened | Shut | Stale.

(** Where the accept thread is in rpc_server.cpp 93-109: not created, at the
    loop's test, about to call [accept] with [listenSock_], at the test after
    an error, about to start a handler, ended. *)
Inductive accept_pc : Type := CNone | CTest | CAccept | CError | CSpawn | CDone.

(** Where the owner is in [start], rpc_server.cpp 35-73, and in [stop], 75-91. *)
Inductive owner_pc : Type := OIdle | OSocket | OBind | OListen | OThread | SFlag | SShut | SClose | SForget | SJoin | OStopped.

(** rpc_server.hpp 20-23; [r_handlers] is the number of detached threads that
    are in [handleClient]. *)
Record server : Type := mkServerT {
  r_running : bool;
  r_sock : sock;
  r_accept : accept_pc;
  r_joinable : bool;
  r_owner : owner_pc;
  r_handlers : nat;
}.

(** rpc_server.cpp 32-33. *)
Definition new_server : server := mkServerT false NoSock CNone false OIdle 0.

(** What [socket], [bind] and [listen] return. *)
Record calls : Type := mkCalls {
  socket_ok : bool;
  bind_ok : bool;
  listen_ok : bool;
}.

(** rpc_server.cpp 35-91, one statement of the owner. [start] and then [stop]
    are called once each. *)
Definition owner_step (w : calls) (s : server) : option server :=
  let go r k pc := Some (mkServerT r k (r_accept s) (r_joinable s) pc (r_handlers s)) in
  match r_owner s with
  | OIdle => go true (r_sock s) OSocket
  | OSocket => go (r_running s) (if socket_ok w then Opened else NoSock) OBind
  | OBind => go (r_running s) (r_sock s) (if socket_ok w && bind_ok w then OListen else SFlag)
  | OListen => go (r_running s) (r_sock s) (if listen_ok w then OThread else SFlag)
  | OThread => Some (mkServerT (r_running s) (r_sock s) CTest true SFlag (r_handlers s))
  | SFlag => go false (r_sock s) SShut
  | SShut =>
      match r_sock s with
      | NoSock => go (r_running s) NoSock SJoin
      | _ => go (r_running s) Shut SClose
      end
  | SClose => go (r_running s) Stale SForget
  | SForget => go (r_running s) NoSock SJoin
  | SJoin =>
      if r_joinable s then
        match r_accept s with
        | CDone => Some (mkServerT (r_running s) (r_sock s) CDone false OStopped (r_handlers s))
        | _ => None
        end
      else go (r_running s) (r_sock s) OStopped
  | OStopped => None
  end.

(** rpc_server.cpp 93-109, one statement of the accept thread; [conn] is a
    connection that [accept] returns. *)
Definition accept_step (conn : bool) (s : server) : option server :=
  let go pc h := Some (mkServerT (r_running s) (r_sock s) pc (r_joinable s) (r_owner s) h) in
  match r_accept s with
  | CNone | CDone => None
  | CTest => go (if r_running s then CAccept else CDone) (r_handlers s)
  | CAccept =>
      if conn then match r_sock s with Opened => go CSpawn (r_handlers s) | _ => None end
      else go CError (r_handlers s)
  | CError => go (if r_running s then CTest else CDone) (r_handlers s)
  | CSpawn => go CTest (S (r_handlers s))
  end.

(** A handler returns, rpc_server.cpp 134-135. *)
Definition handler_step (s : server) : option server :=
  match r_handlers s with
  | O => None
  | S h => Some (mkServerT (r_running s) (r_sock s) (r_accept s) (r_joinable s) (r_owner s) h)
  end.

Inductive move : Type := Owner | Accept (conn : bool) | Handler.

Definition step (w : calls) (mv : move) (s : server) : option server :=
  match mv with
  | Owner => owner_step w s
  | Accept conn => accept_step conn s
  | Handler => handler_step s
  end.

Fixpoint run (w : calls) (mvs : list move) (s : server) : option server :=
  match mvs with
  | [] => Some s
  | mv :: mvs => match step w mv s with Some s' => run w mvs s' | None => None end
  end.

(** The accept thread exists exactly from the end of a successful [start] on;
    it has ended only with the flag off; the socket follows the owner. *)
Definition ok (w : calls) (s : server) : bool :=
  match r_owner s with
  | OIdle => match r_sock s, r_accept s with NoSock, CNone => negb (r_joinable s) | _, _ => false end
  | OSocket => match r_sock s, r_accept s with NoSock, CNone => negb (r_joinable s) && r_running s | _, _ => false end
  | OBind => match r_sock s, r_accept s with
             | Opened, CNone => socket_ok w && negb (r_joinable s) && r_running s
             | NoSock, CNone => negb (socket_ok w) && negb (r_joinable s) && r_running s
             | _, _ => false end
  | OListen | OThread => match r_sock s, r_accept s with Opened, CNone => negb (r_joinable s) && r_running s | _, _ => false end
  | SFlag => match r_sock s, r_accept s with
             | (Opened | NoSock), CNone => negb (r_joinable s) && r_running s
             | Opened, CDone => false
             | Opened, _ => r_joinable s && r_running s
             | _, _ => false end
  | SShut => match r_sock s, r_accept s with
             | (Opened | NoSock), CNone => negb (r_joinable s) && negb (r_running s)
             | Opened, _ => r_joinable s && negb (r_running s)
             | _, _ => false end
  | SClose => match r_sock s, r_accept s with Shut, CNone => negb (r_joinable s) && negb (r_running s) | Shut, _ => r_joinable s && negb (r_running s) | _, _ => false end
  | SForget => match r_sock s, r_accept s with Stale, CNone => negb (r_joinable s) && negb (r_running s) | Stale, _ => r_joinable s && negb (r_running s) | _, _ => false end
  | SJoin => match r_sock s, r_accept s with NoSock, CNone => negb (r_joinable s) && negb (r_running s) | NoSock, _ => r_joinable s && negb (r_running s) | _, _ => false end
  | OStopped => match r_sock s, r_accept s with NoSock, (CNone | CDone) => negb (r_joinable s) && negb (r_running s) | _, _ => false end
  end.

Lemma server_step_ok w mv s s' : ok w s = true -> step w mv s = Some s' -> ok w s' = true.
Proof.
  destruct w as [w1 w2 w3]. destruct s as [r k a j o h]. destruct mv as [|conn|].
  - destruct o, k, a; cbn; try done; destruct r, j, w1; cbn; try done; destruct w2, w3; cbn; intros H [= <-]; done.
  - destruct o, k, a; cbn; try done; destruct r, j, conn; cbn; try done; intros H [= <-]; done.
  - destruct h as [|h]; [done|]. cbn. intros H [= <-]. done.
Qed.

Lemma server_run_ok w mvs : forall s s', ok w s = true -> run w mvs s = Some s' -> ok w s' = true.
Proof.
  induction mvs as [|mv mvs IH]; intros s s' H E; cbn in E; [by injection E as <-|].
  destruct (step w mv s) as [s1|] eqn:E1; [|done]. eapply IH; [|exact E]. by eapply server_step_ok.
Qed.

Lemma run_app w m1 m2 s : run w (m1 ++ m2) s = match run w m1 s with Some s' => run w m2 s' | None => None end.
Proof. revert s. induction m1 as [|m m1 IH]; intros s; [done|]. cbn. destruct (step w m s); [apply IH|done]. Qed.

(** The accept thread's way to its end once the flag is off. *)
Lemma accept_loop_ends w s :
  r_owner s = SJoin -> ok w s = true ->
  exists k s', run w (replicate k (Accept false) ++ [Owner]) s = Some s' /\ r_owner s' = OStopped.
Proof.
  destruct s as [r k a j o h]. cbn. intros -> K. destruct k, a, j, r; cbn in K; try done;
    [exists 0%nat|exists 1%nat|exists 2%nat|exists 1%nat|exists 2%nat|exists 0%nat]; (eexists; split; reflexivity).
Qed.

Lemma owner_goes w s : ok w s = true -> r_owner s <> SJoin -> r_owner s <> OStopped ->
  exists s', step w Owner s = Some s'.
Proof. destruct s as [r k a j o h]. destruct o; cbn; try done; intros _ _ _; try by eexists. by destruct k; eexists. Qed.

(** Owner statements before the join. *)
Definition owner_rank (o : owner_pc) : nat :=
  match o with
  | OIdle => 9 | OSocket => 8 | OBind => 7 | OListen => 6 | OThread => 5 | SFlag => 4 | SShut => 3 | SClose => 2 | SForget => 1 | _ => 0
  end.

Lemma owner_rank_step w s s' : step w Owner s = Some s' -> (owner_rank (r_owner s') < owner_rank (r_owner s))%nat \/ r_owner s = SJoin.
Proof.
  destruct s as [r k a j o h]. cbn. destruct o; cbn; try (intros [= <-]; cbn; lia); try (by right); try done.
  - destruct (socket_ok w && bind_ok w); intros [= <-]; cbn; lia.
  - destruct (listen_ok w); intros [= <-]; cbn; lia.
  - destruct k; intros [= <-]; cbn; lia.
Qed.

Lemma stop_completes w k : forall s,
  ok w s = true -> (owner_rank (r_owner s) <= k)%nat -> exists mvs s', run w mvs s = Some s' /\ r_owner s' = OStopped.
Proof.
  induction k as [|k IH]; intros s K Hk.
  - destruct (r_owner s) eqn:O; cbn in Hk; try lia; [|by exists [], s].
    destruct (accept_loop_ends w s O K) as (n & s' & E & H). eauto.
  - destruct (decide (owner_rank (r_owner s) <= k)%nat) as [L|L]; [by apply IH|].
    assert (N : r_owner s <> SJoin /\ r_owner s <> OStopped) by (destruct (r_owner s); cbn in L; (split; [done|done]) || lia).
    destruct (owner_goes w s K (proj1 N) (proj2 N)) as [s1 E1].
    destruct (owner_rank_step w s s1 E1) as [L1|?]; [|by destruct N].
    destruct (IH s1) as (mvs & s' & E & H); [by eapply server_step_ok|lia|]. exists (Owner :: mvs), s'. cbn [run]. by rewrite E1.
Qed.

(** [RpcServer::stop] after [start], whichever of the system calls failed and
    whatever clients did in between: once it has returned, the socket is
    closed and forgotten, the flag is off and the accept thread has ended and
    been joined, or was never made; and from every point of a run the owner
    can get there. *)
Theorem rpc_stop_joins (w : calls) (mvs : list move) (s : server) :
  run w mvs new_server = Some s ->
  (r_owner s = OStopped ->
     r_sock s = NoSock /\ r_running s = false /\ r_joinable s = false /\ (r_accept s = CDone \/ r_accept s = CNone)) /\
  (exists mvs' s', run w mvs' s = Some s' /\ r_owner s' = OStopped).
Proof.
  intros E. assert (K0 : ok w new_server = true) by done. pose proof (server_run_ok w mvs _ s K0 E) as K. split.
  - intros O. unfold ok in K. rewrite O in K. destruct s as [r k a j o h]. destruct k, a, j, r; cbn in *; try done; auto.
  - by apply (stop_completes w (owner_rank (r_owner s))).
Qed.

Lemma rpc_stop_joins_witness :
  exists s, run (mkCalls true true true) (replicate 5 Owner ++ [Accept true; Accept true; Accept true; Owner; Owner]) new_server = Some s /\
    r_owner s = SClose /\ exists mvs' s', run (mkCalls true true true) mvs' s = Some s' /\ r_owner s' = OStopped.
Proof.
  eexists. split; [vm_compute; reflexivity|]. split; [reflexivity|].
  apply (rpc_stop_joins (mkCalls true true true) (replicate 5 Owner ++ [Accept true; Accept true; Accept true; Owner; Owner])).
  vm_compute. reflexivity.
Defined.

(** A port that is taken leaves the server without a thread: [start] returns
    after the failed [bind] with the flag set and the socket open, no client
    is ever served, and [stop] then closes the socket. *)
Theorem failed_bind_serves_nobody (l : bool) (mvs : list move) (s : server) :
  run (mkCalls true false l) mvs new_server = Some s -> r_accept s = CNone /\ r_handlers s = 0%nat.
Proof.
  set (w := mkCalls true false l).
  assert (G : forall mv s s', r_accept s = CNone /\ r_handlers s = 0%nat /\ r_owner s <> OListen /\ r_owner s <> OThread ->
    step w mv s = Some s' -> r_accept s' = CNone /\ r_handlers s' = 0%nat /\ r_owner s' <> OListen /\ r_owner s' <> OThread).
  { intros mv [r k a j o h] s1 (Ea & Eh & N1 & N2) E. cbn in Ea, Eh, N1, N2. subst a h.
    destruct mv as [|conn|]; [|done|done]. cbn in E. destruct o; try done; try (injection E as <-; done).
    - destruct k; injection E as <-; done.
    - destruct j; [done|]. injection E as <-. done. }
  assert (I : r_accept new_server = CNone /\ r_handlers new_server = 0%nat /\ r_owner new_server <> OListen /\ r_owner new_server <> OThread) by done.
  revert I. generalize new_server. induction mvs as [|mv mvs IH]; intros s0 I E; cbn [run] in E; [injection E as <-; tauto|].
  destruct (step w mv s0) as [s1|] eqn:E1; [|done]. by apply (IH s1); [eapply G|].
Qed.

Lemma failed_bind_serves_nobody_witness :
  exists s, run (mkCalls true false true) (replicate 8 Owner) new_server = Some s /\ r_owner s = OStopped /\ r_handlers s = 0%nat.
Proof.
  eexists. split; [vm_compute; reflexivity|]. split; [reflexivity|].
  apply (failed_bind_serves_nobody true (replicate 8 Owner)). vm_compute. reflexivity.
Defined.

(** Requests outlive the server. The handlers are detached: [stop()] can
    return while one of them is still working with the server object, which
    its owner may then destroy. *)
Theorem handler_outlives_server :
  exists mvs s, run (mkCalls true true true) mvs new_server = Some s /\ r_owner s = OStopped /\ r_handlers s = 1%nat.
Proof.
  exists (replicate 5 Owner ++ [Accept true; Accept true; Accept true] ++ replicate 4 Owner ++ [Accept false; Owner]).
  eexists. split; [vm_compute; reflexivity|]. split; reflexivity.
Qed.

(** [listenSock_] is a plain int that [stop] writes while the accept thread
    reads it: a data race. *)
Theorem listen_socket_race :
  exists mvs s, run (mkCalls true true true) mvs new_server = Some s /\ r_owner s = SForget /\ r_accept s = CAccept.
Proof.
  exists (replicate 5 Owner ++ [Accept true] ++ replicate 3 Owner).
  eexists. split; [vm_compute; reflexivity|]. split; reflexivity.
Qed.

End RpcThreads.
