(* ===== verification/ChainThreads.v ===== *)
(** * The chain under several threads (src/src/blockchain.cpp)

    The member functions of [Blockchain] as the threads of a node run them,
    statement by statement, with the mutex where the code takes it: peers'
    threads, RPC threads and the main thread all call them. Read
    sequentially they are the functions of Blockchain.v
    ([chain_calls_alone]). Under any interleaving of the calls that take the
    mutex the chain stays one that the atomic calls reach
    ([interleaved_chain_reachable]), which is what the relation [step] of
    Blockchain.v stands on. The functions that do not take the mutex read
    members that others write ([unlocked_read_races]): a race, after which
    C++ promises nothing, and nothing is claimed here. An access is to a
    whole member: inside a critical section the mutex keeps all others out
    until its end. The miner's [buildBlockTemplate], which iterates over the
    account table without the mutex, is followed sequentially only
    (Miner.v). *)

From stdpp Require Import base list gmap numbers strings.
From Stdlib Require Import ZArith Lia.
From S2P Require Import Prelude Concurrency Keccak Hash Rlp Address Mpt Keys Transaction Bloom Receipt State.
From S2P Require Import Zk Block Blockchain.

#[local] Open Scope Z_scope.
#[local] Open Scope prog_scope.

(** blockchain.hpp 38-42: the members that threads share. *)
Inductive member : Type := MChain | MState | MMempool | MChainId.

#[export] Instance member_eq_dec : EqDecision member.
Proof. solve_decision. Defined.

Abbreviation thread A := (prog Blockchain member (res A)).

(** ** Under the mutex *)

(** blockchain.cpp 80-84. *)
Definition addTransaction_thread (tx : Transaction) : thread unit :=
  lock_guard (write MMempool (act_modify (fun bc => addTransaction bc tx))).

(** blockchain.cpp 110-113, from the transactions still to come. *)
Fixpoint apply_thread (txs : list Transaction) : thread unit :=
  match txs with
  | [] => pret ()
  | tx :: txs => write MState (on_state (fun s => applyTransaction s (tx_from tx) tx)) ;; apply_thread txs
  end.

(** blockchain.cpp 107-157: the body of [mineBlock], member by member. *)
Definition mine_body (now : Z) : thread Block :=
  before <- read MState (fun bc => root (state_ bc)) ;;
  txs <- read MMempool (fun bc => Ok (mempool_ bc)) ;;
  apply_thread txs ;;
  after <- read MState (fun bc => root (state_ bc)) ;;
  txRoot <- read MMempool (fun bc => Ok (computeTxRoot (mempool_ bc))) ;;
  receipts <- read MMempool (fun bc => Ok (make_receipts (mempool_ bc))) ;;
  receiptsRoot <- plift (receipts_root receipts) ;;
  let proof := generate before after txRoot in
  size <- read MChain (fun bc => Ok (zlen (chain_ bc))) ;;
  prev <- read MChain (fun bc => back_hash (chain_ bc)) ;;
  txs <- read MMempool (fun bc => Ok (mempool_ bc)) ;;
  let block := attach (new_Block size prev before after txRoot proof now) txs receipts receiptsRoot in
  write MChain (act_modify (fun bc => mkBlockchain (chain_ bc ++ [block]) (state_ bc) (mempool_ bc) (chainId_ bc))) ;;
  write MMempool (act_modify (fun bc => mkBlockchain (chain_ bc) (state_ bc) [] (chainId_ bc))) ;;
  pret block.

(** blockchain.cpp 103-157. *)
Definition mineBlock_thread (now : Z) : thread Block := lock_guard (mine_body now).

(** blockchain.cpp 163-182: the body of [addBlock]. *)
Definition add_body (block : Block) : thread bool :=
  size <- read MChain (fun bc => Ok (zlen (chain_ bc))) ;;
  if negb (blk_index block =? size) then pret false
  else
    back <- read MChain (fun bc => back_hash (chain_ bc)) ;;
    if negb (bool_decide (blk_prevHash block = back)) then pret false
    else if negb (verify (blk_proof block)) then pret false
    else
      write MChain (act_modify (fun bc => mkBlockchain (chain_ bc ++ [block]) (state_ bc) (mempool_ bc) (chainId_ bc))) ;;
      pret true.

(** blockchain.cpp 159-183. *)
Definition addBlock_thread (block : Block) : thread bool := lock_guard (add_body block).

(** ** Without the mutex *)

(** blockchain.cpp 29-78. [acc] points into the account table: whether it is
    null is settled by the call of [get], its fields are read when the code
    gets to them. *)
Definition validate_thread {SC : Secp256k1} (tx : Transaction) (err : string) : thread (bool * string) :=
  cid <- read MChainId (fun bc => Ok (chainId_ bc)) ;;
  if negb (tx_chainId tx =? cid) then pret (false, "Invalid chainId")
  else
    signed <- plift (verifySignature tx) ;;
    if negb signed then pret (false, "Invalid signature")
    else
      acc <- read MState (fun bc => Ok (State.get (state_ bc) (tx_from tx))) ;;
      let expectedNonce := match acc with Some a => acc_nonce a | None => 0 end in
      if negb (tx_nonce tx =? expectedNonce) then pret (false, "Invalid nonce")
      else
        let gasCost := u64 (tx_gasPrice tx * tx_gasLimit tx) in
        if negb (tx_gasPrice tx =? 0) && negb (gasCost / tx_gasPrice tx =? tx_gasLimit tx) then
          pret (false, "Gas cost overflow")
        else
          let needed := u64 (gasCost + tx_value tx) in
          if needed <? gasCost then pret (false, "Total cost overflow")
          else
            bal <- (match acc with
                    | Some _ => read MState (fun bc => Ok (acc_balance (view (state_ bc) (tx_from tx))))
                    | None => pret 0
                    end) ;;
            if bal <? needed then pret (false, "Insufficient funds")
            else pret (true, err).

(** ** The threads of a node *)

Section Calls.
Context {SC : Secp256k1}.

(** What a thread asks of the chain: a transaction from a peer or an RPC
    client, a block from a peer, [mineBlock] by the main thread. *)
Inductive call : Type :=
| NewTx (hex : std_string)
| NewBlock (hex : std_string)
| MineNow (now : Z).

(** p2p_node.cpp 181-185 and 195-197, main.cpp 277. *)
Definition call_thread (c : call) : thread unit :=
  match c with
  | NewTx hex =>
      tx <- plift (Transaction.fromHex hex) ;;
      v <- validate_thread tx "" ;;
      if fst v then addTransaction_thread tx else pret ()
  | NewBlock hex => block <- plift (Block.fromHex hex) ;; addBlock_thread block ;; pret ()
  | MineNow now => mineBlock_thread now ;; pret ()
  end.

(** The same call on the chain alone, from Blockchain.v. *)
Definition call_alone (c : call) : act Blockchain unit :=
  match c with
  | NewTx hex =>
      act_bind (act_lift (Transaction.fromHex hex)) (fun tx =>
      act_bind act_self (fun bc =>
      act_bind (act_lift (validateTransaction bc tx "")) (fun v =>
      if fst v then act_modify (fun bc => addTransaction bc tx) else act_ret ())))
  | NewBlock hex =>
      act_bind (act_lift (Block.fromHex hex)) (fun block => act_bind (addBlock block) (fun _ => act_ret ()))
  | MineNow now => act_bind (mineBlock now) (fun _ => act_ret ())
  end.

(** p2p_node.cpp 187-189 and 198-200: what a message's call throws is caught.
    The call at main.cpp 277 is in no [try]: an exception ends the program, as
    does undefined behaviour anywhere. *)
Definition call_goes_on (c : call) (r : res unit) : bool :=
  match r, c with
  | Ok _, _ => true
  | Throw _, NewTx _ => true
  | Throw _, NewBlock _ => true
  | _, _ => false
  end.

(** A thread makes its calls one after the other. *)
Fixpoint node_thread (cs : list call) : thread unit :=
  match cs with
  | [] => pret ()
  | c :: cs => pseq (call_thread c) (fun r => if call_goes_on c r then node_thread cs else Ret r)
  end.

(** Calls that change the chain, each under the mutex. *)
Inductive locked_call : Type :=
| AddTx (tx : Transaction)
| AddBlk (block : Block)
| Mine (now : Z).

(** An outcome that no caller handles ends the thread. *)
Fixpoint locked_thread (cs : list locked_call) : thread unit :=
  match cs with
  | [] => pret ()
  | AddTx tx :: cs => pbind (addTransaction_thread tx) (fun _ => locked_thread cs)
  | AddBlk block :: cs => pbind (addBlock_thread block) (fun _ => locked_thread cs)
  | Mine now :: cs => pbind (mineBlock_thread now) (fun _ => locked_thread cs)
  end.

End Calls.

(** ** Lemmas *)

Lemma straight_apply txs : straight (apply_thread txs).
Proof. induction txs as [|tx txs IH]; [done|]. cbn. intros s. destruct (on_state _ s) as [s' [[]| | |]]; done. Qed.

#[local] Hint Resolve straight_apply : gambit.

Lemma straight_mine now : straight (mine_body now).
Proof. unfold mine_body, plift. repeat (apply straight_pbind; [auto with gambit; done|intros ?]); done. Qed.

Lemma straight_add block : straight (add_body block).
Proof.
  unfold add_body. apply straight_pbind; [done|]. intros size. destruct (negb _); [done|].
  apply straight_pbind; [done|]. intros back. destruct (negb _); [done|]. destruct (negb _); [done|].
  apply straight_pbind; [apply straight_write|done].
Qed.

Lemma run_apply txs bc : run_alone (apply_thread txs) bc = on_state (apply_all txs) bc.
Proof.
  revert bc. induction txs as [|tx txs IH]; intros bc; [by destruct bc|]. cbn [apply_thread apply_all].
  rewrite run_pbind. unfold act_bind. rewrite run_write. unfold on_state.
  destruct (applyTransaction (state_ bc) (tx_from tx) tx) as [s [[]| | |]]; [|done..].
  rewrite IH. unfold on_state. cbn [set_state state_]. by destruct (apply_all txs s).
Qed.

Lemma on_state_frame {A} (m : act State A) bc :
  chain_ (on_state m bc).1 = chain_ bc /\ mempool_ (on_state m bc).1 = mempool_ bc.
Proof. unfold on_state. by destruct (m (state_ bc)). Qed.

(** Rewrites a sequence of reads and writes to the calls it makes. *)
Ltac run_calls :=
  repeat first
    [ rewrite run_pbind; unfold act_bind at 1
    | rewrite run_read
    | rewrite run_write ].

Lemma run_mine now bc : run_alone (mine_body now) bc = mineBlock now bc.
Proof.
  unfold mine_body, mineBlock, act_bind, act_self, act_lift. run_calls.
  destruct (root (state_ bc)) as [before| | |]; [|done..]. run_calls. rewrite run_apply.
  destruct (on_state_frame (apply_all (mempool_ bc)) bc) as [Fc Fm].
  destruct (on_state (apply_all (mempool_ bc)) bc) as [bc1 [[]| | |]]; [|done..]. cbn in Fc, Fm.
  run_calls. destruct (root (state_ bc1)) as [after| | |]; [|done..]. run_calls. cbn [run_alone plift].
  destruct (receipts_root (make_receipts (mempool_ bc1))) as [rr| | |]; [|done..]. run_calls.
  destruct (back_hash (chain_ bc1)) as [prev| | |]; [|done..]. run_calls. done.
Qed.

Lemma run_add block bc : run_alone (add_body block) bc = addBlock block bc.
Proof.
  unfold add_body, addBlock, act_bind, act_self, act_lift. run_calls. destruct (negb _); [done|]. run_calls.
  destruct (back_hash (chain_ bc)) as [back| | |]; [|done..]. destruct (negb _); [done|]. by destruct (negb _).
Qed.

Section Validation.
Context {SC : Secp256k1}.

Lemma get_view s a acc : State.get s a = Some acc -> view s a = acc.
Proof. unfold view. by intros ->. Qed.

Lemma run_validate tx err bc : run_alone (validate_thread tx err) bc = (bc, validateTransaction bc tx err).
Proof.
  unfold validate_thread, validateTransaction. run_calls. destruct (negb _); [done|]. run_calls. cbn [run_alone plift].
  destruct (verifySignature tx) as [signed| | |]; [|done..]. cbn [mbind res_bind]. destruct (negb _); [done|]. run_calls.
  destruct (State.get (state_ bc) (tx_from tx)) as [acc|] eqn:E; cbn zeta.
  - destruct (negb _); [done|]. destruct (_ && _); [done|]. destruct (_ <? _); [done|]. run_calls.
    rewrite (get_view _ _ _ E). by destruct (_ <? _).
  - destruct (negb _); [done|]. destruct (_ && _); [done|]. destruct (_ <? _); [done|]. run_calls.
    cbn. by destruct (_ <? _).
Qed.

End Validation.

(** ** Interleavings *)

(** Transactions are as the wire and JSON decoders make them. *)
Definition call_ok (c : locked_call) : Prop := match c with AddTx tx => tx_ok tx | _ => True end.

(** No undefined behaviour. *)
Definition defined {A} (r : res A) : Prop := match r with Ok _ => True | Throw _ => True | _ => False end.

Section Interleaving.
Context (g : GenesisConfig) (G : genesis_ok g).

Lemma mineBlock_defined bc now : reachable g bc -> defined (mineBlock now bc).2.
Proof.
  intros R. destruct (reachable_ok g bc G R) as [N L S O C U].
  destruct (apply_all_cases (mempool_ bc) (state_ bc)) as [[s' E]|(s' & E & St)].
  - destruct (mineBlock_success bc s' now N S O E) as (l & before & after & rr & _ & _ & _ & _ & ->). done.
  - by rewrite (mineBlock_failure bc s' now).
Qed.

Lemma addBlock_defined bc block : reachable g bc -> defined (addBlock block bc).2.
Proof.
  intros R. destruct (reachable_ok g bc G R) as [N L S O C U]. destruct (back_hash_last _ N) as (l & El & _).
  rewrite (addBlock_unfold block bc l El). by repeat case_match.
Qed.

(** A locked call on a chain that the calls reach leads to another one, and
    the thread goes on or ends with an exception. *)
Lemma locked_keeps {A B} (body : thread A) (k : A -> thread B) :
  straight body -> (forall bc, reachable g bc -> reachable g (run_alone body bc).1 /\ defined (run_alone body bc).2) ->
  (forall a, keeps (reachable g) defined None (k a)) -> keeps (reachable g) defined None (pbind (lock_guard body) k).
Proof.
  intros H R K. apply lock_guard_keeps; [done|]. intros bc Rb. destruct (R bc Rb) as [R' D]. split; [done|].
  destruct (run_alone body bc).2 as [a|w| |]; [apply K|by split|done..].
Qed.

Lemma locked_thread_keeps cs : Forall call_ok cs -> keeps (reachable g) defined None (locked_thread cs).
Proof.
  induction 1 as [|[tx|block|now] cs O _ IH]; [by split|..]; cbn [locked_thread];
    (apply locked_keeps; [first [apply straight_write|apply straight_add|apply straight_mine]| |done]);
    intros bc R; rewrite ?run_write, ?run_add, ?run_mine.
  - split; [|done]. eapply reach_step; [exact R|]. by apply step_addTransaction.
  - split; [|by apply addBlock_defined]. eapply reach_step; [exact R|]. apply step_addBlock.
  - split; [|by apply mineBlock_defined]. eapply reach_step; [exact R|]. apply step_mineBlock.
Qed.

End Interleaving.

Lemma locked_thread_guarded cs : guarded false (locked_thread cs).
Proof.
  induction cs as [|[tx|block|now] cs IH]; [done|..]; cbn [locked_thread]; apply lock_guard_guarded;
    first [apply straight_write|apply straight_add|apply straight_mine|by intros [r|w| |]].
Qed.

(** ** Properties *)

(** The calls that threads make are the functions of the model. Run alone,
    each call of a thread, written member by member with its locks, has the
    same effect on the chain and the same outcome as the member functions
    [validateTransaction], [addTransaction], [mineBlock] and [addBlock]. *)
Theorem chain_calls_alone {SC : Secp256k1} (c : call) (bc : Blockchain) :
  run_alone (call_thread c) bc = call_alone c bc.
Proof.
  destruct c as [hex|hex|now]; cbn [call_thread call_alone]; rewrite run_pbind; unfold act_bind, act_lift, act_self.
  - cbn [run_alone plift]. destruct (Transaction.fromHex hex) as [tx| | |]; [|done..].
    rewrite run_pbind. unfold act_bind. rewrite run_validate. destruct (validateTransaction bc tx "") as [[[] e]| | |]; done.
  - cbn [run_alone plift]. destruct (Block.fromHex hex) as [block| | |]; [|done..].
    rewrite run_pbind. unfold act_bind, addBlock_thread. rewrite run_lock_guard, run_add.
    by destruct (addBlock block bc) as [bc' [[]| | |]].
  - unfold mineBlock_thread. rewrite run_lock_guard, run_mine. by destruct (mineBlock now bc) as [bc' [b| | |]].
Qed.

(** C11: the chain under concurrency. Any number of threads add transactions
    that a decoder made, add blocks and mine, each any sequence of these
    calls, every one of which takes the mutex, and the threads take turns
    after every single access to a member. Whenever the mutex is free, the
    chain is one that the atomic calls reach from the genesis: linked, proved,
    well formed and, when the genesis balances sum to less than 2^64, with
    the supply of the genesis. No call has undefined behaviour: a thread ends
    after its last call or with the exception of a [mineBlock]. And from
    every point all threads can still run to their end, so that there is no
    deadlock. *)
Theorem interleaved_chain_reachable (g : GenesisConfig) (bc : Blockchain)
    (calls : list (list locked_call)) (schedule : list nat) (c : config Blockchain member (res unit)) :
  genesis_ok g -> reachable g bc -> Forall (Forall call_ok) calls ->
  run_schedule schedule (initial bc (locked_thread <$> calls)) = Some c ->
  (holder c = None -> reachable g (shared c) /\ chain_ok g (shared c)) /\
  (forall t r, threads c !! t = Some (Ret r) -> r = Ok () \/ exists what, r = Throw what) /\
  (exists schedule' c', run_schedule schedule' c = Some c' /\ finished c' /\ holder c' = None /\ reachable g (shared c')).
Proof.
  intros G R O E.
  assert (K : Forall (keeps (reachable g) defined None) (locked_thread <$> calls)).
  { apply Forall_fmap. eapply Forall_impl; [exact O|]. intros cs. by apply locked_thread_keeps. }
  destruct (guarded_invariant _ _ _ _ _ _ R K E) as [I D]. split_and!.
  - intros H. split; [by apply I|]. by apply reachable_ok, I.
  - intros t r L. apply D in L. destruct r as [[]|w| |]; [by left|right; by eexists|done..].
  - destruct (guarded_progress _ _ _ _ _ _ R K E) as (ts & c' & E' & F & H). exists ts, c'. split_and!; [done..|].
    apply (guarded_invariant (reachable g) defined bc (locked_thread <$> calls) (schedule ++ ts) c' R K); [|done].
    by rewrite run_schedule_app, E.
Qed.

Lemma interleaved_chain_reachable_witness :
  exists c schedule' c', run_schedule [1; 1; 1]%nat (initial SampleChain.pending
      (locked_thread <$> [[AddTx SampleChain.transfer]; [Mine 5; Mine 6]])) = Some c /\
    holder c = Some 1%nat /\ run_schedule schedule' c = Some c' /\ finished c' /\ reachable SampleChain.genesis (shared c').
Proof.
  eexists. destruct (interleaved_chain_reachable SampleChain.genesis SampleChain.pending
    [[AddTx SampleChain.transfer]; [Mine 5; Mine 6]] [1; 1; 1]%nat _ SampleChain.genesis_valid SampleChain.pending_reachable
    ltac:(repeat constructor; apply SampleChain.transfer_ok) eq_refl) as (_ & _ & ts & c' & E & F & _ & R).
  exists ts, c'. split; [reflexivity|]. split; [reflexivity|]. split; [exact E|]. split; [exact F|exact R].
Defined.

(** C27: the calls that take the mutex do not race: threads that only add
    transactions, add blocks and mine are never about to touch the same
    member at once, whatever the schedule. *)
Theorem locked_calls_race_free (bc : Blockchain) (calls : list (list locked_call)) (schedule : list nat)
    (c : config Blockchain member (res unit)) :
  run_schedule schedule (initial bc (locked_thread <$> calls)) = Some c -> ~ racy c.
Proof.
  apply guarded_race_free. apply Forall_fmap, Forall_true. intros cs. apply locked_thread_guarded.
Qed.

Lemma locked_calls_race_free_witness :
  exists c, run_schedule [1; 1]%nat (initial SampleChain.pending (locked_thread <$> [[AddTx SampleChain.transfer]; [Mine 6]])) = Some c /\ ~ racy c.
Proof.
  eexists. split; [reflexivity|].
  apply (locked_calls_race_free SampleChain.pending [[AddTx SampleChain.transfer]; [Mine 6]] [1; 1]%nat). reflexivity.
Defined.

(** C28: validation races with mining. [validateTransaction] reads the accounts
    without the mutex: when a signed transaction for this chain arrives while
    [mineBlock] works on a non-empty pool, there is a schedule after which
    one thread is about to read the account table and the other to write
    it. *)
Theorem unlocked_read_races {SC : Secp256k1} (bc : Blockchain) (hex : std_string) (tx : Transaction) (now : Z) :
  Transaction.fromHex hex = Ok tx -> tx_chainId tx = chainId_ bc -> verifySignature tx = Ok true ->
  state_ok (state_ bc) -> mempool_ bc <> [] ->
  exists schedule c,
    run_schedule schedule (initial bc [node_thread [NewTx hex]; node_thread [MineNow now]]) = Some c /\ racy c.
Proof.
  intros Eh Ec Ev S M. destruct (mempool_ bc) as [|t txs] eqn:Em; [done|].
  exists [0%nat; 1%nat; 1%nat; 1%nat].
  cbn [node_thread call_thread]. rewrite Eh. unfold pbind. cbn [pseq plift].
  unfold run_schedule, step_thread, initial. cbn.
  rewrite Ec, Z.eqb_refl. cbn. rewrite Ev. cbn. rewrite root_trie by done. cbn. rewrite Em. cbn.
  eexists. split; [reflexivity|]. exists 0%nat, 1%nat, MState. repeat eexists; cbn; reflexivity || done.
Qed.

Lemma unlocked_read_races_witness :
  exists schedule c,
    run_schedule schedule (initial (addTransaction SampleChain.rich Sample.signed)
      [@node_thread TestCurve.curve [NewTx (Transaction.toHex Sample.signed)]; @node_thread TestCurve.curve [MineNow 5]]) = Some c /\ racy c.
Proof.
  apply (@unlocked_read_races TestCurve.curve (addTransaction SampleChain.rich Sample.signed) _ Sample.reread);
    [vm_compute; reflexivity..| |discriminate].
  by destruct (reachable_ok _ _ SampleChain.rich_valid SampleChain.rich_reachable).
Defined.
