(* ===== verification/VmRegistry.v ===== *)
(** * Virtual machines (src/src/vm_registry.cpp, vm_plugin_loader.cpp,
      zkvm_plugin.cpp, src/include/gambit/vm.hpp, vms.hpp and the headers)

    The registry of virtual machines by contract type, with its table of raw
    pointers and its owning store, and the plugin loader. Virtual machine
    objects are known by their addresses; their [execute] functions are empty
    in the sources. The dynamic linker and the directory are parameters. *)

From stdpp Require Import base list gmap numbers strings.
From Stdlib Require Import ZArith Lia.
From S2P Require Import Prelude.

#[local] Open Scope Z_scope.

(** vm.hpp 10-16: an enumeration over [uint8_t], of which plugins use the
    values from [PLUGIN_BASE] on. *)
Definition ContractType : Type := Z.

Definition EVM : ContractType := 0.
Definition WASM : ContractType := 1.
Definition CORE : ContractType := 2.
Definition PLUGIN_BASE : ContractType := 128.

(** [IVM*]: null or the address of an object. *)
Abbreviation vm_ptr := (option Z).

(** vm_registry.hpp 12-33. *)
Record VMRegistry : Type := mkRegistry {
  table_ : list vm_ptr;
  storage_ : gmap Z vm_ptr;
}.

(** vm_registry.cpp 5-7. *)
Definition new_VMRegistry : VMRegistry := mkRegistry (replicate 256 None) ∅.

(** vm_registry.cpp 9-26. Assigning the owning pointer destroys the object it
    owned before. *)
Definition registerVM (r : VMRegistry) (type : ContractType) (vm : vm_ptr) : VMRegistry :=
  let key := type in
  let raw := u8 key in
  let storage := <[key := vm]> (storage_ r) in
  mkRegistry (<[Z.to_nat raw := default None (storage !! key)]> (table_ r)) storage.

(** vm_registry.cpp 28-32. *)
Definition get (r : VMRegistry) (type : ContractType) : vm_ptr :=
  let raw := u8 type in
  default None (table_ r !! Z.to_nat raw).

(** vm_registry.cpp 34-36. *)
Definition has (r : VMRegistry) (type : ContractType) : bool :=
  bool_decide (get r type <> None).

(** ** Plugins *)

(** What the loader uses of the operating system (POSIX): the dynamic linker
    and the entries of a directory with their kinds. *)
Class PluginHost : Type := {
  handle : Type;
  dlopen : std_string -> option handle;
  (** The symbol gambit_register_vm: it works on the registry and reports
      success. *)
  dlsym : handle -> option (VMRegistry -> VMRegistry * bool);
  readdir : std_string -> option (list std_string);
  (** [stat]: [None] on failure, else whether the path is a regular file. *)
  stat_regular : std_string -> option bool;
}.

Section Loader.
Context {PH : PluginHost}.

(** vm_plugin_loader.cpp 20-67, the POSIX branch. The result says whether the
    plugin was loaded; the code only prints it. *)
Definition loadPlugin (registry : VMRegistry) (path : std_string) : VMRegistry * bool :=
  match dlopen path with
  | None => (registry, false)
  | Some h =>
      match dlsym h with
      | None => (registry, false)
      | Some fn => fn registry
      end
  end.

(** vm_plugin_loader.cpp 99-103. *)
Definition is_plugin (path : std_string) : bool :=
  (zlen path >=? 3) && bool_decide (drop (length path - 3) path = str ".so").

(** vm_plugin_loader.cpp 89-103: one directory entry. *)
Definition load_entry (dir : std_string) (registry : VMRegistry) (name : std_string) : VMRegistry :=
  if bool_decide (name = str ".") || bool_decide (name = str "..") then registry
  else
    let path := dir ++ str "/" ++ name in
    match stat_regular path with
    | None => registry
    | Some reg => if negb reg then registry else if is_plugin path then fst (loadPlugin registry path) else registry
    end.

(** vm_plugin_loader.cpp 69-106, the POSIX branch. *)
Definition loadFromDirectory (registry : VMRegistry) (dir : std_string) : VMRegistry :=
  match readdir dir with
  | None => registry
  | Some names => foldl (load_entry dir) registry names
  end.

End Loader.

(** ** The machines *)

(** vms.hpp 4-29: the classes that implement [IVM], and zkvm_plugin.cpp's. *)
Inductive machine : Type := EvmVM | WasmVM | CoreVM | ZkVM.

(** vms.hpp 9, 18 and 27, zkvm_plugin.cpp 12. *)
Definition name (m : machine) : std_string :=
  match m with EvmVM => str "EVM" | WasmVM => str "WASM" | CoreVM => str "CORE" | ZkVM => str "ZKVM" end.

(** zkvm_plugin.cpp 13-17, and vms.hpp 10, 19 and 28. *)
Definition type (m : machine) : ContractType :=
  match m with EvmVM => EVM | WasmVM => WASM | CoreVM => CORE | ZkVM => u8 (PLUGIN_BASE + 0) end.

(** vms.hpp 6-8, 15-17 and 24-26, zkvm_plugin.cpp 9-11: the body is empty
    although a result is due, so the end of the function is undefined
    behaviour. [ExecutionResult] is declared nowhere in the tree. *)
Definition execute {ExecutionResult} (m : machine) : res ExecutionResult := UB.

(** zkvm_plugin.cpp 20-30; [vm] is the object that [make_unique] allocates. *)
Definition gambit_register_vm (vm : Z) (registry : VMRegistry) : VMRegistry * bool :=
  (registerVM registry (u8 (PLUGIN_BASE + 0)) (Some vm), true).

(** ** Lemmas *)

Definition type_ok (t : ContractType) : Prop := is_u8 t.

(** Each table entry is the pointer that the store owns under the same type:
    no entry outlives its object. *)
Definition registry_ok (r : VMRegistry) : Prop :=
  length (table_ r) = 256%nat /\
  forall t, type_ok t -> get r t = default None (storage_ r !! t).

Lemma new_registry_ok : registry_ok new_VMRegistry.
Proof.
  split; [done|]. intros t [T0 T]. unfold get, new_VMRegistry. cbn [table_ storage_].
  rewrite u8_id by (split; lia). rewrite lookup_empty.
  destruct (_ !! Z.to_nat t) as [x|] eqn:E; [|done].
  by apply lookup_replicate in E as [-> _].
Qed.

Lemma get_register r t vm t' :
  length (table_ r) = 256%nat -> type_ok t -> type_ok t' ->
  get (registerVM r t vm) t' = if decide (t = t') then vm else get r t'.
Proof.
  intros L T T'. unfold get, registerVM. cbn [table_]. rewrite lookup_insert_eq, !u8_id by done. cbn [default].
  destruct (decide (t = t')) as [->|N].
  - rewrite list_lookup_insert_eq by (unfold type_ok, is_u8 in *; lia). done.
  - rewrite list_lookup_insert_ne; [done|]. unfold type_ok, is_u8 in *. lia.
Qed.

Lemma register_ok r t vm : registry_ok r -> type_ok t -> registry_ok (registerVM r t vm).
Proof.
  intros [L S] T. split; [by cbn; rewrite length_insert|]. intros t' T'.
  rewrite get_register by done. cbn [registerVM storage_]. destruct (decide (t = t')) as [->|N].
  - by rewrite lookup_insert_eq.
  - rewrite lookup_insert_ne by done. by apply S.
Qed.

(** What the registry promises: a map from types to the registered machines. *)
Definition represents (r : VMRegistry) (m : gmap Z vm_ptr) : Prop :=
  registry_ok r /\ forall t, type_ok t -> get r t = default None (m !! t).

Lemma register_represents r m t vm :
  represents r m -> type_ok t -> represents (registerVM r t vm) (<[t := vm]> m).
Proof.
  intros [O G] T. split; [by apply register_ok|]. intros t' T'. destruct O as [L _].
  rewrite get_register by done. destruct (decide (t = t')) as [->|N].
  - by rewrite lookup_insert_eq.
  - rewrite lookup_insert_ne by done. by apply G.
Qed.

Lemma register_all_represents es r m :
  represents r m -> Forall (fun e => type_ok e.1) es ->
  represents (foldl (fun r e => registerVM r e.1 e.2) r es) (foldl (fun m e => <[e.1 := e.2]> m) m es).
Proof.
  intros R F. revert r m R. induction F as [|e es T _ IH]; intros r m R; [done|].
  cbn [foldl]. apply IH. by apply register_represents.
Qed.

(** A registration function that keeps the registry well formed. *)
Definition good_plugin (fn : VMRegistry -> VMRegistry * bool) : Prop :=
  forall r, registry_ok r -> registry_ok (fn r).1.

Lemma gambit_register_vm_good vm : good_plugin (gambit_register_vm vm).
Proof. intros r O. apply register_ok; [done|]. by split. Qed.

Lemma loadPlugin_ok {PH : PluginHost} r path :
  (forall h fn, dlsym h = Some fn -> good_plugin fn) -> registry_ok r -> registry_ok (loadPlugin r path).1.
Proof.
  intros H O. unfold loadPlugin. destruct (dlopen path) as [h|]; [|done].
  destruct (dlsym h) as [fn|] eqn:E; [|done]. by apply (H h).
Qed.

Lemma load_entry_ok {PH : PluginHost} dir r name :
  (forall h fn, dlsym h = Some fn -> good_plugin fn) -> registry_ok r -> registry_ok (load_entry dir r name).
Proof.
  intros H O. unfold load_entry. destruct (_ || _); [done|]. destruct (stat_regular _) as [[]|]; [|done..].
  cbn [negb]. destruct (is_plugin _); [by apply loadPlugin_ok|done].
Qed.

(** ** Properties *)

(** The registry refines a map. After any sequence of registrations,
    [get] answers the machine registered last for the type, null when there
    is none, [has] says which is the case, and every pointer of the table is
    the one its store still owns. *)
Theorem registry_refines_map (es : list (ContractType * vm_ptr)) (t : ContractType) :
  Forall (fun e => type_ok e.1) es -> type_ok t ->
  let r := foldl (fun r e => registerVM r e.1 e.2) new_VMRegistry es in
  let m := foldl (fun m e => <[e.1 := e.2]> m) (∅ : gmap Z vm_ptr) es in
  get r t = default None (m !! t) /\ has r t = bool_decide (default None (m !! t) <> None) /\
  get r t = default None (storage_ r !! t).
Proof.
  intros F T r m.
  assert (R0 : represents new_VMRegistry ∅).
  { split; [apply new_registry_ok|]. intros x X. rewrite lookup_empty.
    destruct new_registry_ok as [_ S]. rewrite S by done. cbn. by rewrite lookup_empty. }
  destruct (register_all_represents es _ _ R0 F) as [[_ S] G].
  fold r m in G, S. rewrite <- (G t T). split; [done|]. split; [done|]. by apply S.
Qed.

Lemma registry_refines_map_witness :
  get (registerVM (registerVM new_VMRegistry EVM (Some 100)) EVM (Some 200)) EVM = Some 200.
Proof.
  apply (registry_refines_map [(EVM, Some 100); (EVM, Some 200)] EVM); [|by split].
  constructor; [by split|]. constructor; [by split|constructor].
Defined.

(** Loading a directory of plugins. When every registration function that
    the linker resolves keeps the registry well formed (as the ZKVM plugin's
    does), loading a directory does, whatever files it holds. *)
Theorem loadFromDirectory_ok {PH : PluginHost} (r : VMRegistry) (dir : std_string) :
  (forall h fn, dlsym h = Some fn -> good_plugin fn) -> registry_ok r ->
  registry_ok (loadFromDirectory r dir).
Proof.
  intros H O. unfold loadFromDirectory. destruct (readdir dir) as [names|]; [|done].
  revert r O. induction names as [|n names IH]; intros r O; [done|]. cbn [foldl]. by apply IH, load_entry_ok.
Qed.

(** A directory with one plugin, the ZKVM's. *)
Definition sample_host : PluginHost := {|
  handle := unit;
  dlopen _ := Some ();
  dlsym _ := Some (gambit_register_vm 7);
  readdir _ := Some [str "."; str "zkvm.so"; str "readme.txt"];
  stat_regular _ := Some true;
|}.

Lemma loadFromDirectory_ok_witness :
  registry_ok (@loadFromDirectory sample_host new_VMRegistry (str "plugins")) /\
  get (@loadFromDirectory sample_host new_VMRegistry (str "plugins")) PLUGIN_BASE = Some 7.
Proof.
  split; [|vm_compute; reflexivity]. apply (@loadFromDirectory_ok sample_host); [|apply new_registry_ok].
  intros h fn E. injection E as <-. apply gambit_register_vm_good.
Defined.
