(* ===== verification/Cstring.v ===== *)
(** * Library functions on strings

    What the sources use of the C++ standard library on strings:
    [std::string::find] and its variants, [substr], and the conversions
    [std::stoull], [std::stoul] and [std::stoi] (LP64: [unsigned long] has 64
    bits, [int] 32), which parse as [strtoull] and [strtol] do. *)

From stdpp Require Import base list numbers strings.
From Stdlib Require Import ZArith Lia.
From S2P Require Import Prelude.

#[local] Open Scope Z_scope.

(** ** Searching *)

Fixpoint find_at (pat s : std_string) (i : nat) : option nat :=
  if starts_with pat s then Some i
  else match s with
       | [] => None
       | _ :: s' => find_at pat s' (S i)
       end.

(** [s.find(pat, pos)], [None] for npos. *)
Definition find (s pat : std_string) (pos : nat) : option nat := find_at pat (drop pos s) pos.

Fixpoint find_if_at (p : Z -> bool) (s : std_string) (i : nat) : option nat :=
  match s with
  | [] => None
  | c :: s' => if p c then Some i else find_if_at p s' (S i)
  end.

(** [s.find_first_of(cs, pos)] and [s.find_first_not_of(cs, pos)]. *)
Definition find_first_of (s cs : std_string) (pos : nat) : option nat :=
  find_if_at (fun c => bool_decide (c ∈ cs)) (drop pos s) pos.

Definition find_first_not_of (s cs : std_string) (pos : nat) : option nat :=
  find_if_at (fun c => negb (bool_decide (c ∈ cs))) (drop pos s) pos.

(** [s.substr(pos, len)] for a [pos] inside [s]. *)
Definition substr (s : std_string) (pos len : nat) : std_string := take len (drop pos s).

(** ** Conversions *)

(** [std::isspace] in the C locale. *)
Definition isspace (c : Z) : bool := (c =? 32) || ((9 <=? c) && (c <=? 13)).

Fixpoint skip_spaces (s : std_string) : std_string :=
  match s with
  | c :: s' => if isspace c then skip_spaces s' else s
  | [] => []
  end.

(** The value of a digit in bases up to 16. *)
Definition digit_value (c : Z) : option Z :=
  if (48 <=? c) && (c <=? 57) then Some (c - 48)
  else if (97 <=? c) && (c <=? 102) then Some (c - 87)
  else if (65 <=? c) && (c <=? 70) then Some (c - 55)
  else None.

Definition digit_in (base c : Z) : option Z :=
  match digit_value c with
  | Some d => if d <? base then Some d else None
  | None => None
  end.

(** The longest run of digits, as a number; [None] without a digit. *)
Fixpoint read_digits (base : Z) (s : std_string) (acc : option Z) : option Z :=
  match s with
  | [] => acc
  | c :: s' =>
      match digit_in base c with
      | Some d => read_digits base s' (Some (default 0 acc * base + d))
      | None => acc
      end
  end.

(** The optional prefix of base 16, skipped when a digit follows. *)
Definition skip_prefix (base : Z) (s : std_string) : std_string :=
  match s with
  | 48 :: x :: c :: s' =>
      if (base =? 16) && ((x =? 120) || (x =? 88)) && bool_decide (is_Some (digit_in 16 c)) then c :: s' else s
  | _ => s
  end.

(** Sign and magnitude of what [strtol] and [strtoull] read. *)
Definition strto (base : Z) (s : std_string) : option (bool * Z) :=
  let s := skip_spaces s in
  let '(neg, s) := match s with
                   | 45 :: s' => (true, s')
                   | 43 :: s' => (false, s')
                   | _ => (false, s)
                   end in
  pair neg <$> read_digits base (skip_prefix base s) None.

(** [std::stoull(s, nullptr, base)]: a minus sign negates modulo 2^64. *)
Definition stoull (base : Z) (s : std_string) : res Z :=
  match strto base s with
  | None => Throw "stoull"
  | Some (neg, v) => if v >=? 2 ^ 64 then Throw "stoull" else Ok (if neg then u64 (- v) else v)
  end.

(** [std::stoul(s)]. *)
Definition stoul (s : std_string) : res Z :=
  match strto 10 s with
  | None => Throw "stoul"
  | Some (neg, v) => if v >=? 2 ^ 64 then Throw "stoul" else Ok (if neg then u64 (- v) else v)
  end.

(** [std::stoi(s)]. *)
Definition stoi (s : std_string) : res Z :=
  match strto 10 s with
  | None => Throw "stoi"
  | Some (neg, v) =>
      let v := if neg then - v else v in
      if (v <? - 2 ^ 31) || (v >=? 2 ^ 31) then Throw "stoi" else Ok v
  end.

(** ** Lemmas: printed numbers read back *)

Definition digit_ok (base c : Z) : Prop := exists d, digit_in base c = Some d /\ d = digit_of c.

Lemma read_digits_all base s acc :
  Forall (digit_ok base) s ->
  read_digits base s (Some acc) = Some (foldl (fun v c => v * base + digit_of c) acc s).
Proof.
  intros H. revert acc. induction H as [|c s (d & E & ->) _ IH]; intros acc; [done|].
  cbn [read_digits foldl]. rewrite E. cbn [default]. apply IH.
Qed.

Lemma read_digits_val base s :
  s <> [] -> Forall (digit_ok base) s -> read_digits base s None = Some (digits_val base s).
Proof.
  intros N H. destruct H as [|c s (d & E & ->) Hs]; [done|]. cbn [read_digits]. rewrite E. cbn [default].
  rewrite read_digits_all by done. reflexivity.
Qed.

Lemma digit_char_ok base d : 0 <= d < base -> base <= 16 -> digit_ok base (digit_char d).
Proof.
  intros H Hb. exists d. rewrite digit_of_char by lia. split; [|done].
  unfold digit_in, digit_value, digit_char. destruct (d <? 10) eqn:E; to_prop.
  - z_tests. cbn [andb]. replace (48 + d - 48) with d by lia. z_tests. done.
  - z_tests. cbn [andb]. replace (87 + d - 87) with d by lia. z_tests. done.
Qed.

Lemma print_loop_nonempty base fuel n out : out <> [] -> print_loop base fuel n out <> [].
Proof. revert n out. induction fuel as [|f IH]; intros n out H; cbn [print_loop]; [done|]. destruct (_ =? _); [done|by apply IH]. Qed.

Lemma print_nonempty base fuel n : print_loop base (S fuel) n [] <> [].
Proof. cbn [print_loop]. destruct (_ =? _); [done|]. by apply print_loop_nonempty. Qed.

(** A digit is neither a space nor a sign. *)
Lemma digit_plain base c : digit_ok base c -> isspace c = false /\ c <> 45 /\ c <> 43.
Proof.
  intros (d & E & _). unfold digit_in, digit_value in E. unfold isspace.
  destruct ((48 <=? c) && (c <=? 57)) eqn:E1; [|destruct ((97 <=? c) && (c <=? 102)) eqn:E2;
    [|destruct ((65 <=? c) && (c <=? 70)) eqn:E3; [|done]]]; to_prop;
    (split; [apply orb_false_iff; split; [apply Z.eqb_neq; lia|apply andb_false_iff; right; apply Z.leb_gt; lia]|lia]).
Qed.

Lemma digit_range base c : digit_ok base c -> 48 <= c.
Proof.
  intros (d & E & _). unfold digit_in, digit_value in E.
  destruct ((48 <=? c) && (c <=? 57)) eqn:E1; [to_prop; lia|].
  destruct ((97 <=? c) && (c <=? 102)) eqn:E2; [to_prop; lia|].
  destruct ((65 <=? c) && (c <=? 70)) eqn:E3; [to_prop; lia|done].
Qed.

Lemma strto_digits base s :
  s <> [] -> Forall (digit_ok base) s -> skip_prefix base s = s -> strto base s = Some (false, digits_val base s).
Proof.
  intros N H P. unfold strto. destruct s as [|c s]; [done|].
  pose proof (Forall_inv H) as Hc. destruct (digit_plain _ _ Hc) as (Es & N1 & N2).
  cbn [skip_spaces]. rewrite Es.
  assert (Em : (match c :: s with 45 :: s' => (true, s') | 43 :: s' => (false, s') | _ => (false, c :: s) end)
               = (false, c :: s)).
  { destruct c as [|p|p]; try done. do 6 (destruct p as [p|p|]; try done). }
  rewrite Em, P, read_digits_val by done. done.
Qed.

Lemma skip_prefix_10 s : skip_prefix 10 s = s.
Proof. unfold skip_prefix. by repeat case_match. Qed.

Lemma print_dec_ok n : Forall (digit_ok 10) (print_dec n).
Proof. apply print_loop_chars; [lia| |constructor]. intros d Hd. apply digit_char_ok; lia. Qed.

Lemma print_hex_ok n : Forall (digit_ok 16) (print_hex n).
Proof. apply print_loop_chars; [lia| |constructor]. intros d Hd. apply digit_char_ok; lia. Qed.

Lemma print_val_nil base n : n * base ^ zlen (@nil Z) + digits_val base [] = n.
Proof. rewrite zlen_nil, Z.pow_0_r. change (digits_val base []) with 0. lia. Qed.

Lemma strto_dec n : is_u64 n -> strto 10 (print_dec n) = Some (false, n).
Proof.
  intros H. rewrite strto_digits; [|apply print_nonempty|apply print_dec_ok|apply skip_prefix_10].
  unfold print_dec, is_u64 in *. rewrite print_loop_val by (cbn; lia). do 2 f_equal. apply print_val_nil.
Qed.

Lemma strto_hex_0x n : is_u64 n -> strto 16 (str "0x" ++ print_hex n) = Some (false, n).
Proof.
  intros H. change (str "0x" ++ print_hex n) with (48 :: 120 :: print_hex n). unfold strto.
  cbn [skip_spaces]. change (isspace 48) with false. cbn match.
  pose proof (print_hex_ok n) as D. pose proof (print_nonempty 16 15 n) as N. fold (print_hex n) in N.
  destruct (print_hex n) as [|c s] eqn:E; [done|].
  assert (P : skip_prefix 16 (48 :: 120 :: c :: s) = c :: s).
  { unfold skip_prefix. destruct (Forall_inv D) as (d & Ed & _). rewrite Ed. reflexivity. }
  rewrite P, read_digits_val by done. rewrite <- E. unfold print_hex, is_u64 in *.
  rewrite print_loop_val by (cbn; lia). cbn [fmap option_fmap option_map]. do 2 f_equal. apply print_val_nil.
Qed.

Lemma stoull_hex n : is_u64 n -> stoull 16 (str "0x" ++ print_hex n) = Ok n.
Proof. intros H. unfold stoull. rewrite strto_hex_0x by done. destruct H. z_tests. done. Qed.

Lemma stoull_dec n : is_u64 n -> stoull 10 (print_dec n) = Ok n.
Proof. intros H. unfold stoull. rewrite strto_dec by done. destruct H. z_tests. done. Qed.

Lemma stoul_dec n : is_u64 n -> stoul (print_dec n) = Ok n.
Proof. intros H. unfold stoul. rewrite strto_dec by done. destruct H. z_tests. done. Qed.

Lemma stoi_dec n : 0 <= n < 2 ^ 31 -> stoi (print_dec n) = Ok n.
Proof. intros H. unfold stoi. rewrite strto_dec by (unfold is_u64; lia). z_tests. done. Qed.

(** ** Lemmas: what a conversion returns *)

Lemma stoull_returns base s : returns (stoull base s).
Proof. unfold stoull. destruct (strto base s) as [[n v]|]; [destruct (_ >=? _)|]; (right; by eexists) || (left; by eexists). Qed.

Lemma digit_nonneg base c d : digit_in base c = Some d -> 0 <= d.
Proof.
  unfold digit_in, digit_value. intros E.
  destruct ((48 <=? c) && (c <=? 57)) eqn:E1; [|destruct ((97 <=? c) && (c <=? 102)) eqn:E2;
    [|destruct ((65 <=? c) && (c <=? 70)) eqn:E3; [|done]]]; to_prop; destruct (_ <? base); (injection E as <-; lia) || done.
Qed.

Lemma read_digits_nonneg base s acc v :
  0 <= base -> 0 <= default 0 acc -> read_digits base s acc = Some v -> 0 <= v.
Proof.
  intros B. revert acc. induction s as [|c s IH]; intros acc A H; cbn [read_digits] in H; [by subst acc|].
  destruct (digit_in base c) as [d|] eqn:E; [|by subst acc]. apply IH in H; [done|].
  apply digit_nonneg in E. change (0 <= default 0 acc * base + d). nia.
Qed.

Lemma strto_nonneg base s b v : 0 <= base -> strto base s = Some (b, v) -> 0 <= v.
Proof.
  intros B H. unfold strto in H.
  match type of H with (let '(_, _) := ?x in _) = _ => destruct x as [neg s'] end.
  destruct (read_digits base _ None) as [w|] eqn:R; [|done]. injection H as _ <-.
  by apply read_digits_nonneg in R.
Qed.

Lemma stoull_range base s n : 0 <= base -> stoull base s = Ok n -> is_u64 n.
Proof.
  intros B. unfold stoull. destruct (strto base s) as [[b v]|] eqn:S; [|done].
  apply strto_nonneg in S; [|done]. destruct (_ >=? _) eqn:E; [done|]. to_prop.
  intros [= <-]. destruct b; [apply u64_range|]. unfold is_u64. lia.
Qed.

(** ** Lemmas: searching *)

Lemma find_at_cons pat x s i :
  starts_with pat (x :: s) = false -> find_at pat (x :: s) i = find_at pat s (S i).
Proof. intros E. cbn [find_at]. by rewrite E. Qed.

Lemma find_at_free pat c0 s rest i :
  free_of c0 s -> starts_with pat (pat ++ rest) = true -> head pat = Some c0 ->
  find_at pat (s ++ pat ++ rest) i = Some (i + length s)%nat.
Proof.
  intros F P Hh. revert i. induction F as [|c s Hc F IH]; intros i.
  - cbn [app length]. rewrite Nat.add_0_r. destruct (pat ++ rest) eqn:E; unfold find_at; fold find_at; by rewrite P.
  - cbn [app length find_at].
    assert (starts_with pat (c :: s ++ pat ++ rest) = false) as ->.
    { apply bool_decide_eq_false. destruct pat as [|p pat]; [done|]. injection Hh as ->. intros [=]. done. }
    rewrite IH. f_equal. lia.
Qed.
