(* ===== verification/JsonLexer.v ===== *)
(** * The lexer of the JSON library (src/external/nlohmann/json.hpp, class lexer)

    Tokens from text. The state of the lexer is the text that [get()] has
    still to return: [unget()] leaves a character in it. A token that could
    not be read is [TError]; the texts of the library's error messages, and
    the positions they mention, are not modelled. Floating-point numbers are
    those of [strtod] ([FloatLib]), in the "C" locale, whose decimal point is
    the one of JSON. *)

From stdpp Require Import base list numbers strings.
From Stdlib Require Import ZArith Lia.
From S2P Require Import Prelude.

#[local] Open Scope Z_scope.

(** ** Floating-point numbers *)

(** [double], [std::strtod], [std::isfinite] and the shortest printed form
    that the library's Grisu2 code finds. *)
Class FloatLib : Type := {
  float : Type;
  strtod : std_string -> float;
  isfinite : float -> bool;
  print_float : float -> std_string;
}.

(** A stand-in on which examples evaluate: the text of the number. *)
Module TestFloat.

#[global] Instance floats : FloatLib := {|
  float := std_string;
  strtod := fun s => s;
  isfinite := fun _ => true;
  print_float := fun s => s;
|}.

End TestFloat.

(** ** Strings *)

(** What one turn of the loop of [scan_string] does: add bytes, end, fail. *)
Inductive char_step : Type :=
| SAdd (bytes : Bytes) (rest : std_string)
| SEnd (rest : std_string)
| SBad.

(** json.hpp 7265-7280: the value of a hexadecimal digit. *)
Definition hex_digit (c : Z) : option Z :=
  if (48 <=? c) && (c <=? 57) then Some (c - 0x30)
  else if (65 <=? c) && (c <=? 70) then Some (c - 0x37)
  else if (97 <=? c) && (c <=? 102) then Some (c - 0x57)
  else None.

(** json.hpp 7254-7285, with [None] for -1. *)
Fixpoint get_codepoint (factors : list Z) (codepoint : Z) (s : std_string) : option (Z * std_string) :=
  match factors, s with
  | [], _ => Some (codepoint, s)
  | factor :: factors, c :: s =>
      match hex_digit c with
      | Some d => get_codepoint factors (codepoint + Z.shiftl d factor) s
      | None => None
      end
  | _ :: _, [] => None
  end.

Definition factors : list Z := [12; 8; 4; 0].

(** json.hpp 7467-7493. *)
Definition utf8_bytes (codepoint : Z) : Bytes :=
  if codepoint <? 0x80 then [codepoint]
  else if codepoint <=? 0x7FF then
    [Z.lor 0xC0 (Z.shiftr codepoint 6); Z.lor 0x80 (Z.land codepoint 0x3F)]
  else if codepoint <=? 0xFFFF then
    [Z.lor 0xE0 (Z.shiftr codepoint 12); Z.lor 0x80 (Z.land (Z.shiftr codepoint 6) 0x3F);
     Z.lor 0x80 (Z.land codepoint 0x3F)]
  else
    [Z.lor 0xF0 (Z.shiftr codepoint 18); Z.lor 0x80 (Z.land (Z.shiftr codepoint 12) 0x3F);
     Z.lor 0x80 (Z.land (Z.shiftr codepoint 6) 0x3F); Z.lor 0x80 (Z.land codepoint 0x3F)].

(** json.hpp 7404-7496: after [\u], with surrogate pairs. *)
Definition scan_unicode (s : std_string) : char_step :=
  match get_codepoint factors 0 s with
  | None => SBad
  | Some (codepoint1, s) =>
      if (0xD800 <=? codepoint1) && (codepoint1 <=? 0xDBFF) then
        match s with
        | c1 :: c2 :: s =>
            if (c1 =? 92) && (c2 =? 117) then
              match get_codepoint factors 0 s with
              | None => SBad
              | Some (codepoint2, s) =>
                  if (0xDC00 <=? codepoint2) && (codepoint2 <=? 0xDFFF) then
                    SAdd (utf8_bytes (u32 (u32 (Z.shiftl codepoint1 10) + codepoint2 - 0x35FDC00))) s
                  else SBad
              end
            else SBad
        | _ => SBad
        end
      else if (0xDC00 <=? codepoint1) && (codepoint1 <=? 0xDFFF) then SBad
      else SAdd (utf8_bytes codepoint1) s
  end.

(** json.hpp 7366-7505: after a backslash. *)
Definition scan_escape (s : std_string) : char_step :=
  match s with
  | [] => SBad
  | c :: s =>
      if c =? 34 then SAdd [34] s
      else if c =? 92 then SAdd [92] s
      else if c =? 47 then SAdd [47] s
      else if c =? 98 then SAdd [8] s
      else if c =? 102 then SAdd [12] s
      else if c =? 110 then SAdd [10] s
      else if c =? 114 then SAdd [13] s
      else if c =? 116 then SAdd [9] s
      else if c =? 117 then scan_unicode s
      else SBad
  end.

(** json.hpp 7800-7920: the ranges of the bytes that may follow the first
    byte of a multi-byte character. *)
Definition lead_ranges (c : Z) : option (list (Z * Z)) :=
  if (0xC2 <=? c) && (c <=? 0xDF) then Some [(0x80, 0xBF)]
  else if c =? 0xE0 then Some [(0xA0, 0xBF); (0x80, 0xBF)]
  else if (0xE1 <=? c) && (c <=? 0xEC) || (c =? 0xEE) || (c =? 0xEF) then Some [(0x80, 0xBF); (0x80, 0xBF)]
  else if c =? 0xED then Some [(0x80, 0x9F); (0x80, 0xBF)]
  else if c =? 0xF0 then Some [(0x90, 0xBF); (0x80, 0xBF); (0x80, 0xBF)]
  else if (0xF1 <=? c) && (c <=? 0xF3) then Some [(0x80, 0xBF); (0x80, 0xBF); (0x80, 0xBF)]
  else if c =? 0xF4 then Some [(0x80, 0x8F); (0x80, 0xBF); (0x80, 0xBF)]
  else None.

Definition in_range (r : Z * Z) (c : Z) : bool := (fst r <=? c) && (c <=? snd r).

(** json.hpp 7302-7322; [added] are the bytes added so far. *)
Fixpoint next_byte_in_range (ranges : list (Z * Z)) (added : Bytes) (s : std_string) : char_step :=
  match ranges, s with
  | [], _ => SAdd added s
  | r :: ranges, c :: s => if in_range r c then next_byte_in_range ranges (added ++ [c]) s else SBad
  | _ :: _, [] => SBad
  end.

(** json.hpp 7507-7698: control characters have to be escaped. *)
Definition is_control (c : Z) : bool := c <=? 0x1F.

(** json.hpp 7700-7798: the other characters of one byte. *)
Definition is_plain (c : Z) : bool := (0x20 <=? c) && (c <=? 0x7F).

(** json.hpp 7347-7363: one turn of the loop. *)
Definition scan_char (s : std_string) : char_step :=
  match s with
  | [] => SBad
  | c :: s =>
      if c =? 34 then SEnd s
      else if c =? 92 then scan_escape s
      else if is_control c then SBad
      else if is_plain c then SAdd [c] s
      else match lead_ranges c with Some ranges => next_byte_in_range ranges [c] s | None => SBad end
  end.

(** json.hpp 7339-7346 and 7921-7923, after the opening quote. Every turn
    reads a character. *)
Fixpoint scan_string (fuel : nat) (token_buffer : Bytes) (s : std_string) : option (Bytes * std_string) :=
  match fuel with
  | O => None
  | S fuel =>
      match scan_char s with
      | SAdd bytes s => scan_string fuel (token_buffer ++ bytes) s
      | SEnd s => Some (token_buffer, s)
      | SBad => None
      end
  end.

(** ** Numbers *)

(** The states of the number scanner, labels of [scan_number]; in [NDone] and
    [NError] it stops. *)
Inductive num_state : Type :=
| NMinus | NZero | NAny1 | NDecimal1 | NDecimal2 | NExponent | NSign | NAny2 | NDone | NError.

Definition is_digit (c : Z) : bool := (48 <=? c) && (c <=? 57).

Definition is_exp (c : Z) : bool := (c =? 101) || (c =? 69).

(** json.hpp 8097-8327: the next state on a character. *)
Definition num_next (st : num_state) (c : Z) : num_state :=
  match st with
  | NMinus => if c =? 48 then NZero else if is_digit c then NAny1 else NError
  | NZero => if c =? 46 then NDecimal1 else if is_exp c then NExponent else NDone
  | NAny1 => if is_digit c then NAny1 else if c =? 46 then NDecimal1 else if is_exp c then NExponent else NDone
  | NDecimal1 => if is_digit c then NDecimal2 else NError
  | NDecimal2 => if is_digit c then NDecimal2 else if is_exp c then NExponent else NDone
  | NExponent => if (c =? 43) || (c =? 45) then NSign else if is_digit c then NAny2 else NError
  | NSign => if is_digit c then NAny2 else NError
  | NAny2 => if is_digit c then NAny2 else NDone
  | NDone | NError => NError
  end.

(** Whether the number may end here, as it does when the text ends. *)
Definition num_accepts (st : num_state) : bool :=
  match st with NZero | NAny1 | NDecimal2 | NAny2 => true | _ => false end.

Definition num_is_float (st : num_state) : bool :=
  match st with NDecimal1 | NDecimal2 | NExponent | NSign | NAny2 => true | _ => false end.

(** json.hpp 8063-8095: the state after the first character. *)
Definition num_start (c : Z) : num_state :=
  if c =? 45 then NMinus else if c =? 48 then NZero else if is_digit c then NAny1 else NError.

(** json.hpp 8097-8332: the characters of the number, whether it is a float,
    and the text after it. *)
Fixpoint scan_digits (st : num_state) (token_buffer : std_string) (s : std_string) :
  option (std_string * bool * std_string) :=
  match s with
  | [] => if num_accepts st then Some (token_buffer, num_is_float st, []) else None
  | c :: s' =>
      match num_next st c with
      | NError => None
      | NDone => Some (token_buffer, num_is_float st, s)
      | st' => scan_digits st' (token_buffer ++ [c]) s'
      end
  end.

(** The digits of a decimal number, as [strtoull] and [strtoll] read them. *)
Definition dec_value (s : std_string) : Z := foldl (fun v c => v * 10 + (c - 48)) 0 s.

Section WithFloat.
Context {FL : FloatLib}.

(** json.hpp 7123-7142. *)
Inductive token : Type :=
| TTrue | TFalse | TNull
| TString (s : Bytes) | TUnsigned (n : Z) | TInteger (n : Z) | TFloat (f : float)
| TBeginArray | TBeginObject | TEndArray | TEndObject | TNameSep | TValueSep
| TError | TEnd.

(** json.hpp 8334-8379: integers that fit, floats otherwise. *)
Definition number_token (token_buffer : std_string) (is_float : bool) : token :=
  if is_float then TFloat (strtod token_buffer)
  else
    match token_buffer with
    | [] => TError
    | c :: digits =>
        if c =? 45 then
          let x := - dec_value digits in
          if x <? - 2 ^ 63 then TFloat (strtod token_buffer) else TInteger x
        else
          let x := dec_value token_buffer in
          if 2 ^ 64 <=? x then TFloat (strtod token_buffer) else TUnsigned x
    end.

(** json.hpp 8054-8379, from the number's first character. *)
Definition scan_number (c : Z) (s : std_string) : token * std_string :=
  match scan_digits (num_start c) [c] s with
  | Some (buffer, is_float, s) => (number_token buffer is_float, s)
  | None => (TError, s)
  end.

(** json.hpp 8387-8400, after the first character of the literal. *)
Fixpoint scan_literal (literal_text : std_string) (t : token) (s : std_string) : token * std_string :=
  match literal_text, s with
  | [], _ => (t, s)
  | l :: literal_text, c :: s => if c =? l then scan_literal literal_text t s else (TError, s)
  | _ :: _, [] => (TError, [])
  end.

Definition is_space (c : Z) : bool := (c =? 32) || (c =? 9) || (c =? 10) || (c =? 13).

(** json.hpp 8593-8600. *)
Fixpoint skip_whitespace (s : std_string) : std_string :=
  match s with
  | c :: s' => if is_space c then skip_whitespace s' else s
  | [] => []
  end.

(** json.hpp 8611-8688, without comments. A null byte ends the input. *)
Definition scan (s : std_string) : token * std_string :=
  match skip_whitespace s with
  | [] => (TEnd, [])
  | c :: s =>
      if c =? 91 then (TBeginArray, s)
      else if c =? 93 then (TEndArray, s)
      else if c =? 123 then (TBeginObject, s)
      else if c =? 125 then (TEndObject, s)
      else if c =? 58 then (TNameSep, s)
      else if c =? 44 then (TValueSep, s)
      else if c =? 116 then scan_literal (str "rue") TTrue s
      else if c =? 102 then scan_literal (str "alse") TFalse s
      else if c =? 110 then scan_literal (str "ull") TNull s
      else if c =? 34 then
        match scan_string (S (length s)) [] s with Some (buffer, s) => (TString buffer, s) | None => (TError, s) end
      else if (c =? 45) || is_digit c then scan_number c s
      else if c =? 0 then (TEnd, s)
      else (TError, s)
  end.

(** json.hpp 8579-8591. *)
Definition skip_bom (s : std_string) : option std_string :=
  if starts_with [0xEF; 0xBB; 0xBF] s then Some (drop 3 s)
  else if starts_with [0xEF] s then None
  else Some s.

(** json.hpp 8602-8609: the first call of [scan]. *)
Definition scan_first (s : std_string) : token * std_string :=
  match skip_bom s with
  | Some s => scan s
  | None => (TError, s)
  end.

End WithFloat.

(** ** Lemmas: every token takes text *)

Lemma get_codepoint_shorter fs : forall cp s cp' s', get_codepoint fs cp s = Some (cp', s') -> (length s' <= length s)%nat.
Proof.
  induction fs as [|f fs IH]; intros cp s cp' s' H; cbn in H; [by injection H as _ <-|].
  destruct s as [|c s]; [done|]. destruct (hex_digit c); [|done]. apply IH in H. cbn. lia.
Qed.

Lemma scan_unicode_shorter s b s' : scan_unicode s = SAdd b s' -> (length s' <= length s)%nat.
Proof.
  unfold scan_unicode. destruct (get_codepoint _ _ _) as [[cp1 s1]|] eqn:E1; [|done]. apply get_codepoint_shorter in E1.
  destruct (_ && _).
  - destruct s1 as [|c1 [|c2 s2]]; [done..|]. destruct (_ && _); [|done].
    destruct (get_codepoint _ _ s2) as [[cp2 s3]|] eqn:E2; [|done]. apply get_codepoint_shorter in E2.
    destruct (_ && _); [|done]. intros [= <- <-]. cbn in *. lia.
  - destruct (_ && _); [done|]. intros [= <- <-]. done.
Qed.

Lemma next_byte_shorter rs : forall added s b s', next_byte_in_range rs added s = SAdd b s' -> (length s' <= length s)%nat.
Proof.
  induction rs as [|r rs IH]; intros added s b s' H; cbn in H; [by injection H as _ <-|].
  destruct s as [|c s]; [done|]. destruct (in_range r c); [|done]. apply IH in H. cbn. lia.
Qed.

Lemma next_byte_not_end rs : forall added s s', next_byte_in_range rs added s <> SEnd s'.
Proof.
  induction rs as [|r rs IH]; intros added s s'; cbn; [done|]. destruct s as [|c s]; [done|]. by destruct (in_range r c).
Qed.

Lemma scan_unicode_not_end s s' : scan_unicode s <> SEnd s'.
Proof. unfold scan_unicode. repeat case_match; done. Qed.

Lemma scan_escape_shorter s b s' : scan_escape s = SAdd b s' -> (length s' < length s)%nat.
Proof.
  destruct s as [|c s]; [done|]. cbn. repeat (case_match; [intros [= <- <-]; lia|]).
  case_match; [|done]. intros H'. apply scan_unicode_shorter in H'. lia.
Qed.

Lemma scan_escape_not_end s s' : scan_escape s <> SEnd s'.
Proof. destruct s as [|c s]; [done|]. cbn. repeat (case_match; [done|]). case_match; [apply scan_unicode_not_end|done]. Qed.

Lemma scan_char_add s b s' : scan_char s = SAdd b s' -> (length s' < length s)%nat.
Proof.
  destruct s as [|c s]; [done|]. cbn. destruct (c =? 34); [done|]. destruct (c =? 92).
  { intros H. apply scan_escape_shorter in H. lia. }
  destruct (is_control c); [done|]. destruct (is_plain c); [intros [= <- <-]; lia|].
  destruct (lead_ranges c); [|done]. intros H. apply next_byte_shorter in H. lia.
Qed.

Lemma scan_char_end s s' : scan_char s = SEnd s' -> (length s' < length s)%nat.
Proof.
  destruct s as [|c s]; [done|]. cbn. destruct (c =? 34); [intros [= <-]; lia|].
  destruct (c =? 92); [by intros ?%scan_escape_not_end|]. destruct (is_control c); [done|]. destruct (is_plain c); [done|].
  destruct (lead_ranges c); [|done]. by intros ?%next_byte_not_end.
Qed.

Lemma scan_string_shorter fuel : forall buf s b s', scan_string fuel buf s = Some (b, s') -> (length s' < length s)%nat.
Proof.
  induction fuel as [|fuel IH]; intros buf s b s' H; cbn in H; [done|]. destruct (scan_char s) as [bs s1|s1|] eqn:E; [| |done].
  - apply IH in H. apply scan_char_add in E. lia.
  - injection H as <- <-. by apply scan_char_end.
Qed.

(** A turn per character is enough for a string. *)
Lemma scan_string_fuel fuel fuel' : forall buf s,
  (length s < fuel)%nat -> (length s < fuel')%nat -> scan_string fuel buf s = scan_string fuel' buf s.
Proof.
  revert fuel'. induction fuel as [|fuel IH]; intros fuel' buf s L L'; [lia|]. destruct fuel' as [|fuel']; [lia|].
  cbn. destruct (scan_char s) as [bs s1|s1|] eqn:E; [|done..]. apply scan_char_add in E. apply IH; lia.
Qed.

Lemma scan_digits_shorter s : forall st buf b f s', scan_digits st buf s = Some (b, f, s') -> (length s' <= length s)%nat.
Proof.
  induction s as [|c s IH]; intros st buf b f s' H; cbn in H; [by destruct (num_accepts st); [injection H as _ _ <-|]|].
  destruct (num_next st c); try (apply IH in H; cbn; lia); [by injection H as _ _ <-|done].
Qed.

Section Consumption.
Context {FL : FloatLib}.

Lemma scan_literal_shorter l : forall (t : token) s t' s', scan_literal l t s = (t', s') -> (length s' <= length s)%nat.
Proof.
  induction l as [|x l IH]; intros t s t' s' H; cbn in H; [by injection H as _ <-|].
  destruct s as [|c s]; [by injection H as _ <-|]. destruct (c =? x); [|injection H as _ <-; cbn; lia]. apply IH in H. cbn. lia.
Qed.

Lemma scan_number_shorter c s (t : token) s' : scan_number c s = (t, s') -> (length s' <= length s)%nat.
Proof.
  unfold scan_number. destruct (scan_digits _ _ _) as [[[b f] s1]|] eqn:E; intros [= <- <-]; [|done]. by apply scan_digits_shorter in E.
Qed.

Lemma skip_whitespace_shorter s : (length (skip_whitespace s) <= length s)%nat.
Proof. induction s as [|c s IH]; cbn; [done|]. destruct (is_space c); cbn; lia. Qed.

(** A token takes at least one character, except the end of the text. *)
Lemma scan_shorter s (t : token) s' : scan s = (t, s') -> (length s' < length s)%nat \/ (t = TEnd /\ s' = []).
Proof.
  unfold scan. pose proof (skip_whitespace_shorter s) as W. destruct (skip_whitespace s) as [|c r]; [intros [= <- <-]; auto|].
  cbn in W. intros H. left.
  repeat match type of H with
  | (if ?b then (_, _) else _) = _ => destruct b; [injection H as <- <-; lia|]
  | (if ?b then scan_literal _ _ _ else _) = _ => destruct b; [apply scan_literal_shorter in H; lia|]
  end.
  destruct (c =? 34).
  { destruct (scan_string _ _ _) as [[b r1]|] eqn:E; injection H as <- <-; [apply scan_string_shorter in E; lia|lia]. }
  destruct (_ || _); [apply scan_number_shorter in H; lia|]. destruct (c =? 0); injection H as <- <-; lia.
Qed.

End Consumption.
