(* ===== verification/JsonParser.v ===== *)
(** * The parser and the values of the JSON library (src/external/nlohmann/json.hpp)

    [basic_json] with its default types, the parser with the SAX handler that
    builds a value, and the accessors that the RPC server calls. The handler
    keeps a stack of pointers into the value it builds ([ref_stack]): each is
    a [frame] here, the container so far, and for an object the key whose
    value comes next. *)

From stdpp Require Import base list numbers strings.
From Stdlib Require Import ZArith Lia.
From S2P Require Import Prelude JsonLexer.

#[local] Open Scope Z_scope.

(** ** Values *)

Section Values.
Context {FL : FloatLib}.

#[local] Unset Elimination Schemes.

(** The value types that a text can hold (json.hpp 3003-3015). An object is a
    [std::map]: a list of keys and values in the order of the keys. *)
Inductive json : Type :=
| JNull
| JBool (b : bool)
| JInteger (n : Z)
| JUnsigned (n : Z)
| JFloat (f : float)
| JString (s : Bytes)
| JArray (js : list json)
| JObject (kvs : list (Bytes * json)).

#[local] Set Elimination Schemes.

Lemma json_induction (P : json -> Prop) :
  P JNull -> (forall b, P (JBool b)) -> (forall n, P (JInteger n)) -> (forall n, P (JUnsigned n)) ->
  (forall f, P (JFloat f)) -> (forall s, P (JString s)) ->
  (forall js, Forall P js -> P (JArray js)) -> (forall kvs, Forall (fun kv => P kv.2) kvs -> P (JObject kvs)) ->
  forall j, P j.
Proof.
  intros HN HB HI HU HF HS HA HO. fix go 1. intros [|b|n|n|f|s|js|kvs].
  - exact HN.
  - apply HB.
  - apply HI.
  - apply HU.
  - apply HF.
  - apply HS.
  - apply HA. induction js as [|j js IH]; constructor; [apply go|exact IH].
  - apply HO. induction kvs as [|[k j] kvs IH]; constructor; [apply go|exact IH].
Qed.

(** [std::less] on [std::string]: bytes as unsigned characters. *)
Fixpoint key_lt (a b : Bytes) : bool :=
  match a, b with
  | _, [] => false
  | [], _ :: _ => true
  | x :: a, y :: b => if x <? y then true else if y <? x then false else key_lt a b
  end.

(** json.hpp 8970-8978 and 9159-9167: [object->operator\[\](k) = v] on a
    [std::map]. *)
Fixpoint object_set (kvs : list (Bytes * json)) (k : Bytes) (v : json) : list (Bytes * json) :=
  match kvs with
  | [] => [(k, v)]
  | (k', v') :: rest =>
      if key_lt k k' then (k, v) :: kvs
      else if key_lt k' k then (k', v') :: object_set rest k v
      else (k', v) :: rest
  end.

(** [object->find(key)]. *)
Fixpoint object_find (kvs : list (Bytes * json)) (k : Bytes) : option json :=
  match kvs with
  | [] => None
  | (k', v) :: rest => if bool_decide (k = k') then Some v else object_find rest k
  end.

(** ** Accessors *)

(** json.hpp 22878-22881. *)
Definition contains (j : json) (key : Bytes) : bool :=
  match j with
  | JObject kvs => match object_find kvs key with Some _ => true | None => false end
  | _ => false
  end.

(** json.hpp 22266-22284: the element read; a missing one is made and null. *)
Definition at_key (j : json) (key : Bytes) : res json :=
  match j with
  | JNull => Ok JNull
  | JObject kvs => Ok (match object_find kvs key with Some v => v | None => JNull end)
  | _ => Throw "type_error.305"
  end.

(** json.hpp 22207-22249: a null becomes an array, and an array is filled up
    with nulls. *)
Definition at_index (j : json) (idx : Z) : res json :=
  match j with
  | JNull => Ok JNull
  | JArray js => Ok (match js !! Z.to_nat idx with Some v => v | None => JNull end)
  | _ => Throw "type_error.305"
  end.

(** json.hpp 4951-4958. The copy has to fit in memory. *)
Definition as_string (j : json) : res Bytes :=
  match j with
  | JString s => if zlen s <? 2 ^ 63 then Ok s else Throw "std::bad_alloc"
  | _ => Throw "type_error.302"
  end.

(** ** The parser *)

(** A container that is being built: json.hpp 9172-9175. *)
Inductive frame : Type :=
| FArray (js : list json)
| FObject (kvs : list (Bytes * json)) (key : Bytes).

(** Where the loop is: before a value whose first token was read, or behind a
    complete value. *)
Inductive mode : Type :=
| Before (last_token : token)
| After (v : json).

Definition syntax_error {A} : res A := Throw "parse_error.101".

(** json.hpp 13147-13172 and 13369-13392: a key and its colon, up to the
    first token of the value. *)
Definition parse_key (last_token : token) (s : std_string) : res (Bytes * token * std_string) :=
  match last_token with
  | TString key =>
      match scan s with
      | (TNameSep, s) => let (t, s) := scan s in Ok (key, t, s)
      | _ => syntax_error
      end
  | _ => syntax_error
  end.

(** json.hpp 13199-13304: the tokens that are a value of their own, and the
    errors. *)
Definition scalar (last_token : token) : res json :=
  match last_token with
  | TNull => Ok JNull
  | TTrue => Ok (JBool true)
  | TFalse => Ok (JBool false)
  | TInteger n => Ok (JInteger n)
  | TUnsigned n => Ok (JUnsigned n)
  | TFloat f => if isfinite f then Ok (JFloat f) else Throw "out_of_range.406"
  | TString str => Ok (JString str)
  | _ => syntax_error
  end.

(** json.hpp 13115-13418. A turn of the loop is one or two calls here: up to
    the end of a value, and from there ([skip_to_state_evaluation]). *)
Fixpoint sax_parse_internal (fuel : nat) (m : mode) (stack : list frame) (s : std_string) : res (json * std_string) :=
  match fuel with
  | O => OutOfFuel
  | S fuel =>
      match m with
      | Before TBeginObject =>
          match scan s with
          | (TEndObject, s) => sax_parse_internal fuel (After (JObject [])) stack s
          | (t, s) =>
              '(key, t, s) ← parse_key t s;
              sax_parse_internal fuel (Before t) (FObject [] key :: stack) s
          end
      | Before TBeginArray =>
          match scan s with
          | (TEndArray, s) => sax_parse_internal fuel (After (JArray [])) stack s
          | (t, s) => sax_parse_internal fuel (Before t) (FArray [] :: stack) s
          end
      | Before t => v ← scalar t; sax_parse_internal fuel (After v) stack s
      | After v =>
          match stack with
          | [] => Ok (v, s)
          | FArray js :: stack =>
              match scan s with
              | (TValueSep, s) => let (t, s) := scan s in sax_parse_internal fuel (Before t) (FArray (js ++ [v]) :: stack) s
              | (TEndArray, s) => sax_parse_internal fuel (After (JArray (js ++ [v]))) stack s
              | _ => syntax_error
              end
          | FObject kvs key :: stack =>
              let kvs := object_set kvs key v in
              match scan s with
              | (TValueSep, s) =>
                  let (t, s) := scan s in
                  '(key, t, s) ← parse_key t s;
                  sax_parse_internal fuel (Before t) (FObject kvs key :: stack) s
              | (TEndObject, s) => sax_parse_internal fuel (After (JObject kvs)) stack s
              | _ => syntax_error
              end
          end
      end
  end.

(** json.hpp 13060-13080 and 24165-24174: in strict mode nothing may follow. *)
Definition parse (text : std_string) : res json :=
  let (t, s) := scan_first text in
  '(v, s) ← sax_parse_internal (2 * length text + 3) (Before t) [] s;
  match scan s with
  | (TEnd, _) => Ok v
  | _ => syntax_error
  end.

End Values.

(** ** Lemmas: the loop ends *)

Section Termination.
Context {FL : FloatLib}.

(** How many calls are left at most, with the text that is left. *)
Definition mode_weight (m : mode) : nat :=
  match m with Before TEnd => 1 | Before _ => 2 | After _ => 1 end.

Definition parse_measure (m : mode) (s : std_string) : nat := (2 * length s + mode_weight m)%nat.

Lemma before_measure (t : token) s s' n :
  scan s = (t, s') -> (2 * length s + 1 < n)%nat -> (parse_measure (Before t) s' < n)%nat.
Proof.
  intros E L. unfold parse_measure. destruct (scan_shorter s t s' E) as [H|[-> ->]].
  - assert (mode_weight (Before t) <= 2)%nat by (destruct t; cbn; lia). lia.
  - cbn. lia.
Qed.

Lemma scan_drop s (t : token) s' : scan s = (t, s') -> t <> TEnd -> (length s' < length s)%nat.
Proof. intros E N. by destruct (scan_shorter s t s' E) as [H|[-> _]]. Qed.

Lemma scalar_returns (t : token) : returns (scalar t).
Proof. destruct t; cbn; try (left; by eexists); try (right; by eexists). destruct (isfinite f); [left|right]; by eexists. Qed.

Lemma parse_key_cases (t : token) s :
  (exists key s1 t' s', t = TString key /\ scan s = (TNameSep, s1) /\ scan s1 = (t', s') /\ parse_key t s = Ok (key, t', s'))
  \/ parse_key t s = syntax_error.
Proof.
  destruct t; cbn; try (by right). destruct (scan s) as [t2 s2] eqn:E2.
  destruct t2; try (by right). left. destruct (scan s2) as [t3 s3] eqn:E3. by exists s0, s2, t3, s3.
Qed.

Lemma parse_returns_at fuel : forall m stack s, (parse_measure m s < fuel)%nat -> returns (sax_parse_internal fuel m stack s).
Proof.
  induction fuel as [|fuel IH]; intros m stack s L; [lia|].
  assert (K : forall (t : token) s1 st kvs, (2 * length s1 + 1 < fuel)%nat ->
    returns ('(key, t, s) ← parse_key t s1; sax_parse_internal fuel (Before t) (FObject (kvs) key :: st) s)).
  { intros t s1 st kvs Ls. destruct (parse_key_cases t s1) as [(key & s2 & t' & s' & -> & E1 & E2 & ->)| ->]; [|right; by eexists].
    cbn [mbind res_bind]. apply IH. apply (before_measure t' s2); [done|].
    assert (length s2 < length s1)%nat by (by eapply scan_drop). lia. }
  unfold parse_measure in L. destruct m as [t|v]; cbn [sax_parse_internal].
  - assert (C : (mode_weight (Before t) = 2)%nat -> returns (v ← scalar t; sax_parse_internal fuel (After v) stack s)).
    { intros W. destruct (scalar_returns t) as [[v ->]|[w ->]]; cbn [mbind res_bind]; [|right; by eexists].
      apply IH. unfold parse_measure. cbn. lia. }
    destruct t; cbn in L;
      try exact (C eq_refl); try (right; by eexists).
    + destruct (scan s) as [t s1] eqn:E. destruct (scan_shorter s t s1 E) as [H|[-> ->]].
      * assert (B : returns (sax_parse_internal fuel (Before t) (FArray [] :: stack) s1)).
        { apply IH. apply (before_measure t s); [done|lia]. }
        destruct t; try exact B. apply IH. unfold parse_measure. cbn. lia.
      * apply IH. unfold parse_measure. cbn. lia.
    + destruct (scan s) as [t s1] eqn:E. destruct (scan_shorter s t s1 E) as [H|[-> ->]].
      * assert (B : returns ('(key, t, s) ← parse_key t s1; sax_parse_internal fuel (Before t) (FObject [] key :: stack) s)) by (apply K; lia).
        destruct t; try exact B. apply IH. unfold parse_measure. cbn. lia.
      * right. by eexists.
  - cbn in L. destruct stack as [|[js|kvs key] stack]; [left; by eexists|..].
    + destruct (scan s) as [t s1] eqn:E. destruct t; try (right; by eexists);
        assert (Ls : (length s1 < length s)%nat) by (by eapply scan_drop).
      * apply IH. unfold parse_measure. cbn. lia.
      * destruct (scan s1) as [t2 s2] eqn:E2. apply IH. apply (before_measure t2 s1); [done|lia].
    + destruct (scan s) as [t s1] eqn:E. destruct t; try (right; by eexists);
        assert (Ls : (length s1 < length s)%nat) by (by eapply scan_drop).
      * apply IH. unfold parse_measure. cbn. lia.
      * destruct (scan s1) as [t2 s2] eqn:E2. apply K. destruct (scan_shorter s1 t2 s2 E2) as [H2|[_ ->]]; cbn; lia.
Qed.

Lemma scan_first_shorter s (t : token) s' : scan_first s = (t, s') -> (length s' <= length s)%nat.
Proof.
  unfold scan_first, skip_bom. destruct (starts_with _ s).
  - intros E. destruct (scan_shorter _ _ _ E) as [H|[_ ->]]; [|cbn; lia]. rewrite length_drop in H. lia.
  - destruct (starts_with _ s); [by intros [= <- <-]|]. intros E. destruct (scan_shorter _ _ _ E) as [H|[_ ->]]; cbn; lia.
Qed.

Lemma parse_returns text : returns (parse text).
Proof.
  unfold parse. destruct (scan_first text) as [t s] eqn:E. apply scan_first_shorter in E.
  destruct (parse_returns_at (2 * length text + 3) (Before t) [] s) as [[[v s'] ->]|[w ->]]; cbn [mbind res_bind].
  - unfold parse_measure. assert (mode_weight (Before t) <= 2)%nat by (destruct t; cbn; lia). lia.
  - destruct (scan s') as [[] ?]; solve [left; by eexists|right; by eexists].
  - right. by eexists.
Qed.

(** More fuel does not change the answer. *)
Lemma sax_parse_fuel fuel : forall m stack s r,
  sax_parse_internal fuel m stack s = r -> r <> OutOfFuel -> forall k, sax_parse_internal (k + fuel) m stack s = r.
Proof.
  induction fuel as [|fuel IH]; intros m stack s r E N k; [by subst r|]. rewrite Nat.add_succ_r. cbn [sax_parse_internal] in *.
  assert (K : forall (t : token) s1 st kvs,
    ('(key, t, s) ← parse_key t s1; sax_parse_internal fuel (Before t) (FObject kvs key :: st) s) = r ->
    ('(key, t, s) ← parse_key t s1; sax_parse_internal (k + fuel) (Before t) (FObject kvs key :: st) s) = r).
  { intros t s1 st kvs Er. destruct (parse_key t s1) as [[[key t'] s']| | |]; [|exact Er..]. by apply IH. }
  destruct m as [t|v].
  - assert (C : (v ← scalar t; sax_parse_internal fuel (After v) stack s) = r -> (v ← scalar t; sax_parse_internal (k + fuel) (After v) stack s) = r).
    { intros Er. destruct (scalar t) as [v| | |]; [|exact Er..]. by apply IH. }
    destruct t; try (by apply C); destruct (scan s) as [t s1]; destruct t; try (by apply IH); by apply K.
  - destruct stack as [|[js|kvs key] stack]; [done|..]; destruct (scan s) as [t s1]; destruct t; try done; try (by apply IH);
      destruct (scan s1) as [t2 s2]; [by apply IH|by apply K].
Qed.

End Termination.
