(* ===== verification/JsonSerializer.v ===== *)
(** * The serializer of the JSON library (src/external/nlohmann/json.hpp, class serializer)

    [dump()] as the RPC server calls it: compact, without escaping of
    non-ASCII characters, and with errors for text that is not UTF-8. The
    buffers are the library's: a write outside of them is [UB]. *)

From stdpp Require Import base list numbers strings.
From Stdlib Require Import ZArith Lia.
From S2P Require Import Prelude JsonLexer JsonParser.

#[local] Open Scope Z_scope.

(** ** UTF-8 *)

(** json.hpp 18884-18885. *)
Definition UTF8_ACCEPT : Z := 0.

Definition UTF8_REJECT : Z := 1.

(** json.hpp 19728-19746: the class of each byte, then a row of sixteen
    states per state. *)
Definition utf8d : list Z :=
  replicate 128 0 ++
  replicate 16 1 ++ replicate 16 9 ++ replicate 32 7 ++
  [8; 8] ++ replicate 30 2 ++
  [0xA; 0x3; 0x3; 0x3; 0x3; 0x3; 0x3; 0x3; 0x3; 0x3; 0x3; 0x3; 0x3; 0x4; 0x3; 0x3] ++
  [0xB; 0x6; 0x6; 0x6; 0x5; 0x8; 0x8; 0x8; 0x8; 0x8; 0x8; 0x8; 0x8; 0x8; 0x8; 0x8] ++
  [0x0; 0x1; 0x2; 0x3; 0x5; 0x8; 0x7; 0x1; 0x1; 0x1; 0x4; 0x6; 0x1; 0x1; 0x1; 0x1] ++
  [1; 1; 1; 1; 1; 1; 1; 1; 1; 1; 1; 1; 1; 1; 1; 1] ++ [1; 0; 1; 1; 1; 1; 1; 0; 1; 0; 1; 1; 1; 1; 1; 1] ++
  [1; 2; 1; 1; 1; 1; 1; 2; 1; 2; 1; 1; 1; 1; 1; 1] ++ [1; 1; 1; 1; 1; 1; 1; 2; 1; 1; 1; 1; 1; 1; 1; 1] ++
  [1; 2; 1; 1; 1; 1; 1; 1; 1; 2; 1; 1; 1; 1; 1; 1] ++ [1; 1; 1; 1; 1; 1; 1; 3; 1; 3; 1; 1; 1; 1; 1; 1] ++
  [1; 3; 1; 1; 1; 1; 1; 3; 1; 3; 1; 1; 1; 1; 1; 1] ++ [1; 3; 1; 1; 1; 1; 1; 1; 1; 1; 1; 1; 1; 1; 1; 1].

(** json.hpp 19726-19759: the new state and code point. *)
Definition decode (state codep byte : Z) : Z * Z :=
  let type := nth (Z.to_nat byte) utf8d 0 in
  let codep :=
    if negb (state =? UTF8_ACCEPT) then Z.lor (Z.land byte 0x3F) (u32 (Z.shiftl codep 6))
    else Z.land (Z.shiftr 0xFF type) byte in
  (nth (Z.to_nat (256 + state * 16 + type)) utf8d 0, codep).

(** ** Strings *)

(** [string_buffer\[bytes++\] = c], the buffer having 512 places. *)
Definition put (buffer : Bytes) (c : Z) : res Bytes :=
  if zlen buffer <? 512 then Ok (buffer ++ [c]) else UB.

(** [snprintf(string_buffer.data() + bytes, 7, "\\u%04x", codepoint)], which
    also writes a null byte behind the text. *)
Definition put_unicode (buffer : Bytes) (codepoint : Z) : res Bytes :=
  if zlen buffer + 7 <=? 512 then Ok (buffer ++ [92; 117] ++ set_width 4 (print_hex codepoint)) else UB.

(** json.hpp 19235-19316: what is written for a code point whose last byte is
    [byte]. *)
Definition put_codepoint (buffer : Bytes) (codepoint byte : Z) : res Bytes :=
  let escape c := (buffer ← put buffer 92; put buffer c) in
  if codepoint =? 0x08 then escape 98
  else if codepoint =? 0x09 then escape 116
  else if codepoint =? 0x0A then escape 110
  else if codepoint =? 0x0C then escape 102
  else if codepoint =? 0x0D then escape 114
  else if codepoint =? 0x22 then escape 34
  else if codepoint =? 0x5C then escape 92
  else if codepoint <=? 0x1F then put_unicode buffer codepoint
  else put buffer byte.

(** json.hpp 19318-19325: the buffer is written out when fewer than 13 places
    are left. *)
Definition flush (buffer out : Bytes) : Bytes * Bytes :=
  if 512 - zlen buffer <? 13 then ([], out ++ buffer) else (buffer, out).

(** json.hpp 19217-19340, 19402-19411 and 19415-19432: the loop and what follows it. *)
Fixpoint dump_escaped (s : Bytes) (state codepoint : Z) (buffer out : Bytes) : res Bytes :=
  match s with
  | [] => if state =? UTF8_ACCEPT then Ok (out ++ buffer) else Throw "type_error.316"
  | byte :: s =>
      let (state, codepoint) := decode state codepoint byte in
      if state =? UTF8_ACCEPT then
        buffer ← put_codepoint buffer codepoint byte;
        let (buffer, out) := flush buffer out in
        dump_escaped s state codepoint buffer out
      else if state =? UTF8_REJECT then Throw "type_error.316"
      else
        buffer ← put buffer byte;
        dump_escaped s state codepoint buffer out
  end.

(** ** Integers *)

(** json.hpp 19472-19496. Every turn divides by 10000: five are enough for 64
    bits. *)
Fixpoint count_digits (fuel : nat) (x n_digits : Z) : Z :=
  match fuel with
  | O => n_digits
  | S fuel =>
      if x <? 10 then n_digits
      else if x <? 100 then n_digits + 1
      else if x <? 1000 then n_digits + 2
      else if x <? 10000 then n_digits + 3
      else count_digits fuel (x / 10000) (n_digits + 4)
  end.

(** json.hpp 19781-19785. *)
Definition remove_sign (x : Z) : Z := u64 (u64 (- (x + 1)) + 1).

(** [*(--buffer_ptr) = c] in the 64 places of [number_buffer]. *)
Definition put_back (buffer : Bytes) (ptr c : Z) : res (Bytes * Z) :=
  let ptr := ptr - 1 in
  if (0 <=? ptr) && (ptr <? zlen buffer) then Ok (<[Z.to_nat ptr := c]> buffer, ptr) else UB.

(** [digits_to_99\[i\]], json.hpp 19542-19556. *)
Definition digits_to_99 (i : Z) : Z * Z := (48 + i / 10, 48 + i mod 10).

(** json.hpp 19595-19601. Every turn divides by 100: ten are enough. *)
Fixpoint put_pairs (fuel : nat) (abs_value : Z) (buffer : Bytes) (ptr : Z) : res (Z * Bytes * Z) :=
  match fuel with
  | O => OutOfFuel
  | S fuel =>
      if abs_value >=? 100 then
        let d := digits_to_99 (abs_value mod 100) in
        '(buffer, ptr) ← put_back buffer ptr (snd d);
        '(buffer, ptr) ← put_back buffer ptr (fst d);
        put_pairs fuel (abs_value / 100) buffer ptr
      else Ok (abs_value, buffer, ptr)
  end.

(** json.hpp 19603-19612. *)
Definition put_last (abs_value : Z) (buffer : Bytes) (ptr : Z) : res Bytes :=
  if abs_value >=? 10 then
    let d := digits_to_99 abs_value in
    '(buffer, ptr) ← put_back buffer ptr (snd d);
    '(buffer, ptr) ← put_back buffer ptr (fst d);
    Ok buffer
  else
    '(buffer, ptr) ← put_back buffer ptr (48 + abs_value);
    Ok buffer.

(** json.hpp 19540-19615, on whatever [number_buffer] holds. *)
Definition dump_integer (number_buffer : Bytes) (x : Z) : res std_string :=
  if x =? 0 then Ok [48]
  else
    let negative := x <? 0 in
    let number_buffer := if negative then <[0%nat := 45]> number_buffer else number_buffer in
    let abs_value := if negative then remove_sign x else x in
    let n_chars := (if negative then 1 else 0) + count_digits 5 abs_value 1 in
    '(abs_value, number_buffer, ptr) ← put_pairs 11 abs_value number_buffer n_chars;
    number_buffer ← put_last abs_value number_buffer ptr;
    Ok (take (Z.to_nat n_chars) number_buffer).

(** ** Values *)

Section Dump.
Context {FL : FloatLib}.

(** A quoted string, json.hpp 19073-19079. *)
Definition dump_string (s : Bytes) : res std_string :=
  text ← dump_escaped s UTF8_ACCEPT 0 [] [];
  Ok ([34] ++ text ++ [34]).

(** json.hpp 19625-19632. *)
Definition dump_float (f : float) : std_string := if isfinite f then print_float f else str "null".

(** json.hpp 19051-19068 and 18985-19009: elements with commas between. *)
Fixpoint join (texts : list std_string) : std_string :=
  match texts with
  | [] => []
  | [t] => t
  | t :: texts => t ++ [44] ++ join texts
  end.

(** json.hpp 19154-19195 and 18933-18947, 18985-19009, 19014-19021, 19051-19079:
    the compact form; the buffer of [dump_integer] is the serializer's. *)
Fixpoint dump (number_buffer : Bytes) (val : json) : res std_string :=
  match val with
  | JObject kvs =>
      texts ← (fix members (kvs : list (Bytes * json)) : res (list std_string) :=
                 match kvs with
                 | [] => Ok []
                 | (k, v) :: kvs =>
                     k ← dump_string k;
                     v ← dump number_buffer v;
                     rest ← members kvs;
                     Ok ((k ++ [58] ++ v) :: rest)
                 end) kvs;
      Ok ([123] ++ join texts ++ [125])
  | JArray js =>
      texts ← (fix elements (js : list json) : res (list std_string) :=
                 match js with
                 | [] => Ok []
                 | v :: js => v ← dump number_buffer v; rest ← elements js; Ok (v :: rest)
                 end) js;
      Ok ([91] ++ join texts ++ [93])
  | JString s => dump_string s
  | JBool b => Ok (if b then str "true" else str "false")
  | JInteger n => dump_integer number_buffer n
  | JUnsigned n => dump_integer number_buffer n
  | JFloat f => Ok (dump_float f)
  | JNull => Ok (str "null")
  end.

End Dump.

(** ** Lemmas: integers *)

Lemma print_loop_acc base f : forall n out, print_loop base f n out = print_loop base f n [] ++ out.
Proof.
  induction f as [|f IH]; intros n out; cbn [print_loop]; [done|]. destruct (_ =? _); [done|].
  rewrite IH, (IH _ [_]), <- app_assoc. done.
Qed.

Lemma print_loop_enough base f : forall n out,
  1 < base -> 0 <= n < base ^ Z.of_nat (S f) -> print_loop base (S (S f)) n out = print_loop base (S f) n out.
Proof.
  induction f as [|f IH]; intros n out B H.
  - cbn [print_loop]. replace (n / base =? 0) with true; [done|]. symmetry. apply Z.eqb_eq. rewrite Z.pow_1_r in H.
    by apply Z.div_small.
  - change (print_loop base (S (S (S f))) n out) with
      (if n / base =? 0 then digit_char (n mod base) :: out else print_loop base (S (S f)) (n / base) (digit_char (n mod base) :: out)).
    rewrite IH; [done..|]. rewrite Nat2Z.inj_succ, Z.pow_succ_r in H by lia.
    split; [apply Z.div_pos; lia|]. apply Z.div_lt_upper_bound; lia.
Qed.

(** The last digit of a number. *)
Lemma print_dec_step n : 10 <= n < 2 ^ 64 -> print_dec n = print_dec (n / 10) ++ [48 + n mod 10].
Proof.
  intros H. unfold print_dec. change (print_loop 10 20 n []) with
    (if n / 10 =? 0 then [digit_char (n mod 10)] else print_loop 10 19 (n / 10) [digit_char (n mod 10)]).
  assert (1 <= n / 10) by (apply Z.div_le_lower_bound; lia). assert (n / 10 < 10 ^ Z.of_nat 19).
  { apply Z.div_lt_upper_bound; cbn; lia. }
  replace (n / 10 =? 0) with false by (symmetry; apply Z.eqb_neq; lia).
  rewrite print_loop_acc, (print_loop_enough 10 18) by (lia || (split; [lia|done])). f_equal. unfold digit_char.
  pose proof (Z.mod_pos_bound n 10). z_tests. done.
Qed.

Lemma print_dec_digit n : 0 <= n < 10 -> print_dec n = [48 + n].
Proof.
  intros H. unfold print_dec. cbn [print_loop]. rewrite Z.div_small, Z.mod_small by lia. cbn. unfold digit_char. z_tests. done.
Qed.

Lemma print_dec_len n : 10 <= n < 2 ^ 64 -> zlen (print_dec n) = zlen (print_dec (n / 10)) + 1.
Proof. intros H. rewrite print_dec_step by done. by rewrite zlen_app. Qed.

Lemma div10_range n : 10 <= n < 2 ^ 64 -> 1 <= n / 10 < 2 ^ 64.
Proof. intros H. split; [apply Z.div_le_lower_bound; lia|apply Z.div_lt_upper_bound; lia]. Qed.

Lemma count_digits_len fuel : forall x n,
  0 <= x < 2 ^ 64 -> x < 10000 ^ Z.of_nat fuel -> count_digits fuel x n = n - 1 + zlen (print_dec x).
Proof.
  induction fuel as [|fuel IH]; intros x n H L; cbn [count_digits].
  { cbn in L. assert (x = 0) as -> by lia. change (zlen (print_dec 0)) with 1. lia. }
  destruct (x <? 10) eqn:E1; to_prop; [rewrite print_dec_digit by lia; change (zlen [48 + x]) with 1; lia|].
  rewrite print_dec_len by lia. pose proof (div10_range x ltac:(lia)) as R1.
  destruct (x <? 100) eqn:E2; to_prop.
  { rewrite print_dec_digit by (split; [lia|apply Z.div_lt_upper_bound; lia]). rewrite zlen_cons, zlen_nil. lia. }
  assert (10 <= x / 10) by (apply Z.div_le_lower_bound; lia). rewrite print_dec_len, Z.div_div by lia.
  destruct (x <? 1000) eqn:E3; to_prop.
  { rewrite print_dec_digit by (split; [apply Z.div_pos; lia|apply Z.div_lt_upper_bound; lia]). rewrite zlen_cons, zlen_nil. lia. }
  assert (10 <= x / (10 * 10)) by (apply Z.div_le_lower_bound; lia).
  assert (x / (10 * 10) < 2 ^ 64) by (apply Z.div_lt_upper_bound; lia). rewrite print_dec_len, Z.div_div by lia.
  destruct (x <? 10000) eqn:E4; to_prop.
  { rewrite print_dec_digit by (split; [apply Z.div_pos; lia|apply Z.div_lt_upper_bound; lia]). rewrite zlen_cons, zlen_nil. lia. }
  assert (10 <= x / (10 * 10 * 10)) by (apply Z.div_le_lower_bound; lia).
  assert (x / (10 * 10 * 10) < 2 ^ 64) by (apply Z.div_lt_upper_bound; lia). rewrite print_dec_len, Z.div_div by lia.
  change (10 * 10 * 10 * 10) with 10000. rewrite IH; [lia| |].
  - split; [apply Z.div_pos; lia|apply Z.div_lt_upper_bound; lia].
  - rewrite Nat2Z.inj_succ, Z.pow_succ_r in L by lia. apply Z.div_lt_upper_bound; lia.
Qed.

Lemma put_back_snoc P m T c : put_back (P ++ [m] ++ T) (zlen P + 1) c = Ok (P ++ [c] ++ T, zlen P).
Proof.
  unfold put_back. rewrite !zlen_app. pose proof (zlen_nonneg P). pose proof (zlen_nonneg T).
  replace (zlen P + 1 - 1) with (zlen P) by lia. change (zlen [m]) with 1. z_tests. cbn [andb].
  rewrite zlen_to_nat. do 2 f_equal. by rewrite insert_app_r_alt, Nat.sub_diag by lia.
Qed.

Lemma two_digits n : 0 <= n -> 48 + n mod 100 / 10 = 48 + n / 10 mod 10 /\ 48 + (n mod 100) mod 10 = 48 + n mod 10.
Proof. intros H. split; f_equal; Z.div_mod_to_equations; lia. Qed.

Lemma zlen_snoc_inv {A} (l : list A) n : zlen l = n + 1 -> 0 <= n -> exists l' x, l = l' ++ [x] /\ zlen l' = n.
Proof.
  intros E H. destruct l as [|x l' _] using rev_ind; [unfold zlen in E; cbn in E; lia|].
  exists l', x. split; [done|]. rewrite zlen_app in E. change (zlen [x]) with 1 in E. lia.
Qed.

(** The digits overwrite [M], which is as long as they are. *)
Lemma put_last_digits a P M T :
  0 <= a < 100 -> zlen M = zlen (print_dec a) -> put_last a (P ++ M ++ T) (zlen P + zlen M) = Ok (P ++ print_dec a ++ T).
Proof.
  intros H L. unfold put_last. destruct (a >=? 10) eqn:E; to_prop.
  - rewrite print_dec_step in L |- * by lia. rewrite (print_dec_digit (a / 10)) in L |- * by (Z.div_mod_to_equations; lia).
    destruct (zlen_snoc_inv M 1) as (M1 & m1 & -> & L1); [rewrite L; done|lia|].
    destruct (zlen_snoc_inv M1 0) as (M0 & m0 & -> & L0); [lia..|]. destruct M0; [|rewrite zlen_cons in L0; pose proof (zlen_nonneg M0); lia].
    cbn [app]. change (zlen [m0; m1]) with 2. cbn [digits_to_99 fst snd].
    replace (P ++ m0 :: m1 :: T) with ((P ++ [m0]) ++ [m1] ++ T) by (by rewrite <- app_assoc).
    replace (zlen P + 2) with (zlen (P ++ [m0]) + 1) by (rewrite zlen_app; change (zlen [m0]) with 1; lia).
    rewrite put_back_snoc. cbn [mbind res_bind]. rewrite <- app_assoc.
    replace (zlen (P ++ [m0])) with (zlen P + 1) by (rewrite zlen_app; done). rewrite put_back_snoc. done.
  - rewrite print_dec_digit in L |- * by lia. destruct (zlen_snoc_inv M 0) as (M0 & m0 & -> & L0); [rewrite L; done|lia|].
    destruct M0; [|rewrite zlen_cons in L0; pose proof (zlen_nonneg M0); lia]. cbn [app]. change (zlen [m0]) with 1.
    by rewrite (put_back_snoc P m0 T).
Qed.

Lemma put_digits fuel : forall a P M T,
  0 <= a < 2 ^ 64 -> a < 100 ^ Z.of_nat fuel -> (1 <= fuel)%nat -> zlen M = zlen (print_dec a) ->
  ('(a, buffer, ptr) ← put_pairs fuel a (P ++ M ++ T) (zlen P + zlen M); put_last a buffer ptr) = Ok (P ++ print_dec a ++ T).
Proof.
  induction fuel as [|fuel IH]; intros a P M T H B F L; [lia|]. cbn [put_pairs]. destruct (a >=? 100) eqn:E; to_prop.
  - assert (R : 10 <= a / 10 < 2 ^ 64) by (split; [apply Z.div_le_lower_bound; lia|apply Z.div_lt_upper_bound; lia]).
    assert (D : print_dec a = print_dec (a / 100) ++ [48 + a / 10 mod 10; 48 + a mod 10]).
    { rewrite print_dec_step, (print_dec_step (a / 10)), Z.div_div by lia. by rewrite <- app_assoc. }
    rewrite D in L. rewrite zlen_app in L. change (zlen [48 + a / 10 mod 10; 48 + a mod 10]) with 2 in L.
    pose proof (zlen_nonneg (print_dec (a / 100))).
    destruct (zlen_snoc_inv M (zlen (print_dec (a / 100)) + 1)) as (M1 & m1 & -> & L1); [lia..|].
    destruct (zlen_snoc_inv M1 (zlen (print_dec (a / 100)))) as (M0 & m0 & -> & L0); [lia..|].
    rewrite <- !app_assoc. cbn [digits_to_99 fst snd]. destruct (two_digits a ltac:(lia)) as [-> ->].
    replace (P ++ M0 ++ [m0] ++ [m1] ++ T) with ((P ++ M0 ++ [m0]) ++ [m1] ++ T) by (by rewrite <- !app_assoc).
    replace (zlen P + zlen (M0 ++ [m0] ++ [m1])) with (zlen (P ++ M0 ++ [m0]) + 1) by (rewrite !zlen_app; change (zlen [m1]) with 1; lia).
    rewrite put_back_snoc. cbn [mbind res_bind].
    replace ((P ++ M0 ++ [m0]) ++ [48 + a mod 10] ++ T) with ((P ++ M0) ++ [m0] ++ [48 + a mod 10] ++ T) by (by rewrite <- !app_assoc).
    replace (zlen (P ++ M0 ++ [m0])) with (zlen (P ++ M0) + 1) by (rewrite !zlen_app; change (zlen [m0]) with 1; lia).
    rewrite put_back_snoc. cbn [mbind res_bind]. rewrite <- app_assoc, zlen_app.
    rewrite (IH (a / 100) P M0).
    + rewrite D, <- app_assoc. done.
    + split; [apply Z.div_pos; lia|apply Z.div_lt_upper_bound; lia].
    + rewrite Nat2Z.inj_succ, Z.pow_succ_r in B by lia. apply Z.div_lt_upper_bound; lia.
    + destruct fuel; [cbn in B; lia|lia].
    + done.
  - cbn [mbind res_bind]. apply put_last_digits; [lia|done].
Qed.

Lemma print_dec_bound n : 0 <= n < 2 ^ 64 -> 1 <= zlen (print_dec n) <= 20.
Proof.
  intros H. rewrite <- (Z.add_0_l (zlen (print_dec n))). replace 0 with (1 - 1) by lia.
  rewrite <- (count_digits_len 5 n 1) by (done || cbn; lia). cbn [count_digits]. repeat (case_match; to_prop; [lia|]).
  exfalso. Z.div_mod_to_equations. lia.
Qed.

Lemma split_buffer (buffer : Bytes) a b :
  0 <= a -> 0 <= b -> a + b <= zlen buffer -> exists P M T, buffer = P ++ M ++ T /\ zlen P = a /\ zlen M = b.
Proof.
  intros Ha Hb L. exists (take (Z.to_nat a) buffer), (take (Z.to_nat b) (drop (Z.to_nat a) buffer)), (drop (Z.to_nat b) (drop (Z.to_nat a) buffer)).
  rewrite !take_drop. split; [done|]. unfold zlen in *. rewrite !length_take, !length_drop. lia.
Qed.

(** [dump_integer] prints the number, whatever the buffer held. *)
Lemma dump_integer_correct number_buffer x :
  length number_buffer = 64%nat -> - 2 ^ 63 <= x < 2 ^ 64 -> dump_integer number_buffer x = Ok (print_int x).
Proof.
  intros L H. unfold dump_integer, print_int. destruct (x =? 0) eqn:E0; to_prop; [by subst x|].
  assert (Lz : zlen number_buffer = 64) by (unfold zlen; lia).
  set (a := if x <? 0 then remove_sign x else x). set (o := if x <? 0 then 1 else 0).
  assert (A : a = Z.abs x /\ 0 <= a < 2 ^ 64 /\ 0 <= o <= 1).
  { unfold a, o, remove_sign. destruct (x <? 0) eqn:E; to_prop; cbn match; [|lia].
    rewrite (u64_id (- (x + 1))), u64_id by (unfold is_u64; lia). lia. }
  destruct A as (A & R & O). rewrite count_digits_len by (done || cbn; lia). replace (1 - 1 + zlen (print_dec a)) with (zlen (print_dec a)) by lia.
  pose proof (print_dec_bound a R) as Bd.
  set (buf := if x <? 0 then <[0%nat := 45]> number_buffer else number_buffer).
  assert (Lb : zlen buf = 64) by (unfold buf; destruct (x <? 0); [unfold zlen; rewrite length_insert|]; done).
  destruct (split_buffer buf o (zlen (print_dec a))) as (P & M & T & Eb & LP & LM); [lia..|].
  fold a buf o. clearbody a. rewrite Eb, <- LP, <- LM.
  pose proof (put_digits 11 a P M T R ltac:(cbn; lia) ltac:(lia) LM) as G.
  destruct (put_pairs 11 a (P ++ M ++ T) (zlen P + zlen M)) as [[[a' b'] p']| | |]; [|discriminate G..]. cbn [mbind res_bind] in *.
  rewrite G. cbn [mbind res_bind]. f_equal.
  rewrite LM, <- zlen_app, zlen_to_nat, app_assoc, take_app_length.
  unfold o, buf in *. destruct (x <? 0) eqn:E; to_prop.
  - destruct number_buffer as [|b0 nb]; [done|]. destruct P as [|p0 [|p1 P]]; [done| |].
    + cbn in Eb. injection Eb as <- _. cbn [app]. by replace a with (- x) by lia.
    + rewrite !zlen_cons in LP. pose proof (zlen_nonneg P). lia.
  - destruct P; [|rewrite zlen_cons in LP; pose proof (zlen_nonneg P); lia]. cbn [app]. by replace a with x by lia.
Qed.
