(* ===== verification/JsonUtf8.v ===== *)
(** * UTF-8 in the JSON library

    The lexer accepts multi-byte characters by ranges of bytes, the
    serializer by a table-driven automaton. Both accept exactly the
    well-formed sequences of RFC 3629 ([utf8_ok]): what was read can be
    printed, and strings read back as they were printed. *)

From stdpp Require Import base list numbers strings.
From Stdlib Require Import ZArith Lia.
From S2P Require Import Prelude JsonLexer JsonParser JsonSerializer.

#[local] Open Scope Z_scope.

(** A text that continues a character whose next bytes lie in the ranges. *)
Fixpoint utf8_ok (ranges : list (Z * Z)) (s : Bytes) : bool :=
  match s, ranges with
  | [], [] => true
  | [], _ :: _ => false
  | c :: s, [] =>
      if (0 <=? c) && (c <=? 127) then utf8_ok [] s
      else match lead_ranges c with Some ranges => utf8_ok ranges s | None => false end
  | c :: s, r :: ranges => in_range r c && utf8_ok ranges s
  end.

(** What the serializer writes for a byte. *)
Definition escape_byte (c : Z) : Bytes :=
  if c =? 0x08 then [92; 98]
  else if c =? 0x09 then [92; 116]
  else if c =? 0x0A then [92; 110]
  else if c =? 0x0C then [92; 102]
  else if c =? 0x0D then [92; 114]
  else if c =? 0x22 then [92; 34]
  else if c =? 0x5C then [92; 92]
  else if c <=? 0x1F then [92; 117] ++ set_width 4 (print_hex c)
  else [c].

Definition escape_bytes (s : Bytes) : Bytes := concat (escape_byte <$> s).

(** ** The automaton *)

(** The bytes that a state of the table waits for. *)
Definition ranges_of (state : Z) : list (Z * Z) :=
  match state with
  | 2 => [(0x80, 0xBF)]
  | 3 => [(0x80, 0xBF); (0x80, 0xBF)]
  | 4 => [(0xA0, 0xBF); (0x80, 0xBF)]
  | 5 => [(0x80, 0x9F); (0x80, 0xBF)]
  | 6 => [(0x90, 0xBF); (0x80, 0xBF); (0x80, 0xBF)]
  | 7 => [(0x80, 0xBF); (0x80, 0xBF); (0x80, 0xBF)]
  | 8 => [(0x80, 0x8F); (0x80, 0xBF); (0x80, 0xBF)]
  | _ => []
  end.

(** Enough of the code point is known that it will not be an ASCII one. *)
Definition codep_ok (state codep : Z) : bool :=
  match state with
  | 2 => (2 <=? codep) && (codep <? 2 ^ 15)
  | 3 | 5 => (1 <=? codep) && (codep <? 2 ^ 9)
  | 4 | 6 => codep =? 0
  | 7 | 8 => (1 <=? codep) && (codep <? 8)
  | _ => true
  end.

Definition range (n : nat) : list Z := Z.of_nat <$> seq 0 n.

Lemma in_range_list n x : 0 <= x < Z.of_nat n -> In x (range n).
Proof.
  intros H. apply list_elem_of_In. apply list_elem_of_fmap. exists (Z.to_nat x). split; [lia|]. apply elem_of_seq. lia.
Qed.

Lemma check_range n (f : Z -> bool) : forallb f (range n) = true -> forall x, 0 <= x < Z.of_nat n -> f x = true.
Proof. intros H x Hx. rewrite forallb_forall in H. by apply H, in_range_list. Qed.

Definition ranges_eqb (a b : list (Z * Z)) : bool := bool_decide (a = b).

(** The first byte of a character. *)
Definition check_lead (b : Z) : bool :=
  let (st, cp) := decode 0 0 b in
  if b <=? 127 then (st =? 0) && (cp =? b)
  else
    match lead_ranges b with
    | Some rs => (2 <=? st) && (st <=? 8) && ranges_eqb (ranges_of st) rs && codep_ok st cp
    | None => st =? 1
    end.

Lemma lead_checked : forallb check_lead (range 256) = true.
Proof. vm_compute. reflexivity. Qed.

(** The state after a further byte; the code point is settled below. *)
Definition check_next (state b : Z) : bool :=
  let (st, _) := decode state 0 b in
  match ranges_of state with
  | [] => true
  | r :: rs =>
      if in_range r b then
        match rs with
        | [] => st =? 0
        | _ => (2 <=? st) && (st <=? 3) && ranges_eqb (ranges_of st) rs
        end
      else st =? 1
  end.

Lemma next_checked : forallb (fun st => forallb (check_next st) (range 256)) [2; 3; 4; 5; 6; 7; 8] = true.
Proof. vm_compute. reflexivity. Qed.

Lemma decode_start cp b : decode 0 cp b = decode 0 0 b.
Proof. done. Qed.

Lemma decode_state st cp b : st <> 0 -> (decode st cp b).1 = (decode st 0 b).1.
Proof. done. Qed.

Lemma decode_codep st cp b :
  st <> 0 -> 0 <= cp < 2 ^ 15 -> is_u8 b -> (decode st cp b).2 = cp * 64 + b mod 64.
Proof.
  intros N C B. unfold decode. cbn [snd]. replace (st =? UTF8_ACCEPT) with false by (symmetry; by apply Z.eqb_neq). cbn [negb].
  assert (M : Z.land b 0x3F = b mod 64) by (change 0x3F with (Z.ones 6); rewrite Z.land_ones by lia; done). rewrite M.
  rewrite u32_id by (rewrite Z.shiftl_mul_pow2 by lia; unfold is_u32; lia).
  rewrite Z.lor_comm, lor_shiftl_add; [done|lia|apply Z.mod_pos_bound; lia].
Qed.

Lemma decode_lead b cp st' cp' :
  is_u8 b -> decode 0 cp b = (st', cp') ->
  if b <=? 127 then st' = 0 /\ cp' = b
  else
    match lead_ranges b with
    | Some rs => 2 <= st' <= 8 /\ ranges_of st' = rs /\ codep_ok st' cp' = true
    | None => st' = 1
    end.
Proof.
  intros B E. rewrite decode_start in E. pose proof (check_range 256 check_lead lead_checked b B) as C. unfold check_lead in C.
  rewrite E in C. destruct (b <=? 127); [by to_prop|]. destruct (lead_ranges b) as [rs|]; to_prop; [|done].
  unfold ranges_eqb in *. by repeat case_bool_decide; to_prop.
Qed.

Lemma codep_range st cp : 2 <= st <= 8 -> codep_ok st cp = true -> 0 <= cp < 2 ^ 15.
Proof.
  intros S C. assert (st = 2 \/ st = 3 \/ st = 4 \/ st = 5 \/ st = 6 \/ st = 7 \/ st = 8) as D by lia.
  repeat (destruct D as [-> | D]; [cbn in C; to_prop; lia|]). subst st. cbn in C. to_prop. lia.
Qed.

Lemma decode_follow st cp b st' cp' :
  2 <= st <= 8 -> codep_ok st cp = true -> is_u8 b -> decode st cp b = (st', cp') ->
  match ranges_of st with
  | [] => False
  | r :: rs =>
      if in_range r b then
        match rs with
        | [] => st' = 0 /\ 128 <= cp' /\ 128 <= b
        | _ => 2 <= st' <= 8 /\ ranges_of st' = rs /\ codep_ok st' cp' = true /\ 128 <= b
        end
      else st' = 1
  end.
Proof.
  intros S C B E. pose proof (codep_range st cp S C) as Rc.
  pose proof (decode_codep st cp b ltac:(lia) Rc B) as Ec. pose proof (decode_state st cp b ltac:(lia)) as Es.
  rewrite E in Ec, Es. cbn [fst snd] in Ec, Es. pose proof (Z.mod_pos_bound b 64 ltac:(lia)) as Mb.
  pose proof next_checked as N. rewrite forallb_forall in N.
  assert (D : st = 2 \/ st = 3 \/ st = 4 \/ st = 5 \/ st = 6 \/ st = 7 \/ st = 8) by lia.
  assert (I : In st [2; 3; 4; 5; 6; 7; 8]) by (cbn; lia). apply N in I. pose proof (check_range 256 _ I b B) as K. clear N I.
  unfold check_next in K. destruct (decode st 0 b) as [st1 cp1]. cbn [fst] in Es. subst st1.
  unfold ranges_eqb in K.
  destruct D as [-> | [-> | [-> | [-> | [-> | [-> | ->]]]]]]; cbn [ranges_of] in *; destruct (in_range _ b) eqn:I; to_prop;
    unfold in_range in I; cbn [fst snd] in I; to_prop; try done; cbn [codep_ok] in C; to_prop; 
    repeat match goal with H : bool_decide _ = true |- _ => apply bool_decide_eq_true in H end;
    try (assert (D : st' = 2 \/ st' = 3) by lia; destruct D as [-> | ->]); try discriminate; repeat split; cbn [codep_ok];
    try (apply andb_true_intro; split); try (apply Z.leb_le); try (apply Z.ltb_lt); Z.div_mod_to_equations; try lia.
Qed.

Lemma put_ok buf c : zlen buf <= 511 -> put buf c = Ok (buf ++ [c]).
Proof. intros H. unfold put. by z_tests. Qed.

Lemma put_codepoint_ascii buf b : zlen buf <= 499 -> put_codepoint buf b b = Ok (buf ++ escape_byte b).
Proof.
  intros H. unfold put_codepoint, escape_byte. repeat (case_match; [|]).
  all: unfold put_unicode; try (rewrite put_ok by lia; cbn [mbind res_bind]; try rewrite put_ok by (rewrite zlen_app; change (zlen [92]) with 1; lia); by rewrite <- ?app_assoc).
  by z_tests.
Qed.

Lemma put_codepoint_wide buf cp b :
  zlen buf <= 511 -> 128 <= cp -> 128 <= b -> put_codepoint buf cp b = Ok (buf ++ escape_byte b).
Proof. intros H C B. unfold put_codepoint, escape_byte. z_tests. by apply put_ok. Qed.

Lemma flush_spec buf out : exists buf' out', flush buf out = (buf', out') /\ out' ++ buf' = out ++ buf /\ zlen buf' <= 499.
Proof.
  unfold flush. destruct (_ <? _) eqn:E; to_prop; do 2 eexists; split_and!; try done; [by rewrite app_nil_r|lia].
Qed.

Lemma no_ranges : zlen (@nil (Z * Z)) = 0.
Proof. done. Qed.

(** How full the buffer may be in a state. *)
Definition buffer_ok (st : Z) (buf : Bytes) : Prop := zlen buf + zlen (ranges_of st) <= if st =? 0 then 499 else 503.

Lemma escape_bytes_cons b s : escape_bytes (b :: s) = escape_byte b ++ escape_bytes s.
Proof. done. Qed.

Lemma ranges_of_long st : 2 <= st <= 8 -> 1 <= zlen (ranges_of st) <= 3.
Proof.
  intros H. assert (st = 2 \/ st = 3 \/ st = 4 \/ st = 5 \/ st = 6 \/ st = 7 \/ st = 8) as D by lia.
  destruct D as [-> | [-> | [-> | [-> | [-> | [-> | ->]]]]]]; vm_compute; split; discriminate.
Qed.

(** The serializer's loop writes the escaped text when the bytes are well
    formed, throws when they are not, and stays inside of its buffer. *)
Lemma dump_escaped_spec s : forall st cp buf out,
  bytes_ok s -> st = 0 \/ (2 <= st <= 8 /\ codep_ok st cp = true) -> buffer_ok st buf ->
  dump_escaped s st cp buf out =
    if utf8_ok (ranges_of st) s then Ok (out ++ buf ++ escape_bytes s) else Throw "type_error.316".
Proof.
  induction s as [|b s IH]; intros st cp buf out Bs V Bb.
  { destruct V as [-> | [S _]]; cbn; [by rewrite app_nil_r|]. unfold UTF8_ACCEPT. z_tests.
    pose proof (ranges_of_long st S) as L. destruct (ranges_of st); [rewrite no_ranges in L; lia|done]. }
  apply bytes_ok_cons in Bs as [B Bs]. cbn [dump_escaped]. destruct (decode st cp b) as [st' cp'] eqn:E.
  assert (Accept : forall out0, put_codepoint buf cp' b = Ok (buf ++ escape_byte b) ->
    (buffer ← put_codepoint buf cp' b; let (buffer, out) := flush buffer out0 in dump_escaped s 0 cp' buffer out)
    = if utf8_ok [] s then Ok (out0 ++ buf ++ escape_byte b ++ escape_bytes s) else Throw "type_error.316").
  { intros out0 ->. cbn [mbind res_bind]. destruct (flush_spec (buf ++ escape_byte b) out0) as (buf' & out' & -> & EF & LF).
    rewrite IH; [|done|by left|unfold buffer_ok; change (zlen (ranges_of 0)) with 0; change (0 =? 0) with true; cbn match; lia].
    change (ranges_of 0) with (@nil (Z * Z)). by rewrite (app_assoc out' buf'), EF, <- !app_assoc. }
  assert (More : forall rs, 2 <= st' <= 8 -> ranges_of st' = rs -> codep_ok st' cp' = true -> zlen buf + 1 + zlen rs <= 503 -> 128 <= b ->
    (if st' =? UTF8_REJECT then Throw "type_error.316" else (buffer ← put buf b; dump_escaped s st' cp' buffer out))
    = if utf8_ok rs s then Ok (out ++ buf ++ escape_bytes (b :: s)) else Throw "type_error.316").
  { intros rs S' Er C' L Hb. unfold UTF8_REJECT. z_tests. pose proof (zlen_nonneg rs). rewrite put_ok by lia. cbn [mbind res_bind].
    rewrite IH; [|done|by right|unfold buffer_ok; rewrite Er, zlen_app; z_tests; change (zlen [b]) with 1; lia].
    rewrite Er, escape_bytes_cons. unfold escape_byte at 1. z_tests. by rewrite <- !app_assoc. }
  unfold buffer_ok in Bb. destruct V as [-> | [S C]].
  - change (ranges_of 0) with (@nil (Z * Z)) in *. change (0 =? 0) with true in Bb. cbn match in Bb. cbn [utf8_ok]. pose proof (decode_lead b cp st' cp' B E) as D.
    unfold is_u8 in B. replace (0 <=? b) with true by (symmetry; apply Z.leb_le; lia). cbn [andb].
    destruct (b <=? 127) eqn:Eb; to_prop.
    + destruct D as [-> ->]. cbn [UTF8_ACCEPT Z.eqb]. apply Accept, put_codepoint_ascii. rewrite no_ranges in Bb. lia.
    + destruct (lead_ranges b) as [rs|].
      * destruct D as (S' & Er & C'). unfold UTF8_ACCEPT. replace (st' =? 0) with false by (symmetry; apply Z.eqb_neq; lia).
        pose proof (ranges_of_long st' S'). subst rs. rewrite no_ranges in Bb. apply More; try done; lia.
      * by subst st'.
  - pose proof (decode_follow st cp b st' cp' S C B E) as D. destruct (ranges_of st) as [|r rs]; [done|]. cbn [utf8_ok].
    rewrite zlen_cons in Bb. replace (st =? 0) with false in Bb by (symmetry; apply Z.eqb_neq; lia). cbn match in Bb.
    destruct (in_range r b) eqn:I; [|by subst st']. cbn [andb]. destruct rs as [|r' rs].
    + destruct D as (-> & Hc & Hb). cbn [UTF8_ACCEPT Z.eqb]. apply Accept, put_codepoint_wide; [|done..]. rewrite no_ranges in Bb. lia.
    + destruct D as (S' & Er & C' & Hb). unfold UTF8_ACCEPT. replace (st' =? 0) with false by (symmetry; apply Z.eqb_neq; lia).
      apply More; try done. lia.
Qed.

Lemma dump_string_spec s :
  bytes_ok s -> dump_string s = if utf8_ok [] s then Ok ([34] ++ escape_bytes s ++ [34]) else Throw "type_error.316".
Proof.
  intros B. unfold dump_string. rewrite dump_escaped_spec; [|done|by left|done].
  change (ranges_of UTF8_ACCEPT) with (@nil (Z * Z)). by destruct (utf8_ok [] s).
Qed.

(** ** Reading back *)

Lemma utf8_app s : forall rs t, utf8_ok rs s = true -> utf8_ok [] t = true -> utf8_ok rs (s ++ t) = true.
Proof.
  induction s as [|c s IH]; intros rs t Hs Ht; cbn in *; [by destruct rs|].
  destruct rs as [|r rs].
  - destruct (_ && _); [by apply IH|]. destruct (lead_ranges c); [by apply IH|done].
  - to_prop. apply andb_true_intro. split; [done|by apply IH].
Qed.

Definition high (r : Z * Z) : Prop := 128 <= fst r /\ snd r <= 255.

Lemma lead_high c rs : lead_ranges c = Some rs -> 128 <= c <= 255 /\ Forall high rs.
Proof.
  unfold lead_ranges, high. repeat (case_match; to_prop; [intros [= <-]; split; [lia|repeat constructor; cbn; lia]|]). done.
Qed.

Lemma in_high r c : high r -> in_range r c = true -> 128 <= c <= 255.
Proof. unfold high, in_range. intros H I. to_prop. lia. Qed.

Lemma escape_high c : 128 <= c -> escape_byte c = [c].
Proof. intros H. unfold escape_byte. by z_tests. Qed.

Lemma utf8_bytes_ok s : forall rs, Forall high rs -> utf8_ok rs s = true -> bytes_ok s.
Proof.
  induction s as [|c s IH]; intros rs Hh H; [constructor|]. apply bytes_ok_cons. unfold is_u8. cbn in H. destruct rs as [|r rs].
  - destruct (_ && _) eqn:E; to_prop; [split; [lia|by apply (IH [])]|]. destruct (lead_ranges c) as [rs|] eqn:El; [|done].
    apply lead_high in El as [? ?]. split; [lia|by apply (IH rs)].
  - inversion Hh; subst. to_prop. split; [|by apply (IH rs)]. assert (128 <= c <= 255) by (by eapply in_high). lia.
Qed.

(** The bytes of a character are taken, and stand for themselves. *)
Lemma next_byte_back rs : forall s added t,
  Forall high rs -> utf8_ok rs s = true ->
  exists mid tail, s = mid ++ tail /\ utf8_ok [] tail = true /\ (length mid = length rs) /\
    next_byte_in_range rs added (escape_bytes s ++ t) = SAdd (added ++ mid) (escape_bytes tail ++ t).
Proof.
  induction rs as [|r rs IH]; intros s added t Hh H.
  { exists [], s. rewrite app_nil_r. split_and!; done. }
  destruct s as [|c s]; [done|]. inversion Hh; subst. cbn in H. to_prop. rewrite escape_bytes_cons, escape_high by (assert (128 <= c <= 255) by (by eapply in_high); lia).
  cbn [app next_byte_in_range]. destruct (IH s (added ++ [c]) t) as (mid & tail & -> & Ht & L & E); [done..|].
  exists (c :: mid), tail. rewrite E, <- app_assoc. replace (in_range r c) with true by done. cbn. split_and!; auto.
Qed.

Definition check_ascii (c : Z) : Prop := forall t, scan_char (escape_byte c ++ t) = SAdd [c] t.

Lemma ascii_checked : Forall check_ascii (range 128).
Proof. repeat (constructor; [intros t; reflexivity|]). constructor. Qed.

Lemma scan_char_ascii c t : 0 <= c <= 127 -> scan_char (escape_byte c ++ t) = SAdd [c] t.
Proof.
  intros H. pose proof ascii_checked as F. rewrite Forall_forall in F. apply F, list_elem_of_In, in_range_list. lia.
Qed.

Lemma scan_char_wide c rs s t :
  128 <= c -> lead_ranges c = Some rs -> scan_char (c :: s ++ t) = next_byte_in_range rs [c] (s ++ t).
Proof. intros H E. cbn. unfold is_control, is_plain. z_tests. cbn [andb]. by rewrite E. Qed.

(** The lexer reads the escaped text of well-formed bytes as those bytes. *)
Lemma scan_string_back n : forall s fuel buf rest,
  (length s <= n)%nat -> utf8_ok [] s = true -> (length s < fuel)%nat ->
  scan_string fuel buf (escape_bytes s ++ 34 :: rest) = Some (buf ++ s, rest).
Proof.
  induction n as [|n IH]; intros s fuel buf rest Ln H Lf; destruct s as [|c s]; try (cbn in Ln; lia);
    destruct fuel as [|fuel]; try lia; try (by rewrite app_nil_r).
  cbn [length] in *. cbn [scan_string]. cbn [utf8_ok] in H. rewrite escape_bytes_cons, <- app_assoc. destruct (_ && _) eqn:Ec; to_prop.
  - rewrite scan_char_ascii by lia. rewrite IH by (done || lia). by rewrite <- app_assoc.
  - destruct (lead_ranges c) as [rs|] eqn:El; [|done]. destruct (lead_high c rs El) as [Hc Hh]. rewrite escape_high by lia. cbn [app].
    destruct (next_byte_back rs s [c] (34 :: rest) Hh H) as (mid & tail & -> & Ht & L & E). rewrite (scan_char_wide c rs) by (done || lia). rewrite E.
    rewrite length_app in *. rewrite IH by (done || lia). by rewrite <- !app_assoc.
Qed.

Lemma utf8_two c c1 rs :
  128 <= c -> lead_ranges c = Some rs -> utf8_ok rs c1 = true -> utf8_ok [] (c :: c1) = true.
Proof. intros H E U. cbn [utf8_ok]. z_tests. cbn [andb]. by rewrite E. Qed.

(** A hexadecimal number of four digits has 16 bits. *)
Lemma hex_digit_range c d : hex_digit c = Some d -> 0 <= d < 16.
Proof. unfold hex_digit. repeat (case_match; to_prop; [intros [= <-]; lia|]). done. Qed.

Lemma get_codepoint_range s cp s' : get_codepoint factors 0 s = Some (cp, s') -> 0 <= cp < 65536.
Proof.
  unfold factors. destruct s as [|c1 s]; [done|]. cbn [get_codepoint]. destruct (hex_digit c1) as [d1|] eqn:E1; [|done].
  destruct s as [|c2 s]; [done|]. destruct (hex_digit c2) as [d2|] eqn:E2; [|done].
  destruct s as [|c3 s]; [done|]. destruct (hex_digit c3) as [d3|] eqn:E3; [|done].
  destruct s as [|c4 s]; [done|]. destruct (hex_digit c4) as [d4|] eqn:E4; [|done].
  intros [= <- _]. apply hex_digit_range in E1, E2, E3, E4. rewrite !Z.shiftl_mul_pow2 by lia. lia.
Qed.

Lemma lor_top a x n : 0 <= n -> 0 <= x < 2 ^ n -> a mod 2 ^ n = 0 -> Z.lor a x = a + x.
Proof.
  intros Hn Hx Ha. rewrite <- (Z.div_exact a (2 ^ n)) in Ha by lia.
  replace a with (Z.shiftl (a / 2 ^ n) n) by (rewrite Z.shiftl_mul_pow2 by lia; lia).
  rewrite lor_shiftl_add by done. rewrite Z.shiftl_mul_pow2 by lia. done.
Qed.

Lemma low_six x : Z.lor 0x80 (Z.land x 0x3F) = 0x80 + x mod 64.
Proof.
  change 0x3F with (Z.ones 6). rewrite Z.land_ones by lia. apply (lor_top _ _ 6); [lia|apply Z.mod_pos_bound; lia|done].
Qed.

(** The Unicode scalar values. *)
Definition is_scalar (cp : Z) : Prop := 0 <= cp < 0xD800 \/ 0xE000 <= cp <= 0x10FFFF.

Lemma in_range_true a b c : a <= c <= b -> in_range (a, b) c = true.
Proof. intros H. unfold in_range. cbn. z_tests. done. Qed.

Lemma utf8_bytes_utf8 cp : is_scalar cp -> utf8_ok [] (utf8_bytes cp) = true.
Proof.
  intros H. unfold is_scalar in H. unfold utf8_bytes. rewrite !low_six, !Z.shiftr_div_pow2 by lia.
  destruct (cp <? 0x80) eqn:E1; to_prop; [cbn; z_tests; done|].
  assert (M : forall x, 0 <= x mod 64 < 64) by (intros x; apply Z.mod_pos_bound; lia).
  destruct (cp <=? 0x7FF) eqn:E2; to_prop.
  { assert (2 <= cp / 2 ^ 6 < 32) by (Z.div_mod_to_equations; lia). rewrite (lor_top 0xC0 _ 5) by (done || lia).
    eapply utf8_two; [lia| |].
    - unfold lead_ranges. z_tests. reflexivity.
    - cbn [utf8_ok]. pose proof (M cp). by rewrite in_range_true by lia. }
  destruct (cp <=? 0xFFFF) eqn:E3; to_prop.
  { assert (0 <= cp / 2 ^ 12 < 16) by (Z.div_mod_to_equations; lia). rewrite (lor_top 0xE0 _ 4) by (done || lia). pose proof (M cp).
    pose proof (M (cp / 2 ^ 6)).
    assert (cp / 2 ^ 12 = 0 -> 0x20 <= (cp / 2 ^ 6) mod 64) by (Z.div_mod_to_equations; lia).
    assert (cp / 2 ^ 12 = 13 -> (cp / 2 ^ 6) mod 64 <= 0x1F) by (Z.div_mod_to_equations; lia).
    assert (D : cp / 2 ^ 12 = 0 \/ cp / 2 ^ 12 = 13 \/ 1 <= cp / 2 ^ 12 <= 12 \/ cp / 2 ^ 12 = 14 \/ cp / 2 ^ 12 = 15) by lia.
    destruct D as [D | [D | [D | [D | D]]]]; (eapply utf8_two; [lia|unfold lead_ranges; z_tests; reflexivity|]);
      cbn [utf8_ok]; by rewrite !in_range_true by lia. }
  assert (0 <= cp / 2 ^ 18 < 5) by (Z.div_mod_to_equations; lia). rewrite (lor_top 0xF0 _ 3) by (done || lia).
  pose proof (M cp). pose proof (M (cp / 2 ^ 6)). pose proof (M (cp / 2 ^ 12)).
  assert (cp / 2 ^ 18 = 0 -> 0x10 <= (cp / 2 ^ 12) mod 64) by (Z.div_mod_to_equations; lia).
  assert (cp / 2 ^ 18 = 4 -> (cp / 2 ^ 12) mod 64 <= 0xF) by (Z.div_mod_to_equations; lia).
  assert (D : cp / 2 ^ 18 = 0 \/ 1 <= cp / 2 ^ 18 <= 3 \/ cp / 2 ^ 18 = 4) by lia.
  destruct D as [D | [D | D]]; (eapply utf8_two; [lia|unfold lead_ranges; z_tests; reflexivity|]);
    cbn [utf8_ok]; by rewrite !in_range_true by lia.
Qed.

Lemma scan_unicode_utf8 s b s' : scan_unicode s = SAdd b s' -> utf8_ok [] b = true.
Proof.
  unfold scan_unicode. destruct (get_codepoint _ _ _) as [[cp1 s1]|] eqn:E1; [|done]. apply get_codepoint_range in E1.
  destruct (_ && _) eqn:Ea; to_prop.
  - destruct s1 as [|c1 [|c2 s2]]; [done..|]. destruct (_ && _); [|done].
    destruct (get_codepoint _ _ s2) as [[cp2 s3]|] eqn:E2; [|done]. apply get_codepoint_range in E2.
    destruct (_ && _) eqn:Eb; [|done]. to_prop. intros [= <- <-]. apply utf8_bytes_utf8. right.
    rewrite Z.shiftl_mul_pow2 by lia. rewrite (u32_id (cp1 * _)) by (unfold is_u32; lia). rewrite u32_id by (unfold is_u32; lia). lia.
  - destruct ((0xDC00 <=? cp1) && (cp1 <=? 0xDFFF)) eqn:Eb; [done|]. intros [= <- <-]. apply utf8_bytes_utf8. unfold is_scalar.
    apply andb_false_iff in Ea, Eb. to_prop. lia.
Qed.

Lemma next_byte_utf8 rs : forall added s b s',
  next_byte_in_range rs added s = SAdd b s' -> exists mid, b = added ++ mid /\ utf8_ok rs mid = true.
Proof.
  induction rs as [|r rs IH]; intros added s b s' H; cbn in H.
  { injection H as <- _. exists []. by rewrite app_nil_r. }
  destruct s as [|c s]; [done|]. destruct (in_range r c) eqn:I; [|done]. apply IH in H as (mid & -> & U).
  exists (c :: mid). rewrite <- app_assoc. cbn. by rewrite I, U.
Qed.

Lemma scan_char_utf8 s b s' : scan_char s = SAdd b s' -> utf8_ok [] b = true.
Proof.
  destruct s as [|c s]; [done|]. cbn [scan_char]. destruct (c =? 34); [done|]. destruct (c =? 92).
  { destruct s as [|e s]; [done|]. cbn [scan_escape]. repeat (case_match; [by intros [= <- <-]|]). case_match; [apply scan_unicode_utf8|done]. }
  unfold is_control, is_plain. destruct (c <=? 31) eqn:E1; [done|]. to_prop. destruct (_ && _) eqn:E2; to_prop.
  - intros [= <- <-]. cbn. z_tests. done.
  - destruct (lead_ranges c) as [rs|] eqn:El; [|done]. intros H. apply next_byte_utf8 in H as (mid & -> & U).
    destruct (lead_high c rs El) as [Hc _]. eapply utf8_two; [lia|done|done].
Qed.

(** What the lexer accepts as a string is well formed. *)
Lemma scan_string_utf8 fuel : forall buf s b s',
  utf8_ok [] buf = true -> scan_string fuel buf s = Some (b, s') -> utf8_ok [] b = true.
Proof.
  induction fuel as [|fuel IH]; intros buf s b s' U H; cbn in H; [done|].
  destruct (scan_char s) as [bs s1|s1|] eqn:E; [| |done].
  - apply IH in H; [done|]. apply utf8_app; [done|by apply scan_char_utf8 in E].
  - by injection H as <- _.
Qed.

(** C29: The two sides of the library agree on UTF-8. The serializer's
    table-driven decoder and the lexer's ranges of bytes were written apart;
    the byte strings that can be printed and those that some text is read as
    are the same, the sequences that RFC 3629 calls well formed, and on all
    others the serializer throws, without ever writing outside of its
    buffer. *)
Theorem printed_strings_are_read (s : Bytes) :
  bytes_ok s ->
  ((exists text, dump_string s = Ok text) <-> utf8_ok [] s = true) /\
  ((exists fuel text rest, scan_string fuel [] text = Some (s, rest)) <-> utf8_ok [] s = true) /\
  (utf8_ok [] s = false -> dump_string s = Throw "type_error.316").
Proof.
  intros B. rewrite (dump_string_spec s B). split_and!; [split|split|by intros ->].
  - intros [text E]. by destruct (utf8_ok [] s).
  - intros ->. by eexists.
  - intros (fuel & text & rest & E). by apply scan_string_utf8 in E.
  - intros U. exists (S (length s)), (escape_bytes s ++ [34]), []. rewrite (scan_string_back (length s)) by (done || lia). done.
Qed.

Lemma printed_strings_are_read_witness : ~ exists fuel text rest, scan_string fuel [] text = Some ([0xED; 0xA0; 0x80], rest).
Proof.
  intros E. apply printed_strings_are_read in E; [discriminate E|by apply (bool_decide_unpack _)].
Defined.
