(* ===== verification/JsonRoundtrip.v ===== *)
(** * Printing and parsing of JSON values

    Which values the parser builds and the serializer prints, that every
    parsed value can be printed, and that a printed value is parsed as
    itself. *)

From stdpp Require Import base list numbers strings sorting.
From Stdlib Require Import ZArith Lia.
From S2P Require Import Prelude JsonLexer JsonParser JsonSerializer JsonUtf8.

#[local] Open Scope Z_scope.

Section Roundtrip.
Context {FL : FloatLib}.

(** ** Well-formed values *)

Definition key_before (a b : Bytes * json) : Prop := key_lt a.1 b.1 = true.

(** The members of a [std::map] are in the order of their keys; [atom] says
    which values without parts are meant. *)
Inductive well_formed (atom : json -> Prop) : json -> Prop :=
| WAtom j : atom j -> well_formed atom j
| WArray js : Forall (well_formed atom) js -> well_formed atom (JArray js)
| WObject kvs :
    StronglySorted key_before kvs -> Forall (fun kv => utf8_ok [] kv.1 = true) kvs ->
    Forall (fun kv => well_formed atom kv.2) kvs -> well_formed atom (JObject kvs).

(** What the value types of C++ can hold and the serializer accepts. *)
Definition printable (j : json) : Prop :=
  match j with
  | JNull | JBool _ | JFloat _ => True
  | JInteger n => - 2 ^ 63 <= n < 2 ^ 63
  | JUnsigned n => 0 <= n < 2 ^ 64
  | JString s => utf8_ok [] s = true
  | JArray _ | JObject _ => False
  end.

(** A float whose printed form is a number with a fraction or an exponent,
    from which [strtod] reads the same float. *)
Definition reads_back (f : float) : Prop :=
  isfinite f = true /\
  exists c ds, print_float f = c :: ds /\ num_start c <> NError /\
    scan_digits (num_start c) [c] ds = Some (c :: ds, true, []) /\ strtod (c :: ds) = f.

(** An integer that is not negative is read as an unsigned one. *)
Definition readable (j : json) : Prop :=
  match j with
  | JInteger n => - 2 ^ 63 <= n < 0
  | JFloat f => reads_back f
  | _ => printable j
  end.

(** Values with integers of either type over its whole range. *)
Definition storable (j : json) : Prop :=
  match j with
  | JFloat f => reads_back f
  | _ => printable j
  end.

(** The value as the parser stores it: a signed integer that is not negative
    comes back as the unsigned integer of the same number, to which the
    library's [operator==] says it is equal. *)
Fixpoint as_parsed (j : json) : json :=
  match j with
  | JInteger n => if 0 <=? n then JUnsigned n else JInteger n
  | JArray js => JArray (as_parsed <$> js)
  | JObject kvs => JObject ((fun '(k, v) => (k, as_parsed v)) <$> kvs)
  | _ => j
  end.

Lemma well_formed_weaken (P Q : json -> Prop) j : (forall a, P a -> Q a) -> well_formed P j -> well_formed Q j.
Proof.
  intros I. induction j as [ | | | | | |js IH|kvs IH] using json_induction; intros W; try (inversion W; subst; constructor; by apply I).
  - inversion W as [? A| |]; subst; [constructor 1; by apply I|]. constructor 2. rewrite Forall_forall in *. eauto.
  - inversion W as [? A| |]; subst; [constructor 1; by apply I|]. constructor 3; [done..|]. rewrite Forall_forall in *. eauto.
Qed.

Lemma readable_printable a : readable a -> printable a.
Proof. destruct a; cbn; try done; lia. Qed.

(** ** Printing *)

Definition member_text (nb : Bytes) (kv : Bytes * json) : res std_string :=
  k ← dump_string kv.1;
  v ← dump nb kv.2;
  Ok (k ++ [58] ++ v).

Lemma dump_array nb js : dump nb (JArray js) = (texts ← res_map (dump nb) js; Ok ([91] ++ join texts ++ [93])).
Proof. cbn [dump]. f_equal. induction js as [|v js IH]; [done|]. cbn [res_map]. by rewrite IH. Qed.

Lemma dump_object nb kvs : dump nb (JObject kvs) = (texts ← res_map (member_text nb) kvs; Ok ([123] ++ join texts ++ [125])).
Proof.
  cbn [dump]. f_equal. induction kvs as [|[k v] kvs IH]; [done|]. cbn [res_map]. rewrite IH. unfold member_text. cbn [fst snd].
  destruct (dump_string k); [|done..]. cbn [mbind res_bind]. by destruct (dump nb v).
Qed.

Lemma res_map_exists {A B} (f : A -> res B) l : Forall (fun x => exists y, f x = Ok y) l -> exists ys, res_map f l = Ok ys.
Proof.
  induction 1 as [|x l [y E] F [ys IH]]; [by eexists|]. exists (y :: ys). cbn. by rewrite E, IH.
Qed.

Lemma dump_string_ok s : utf8_ok [] s = true -> dump_string s = Ok ([34] ++ escape_bytes s ++ [34]).
Proof. intros U. rewrite dump_string_spec by (by apply (utf8_bytes_ok s [])). by rewrite U. Qed.

Lemma dump_printable nb j : length nb = 64%nat -> printable j -> exists text, dump nb j = Ok text.
Proof.
  intros L P. destruct j; cbn [printable dump] in *; try (eexists; reflexivity); try done.
  - rewrite dump_integer_correct by lia. by eexists.
  - rewrite dump_integer_correct by lia. by eexists.
  - rewrite dump_string_ok by done. by eexists.
Qed.

Lemma dump_total nb j : length nb = 64%nat -> well_formed printable j -> exists text, dump nb j = Ok text.
Proof.
  intros L. induction j as [ | | | | | |js IH|kvs IH] using json_induction; intros W;
    try (inversion W; subst; by apply dump_printable).
  - inversion W as [? A| |]; subst; [done|]. rewrite dump_array.
    destruct (res_map_exists (dump nb) js) as [ys ->]; [|by eexists]. rewrite Forall_forall in *. eauto.
  - inversion W as [? A| |? S U V]; subst; [done|]. rewrite dump_object.
    destruct (res_map_exists (member_text nb) kvs) as [ys ->]; [|by eexists].
    rewrite Forall_forall in *. intros kv I. unfold member_text. rewrite dump_string_ok by auto. cbn [mbind res_bind].
    destruct (IH kv I) as [t ->]; [auto|by eexists].
Qed.

(** ** What the parser builds *)

Definition token_ok (t : token) : Prop :=
  match t with
  | TString s => utf8_ok [] s = true
  | TUnsigned n => 0 <= n < 2 ^ 64
  | TInteger n => - 2 ^ 63 <= n <= 0
  | _ => True
  end.

Definition digits (s : std_string) : Prop := Forall (fun c => 48 <= c <= 57) s.

Lemma dec_value_nonneg s : digits s -> 0 <= dec_value s.
Proof.
  unfold dec_value. enough (G : forall v, 0 <= v -> digits s -> 0 <= foldl (fun v c => v * 10 + (c - 48)) v s) by (apply G; lia).
  induction s as [|c s IH]; intros v V D; cbn; [done|]. inversion D; subst. apply IH; [lia|done].
Qed.

Lemma digits_nil : digits [].
Proof. constructor. Qed.

(** The characters of a number that is not a float are digits. *)
Lemma scan_digits_integer s : forall st buf b s',
  scan_digits st buf s = Some (b, false, s') -> exists ds, b = buf ++ ds /\ digits ds /\ num_is_float st = false.
Proof.
  induction s as [|c s IH]; intros st buf b s' H; cbn in H.
  { destruct (num_accepts st); [|done]. injection H as <- E _. exists []. rewrite app_nil_r. auto using digits_nil. }
  assert (More : forall st', scan_digits st' (buf ++ [c]) s = Some (b, false, s') -> (num_is_float st' = false -> 48 <= c <= 57 /\ num_is_float st = false) ->
    exists ds, b = buf ++ ds /\ digits ds /\ num_is_float st = false).
  { intros st' H' I. apply IH in H' as (ds & -> & D & F). destruct (I F). exists (c :: ds). rewrite <- app_assoc.
    split; [done|]. split; [by constructor|done]. }
  destruct (num_next st c) eqn:E; try (eapply More; [exact H|]; try discriminate; intros _;
    destruct st; cbn in E; unfold is_digit in E; repeat case_match; try done; to_prop; (split; [lia|done])); [|done].
  injection H as <- F _. exists []. rewrite app_nil_r. auto using digits_nil.
Qed.

Lemma number_token_ok c s : num_start c <> NError -> token_ok (scan_number c s).1.
Proof.
  intros N. unfold scan_number. destruct (scan_digits _ _ _) as [[[b f] s1]|] eqn:E; [|done]. cbn [fst]. destruct f; [done|].
  apply scan_digits_integer in E as (ds & -> & D & F). unfold number_token. cbn [app].
  unfold num_start, is_digit in N. destruct (c =? 45) eqn:Ec; to_prop.
  - pose proof (dec_value_nonneg ds D). destruct (_ <? _) eqn:El; to_prop; [done|]. cbn. lia.
  - assert (48 <= c <= 57) by (repeat case_match; to_prop; (lia || done)).
    pose proof (dec_value_nonneg (c :: ds) ltac:(by constructor)). destruct (2 ^ 64 <=? dec_value (c :: ds)) eqn:El; to_prop; [done|].
    cbn [token_ok]. lia.
Qed.

Lemma scan_literal_ok l : forall (t : token) s, token_ok t -> token_ok (scan_literal l t s).1.
Proof.
  induction l as [|x l IH]; intros t s T; cbn; [done|]. destruct s as [|c s]; [done|]. destruct (c =? x); [by apply IH|done].
Qed.

Lemma scan_ok s : token_ok (scan s).1.
Proof.
  unfold scan. destruct (skip_whitespace s) as [|c r]; [done|].
  repeat match goal with
  | |- token_ok (if ?b then (_, _) else _).1 => destruct b; [done|]
  | |- token_ok (if ?b then scan_literal _ _ _ else _).1 => destruct b; [by apply scan_literal_ok|]
  end.
  destruct (c =? 34).
  { destruct (scan_string _ _ _) as [[b r1]|] eqn:E; [|done]. by apply scan_string_utf8 in E. }
  destruct (_ || _) eqn:En; [|by destruct (c =? 0)]. apply number_token_ok. unfold num_start.
  destruct (c =? 45); [done|]. destruct (c =? 48); [done|]. by rewrite orb_false_l in En; rewrite En.
Qed.

Lemma scan_token s (t : token) s' : scan s = (t, s') -> token_ok t.
Proof. intros E. pose proof (scan_ok s) as T. by rewrite E in T. Qed.

(** *** Objects keep the order of their keys *)

Lemma key_lt_trans a : forall b c, key_lt a b = true -> key_lt b c = true -> key_lt a c = true.
Proof.
  induction a as [|x a IH]; intros [|y b] [|z c] H1 H2; cbn in *; try done.
  repeat case_match; to_prop; try done; try lia. by apply (IH b).
Qed.

Lemma key_lt_asym a : forall b, key_lt a b = true -> key_lt b a = false.
Proof.
  induction a as [|x a IH]; intros [|y b] H; cbn in *; try done. repeat case_match; to_prop; try done; try lia. by apply IH.
Qed.

Lemma key_lt_total a : forall b, key_lt a b = false -> key_lt b a = false -> a = b.
Proof.
  induction a as [|x a IH]; intros [|y b] H1 H2; cbn in *; try done. repeat case_match; to_prop; try done; try lia.
  f_equal; [lia|by apply IH].
Qed.

Lemma object_set_forall (P : Bytes * json -> Prop) kvs k v :
  Forall P kvs -> (forall v', P (k, v') -> P (k, v)) -> P (k, v) -> Forall P (object_set kvs k v).
Proof.
  intros F I H. induction F as [|[k' v'] kvs Hk F IH]; cbn; [by constructor|].
  destruct (key_lt k k') eqn:E1; [by repeat constructor|]. destruct (key_lt k' k) eqn:E2; [by constructor|].
  apply key_lt_total in E1; [|done]. subst k'. constructor; [by eapply I|done].
Qed.

Lemma object_set_sorted kvs k v : StronglySorted key_before kvs -> StronglySorted key_before (object_set kvs k v).
Proof.
  induction 1 as [|[k' v'] kvs S IH F]; cbn; [by repeat constructor|].
  destruct (key_lt k k') eqn:E1.
  { constructor; [by constructor|]. constructor; [done|]. eapply Forall_impl; [exact F|]. intros [k2 v2] K. unfold key_before in *. by eapply key_lt_trans. }
  destruct (key_lt k' k) eqn:E2; [|by constructor]. constructor; [done|]. apply object_set_forall; [done|by intros|done].
Qed.

(** *** The values on the parser's stack *)

Definition frame_ok (f : frame) : Prop :=
  match f with
  | FArray js => Forall (well_formed printable) js
  | FObject kvs key => well_formed printable (JObject kvs) /\ utf8_ok [] key = true
  end.

Definition mode_ok (m : mode) : Prop :=
  match m with Before t => token_ok t | After v => well_formed printable v end.

Lemma object_set_ok kvs k v :
  well_formed printable (JObject kvs) -> utf8_ok [] k = true -> well_formed printable v ->
  well_formed printable (JObject (object_set kvs k v)).
Proof.
  intros W U V. inversion W as [? A| |? S K F]; subst; [done|].
  constructor 3; [by apply object_set_sorted|apply object_set_forall; by auto..].
Qed.

Lemma empty_object_ok : well_formed printable (JObject []).
Proof. constructor 3; constructor. Qed.

Lemma scalar_ok (t : token) v : token_ok t -> scalar t = Ok v -> well_formed printable v.
Proof.
  intros T E. constructor 1. destruct t; cbn in *; try discriminate E; try (injection E as <-; cbn; done || lia).
  destruct (isfinite f); [by injection E as <-|done].
Qed.

Lemma parse_key_ok (t : token) s key t' s' :
  token_ok t -> parse_key t s = Ok (key, t', s') -> utf8_ok [] key = true /\ token_ok t'.
Proof.
  intros T E. destruct t; cbn in E; try discriminate E. destruct (scan s) as [t2 s2]. destruct t2; try discriminate E.
  destruct (scan s2) as [t3 s3] eqn:E3. injection E as <- <- <-. split; [done|by eapply scan_token].
Qed.

Lemma sax_parse_ok fuel : forall m stack s v s',
  mode_ok m -> Forall frame_ok stack -> sax_parse_internal fuel m stack s = Ok (v, s') -> well_formed printable v.
Proof.
  induction fuel as [|fuel IH]; intros m stack s v s' M F E; [done|].
  assert (K : forall (t : token) s1 st kvs, token_ok t -> Forall frame_ok st -> well_formed printable (JObject kvs) ->
    ('(key, t, s) ← parse_key t s1; sax_parse_internal fuel (Before t) (FObject kvs key :: st) s) = Ok (v, s') ->
    well_formed printable v).
  { intros t s1 st kvs T Fs W Er. destruct (parse_key t s1) as [[[key t'] s2]| | |] eqn:Ek; [|discriminate Er..].
    apply parse_key_ok in Ek as [U T']; [|done]. eapply IH in Er; [done|done|by constructor]. }
  cbn [sax_parse_internal] in E. destruct m as [t|w].
  - assert (C : (v ← scalar t; sax_parse_internal fuel (After v) stack s) = Ok (v, s') -> well_formed printable v).
    { intros Er. destruct (scalar t) as [x| | |] eqn:Es; [|discriminate Er..]. eapply IH in Er; [done| |done]. by eapply scalar_ok. }
    destruct t; try (by apply C); destruct (scan s) as [t s1] eqn:Et; apply scan_token in Et.
    + destruct t; (eapply IH in E; [exact E| |]; [try done|try (by repeat constructor); done]). constructor 2. constructor.
    + destruct t; try (by eapply K; [| |apply empty_object_ok|exact E]). eapply IH in E; [exact E|apply empty_object_ok|done].
  - destruct stack as [|[js|kvs key] stack]; [by injection E as <- <-|..]; inversion F as [|? ? Ff Fs]; subst; cbn in Ff;
      destruct (scan s) as [t s1] eqn:Et; destruct t; try discriminate E.
    + eapply IH in E; [exact E| |done]. constructor 2. apply Forall_app_2; [done|by apply Forall_singleton].
    + destruct (scan s1) as [t2 s2] eqn:E2. eapply IH in E; [exact E|by eapply scan_token|]. constructor; [|done].
      apply Forall_app_2; [done|by apply Forall_singleton].
    + eapply IH in E; [exact E| |done]. destruct Ff. by apply object_set_ok.
    + destruct (scan s1) as [t2 s2] eqn:E2. destruct Ff. eapply K; [by eapply scan_token|exact Fs| |exact E]. by apply object_set_ok.
Qed.

Lemma parse_well_formed text v : parse text = Ok v -> well_formed printable v.
Proof.
  unfold parse. destruct (scan_first text) as [t s] eqn:E. intros H.
  destruct (sax_parse_internal _ _ _ _) as [[w s']| | |] eqn:Ep; [|discriminate H..]. cbn [mbind res_bind] in H.
  assert (w = v) as -> by (by destruct (scan s') as [[] ?]; try discriminate H; injection H).
  eapply sax_parse_ok; [|constructor|exact Ep]. cbn. unfold scan_first in E. destruct (skip_bom text); [by eapply scan_token|].
  by injection E as <- _.
Qed.

(** ** Reading back: tokens *)

(** What follows a value in a printed text. *)
Definition delimited (rest : std_string) : Prop :=
  match rest with [] => True | c :: _ => c = 44 \/ c = 93 \/ c = 125 end.

Lemma num_next_delim st c : num_accepts st = true -> c = 44 \/ c = 93 \/ c = 125 -> num_next st c = NDone.
Proof. intros A D. destruct st; cbn in A; try discriminate A; destruct D as [-> | [-> | ->]]; done. Qed.

Lemma scan_digits_rest s : forall st buf b f rest,
  scan_digits st buf s = Some (b, f, []) -> delimited rest -> scan_digits st buf (s ++ rest) = Some (b, f, rest).
Proof.
  induction s as [|c s IH]; intros st buf b f rest H D; cbn in H.
  - destruct (num_accepts st) eqn:A; [|done]. injection H as <- <-. cbn [app]. destruct rest as [|c rest]; cbn; [by rewrite A|].
    by rewrite num_next_delim.
  - cbn. destruct (num_next st c); try done; by apply IH.
Qed.

Lemma scan_digits_all s : forall buf, digits s -> scan_digits NAny1 buf s = Some (buf ++ s, false, []).
Proof.
  induction s as [|c s IH]; intros buf D; cbn; [by rewrite app_nil_r|]. inversion D; subst. unfold is_digit. z_tests. cbn [andb].
  rewrite IH by done. by rewrite <- app_assoc.
Qed.

Lemma scan_is_number c s : c = 45 \/ 48 <= c <= 57 -> scan (c :: s) = scan_number c s.
Proof.
  intros H. unfold scan. cbn [skip_whitespace]. unfold is_space. z_tests. cbn [orb]. z_tests. cbn match.
  replace ((c =? 45) || is_digit c) with true; [done|]. symmetry. apply orb_true_iff. unfold is_digit.
  destruct H; [left; by apply Z.eqb_eq|right]. z_tests. done.
Qed.

(** The decimal form of a positive number has no leading zero. *)
Lemma print_dec_head n : 0 < n < 2 ^ 64 -> exists c ds, print_dec n = c :: ds /\ 49 <= c <= 57 /\ digits ds.
Proof.
  intros H. destruct H as [H0 H1]. revert H0 H1. induction n as [n IH] using (well_founded_induction (Z.lt_wf 0)). intros H0 H1.
  destruct (Z_lt_ge_dec n 10) as [L|L].
  - exists (48 + n), []. rewrite print_dec_digit by lia. split; [done|]. split; [lia|apply digits_nil].
  - pose proof (div10_range n ltac:(lia)). destruct (IH (n / 10)) as (c & ds & E & R & D); [split; [lia|apply Z.div_lt; lia]|lia..|].
    exists c, (ds ++ [48 + n mod 10]). rewrite print_dec_step, E by lia. split; [done|]. split; [done|].
    apply Forall_app_2; [done|]. apply Forall_singleton. pose proof (Z.mod_pos_bound n 10). lia.
Qed.

Lemma dec_value_digits s : digits s -> dec_value s = digits_val 10 s.
Proof.
  unfold dec_value, digits_val. generalize 0. induction s as [|c s IH]; intros v D; cbn; [done|]. inversion D; subst.
  rewrite IH by done. unfold digit_of. by z_tests.
Qed.

Lemma dec_value_print n : 0 <= n < 2 ^ 64 -> dec_value (print_dec n) = n.
Proof.
  intros H. rewrite dec_value_digits by apply print_dec_digits. unfold print_dec. rewrite print_loop_val by (cbn; lia).
  rewrite zlen_nil. change (digits_val 10 []) with 0. lia.
Qed.

Lemma scan_unsigned n rest : 0 <= n < 2 ^ 64 -> delimited rest -> scan (print_dec n ++ rest) = (TUnsigned n, rest).
Proof.
  intros H D. destruct (Z.eq_dec n 0) as [-> |N].
  { change (print_dec 0) with [48]. cbn [app]. rewrite scan_is_number by lia. unfold scan_number. change (num_start 48) with NZero.
    pose proof (scan_digits_rest [] NZero [48] [48] false rest eq_refl D) as G. cbn [app] in G. by rewrite G. }
  destruct (print_dec_head n) as (c & ds & E & R & Ds); [lia|]. pose proof (dec_value_print n H) as V. rewrite E in *. cbn [app].
  rewrite scan_is_number by lia. unfold scan_number, num_start, is_digit. z_tests. cbn [andb].
  rewrite (scan_digits_rest ds NAny1 [c] (c :: ds) false rest); [|by apply scan_digits_all|done].
  unfold number_token. z_tests. rewrite V. by z_tests.
Qed.

Lemma scan_negative n rest : - 2 ^ 63 <= n < 0 -> delimited rest -> scan ((45 :: print_dec (- n)) ++ rest) = (TInteger n, rest).
Proof.
  intros H D. destruct (print_dec_head (- n)) as (c & ds & E & R & Ds); [lia|]. pose proof (dec_value_print (- n) ltac:(lia)) as V.
  rewrite E in *. cbn [app]. rewrite scan_is_number by lia. unfold scan_number. change (num_start 45) with NMinus. cbn [scan_digits num_next].
  unfold is_digit. z_tests. cbn [andb app].
  rewrite (scan_digits_rest ds NAny1 [45; c] (45 :: c :: ds) false rest); [|by rewrite scan_digits_all|done].
  unfold number_token. change (45 =? 45) with true. cbn match. rewrite V. z_tests. by rewrite Z.opp_involutive.
Qed.

Lemma escape_byte_long c : (1 <= length (escape_byte c))%nat.
Proof. unfold escape_byte. repeat case_match; cbn; lia. Qed.

Lemma escape_bytes_long s : (length s <= length (escape_bytes s))%nat.
Proof.
  induction s as [|c s IH]; [done|]. rewrite escape_bytes_cons, length_app. pose proof (escape_byte_long c). cbn [length]. lia.
Qed.

Lemma scan_text s rest : utf8_ok [] s = true -> scan (([34] ++ escape_bytes s ++ [34]) ++ rest) = (TString s, rest).
Proof.
  intros U. rewrite <- !app_assoc. cbn [app]. unfold scan. cbn [skip_whitespace]. change (is_space 34) with false. cbn match.
  change (34 =? 34) with true. cbn -[scan_string escape_bytes].
  by rewrite (scan_string_back (length s)) by (done || rewrite length_app; pose proof (escape_bytes_long s); lia).
Qed.

Lemma scan_float f rest : reads_back f -> delimited rest -> scan (print_float f ++ rest) = (TFloat f, rest).
Proof.
  intros (I & c & ds & E & N & Sd & St) D. rewrite E. cbn [app]. rewrite scan_is_number.
  - unfold scan_number. rewrite (scan_digits_rest ds _ [c] (c :: ds) true rest) by done. unfold number_token. by rewrite St.
  - unfold num_start, is_digit in N. repeat case_match; to_prop; (lia || done).
Qed.

(** ** Reading back: values *)

(** The loop gets from one state to another in some number of calls. *)
Definition reaches (m : mode) (stack : list frame) (s : std_string) (m' : mode) (stack' : list frame) (s' : std_string) : Prop :=
  exists n, forall fuel, sax_parse_internal (n + fuel) m stack s = sax_parse_internal fuel m' stack' s'.

Lemma reaches_trans m1 st1 s1 m2 st2 s2 m3 st3 s3 :
  reaches m1 st1 s1 m2 st2 s2 -> reaches m2 st2 s2 m3 st3 s3 -> reaches m1 st1 s1 m3 st3 s3.
Proof. intros [n H] [n' H']. exists (n + n')%nat. intros fuel. by rewrite <- Nat.add_assoc, H, H'. Qed.

Lemma reaches_step m st s m' st' s' :
  (forall fuel, sax_parse_internal (S fuel) m st s = sax_parse_internal fuel m' st' s') -> reaches m st s m' st' s'.
Proof. intros H. by exists 1%nat. Qed.

(** [text] reads as [j] wherever a value may stand. *)
Definition reads (text : std_string) (j : json) : Prop :=
  forall rest stack, delimited rest ->
    exists t s, scan (text ++ rest) = (t, s) /\ t <> TEndArray /\ reaches (Before t) stack s (After j) stack rest.

Lemma reads_scalar text (t : token) j :
  (forall rest, delimited rest -> scan (text ++ rest) = (t, rest)) -> scalar t = Ok j -> reads text j.
Proof.
  intros H E rest stack D. exists t, rest. split; [by apply H|]. split; [by intros ->|]. apply reaches_step. intros fuel.
  destruct t; try discriminate E; cbn [sax_parse_internal]; by rewrite E.
Qed.

Lemma reads_atom nb j text : length nb = 64%nat -> readable j -> dump nb j = Ok text -> reads text j.
Proof.
  intros L R E. destruct j as [|b|n|n|f|s| |]; cbn [dump readable printable] in *; try done.
  - injection E as <-. by apply (reads_scalar _ TNull).
  - injection E as <-. by destruct b; [apply (reads_scalar _ TTrue)|apply (reads_scalar _ TFalse)].
  - rewrite dump_integer_correct in E by lia. injection E as <-. unfold print_int. z_tests. cbn match.
    apply (reads_scalar _ (TInteger n)); [|done]. intros. by apply scan_negative.
  - rewrite dump_integer_correct in E by lia. injection E as <-. unfold print_int. z_tests. cbn match.
    apply (reads_scalar _ (TUnsigned n)); [|done]. intros. by apply scan_unsigned.
  - injection E as <-. pose proof R as [I _]. unfold dump_float. rewrite I.
    apply (reads_scalar _ (TFloat f)); [|cbn; by rewrite I]. intros. by apply scan_float.
  - rewrite dump_string_ok in E by done. injection E as <-. apply (reads_scalar _ (TString s)); [|done]. intros. by apply (scan_text s).
Qed.

Lemma read_elements texts js : Forall2 reads texts js -> js <> [] -> forall js0 stack rest,
  exists t s, scan (join texts ++ 93 :: rest) = (t, s) /\ t <> TEndArray /\
    reaches (Before t) (FArray js0 :: stack) s (After (JArray (js0 ++ js))) stack rest.
Proof.
  induction 1 as [|t1 v1 texts js R F IH]; intros N js0 stack rest; [done|].
  destruct F as [|t2 v2 texts js R2 F2].
  - destruct (R (93 :: rest) (FArray js0 :: stack)) as (t & s & E & T & H); [cbn; auto|]. exists t, s. split_and!; [done..|].
    eapply reaches_trans; [exact H|]. by apply reaches_step.
  - destruct (IH ltac:(done) (js0 ++ [v1]) stack rest) as (t' & s' & E' & T' & H').
    destruct (R (44 :: join (t2 :: texts) ++ 93 :: rest) (FArray js0 :: stack)) as (t & s & E & T & H); [cbn; auto|].
    exists t, s. split_and!; [|done|].
    { rewrite <- E. change (join (t1 :: t2 :: texts)) with (t1 ++ [44] ++ join (t2 :: texts)). by rewrite <- !app_assoc. }
    eapply reaches_trans; [exact H|]. eapply reaches_trans; [|rewrite <- app_assoc in H'; exact H'].
    apply reaches_step. intros fuel. cbn [sax_parse_internal]. change (scan (44 :: ?x)) with (@TValueSep FL, x). cbn match. by rewrite E'.
Qed.

Lemma object_set_last kvs k v : Forall (fun kv => key_lt kv.1 k = true) kvs -> object_set kvs k v = kvs ++ [(k, v)].
Proof.
  induction 1 as [|[k' v'] kvs H F IH]; [done|]. cbn in *. by rewrite (key_lt_asym _ _ H), H, IH.
Qed.

Lemma sorted_before kvs0 kv kvs :
  StronglySorted key_before (kvs0 ++ kv :: kvs) -> Forall (fun x => key_lt x.1 kv.1 = true) kvs0.
Proof.
  induction kvs0 as [|x kvs0 IH]; intros S; [constructor|]. inversion S as [|? ? S' F]; subst. constructor; [|by apply IH].
  apply Forall_app in F as [_ F]. by inversion F.
Qed.

(** The object after the members of a text, a later one replacing an earlier
    one with its key. *)
Definition set_all (kvs0 kvs : list (Bytes * json)) : list (Bytes * json) := foldl (fun m kv => object_set m kv.1 kv.2) kvs0 kvs.

Lemma set_all_sorted kvs : forall kvs0, StronglySorted key_before (kvs0 ++ kvs) -> set_all kvs0 kvs = kvs0 ++ kvs.
Proof.
  induction kvs as [|[k v] kvs IH]; intros kvs0 S; cbn; [by rewrite app_nil_r|].
  rewrite object_set_last by (by eapply (sorted_before _ (k, v))). unfold set_all in IH. rewrite IH; by rewrite <- app_assoc.
Qed.

Definition member_reads (text : std_string) (kv : Bytes * json) : Prop :=
  exists v, text = ([34] ++ escape_bytes kv.1 ++ [34]) ++ [58] ++ v /\ utf8_ok [] kv.1 = true /\ reads v kv.2.

(** From the first key of the members to the end of their object. *)
Lemma read_members texts kvs : Forall2 member_reads texts kvs -> kvs <> [] -> forall kvs0 stack rest,
  exists k s t s', scan (join texts ++ 125 :: rest) = (TString k, s) /\ parse_key (TString k) s = Ok (k, t, s') /\
    reaches (Before t) (FObject kvs0 k :: stack) s' (After (JObject (set_all kvs0 kvs))) stack rest.
Proof.
  induction 1 as [|t1 [k1 v1] texts kvs R F IH]; intros N kvs0 stack rest; [done|].
  destruct R as (text & -> & U & R). cbn [fst snd] in *.
  assert (K : forall rest' t s, scan (text ++ rest') = (t, s) ->
    scan ((([34] ++ escape_bytes k1 ++ [34]) ++ [58] ++ text) ++ rest') = (TString k1, 58 :: text ++ rest') /\
    parse_key (TString k1) (58 :: text ++ rest') = Ok (k1, t, s)).
  { intros rest' t s E. split; [rewrite <- (app_assoc _ ([58] ++ text)); by rewrite scan_text|].
    unfold parse_key. change (scan (58 :: ?x)) with (@TNameSep FL, x). cbn match. by rewrite E. }
  destruct F as [|t2 kv2 texts kvs R2 F2].
  - destruct (R (125 :: rest) (FObject kvs0 k1 :: stack)) as (t & s & E & T & H); [cbn; auto|].
    destruct (K _ _ _ E) as [K1 K2]. exists k1, (58 :: text ++ 125 :: rest), t, s. split_and!; [done..|].
    eapply reaches_trans; [exact H|]. by apply reaches_step.
  - destruct (IH ltac:(done) (object_set kvs0 k1 v1) stack rest) as (k' & s1 & t' & s' & E' & P' & H').
    destruct (R (44 :: join (t2 :: texts) ++ 125 :: rest) (FObject kvs0 k1 :: stack)) as (t & s & E & T & H); [cbn; auto|].
    destruct (K _ _ _ E) as [K1 K2]. do 4 eexists. split_and!; [|exact K2|].
    { rewrite <- K1. change (join (?a :: t2 :: texts)) with (a ++ [44] ++ join (t2 :: texts)). by rewrite <- !app_assoc. }
    eapply reaches_trans; [exact H|]. eapply reaches_trans; [|exact H'].
    apply reaches_step. intros fuel. cbn [sax_parse_internal]. change (scan (44 :: ?x)) with (@TValueSep FL, x). cbn match.
    rewrite E', P'. done.
Qed.

Lemma reads_array texts js : Forall2 reads texts js -> reads ([91] ++ join texts ++ [93]) (JArray js).
Proof.
  intros F rest stack D. cbn [app]. rewrite <- app_assoc. cbn [app].
  change (scan (91 :: ?r)) with (@TBeginArray FL, r). do 2 eexists. split_and!; [done..|]. destruct js as [|j js].
  { inversion F; subst. by apply reaches_step. }
  destruct (read_elements texts (j :: js) F) with (js0 := @nil json) (stack := stack) (rest := rest) as (t & s & Es & T & R); [done|].
  eapply reaches_trans; [|exact R]. apply reaches_step. intros fuel. cbn [sax_parse_internal]. rewrite Es. by destruct t.
Qed.

Lemma reads_object texts kvs : Forall2 member_reads texts kvs -> reads ([123] ++ join texts ++ [125]) (JObject (set_all [] kvs)).
Proof.
  intros F rest stack D. cbn [app]. rewrite <- app_assoc. cbn [app].
  change (scan (123 :: ?r)) with (@TBeginObject FL, r). do 2 eexists. split_and!; [done..|]. destruct kvs as [|kv kvs].
  { inversion F; subst. by apply reaches_step. }
  destruct (read_members texts (kv :: kvs) F) with (kvs0 := @nil (Bytes * json)) (stack := stack) (rest := rest)
    as (k & s & t & s' & Es & P & R); [done|].
  eapply reaches_trans; [|exact R]. apply reaches_step. intros fuel. cbn [sax_parse_internal]. rewrite Es. cbn match. by rewrite P.
Qed.

Lemma res_map_Forall2 {A B} (f : A -> res B) l : forall ys, res_map f l = Ok ys -> Forall2 (fun y x => f x = Ok y) ys l.
Proof.
  induction l as [|x l IH]; intros ys E; cbn in E; res_inv; [constructor|]. constructor; [done|by apply IH].
Qed.

Lemma Forall2_with {A B} (R : A -> B -> Prop) (P : B -> Prop) (Q : A -> B -> Prop) l l' :
  Forall2 R l l' -> Forall P l' -> (forall a b, R a b -> P b -> Q a b) -> Forall2 Q l l'.
Proof. intros F G I. induction F; inversion G; subst; constructor; auto. Qed.

Lemma value_reads nb j : length nb = 64%nat -> well_formed readable j -> forall text, dump nb j = Ok text -> reads text j.
Proof.
  intros L. induction j as [ | | | | | |js IH|kvs IH] using json_induction; intros W text E;
    try (inversion W; subst; by eapply reads_atom).
  - inversion W as [? A|? Wf|]; subst; [done|]. rewrite dump_array in E. apply bind_Ok in E as (texts & Et & [= <-]).
    apply res_map_Forall2 in Et. apply reads_array.
    eapply Forall2_with; [exact Et|apply Forall_and; split; [exact IH|exact Wf]|]. cbn. intros a b Ea [I Wb]. by apply I.
  - inversion W as [? A| |? S U Wf]; subst; [done|]. rewrite dump_object in E. apply bind_Ok in E as (texts & Et & [= <-]).
    apply res_map_Forall2 in Et. pose proof (set_all_sorted kvs [] S) as Es. cbn [app] in Es. rewrite <- Es. apply reads_object.
    eapply Forall2_with; [exact Et|apply Forall_and; split; [exact IH|apply Forall_and; split; [exact Wf|exact U]]|].
    cbn. intros a b Ea (I & Wb & Ub). unfold member_text in Ea. rewrite dump_string_ok in Ea by done. cbn [mbind res_bind] in Ea.
    apply bind_Ok in Ea as (v & Ev & [= <-]). exists v. split_and!; [by rewrite <- !app_assoc|done|by apply I].
Qed.

(** The printed text starts with an ASCII character, so with no byte order
    mark. *)
Lemma dump_head nb j text :
  length nb = 64%nat -> well_formed readable j -> dump nb j = Ok text -> exists c t, text = c :: t /\ c < 128.
Proof.
  intros L W E. destruct j as [|b|n|n|f|s|js|kvs].
  1-6: inversion W as [? A| |]; subst; cbn in A, E.
  - injection E as <-. by do 2 eexists.
  - injection E as <-. destruct b; by do 2 eexists.
  - rewrite dump_integer_correct in E by lia. injection E as <-. unfold print_int. z_tests. by do 2 eexists.
  - rewrite dump_integer_correct in E by lia. injection E as <-. unfold print_int. z_tests. cbn match.
    destruct (Z.eq_dec n 0) as [-> |N]; [by do 2 eexists|]. destruct (print_dec_head n) as (c & ds & -> & R & _); [lia|].
    do 2 eexists. split; [done|lia].
  - injection E as <-. destruct A as (I & c & ds & Ep & N & _). unfold dump_float. rewrite I, Ep. do 2 eexists. split; [done|].
    unfold num_start, is_digit in N. repeat case_match; to_prop; (lia || done).
  - rewrite dump_string_ok in E by done. injection E as <-. by do 2 eexists.
  - rewrite dump_array in E. apply bind_Ok in E as (texts & _ & [= <-]). by do 2 eexists.
  - rewrite dump_object in E. apply bind_Ok in E as (texts & _ & [= <-]). by do 2 eexists.
Qed.

Lemma scan_first_ascii c s : c < 128 -> scan_first (c :: s) = scan (c :: s).
Proof.
  intros H. unfold scan_first, skip_bom, starts_with. cbn [length take].
  destruct (bool_decide_reflect (c :: take 2 s = [239; 187; 191])) as [E|_]; [injection E; lia|].
  destruct (bool_decide_reflect (c :: take 0 s = [239])) as [E|_]; [injection E; lia|done].
Qed.

(** The parser's answer does not depend on how much fuel is enough. *)
Lemma sax_parse_agree f1 f2 m stack s r :
  sax_parse_internal f1 m stack s = Ok r -> sax_parse_internal f2 m stack s <> OutOfFuel -> sax_parse_internal f2 m stack s = Ok r.
Proof.
  intros E N. rewrite <- (sax_parse_fuel f2 m stack s _ eq_refl N f1), Nat.add_comm. by apply sax_parse_fuel.
Qed.

Lemma reads_parse c text j : c < 128 -> reads (c :: text) j -> parse (c :: text) = Ok j.
Proof.
  intros Hc H. destruct (H [] []) as (t & s & Es & _ & [n R]); [done|]. rewrite app_nil_r in Es.
  unfold parse. rewrite scan_first_ascii, Es by done.
  rewrite (sax_parse_agree (n + 1) _ (Before t) [] s (j, [])); [done|by rewrite R|].
  destruct (parse_returns_at (2 * length (c :: text) + 3) (Before t) [] s) as [[? ->]|[? ->]]; [|done..].
  unfold parse_measure. assert (mode_weight (Before t) <= 2)%nat by (destruct t; cbn; lia).
  destruct (scan_shorter (c :: text) t s Es) as [H1|[_ ->]]; cbn [length] in *; lia.
Qed.

Lemma print_then_parse nb j :
  length nb = 64%nat -> well_formed readable j -> exists text, dump nb j = Ok text /\ parse text = Ok j.
Proof.
  intros L W. destruct (dump_total nb j L) as [text E]; [by eapply well_formed_weaken; [apply readable_printable|]|].
  exists text. split; [done|]. destruct (dump_head nb j text L W E) as (c & tl & -> & Hc).
  by apply reads_parse, (value_reads nb).
Qed.

(** Whatever a text holds, the value that the parser builds from it can
    be printed: no control character, surrogate or broken sequence that the
    lexer lets through makes the serializer throw or leave its buffers. *)
Theorem parsed_dumps (number_buffer : Bytes) (text : std_string) (j : json) :
  length number_buffer = 64%nat -> parse text = Ok j -> exists printed, dump number_buffer j = Ok printed.
Proof. intros L E. apply dump_total; [done|]. by apply parse_well_formed in E. Qed.

(** C30: The parser ends on every text, however deep its nesting: it builds a
    value whose objects are ordered, whose strings are well formed and whose
    integers fit their types, or it throws. *)
Theorem parse_total (text : std_string) :
  (exists j, parse text = Ok j /\ well_formed printable j) \/ exists what, parse text = Throw what.
Proof.
  destruct (parse_returns text) as [[j E]|[w E]]; [left; exists j|right; by exists w].
  split; [done|by apply parse_well_formed in E].
Qed.

(** Signed integers that are not negative print like unsigned ones. *)
Lemma dump_as_parsed nb j : dump nb (as_parsed j) = dump nb j.
Proof.
  induction j as [ | |n| | | |js IH|kvs IH] using json_induction; try done.
  - cbn [as_parsed]. by destruct (0 <=? n).
  - cbn [as_parsed]. rewrite !dump_array. f_equal. induction IH as [|j js E _ IH]; [done|].
    cbn [fmap list_fmap res_map]. by rewrite E, IH.
  - cbn [as_parsed]. rewrite !dump_object. f_equal. induction IH as [|[k j] kvs E _ IH]; [done|].
    cbn [fmap list_fmap res_map]. assert (Em : member_text nb (k, as_parsed j) = member_text nb (k, j))
      by (unfold member_text; cbn [fst snd] in *; by rewrite E). by rewrite Em, IH.
Qed.

Lemma as_parsed_readable j : well_formed storable j -> well_formed readable (as_parsed j).
Proof.
  induction j as [ |b|n|n|f|t|js IH|kvs IH] using json_induction; intros W; inversion W as [? A|? F|? St Fk F]; subst;
    try (by destruct A); try (by constructor 1).
  - cbn [as_parsed]. cbn in A. destruct (Z.leb_spec 0 n); constructor 1; cbn; lia.
  - cbn [as_parsed]. constructor 2. apply Forall_fmap. rewrite !Forall_forall in *. intros j Hj. by apply IH, F.
  - cbn [as_parsed]. constructor 3.
    + clear -St. induction St as [|[k j] kvs _ IH F]; cbn [fmap list_fmap]; [constructor|]. constructor; [exact IH|].
      apply Forall_fmap. by apply (Forall_impl _ _ _ F); intros [k' j'].
    + apply Forall_fmap. by apply (Forall_impl _ _ _ Fk); intros [k j].
    + apply Forall_fmap. rewrite !Forall_forall in *. intros [k j] Hj. cbn. by apply (IH (k, j)), (F (k, j)).
Qed.

(** C12: A value is parsed from its printed form. Arrays and objects of any
    depth, strings of any well-formed bytes with the escapes of control
    characters, integers over the whole range of their types and floats that
    [strtod] reads back: [dump] returns a text, and [parse] of it the value.
    The one thing that changes is the type of a signed integer that is not
    negative, which is read as unsigned. *)
Theorem json_roundtrip (number_buffer : Bytes) (j : json) :
  length number_buffer = 64%nat -> well_formed storable j ->
  exists text, dump number_buffer j = Ok text /\ parse text = Ok (as_parsed j).
Proof.
  intros L W. destruct (print_then_parse number_buffer (as_parsed j) L (as_parsed_readable j W)) as (text & D & P).
  exists text. by rewrite <- (dump_as_parsed number_buffer j).
Qed.

End Roundtrip.

Module RoundtripSample.

#[local] Existing Instance TestFloat.floats.

(** An object with a number of each kind and text that needs escapes. *)
Definition value : json :=
  JObject [(str "a", JArray [JUnsigned 18446744073709551615; JInteger (-9223372036854775808); JInteger 5; JFloat (str "1.5e-3")]);
           (str "b", JString [10; 34; 0xE2; 0x82; 0xAC; 0])].

Lemma value_storable : well_formed storable value.
Proof.
  constructor 3.
  - repeat constructor.
  - repeat constructor.
  - repeat apply List.Forall_cons; [| |apply List.Forall_nil].
    + constructor 2. repeat apply List.Forall_cons; [..|apply List.Forall_nil]; constructor 1; cbn; [lia..|].
      split; [done|]. by exists 49, (str ".5e-3").
    + by constructor 1.
Qed.

Lemma value_text :
  dump (replicate 64 0) value
  = Ok (str "{" ++ [34] ++ str "a" ++ [34] ++ str ":[18446744073709551615,-9223372036854775808,5,1.5e-3]," ++
        [34] ++ str "b" ++ [34] ++ str ":" ++ [34] ++ str "\n\" ++ [34; 0xE2; 0x82; 0xAC] ++ str "\u0000" ++ [34] ++ str "}").
Proof. vm_compute. reflexivity. Qed.

End RoundtripSample.

Lemma json_roundtrip_witness :
  exists text, @dump TestFloat.floats (replicate 64 0) RoundtripSample.value = Ok text /\
    @parse TestFloat.floats text = Ok (as_parsed RoundtripSample.value).
Proof. apply (json_roundtrip (FL := TestFloat.floats)); [done|apply RoundtripSample.value_storable]. Defined.

Lemma parsed_dumps_witness :
  exists printed, @dump TestFloat.floats (replicate 64 0) (JArray [JInteger 0; JString [0xF0; 0x9F; 0x98; 0x80]]) = Ok printed.
Proof. by apply (parsed_dumps (FL := TestFloat.floats) _ (str "[-0," ++ [34] ++ str "\ud83d\uDE00" ++ [34] ++ str "]")). Defined.
