(* ===== verification/JsonLibrary.v ===== *)
(** * The JSON library as the RPC server uses it

    [JsonLib] are the operations that the server calls and [JsonLaws] what it
    relies on; [nlohmann] is the library of src/external/nlohmann/json.hpp. *)

From stdpp Require Import base list numbers strings.
From Stdlib Require Import ZArith Lia.
From S2P Require Import Prelude JsonLexer JsonParser JsonSerializer JsonUtf8 JsonRoundtrip.

#[local] Open Scope Z_scope.

Class JsonLib : Type := {
  json : Type;
  parse : std_string -> res json;
  contains : json -> std_string -> bool;
  (** [operator\[\]] on a non-const value: a missing key reads as null. *)
  at_key : json -> std_string -> res json;
  at_index : json -> Z -> res json;
  (** Conversion to [std::string]. *)
  as_string : json -> res std_string;
  dump : json -> res std_string;
}.

(** Its functions return or throw, on values that were parsed also [dump],
    and a string fits in memory ([std::string::max_size]). *)
Class JsonLaws (JL : JsonLib) : Type := {
  json_valid : json -> Prop;
  parse_returns s : returns (parse s);
  parse_valid s j : parse s = Ok j -> json_valid j;
  at_key_returns j k : returns (at_key j k);
  at_key_valid j k v : json_valid j -> at_key j k = Ok v -> json_valid v;
  at_index_returns j i : returns (at_index j i);
  as_string_returns j : returns (as_string j);
  as_string_size j s : as_string j = Ok s -> zlen s < 2 ^ 63;
  dump_returns j : json_valid j -> returns (dump j);
}.

Section Nlohmann.
Context {FL : FloatLib}.

(** [dump()] makes a serializer, whose number buffer is zero
    (json.hpp 19792). *)
Definition number_buffer : Bytes := replicate 64 0.

#[global] Instance nlohmann : JsonLib := {|
  json := JsonParser.json;
  parse := JsonParser.parse;
  contains := JsonParser.contains;
  at_key := JsonParser.at_key;
  at_index := JsonParser.at_index;
  as_string := JsonParser.as_string;
  dump := JsonSerializer.dump number_buffer;
|}.

Lemma null_valid : well_formed printable JNull.
Proof. by constructor 1. Qed.

Lemma object_find_Forall (P : Bytes * JsonParser.json -> Prop) kvs k v :
  Forall P kvs -> object_find kvs k = Some v -> exists k', P (k', v).
Proof.
  induction 1 as [|[k' v'] kvs H F IH]; cbn; [done|]. destruct (bool_decide _); [|done]. intros [= <-]. by exists k'.
Qed.

#[global] Instance nlohmann_laws : JsonLaws nlohmann.
Proof.
  refine {| json_valid := well_formed printable |}; cbn.
  - apply JsonParser.parse_returns.
  - apply parse_well_formed.
  - intros j k. destruct j; cbn; try (right; by eexists); left; by eexists.
  - intros j k v W E. destruct j as [| | | | | | |kvs]; cbn in E; try discriminate E; injection E as <-; [apply null_valid|].
    inversion W as [? A| |? S U F]; subst; [done|]. destruct (object_find kvs k) as [v|] eqn:Ef; [|apply null_valid].
    by destruct (object_find_Forall _ kvs k v F Ef).
  - intros j i. destruct j; cbn; try (right; by eexists); left; by eexists.
  - intros j. destruct j; cbn; try (right; by eexists). destruct (_ <? _); [left|right]; by eexists.
  - intros j s. destruct j; cbn; try done. destruct (_ <? _) eqn:E; [|done]. to_prop. by intros [= <-].
  - intros j W. left. by apply dump_total.
Defined.

End Nlohmann.
