(* ===== verification/RpcServer.v ===== *)
(** * The JSON-RPC server (src/src/rpc_server.cpp, src/include/gambit/rpc_server.hpp)

    Requests, dispatch, the method handlers and the replies, over the
    interface of the JSON library ([JsonLib]). Its sockets and threads are in
    ServerThreads.v. *)

From stdpp Require Import base list gmap numbers strings.
From Stdlib Require Import ZArith Lia.
From S2P Require Import Prelude Keccak Hash Rlp Address Mpt Keys Transaction State Zk Block.
From S2P Require Import Blockchain Cstring JsonLexer JsonLibrary.

#[local] Open Scope Z_scope.
#[local] Open Scope act_scope.

(** ** Replies *)

(** A literal of the source, with ' for its double quotes. *)
Definition js (s : string) : std_string := (fun c => if c =? 39 then 34 else c) <$> str s.

(** A value between double quotes. *)
Definition quoted (s : std_string) : std_string := [34] ++ s ++ [34].

Definition CRLF : std_string := [13; 10].

(** rpc_server.cpp 423-433. *)
Definition httpResponse (body status : std_string) : std_string :=
  (str "HTTP/1.1 " ++ status ++ CRLF) ++
  (str "Content-Type: application/json" ++ CRLF) ++
  (str "Content-Length: " ++ print_dec (zlen body) ++ CRLF) ++
  (str "Connection: close" ++ CRLF) ++
  CRLF ++ body.

(** rpc_server.hpp 42: the default status. *)
Definition ok_status : std_string := str "200 OK".

Definition safeId (id : std_string) : std_string := if bool_decide (id = []) then str "null" else id.

(** rpc_server.cpp 435-442. *)
Definition jsonError (id : std_string) (code : Z) (message : std_string) : std_string :=
  js "{'jsonrpc':'2.0','error':{'code':" ++ print_int code ++ js ",'message':'" ++ message ++
  js "'},'id':" ++ safeId id ++ str "}".

(** rpc_server.cpp 444-448. *)
Definition jsonResult (id resultJson : std_string) : std_string :=
  js "{'jsonrpc':'2.0','result':" ++ resultJson ++ js ",'id':" ++ safeId id ++ str "}".

(** [snprintf("0x%llx")]. *)
Definition hex_quantity (v : Z) : std_string := str "0x" ++ print_hex v.

(** ["0x" + toHex(rlp::encodeUint(v))]. *)
Definition rlp_quantity (v : Z) : std_string := str "0x" ++ Hash.toHex (encodeUint v).

(** ** The method handlers *)

(** rpc_server.cpp 230-237. *)
Definition handle_blockNumber (bc : Blockchain) (id : std_string) : std_string :=
  let height := match last (chain_ bc) with Some b => blk_index b | None => 0 end in
  jsonResult id (quoted (hex_quantity height)).

(** rpc_server.cpp 239-255. *)
Definition handle_getBalance (bc : Blockchain) (id addrHex : std_string) : res std_string :=
  catch_all
    (addr ← Address.fromHex addrHex;
     let bal := match State.get (state_ bc) addr with Some a => acc_balance a | None => 0 end in
     Ok (jsonResult id (quoted (hex_quantity bal))))
    (Ok (jsonError id (-32602) (str "Invalid address"))).

(** rpc_server.cpp 403-419. *)
Definition handle_getTransactionCount (bc : Blockchain) (id addrHex : std_string) : res std_string :=
  catch_all
    (addr ← Address.fromHex addrHex;
     let nonce := match State.get (state_ bc) addr with Some a => acc_nonce a | None => 0 end in
     Ok (jsonResult id (quoted (hex_quantity nonce))))
    (Ok (jsonError id (-32602) (str "Invalid address"))).

Section WithSecp.
Context {SC : Secp256k1}.

(** rpc_server.cpp 257-278. *)
Definition handle_sendRawTransaction (id txHex : std_string) : act Blockchain std_string := fun bc =>
  match
    (tx <- act_lift (Transaction.fromHex txHex) ;;
     v <- act_lift (validateTransaction bc tx "") ;;
     if negb (fst v) then act_ret (jsonError id (-32000) (str (snd v)))
     else
       act_modify (fun bc => addTransaction bc tx) ;;
       let txHash := if bool_decide (tx_hash tx = []) then Transaction.computeHash tx else tx_hash tx in
       act_ret (jsonResult id (quoted txHash))) bc
  with
  | (bc', Throw what) => (bc', Ok (jsonError id (-32602) (str what)))
  | r => r
  end.

End WithSecp.

(** rpc_server.cpp 280-308. *)
Definition handle_getBlockByNumber (bc : Blockchain) (id numHex : std_string) : res std_string :=
  num ← stoull 16 numHex;
  if num >=? zlen (chain_ bc) then Ok (jsonResult id (str "null"))
  else
  match chain_ bc !! Z.to_nat num with
  | None => UB
  | Some b =>
      Ok (jsonResult id
        (js "{'number':'0x" ++ numHex ++ js "','hash':'" ++ blk_hash b ++ js "','parentHash':'" ++ blk_prevHash b ++
         js "','stateRoot':'" ++ blk_stateAfter b ++ js "','txRoot':'" ++ blk_txRoot b ++
         js "','timestamp':'" ++ rlp_quantity (blk_timestamp b) ++ js "'}"))
  end.

(** rpc_server.cpp 310-347: the first block whose hash, without 0x, is the
    one searched for. *)
Fixpoint search_hash (chain : list Block) (hashHex : std_string) : option Block :=
  match chain with
  | [] => None
  | b :: chain' => if bool_decide (strip0x (blk_hash b) = strip0x hashHex) then Some b else search_hash chain' hashHex
  end.

(** rpc_server.cpp 310-347. *)
Definition handle_getBlockByHash (bc : Blockchain) (id hashHex : std_string) : std_string :=
  match search_hash (chain_ bc) hashHex with
  | None => jsonResult id (str "null")
  | Some b =>
      jsonResult id
        (js "{'number':'" ++ rlp_quantity (blk_index b) ++ js "','hash':'0x" ++ blk_hash b ++
         js "','parentHash':'0x" ++ blk_prevHash b ++ js "','stateRoot':'0x" ++ blk_stateAfter b ++
         js "','txRoot':'0x" ++ blk_txRoot b ++ js "','timestamp':'" ++ rlp_quantity (blk_timestamp b) ++ js "'}")
  end.

(** rpc_server.cpp 352-354 (and 375-377): the first transaction with the hash. *)
Definition search_tx (txs : list Transaction) (hashHex : std_string) : option Transaction :=
  List.find (fun tx => bool_decide (tx_hash tx = hashHex)) txs.

(** rpc_server.cpp 373-398. *)
Fixpoint search_blocks (chain : list Block) (hashHex : std_string) : option (Block * Transaction) :=
  match chain with
  | [] => None
  | b :: chain' =>
      match search_tx (blk_transactions b) hashHex with
      | Some tx => Some (b, tx)
      | None => search_blocks chain' hashHex
      end
  end.

(** rpc_server.cpp 349-401. [Address::toHex] has the checksum by default. *)
Definition handle_getTransactionByHash (bc : Blockchain) (id hashHex : std_string) : std_string :=
  match search_tx (mempool_ bc) hashHex with
  | Some tx =>
      jsonResult id
        (js "{'hash':'" ++ tx_hash tx ++ js "','from':'" ++ Address.toHex true (tx_from tx) ++
         js "','to':'" ++ Address.toHex true (tx_to tx) ++ js "','value':'" ++ rlp_quantity (tx_value tx) ++
         js "','nonce':'" ++ rlp_quantity (tx_nonce tx) ++ js "'}")
  | None =>
      match search_blocks (chain_ bc) hashHex with
      | Some (b, tx) =>
          jsonResult id
            (js "{'hash':'" ++ tx_hash tx ++ js "','blockHash':'" ++ blk_hash b ++
             js "','blockNumber':'" ++ rlp_quantity (blk_index b) ++ js "','from':'" ++ Address.toHex true (tx_from tx) ++
             js "','to':'" ++ Address.toHex true (tx_to tx) ++ js "','value':'" ++ rlp_quantity (tx_value tx) ++
             js "','nonce':'" ++ rlp_quantity (tx_nonce tx) ++ js "'}")
      | None => jsonResult id (str "null")
      end
  end.

(** ** Dispatch *)

Section Dispatch.
Context {SC : Secp256k1} {JL : JsonLib}.

(** [std::string p = req\["params"\]\[0\]]. *)
Definition param0 (req : json) : res std_string :=
  ps ← at_key req (str "params");
  p ← at_index ps 0;
  as_string p.

(** rpc_server.cpp 173-220: the method and its handler. *)
Definition dispatch (req : json) (id : std_string) : act Blockchain std_string :=
  bc <- act_self ;;
  method <- act_lift (m ← at_key req (str "method"); as_string m) ;;
  if bool_decide (method = str "eth_blockNumber") then act_ret (handle_blockNumber bc id)
  else if bool_decide (method = str "eth_getBalance") then
    addr <- act_lift (param0 req) ;; act_lift (handle_getBalance bc id addr)
  else if bool_decide (method = str "eth_sendRawTransaction") then
    txHex <- act_lift (param0 req) ;; handle_sendRawTransaction id txHex
  else if bool_decide (method = str "net_version") then
    act_ret (jsonResult id (quoted (print_dec (chainId_ bc))))
  else if bool_decide (method = str "eth_getBlockByNumber") then
    num <- act_lift (param0 req) ;; act_lift (handle_getBlockByNumber bc id num)
  else if bool_decide (method = str "eth_getBlockByHash") then
    hash <- act_lift (param0 req) ;; act_ret (handle_getBlockByHash bc id hash)
  else if bool_decide (method = str "eth_getTransactionByHash") then
    h <- act_lift (param0 req) ;; act_ret (handle_getTransactionByHash bc id h)
  else if bool_decide (method = str "eth_getTransactionCount") then
    addr <- act_lift (param0 req) ;; act_lift (handle_getTransactionCount bc id addr)
  else act_ret (jsonError id (-32601) (str "Method not found")).

(** rpc_server.cpp 159-172: parsing, the debug output (which dumps values)
    and the id. *)
Definition read_request (jsonStr : std_string) : res (json * std_string) :=
  req ← parse jsonStr;
  _ ← dump req;
  _ ← (if contains req (str "method") then (m ← at_key req (str "method"); dump m) else Ok []);
  _ ← (if contains req (str "params") then (p ← at_key req (str "params"); dump p) else Ok []);
  id ← (if contains req (str "id") then (i ← at_key req (str "id"); dump i) else Ok (str "null"));
  Ok (req, id).

(** rpc_server.cpp 153-228. *)
Definition handleJsonRpc (jsonStr : std_string) : act Blockchain std_string := fun bc =>
  match read_request jsonStr with
  | Throw _ => (bc, Ok (jsonError (str "null") (-32799) (str "Parse error")))
  | UB => (bc, UB)
  | OutOfFuel => (bc, OutOfFuel)
  | Ok (req, id) =>
      match dispatch req id bc with
      | (bc', Throw _) => (bc', Ok (jsonError id (-32799) (str "Parse error")))
      | r => r
      end
  end.

(** rpc_server.cpp 141-147: the body after the blank line. *)
Definition http_body (httpReq : std_string) : option std_string :=
  match find httpReq (CRLF ++ CRLF) 0 with
  | None => None
  | Some pos => Some (drop (pos + 4) httpReq)
  end.

(** rpc_server.cpp 137-151. *)
Definition handleRequest (httpReq : std_string) : act Blockchain std_string := fun bc =>
  match http_body httpReq with
  | None =>
      (bc, Ok (httpResponse (js "{'jsonrpc':'2.0','error':{'code':-32700,'message':'Parse error'},'id':null}") ok_status))
  | Some body =>
      match handleJsonRpc body bc with
      | (bc', Ok jsonResp) => (bc', Ok (httpResponse jsonResp ok_status))
      | r => r
      end
  end.

(** rpc_server.cpp 113. *)
Definition BUF_SIZE : nat := Z.to_nat 8192.

(** rpc_server.cpp 111-135: the bytes that one [recv] finds on the
    connection, and the reply that is sent, if any. *)
Definition handleClient (received : Bytes) : act Blockchain (option std_string) :=
  let req := take BUF_SIZE received in
  if bool_decide (req = []) then act_ret None
  else (resp <- handleRequest req ;; act_ret (Some resp)).

End Dispatch.

(** ** Lemmas *)

#[local] Hint Resolve bind_returns Ok_returns parse_returns at_key_returns at_index_returns as_string_returns dump_returns : core.

Lemma addr_fromHex_returns s : returns (Address.fromHex s).
Proof.
  unfold Address.fromHex. apply bind_returns; [apply fromHex_returns|].
  intros raw. unfold fromBytes. destruct (negb _); [right; by eexists|left; by eexists].
Qed.

Lemma catch_total {A} (m : res A) h : returns m -> (exists a, h = Ok a) -> exists a, catch_all m h = Ok a.
Proof. intros [[a ->]|[w ->]] H; cbn; eauto. Qed.

Section Effects.
Context {SC : Secp256k1} {JL : JsonLib}.

(** The request is an eth_sendRawTransaction with this text. *)
Definition sends (req : json) (txHex : std_string) : Prop :=
  (m ← at_key req (str "method"); as_string m) = Ok (str "eth_sendRawTransaction") /\ param0 req = Ok txHex.

(** The text is read as a transaction that passes the check and is queued. *)
Definition queues (bc : Blockchain) (txHex : std_string) (bc' : Blockchain) : Prop :=
  exists tx err, Transaction.fromHex txHex = Ok tx /\ validateTransaction bc tx "" = Ok (true, err) /\
                 bc' = addTransaction bc tx.

(** The outcome of a handler: an answer or an exception, with at most one
    checked transaction queued; or the undefined behaviour of the transaction
    reader, with nothing done. *)
Definition good {A} (sent : std_string -> Prop) (bc : Blockchain) (out : Blockchain * res A) : Prop :=
  (returns out.2 /\ (out.1 = bc \/ exists p, sent p /\ queues bc p out.1)) \/
  (out = (bc, UB) /\ exists p, sent p /\ Transaction.fromHex p = UB).

Lemma sendRaw_good (sent : std_string -> Prop) id txHex bc :
  sent txHex -> Transaction.fromHex txHex <> OutOfFuel -> good sent bc (handle_sendRawTransaction id txHex bc).
Proof.
  intros S NF. unfold handle_sendRawTransaction, act_bind, act_lift.
  destruct (Transaction.fromHex txHex) as [tx|w| |] eqn:E;
    [|by left; split; [apply Ok_returns|left]|by right; split; [|exists txHex]|done].
  destruct (validate_returns bc tx "") as (ok & e & V). rewrite V. cbn [fst snd].
  left. destruct ok; cbn [negb]; (split; [apply Ok_returns|]); [right|by left].
  exists txHex. split; [done|]. by exists tx, e.
Qed.

Lemma good_ret {A} sent bc (a : A) : good sent bc (act_ret a bc).
Proof. left. split; [apply Ok_returns|by left]. Qed.

Lemma good_lift {A} sent bc (r : res A) : returns r -> good sent bc (act_lift r bc).
Proof. intros R. left. split; [done|by left]. Qed.

Lemma good_bind {A B} sent bc (r : res A) (k : A -> act Blockchain B) :
  returns r -> (forall a, r = Ok a -> good sent bc (k a bc)) -> good sent bc (act_bind (act_lift r) k bc).
Proof.
  intros [[a E]|[w E]] K; unfold act_bind, act_lift; rewrite E; [by apply K|].
  left. split; [right; by eexists|by left].
Qed.

Lemma queues_step bc p bc' : queues bc p bc' -> node_step bc bc'.
Proof. intros (tx & err & E & V & ->). apply (node_queue bc tx err); [by eapply fromHex_ok|done]. Qed.

End Effects.

Lemma getBlockByNumber_returns bc id num :
  (forall n, stoull 16 num = Ok n -> 0 <= n) -> returns (handle_getBlockByNumber bc id num).
Proof.
  intros P. unfold handle_getBlockByNumber. destruct (stoull_returns 16 num) as [[n E]|[w E]]; rewrite E; cbn [mbind res_bind];
    [|right; by eexists]. specialize (P n E). destruct (_ >=? _) eqn:G; [apply Ok_returns|]. to_prop.
  destruct (chain_ bc !! Z.to_nat n) eqn:L; [apply Ok_returns|]. exfalso.
  apply lookup_ge_None in L. unfold zlen in G. lia.
Qed.

Section Answers.
Context {SC : Secp256k1} {JL : JsonLib} {JW : JsonLaws JL}.

Lemma param0_returns req : returns (param0 req).
Proof. unfold param0. eauto 10. Qed.

Lemma param0_size req p : param0 req = Ok p -> zlen p < 2 ^ 63.
Proof.
  unfold param0. intros H. apply bind_Ok in H as (ps & _ & H). apply bind_Ok in H as (q & _ & H).
  by apply as_string_size in H.
Qed.

Lemma getAccount_returns bc id addr (f : Account -> Z) :
  returns (catch_all
    (a ← Address.fromHex addr;
     let v := match State.get (state_ bc) a with Some x => f x | None => 0 end in
     Ok (jsonResult id (quoted (hex_quantity v))))
    (Ok (jsonError id (-32602) (str "Invalid address")))).
Proof. destruct (addr_fromHex_returns addr) as [[a ->]|[w ->]]; cbn; apply Ok_returns. Qed.

Lemma dispatch_good req id bc : good (sends req) bc (dispatch req id bc).
Proof.
  unfold dispatch. unfold act_bind at 1. unfold act_self.
  apply good_bind; [eauto|]. intros method Em.
  repeat match goal with |- good _ _ ((if ?b then _ else _) _) => destruct b eqn:? end; try apply good_ret;
    (apply good_bind; [apply param0_returns|]; intros p Ep); try apply good_ret.
  - apply good_lift, (getAccount_returns bc id p acc_balance).
  - match goal with H : bool_decide (_ = str "eth_sendRawTransaction") = true |- _ => apply bool_decide_eq_true in H; subst method end.
    apply sendRaw_good; [by split|]. by apply fromHex_stops, (param0_size req).
  - apply good_lift, getBlockByNumber_returns. intros n E. apply (stoull_range 16) in E as [? _]; lia.
  - apply good_lift, (getAccount_returns bc id p acc_nonce).
Qed.

Lemma dump_member j k : json_valid j -> returns (v ← at_key j k; dump v).
Proof.
  intros V. destruct (at_key_returns j k) as [[v E]|[w ->]]; [|right; by eexists]. rewrite E. cbn [mbind res_bind].
  by eapply dump_returns, at_key_valid.
Qed.

Lemma read_request_returns s : returns (read_request s).
Proof.
  unfold read_request. destruct (parse_returns s) as [[req E]|[w ->]]; [|right; by eexists]. rewrite E. cbn [mbind res_bind].
  apply parse_valid in E. apply bind_returns; [by apply dump_returns|]. intros _.
  assert (G : forall k d, returns (if contains req k then (v ← at_key req k; dump v) else Ok d)).
  { intros k d. destruct (contains req k); [by apply dump_member|apply Ok_returns]. }
  repeat (apply bind_returns; [apply G|]; intros ?). apply Ok_returns.
Qed.

(** A request body that sends this text. *)
Definition body_sends (body txHex : std_string) : Prop :=
  exists req id, read_request body = Ok (req, id) /\ sends req txHex.

(** A whole request that sends this text. *)
Definition request_sends (httpReq txHex : std_string) : Prop :=
  exists body, http_body httpReq = Some body /\ body_sends body txHex.

(** Like [good], with every exception answered. *)
Definition answered {A} (sent : std_string -> Prop) (bc : Blockchain) (out : Blockchain * res A) : Prop :=
  ((exists a, out.2 = Ok a) /\ (out.1 = bc \/ exists p, sent p /\ queues bc p out.1)) \/
  (out = (bc, UB) /\ exists p, sent p /\ Transaction.fromHex p = UB).

Lemma answered_mono {A} (P Q : std_string -> Prop) bc (out : Blockchain * res A) :
  (forall p, P p -> Q p) -> answered P bc out -> answered Q bc out.
Proof. intros H [[O [E|(p & S & K)]]|(E & p & S & U)]; unfold answered; eauto 10. Qed.

Lemma handleJsonRpc_answers s bc : answered (body_sends s) bc (handleJsonRpc s bc).
Proof.
  unfold handleJsonRpc. destruct (read_request_returns s) as [[[req id] E]|[w E]]; rewrite E.
  - apply (answered_mono (sends req)); [intros p S; by exists req, id|].
    destruct (dispatch_good req id bc) as [[R H]|[-> U]]; [|by right].
    destruct (dispatch req id bc) as [bc' r]. cbn [fst snd] in *.
    destruct R as [[a ->]|[w ->]]; left; (split; [by eexists|done]).
  - left. split; [by eexists|by left].
Qed.

Lemma handleRequest_answers req bc : answered (request_sends req) bc (handleRequest req bc).
Proof.
  unfold handleRequest. destruct (http_body req) as [body|] eqn:Eb; [|by left; split; [eexists|left]].
  apply (answered_mono (body_sends body)); [intros p S; by exists body|].
  destruct (handleJsonRpc_answers body bc) as [[[a A] H]|[-> U]]; [|by right].
  destruct (handleJsonRpc body bc) as [bc' r]. cbn [fst snd] in *. subst r. left. split; [by eexists|done].
Qed.

Lemma answered_step {A} sent bc (out : Blockchain * res A) : answered sent bc out -> out.1 = bc \/ node_step bc out.1.
Proof. intros [[_ [E|(p & _ & K)]]|[-> _]]; [by left|right; by eapply queues_step|by left]. Qed.

Lemma handleClient_step received bc : (handleClient received bc).1 = bc \/ node_step bc (handleClient received bc).1.
Proof.
  unfold handleClient. destruct (bool_decide _); [by left|].
  pose proof (answered_step _ _ _ (handleRequest_answers (take BUF_SIZE received) bc)) as H. unfold act_bind.
  by destruct (handleRequest (take BUF_SIZE received) bc) as [bc' []].
Qed.

End Answers.

(** ** Quantities *)

Lemma toHex_digits bs : bytes_ok bs -> Forall (digit_ok 16) (Hash.toHex bs) /\ digits_val 16 (Hash.toHex bs) = be_val bs.
Proof.
  induction bs as [|b bs IH]; intros B; [by split|]. apply bytes_ok_cons in B as [Hb B].
  destruct (IH B) as [I1 I2]. rewrite toHex_cons by done. destruct (byte_nibbles b Hb) as [N1 N2]. split.
  - repeat (constructor; [apply digit_char_ok; lia|]). done.
  - unfold digits_val at 1. cbn [foldl]. rewrite digits_val_acc, !digit_of_char, I2, be_val_cons by done.
    unfold zlen. rewrite toHex_length by done. rewrite Nat2Z.inj_mul. change (Z.of_nat 2) with 2.
    rewrite Z.pow_mul_r by lia. change (16 ^ 2) with 256.
    pose proof (Z.div_mod b 16 ltac:(lia)). lia.
Qed.

Lemma strto_quantity bs :
  bytes_ok bs -> bs <> [] -> strto 16 (str "0x" ++ Hash.toHex bs) = Some (false, be_val bs).
Proof.
  intros B N. destruct (toHex_digits bs B) as [D V]. destruct bs as [|b bs]; [done|].
  assert (Nh : Hash.toHex (b :: bs) <> []) by (rewrite toHex_cons by (by apply bytes_ok_cons in B as [? _]); done).
  rewrite <- V. destruct (Hash.toHex (b :: bs)) as [|c s]; [done|].
  change (str "0x" ++ c :: s) with (48 :: 120 :: c :: s). unfold strto.
  cbn [skip_spaces]. change (isspace 48) with false. cbn match.
  assert (P : skip_prefix 16 (48 :: 120 :: c :: s) = c :: s).
  { unfold skip_prefix. destruct (Forall_inv D) as (d & Ed & _). rewrite Ed. reflexivity. }
  rewrite P, read_digits_val by done. done.
Qed.

(** ** Framing *)

Lemma no_blank_line x y s : x <> 13 \/ y <> 13 -> starts_with (CRLF ++ CRLF) (x :: 10 :: y :: s) = false.
Proof. intros N. apply bool_decide_eq_false. intros [= E1 E2 _]. destruct N; done. Qed.

Lemma find_skip_line line rest i :
  free_of 13 line -> match rest with [] => False | c :: _ => c <> 13 end ->
  find_at (CRLF ++ CRLF) (line ++ CRLF ++ rest) i = find_at (CRLF ++ CRLF) rest (i + length line + 2).
Proof.
  destruct rest as [|c rest]; [done|].
  intros F Nc. revert i. induction F as [|x line Hx F IH]; intros i; cbn [app length].
  - unfold CRLF at 3. cbn [app]. rewrite find_at_cons by (apply no_blank_line; by right).
    rewrite find_at_cons by (apply bool_decide_eq_false; by intros [=]).
    replace (S (S i)) with (i + 0 + 2)%nat by lia. done.
  - rewrite find_at_cons by (apply bool_decide_eq_false; intros [= E _]; done).
    rewrite IH. replace (S i + length line + 2)%nat with (i + S (length line) + 2)%nat by lia. done.
Qed.

Lemma print_dec_free13 n : free_of 13 (print_dec n).
Proof. apply (Forall_impl _ _ _ (print_dec_digits n)). lia. Qed.

(** The reply's header up to the blank line. *)
Definition http_header (n : Z) (status : std_string) : std_string :=
  (str "HTTP/1.1 " ++ status) ++ CRLF ++ str "Content-Type: application/json" ++ CRLF ++
  (str "Content-Length: " ++ print_dec n) ++ CRLF ++ str "Connection: close".

Lemma httpResponse_split body status :
  httpResponse body status = http_header (zlen body) status ++ (CRLF ++ CRLF) ++ body.
Proof. unfold httpResponse, http_header. by rewrite <- !app_assoc. Qed.

Lemma find_blank_line n status rest :
  free_of 13 status ->
  find_at (CRLF ++ CRLF) (http_header n status ++ (CRLF ++ CRLF) ++ rest) 0 = Some (length (http_header n status)).
Proof.
  intros F. unfold http_header. rewrite <- !app_assoc.
  assert (F1 : free_of 13 (str "HTTP/1.1 " ++ status)).
  { apply free_of_app. split; [by apply (bool_decide_unpack _)|done]. }
  assert (F3 : free_of 13 (str "Content-Length: " ++ print_dec n)).
  { apply free_of_app. split; [by apply (bool_decide_unpack _)|apply print_dec_free13]. }
  rewrite (app_assoc (str "HTTP/1.1 ")), (app_assoc (str "Content-Length: ")).
  rewrite (find_skip_line (str "HTTP/1.1 " ++ status)) by done.
  rewrite (find_skip_line (str "Content-Type: application/json")) by (done || by apply (bool_decide_unpack _)).
  rewrite (find_skip_line (str "Content-Length: " ++ print_dec n)) by done.
  rewrite (app_assoc CRLF), (find_at_free _ 13) by (by apply (bool_decide_unpack _) || apply starts_with_app || done).
  f_equal. rewrite !length_app. cbn. lia.
Qed.

(** ** Properties *)

(** The reply frames its body. The parser that the server itself uses for
    requests finds in a reply exactly the body it was built from, whatever
    the body contains; and the Content-Length it announces is the body's
    length in decimal. *)
Theorem rpc_framing (body status : std_string) :
  free_of 13 status ->
  http_body (httpResponse body status) = Some body /\
  httpResponse body status = http_header (zlen body) status ++ (CRLF ++ CRLF) ++ body.
Proof.
  intros F. rewrite httpResponse_split. split; [|done]. unfold http_body, find. rewrite drop_0.
  rewrite find_blank_line by done. f_equal.
  replace (length (http_header (zlen body) status) + 4)%nat
    with (length (http_header (zlen body) status ++ CRLF ++ CRLF)) by (rewrite length_app; done).
  pose proof (drop_seam (http_header (zlen body) status ++ CRLF ++ CRLF) body) as D.
  by rewrite <- app_assoc in D.
Qed.

Lemma rpc_framing_witness : http_body (httpResponse (str "{}") ok_status) = Some (str "{}").
Proof. apply rpc_framing. by apply (bool_decide_unpack _). Defined.

(** C24: every request is answered, and none does more to the chain than queue
    one transaction that passes its check. Whatever bytes a client sends and
    whatever the chain holds, there are two cases. Either the server produces
    a reply (no exception escapes, no access is out of bounds, no loop runs
    on), and the chain is as it was or, for an eth_sendRawTransaction whose
    text reads as a transaction that [validateTransaction] accepts, has that
    transaction at the end of its pool. Or the request is an
    eth_sendRawTransaction whose text makes [Transaction::fromHex] itself
    undefined, and nothing has been done. *)
Theorem rpc_total {SC : Secp256k1} {JL : JsonLib} {JW : JsonLaws JL} (bc bc' : Blockchain)
    (httpReq : std_string) (out : res std_string) :
  handleRequest httpReq bc = (bc', out) ->
  ((exists reply, out = Ok reply) /\
   (bc' = bc \/
    exists txHex tx err, request_sends httpReq txHex /\ Transaction.fromHex txHex = Ok tx /\
      validateTransaction bc tx "" = Ok (true, err) /\ bc' = addTransaction bc tx)) \/
  (out = UB /\ bc' = bc /\ exists txHex, request_sends httpReq txHex /\ Transaction.fromHex txHex = UB).
Proof.
  intros E. destruct (handleRequest_answers httpReq bc) as [[A H]|[U H]].
  - rewrite E in A, H. cbn [fst snd] in *. left. split; [exact A|]. destruct H as [H|(p & Sp & tx & err & K)]; [by left|].
    right. by exists p, tx, err.
  - rewrite E in U. injection U as -> ->. by right.
Qed.

Lemma rpc_total_witness :
  exists reply, (@handleRequest TestCurve.curve (nlohmann (FL := TestFloat.floats)) (CRLF ++ CRLF ++ str "eth_blockNumber") SampleChain.start).2 = Ok reply.
Proof.
  destruct (@rpc_total TestCurve.curve (nlohmann (FL := TestFloat.floats)) _ SampleChain.start _ (CRLF ++ CRLF ++ str "eth_blockNumber") _
    (surjective_pairing _)) as [[[reply E] _]|[U _]]; [exists reply; exact E|].
  exfalso. revert U. vm_compute. discriminate.
Defined.

(** Balances are reported as they are. [eth_getBalance] for an account in
    any accepted spelling of its address replies with a quantity that parses
    back to the balance of the account (0 for one that does not exist). *)
Theorem rpc_balance_exact (bc : Blockchain) (id : std_string) (a : Address) (checksum : bool) :
  state_ok (state_ bc) -> addr_ok a ->
  exists q, handle_getBalance bc id (Address.toHex checksum a) = Ok (jsonResult id (quoted q)) /\
    stoull 16 q = Ok (acc_balance (view (state_ bc) a)).
Proof.
  intros S A. exists (hex_quantity (acc_balance (view (state_ bc) a))). split.
  - unfold handle_getBalance. rewrite fromHex_any by done. cbn [mbind res_bind catch_all].
    unfold view. by destruct (State.get (state_ bc) a).
  - apply stoull_hex. apply (view_ok (state_ bc) a S).
Qed.

Lemma rpc_balance_exact_witness :
  exists q, handle_getBalance (mkBlockchain [] sample_state [] 1) (str "1") (Address.toHex true (mkAddress (replicate 20 1)))
            = Ok (jsonResult (str "1") (quoted q)) /\ stoull 16 q = Ok 100.
Proof.
  apply (rpc_balance_exact (mkBlockchain [] sample_state [] 1)); [apply sample_state_ok|by apply (bool_decide_unpack _)].
Defined.

(** Quantities printed through RLP are not numbers. The block and
    transaction replies print a field as the hexadecimal of its RLP encoding:
    the text parses back to the value exactly for values from 1 to 127; zero
    reads as 128, and from 128 on the length prefix becomes part of the
    number. *)
Theorem rpc_rlp_quantity (v : Z) :
  is_u64 v -> stoull 16 (rlp_quantity v) = Ok v <-> 1 <= v <= 127.
Proof.
  intros V. unfold rlp_quantity. destruct (be_bytes_spec v V) as (Ev & Eb & El & Eh).
  rewrite encodeUint_item by done. cbn [encode_item]. unfold stoull.
  assert (B : bytes_ok (encodeBytes (be_bytes v))) by (apply encodeBytes_ok; [done|lia]).
  rewrite strto_quantity by (done || apply encodeBytes_nonempty).
  destruct (decide (1 <= v <= 127)) as [R|R].
  - split; [done|]. intros _.
    assert (E : encodeBytes (be_bytes v) = [v]).
    { assert (Ebs : be_bytes v = [v]).
      { unfold be_bytes. rewrite be_push_step by lia. rewrite Z.div_small, Z.mod_small by lia. done. }
      rewrite Ebs. unfold encodeBytes. cbn [length]. unfold zlen. cbn. by z_tests. }
    rewrite E. change (be_val [v]) with (0 * 256 + v). z_tests. f_equal; lia.
  - split; [|done]. intros H. exfalso.
    assert (G : v < be_val (encodeBytes (be_bytes v))).
    { unfold encodeBytes. destruct (_ && _) eqn:E.
      - exfalso. to_prop. destruct (be_bytes v) as [|b [|b' bs]]; [done| |unfold zlen in *; cbn in *; lia].
        change (be_val [b]) with (0 * 256 + b) in Ev. cbn in *. apply R. unfold is_u64 in V.
        destruct (Z.eq_dec b 0) as [->|]; [done|lia].
      - destruct (encodeLength_cases (zlen (be_bytes v)) 0x80) as [[_ ->]|[? _]];
          [split; [apply zlen_nonneg|lia]|lia| |lia].
        cbn [app]. rewrite be_val_cons, Ev. pose proof (zlen_nonneg (be_bytes v)).
        pose proof (Z.pow_pos_nonneg 256 (zlen (be_bytes v))). nia. }
    destruct (_ >=? _); [done|]. injection H as H. lia.
Qed.

Lemma rpc_rlp_quantity_witness : stoull 16 (rlp_quantity 127) = Ok 127.
Proof. apply rpc_rlp_quantity; [by split|lia]. Defined.

(** Blocks by number. On a reachable chain [eth_getBlockByNumber] with
    the quantity of [n] finds the block of index [n] (null beyond the end),
    and repeats the given quantity behind another 0x. *)
Theorem rpc_block_by_number (g : GenesisConfig) (bc : Blockchain) (id : std_string) (n : Z) :
  genesis_ok g -> reachable g bc -> is_u64 n ->
  if decide (n < zlen (chain_ bc)) then
    exists b rest, chain_ bc !! Z.to_nat n = Some b /\ blk_index b = n /\
      handle_getBlockByNumber bc id (hex_quantity n)
      = Ok (jsonResult id (js "{'number':'0x0x" ++ print_hex n ++ js "','hash':'" ++ blk_hash b ++ rest))
  else handle_getBlockByNumber bc id (hex_quantity n) = Ok (jsonResult id (str "null")).
Proof.
  intros G R N. destruct (reachable_ok g bc G R) as [_ L _ _ _ _]. destruct N as [N0 N1].
  unfold handle_getBlockByNumber. unfold hex_quantity. rewrite stoull_hex by done. cbn [mbind res_bind].
  destruct (decide (n < zlen (chain_ bc))) as [Lt|Ge].
  - rewrite Z.geb_leb, (proj2 (Z.leb_gt _ _)) by lia.
    destruct (lookup_lt_is_Some_2 (chain_ bc) (Z.to_nat n)) as [b E]; [unfold zlen in Lt; lia|].
    rewrite E. eexists b, _. split; [done|]. split; [rewrite (linked_index _ L _ _ E); lia|].
    rewrite <- app_assoc. reflexivity.
  - rewrite Z.geb_leb, (proj2 (Z.leb_le _ _)) by lia. done.
Qed.

Lemma rpc_block_by_number_witness :
  handle_getBlockByNumber SampleChain.start (str "1") (hex_quantity 7) = Ok (jsonResult (str "1") (str "null")).
Proof.
  pose proof (rpc_block_by_number SampleChain.genesis SampleChain.start (str "1") 7
                SampleChain.genesis_valid SampleChain.start_reachable ltac:(by split)) as H.
  rewrite decide_False in H; [exact H|]. unfold zlen. cbn. lia.
Defined.
