(* ===== verification/RpcEndToEnd.v ===== *)
(** * Requests from end to end

    The RPC server on the JSON library: a client that prints its request with
    the library, and parses the reply with it, learns what the chain holds. *)

From stdpp Require Import base list gmap numbers strings sorting.
From Stdlib Require Import ZArith Lia.
From S2P Require Import Prelude Keccak Hash Rlp Address Mpt Keys Transaction State Zk Block Blockchain Cstring.
From S2P Require Import JsonLexer JsonParser JsonSerializer JsonUtf8 JsonRoundtrip JsonLibrary RpcServer.

#[local] Open Scope Z_scope.

Section EndToEnd.
Context {FL : FloatLib} {SC : Secp256k1}.

(** A request object, its members in the order of their keys. *)
Definition request (id : Z) (method : std_string) (params : list std_string) : JsonParser.json :=
  JObject [(str "id", JUnsigned id); (str "jsonrpc", JString (str "2.0"));
           (str "method", JString method); (str "params", JArray (JString <$> params))].

Definition is_utf8 (s : std_string) : Prop := utf8_ok [] s = true.

Lemma request_readable id method params :
  is_u64 id -> is_utf8 method -> Forall is_utf8 params -> well_formed readable (request id method params).
Proof.
  intros I M P. constructor 3.
  - repeat constructor.
  - repeat constructor.
  - repeat (apply List.Forall_cons; [|]); [by constructor 1..| |apply List.Forall_nil]. constructor 2.
    apply Forall_fmap. eapply Forall_impl; [exact P|]. intros p Hp. by constructor 1.
Qed.

Lemma dump_params (params : list std_string) : Forall is_utf8 params -> exists text, @dump nlohmann (JArray (JString <$> params)) = Ok text.
Proof.
  intros P. apply dump_total; [done|]. constructor 2. apply Forall_fmap. eapply Forall_impl; [exact P|]. intros p Hp. by constructor 1.
Qed.

(** The server reads the request that was printed, and its id. *)
Lemma read_request_printed id method params :
  is_u64 id -> is_utf8 method -> Forall is_utf8 params ->
  exists text, @dump nlohmann (request id method params) = Ok text /\
    read_request text = Ok (request id method params, print_dec id).
Proof.
  intros I M P. pose proof (request_readable id method params I M P) as W.
  destruct (print_then_parse number_buffer _ eq_refl W) as (text & D & E). exists text. split; [done|].
  unfold read_request. cbn [parse nlohmann]. rewrite E. cbn [mbind res_bind]. cbn [dump nlohmann] in *. rewrite D. cbn [mbind res_bind].
  change (@contains nlohmann (request id method params) (str "method")) with true.
  change (@contains nlohmann (request id method params) (str "params")) with true.
  change (@contains nlohmann (request id method params) (str "id")) with true.
  change (@at_key nlohmann (request id method params) (str "method")) with (Ok (JString method) : res JsonParser.json).
  change (@at_key nlohmann (request id method params) (str "params")) with (Ok (JArray (JString <$> params)) : res JsonParser.json).
  change (@at_key nlohmann (request id method params) (str "id")) with (Ok (JUnsigned id) : res JsonParser.json).
  cbn match. cbn [mbind res_bind]. change (JsonSerializer.dump number_buffer (JString method)) with (dump_string method).
  rewrite dump_string_ok by done. cbn [mbind res_bind]. destruct (dump_params params P) as [ps Ep]. cbn [dump nlohmann] in Ep.
  rewrite Ep. cbn [mbind res_bind]. change (JsonSerializer.dump number_buffer (JUnsigned id)) with (dump_integer number_buffer id).
  unfold is_u64 in I. rewrite dump_integer_correct by (done || lia). cbn [mbind res_bind]. unfold print_int. by z_tests.
Qed.

(** ** Replies *)

(** Characters that stand for themselves in a JSON string. *)
Definition plain (s : std_string) : Prop := Forall (fun c => 32 <= c <= 127 /\ c <> 34 /\ c <> 92) s.

Lemma plain_test s : forallb (fun c => (32 <=? c) && (c <=? 127) && negb (c =? 34) && negb (c =? 92)) s = true -> plain s.
Proof. induction s as [|c s IH]; cbn; intros H; [constructor|]. to_prop. constructor; [lia|by apply IH]. Qed.

Lemma escape_plain s : plain s -> escape_bytes s = s /\ is_utf8 s.
Proof.
  induction 1 as [|c s (R & Q & B) F [IH U]]; [done|]. split.
  - rewrite escape_bytes_cons, IH. unfold escape_byte. by z_tests.
  - unfold is_utf8 in *. cbn [utf8_ok]. z_tests. done.
Qed.

Lemma reads_quoted s : plain s -> reads (quoted s) (JString s).
Proof.
  intros P. destruct (escape_plain s P) as [E U]. unfold quoted. rewrite <- E at 1.
  apply (reads_atom number_buffer); [done..|]. by apply dump_string_ok.
Qed.

Lemma plain_member k text v : plain k -> reads text v -> member_reads (quoted k ++ [58] ++ text) (k, v).
Proof.
  intros P R. destruct (escape_plain k P) as [E U]. exists text. cbn [fst snd]. rewrite E. split_and!; done.
Qed.

Lemma reads_unsigned id : is_u64 id -> reads (print_dec id) (JUnsigned id).
Proof. intros I. apply (reads_scalar _ (TUnsigned id)); [|done]. intros. by apply scan_unsigned. Qed.

Lemma safeId_number id : is_u64 id -> safeId (print_dec id) = print_dec id.
Proof.
  intros I. unfold safeId. destruct (bool_decide_reflect (print_dec id = [])) as [E|_]; [|done].
  pose proof (print_dec_bound id I) as B. rewrite E in B. unfold zlen in B. cbn in B. lia.
Qed.

(** A client parses a reply with a result. *)
Lemma result_parses id text v :
  is_u64 id -> reads text v ->
  @parse nlohmann (jsonResult (print_dec id) text)
  = Ok (JObject [(str "id", JUnsigned id); (str "jsonrpc", JString (str "2.0")); (str "result", v)]).
Proof.
  intros I R. unfold jsonResult. rewrite safeId_number by done.
  pose (texts := [quoted (str "jsonrpc") ++ [58] ++ quoted (str "2.0"); quoted (str "result") ++ [58] ++ text;
                  quoted (str "id") ++ [58] ++ print_dec id]).
  pose (kvs := [(str "jsonrpc", JString (str "2.0")); (str "result", v); (str "id", JUnsigned id)]).
  assert (F : Forall2 member_reads texts kvs).
  { constructor; [apply plain_member; [by apply plain_test|by apply reads_quoted, plain_test]|].
    constructor; [apply plain_member; [by apply plain_test|exact R]|].
    constructor; [apply plain_member; [by apply plain_test|by apply reads_unsigned]|constructor]. }
  apply reads_object in F. change (set_all [] kvs) with [(str "id", JUnsigned id); (str "jsonrpc", JString (str "2.0")); (str "result", v)] in F.
  apply (reads_parse 123); [lia|].
  match type of F with reads ?a _ => match goal with |- reads ?b _ => replace b with a; [exact F|] end end.
  unfold texts. cbn [join]. rewrite <- !app_assoc. reflexivity.
Qed.

(** ** Requests over HTTP *)

(** The text of a request: its lines, an empty line, and the body. *)
Definition http_request (lines : list std_string) (body : std_string) : std_string :=
  concat ((fun line => line ++ CRLF) <$> lines) ++ CRLF ++ body.

Definition line_ok (line : std_string) : Prop := line <> [] /\ free_of 13 line.

Lemma find_body lines body i :
  Forall line_ok lines -> lines <> [] ->
  find_at (CRLF ++ CRLF) (http_request lines body) i
  = Some (i + length (concat ((fun line => line ++ CRLF) <$> lines)) - 2)%nat.
Proof.
  intros F. revert i. induction F as [|line lines [Ne Fr] F IH]; intros i N; [done|]. unfold http_request. destruct lines as [|line2 lines].
  - rewrite list_fmap_singleton. cbn [concat]. rewrite app_nil_r, <- app_assoc. rewrite (app_assoc CRLF), (find_at_free _ 13); [|done|apply starts_with_app|done].
    f_equal. rewrite length_app. change (length CRLF) with 2%nat. lia.
  - rewrite fmap_cons. cbn [concat]. rewrite <- !app_assoc. fold (http_request (line2 :: lines) body). rewrite find_skip_line; [|done|].
    + rewrite IH by done. f_equal. rewrite !length_app. change (length CRLF) with 2%nat.
      rewrite fmap_cons. cbn [concat]. rewrite !length_app. change (length CRLF) with 2%nat. lia.
    + inversion F as [|? ? [Ne2 Fr2] _]; subst. destruct line2 as [|c line2]; [done|]. by inversion Fr2.
Qed.

Lemma http_body_request lines body :
  Forall line_ok lines -> lines <> [] -> http_body (http_request lines body) = Some body.
Proof.
  intros F N. unfold http_body, find. rewrite drop_0, find_body by done. f_equal. cbn [Nat.add].
  destruct lines as [|line lines]; [done|]. set (h := concat _).
  assert (2 <= length h)%nat by (unfold h; rewrite fmap_cons; cbn [concat]; rewrite !length_app; change (length CRLF) with 2%nat; lia).
  unfold http_request. fold h. replace (length h - 2 + 4)%nat with (length (h ++ CRLF)) by (rewrite length_app; change (length CRLF) with 2%nat; lia).
  rewrite app_assoc. apply drop_seam.
Qed.

(** ** Addresses in requests *)

Lemma toHex_shape a checksum :
  addr_ok a -> exists s, Address.toHex checksum a = str "0x" ++ s /\ to_lower <$> s = Hash.toHex (bytes_ a).
Proof.
  intros [_ B]. destruct checksum; cbn; [by apply toChecksumHex_lower|]. exists (Hash.toHex (bytes_ a)). split; [done|].
  apply list_eq_same_length with (n := length (Hash.toHex (bytes_ a))); [done|by rewrite length_fmap|]. intros i x y _ E1 E2.
  rewrite list_lookup_fmap, E2 in E1. injection E1 as <-. pose proof (Forall_lookup_1 _ _ _ _ (toHex_chars _ B) E2) as R.
  cbn in R. unfold to_lower. destruct (_ && _) eqn:T; to_prop; lia.
Qed.

Lemma toHex_plain a checksum : addr_ok a -> plain (Address.toHex checksum a) /\ zlen (Address.toHex checksum a) = 42.
Proof.
  intros A. destruct (toHex_shape a checksum A) as (s & -> & E). destruct A as [L B]. split.
  - apply Forall_app_2; [by apply plain_test|]. pose proof (toHex_chars _ B) as F. rewrite <- E in F. apply Forall_fmap in F.
    eapply Forall_impl; [exact F|]. cbn. intros c R. unfold to_lower in R. destruct (_ && _) eqn:T; to_prop; lia.
  - rewrite zlen_app. change (zlen (str "0x")) with 2. apply (f_equal length) in E. rewrite length_fmap, toHex_length, L in E by done.
    unfold zlen. rewrite E. done.
Qed.

Lemma hex_quantity_plain v : plain (hex_quantity v).
Proof.
  apply Forall_app_2; [by apply plain_test|]. apply print_loop_chars; [lia| |constructor]. intros d D. unfold digit_char. destruct (_ <? _) eqn:T; to_prop; lia.
Qed.

(** ** The method and its parameter *)

Lemma method_of id method params :
  zlen method < 2 ^ 63 -> (m ← @at_key nlohmann (request id method params) (str "method"); @as_string nlohmann m) = Ok method.
Proof. intros L. change (JsonParser.as_string (JString method) = Ok method). unfold JsonParser.as_string. by z_tests. Qed.

Lemma param0_of id method p params : zlen p < 2 ^ 63 -> param0 (JL := nlohmann) (request id method (p :: params)) = Ok p.
Proof. intros L. change (JsonParser.as_string (JString p) = Ok p). unfold JsonParser.as_string. by z_tests. Qed.

(** A balance from end to end. A client prints an [eth_getBalance] request
    for any account and spelling of its address with the JSON library and
    sends it over HTTP with any header lines; the server answers without
    touching the chain, and its reply parses to an object with the client's
    id and a result that reads as the balance the state holds. *)
Theorem rpc_balance_end_to_end (bc : Blockchain) (id : Z) (a : Address) (checksum : bool) (lines : list std_string) :
  state_ok (state_ bc) -> addr_ok a -> is_u64 id -> Forall line_ok lines -> lines <> [] ->
  exists text reply result,
    @dump nlohmann (request id (str "eth_getBalance") [Address.toHex checksum a; str "latest"]) = Ok text /\
    handleRequest (http_request lines text) bc = (bc, Ok (httpResponse reply ok_status)) /\
    @parse nlohmann reply
    = Ok (JObject [(str "id", JUnsigned id); (str "jsonrpc", JString (str "2.0")); (str "result", JString result)]) /\
    stoull 16 result = Ok (acc_balance (view (state_ bc) a)).
Proof.
  intros S A I F N. destruct (toHex_plain a checksum A) as [P L].
  destruct (read_request_printed id (str "eth_getBalance") [Address.toHex checksum a; str "latest"]) as (text & D & R); [done..| |].
  { constructor; [by apply escape_plain|]. by repeat constructor. }
  set (q := hex_quantity (acc_balance (view (state_ bc) a))).
  exists text, (jsonResult (print_dec id) (quoted q)), q. split; [done|]. split_and!.
  - unfold handleRequest. rewrite http_body_request by done. unfold handleJsonRpc. rewrite R. unfold dispatch.
    unfold act_bind at 1, act_self at 1. unfold act_bind at 1, act_lift at 1.
    rewrite method_of by done.
    rewrite bool_decide_false by (vm_compute; done). rewrite bool_decide_true by done.
    unfold act_bind, act_lift. rewrite param0_of by lia. unfold handle_getBalance. rewrite fromHex_any by done.
    cbn [mbind res_bind catch_all]. unfold q, view. by destruct (State.get (state_ bc) a).
  - apply result_parses; [done|]. apply reads_quoted, hex_quantity_plain.
  - apply stoull_hex. apply (view_ok (state_ bc) a S).
Qed.

(** ** Submitting a transaction *)

Lemma prefixed_plain d : bytes_ok d -> plain (str "0x" ++ Hash.toHex d).
Proof.
  intros B. apply Forall_app_2; [by apply plain_test|]. eapply Forall_impl; [exact (toHex_chars d B)|]. cbn. lia.
Qed.

Lemma send_accepted id txHex bc rtx :
  Transaction.fromHex txHex = Ok rtx -> validateTransaction bc rtx "" = Ok (true, ""%string) -> tx_hash rtx <> [] ->
  handle_sendRawTransaction id txHex bc = (addTransaction bc rtx, Ok (jsonResult id (quoted (tx_hash rtx)))).
Proof.
  intros E V H. unfold handle_sendRawTransaction, act_bind, act_lift, act_modify, act_ret. rewrite E, V. cbn [fst snd negb].
  by rewrite bool_decide_false.
Qed.


End EndToEnd.

Section Injection.
Context {FL : FloatLib}.

Lemma sax_parse_agree_error f1 f2 m stack s w :
  sax_parse_internal f1 m stack s = Throw w -> sax_parse_internal f2 m stack s <> OutOfFuel -> sax_parse_internal f2 m stack s = Throw w.
Proof.
  intros E N. rewrite <- (sax_parse_fuel f2 m stack s _ eq_refl N f1), Nat.add_comm. by apply sax_parse_fuel.
Qed.

(** A quote inside of the first member of the result. *)
Lemma broken_result rest : @parse nlohmann (js "{'jsonrpc':'2.0','result':{'number':'0x0'','hash':'" ++ rest) = Throw "parse_error.101".
Proof.
  set (text := js _ ++ rest). cbn [parse nlohmann]. unfold JsonParser.parse. pose proof (scan_first_ascii 123 (drop 1 text) ltac:(lia)) as E.
  change (123 :: drop 1 text) with text in E. rewrite E. change (scan text) with (@TBeginObject FL, drop 1 text). cbn match.
  rewrite (sax_parse_agree_error 20 _ _ _ _ "parse_error.101"); [done|reflexivity|].
  destruct (parse_returns_at (2 * length text + 3) (Before TBeginObject) [] (drop 1 text)) as [[? ->]|[? ->]]; [|done..].
  unfold parse_measure. rewrite length_drop. cbn [mode_weight]. lia.
Qed.

(** Parameters are repeated unescaped. [eth_getBlockByNumber] accepts the
    parameter 0 followed by a quotation mark as the number 0 (the conversion
    stops at the quote) and puts it into its reply as it is: on every chain
    the reply is then not JSON, so no client can parse it. *)
Theorem rpc_reply_not_json (bc : Blockchain) (id : std_string) :
  chain_ bc <> [] ->
  exists reply, handle_getBlockByNumber bc id (str "0" ++ [34]) = Ok reply /\ @parse nlohmann reply = Throw "parse_error.101".
Proof.
  intros N. unfold handle_getBlockByNumber. change (stoull 16 (str "0" ++ [34])) with (Ok 0). cbn [mbind res_bind].
  destruct (chain_ bc) as [|b chain]; [done|]. replace (0 >=? zlen (b :: chain)) with false
    by (symmetry; rewrite Z.geb_leb; apply Z.leb_gt; rewrite zlen_cons; pose proof (zlen_nonneg chain); lia).
  eexists. split; [reflexivity|]. unfold jsonResult. rewrite <- !app_assoc.
  exact (broken_result _).
Qed.

End Injection.

Lemma rpc_reply_not_json_witness :
  exists reply, handle_getBlockByNumber SampleChain.start (str "1") (str "0" ++ [34]) = Ok reply /\
    @parse (nlohmann (FL := TestFloat.floats)) reply = Throw "parse_error.101".
Proof. by apply (rpc_reply_not_json (FL := TestFloat.floats)). Defined.

Lemma rpc_balance_end_to_end_witness :
  exists text reply result,
    @dump (nlohmann (FL := TestFloat.floats))
      (request (FL := TestFloat.floats) 7 (str "eth_getBalance") [Address.toHex true (mkAddress (replicate 20 1)); str "latest"]) = Ok text /\
    @handleRequest TestCurve.curve (nlohmann (FL := TestFloat.floats)) (http_request [str "POST / HTTP/1.1"; str "Host: node"] text)
      (mkBlockchain [] sample_state [] 1)
    = (mkBlockchain [] sample_state [] 1, Ok (httpResponse reply ok_status)) /\
    @parse (nlohmann (FL := TestFloat.floats)) reply
    = Ok (JObject [(str "id", JUnsigned 7); (str "jsonrpc", JString (str "2.0")); (str "result", JString result)]) /\
    stoull 16 result = Ok 100.
Proof.
  apply (@rpc_balance_end_to_end TestFloat.floats TestCurve.curve (mkBlockchain [] sample_state [] 1));
    [apply sample_state_ok|by apply (bool_decide_unpack _)|by split| |done].
  repeat constructor; done || by apply (bool_decide_unpack _).
Defined.

