(* ===== verification/RpcJson.v ===== *)
(** * String-searching JSON helpers (src/src/rpc_server.cpp 450-595)

    The helpers that extract a method, an id or a parameter from the text of
    a request by searching for quotes. The server's dispatch has moved to a
    JSON library (RpcServer.v); these helpers are still part of its class.
    Positions are [nat]s; [None] stands for [npos]. *)

From stdpp Require Import base list numbers strings.
From Stdlib Require Import ZArith Lia.
From S2P Require Import Prelude Cstring.

#[local] Open Scope nat_scope.

(** A key between double quotes. *)
Definition dquoted (s : std_string) : std_string := [34%Z] ++ s ++ [34%Z].

(** [" \t\n\r"]. *)
Definition blanks : std_string := [32; 9; 10; 13]%Z.

(** rpc_server.cpp 485-487 and 507-508. *)
Definition unquote (value : std_string) : std_string :=
  if negb (bool_decide (value = [])) && bool_decide (head value = Some 34%Z) && bool_decide (last value = Some 34%Z)
  then substr value 1 (length value - 2) else value.

(** rpc_server.cpp 477-484 and 499-506: the text from behind the colon at or
    after [pos] to the next comma or brace; [None] when there is none. *)
Definition bare_value (json : std_string) (pos : nat) : option std_string :=
  pos ← find json [58%Z] pos;
  start ← find_first_not_of json blanks (pos + 1);
  let stop := default (length json) (find_first_of json [44; 125]%Z start) in
  Some (substr json start (stop - start)).

(** rpc_server.cpp 453-489. *)
Definition jsonExtractStringParam (json key : std_string) : std_string :=
  match find json (dquoted key) 0 with
  | Some pos =>
      default [] (pos ← find json [58%Z] pos;
                  pos ← find json [34%Z] pos;
                  stop ← find json [34%Z] (pos + 1);
                  Some (substr json (pos + 1) (stop - pos - 1)))
  | None =>
      default [] (pos ← find json (key ++ [58%Z]) 0;
                  value ← bare_value json pos;
                  Some (unquote value))
  end.

(** rpc_server.cpp 491-526. *)
Definition jsonExtractId (json : std_string) : std_string :=
  match find json (dquoted (str "id")) 0 with
  | Some pos => default (str "null") (value ← bare_value json pos; Some (unquote value))
  | None => default (str "null") (pos ← find json (str "id:") 0; bare_value json pos)
  end.

(** rpc_server.cpp 528-531. *)
Definition jsonExtractMethod (json : std_string) : std_string := jsonExtractStringParam json (str "method").

(** The loop of rpc_server.cpp 542-557; every turn moves [pos] forward. *)
Fixpoint param_loop (fuel : nat) (json : std_string) (pos currentIndex index : nat) : res std_string :=
  match fuel with
  | O => OutOfFuel
  | S f =>
      match find json [34%Z] (pos + 1) with
      | None => Ok []
      | Some pos =>
          match find json [34%Z] (pos + 1) with
          | None => Ok []
          | Some stop =>
              if currentIndex =? index then Ok (substr json (pos + 1) (stop - pos - 1))
              else param_loop f json (stop + 1) (currentIndex + 1) index
          end
      end
  end.

(** rpc_server.cpp 533-558. *)
Definition jsonExtractParamByIndex (json : std_string) (index : nat) : res std_string :=
  match find json (dquoted (str "params")) 0 with
  | None => Ok []
  | Some pos =>
      match find json [91%Z] pos with
      | None => Ok []
      | Some pos => param_loop (S (length json)) json pos 0 index
      end
  end.

(** rpc_server.cpp 575-595. *)
Definition hasParam (json : std_string) (index : nat) : bool :=
  default false
    (pos ← find json (dquoted (str "params")) 0;
     arrStart ← find json [91%Z] pos;
     arrEnd ← find json [93%Z] arrStart;
     let count := length (filter (fun c => c = 44%Z) (substr json (arrStart + 1) (arrEnd - (arrStart + 1)))) in
     Some (index <=? count)).

(** ** Lemmas: searching *)

Lemma find_at_bound pat s : forall i p, find_at pat s i = Some p -> i <= p <= i + length s.
Proof.
  induction s as [|c s IH]; intros i p H; cbn [find_at] in H; destruct (starts_with pat _).
  - injection H as <-. cbn. lia.
  - done.
  - injection H as <-. cbn. lia.
  - apply IH in H. cbn. lia.
Qed.

Lemma find_at_nonempty pat s i p : pat <> [] -> find_at pat s i = Some p -> i <= p < i + length s.
Proof.
  intros N. revert i. induction s as [|c s IH]; intros i H; cbn [find_at] in H; destruct (starts_with pat _) eqn:S.
  - apply bool_decide_eq_true in S. rewrite take_nil in S. by destruct N.
  - done.
  - injection H as <-. cbn. lia.
  - apply IH in H. cbn. lia.
Qed.

Lemma find_bound s pat pos p : pat <> [] -> find s pat pos = Some p -> pos <= p < length s.
Proof.
  intros N H. unfold find in H. apply find_at_nonempty in H; [|done]. rewrite length_drop in H. lia.
Qed.

(** The fuel is enough on every text. *)
Lemma param_loop_returns json index : forall fuel pos k,
  pos <= length json < pos + fuel -> param_loop fuel json pos k index <> OutOfFuel.
Proof.
  induction fuel as [|f IH]; intros pos k H; [lia|]. cbn [param_loop].
  destruct (find json [34%Z] (pos + 1)) as [p|] eqn:E; [|done].
  destruct (find json [34%Z] (p + 1)) as [q|] eqn:E'; [|done].
  destruct (k =? index); [done|]. apply find_bound in E, E'; [|done..]. apply IH. lia.
Qed.

Lemma find_here pre pat s : find (pre ++ s) pat (length pre) = find_at pat s (length pre).
Proof. unfold find. by rewrite drop_app_length. Qed.

Lemma find_later pre c pat s : find (pre ++ c :: s) pat (length pre + 1) = find_at pat s (length pre + 1).
Proof.
  unfold find. replace (pre ++ c :: s) with ((pre ++ [c]) ++ s) by (by rewrite <- app_assoc).
  by rewrite drop_app_length' by (rewrite length_app; done).
Qed.

Lemma substr_mid (pre s t : std_string) c n :
  n = length s -> substr (pre ++ c :: s ++ t) (length pre + 1) n = s.
Proof.
  intros ->. unfold substr. replace (pre ++ c :: s ++ t) with ((pre ++ [c]) ++ s ++ t) by (by rewrite <- app_assoc).
  rewrite drop_app_length' by (rewrite length_app; done). by rewrite take_app_length.
Qed.

(** A character is found behind text that does not contain it. *)
Lemma find_char c s rest i : free_of c s -> find_at [c] (s ++ c :: rest) i = Some (i + length s).
Proof. intros F. apply (find_at_free [c] c); [done|apply (starts_with_app [c])|done]. Qed.

(** No match starts on other characters than the pattern's first. *)
Lemma find_skip c pat s rest i : free_of c s -> find_at (c :: pat) (s ++ rest) i = find_at (c :: pat) rest (i + length s).
Proof.
  intros F. revert i. induction F as [|x s Hx F IH]; intros i; [by rewrite Nat.add_0_r|].
  cbn [app find_at length]. replace (starts_with (c :: pat) (x :: s ++ rest)) with false
    by (symmetry; apply bool_decide_eq_false; by intros [= ->]).
  rewrite IH. f_equal. lia.
Qed.

(** ** Lemmas: texts made of quoted strings

    A quoted key is not found at another quoted string, nor between its
    closing quote and what follows. *)
Lemma starts_with_key k s rest :
  free_of 34 k -> free_of 34 s -> starts_with (dquoted k) (34%Z :: s ++ 34%Z :: rest) = bool_decide (s = k).
Proof.
  intros Fk Fs. unfold starts_with, dquoted. cbn [app length]. cbn [take].
  apply bool_decide_ext. split.
  - intros [= H]. rewrite length_app in H. cbn [length] in H.
    assert (E : exists r, s ++ 34%Z :: rest = k ++ 34%Z :: r).
    { exists (drop (length k + 1) (s ++ 34%Z :: rest)). rewrite <- (take_drop (length k + 1) (s ++ _)) at 1. rewrite H.
      by rewrite <- app_assoc. }
    destruct E as [r E]. by apply split_sep in E as [-> _].
  - intros ->. f_equal. rewrite length_app. cbn [length].
    replace (k ++ 34%Z :: rest) with ((k ++ [34%Z]) ++ rest) by (by rewrite <- app_assoc).
    apply take_app_length'. by rewrite length_app.
Qed.

Lemma skip_string k0 k u s c rest i :
  free_of 34 (k0 :: k) -> free_of 34 u -> free_of 34 s -> s <> k0 :: k -> c <> 34%Z -> c <> k0 ->
  find_at (dquoted (k0 :: k)) (u ++ 34%Z :: s ++ 34%Z :: c :: rest) i
  = find_at (dquoted (k0 :: k)) (c :: rest) (i + length u + length s + 2).
Proof.
  intros Fk Fu Fs N Hc Hk. unfold dquoted. cbn [app].
  rewrite find_skip by done. rewrite find_at_cons; [|].
  - rewrite find_skip by done. rewrite find_at_cons; [f_equal; lia|].
    apply bool_decide_eq_false. by intros [= ->].
  - pose proof (starts_with_key (k0 :: k) s (c :: rest) Fk Fs) as E. unfold dquoted in E. cbn [app] in E.
    rewrite E. by apply bool_decide_false.
Qed.

(** ** A request as clients write it *)

Definition params_text (ps : list std_string) : std_string :=
  match ps with
  | [] => []
  | p :: ps => dquoted p ++ concat ((fun p => 44%Z :: dquoted p) <$> ps)
  end.

Definition request_text (method : std_string) (ps : list std_string) (id : std_string) : std_string :=
  str "{" ++ dquoted (str "jsonrpc") ++ str ":" ++ dquoted (str "2.0") ++ str "," ++
  dquoted (str "method") ++ str ":" ++ dquoted method ++ str "," ++
  dquoted (str "params") ++ str ":[" ++ params_text ps ++ str "]," ++ dquoted (str "id") ++ str ":" ++ id ++ str "}".

Lemma request_method method ps id :
  free_of 34 method -> jsonExtractMethod (request_text method ps id) = method.
Proof.
  intros F. unfold jsonExtractMethod, jsonExtractStringParam.
  set (tail := str "," ++ dquoted (str "params") ++ str ":[" ++ params_text ps ++ str "]," ++ dquoted (str "id") ++ str ":" ++ id ++ str "}").
  set (pre := str "{" ++ dquoted (str "jsonrpc") ++ str ":" ++ dquoted (str "2.0") ++ str "," ++ dquoted (str "method") ++ str ":").
  assert (E : request_text method ps id = pre ++ 34%Z :: method ++ 34%Z :: tail).
  { unfold request_text, pre, tail, dquoted. rewrite <- !app_assoc. reflexivity. }
  rewrite E. replace (find (pre ++ 34%Z :: method ++ 34%Z :: tail) (dquoted (str "method")) 0) with (Some 17) by reflexivity.
  replace (find (pre ++ 34%Z :: method ++ 34%Z :: tail) [58%Z] 17) with (Some 25) by reflexivity. cbn [mbind option_bind].
  replace (find (pre ++ 34%Z :: method ++ 34%Z :: tail) [34%Z] 25) with (Some (length pre)) by reflexivity. cbn [mbind option_bind].
  rewrite find_later, find_char by done. cbn [mbind option_bind default]. apply substr_mid. lia.
Qed.

(** Text in front of a quoted string, and the string. *)
Definition seg_text (seg : std_string * std_string) : std_string := seg.1 ++ 34%Z :: seg.2 ++ [34%Z].

Definition segs_text (segs : list (std_string * std_string)) : std_string := concat (seg_text <$> segs).

(** The text starts with a character that neither is a quote nor starts the key. *)
Definition lead (k0 : Z) (u : std_string) : Prop := exists c u', u = c :: u' /\ c <> 34%Z /\ c <> k0 /\ free_of 34 u.

Definition other_seg (key : std_string) (seg : std_string * std_string) : Prop :=
  lead (default 0%Z (head key)) seg.1 /\ free_of 34 seg.2 /\ seg.2 <> key.

(** A key is found behind other strings. *)
Lemma find_key k0 k segs u rest : forall i,
  free_of 34 (k0 :: k) -> Forall (other_seg (k0 :: k)) segs -> lead k0 u ->
  find_at (dquoted (k0 :: k)) (segs_text segs ++ u ++ 34%Z :: (k0 :: k) ++ 34%Z :: rest) i
  = Some (i + length (segs_text segs ++ u)).
Proof.
  induction segs as [|[u1 s1] segs IH]; intros i Fk F L.
  - destruct L as (c & u' & Eu & _ & _ & Fu). cbn [segs_text fmap list_fmap concat app].
    replace (u ++ 34%Z :: k0 :: k ++ 34%Z :: rest) with (u ++ dquoted (k0 :: k) ++ rest)
      by (unfold dquoted; cbn [app]; by rewrite <- app_assoc).
    apply (find_at_free _ 34%Z); [done|apply starts_with_app|done].
  - apply Forall_cons in F as [((c1 & u1' & E1 & _ & _ & Fu1) & Fs1 & N1) F]. cbn [fst snd] in *.
    assert (H : exists c r, segs_text segs ++ u ++ 34%Z :: (k0 :: k) ++ 34%Z :: rest = c :: r /\ c <> 34%Z /\ c <> k0).
    { destruct F as [|[u2 s2] segs' ((c2 & u2' & E2 & H1 & H2 & _) & _) _].
      - destruct L as (c & u' & -> & H1 & H2 & _). by eexists c, _.
      - cbn in E2, H2. subst u2. by eexists c2, _. }
    destruct H as (c & r & E & H1 & H2).
    assert (T : segs_text ((u1, s1) :: segs) ++ u ++ 34%Z :: (k0 :: k) ++ 34%Z :: rest
                = u1 ++ 34%Z :: s1 ++ 34%Z :: c :: r).
    { rewrite <- E. unfold segs_text, seg_text. cbn [fmap list_fmap concat fst snd]. rewrite <- !app_assoc. cbn [app].
      rewrite <- !app_assoc. done. }
    rewrite T, skip_string by done. rewrite <- E, IH by done. f_equal. unfold segs_text, seg_text.
    cbn [fmap list_fmap concat fst snd]. rewrite !length_app. cbn [length]. rewrite length_app. cbn [length]. lia.
Qed.

(** The loop over the quoted strings returns the one asked for. *)
Lemma param_loop_nth segs rest : forall fuel pre k j s,
  Forall (fun seg => free_of 34 (tail seg.1) /\ seg.1 <> [] /\ free_of 34 seg.2) segs ->
  (snd <$> segs) !! j = Some s -> j < fuel ->
  param_loop fuel (pre ++ segs_text segs ++ rest) (length pre) k (k + j) = Ok s.
Proof.
  induction segs as [|[u1 s1] segs IH]; intros fuel pre k j s F E L; [done|].
  apply Forall_cons in F as [(Fu & Nu & Fs) F]. cbn [fst snd] in *. destruct u1 as [|c u1]; [done|]. cbn [tail] in Fu.
  destruct fuel as [|f]; [lia|]. cbn [param_loop].
  set (more := segs_text segs ++ rest).
  assert (T : pre ++ segs_text ((c :: u1, s1) :: segs) ++ rest = pre ++ c :: u1 ++ 34%Z :: s1 ++ 34%Z :: more).
  { unfold segs_text, seg_text. cbn [fmap list_fmap concat fst snd]. rewrite <- !app_assoc. cbn [app]. rewrite <- !app_assoc. done. }
  rewrite T, find_later, find_char by done.
  assert (T2 : pre ++ c :: u1 ++ 34%Z :: s1 ++ 34%Z :: more = (pre ++ c :: u1) ++ 34%Z :: s1 ++ 34%Z :: more)
    by (by rewrite <- app_assoc).
  assert (P : length pre + 1 + length u1 = length (pre ++ c :: u1)) by (rewrite length_app; cbn; lia).
  rewrite P, T2, find_later, find_char by done.
  destruct (k =? k + j) eqn:Ek.
  - apply Nat.eqb_eq in Ek. assert (j = 0) as -> by lia. injection E as <-.
    rewrite substr_mid by lia. done.
  - apply Nat.eqb_neq in Ek. destruct j as [|j]; [lia|]. cbn [fmap list_fmap lookup list_lookup] in E.
    assert (T3 : (pre ++ c :: u1) ++ 34%Z :: s1 ++ 34%Z :: more = ((pre ++ c :: u1) ++ 34%Z :: s1 ++ [34%Z]) ++ more).
    { rewrite <- (app_assoc (pre ++ c :: u1)). f_equal. cbn [app]. f_equal. by rewrite <- app_assoc. }
    rewrite T3. replace (length (pre ++ c :: u1) + 1 + length s1 + 1) with (length ((pre ++ c :: u1) ++ 34%Z :: s1 ++ [34%Z]))
      by (repeat (rewrite !length_app; cbn [length]); lia).
    replace (k + S j) with (k + 1 + j) by lia. apply IH; [done|done|lia].
Qed.

(** The two searches by character class. *)
Lemma find_if_skip p s c rest i :
  Forall (fun x => p x = false) s -> p c = true -> find_if_at p (s ++ c :: rest) i = Some (i + length s).
Proof.
  intros F H. revert i. induction F as [|x s Hx F IH]; intros i; cbn [app find_if_at length].
  - rewrite H. f_equal. lia.
  - rewrite Hx, IH. f_equal. lia.
Qed.

(** An id as clients write it: a number, or null. *)
Definition plain_id (id : std_string) : Prop :=
  id <> [] /\ Forall (fun c => c <> 34%Z /\ (c ∉ blanks) /\ c <> 44%Z /\ c <> 125%Z) id.

#[export] Instance plain_id_dec id : Decision (plain_id id).
Proof. unfold plain_id. apply _. Defined.

Lemma bare_id pre id :
  plain_id id -> bare_value (pre ++ dquoted (str "id") ++ 58%Z :: id ++ str "}") (length pre) = Some id.
Proof.
  intros [N F]. unfold bare_value. rewrite find_here, find_char by (by apply (bool_decide_eq_true_1 (free_of _ _))).
  cbn [mbind option_bind].
  assert (T : pre ++ dquoted (str "id") ++ 58%Z :: id ++ str "}" = ((pre ++ dquoted (str "id")) ++ [58%Z]) ++ id ++ str "}")
    by (by rewrite <- !app_assoc).
  rewrite T. replace (length pre + length (dquoted (str "id")) + 1) with (length ((pre ++ dquoted (str "id")) ++ [58%Z]))
    by (rewrite !length_app; done).
  set (pre2 := (pre ++ dquoted (str "id")) ++ [58%Z]). unfold find_first_not_of, find_first_of. rewrite drop_app_length.
  destruct id as [|c id]; [done|]. pose proof (Forall_inv F) as (_ & B & _).
  cbn [app find_if_at]. rewrite (bool_decide_false (c ∈ blanks)) by done. cbn [negb mbind option_bind].
  change (c :: id ++ str "}") with ((c :: id) ++ 125%Z :: []). rewrite drop_app_length.
  rewrite find_if_skip; [|eapply Forall_impl; [exact F|]; intros x (_ & _ & N1 & N2); apply bool_decide_false;
                          rewrite !elem_of_cons; intros [?|[?|H%elem_of_nil]]; done|done].
  cbn [default]. unfold substr, Datatypes.id. rewrite drop_app_length. f_equal. apply take_app_length'. lia.
Qed.

(** ** Properties *)

(** The request as strings and the text in front of them. *)
Definition head_segs (method : std_string) : list (std_string * std_string) :=
  [(str "{", str "jsonrpc"); (str ":", str "2.0"); (str ",", str "method"); (str ":", method)].

Definition param_segs (ps : list std_string) : list (std_string * std_string) :=
  match ps with
  | [] => []
  | p :: ps => (str ":[", p) :: (pair (str ",") <$> ps)
  end.

Definition before_id (ps : list std_string) : std_string :=
  match ps with [] => str ":[]," | _ => str "]," end.

Lemma params_split ps :
  str ":[" ++ params_text ps ++ str "]," = segs_text (param_segs ps) ++ before_id ps.
Proof.
  destruct ps as [|p ps]; [done|]. unfold params_text, param_segs, before_id, segs_text.
  rewrite fmap_cons. cbn [concat]. rewrite <- list_fmap_compose. unfold seg_text at 1. cbn [fst snd].
  unfold dquoted at 1. change (fun p => 44%Z :: dquoted p) with (seg_text ∘ pair (str ",")).
  rewrite <- !app_assoc. cbn [app]. rewrite <- !app_assoc. reflexivity.
Qed.

Lemma request_split method ps id :
  request_text method ps id
  = segs_text (head_segs method) ++ str "," ++ 34%Z :: str "params" ++ 34%Z ::
      segs_text (param_segs ps) ++ before_id ps ++ 34%Z :: str "id" ++ 34%Z :: str ":" ++ id ++ str "}".
Proof.
  rewrite (app_assoc (segs_text (param_segs ps))), <- params_split.
  unfold request_text, segs_text, seg_text, head_segs, dquoted. cbn [fmap list_fmap concat fst snd].
  repeat (rewrite <- !app_assoc; cbn [app]). reflexivity.
Qed.

Lemma lead_ok k0 u : (match u with c :: _ => c <> 34%Z /\ c <> k0 | [] => False end) -> free_of 34 u -> lead k0 u.
Proof. destruct u as [|c u]; [done|]. intros [? ?] F. by exists c, u. Qed.

(** The text in front of a string can be checked by evaluation. *)
Definition lead_test (key u : std_string) : bool :=
  match u with
  | c :: _ => bool_decide (c <> 34%Z) && bool_decide (c <> default 0%Z (head key)) && bool_decide (free_of 34 u)
  | [] => false
  end.

Lemma seg_other key u s : lead_test key u = true -> free_of 34 s -> s <> key -> other_seg key (u, s).
Proof.
  intros T F N. destruct u as [|c u]; [done|]. unfold lead_test in T.
  apply andb_true_iff in T as [[T1%bool_decide_eq_true T2%bool_decide_eq_true]%andb_true_iff T3%bool_decide_eq_true].
  split; [|by split]. by apply lead_ok.
Qed.

Lemma const_free (s : string) : bool_decide (free_of 34 (str s)) = true -> free_of 34 (str s).
Proof. apply bool_decide_eq_true_1. Qed.

Lemma head_segs_other (key : string) method :
  key = "params"%string \/ key = "id"%string -> free_of 34 method -> method <> str key ->
  Forall (other_seg (str key)) (head_segs method).
Proof.
  intros K F M. unfold head_segs.
  repeat apply Forall_cons_2; try apply Forall_nil_2; (apply seg_other; [by destruct K as [-> | ->]|
    first [done|by apply const_free]|first [done|by destruct K as [-> | ->]]]).
Qed.

Lemma param_segs_other ps :
  Forall (fun p => free_of 34 p /\ p <> str "id") ps -> Forall (other_seg (str "id")) (param_segs ps).
Proof.
  intros F. destruct F as [|p ps [Fp Np] F]; [constructor|]. constructor; [by apply seg_other|].
  apply Forall_fmap. eapply Forall_impl; [exact F|]. intros q [Fq Nq]. by apply seg_other.
Qed.

Lemma before_id_lead ps : lead 105 (before_id ps).
Proof. destruct ps; apply lead_ok; try (by split); by apply (bool_decide_eq_true_1 (free_of _ _)). Qed.

Lemma request_id method ps id :
  free_of 34 method -> method <> str "id" -> Forall (fun p => free_of 34 p /\ p <> str "id") ps -> plain_id id ->
  jsonExtractId (request_text method ps id) = id.
Proof.
  intros Fm Nm Fp Pi. unfold jsonExtractId. rewrite request_split.
  set (segs := head_segs method ++ [(str ",", str "params")] ++ param_segs ps).
  assert (T : segs_text (head_segs method) ++ str "," ++ 34%Z :: str "params" ++ 34%Z ::
      segs_text (param_segs ps) ++ before_id ps ++ 34%Z :: str "id" ++ 34%Z :: str ":" ++ id ++ str "}"
    = segs_text segs ++ before_id ps ++ 34%Z :: str "id" ++ 34%Z :: str ":" ++ id ++ str "}").
  { unfold segs, segs_text. rewrite !fmap_app, !concat_app. cbn [fmap list_fmap concat seg_text fst snd].
    repeat (rewrite <- !app_assoc; cbn [app]). reflexivity. }
  assert (O : Forall (other_seg (str "id")) segs).
  { unfold segs. apply Forall_app. split; [apply (head_segs_other "id"); [by right|done|done]|].
    apply Forall_cons_2; [apply (seg_other (str "id")); [done|by apply const_free|done]|by apply param_segs_other]. }
  pose proof (find_key 105 [100%Z] segs (before_id ps) (str ":" ++ id ++ str "}") 0
                ltac:(by apply (bool_decide_eq_true_1 (free_of _ _))) O (before_id_lead ps)) as K.
  rewrite T.
  assert (K' : find (segs_text segs ++ before_id ps ++ 34%Z :: str "id" ++ 34%Z :: str ":" ++ id ++ str "}")
                 (dquoted (str "id")) 0 = Some (length (segs_text segs ++ before_id ps))) by exact K.
  rewrite K', app_assoc.
  change (34%Z :: str "id" ++ 34%Z :: str ":" ++ id ++ str "}") with (dquoted (str "id") ++ 58%Z :: id ++ str "}").
  rewrite bare_id by done. cbn [mbind option_bind default]. unfold unquote, Datatypes.id.
  destruct Pi as [N F]. destruct id as [|c id]; [done|]. pose proof (Forall_inv F) as (Nc & _).
  cbn [head]. rewrite (bool_decide_false (Some c = Some 34%Z)) by congruence. by rewrite andb_false_r.
Qed.

(** The quoted strings behind the opening bracket: the parameters, then the
    key of the id. *)
Definition loop_segs (ps : list std_string) : list (std_string * std_string) :=
  match ps with
  | [] => [(str "[],", str "id")]
  | p :: ps => (str "[", p) :: (pair (str ",") <$> ps) ++ [(str "],", str "id")]
  end.

Lemma loop_segs_text ps rest :
  segs_text (param_segs ps) ++ before_id ps ++ 34%Z :: str "id" ++ 34%Z :: rest = 58%Z :: segs_text (loop_segs ps) ++ rest.
Proof.
  destruct ps as [|p ps]; [done|]. unfold param_segs, loop_segs, before_id, segs_text. rewrite !fmap_cons, fmap_app. cbn [concat].
  rewrite concat_app. cbn [fmap list_fmap concat seg_text fst snd]. repeat (rewrite <- !app_assoc; cbn [app]). reflexivity.
Qed.

Lemma loop_segs_strings ps : snd <$> loop_segs ps = ps ++ [str "id"].
Proof.
  destruct ps as [|p ps]; [done|]. cbn [loop_segs]. rewrite fmap_cons, fmap_app, <- list_fmap_compose.
  cbn [fmap list_fmap snd app]. do 2 f_equal. induction ps as [|q ps IH]; [done|]. cbn. by f_equal.
Qed.

Lemma loop_segs_ok ps :
  Forall (free_of 34) ps -> Forall (fun seg => free_of 34 (tail seg.1) /\ seg.1 <> [] /\ free_of 34 seg.2) (loop_segs ps).
Proof.
  intros F. assert (I : free_of 34 (str "id")) by (by apply const_free).
  destruct F as [|p ps Fp F]; [apply Forall_singleton; split_and!; [by apply (bool_decide_eq_true_1 (free_of _ _))|done|done]|].
  apply Forall_cons_2; [by split_and!; [constructor| |]|]. apply Forall_app. split.
  - apply Forall_fmap. eapply Forall_impl; [exact F|]. intros q Fq. by split_and!; [constructor| |].
  - apply Forall_singleton. split_and!; [by apply (bool_decide_eq_true_1 (free_of _ _))|done|done].
Qed.

Lemma request_param method ps id i p :
  free_of 34 method -> method <> str "params" -> Forall (free_of 34) ps -> (ps ++ [str "id"]) !! i = Some p ->
  jsonExtractParamByIndex (request_text method ps id) i = Ok p.
Proof.
  intros Fm Nm Fp E. unfold jsonExtractParamByIndex. rewrite request_split, loop_segs_text.
  set (pre := segs_text (head_segs method) ++ str ",").
  set (rest := str ":" ++ id ++ str "}"). set (body := segs_text (loop_segs ps) ++ rest).
  pose proof (find_key 112 (str "arams") (head_segs method) (str ",") (58%Z :: body) 0
    ltac:(by apply (bool_decide_eq_true_1 (free_of _ _))) (head_segs_other "params" method (or_introl eq_refl) Fm Nm)
    ltac:(by apply lead_ok; [|apply (bool_decide_eq_true_1 (free_of _ _))])) as K.
  assert (K' : find (segs_text (head_segs method) ++ str "," ++ 34%Z :: str "params" ++ 34%Z :: 58%Z :: body)
                 (dquoted (str "params")) 0 = Some (length pre)) by exact K.
  rewrite K', app_assoc. fold pre. rewrite find_here.
  set (pre2 := pre ++ dquoted (str "params") ++ [58%Z]).
  assert (T : pre ++ 34%Z :: str "params" ++ 34%Z :: 58%Z :: body = pre2 ++ body) by (unfold pre2; by rewrite <- !app_assoc).
  assert (B : exists body', body = 91%Z :: body') by (unfold body; destruct ps; by eexists). destruct B as [body' B].
  rewrite T. change (34%Z :: str "params" ++ 34%Z :: 58%Z :: body) with ((dquoted (str "params") ++ [58%Z]) ++ body).
  rewrite B, find_char by (by apply (bool_decide_eq_true_1 (free_of _ _))). rewrite <- B.
  replace (length pre + length (dquoted (str "params") ++ [58%Z])) with (length pre2) by (unfold pre2; by rewrite length_app).
  unfold body. apply (param_loop_nth (loop_segs ps) rest _ pre2 0 i p); [by apply loop_segs_ok|by rewrite loop_segs_strings|].
  apply lookup_lt_Some in E. rewrite !length_app in *. cbn [length] in *.
  assert (length ps < length (segs_text (loop_segs ps))); [|lia].
  clear. unfold segs_text. destruct ps as [|q ps]; [cbn; lia|]. cbn [loop_segs]. rewrite fmap_cons. cbn [concat].
  rewrite length_app, fmap_app, concat_app, length_app.
  assert (length ps <= length (concat (seg_text <$> (pair (str ",") <$> ps)))).
  2: { change (length (seg_text (str "[", q))) with (S (S (length (q ++ [34%Z])))). cbn [length]. lia. }
  induction ps as [|r ps IH]; [done|]. rewrite !fmap_cons. cbn [concat]. rewrite length_app.
  change (length (seg_text (str ",", r))) with (S (S (length (r ++ [34%Z])))). cbn [length]. lia.
Qed.

(** The search over the parameters ends on every text. *)
Lemma param_search_ends json i : jsonExtractParamByIndex json i <> OutOfFuel.
Proof.
  unfold jsonExtractParamByIndex. destruct (find json _ 0) as [p|]; [|done].
  destruct (find json [91%Z] p) as [q|] eqn:E; [|done]. apply find_bound in E; [|done]. apply param_loop_returns. lia.
Qed.

(** Extraction by searching for quotes. On a request as clients write it,
    the helpers return its method, its id and each of its parameters, as long
    as no string contains a quote and none repeats one of the searched keys.
    The search over the parameters ends on every text, but it does not stop
    at the closing bracket: one index past the parameters it returns the key
    of the id. *)
Theorem request_fields method ps id :
  free_of 34 method -> method <> str "params" -> method <> str "id" ->
  Forall (fun p => free_of 34 p /\ p <> str "id") ps -> plain_id id ->
  let json := request_text method ps id in
  jsonExtractMethod json = method /\ jsonExtractId json = id /\
  (forall i p, ps !! i = Some p -> jsonExtractParamByIndex json i = Ok p) /\
  jsonExtractParamByIndex json (length ps) = Ok (str "id") /\
  (forall text i, jsonExtractParamByIndex text i <> OutOfFuel).
Proof.
  intros Fm Np Ni Fp Pi json.
  assert (Fp' : Forall (free_of 34) ps) by (eapply Forall_impl; [exact Fp|]; by intros ? [? _]).
  split; [by apply request_method|]. split; [by apply request_id|]. split; [|split].
  - intros i p E. apply request_param; [done..|]. by apply lookup_app_l_Some.
  - apply request_param; [done..|]. by rewrite lookup_app_r, Nat.sub_diag by done.
  - apply param_search_ends.
Qed.

Lemma request_fields_witness :
  jsonExtractMethod (request_text (str "eth_getBalance") [str "0xabc"; str "latest"] (str "1")) = str "eth_getBalance" /\
  jsonExtractParamByIndex (request_text (str "eth_getBalance") [str "0xabc"; str "latest"] (str "1")) 2 = Ok (str "id").
Proof.
  destruct (request_fields (str "eth_getBalance") [str "0xabc"; str "latest"] (str "1")) as (M & _ & _ & P & _);
    [by apply const_free|done|done| |by apply (bool_decide_eq_true_1 (plain_id _))|exact (conj M P)].
  apply Forall_cons_2; [split; [by apply const_free|done]|]. apply Forall_singleton. split; [by apply const_free|done].
Defined.
