(* ===== verification/WalletCodec.v ===== *)
(** * Text formats of the wallet (src/src/wallet.cpp)

    The pure helpers of the wallet: Base64, the word list with the bits of a
    mnemonic, and derivation paths. SHA-256 is an argument of the functions
    that use it (the wallet passes OpenSSL's).

    The Base64 loops accumulate in an [int] that is shifted left without
    masking. The model wraps it around to 32 bits in two's complement
    ([i32]), as every supported compiler does and as C++20 prescribes; in
    C++17, which the build asks for, the shift of a value that does not fit
    is undefined. Right shifts of an [int] are arithmetic. *)

From stdpp Require Import base list numbers strings.
From Stdlib Require Import ZArith Lia.
From S2P Require Import Prelude Cstring.

#[local] Open Scope Z_scope.

(** Conversion to [int]. *)
Definition i32 (x : Z) : Z := (x + 2 ^ 31) mod 2 ^ 32 - 2 ^ 31.

(** ** Base64 *)

(** wallet.cpp 159-160. *)
Definition base64_chars : std_string :=
  str "ABCDEFGHIJKLMNOPQRSTUVWXYZabcdefghijklmnopqrstuvwxyz0123456789+/".

(** [base64_chars\[i\]] for an index below 64. *)
Definition base64_char (i : Z) : Z := nth (Z.to_nat i) base64_chars 0.

(** wallet.cpp 166-169: [while (valb >= 6)]; every turn takes six bits off. *)
Fixpoint emit_sextets (fuel : nat) (val valb : Z) (ret : std_string) : Z * std_string :=
  match fuel with
  | O => (valb, ret)
  | S f =>
      if valb >=? 6 then
        let valb := valb - 6 in
        emit_sextets f val valb (ret ++ [base64_char (Z.land (Z.shiftr val valb) 0x3F)])
      else (valb, ret)
  end.

(** wallet.cpp 163-170, one byte. *)
Definition encode_byte (s : Z * Z * std_string) (c : Z) : Z * Z * std_string :=
  let '(val, valb, ret) := s in
  let val := i32 (i32 (Z.shiftl val 8) + c) in
  let valb := valb + 8 in
  let '(valb, ret) := emit_sextets (Z.to_nat valb) val valb ret in
  (val, valb, ret).

(** wallet.cpp 172: [while (ret.size() % 4) ret.push_back('=')]; at most
    three turns reach a multiple of four. *)
Fixpoint pad_equals (fuel : nat) (ret : std_string) : std_string :=
  match fuel with
  | O => ret
  | S f => if negb (zlen ret mod 4 =? 0) then pad_equals f (ret ++ [61]) else ret
  end.

(** wallet.cpp 158-174. *)
Definition base64Encode (data : Bytes) : std_string :=
  let '(val, valb, ret) := foldl encode_byte (0, 0, []) data in
  let ret := if valb >? 0 then ret ++ [base64_char (Z.land (i32 (Z.shiftl val (6 - valb))) 0x3F)] else ret in
  pad_equals 3 ret.

(** wallet.cpp 180-181: the table of the decoder. *)
Definition base64_table : list Z :=
  foldl (fun T i => <[Z.to_nat (base64_char (Z.of_nat i)) := Z.of_nat i]> T) (replicate 256 (-1)) (seq 0 64).

(** wallet.cpp 183-191: the loop, left at the first character outside the
    table. *)
Fixpoint decode_chars (val valb : Z) (s : std_string) (ret : Bytes) : Bytes :=
  match s with
  | [] => ret
  | c :: s' =>
      let t := nth (Z.to_nat c) base64_table (-1) in
      if t =? -1 then ret
      else
        let val := i32 (i32 (Z.shiftl val 6) + t) in
        let valb := valb + 6 in
        if valb >=? 8 then
          let valb := valb - 8 in
          decode_chars val valb s' (ret ++ [Z.land (Z.shiftr val valb) 0xFF])
        else decode_chars val valb s' ret
  end.

(** wallet.cpp 176-193. *)
Definition base64Decode (s : std_string) : Bytes := decode_chars 0 0 s [].

(** ** Mnemonics *)

(** wallet.cpp 20-52. *)
Definition BIP39_WORDLIST : list std_string := str <$> [
  "abandon"; "ability"; "able"; "about"; "above"; "absent"; "absorb"; "abstract"; "abuse"; "access";
  "accident"; "account"; "accuse"; "achieve"; "acid"; "acoustic"; "acquire"; "across"; "act";
  "action"; "actor"; "acts"; "actual"; "acuity"; "acute"; "adapt"; "add"; "addict"; "added";
  "adder"; "adding"; "addition"; "additive"; "address"; "adds"; "adept"; "adieu"; "admin"; "admit";
  "adobe"; "adopt"; "adorable"; "adore"; "adorn"; "adult"; "advance"; "advent"; "adverb"; "adverse";
  "advert"; "advice"; "advise"; "advised"; "adviser"; "advocate"; "aerobic"; "aero"; "affair";
  "afford"; "affrays"; "afield"; "afire"; "aflame"; "afloat"; "afoot"; "afraid"; "afresh"; "afro";
  "aft"; "after"; "again"; "against"; "agape"; "agate"; "agave"; "age"; "aged"; "agent"; "ages";
  "agile"; "aging"; "agism"; "agist"; "agitate"; "ago"; "agonies"; "agony"; "agora"; "agree";
  "agreed"; "agreement"; "agrees"; "agri"; "agric"; "agricola"; "agricole"; "agriculture";
  "aground"; "ague"; "ahead"; "ahem"; "ahoy"; "aid"; "aide"; "aider"; "aides"; "aids"; "ail";
  "aileron"; "ailing"; "ailment"; "aims"; "ain"; "air"; "airbase"; "airbed"; "airboat"; "airborne";
  "airbrake"; "airbrush"; "aircraft"; "aircrew"; "airdock"; "airdrop"; "aired"; "airer"; "airfare";
  "airfield"; "airflow"; "airfoil"; "airforce"; "airframe"; "airfreight"; "airgap"; "airglow";
  "airgun"; "airhead"; "airier"; "airiest"; "airily"; "airiness"; "airing"; "airings"; "airless";
  "airlift"; "airline"; "airliner"; "airlines"; "airlock"; "airmail"; "airman"; "airmen"; "airn";
  "airplane"; "airplay"; "airport"; "airs"; "airscrew"; "airship"; "airsick"; "airspace";
  "airspeed"; "airstrike"; "airstrip"; "airtime"; "airtight"; "airway"; "airways"; "airwoman";
  "airwomen"; "airy"; "aisle"; "aisle"; "aisle"; "aitch"; "aitch"; "ait"; "aitch"; "aits"; "aiver";
  "aizle"; "aizle"; "aizure"; "ajapa"; "ajar"; "ajiva"; "ajo"; "ajowan"; "ajuga"; "aka"; "akahl";
  "akahest"; "akame"; "akamea"; "akana"; "akasa"; "akasaka"; "akathisia"; "akatsuka"; "akba";
  "akebi"; "akebia"; "akebias"; "akebi"; "akebos"; "akee"; "akees"; "akeela"; "akeelah"; "akees";
  "akela"; "akele"; "akelarre"; "akelas"; "akeles"; "akeley"; "akeleyine"; "akelia"; "akeman";
  "akene"; "akenes"; "akenia"; "akeno"; "akenos"; "akent"; "akents"; "akenz"; "akenza"; "akeo";
  "akeos"; "aker"; "akera"; "akerate"; "akered"; "akeres"; "akerfield"; "akeries"; "akering";
  "akerley"; "akers"; "akersh"; "akership"; "akess"; "akessay"; "akessays"; "akessine"; "akete";
  "aketes"; "aketon"; "aketons"; "aketonia"; "aketonias"; "aketre"; "aketres"; "akeuchle"; "akeum";
  "akeums"; "akeva"; "akevas"; "akeve"; "akevoe"; "akevoes"; "akevy"; "akewife"; "akewives";
  "akeworth"; "akez"; "akezia"; "akezias"; "akezie"; "akezies"; "akfal"; "akfals"; "akfasha";
  "akgal"; "akgals"; "akh"; "akhara"; "akharas"; "akhc"; "akheem"; "akheeme"; "akheemed"; "akhees";
  "akheme"; "akhemer"; "akhemers"; "akhemo"; "akhemos"; "akhena"; "akhenaten"; "akhenes";
  "akhenesian"; "akhenis"; "akhenishs"; "akhenism"; "akhenisms"; "akhenist"; "akhenists";
  "akhenite"; "akhenites"; "akhenizah"; "akhenizahs"; "akhenization"; "akhenizations"; "akhenize";
  "akhenized"; "akhenizer"; "akhenizers"; "akhenizes"
]%string.

(** [(x >> j) & 1] for [j] from [n - 1] down to 0. *)
Definition bits_down (n : nat) (x : Z) : list bool := Z.testbit x <$> (Z.of_nat <$> rev (seq 0 n)).

(** The bits pushed by wallet.cpp 208-217: those of the entropy, then the
    four high ones of the checksum byte. *)
Definition mnemonic_bits (entropy : Bytes) (checksum : Z) : list bool :=
  concat (bits_down 8 <$> entropy) ++ take 4 (bits_down 8 checksum).

(** wallet.cpp 223-226: the number read from the bits [i * 11 + j]. *)
Definition word_index (bits : list bool) (i : nat) : Z :=
  for_range 11 (fun index j => Z.lor (Z.shiftl index 1) (if nth (i * 11 + j) bits false then 1 else 0)) 0.

(** wallet.cpp 219-230: indices beyond the list are skipped. *)
Definition mnemonic_words (bits : list bool) : list std_string :=
  for_range 12 (fun words i =>
    let index := word_index bits i in
    if index <? zlen BIP39_WORDLIST then words ++ [nth (Z.to_nat index) BIP39_WORDLIST []] else words) [].

(** wallet.cpp 232-237. *)
Definition join_words (words : list std_string) : std_string :=
  match words with
  | [] => []
  | w :: ws => w ++ concat ((fun w => 32 :: w) <$> ws)
  end.

(** wallet.cpp 201-238, from the entropy that the random source gave. *)
Definition generateMnemonic (sha256 : Bytes -> Bytes) (entropy : Bytes) : std_string :=
  join_words (mnemonic_words (mnemonic_bits entropy (nth 0 (sha256 entropy) 0))).

(** [while (ss >> word)], wallet.cpp 247-252: the maximal runs of
    characters that are no white space. [word] is the run being read. *)
Fixpoint read_words (s word : std_string) : list std_string :=
  match s with
  | [] => if bool_decide (word = []) then [] else [word]
  | c :: s' =>
      if isspace c then
        if bool_decide (word = []) then read_words s' [] else word :: read_words s' []
      else read_words s' (word ++ [c])
  end.

(** [std::distance(begin, std::find(begin, end, w))]. *)
Fixpoint find_word (wordlist : list std_string) (w : std_string) : nat :=
  match wordlist with
  | [] => O
  | v :: l => if bool_decide (v = w) then O else S (find_word l w)
  end.

(** wallet.cpp 266-273. *)
Definition words_bits (words : list std_string) : list bool :=
  concat ((fun w => bits_down 11 (Z.of_nat (find_word BIP39_WORDLIST w))) <$> words).

(** wallet.cpp 275-282: [n] bytes from the front of the bits. *)
Definition bits_bytes (bits : list bool) (n : nat) : Bytes :=
  (fun i => for_range 8 (fun byte j => u8 (Z.lor (Z.shiftl byte 1) (if nth (i * 8 + j) bits false then 1 else 0))) 0)
    <$> seq 0 n.

(** wallet.cpp 246-296. For 12 and for 24 words every index into [bits] is
    inside the vector. *)
Definition validateMnemonic (sha256 : Bytes -> Bytes) (mnemonic : std_string) : bool :=
  let words := read_words mnemonic [] in
  if negb (zlen words =? 12) && negb (zlen words =? 24) then false
  else if existsb (fun w => (find_word BIP39_WORDLIST w =? length BIP39_WORDLIST)%nat) words then false
  else
    let entropyBytes := (length words * 11 / 8 - 1)%nat in
    let bits := words_bits words in
    let entropy := bits_bytes bits entropyBytes in
    let calculatedChecksum := nth 0 (sha256 entropy) 0 in
    let checksumBits := (length words / 3)%nat in
    let bitsChecksum := for_range checksumBits (fun c i =>
      u8 (Z.lor (Z.shiftl c 1) (if nth (entropyBytes * 8 + i) bits false then 1 else 0))) 0 in
    let bitsChecksum := u8 (Z.shiftl bitsChecksum (8 - Z.of_nat checksumBits)) in
    let calculatedChecksum := Z.land calculatedChecksum (Z.shiftl 0xFF (8 - Z.of_nat checksumBits)) in
    bitsChecksum =? calculatedChecksum.

(** ** Derivation paths *)

(** [while (std::getline(ss, component, '/'))]: the pieces between the
    separators; no piece after a final separator. *)
Fixpoint getlines (sep : Z) (s line : std_string) : list std_string :=
  match s with
  | [] => if bool_decide (line = []) then [] else [line]
  | c :: s' => if c =? sep then line :: getlines sep s' [] else getlines sep s' (line ++ [c])
  end.

(** wallet.cpp 346-355: a component that is not empty. *)
Definition path_component (component : std_string) : res Z :=
  let '(hardened, component) :=
    if bool_decide (last component = Some 39) then (true, take (length component - 1) component)
    else (false, component) in
  index ← stoul component;
  let index := u32 index in
  Ok (if hardened then u32 (index + 0x80000000) else index).

(** wallet.cpp 333-361. *)
Definition parseBIP32Path (path : std_string) : res (list Z) :=
  match path with
  | 109 :: rest =>
      res_map path_component (filter (fun c => c <> []) (getlines 47 rest []))
  | _ => Throw "Invalid BIP32 path: must start with 'm'"
  end.

(** ** Lemmas: Base64 *)

Lemma i32_wrap x : exists q, i32 x = x + 2 ^ 32 * q.
Proof.
  unfold i32. exists (- ((x + 2 ^ 31) / 2 ^ 32)).
  pose proof (Z.div_mod (x + 2 ^ 31) (2 ^ 32) ltac:(lia)). lia.
Qed.

Lemma land_63 x : Z.land x 0x3F = x mod 64.
Proof. change 0x3F with (Z.ones 6). rewrite Z.land_ones; [reflexivity|lia]. Qed.

(** The table inverts the alphabet, and the padding is outside of it. *)
Lemma table_char i : 0 <= i < 64 -> nth (Z.to_nat (base64_char i)) base64_table (-1) = i.
Proof.
  intros H. assert (A : Forall (fun i => nth (Z.to_nat (base64_char i)) base64_table (-1) = i) (seqZ 0 64)).
  { apply (bool_decide_eq_true_1 _). vm_compute. reflexivity. }
  eapply Forall_forall in A; [exact A|]. apply elem_of_seqZ. lia.
Qed.

(** The sextets of one, two and three bytes. *)
Definition sextet1 (a : Z) : Z := a / 4.
Definition sextet2 (a b : Z) : Z := a mod 4 * 16 + b / 16.
Definition sextet3 (b c : Z) : Z := b mod 16 * 4 + c / 64.
Definition sextet4 (c : Z) : Z := c mod 64.

(** Make shifts and masks arithmetic, open the wrapped values and decide. *)
Ltac int_arith :=
  rewrite ?land_63, ?land_255, ?Z.shiftl_mul_pow2, ?Z.shiftr_div_pow2 by lia;
  repeat match goal with
  | |- context [i32 ?x] =>
      let q := fresh "q" in let E := fresh "E" in
      destruct (i32_wrap x) as [q E]; rewrite E in *; clear E
  end;
  unfold sextet1, sextet2, sextet3, sextet4, is_u8 in *;
  repeat match goal with |- context [2 ^ ?n] => let v := eval vm_compute in (2 ^ n) in change (2 ^ n) with v end;
  Z.div_mod_to_equations; lia.

(** What the encoder does with a byte at each of its three phases, whatever
    is left in the accumulator above the pending bits. *)
Lemma encode_phase0 val ret a :
  is_u8 a -> exists val', encode_byte (val, 0, ret) a = (val', 2, ret ++ [base64_char (sextet1 a)])
                          /\ val' mod 4 = a mod 4.
Proof.
  intros H. exists (i32 (i32 (Z.shiftl val 8) + a)). split; [|int_arith].
  unfold encode_byte. change (Z.to_nat (0 + 8)) with 8%nat. cbn [emit_sextets].
  change (0 + 8 >=? 6) with true. change (0 + 8 - 6 >=? 6) with false. cbn match.
  change (0 + 8 - 6) with 2. do 4 f_equal. int_arith.
Qed.

Lemma encode_phase2 val ret a b :
  is_u8 b -> val mod 4 = a mod 4 ->
  exists val', encode_byte (val, 2, ret) b = (val', 4, ret ++ [base64_char (sextet2 a b)])
               /\ val' mod 16 = b mod 16.
Proof.
  intros H M. exists (i32 (i32 (Z.shiftl val 8) + b)). split; [|int_arith].
  unfold encode_byte. change (Z.to_nat (2 + 8)) with 10%nat. cbn [emit_sextets].
  change (2 + 8 >=? 6) with true. change (2 + 8 - 6 >=? 6) with false. cbn match.
  change (2 + 8 - 6) with 4. do 4 f_equal. int_arith.
Qed.

Lemma encode_phase4 val ret b c :
  is_u8 c -> val mod 16 = b mod 16 ->
  exists val', encode_byte (val, 4, ret) c
               = (val', 0, ret ++ [base64_char (sextet3 b c); base64_char (sextet4 c)]).
Proof.
  intros H M. exists (i32 (i32 (Z.shiftl val 8) + c)).
  unfold encode_byte. change (Z.to_nat (4 + 8)) with 12%nat. cbn [emit_sextets].
  change (4 + 8 >=? 6) with true. change (4 + 8 - 6 >=? 6) with true. change (4 + 8 - 6 - 6 >=? 6) with false.
  cbn match. change (4 + 8 - 6 - 6) with 0. change (4 + 8 - 6) with 6.
  rewrite <- app_assoc. cbn [app]. do 5 f_equal; [|do 2 f_equal]; int_arith.
Qed.

(** Base64 as RFC 4648 defines it: three bytes are four sextets, and the
    last group is filled up with zero bits and padded. *)
Fixpoint base64_text (data : Bytes) : std_string :=
  match data with
  | a :: b :: c :: data' =>
      base64_char (sextet1 a) :: base64_char (sextet2 a b) :: base64_char (sextet3 b c)
        :: base64_char (sextet4 c) :: base64_text data'
  | [a; b] => [base64_char (sextet1 a); base64_char (sextet2 a b); base64_char (sextet3 b 0); 61]
  | [a] => [base64_char (sextet1 a); base64_char (sextet2 a 0); 61; 61]
  | [] => []
  end.

(** Induction by groups of three. *)
Lemma groups_ind (P : Bytes -> Prop) :
  P [] -> (forall a, P [a]) -> (forall a b, P [a; b]) ->
  (forall a b c l, P l -> P (a :: b :: c :: l)) -> forall l, P l.
Proof.
  intros H0 H1 H2 H3. fix IH 1. intros [|a [|b [|c l]]]; [done|apply H1|apply H2|apply H3, IH].
Qed.

Lemma pad_none ret : zlen ret mod 4 = 0 -> pad_equals 3 ret = ret.
Proof. intros H. cbn [pad_equals]. by rewrite H. Qed.

Lemma pad_one ret : zlen ret mod 4 = 3 -> pad_equals 3 ret = ret ++ [61].
Proof.
  intros H. cbn [pad_equals]. rewrite H. change (negb (3 =? 0)) with true. cbn match.
  assert (E : zlen (ret ++ [61]) mod 4 = 0); [|by rewrite E].
  rewrite zlen_app. change (zlen [61]) with 1. Z.div_mod_to_equations. lia.
Qed.

Lemma pad_two ret : zlen ret mod 4 = 2 -> pad_equals 3 ret = ret ++ [61; 61].
Proof.
  intros H. cbn [pad_equals]. rewrite H. change (negb (2 =? 0)) with true. cbn match.
  assert (E : zlen (ret ++ [61]) mod 4 = 3).
  { rewrite zlen_app. change (zlen [61]) with 1. Z.div_mod_to_equations. lia. }
  rewrite E. change (negb (3 =? 0)) with true. cbn match.
  assert (E' : zlen ((ret ++ [61]) ++ [61]) mod 4 = 0).
  { rewrite zlen_app. change (zlen [61]) with 1. Z.div_mod_to_equations. lia. }
  rewrite E'. change (negb (0 =? 0)) with false. cbn match. by rewrite <- app_assoc.
Qed.

(** The tail of [base64Encode] behind its loop. *)
Definition encode_end (s : Z * Z * std_string) : std_string :=
  let '(val, valb, ret) := s in
  pad_equals 3 (if valb >? 0 then ret ++ [base64_char (Z.land (i32 (Z.shiftl val (6 - valb))) 0x3F)] else ret).

Lemma encode_from data : forall val ret,
  bytes_ok data -> zlen ret mod 4 = 0 ->
  encode_end (foldl encode_byte (val, 0, ret) data) = ret ++ base64_text data.
Proof.
  induction data as [|a|a b|a b c l IH] using groups_ind; intros val ret H L.
  - cbn [foldl encode_end base64_text]. change (0 >? 0) with false. cbn match.
    rewrite pad_none by done. by rewrite app_nil_r.
  - apply bytes_ok_cons in H as [Ha _].
    destruct (encode_phase0 val ret a Ha) as (v1 & E1 & M1). cbn [foldl]. rewrite E1. cbn [encode_end].
    change (2 >? 0) with true. cbn match. rewrite <- app_assoc. rewrite pad_two.
    + rewrite <- app_assoc. cbn [app base64_text]. do 4 f_equal. change (6 - 2) with 4. int_arith.
    + rewrite zlen_app. cbn [app]. change (zlen [_; _]) with 2. Z.div_mod_to_equations. lia.
  - rewrite !bytes_ok_cons in H. destruct H as (Ha & Hb & _).
    destruct (encode_phase0 val ret a Ha) as (v1 & E1 & M1). cbn [foldl]. rewrite E1.
    destruct (encode_phase2 v1 (ret ++ [base64_char (sextet1 a)]) a b Hb M1) as (v2 & E2 & M2). rewrite E2. cbn [encode_end].
    change (4 >? 0) with true. cbn match. rewrite <- !app_assoc. rewrite pad_one.
    + rewrite <- app_assoc. cbn [app base64_text]. do 5 f_equal. change (6 - 4) with 2. int_arith.
    + rewrite zlen_app. cbn [app]. change (zlen [_; _; _]) with 3. Z.div_mod_to_equations. lia.
  - rewrite !bytes_ok_cons in H. destruct H as (Ha & Hb & Hc & Hl).
    destruct (encode_phase0 val ret a Ha) as (v1 & E1 & M1). cbn [foldl]. rewrite E1.
    destruct (encode_phase2 v1 (ret ++ [base64_char (sextet1 a)]) a b Hb M1) as (v2 & E2 & M2). rewrite E2.
    destruct (encode_phase4 v2 ((ret ++ [base64_char (sextet1 a)]) ++ [base64_char (sextet2 a b)]) b c Hc M2) as (v3 & E3).
    rewrite E3, IH by (done || rewrite !zlen_app, !zlen_cons, zlen_nil; Z.div_mod_to_equations; lia).
    rewrite <- !app_assoc. done.
Qed.

Lemma base64Encode_text data : bytes_ok data -> base64Encode data = base64_text data.
Proof.
  intros H. pose proof (encode_from data 0 [] H eq_refl) as E. cbn [app] in E. rewrite <- E.
  unfold base64Encode, encode_end. by destruct (foldl _ _ _) as [[? ?] ?].
Qed.

(** The decoder's steps at its four phases. *)
Lemma decode_next val valb i s ret :
  0 <= i < 64 ->
  decode_chars val valb (base64_char i :: s) ret =
  (let val := i32 (i32 (Z.shiftl val 6) + i) in
   if valb + 6 >=? 8 then decode_chars val (valb + 6 - 8) s (ret ++ [Z.land (Z.shiftr val (valb + 6 - 8)) 0xFF])
   else decode_chars val (valb + 6) s ret).
Proof. intros H. cbn [decode_chars]. rewrite table_char by done. by replace (i =? -1) with false by (symmetry; apply Z.eqb_neq; lia). Qed.

Lemma decode_phase0 val ret i j s :
  0 <= i < 64 -> 0 <= j < 64 -> exists val',
  decode_chars val 0 (base64_char i :: base64_char j :: s) ret
  = decode_chars val' 4 s (ret ++ [i * 4 + j / 16]) /\ val' mod 16 = j mod 16.
Proof.
  intros Hi Hj. exists (i32 (i32 (Z.shiftl (i32 (i32 (Z.shiftl val 6) + i)) 6) + j)). split; [|int_arith].
  rewrite decode_next by done. cbv zeta. change (0 + 6 >=? 8) with false. cbn match. change (0 + 6) with 6.
  rewrite decode_next by done. cbv zeta. change (6 + 6 >=? 8) with true. cbn match. change (6 + 6 - 8) with 4.
  do 3 f_equal. int_arith.
Qed.

Lemma decode_phase4 val ret j k s :
  0 <= k < 64 -> val mod 16 = j mod 16 -> exists val',
  decode_chars val 4 (base64_char k :: s) ret
  = decode_chars val' 2 s (ret ++ [j mod 16 * 16 + k / 4]) /\ val' mod 4 = k mod 4.
Proof.
  intros Hk M. exists (i32 (i32 (Z.shiftl val 6) + k)). split; [|int_arith].
  rewrite decode_next by done. cbv zeta. change (4 + 6 >=? 8) with true. cbn match. change (4 + 6 - 8) with 2.
  do 3 f_equal. int_arith.
Qed.

Lemma decode_phase2 val ret k l s :
  0 <= l < 64 -> val mod 4 = k mod 4 -> exists val',
  decode_chars val 2 (base64_char l :: s) ret = decode_chars val' 0 s (ret ++ [k mod 4 * 64 + l]).
Proof.
  intros Hl M. exists (i32 (i32 (Z.shiftl val 6) + l)).
  rewrite decode_next by done. cbv zeta. change (2 + 6 >=? 8) with true. cbn match. change (2 + 6 - 8) with 0.
  do 3 f_equal. int_arith.
Qed.

Lemma decode_stop val valb s ret : decode_chars val valb (61 :: s) ret = ret.
Proof. reflexivity. Qed.

Ltac sextet_arith := unfold sextet1, sextet2, sextet3, sextet4, is_u8 in *; Z.div_mod_to_equations; lia.

Lemma decode_text data : forall val ret,
  bytes_ok data -> decode_chars val 0 (base64_text data) ret = ret ++ data.
Proof.
  induction data as [|a|a b|a b c l IH] using groups_ind; intros val ret H; cbn [base64_text];
    rewrite ?bytes_ok_cons in H.
  - cbn. by rewrite app_nil_r.
  - destruct H as (Ha & _).
    destruct (decode_phase0 val ret (sextet1 a) (sextet2 a 0) [61; 61]) as (v1 & -> & _); [sextet_arith..|].
    rewrite decode_stop. do 2 f_equal. sextet_arith.
  - destruct H as (Ha & Hb & _).
    destruct (decode_phase0 val ret (sextet1 a) (sextet2 a b) [base64_char (sextet3 b 0); 61]) as (v1 & -> & M1);
      [sextet_arith..|].
    destruct (decode_phase4 v1 (ret ++ [sextet1 a * 4 + sextet2 a b / 16]) (sextet2 a b) (sextet3 b 0) [61])
      as (v2 & -> & _); [sextet_arith|done|].
    rewrite decode_stop, <- app_assoc. cbn [app]. do 3 f_equal; sextet_arith.
  - destruct H as (Ha & Hb & Hc & Hl).
    destruct (decode_phase0 val ret (sextet1 a) (sextet2 a b)
                (base64_char (sextet3 b c) :: base64_char (sextet4 c) :: base64_text l)) as (v1 & -> & M1);
      [sextet_arith..|].
    destruct (decode_phase4 v1 (ret ++ [sextet1 a * 4 + sextet2 a b / 16]) (sextet2 a b) (sextet3 b c)
                (base64_char (sextet4 c) :: base64_text l)) as (v2 & -> & M2); [sextet_arith|done|].
    match goal with |- decode_chars _ _ _ ?r = _ =>
      destruct (decode_phase2 v2 r (sextet3 b c) (sextet4 c) (base64_text l)) as (v3 & ->); [sextet_arith|done|] end.
    rewrite IH by done. rewrite <- !app_assoc. cbn [app]. repeat f_equal; sextet_arith.
Qed.

Lemma base64_decode_encode data : bytes_ok data -> base64Decode (base64Encode data) = data.
Proof. intros H. rewrite base64Encode_text by done. exact (decode_text data 0 [] H). Qed.

(** C35: Base64. For every byte string the encoder, whose accumulator
    overflows and wraps from the fifth byte on, produces the text that
    RFC 4648 defines, and the decoder reads the bytes back from it. *)
Theorem base64_correct data :
  bytes_ok data -> base64Encode data = base64_text data /\ base64Decode (base64Encode data) = data.
Proof. intros H. split; [by apply base64Encode_text|by apply base64_decode_encode]. Qed.

Lemma base64_correct_witness :
  base64Encode (str "any carnal pleas") = str "YW55IGNhcm5hbCBwbGVhcw==" /\
  base64Decode (str "YW55IGNhcm5hbCBwbGVhcw==") = str "any carnal pleas".
Proof.
  destruct (base64_correct (str "any carnal pleas")) as [E D]; [apply bytes_ok_str|].
  rewrite E in D. split; [rewrite E; reflexivity|exact D].
Defined.

(** ** Lemmas: mnemonics *)

(** The number a list of bits denotes, the highest first. *)
Definition bits_val (bits : list bool) : Z := foldl (fun v b => 2 * v + Z.b2z b) 0 bits.

Lemma bits_val_snoc bits b : bits_val (bits ++ [b]) = 2 * bits_val bits + Z.b2z b.
Proof. unfold bits_val. by rewrite foldl_app. Qed.

Lemma bits_val_bound bits : 0 <= bits_val bits < 2 ^ zlen bits.
Proof.
  induction bits as [|b bits IH] using rev_ind; [by split|].
  rewrite bits_val_snoc, zlen_app. change (zlen [b]) with 1. pose proof (zlen_nonneg bits). rewrite Z.pow_add_r by lia.
  change (2 ^ 1) with 2. destruct b; cbn [Z.b2z]; nia.
Qed.

Lemma push_bit v (b : bool) : Z.lor (Z.shiftl v 1) (if b then 1 else 0) = 2 * v + Z.b2z b.
Proof. destruct b; cbn [Z.b2z]; rewrite lor_shiftl_add by lia; lia. Qed.

(** The loops that read [n <= 8] bits from [off] on into a byte. *)
Lemma read_byte bits off n :
  (n <= 8)%nat -> (off + n <= length bits)%nat ->
  for_range n (fun v j => u8 (Z.lor (Z.shiftl v 1) (if nth (off + j) bits false then 1 else 0))) 0
  = bits_val (take n (drop off bits)).
Proof.
  unfold for_range. induction n as [|n IH]; intros L H; [by rewrite take_0|].
  rewrite seq_S, foldl_app, IH by lia. cbn [foldl Nat.add].
  destruct (lookup_lt_is_Some_2 bits (off + n)) as [b Eb]; [lia|].
  rewrite (nth_lookup_Some _ _ _ _ Eb), push_bit.
  rewrite (take_S_r _ _ b) by (by rewrite lookup_drop). rewrite bits_val_snoc.
  apply u8_id. pose proof (bits_val_bound (take n (drop off bits))) as B.
  assert (P : 2 ^ zlen (take n (drop off bits)) <= 2 ^ 7).
  { apply Z.pow_le_mono_r; [lia|]. unfold zlen. rewrite length_take. lia. }
  unfold is_u8. destruct b; cbn [Z.b2z]; lia.
Qed.

(** The [i]-th group of eight bits. *)
Definition octets (n : nat) (bits : list bool) : Bytes :=
  (fun i => bits_val (take 8 (drop (i * 8) bits))) <$> seq 0 n.

Lemma bits_bytes_octets bits n : (n * 8 <= length bits)%nat -> bits_bytes bits n = octets n bits.
Proof.
  intros H. apply list_fmap_ext. intros k i E. apply lookup_seq in E as [-> ?]. apply read_byte; lia.
Qed.

Lemma bits_down_length n x : length (bits_down n x) = n.
Proof. unfold bits_down. by rewrite !length_fmap, length_rev, length_seq. Qed.

Lemma words_bits_length words : length (words_bits words) = (11 * length words)%nat.
Proof.
  induction words as [|w words IH]; [done|]. unfold words_bits in *. cbn [fmap list_fmap concat].
  rewrite length_app, IH, bits_down_length. cbn [length]. lia.
Qed.

Lemma find_word_bound l w : (find_word l w <= length l)%nat.
Proof. induction l as [|v l IH]; cbn; [lia|]. destruct (bool_decide _); lia. Qed.

Lemma find_word_member l w : find_word l w = length l <-> w ∉ l.
Proof.
  induction l as [|v l IH]; cbn; [split; [intros _; apply not_elem_of_nil|done]|].
  pose proof (find_word_bound l w). destruct (bool_decide (v = w)) eqn:E.
  - apply bool_decide_eq_true in E as ->. split; [lia|]. intros N. destruct N. constructor.
  - apply bool_decide_eq_false in E. rewrite not_elem_of_cons. split; [intros; split; [congruence|apply IH; lia]|].
    intros [_ N]. apply IH in N. lia.
Qed.

Lemma all_words_found words :
  existsb (fun w => (find_word BIP39_WORDLIST w =? length BIP39_WORDLIST)%nat) words = false
  <-> Forall (fun w => w ∈ BIP39_WORDLIST) words.
Proof.
  induction words as [|w words IH]; [by split|]. cbn [existsb]. rewrite orb_false_iff, IH, Forall_cons.
  rewrite Nat.eqb_neq, find_word_member. split; (intros [N F]; split; [|done]).
  - by apply dec_stable.
  - by intros [].
Qed.

(** Comparing the checksum under its mask is comparing its high bits. *)
Lemma checksum_test v h c :
  0 <= c <= 8 -> 0 <= v < 2 ^ c -> is_u8 h ->
  (u8 (Z.shiftl v (8 - c)) =? Z.land h (Z.shiftl 0xFF (8 - c))) = true <-> v = h / 2 ^ (8 - c).
Proof.
  intros Hc Hv Hh. set (k := 8 - c). assert (P : 2 ^ c * 2 ^ k = 256).
  { rewrite <- Z.pow_add_r by lia. replace (c + k) with 8 by lia. done. }
  assert (0 < 2 ^ k) by lia.
  assert (E : Z.land h (Z.shiftl 0xFF k) = h / 2 ^ k * 2 ^ k).
  { rewrite <- Z.shiftl_mul_pow2, <- Z.shiftr_div_pow2 by lia. apply Z.bits_inj'. intros i Hi.
    rewrite Z.land_spec, !Z.shiftl_spec by lia. destruct (Z.lt_ge_cases i k).
    - rewrite !(Z.testbit_neg_r _ (i - k)) by lia. apply andb_false_r.
    - rewrite Z.shiftr_spec by lia. replace (i - k + k) with i by lia. change 0xFF with (Z.ones 8).
      destruct (Z.lt_ge_cases i 8).
      + rewrite Z.ones_spec_low by lia. apply andb_true_r.
      + rewrite (testbit_high h 8 i) by (done || lia). done. }
  rewrite E, Z.shiftl_mul_pow2 by lia. rewrite u8_id by (unfold is_u8; nia).
  rewrite Z.eqb_eq. split; [nia|by intros ->].
Qed.

(** The checksum of BIP-39 on [ent] bits of entropy and [c] bits behind
    them: the high bits of the first byte of the hash of the entropy. *)
Definition bip39_checksum (sha256 : Bytes -> Bytes) (ent c : nat) (bits : list bool) : Prop :=
  bits_val (take c (drop ent bits)) = nth 0 (sha256 (octets (ent / 8) bits)) 0 / 2 ^ (8 - Z.of_nat c).

Lemma checksum_bits_bound bits c : 0 <= bits_val (take c bits) < 2 ^ Z.of_nat c.
Proof.
  pose proof (bits_val_bound (take c bits)) as B. split; [lia|].
  eapply Z.lt_le_trans; [apply B|]. apply Z.pow_le_mono_r; [lia|]. unfold zlen. rewrite length_take. lia.
Qed.

(** What the check amounts to for words of the list, at the two lengths. *)
Lemma validate_words sha256 mnemonic words ent c :
  (forall x, is_u8 (nth 0 (sha256 x) 0)) ->
  read_words mnemonic [] = words -> Forall (fun w => w ∈ BIP39_WORDLIST) words ->
  (length words = 12 /\ ent = 120 /\ c = 4)%nat \/ (length words = 24 /\ ent = 256 /\ c = 8)%nat ->
  validateMnemonic sha256 mnemonic = true <-> bip39_checksum sha256 ent c (words_bits words).
Proof.
  intros Hs E F D. unfold validateMnemonic. rewrite E.
  replace (negb (zlen words =? 12) && negb (zlen words =? 24)) with false
    by (unfold zlen; destruct D as [(-> & _)|(-> & _)]; reflexivity).
  rewrite (proj2 (all_words_found words) F).
  pose proof (words_bits_length words) as L.
  destruct D as [(N & -> & ->)|(N & -> & ->)]; rewrite N in *;
    [change (12 * 11 / 8 - 1)%nat with 15%nat; change (12 / 3)%nat with 4%nat; change (15 * 8)%nat with 120%nat
    |change (24 * 11 / 8 - 1)%nat with 32%nat; change (24 / 3)%nat with 8%nat; change (32 * 8)%nat with 256%nat];
    cbv zeta; rewrite bits_bytes_octets, read_byte by lia; unfold bip39_checksum;
    apply checksum_test; (lia || apply checksum_bits_bound || apply Hs).
Qed.

(** A word: not empty and without white space. *)
Definition word_ok (w : std_string) : Prop := w <> [] /\ Forall (fun c => isspace c = false) w.

#[export] Instance word_ok_dec w : Decision (word_ok w).
Proof. unfold word_ok. apply _. Defined.

Lemma read_word w s word : Forall (fun c => isspace c = false) w -> read_words (w ++ s) word = read_words s (word ++ w).
Proof.
  intros F. revert word. induction F as [|c w Hc F IH]; intros word; [by rewrite app_nil_r|].
  cbn [app read_words]. rewrite Hc, IH. by rewrite <- app_assoc.
Qed.

Lemma read_words_tail ws word :
  word <> [] -> Forall word_ok ws -> read_words (concat ((fun w => 32 :: w) <$> ws)) word = word :: ws.
Proof.
  revert word. induction ws as [|w ws IH]; intros word N F; cbn.
  - by rewrite bool_decide_false.
  - apply Forall_cons in F as [[Nw Fw] F]. rewrite bool_decide_false by done. f_equal.
    rewrite read_word by done. by apply IH.
Qed.

Lemma read_join ws : Forall word_ok ws -> read_words (join_words ws) [] = ws.
Proof.
  intros F. destruct ws as [|w ws]; [done|]. apply Forall_cons in F as [[Nw Fw] F]. cbn [join_words].
  rewrite read_word by done. by apply read_words_tail.
Qed.

Lemma wordlist_ok : Forall word_ok BIP39_WORDLIST.
Proof. apply (bool_decide_eq_true_1 _). vm_compute. reflexivity. Qed.

(** The words are those of the groups that fall inside the list. *)
Lemma mnemonic_words_filter bits :
  mnemonic_words bits = (fun i => nth (Z.to_nat (word_index bits i)) BIP39_WORDLIST []) <$>
                        filter (fun i => word_index bits i < zlen BIP39_WORDLIST) (seq 0 12).
Proof.
  unfold mnemonic_words, for_range.
  match goal with |- foldl ?f [] ?l = ?g <$> filter ?P _ =>
    assert (H : forall acc, foldl f acc l = acc ++ (g <$> filter P l)); [|apply (H [])] end.
  induction (seq 0 12) as [|i l IH]; intros acc; [by rewrite app_nil_r|]. cbn [foldl].
  rewrite IH, filter_cons. destruct (decide _) as [D|D]; cbv zeta.
  - rewrite (proj2 (Z.ltb_lt _ _) D). by rewrite <- app_assoc.
  - by replace (word_index bits i <? zlen BIP39_WORDLIST) with false by (symmetry; apply Z.ltb_ge; lia).
Qed.

Lemma mnemonic_words_ok bits : Forall word_ok (mnemonic_words bits).
Proof.
  rewrite mnemonic_words_filter. apply Forall_fmap, Forall_forall. intros i Hi.
  apply list_elem_of_filter in Hi as [Hi _]. unfold compose.
  destruct (lookup_lt_is_Some_2 BIP39_WORDLIST (Z.to_nat (word_index bits i))) as [w E].
  { unfold zlen in Hi. change (length BIP39_WORDLIST) with 310%nat in *. lia. }
  rewrite (nth_lookup_Some _ _ _ _ E). exact (Forall_lookup_1 _ _ _ _ wordlist_ok E).
Qed.

Lemma mnemonic_words_short bits i :
  (i < 12)%nat -> zlen BIP39_WORDLIST <= word_index bits i -> (length (mnemonic_words bits) < 12)%nat.
Proof.
  intros Hi H. rewrite mnemonic_words_filter, length_fmap.
  change 12%nat with (length (seq 0 12)) at 2. apply length_filter_lt with i; [apply elem_of_seq; lia|lia].
Qed.

Lemma generated_words sha256 entropy :
  read_words (generateMnemonic sha256 entropy) [] = mnemonic_words (mnemonic_bits entropy (nth 0 (sha256 entropy) 0)).
Proof. apply read_join, mnemonic_words_ok. Qed.

Lemma generated_short sha256 entropy i :
  (i < 12)%nat ->
  zlen BIP39_WORDLIST <= word_index (mnemonic_bits entropy (nth 0 (sha256 entropy) 0)) i ->
  validateMnemonic sha256 (generateMnemonic sha256 entropy) = false.
Proof.
  intros Hi H. pose proof (mnemonic_words_short _ _ Hi H) as L. unfold validateMnemonic.
  rewrite generated_words. unfold zlen. z_tests. done.
Qed.

(** C36: the mnemonic check. A text is accepted exactly when it consists of
    12 or 24 words of the list that pass a checksum test: for 24 words it is
    the one of BIP-39 (256 bits of entropy, 8 of checksum); for 12 words the
    test looks at the wrong place, 120 bits of entropy followed by 4 of
    checksum, where BIP-39 has 128. *)
Theorem validateMnemonic_exact sha256 mnemonic :
  (forall x, is_u8 (nth 0 (sha256 x) 0)) ->
  let words := read_words mnemonic [] in
  validateMnemonic sha256 mnemonic = true <->
  Forall (fun w => w ∈ BIP39_WORDLIST) words /\
  ((length words = 24%nat /\ bip39_checksum sha256 256 8 (words_bits words)) \/
   (length words = 12%nat /\ bip39_checksum sha256 120 4 (words_bits words))).
Proof.
  intros Hs words. destruct (decide (Forall (fun w => w ∈ BIP39_WORDLIST) words)) as [F|NF].
  - destruct (decide (length words = 12%nat)) as [N|N].
    { rewrite (validate_words _ _ words 120 4) by (done || by left). split; [auto|]. intros [_ [[? _]|[_ ?]]]; [lia|done]. }
    destruct (decide (length words = 24%nat)) as [N'|N'].
    { rewrite (validate_words _ _ words 256 8) by (done || by right). split; [auto|]. intros [_ [[_ ?]|[? _]]]; [done|lia]. }
    split; [|intros [_ [[? _]|[? _]]]; lia]. intros V. exfalso. revert V. unfold validateMnemonic. fold words.
    unfold zlen. z_tests. done.
  - split; [|by intros [F _]]. intros V. destruct NF. apply all_words_found.
    unfold validateMnemonic in V. fold words in V.
    destruct (negb (zlen words =? 12) && negb (zlen words =? 24)); [done|].
    by destruct (existsb _ words).
Qed.

Lemma validateMnemonic_exact_witness :
  validateMnemonic (fun _ => replicate 32 0) (join_words (replicate 12 (str "abandon"))) = true.
Proof.
  apply (validateMnemonic_exact (fun _ => replicate 32 0)); [intros; by split|].
  rewrite (read_join (replicate 12 (str "abandon"))) by (apply Forall_replicate, (bool_decide_eq_true_1 _); reflexivity).
  split.
  - apply Forall_replicate. constructor.
  - right. split; reflexivity.
Defined.

(** ** Lemmas: derivation paths *)

(** A component of a path, as wallets write it. *)
Definition print_component (c : Z * bool) : std_string := print_dec c.1 ++ (if c.2 then [39] else []).

Definition print_path (l : list (Z * bool)) : std_string :=
  109 :: concat ((fun c => 47 :: print_component c) <$> l).

Lemma component_free c : free_of 47 (print_component c).
Proof.
  apply Forall_app. split.
  - eapply Forall_impl; [apply print_dec_ok|]. intros x Hx ->. apply digit_range in Hx. lia.
  - destruct c.2; [|constructor]. by apply Forall_singleton.
Qed.

Lemma print_dec_nonempty n : print_dec n <> [].
Proof. apply print_nonempty. Qed.

Lemma component_nonempty c : print_component c <> [].
Proof. intros E. apply app_nil in E as [E _]. by apply print_dec_nonempty in E. Qed.

Lemma getlines_free c rest line : free_of 47 c -> getlines 47 (c ++ rest) line = getlines 47 rest (line ++ c).
Proof.
  intros F. revert line. induction F as [|x c Hx F IH]; intros line; [by rewrite app_nil_r|].
  cbn [app getlines]. replace (x =? 47) with false by (symmetry; by apply Z.eqb_neq). rewrite IH.
  by rewrite <- app_assoc.
Qed.

Lemma getlines_path l line :
  filter (fun c => c <> []) (getlines 47 (concat ((fun c => 47 :: print_component c) <$> l)) line)
  = (if bool_decide (line = []) then [] else [line]) ++ (print_component <$> l).
Proof.
  revert line. induction l as [|c l IH]; intros line; cbn [fmap list_fmap concat app].
  - cbn. case_bool_decide; [done|]. by rewrite filter_cons_True.
  - cbn [getlines app]. change (47 =? 47) with true. cbn match. rewrite filter_cons, getlines_free, IH by apply component_free.
    cbn [app]. rewrite (bool_decide_false (print_component c = [])) by apply component_nonempty. cbn [app].
    case_bool_decide as E; case_decide; done.
Qed.

Lemma component_value n h :
  0 <= n < 2 ^ 31 -> path_component (print_component (n, h)) = Ok (if h then n + 2 ^ 31 else n).
Proof.
  intros H. unfold path_component, print_component. cbn [fst snd]. destruct h.
  - rewrite last_snoc, bool_decide_true by done. rewrite length_app, Nat.add_sub, take_app_length.
    rewrite stoul_dec by (unfold is_u64; lia). cbn [mbind res_bind].
    rewrite (u32_id n), u32_id by (unfold is_u32; lia). done.
  - rewrite app_nil_r. rewrite bool_decide_false.
    + rewrite stoul_dec by (unfold is_u64; lia). cbn [mbind res_bind].
      by rewrite u32_id by (unfold is_u32; lia).
    + intros E. apply last_Some_elem_of in E. pose proof (print_dec_ok n) as F.
      eapply Forall_forall in F; [|exact E]. apply digit_range in F. lia.
Qed.

(** Derivation paths. A path printed the usual way (a number below 2^31
    per level, an apostrophe for a hardened one) is read back as the list of
    its indices, hardened ones with the top bit set. *)
Theorem path_roundtrip l :
  Forall (fun c : Z * bool => 0 <= c.1 < 2 ^ 31) l ->
  parseBIP32Path (print_path l) = Ok ((fun c : Z * bool => if c.2 then c.1 + 2 ^ 31 else c.1) <$> l).
Proof.
  intros F. unfold parseBIP32Path, print_path. rewrite getlines_path. cbn [app].
  rewrite bool_decide_true by done. cbn [app].
  transitivity (res_map (fun c => path_component (print_component c)) l).
  - clear F. induction l as [|c l IH]; [done|]. cbn [fmap list_fmap res_map]. by rewrite IH.
  - apply res_map_Ok. eapply Forall_impl; [exact F|]. intros [n h] H. by apply component_value.
Qed.

Lemma path_roundtrip_witness :
  print_path [(44, true); (60, true); (0, true); (0, false); (7, false)] = str "m/44'/60'/0'/0/7" /\
  parseBIP32Path (str "m/44'/60'/0'/0/7") = Ok [44 + 2 ^ 31; 60 + 2 ^ 31; 2 ^ 31; 0; 7].
Proof.
  split; [reflexivity|].
  apply (path_roundtrip [(44, true); (60, true); (0, true); (0, false); (7, false)]). repeat constructor; cbn; lia.
Defined.

(** Numbers are cut to 32 bits and may be negative. *)
Example path_index_truncated : parseBIP32Path (str "m/4294967296/-1") = Ok [0; 2 ^ 32 - 1].
Proof. reflexivity. Qed.
