(* ===== verification/Wallet.v ===== *)
(** * The wallet (src/src/wallet.cpp, src/include/gambit/wallet.hpp)

    Key derivation, accounts, encryption and the saved file, in the build
    with OpenSSL (GAMBIT_HAVE_OPENSSL). What the code calls of libcrypto is
    the class [Crypto], with one function per call; [CryptoLaws] states what
    the OpenSSL manual documents of them. Values drawn from the random
    source are arguments ([entropy], [saltBytes], [iv]), and [writable] says
    whether a file can be opened for writing. Texts handed to libcrypto are
    shorter than 2^31 bytes, where the code casts their size to [int]. *)

From stdpp Require Import base list numbers strings.
From Stdlib Require Import ZArith Lia.
From S2P Require Import Prelude Keccak Hash Address Keys Cstring WalletCodec.

#[local] Open Scope Z_scope.

(** ** The library interface *)

Class Crypto : Type := {
  HMAC_sha512 : Bytes -> Bytes -> Bytes;  (* key, data *)
  PBKDF2_sha512 : Bytes -> Bytes -> Z -> Bytes;  (* password, salt, iterations *)
  SHA256 : Bytes -> Bytes;
  cipher_ctx : Type;
  EVP_CIPHER_CTX_new : option cipher_ctx;
  EVP_EncryptInit_ex : cipher_ctx -> Bytes -> Bytes -> option cipher_ctx;  (* aes_256_gcm, key, iv *)
  EVP_EncryptUpdate : cipher_ctx -> Bytes -> Z -> option (cipher_ctx * Bytes);
  EVP_EncryptFinal_ex : cipher_ctx -> option (cipher_ctx * Bytes);
  EVP_GCM_GET_TAG : cipher_ctx -> option Bytes;
  EVP_DecryptInit_ex : cipher_ctx -> Bytes -> Bytes -> option cipher_ctx;
  EVP_GCM_SET_TAG : cipher_ctx -> Bytes -> option cipher_ctx;
  EVP_DecryptUpdate : cipher_ctx -> Bytes -> Z -> option (cipher_ctx * Bytes);
  EVP_DecryptFinal_ex : cipher_ctx -> option (cipher_ctx * Bytes);
}.

(** The digests have their documented sizes, and GCM decrypts with the
    right key, nonce and tag what it has encrypted, byte for byte. *)
Class CryptoLaws (CR : Crypto) : Prop := {
  hmac_shape key data : length (HMAC_sha512 key data) = 64%nat /\ bytes_ok (HMAC_sha512 key data);
  pbkdf2_shape pw salt n : length (PBKDF2_sha512 pw salt n) = 64%nat /\ bytes_ok (PBKDF2_sha512 pw salt n);
  sha256_shape data : length (SHA256 data) = 32%nat /\ bytes_ok (SHA256 data);
  gcm_roundtrip key iv text c0 c1 c2 u1 c3 u2 tag :
    length key = 32%nat -> length iv = 12%nat -> bytes_ok text -> zlen text < 2 ^ 31 ->
    EVP_CIPHER_CTX_new = Some c0 -> EVP_EncryptInit_ex c0 key iv = Some c1 ->
    EVP_EncryptUpdate c1 text (zlen text) = Some (c2, u1) -> EVP_EncryptFinal_ex c2 = Some (c3, u2) ->
    EVP_GCM_GET_TAG c3 = Some tag ->
    length (u1 ++ u2) = length text /\ bytes_ok (u1 ++ u2) /\ length tag = 16%nat /\ bytes_ok tag /\
    exists d1 d2 d3 v1 d4 v2,
      EVP_DecryptInit_ex c0 key iv = Some d1 /\ EVP_GCM_SET_TAG d1 tag = Some d2 /\
      EVP_DecryptUpdate d2 (u1 ++ u2) (zlen text) = Some (d3, v1) /\
      EVP_DecryptFinal_ex d3 = Some (d4, v2) /\ v1 ++ v2 = text;
}.

(** ** The code *)

(** wallet.hpp 26-31. *)
Record Account : Type := mkAccount {
  wa_name : std_string;
  wa_address : Address;
  wa_keypair : KeyPair;
  wa_derivationPath : std_string;
}.

(** wallet.hpp 74-81. *)
Record Wallet : Type := mkWallet {
  walletPath_ : std_string;
  mnemonic_ : std_string;
  salt_ : std_string;
  accounts_ : list Account;
  masterKey_ : Bytes;
  masterChainCode_ : Bytes;
}.

(** wallet.cpp 650-652. *)
Definition new_Wallet (walletPath mnemonic : std_string) : Wallet := mkWallet walletPath mnemonic [] [] [] [].

(** wallet.cpp 56-62. *)
Definition bytesToHex (data : Bytes) : std_string := foldl (fun ss byte => ss ++ put_hex2 byte) [] data.

Definition set_salt (w : Wallet) (salt : std_string) : Wallet :=
  mkWallet (walletPath_ w) (mnemonic_ w) salt (accounts_ w) (masterKey_ w) (masterChainCode_ w).

Section WithCrypto.
Context {SC : Secp256k1} {CR : Crypto}.

(** wallet.cpp 87-93. *)
Definition hmacSHA512 (key data : Bytes) : Bytes := HMAC_sha512 key data.

(** wallet.cpp 111-119. *)
Definition pbkdf2SHA512 (password salt : std_string) (iterations : Z) : Bytes :=
  PBKDF2_sha512 password salt iterations.

(** wallet.cpp 137-144. *)
Definition sha256 (data : Bytes) : Bytes := SHA256 data.

(** wallet.cpp 240-244. *)
Definition mnemonicToSeed (mnemonic passphrase : std_string) : Bytes :=
  pbkdf2SHA512 mnemonic (str "TREZOR" ++ passphrase) 2048.

(** wallet.cpp 300-305. *)
Definition initializeFromSeed (w : Wallet) (seed : Bytes) : Wallet :=
  let I := hmacSHA512 (str "Bitcoin seed") seed in
  mkWallet (walletPath_ w) (mnemonic_ w) (salt_ w) (accounts_ w) (take 32 I) (drop 32 I).

(** wallet.cpp 307-331. *)
Definition deriveChildKey (parentKey chainCode : Bytes) (childIndex : Z) : Bytes * Bytes :=
  let data := if childIndex >=? 0x80000000 then 0x00 :: parentKey else 0x02 :: parentKey in
  let data := data ++ [Z.land (Z.shiftr childIndex 24) 0xFF; Z.land (Z.shiftr childIndex 16) 0xFF;
                       Z.land (Z.shiftr childIndex 8) 0xFF; Z.land childIndex 0xFF] in
  let I := hmacSHA512 chainCode data in
  (take 32 I, drop 32 I).

(** wallet.cpp 363-376. *)
Definition deriveKeyFromPath (w : Wallet) (derivationPath : std_string) : res KeyPair :=
  indices ← parseBIP32Path derivationPath;
  let '(currentKey, _) :=
    foldl (fun '(k, c) index => deriveChildKey k c index) (masterKey_ w, masterChainCode_ w) indices in
  fromPrivateKey currentKey.

(** wallet.cpp 380-388. *)
Definition deriveKeysFromPassword (w : Wallet) (password : std_string) : Bytes * Bytes :=
  let keyMaterial := pbkdf2SHA512 password (salt_ w) 100000 in
  (take 32 keyMaterial, drop 32 keyMaterial).

(** A call of libcrypto that reports failure. *)
Definition evp {A} (r : option A) (what : string) : res A :=
  match r with Some a => Ok a | None => Throw what end.

(** wallet.cpp 390-435. *)
Definition encryptAES256GCM (w : Wallet) (iv : Bytes) (plaintext password : std_string) : res std_string :=
  let '(encKey, _) := deriveKeysFromPassword w password in
  ctx ← evp EVP_CIPHER_CTX_new "Failed to create cipher context";
  ctx ← evp (EVP_EncryptInit_ex ctx encKey iv) "Failed to initialize encryption";
  '(ctx, update) ← evp (EVP_EncryptUpdate ctx plaintext (i32 (zlen plaintext))) "Failed to encrypt data";
  '(ctx, final) ← evp (EVP_EncryptFinal_ex ctx) "Failed to finalize encryption";
  tag ← evp (EVP_GCM_GET_TAG ctx) "Failed to get GCM tag";
  Ok (base64Encode (iv ++ (update ++ final) ++ tag)).

(** wallet.cpp 445-486. The three vectors are built from iterator ranges
    that lie inside the decoded text only when it has 28 bytes. *)
Definition decryptAES256GCM (w : Wallet) (ciphertext_b64 password : std_string) : res std_string :=
  let '(encKey, _) := deriveKeysFromPassword w password in
  let result := base64Decode ciphertext_b64 in
  if zlen result <? 28 then UB
  else
    let iv := take 12 result in
    let tag := drop (length result - 16) result in
    let ciphertext := take (length result - 28) (drop 12 result) in
    ctx ← evp EVP_CIPHER_CTX_new "Failed to create cipher context";
    ctx ← evp (EVP_DecryptInit_ex ctx encKey iv) "Failed to initialize decryption";
    ctx ← evp (EVP_GCM_SET_TAG ctx tag) "Failed to set GCM tag";
    '(ctx, update) ← evp (EVP_DecryptUpdate ctx ciphertext (i32 (zlen ciphertext))) "Failed to decrypt data";
    '(ctx, final) ← evp (EVP_DecryptFinal_ex ctx) "GCM tag verification failed - wrong password?";
    Ok (update ++ final).

(** ** The text of the file *)

(** A name or value between double quotes, not escaped. *)
Definition in_quotes (s : std_string) : std_string := [34] ++ s ++ [34].

(** [key: value] on a line of its own. *)
Definition json_line (indent key : string) (value : std_string) (last : string) : std_string :=
  str indent ++ in_quotes (str key) ++ str ": " ++ value ++ str last ++ [10].

(** wallet.cpp 506-510 and 636-640: one account. *)
Definition account_text (a : Account) : std_string :=
  str "    {" ++ [10] ++
  json_line "      " "name" (in_quotes (wa_name a)) "," ++
  json_line "      " "address" (in_quotes (Address.toHex true (wa_address a))) "," ++
  json_line "      " "path" (in_quotes (wa_derivationPath a)) EmptyString ++
  str "    }".

(** wallet.cpp 503-512 and 633-642: the accounts, with commas between. *)
Definition accounts_text (accounts : list Account) : std_string :=
  (foldl (fun '((first, json) : bool * std_string) a => (false, json ++ (if first then [] else [44; 10]) ++ account_text a))
         (true, []) accounts).2.

(** wallet.cpp 496-518. *)
Definition toJson (w : Wallet) : std_string :=
  str "{" ++ [10] ++ json_line "  " "version" (str "1") "," ++
  json_line "  " "salt" (in_quotes (salt_ w)) "," ++
  json_line "  " "accounts" (str "[") EmptyString ++
  accounts_text (accounts_ w) ++ [10] ++ str "  ]" ++ [10] ++ str "}" ++ [10].

(** wallet.cpp 520-522. *)
Definition fromJson (w : Wallet) (jsonStr : std_string) : Wallet :=
  mkWallet (walletPath_ w) (mnemonic_ w) (salt_ w) [] (masterKey_ w) (masterChainCode_ w).

(** wallet.cpp 619-648: what is written to [walletPath_]. *)
Definition save (writable : std_string -> bool) (w : Wallet) (iv : Bytes) (password : std_string) : res std_string :=
  encryptedMnemonic ← encryptAES256GCM w iv (mnemonic_ w) password;
  if negb (writable (walletPath_ w)) then Throw "Failed to create wallet file"
  else
    Ok (str "{" ++ [10] ++ json_line "  " "version" (str "1") "," ++
        json_line "  " "salt" (in_quotes (salt_ w)) "," ++
        json_line "  " "mnemonic" (in_quotes encryptedMnemonic) "," ++
        json_line "  " "accounts" (str "[") EmptyString ++
        accounts_text (accounts_ w) ++ [10] ++ str "  ]" ++ [10] ++ str "}" ++ [10]).

(** ** Accounts *)

(** wallet.hpp 45: the default derivation path. *)
Definition default_path : std_string := str "m/44'/60'/0'/0/0".

(** wallet.cpp 576-582. *)
Definition addAccount (name derivationPath : std_string) : act Wallet unit := fun w =>
  match (keypair ← deriveKeyFromPath w derivationPath;
         address ← Address.fromPublicKey (pub_ keypair);
         Ok (mkAccount name address keypair derivationPath)) with
  | Ok account =>
      (mkWallet (walletPath_ w) (mnemonic_ w) (salt_ w) (accounts_ w ++ [account])
                (masterKey_ w) (masterChainCode_ w), Ok ())
  | Throw e => (w, Throw e)
  | UB => (w, UB)
  | OutOfFuel => (w, OutOfFuel)
  end.

(** wallet.cpp 584-591. *)
Definition getAccount (w : Wallet) (addr : Address) : option Account :=
  List.find (fun account => Address.eqb (wa_address account) addr) (accounts_ w).

(** wallet.cpp 593-600. *)
Definition getAccountByName (w : Wallet) (name : std_string) : option Account :=
  List.find (fun account => bool_decide (wa_name account = name)) (accounts_ w).

(** wallet.cpp 602-604. *)
Definition listAccounts (w : Wallet) : list Account := accounts_ w.

(** wallet.cpp 606-613. *)
Definition exportPrivateKey (w : Wallet) (addr : Address) (password : std_string) : res std_string :=
  match getAccount w addr with
  | None => Throw "Account not found"
  | Some account => Ok (bytesToHex (priv_ (wa_keypair account)))
  end.

(** wallet.cpp 615-617. *)
Definition exportMnemonic (w : Wallet) (password : std_string) : std_string := mnemonic_ w.

(** wallet.cpp 562-573 and 528-539: the wallet and the file it has saved. *)
Definition open_wallet (writable : std_string -> bool) (saltBytes iv : Bytes)
    (walletPath mnemonic password : std_string) : res (Wallet * std_string) :=
  let wallet := set_salt (new_Wallet walletPath mnemonic) (bytesToHex saltBytes) in
  let wallet := initializeFromSeed wallet (mnemonicToSeed mnemonic []) in
  let '(wallet, added) := addAccount (str "Default") default_path wallet in
  _ ← added;
  file ← save writable wallet iv password;
  Ok (wallet, file).

(** wallet.cpp 526-540. *)
Definition create (writable : std_string -> bool) (entropy saltBytes iv : Bytes)
    (walletPath password : std_string) : res (Wallet * std_string) :=
  let mnemonic := generateMnemonic sha256 entropy in
  open_wallet writable saltBytes iv walletPath mnemonic password.

(** wallet.cpp 542-553: whether or not the file can be read. *)
Definition load (readable : std_string -> bool) (walletPath password : std_string) : res Wallet :=
  if negb (readable walletPath) then Throw "Failed to open wallet file"
  else Throw "Wallet loading not yet implemented".

(** wallet.cpp 555-574. *)
Definition importMnemonic (writable : std_string -> bool) (saltBytes iv : Bytes)
    (mnemonic walletPath password : std_string) : res (Wallet * std_string) :=
  if negb (validateMnemonic sha256 mnemonic) then Throw "Invalid BIP39 mnemonic"
  else open_wallet writable saltBytes iv walletPath mnemonic password.

End WithCrypto.

(** ** A concrete instance

    Functions on which the laws hold and the wallet's operations evaluate. *)

Module TestCrypto.

#[global] Instance crypto : Crypto := {|
  HMAC_sha512 key data := replicate 64 1;
  PBKDF2_sha512 pw salt n := replicate 64 2;
  SHA256 data := replicate 32 0;
  cipher_ctx := unit;
  EVP_CIPHER_CTX_new := Some ();
  EVP_EncryptInit_ex _ key iv := Some ();
  EVP_EncryptUpdate _ text n := Some ((), text);
  EVP_EncryptFinal_ex _ := Some ((), []);
  EVP_GCM_GET_TAG _ := Some (replicate 16 7);
  EVP_DecryptInit_ex _ key iv := Some ();
  EVP_GCM_SET_TAG _ tag := if bool_decide (tag = replicate 16 7) then Some () else None;
  EVP_DecryptUpdate _ text n := Some ((), text);
  EVP_DecryptFinal_ex _ := Some ((), []);
|}.

#[global] Instance crypto_laws : CryptoLaws crypto.
Proof.
  split; cbn.
  - intros. split; [done|]. by apply (bool_decide_eq_true_1 (bytes_ok _)).
  - intros. split; [done|]. by apply (bool_decide_eq_true_1 (bytes_ok _)).
  - intros. split; [done|]. by apply (bool_decide_eq_true_1 (bytes_ok _)).
  - intros key iv text c0 c1 c2 u1 c3 u2 tag _ _ Ht _ _ _ [= <- <-] [= <- <-] [= <-].
    rewrite app_nil_r. split_and!; [done|done|done|by apply (bool_decide_eq_true_1 (bytes_ok _))|].
    exists (), (), (), text, (), []. by rewrite app_nil_r.
Qed.

End TestCrypto.

(** ** Lemmas *)

Section Laws.
Context {SC : Secp256k1} {SL : Secp256k1Laws SC} {CR : Crypto} {CL : CryptoLaws CR}.

Lemma i32_id x : 0 <= x < 2 ^ 31 -> i32 x = x.
Proof. intros H. unfold i32. rewrite Z.mod_small by lia. lia. Qed.

Lemma evp_Ok {A} (r : option A) what a : evp r what = Ok a <-> r = Some a.
Proof. destruct r; cbn; split; congruence. Qed.

(** The three parts of an encrypted text. *)
Lemma sealed_parts (iv body tag : Bytes) :
  length iv = 12%nat -> length tag = 16%nat ->
  let r := iv ++ body ++ tag in
  zlen r = 28 + zlen body /\ take 12 r = iv /\ drop (length r - 16) r = tag /\
  take (length r - 28) (drop 12 r) = body.
Proof.
  intros Hi Ht r.
  assert (L : length r = (28 + length body)%nat) by (unfold r; rewrite !length_app; lia).
  split_and!; [unfold zlen; lia|by apply take_app_length'| |].
  - unfold r. rewrite app_assoc. apply drop_app_length'. rewrite <- app_assoc. fold r. rewrite L, length_app. lia.
  - unfold r at 2. rewrite drop_app_length' by done. apply take_app_length'. lia.
Qed.

(** *** Keys of the wallet *)

(** Keys and chain codes come out of HMAC-SHA512. *)
Definition master_ok (w : Wallet) : Prop := length (masterKey_ w) = 32%nat /\ bytes_ok (masterKey_ w).

Lemma half_ok key data : length (take 32 (hmacSHA512 key data)) = 32%nat /\ bytes_ok (take 32 (hmacSHA512 key data)).
Proof.
  unfold hmacSHA512. destruct (hmac_shape key data) as [L B]. split; [rewrite length_take; lia|by apply bytes_ok_take].
Qed.

Lemma derived_key_ok indices k c :
  length k = 32%nat /\ bytes_ok k ->
  let k' := (foldl (fun '(k, c) index => deriveChildKey k c index) (k, c) indices).1 in
  length k' = 32%nat /\ bytes_ok k'.
Proof.
  revert k c. induction indices as [|i l IH]; intros k c H; [done|]. cbn [foldl]. apply IH, half_ok.
Qed.

Lemma deriveKeyFromPath_inv w path kp :
  master_ok w -> deriveKeyFromPath w path = Ok kp ->
  keypair_ok kp /\ bytes_ok (priv_ kp) /\ fromPrivateKey (priv_ kp) = Ok kp.
Proof.
  intros M H. unfold deriveKeyFromPath in H. apply bind_Ok in H as (indices & _ & H).
  pose proof (derived_key_ok indices _ (masterChainCode_ w) M) as [_ B].
  destruct (foldl _ _ _) as [k c]. cbn in B. destruct (fromPrivateKey_ok _ _ H) as [K E].
  by rewrite E.
Qed.

(** An account holds the key its path derives, and the address of that key. *)
Definition account_ok (w : Wallet) (a : Account) : Prop :=
  deriveKeyFromPath w (wa_derivationPath a) = Ok (wa_keypair a) /\
  address (wa_keypair a) = Ok (wa_address a).

Definition wallet_ok (w : Wallet) : Prop := master_ok w /\ Forall (account_ok w) (accounts_ w).

(** Every wallet the interface can produce. *)
Inductive wallet_reachable : Wallet -> Prop :=
| created writable entropy saltBytes iv path password w file :
    create writable entropy saltBytes iv path password = Ok (w, file) -> wallet_reachable w
| imported writable saltBytes iv mnemonic path password w file :
    importMnemonic writable saltBytes iv mnemonic path password = Ok (w, file) -> wallet_reachable w
| extended name path w w' r :
    wallet_reachable w -> addAccount name path w = (w', r) -> wallet_reachable w'.

Lemma addAccount_ok name path w w' r : wallet_ok w -> addAccount name path w = (w', r) -> wallet_ok w'.
Proof.
  intros [M F] H. unfold addAccount in H. destruct (_ ≫= _) as [a|e| |] eqn:E; injection H as <- _; try done.
  split; [done|]. apply Forall_app. split; [exact F|]. apply Forall_singleton.
  res_inv. by split.
Qed.

Lemma open_wallet_ok writable saltBytes iv path mnemonic password w file :
  open_wallet writable saltBytes iv path mnemonic password = Ok (w, file) -> wallet_ok w /\ mnemonic_ w = mnemonic.
Proof.
  unfold open_wallet. intros H. destruct (addAccount _ _ _) as [w1 r] eqn:E. res_inv.
  split; [|unfold addAccount in E; destruct (_ ≫= _); by simplify_eq].
  eapply addAccount_ok; [|exact E]. split; [|constructor]. apply half_ok.
Qed.

Lemma open_wallet_account writable saltBytes iv path mnemonic password w file :
  open_wallet writable saltBytes iv path mnemonic password = Ok (w, file) -> exists a, accounts_ w = [a].
Proof.
  unfold open_wallet. intros H. destruct (addAccount _ _ _) as [w1 r] eqn:E. res_inv.
  unfold addAccount in E. destruct (_ ≫= _) as [a| | |]; simplify_eq. by exists a.
Qed.

Lemma reachable_wallet_ok w : wallet_reachable w -> wallet_ok w.
Proof.
  induction 1 as [? ? ? ? ? ? ? ? H|? ? ? ? ? ? ? ? H|? ? ? ? ? _ IH H].
  - by apply open_wallet_ok in H as [? _].
  - unfold importMnemonic in H. destruct (negb _); [done|]. by apply open_wallet_ok in H as [? _].
  - by eapply addAccount_ok.
Qed.

(** When opening a wallet succeeds. *)
Definition is_Ok {A} (r : res A) : Prop := exists a, r = Ok a.

Lemma open_wallet_succeeds writable saltBytes iv path mnemonic password kp :
  deriveKeyFromPath (initializeFromSeed (new_Wallet path mnemonic) (mnemonicToSeed mnemonic [])) default_path = Ok kp ->
  writable path = true -> (forall w, is_Ok (encryptAES256GCM w iv mnemonic password)) ->
  is_Ok (open_wallet writable saltBytes iv path mnemonic password).
Proof.
  intros D W C. unfold open_wallet.
  set (w0 := initializeFromSeed (set_salt (new_Wallet path mnemonic) (bytesToHex saltBytes)) (mnemonicToSeed mnemonic [])).
  assert (M : master_ok w0) by apply half_ok.
  assert (D0 : deriveKeyFromPath w0 default_path = Ok kp) by exact D.
  destruct (deriveKeyFromPath_inv _ _ _ M D0) as (K & _ & _).
  unfold addAccount. rewrite D0. cbn [mbind res_bind].
  pose proof (address_defined kp K) as A. unfold address in A. rewrite A. cbn [mbind res_bind].
  unfold save. cbn [walletPath_ mnemonic_]. change (mnemonic_ w0) with mnemonic. change (walletPath_ w0) with path.
  match goal with |- context [encryptAES256GCM ?w _ _ _] => destruct (C w) as [t ->] end.
  cbn [mbind res_bind]. rewrite W. cbn [negb]. by eexists.
Qed.

(** ** Theorems *)

(** C34: encryption round trip. What a wallet encrypts under a password it
    decrypts, under the same password, to the same text. *)
Theorem mnemonic_encryption_roundtrip w iv text password sealed :
  length iv = 12%nat -> bytes_ok iv -> bytes_ok text -> zlen text < 2 ^ 31 ->
  encryptAES256GCM w iv text password = Ok sealed ->
  decryptAES256GCM w sealed password = Ok text.
Proof.
  intros Li Bi Bt Lt H. unfold encryptAES256GCM, decryptAES256GCM, deriveKeysFromPassword in *.
  set (key := take 32 (pbkdf2SHA512 password (salt_ w) 100000)) in *.
  assert (Lk : length key = 32%nat).
  { unfold key, pbkdf2SHA512. rewrite length_take. destruct (pbkdf2_shape password (salt_ w) 100000). lia. }
  pose proof (zlen_nonneg text). rewrite i32_id in H by lia.
  apply bind_Ok in H as (c0 & E0%evp_Ok & H). apply bind_Ok in H as (c1 & E1%evp_Ok & H).
  apply bind_Ok in H as ([c2 u1] & E2%evp_Ok & H). apply bind_Ok in H as ([c3 u2] & E3%evp_Ok & H).
  apply bind_Ok in H as (tag & E4%evp_Ok & H). injection H as <-.
  destruct (gcm_roundtrip key iv text _ _ _ _ _ _ _ Lk Li Bt Lt E0 E1 E2 E3 E4)
    as (Lu & Bu & Lg & Bg & d1 & d2 & d3 & v1 & d4 & v2 & D1 & D2 & D3 & D4 & <-).
  rewrite base64_decode_encode by (rewrite !bytes_ok_app in *; tauto).
  destruct (sealed_parts iv (u1 ++ u2) tag Li Lg) as (-> & -> & -> & ->).
  pose proof (zlen_nonneg (u1 ++ u2)). z_tests.
  assert (Lz : zlen (u1 ++ u2) = zlen (v1 ++ v2)) by (unfold zlen; lia).
  rewrite E0. cbn [evp mbind res_bind]. rewrite D1. cbn [evp mbind res_bind]. rewrite D2. cbn [evp mbind res_bind].
  rewrite i32_id by lia. rewrite Lz, D3. cbn [evp mbind res_bind]. by rewrite D4.
Qed.

(** C33: exported keys. In every wallet that creating, importing and adding
    accounts produce, the private key exported for an account (no password
    is checked) is hexadecimal that reads back as a key whose key pair is the
    account's, whose address is the one asked for, and which the account's
    path derives from the master key. *)
Theorem exported_key_restores w addr a password :
  wallet_reachable w -> getAccount w addr = Some a ->
  exists hex sk, exportPrivateKey w addr password = Ok hex /\ Hash.fromHex hex = Ok sk /\
    fromPrivateKey sk = Ok (wa_keypair a) /\ address (wa_keypair a) = Ok addr /\
    deriveKeyFromPath w (wa_derivationPath a) = Ok (wa_keypair a).
Proof.
  intros [M F]%reachable_wallet_ok G.
  apply List.find_some in G as Gs. destruct Gs as [I E%eqb_eq].
  eapply Forall_forall in F as [D A]; [|by apply list_elem_of_In].
  destruct (deriveKeyFromPath_inv _ _ _ M D) as (_ & B & P).
  exists (bytesToHex (priv_ (wa_keypair a))), (priv_ (wa_keypair a)).
  unfold exportPrivateKey. rewrite G. split_and!; [done|by apply fromHex_toHex|done|congruence|done].
Qed.

(** A new wallet's mnemonic can seldom be imported. The word list has
    310 entries for 11-bit indices, and indices beyond it are skipped: if one
    of the twelve groups of a wallet's entropy and checksum is 310 or more,
    its exported mnemonic has fewer than twelve words and importing it
    fails, in any wallet and under any password. *)
Theorem created_mnemonic_rejected writable entropy saltBytes iv path password w file i
    writable' saltBytes' iv' path' password' :
  create writable entropy saltBytes iv path password = Ok (w, file) ->
  (i < 12)%nat -> 310 <= word_index (mnemonic_bits entropy (nth 0 (sha256 entropy) 0)) i ->
  importMnemonic writable' saltBytes' iv' (exportMnemonic w password) path' password'
  = Throw "Invalid BIP39 mnemonic".
Proof.
  intros C Hi H. apply open_wallet_ok in C as [_ M]. unfold importMnemonic, exportMnemonic. rewrite M.
  by rewrite (generated_short _ _ i Hi H).
Qed.

End Laws.

(** A wallet of the concrete instance. *)
Module SampleWallet.

Definition entropy : Bytes := replicate 16 0xFF.

Definition all_writable : std_string -> bool := fun _ => true.

Definition opened : res (Wallet * std_string) :=
  @create TestCurve.curve TestCrypto.crypto all_writable entropy (replicate 16 5) (replicate 12 9) (str "w.json") (str "pw").

Definition wallet : Wallet := match opened with Ok (w, _) => w | _ => new_Wallet [] [] end.

Definition owner : Address := match accounts_ wallet with a :: _ => wa_address a | [] => Address.zero end.

Lemma opened_Ok : exists file, opened = Ok (wallet, file).
Proof.
  assert (H : is_Ok opened); [|unfold wallet; destruct H as [[w f] ->]; by exists f].
  apply open_wallet_succeeds with (kp := mkKeyPair (replicate 32 1) (replicate 64 1)); [reflexivity|done|].
  intros w'. eexists. reflexivity.
Qed.

Lemma owner_account : exists a, getAccount wallet owner = Some a.
Proof.
  destruct opened_Ok as [file E]. apply open_wallet_account in E as (a & Ea).
  exists a. unfold getAccount, owner. rewrite Ea. cbn [List.find]. by rewrite (proj2 (eqb_eq _ _) eq_refl).
Qed.

End SampleWallet.

Lemma mnemonic_encryption_roundtrip_witness :
  exists sealed, @encryptAES256GCM TestCrypto.crypto SampleWallet.wallet (replicate 12 9) (str "legal winner") (str "pw") = Ok sealed
    /\ @decryptAES256GCM TestCrypto.crypto SampleWallet.wallet sealed (str "pw") = Ok (str "legal winner").
Proof.
  eexists. split; [reflexivity|].
  apply (mnemonic_encryption_roundtrip (CR := TestCrypto.crypto) SampleWallet.wallet (replicate 12 9) (str "legal winner") (str "pw"));
    [done|by apply (bool_decide_eq_true_1 (bytes_ok _))|apply bytes_ok_str|done|reflexivity].
Defined.

Lemma exported_key_restores_witness :
  exists a hex, getAccount SampleWallet.wallet SampleWallet.owner = Some a /\
    exportPrivateKey SampleWallet.wallet SampleWallet.owner (str "anything") = Ok hex /\
    address (wa_keypair a) = Ok SampleWallet.owner.
Proof.
  destruct SampleWallet.opened_Ok as [file E].
  assert (R : @wallet_reachable TestCurve.curve TestCrypto.crypto SampleWallet.wallet) 
    by (unfold SampleWallet.opened in E; exact (created _ _ _ _ _ _ _ _ E)).
  destruct SampleWallet.owner_account as [a G].
  destruct (exported_key_restores SampleWallet.wallet SampleWallet.owner a (str "anything") R G)
    as (hex & sk & X & _ & _ & A & _).
  exists a, hex. exact (conj G (conj X A)).
Defined.

Lemma created_mnemonic_rejected_witness :
  @importMnemonic TestCurve.curve TestCrypto.crypto SampleWallet.all_writable (replicate 16 0) (replicate 12 0)
    (exportMnemonic SampleWallet.wallet (str "pw")) (str "v.json") (str "pw") = Throw "Invalid BIP39 mnemonic".
Proof.
  destruct SampleWallet.opened_Ok as [file E].
  apply (created_mnemonic_rejected _ _ _ _ _ _ _ _ 0 _ _ _ _ _ E); [lia|]. by apply Z.leb_le.
Defined.

(** ** The saved accounts *)

Section Text.

(** What the file says of an account. *)
Definition account_view (a : Account) : std_string * std_string * std_string :=
  (wa_name a, Address.toHex true (wa_address a), wa_derivationPath a).

(** No field holds a double quote. *)
Definition plain_account (a : Account) : Prop :=
  free_of 34 (wa_name a) /\ free_of 34 (Address.toHex true (wa_address a)) /\ free_of 34 (wa_derivationPath a).

Lemma accounts_text_acc l : forall json,
  (foldl (fun '((first, json) : bool * std_string) a => (false, json ++ (if first then [] else [44; 10]) ++ account_text a))
         (false, json) l).2 = json ++ concat ((fun a => [44; 10] ++ account_text a) <$> l).
Proof.
  induction l as [|a l IH]; intros json; [by rewrite app_nil_r|].
  cbn [foldl fmap list_fmap concat]. rewrite IH. by rewrite <- !app_assoc.
Qed.

Lemma accounts_text_cons a l :
  accounts_text (a :: l) = account_text a ++ concat ((fun a => [44; 10] ++ account_text a) <$> l).
Proof. unfold accounts_text. cbn [foldl app]. by rewrite accounts_text_acc. Qed.

Lemma quoted_split s s' t t' :
  free_of 34 s -> free_of 34 s' -> in_quotes s ++ t = in_quotes s' ++ t' -> s = s' /\ t = t'.
Proof.
  intros F F' E. unfold in_quotes in E. rewrite <- !app_assoc in E. cbn [app] in E. injection E as E.
  by apply split_sep in E.
Qed.

Lemma account_text_inj a b r r' :
  plain_account a -> plain_account b -> account_text a ++ r = account_text b ++ r' ->
  account_view a = account_view b /\ r = r'.
Proof.
  intros (Fn & Fa & Fp) (Fn' & Fa' & Fp') E. unfold account_text, json_line in E. rewrite <- !app_assoc in E.
  do 5 apply app_inv_head in E. apply quoted_split in E as [En E]; [|done..].
  do 5 apply app_inv_head in E. apply quoted_split in E as [Ea E]; [|done..].
  do 5 apply app_inv_head in E. apply quoted_split in E as [Ep E]; [|done..].
  do 3 apply app_inv_head in E. unfold account_view. by rewrite En, Ea, Ep.
Qed.

Lemma more_accounts_inj l l' r r' :
  Forall plain_account l -> Forall plain_account l' ->
  concat ((fun a => [44; 10] ++ account_text a) <$> l) ++ 10 :: r
  = concat ((fun a => [44; 10] ++ account_text a) <$> l') ++ 10 :: r' ->
  account_view <$> l = account_view <$> l'.
Proof.
  intros F. revert l'. induction F as [|a l Pa F IH]; intros l' F' E.
  - destruct l' as [|b l']; [done|]. cbn [fmap list_fmap concat app] in E. discriminate E.
  - destruct F' as [|b l' Pb F']; cbn [fmap list_fmap concat] in E; [discriminate E|].
    rewrite <- !app_assoc in E. apply app_inv_head in E. apply account_text_inj in E as [E1 E]; [|done..].
    cbn [fmap list_fmap]. rewrite E1. f_equal. by apply IH.
Qed.

Lemma accounts_text_inj l l' r r' :
  Forall plain_account l -> Forall plain_account l' ->
  accounts_text l ++ 10 :: r = accounts_text l' ++ 10 :: r' -> account_view <$> l = account_view <$> l'.
Proof.
  intros F F' E. destruct F as [|a l Pa F], F' as [|b l' Pb F']; [done| | |].
  - rewrite accounts_text_cons in E. discriminate E.
  - rewrite accounts_text_cons in E. discriminate E.
  - rewrite !accounts_text_cons, <- !app_assoc in E. apply account_text_inj in E as [E1 E]; [|done..].
    cbn [fmap list_fmap]. rewrite E1. f_equal. by eapply more_accounts_inj.
Qed.

(** An account whose name spells out the end of [a] and the start of [b]. *)
Definition forged (a b : Account) : Account :=
  let rest := json_line "      " "address" (in_quotes (Address.toHex true (wa_address a))) "," ++
              json_line "      " "path" (in_quotes (wa_derivationPath a)) EmptyString ++
              str "    }" ++ [44; 10] ++ str "    {" ++ [10] ++
              str "      " ++ in_quotes (str "name") ++ str ": " ++ [34] ++ wa_name b in
  mkAccount (wa_name a ++ [34] ++ str "," ++ [10] ++ rest) (wa_address b) (wa_keypair b) (wa_derivationPath b).

Lemma forged_text a b : account_text (forged a b) = account_text a ++ [44; 10] ++ account_text b.
Proof.
  unfold account_text, forged, json_line, in_quotes. cbn [wa_name wa_address wa_derivationPath].
  by rewrite <- !app_assoc.
Qed.

(** What the saved list of accounts says. As long as no field contains a
    double quote, two wallets with the same text list the same names,
    addresses and paths in the same order. The fields are not escaped,
    though: for any two accounts there is one account, with a suitable name,
    whose wallet has the same text as a wallet with both. *)
Theorem wallet_text_binding w w' :
  free_of 34 (salt_ w) -> free_of 34 (salt_ w') ->
  (Forall plain_account (accounts_ w) -> Forall plain_account (accounts_ w') ->
   toJson w = toJson w' -> salt_ w = salt_ w' /\ account_view <$> accounts_ w = account_view <$> accounts_ w') /\
  (forall a b, accounts_ w = [a; b] -> accounts_ w' = [forged a b] -> salt_ w = salt_ w' -> toJson w = toJson w').
Proof.
  intros S S'. split.
  - intros F F' E. unfold toJson, json_line in E. rewrite <- !app_assoc in E.
    do 11 apply app_inv_head in E. apply quoted_split in E as [-> E]; [|done..].
    do 8 apply app_inv_head in E. split; [done|]. by eapply accounts_text_inj.
  - intros a b E E' Es. unfold toJson. rewrite Es, E, E', !accounts_text_cons, forged_text.
    cbn [fmap list_fmap concat]. rewrite <- !app_assoc. done.
Qed.

End Text.

(** Two accounts, and a wallet that lists the forged one instead. *)
Definition sample_account (name : string) (b : Z) : Account :=
  mkAccount (str name) (mkAddress (replicate 20 b)) default_keypair default_path.

Definition listing (accounts : list Account) : Wallet := mkWallet [] [] (str "00ff") accounts [] [].

Lemma wallet_text_binding_witness :
  toJson (listing [sample_account "a" 1; sample_account "b" 2])
  = toJson (listing [forged (sample_account "a" 1) (sample_account "b" 2)]).
Proof.
  destruct (wallet_text_binding (listing [sample_account "a" 1; sample_account "b" 2])
              (listing [forged (sample_account "a" 1) (sample_account "b" 2)])) as [_ H];
    [by apply (bool_decide_eq_true_1 (free_of _ _))..|].
  exact (H _ _ eq_refl eq_refl eq_refl).
Defined.
