(* ===== verification/WalletFallback.v ===== *)
(** * The wallet's cryptography in a build without OpenSSL (src/src/wallet.cpp)

    The branches that are compiled when GAMBIT_HAVE_OPENSSL is not defined:
    digests spread from one [std::hash], and Base64 in the place of
    encryption. [std::hash<std::string>] is implementation-defined, a
    parameter here; [size_t] has 64 bits, lowest byte first in memory. *)

From stdpp Require Import base list numbers strings.
From Stdlib Require Import ZArith Lia.
From S2P Require Import Prelude Hash Cstring WalletCodec Wallet.

#[local] Open Scope Z_scope.

(** [std::hash<std::string>]. *)
Class StdHash : Type := { std_hash : std_string -> Z }.

Section Fallback.
Context {SH : StdHash}.

(** wallet.cpp 103-105 and 151-153: byte [i] is the hash shifted by [i] bits. *)
Definition spread (n : nat) (v : Z) : Bytes := (fun i => Z.land (Z.shiftr v (Z.of_nat i mod 64)) 0xFF) <$> seq 0 n.

(** wallet.cpp 95-106. *)
Definition fallback_hmacSHA512 (key data : Bytes) : Bytes := spread 64 (std_hash (key ++ data)).

(** [cur.assign((char* )&v, sizeof(v))]. *)
Definition object_bytes (v : Z) : Bytes := (fun i => u8 (Z.shiftr v (8 * Z.of_nat i))) <$> seq 0 8.

(** wallet.cpp 122-132; an empty [cur] would be divided by. *)
Definition fallback_pbkdf2SHA512 (password salt : std_string) (iterations : Z) : res Bytes :=
  let cur := Nat.iter (Z.to_nat iterations) (fun cur => object_bytes (std_hash cur)) (password ++ salt) in
  if bool_decide (cur = []) then UB
  else Ok ((fun i => nth (i mod length cur) cur 0) <$> seq 0 64).

(** wallet.cpp 146-154. *)
Definition fallback_sha256 (data : Bytes) : Bytes := spread 32 (std_hash data).

(** wallet.cpp 380-388, over the fallback. *)
Definition fallback_deriveKeys (w : Wallet) (password : std_string) : res (Bytes * Bytes) :=
  keyMaterial ← fallback_pbkdf2SHA512 password (salt_ w) 100000;
  Ok (take 32 keyMaterial, drop 32 keyMaterial).

(** wallet.cpp 437-441. *)
Definition fallback_encrypt (w : Wallet) (iv : Bytes) (plaintext password : std_string) : res std_string :=
  _ ← fallback_deriveKeys w password;
  Ok (base64Encode (iv ++ plaintext)).

(** wallet.cpp 488-490. *)
Definition fallback_decrypt (w : Wallet) (ciphertext_b64 password : std_string) : res std_string :=
  _ ← fallback_deriveKeys w password;
  let result := base64Decode ciphertext_b64 in
  if zlen result <=? 12 then Ok [] else Ok (drop 12 result).

(** ** Lemmas *)

Lemma object_bytes_length v : length (object_bytes v) = 8%nat.
Proof. done. Qed.

Lemma cur_length n s : 0 < n -> length (Nat.iter (Z.to_nat n) (fun cur => object_bytes (std_hash cur)) s) = 8%nat.
Proof. intros H. destruct (Z.to_nat n) as [|k] eqn:E; [lia|done]. Qed.

Lemma eight_bytes (l : Bytes) : length l = 8%nat -> exists a b c d e f g h, l = [a; b; c; d; e; f; g; h].
Proof. destruct l as [|a [|b [|c [|d [|e [|f [|g [|h [|i l]]]]]]]]]; try done. intros _. by do 8 eexists. Qed.

(** After the first round the text has eight bytes, so the key material
    repeats them. *)
Lemma fallback_pbkdf2_repeats password salt n :
  0 < n -> exists block, length block = 8%nat /\
    fallback_pbkdf2SHA512 password salt n = Ok (concat (replicate 8 block)).
Proof.
  intros N. unfold fallback_pbkdf2SHA512. pose proof (cur_length n (password ++ salt) N) as L.
  set (cur := Nat.iter (Z.to_nat n) _ _) in *. exists cur. split; [done|]. clearbody cur.
  destruct (eight_bytes cur L) as (a & b & c & d & e & f & g & h & ->). by rewrite bool_decide_false.
Qed.

Lemma fallback_keys w password :
  exists block, length block = 8%nat /\
    fallback_deriveKeys w password = Ok (concat (replicate 4 block), concat (replicate 4 block)).
Proof.
  unfold fallback_deriveKeys. destruct (fallback_pbkdf2_repeats password (salt_ w) 100000 ltac:(lia)) as (block & L & ->). exists block. split; [done|].
  cbn [mbind res_bind]. by destruct (eight_bytes block L) as (a & b & c & d & e & f & g & h & ->).
Qed.

End Fallback.

(** ** Properties *)

Section Properties.
Context {SH : StdHash}.

(** The mnemonic is not protected. In a build without OpenSSL whatever was
    sealed under one password, by one wallet, opens under every other password
    and wallet. *)
Theorem fallback_password_ignored (w w' : Wallet) (iv : Bytes) (text password other : std_string) :
  length iv = 12%nat -> bytes_ok iv -> bytes_ok text ->
  exists sealed, fallback_encrypt w iv text password = Ok sealed /\ fallback_decrypt w' sealed other = Ok text.
Proof.
  intros L Bi Bt. exists (base64Encode (iv ++ text)). unfold fallback_encrypt, fallback_decrypt.
  destruct (fallback_keys w password) as (b1 & _ & ->), (fallback_keys w' other) as (b2 & _ & ->). cbn [mbind res_bind].
  split; [done|]. rewrite base64_decode_encode by (by apply bytes_ok_app).
  rewrite zlen_app. unfold zlen at 1. rewrite L. destruct (_ <=? 12) eqn:E; to_prop.
  - pose proof (zlen_nonneg text). destruct text as [|c text]; [done|]. rewrite zlen_cons in E. pose proof (zlen_nonneg text). lia.
  - by rewrite <- L, drop_seam.
Qed.

Lemma spread_shape n v : length (spread n v) = n /\ bytes_ok (spread n v).
Proof.
  split; [by unfold spread; rewrite length_fmap, length_seq|]. apply Forall_fmap, Forall_forall. intros i _. cbn.
  rewrite land_255. unfold is_u8. apply Z.mod_pos_bound. lia.
Qed.

(** The digests have the sizes of those they stand for, so the halves that
    the derivation of keys takes are 32 bytes each. *)
Theorem fallback_digest_sizes (key data : Bytes) :
  (length (fallback_hmacSHA512 key data) = 64%nat /\ bytes_ok (fallback_hmacSHA512 key data)) /\
  (length (fallback_sha256 data) = 32%nat /\ bytes_ok (fallback_sha256 data)).
Proof. split; apply spread_shape. Qed.

End Properties.

#[local] Instance sum_hash : StdHash := {| std_hash s := u64 (foldl Z.add 0 s) |}.

Lemma fallback_password_ignored_witness :
  exists sealed,
    fallback_encrypt (new_Wallet (str "w.json") []) (replicate 12 9) (str "legal winner") (str "secret") = Ok sealed /\
    fallback_decrypt (new_Wallet (str "w.json") []) sealed (str "guess") = Ok (str "legal winner").
Proof. apply fallback_password_ignored; [done|by apply (bool_decide_unpack _)|apply bytes_ok_str]. Defined.
