(* ===== verification/App.v ===== *)
(** * The node executable (src/app/main.cpp)

    Command-line parsing, the wallet prompt and the start-up sequence up to
    the point where the main thread only sleeps. The arguments are those
    behind the program's name; [clock] gives the successive readings of the
    clock. The threads that the node, the RPC server and the miner start work
    from then on: what each does to the chain is in P2PNode.v, RpcServer.v
    and Miner.v, and here they take turns by whole events (a message handled,
    a request served, a turn of the miner), also between the blocks that the
    main thread mines ([other_threads]). Interleavings of single statements
    are in ChainThreads.v, P2PThreads.v and ServerThreads.v. *)

From stdpp Require Import base list gmap numbers strings.
From Stdlib Require Import ZArith Lia.
From S2P Require Import Prelude Keccak Hash Rlp Address Mpt Keys Transaction Receipt State Zk Block.
From S2P Require Import Blockchain P2PMessage P2PPeer P2PNode Miner Cstring JsonLexer JsonLibrary RpcServer WalletCodec Wallet.

#[local] Open Scope Z_scope.

(** ** Configuration *)

(** main.cpp 19-30. *)
Record NodeConfig : Type := mkConfig {
  enableP2P : bool;
  enableRPC : bool;
  enableMining : bool;
  enableWallet : bool;
  mineBlocks : Z;  (* uint32_t *)
  p2pPort : Z;  (* uint16_t *)
  rpcPort : Z;  (* uint16_t *)
  chainId : Z;  (* uint64_t *)
  premineAmount : Z;  (* uint64_t *)
}.

#[export] Instance NodeConfig_eq_dec : EqDecision NodeConfig.
Proof. solve_decision. Defined.

(** The members' initial values. *)
Definition default_config : NodeConfig := mkConfig true false false false 0 30303 8545 1337 1000000.

Definition set_mineBlocks (c : NodeConfig) (n : Z) : NodeConfig :=
  mkConfig (enableP2P c) (enableRPC c) (enableMining c) (enableWallet c) n (p2pPort c) (rpcPort c) (chainId c) (premineAmount c).

Definition set_p2pPort (c : NodeConfig) (n : Z) : NodeConfig :=
  mkConfig (enableP2P c) (enableRPC c) (enableMining c) (enableWallet c) (mineBlocks c) n (rpcPort c) (chainId c) (premineAmount c).

Definition set_rpcPort (c : NodeConfig) (n : Z) : NodeConfig :=
  mkConfig (enableP2P c) (enableRPC c) (enableMining c) (enableWallet c) (mineBlocks c) (p2pPort c) n (chainId c) (premineAmount c).

Definition set_chainId (c : NodeConfig) (n : Z) : NodeConfig :=
  mkConfig (enableP2P c) (enableRPC c) (enableMining c) (enableWallet c) (mineBlocks c) (p2pPort c) (rpcPort c) n (premineAmount c).

(** main.cpp 67-78, 81-92 and 95-106: a number between [lo] and [hi] or the
    option is refused. *)
Definition parse_number (text : std_string) (lo hi : Z) (set : Z -> NodeConfig) : option NodeConfig :=
  match stoi text with
  | Ok num => if (num <? lo) || (num >? hi) then None else Some (set num)
  | _ => None
  end.

(** main.cpp 53-124: one argument; [None] when [parseArgs] returns false. *)
Definition parse_arg (config : NodeConfig) (arg : std_string) : option NodeConfig :=
  let '(mkConfig p2p rpc mining wallet n pp rp cid pre) := config in
  if bool_decide (arg = str "--help") || bool_decide (arg = str "-h") then None
  else if bool_decide (arg = str "--no-p2p") then Some (mkConfig false rpc mining wallet n pp rp cid pre)
  else if bool_decide (arg = str "--enable-rpc") then Some (mkConfig p2p true mining wallet n pp rp cid pre)
  else if bool_decide (arg = str "--auto-mining") then Some (mkConfig p2p rpc true wallet n pp rp cid pre)
  else if starts_with (str "--mine-blocks=") arg then
    parse_number (drop 14 arg) 1 (2 ^ 31 - 1) (fun num => set_mineBlocks config (u32 num))
  else if starts_with (str "--p2p-port=") arg then
    parse_number (drop 11 arg) 1 65535 (fun port => set_p2pPort config (u16 port))
  else if starts_with (str "--rpc-port=") arg then
    parse_number (drop 11 arg) 1 65535 (fun port => set_rpcPort config (u16 port))
  else if starts_with (str "--chain-id=") arg then
    match stoull 10 (drop 11 arg) with
    | Ok id => Some (set_chainId config id)
    | _ => None
    end
  else if bool_decide (arg = str "--wallet") then Some (mkConfig p2p rpc mining true n pp rp cid pre)
  else None.

(** main.cpp 49-127: the configuration, [None] when it returns false. *)
Fixpoint parseArgs (args : list std_string) (config : NodeConfig) : option NodeConfig :=
  match args with
  | [] => Some config
  | arg :: args' => match parse_arg config arg with Some config => parseArgs args' config | None => None end
  end.

(** ** The wallet prompt *)

Section Cli.
Context {SC : Secp256k1} {CR : Crypto}.

(** The random values that one run draws. *)
Record Randomness : Type := mkRandomness { r_entropy : Bytes; r_salt : Bytes; r_iv1 : Bytes; r_iv2 : Bytes }.

(** main.cpp 129-171 on the lines of the standard input: the wallet and the
    file that "create" leaves, nothing for the other commands. *)
Definition walletCLI (writable readable : std_string -> bool) (rnd : Randomness) (input : list std_string) :
  res (option (Wallet * std_string)) :=
  let command := nth 0 input [] in
  let path := nth 1 input [] in
  let password := nth 2 input [] in
  if bool_decide (command = str "create") then
    '(w, _) ← create writable (r_entropy rnd) (r_salt rnd) (r_iv1 rnd) path password;
    let '(w, added) := addAccount (str "default") (str "m/44'/60'/0'/0/0") w in
    _ ← added;
    file ← save writable w (r_iv2 rnd) password;
    Ok (Some (w, file))
  else if bool_decide (command = str "load") then
    _ ← load readable path password;
    Ok None
  else Ok None.

End Cli.

(** ** The running node

    The threads of a running node as a sequence of events on the shared
    chain, one after the other: a message from a peer, a request to the RPC
    server, a turn of the miner, a block mined by the main thread. The member
    functions of [Blockchain] that change it hold its mutex and come in some
    order; that a check and the call it guards are one event leaves out what
    ChainThreads.v says of the check's unlocked reads. *)

Section System.
Context {SK : Socket} {SC : Secp256k1} {JL : JsonLib} {ME : MiningEngine}.

Inductive event : Type :=
| PeerMessage (msg : Message)
| RpcClient (received : Bytes)
| MinerTurn (now : Z)
| MainMines (now : Z).

#[local] Open Scope act_scope.

(** The handlers that the threads run, p2p_node.cpp 110-112, rpc_server.cpp
    107, miner.cpp 40-52 and main.cpp 276-283. *)
Definition handle (e : event) : act (Miner (SK := SK)) unit :=
  match e with
  | PeerMessage msg => on_chain (onMessage msg)
  | RpcClient received => on_chain (handleClient received) ;; act_ret ()
  | MinerTurn now => mine_once now
  | MainMines now => block <- on_chain (mineBlock now) ;; on_node (fun node => broadcastNewBlock node block)
  end.

(** The program after the events, if none of them ends it. *)
Fixpoint run_events (es : list event) : act (Miner (SK := SK)) unit :=
  match es with
  | [] => act_ret ()
  | e :: es => handle e ;; run_events es
  end.

(** Without a node there is no receiver and no miner: the other threads only
    serve requests. *)
Fixpoint run_requests (es : list event) : act Blockchain unit :=
  match es with
  | [] => act_ret ()
  | RpcClient received :: es => handleClient received ;; run_requests es
  | _ :: es => run_requests es
  end.

(** What the other threads do while the main thread is in between its own
    statements. *)
Definition other_threads (es : list event) (bc : Blockchain) (node : option (P2PNode SK)) :
  res (Blockchain * option (P2PNode SK)) :=
  match node with
  | Some node => let '((bc, node), r) := run_events es (bc, node) in _ ← r; Ok (bc, Some node)
  | None => let '(bc, r) := run_requests es bc in _ ← r; Ok (bc, None)
  end.

End System.

(** Which threads there are: main.cpp 235-271. *)
Definition possible (config : NodeConfig) (e : event) : bool :=
  match e with
  | PeerMessage _ => enableP2P config
  | RpcClient _ => enableRPC config
  | MinerTurn _ => enableP2P config && enableMining config
  | MainMines _ => false
  end.


(** ** The node *)

Section Node.
Context {SK : Socket} {SC : Secp256k1} {JL : JsonLib} {ME : MiningEngine}.

(** main.cpp 195-200. *)
Definition devPrivKey : Bytes :=
  [0xac; 0x09; 0x74; 0xbe; 0xc3; 0x9a; 0x17; 0xe3;
   0x6b; 0xa4; 0xa6; 0xb4; 0xd2; 0x38; 0xff; 0x94;
   0x4b; 0xac; 0xb4; 0x78; 0xcb; 0xed; 0x5e; 0xfc;
   0xae; 0x78; 0x4d; 0x7b; 0xf4; 0xf2; 0xff; 0x80].

(** main.cpp 202-203 and 221-223. *)
Definition node_genesis (config : NodeConfig) : res GenesisConfig :=
  devKey ← fromPrivateKey32 devPrivKey;
  coinbase ← address devKey;
  Ok (mkGenesisConfig [mkGenesisAccount coinbase (premineAmount config)] (chainId config)).

(** What start-up finds outside: the clock, the node's key pair, the name
    server and the connections to the addresses it gives; and what the
    threads it has started do before each of the main thread's blocks. *)
Record World : Type := mkWorld {
  clock : nat -> Z;
  node_key : KeyPair;
  getaddrinfo : std_string -> option (list std_string);
  dial : std_string -> option sock;
  others : nat -> list event;
}.

(** main.cpp 281-283. *)
Definition announce (node : option (P2PNode SK)) (block : Block) : res (option (P2PNode SK)) :=
  match node with
  | None => Ok None
  | Some node => node ← broadcastNewBlock node block; Ok (Some node)
  end.

(** main.cpp 275-288; [tick] counts the readings of the clock. The other
    threads work from their start on and during the pauses of five seconds. *)
Fixpoint mine_blocks (w : World) (n tick : nat) (bc : Blockchain) (node : option (P2PNode SK)) :
  res (Blockchain * option (P2PNode SK)) :=
  match n with
  | O => Ok (bc, node)
  | S n =>
      '(bc, node) ← other_threads (others w tick) bc node;
      let '(bc, mined) := mineBlock (clock w tick) bc in
      block ← mined;
      node ← announce node block;
      mine_blocks w n (S tick) bc node
  end.

(** main.cpp 184-290. What the threads of the RPC server, of the miner and of
    the peers do, once they are started, is in [mine_blocks]. *)
Definition run_node (w : World) (config : NodeConfig) : res (Blockchain * option (P2PNode SK)) :=
  genesis ← node_genesis config;
  chain ← new_Blockchain genesis (clock w 0);
  let node :=
    if enableP2P config then Some (P2PNode.start (new_P2PNode (p2pPort config) (node_key w)) (getaddrinfo w) (dial w))
    else None in
  mine_blocks w (Z.to_nat (mineBlocks config)) 1 chain node.

(** What the program comes to: it exits with a code, or runs as a node. *)
Inductive outcome : Type :=
| Exit (code : Z)
| Running (chain : Blockchain) (node : option (P2PNode SK)).

(** main.cpp 174-315. *)
Definition main {CR : Crypto} (writable readable : std_string -> bool) (rnd : Randomness) (input : list std_string)
    (w : World) (args : list std_string) : res outcome :=
  match parseArgs args default_config with
  | None => Ok (Exit 1)
  | Some config =>
      if enableWallet config then
        _ ← walletCLI writable readable rnd input;
        Ok (Exit 0)
      else
        '(chain, node) ← run_node w config;
        Ok (Running chain node)
  end.

End Node.

(** ** Lemmas: arguments *)

Lemma u16_id x : 0 <= x < 2 ^ 16 -> u16 x = x.
Proof. apply Z.mod_small. Qed.

(** Every configuration the program runs with. *)
Definition config_ok (c : NodeConfig) : Prop :=
  0 <= mineBlocks c < 2 ^ 31 /\ 1 <= p2pPort c <= 65535 /\ 1 <= rpcPort c <= 65535 /\ is_u64 (chainId c) /\
  premineAmount c = 1000000.

Lemma parse_number_inv text lo hi set c :
  parse_number text lo hi set = Some c -> exists n, lo <= n <= hi /\ c = set n.
Proof.
  unfold parse_number. destruct (stoi text) as [n| | |]; [|done..].
  destruct (_ || _) eqn:E; [done|]. to_prop. intros [= <-]. exists n. split; [lia|done].
Qed.

Lemma parse_number_dec n lo hi set :
  0 <= n < 2 ^ 31 -> lo <= n <= hi -> parse_number (print_dec n) lo hi set = Some (set n).
Proof. intros H B. unfold parse_number. rewrite stoi_dec by done. z_tests. done. Qed.

Lemma parse_arg_ok c arg c' : config_ok c -> parse_arg c arg = Some c' -> config_ok c'.
Proof.
  intros (M & P & R & I & A) H. destruct c as [p2p rpc mining wallet n pp rp cid pre].
  unfold config_ok, is_u64 in *. cbn in *.
  repeat match type of H with
  | (if ?b then _ else _) = Some _ => destruct b; [try discriminate H; try (injection H as <-; cbn; lia)|]
  end; [..|discriminate H].
  - apply parse_number_inv in H as (k & B & ->). cbn. rewrite u32_id by (unfold is_u32; lia). lia.
  - apply parse_number_inv in H as (k & B & ->). cbn. rewrite u16_id by lia. lia.
  - apply parse_number_inv in H as (k & B & ->). cbn. rewrite u16_id by lia. lia.
  - destruct (stoull 10 _) as [id| | |] eqn:E; [|discriminate H..]. injection H as <-. cbn.
    apply stoull_range in E; unfold is_u64 in *; lia.
Qed.

Lemma parseArgs_app args args' c :
  parseArgs (args ++ args') c = match parseArgs args c with Some c => parseArgs args' c | None => None end.
Proof.
  revert c. induction args as [|arg args IH]; intros c; [done|]. cbn [app parseArgs].
  destruct (parse_arg c arg); [apply IH|done].
Qed.

(** A configuration as a command line. *)
Definition print_args (c : NodeConfig) : list std_string :=
  (if enableP2P c then [] else [str "--no-p2p"]) ++
  (if enableRPC c then [str "--enable-rpc"] else []) ++
  (if enableMining c then [str "--auto-mining"] else []) ++
  (if enableWallet c then [str "--wallet"] else []) ++
  (if mineBlocks c =? 0 then [] else [str "--mine-blocks=" ++ print_dec (mineBlocks c)]) ++
  [str "--p2p-port=" ++ print_dec (p2pPort c); str "--rpc-port=" ++ print_dec (rpcPort c);
   str "--chain-id=" ++ print_dec (chainId c)].

Lemma flag_differs (p s : std_string) (q : string) :
  take (length p) (str q) <> p -> bool_decide (p ++ s = str q) = false.
Proof. intros N. apply bool_decide_false. intros E. destruct N. rewrite <- E. by rewrite take_app_length. Qed.

Lemma prefix_differs (p q s : std_string) :
  take (length p) q <> take (length q) p -> starts_with q (p ++ s) = false.
Proof.
  intros N. apply bool_decide_false. intros E. destruct N. rewrite <- E at 1.
  rewrite take_take, Nat.min_comm, <- take_take. by rewrite take_app_length.
Qed.

Ltac option_arg :=
  unfold parse_arg; rewrite !flag_differs by done; cbn [orb];
  rewrite ?prefix_differs by done; rewrite starts_with_app.

Lemma parse_mine_blocks c n :
  1 <= n < 2 ^ 31 -> parse_arg c (str "--mine-blocks=" ++ print_dec n) = Some (set_mineBlocks c n).
Proof.
  intros H. destruct c. option_arg. change 14%nat with (length (str "--mine-blocks=")). rewrite drop_app_length.
  rewrite parse_number_dec by lia. by rewrite u32_id by (unfold is_u32; lia).
Qed.

Lemma parse_p2p_port c n : 1 <= n <= 65535 -> parse_arg c (str "--p2p-port=" ++ print_dec n) = Some (set_p2pPort c n).
Proof.
  intros H. destruct c. option_arg. change 11%nat with (length (str "--p2p-port=")). rewrite drop_app_length.
  rewrite parse_number_dec by lia. by rewrite u16_id by lia.
Qed.

Lemma parse_rpc_port c n : 1 <= n <= 65535 -> parse_arg c (str "--rpc-port=" ++ print_dec n) = Some (set_rpcPort c n).
Proof.
  intros H. destruct c. option_arg. change 11%nat with (length (str "--rpc-port=")). rewrite drop_app_length.
  rewrite parse_number_dec by lia. by rewrite u16_id by lia.
Qed.

Lemma parse_chain_id c n : is_u64 n -> parse_arg c (str "--chain-id=" ++ print_dec n) = Some (set_chainId c n).
Proof.
  intros H. destruct c. option_arg. change 11%nat with (length (str "--chain-id=")). rewrite drop_app_length.
  by rewrite stoull_dec.
Qed.

Lemma parse_no_p2p (p2p rpc mining wallet : bool) n pp rp cid pre :
  parseArgs (if p2p then [] else [str "--no-p2p"]) (mkConfig true rpc mining wallet n pp rp cid pre)
  = Some (mkConfig p2p rpc mining wallet n pp rp cid pre).
Proof. by destruct p2p. Qed.

Lemma parse_enable_rpc (p2p rpc mining wallet : bool) n pp rp cid pre :
  parseArgs (if rpc then [str "--enable-rpc"] else []) (mkConfig p2p false mining wallet n pp rp cid pre)
  = Some (mkConfig p2p rpc mining wallet n pp rp cid pre).
Proof. by destruct rpc. Qed.

Lemma parse_auto_mining (p2p rpc mining wallet : bool) n pp rp cid pre :
  parseArgs (if mining then [str "--auto-mining"] else []) (mkConfig p2p rpc false wallet n pp rp cid pre)
  = Some (mkConfig p2p rpc mining wallet n pp rp cid pre).
Proof. by destruct mining. Qed.

Lemma parse_wallet (p2p rpc mining wallet : bool) n pp rp cid pre :
  parseArgs (if wallet then [str "--wallet"] else []) (mkConfig p2p rpc mining false n pp rp cid pre)
  = Some (mkConfig p2p rpc mining wallet n pp rp cid pre).
Proof. by destruct wallet. Qed.

Lemma parse_blocks p2p rpc mining wallet n pp rp cid pre :
  0 <= n < 2 ^ 31 ->
  parseArgs (if n =? 0 then [] else [str "--mine-blocks=" ++ print_dec n]) (mkConfig p2p rpc mining wallet 0 pp rp cid pre)
  = Some (mkConfig p2p rpc mining wallet n pp rp cid pre).
Proof.
  intros H. destruct (n =? 0) eqn:E; to_prop; [by subst n|]. cbn [parseArgs]. by rewrite parse_mine_blocks by lia.
Qed.

Lemma parse_printed c : config_ok c -> parseArgs (print_args c) default_config = Some c.
Proof.
  intros (M & P & R & I & A). unfold print_args, default_config. destruct c as [p2p rpc mining wallet n pp rp cid pre].
  cbn [enableP2P enableRPC enableMining enableWallet mineBlocks p2pPort rpcPort chainId premineAmount] in *. subst pre.
  rewrite parseArgs_app, parse_no_p2p. cbn match. rewrite parseArgs_app, parse_enable_rpc. cbn match.
  rewrite parseArgs_app, parse_auto_mining. cbn match. rewrite parseArgs_app, parse_wallet. cbn match.
  rewrite parseArgs_app, parse_blocks by done. cbn match.
  cbn [parseArgs]. rewrite parse_p2p_port by done. cbn [parseArgs]. rewrite parse_rpc_port by done. cbn [parseArgs].
  by rewrite parse_chain_id.
Qed.

Lemma parsed_ok args c : parseArgs args default_config = Some c -> config_ok c.
Proof.
  assert (D : config_ok default_config) by (unfold config_ok, is_u64; cbn; lia).
  revert D. generalize default_config. induction args as [|arg args IH]; intros c0 D H; cbn [parseArgs] in H; [by injection H as <-|].
  destruct (parse_arg c0 arg) as [c1|] eqn:E; [|done]. by apply (IH c1); [eapply parse_arg_ok|].
Qed.

(** C40: the command line, exactly. A configuration whose ports lie between 1
    and 65535, whose number of blocks fits 31 bits, whose chain id fits 64
    bits and whose premine is the fixed 1000000 is written as a command line
    ([print_args]: --no-p2p when networking is off, --enable-rpc,
    --auto-mining and --wallet when these are on, --mine-blocks=N unless N is
    0, then --p2p-port=, --rpc-port= and --chain-id= in decimal), and parsing
    it from the default configuration gives that configuration back, each
    option in its own member; and whatever the arguments are, parsing ends
    with a refusal or with such a configuration. *)
Theorem parseArgs_exact (c : NodeConfig) :
  (config_ok c -> parseArgs (print_args c) default_config = Some c) /\
  (forall args, parseArgs args default_config = Some c -> config_ok c).
Proof. split; [apply parse_printed|]. intros args. apply parsed_ok. Qed.

Lemma parseArgs_exact_witness :
  parseArgs (print_args (mkConfig false true false true 7 30304 8546 1337 1000000)) default_config =
    Some (mkConfig false true false true 7 30304 8546 1337 1000000) /\
  config_ok (mkConfig false true false true 7 30304 8546 1337 1000000).
Proof.
  assert (O : config_ok (mkConfig false true false true 7 30304 8546 1337 1000000)) by (unfold config_ok, is_u64; cbn; lia).
  split; [|exact O]. by apply (parseArgs_exact (mkConfig false true false true 7 30304 8546 1337 1000000)).
Defined.

(** ** Lemmas: the running node *)

Section SystemLemmas.
Context {SK : Socket} {SC : Secp256k1} {JL : JsonLib} {JW : JsonLaws JL} {ME : MiningEngine}.

Lemma on_chain_fst {A} (m : act Blockchain A) s : (on_chain (SK := SK) m s).1.1 = (m s.1).1.
Proof. destruct s as [bc node]. unfold on_chain. cbn. by destruct (m bc). Qed.

Lemma on_node_fst f s : (on_node (SK := SK) f s).1.1 = s.1.
Proof. destruct s as [bc node]. unfold on_node. by destruct (f node). Qed.

(** The chain as it was, or after one step of a node. *)
Definition harmless (bc bc' : Blockchain) : Prop := bc' = bc \/ node_step bc bc'.

Lemma mine_once_step now s : harmless s.1 (mine_once (SK := SK) now s).1.1.
Proof.
  destruct s as [bc node]. unfold mine_once. rewrite act_catch_unit.
  unfold act_bind, act_self, act_lift. cbn [fst]. destruct (buildBlockTemplate now bc) as [b| | |]; try by left.
  pose proof (node_add bc b) as St. unfold on_chain. destruct (addBlock b bc) as [bc' [ok| | |]]; cbn in *; try by right.
  unfold on_node. destruct (broadcastNewBlock node b); by right.
Qed.

Lemma main_mines_step now s : harmless s.1 (handle (SK := SK) (MainMines now) s).1.1.
Proof.
  destruct s as [bc node]. cbn [handle]. unfold act_bind, on_chain. cbn [fst].
  pose proof (node_mine bc now) as St. destruct (mineBlock now bc) as [bc' [b| | |]]; cbn in *; try by right.
  unfold on_node. destruct (broadcastNewBlock node b); by right.
Qed.

Lemma handle_step e s : harmless s.1 (handle (SK := SK) e s).1.1.
Proof.
  destruct e as [msg|req|now|now]; [| |apply mine_once_step|apply main_mines_step].
  - cbn [handle]. rewrite on_chain_fst. apply onMessage_step.
  - cbn [handle]. destruct s as [bc node]. unfold act_bind, on_chain. cbn [fst].
    pose proof (handleClient_step req bc) as H. by destruct (handleClient req bc) as [bc' [r| | |]].
Qed.

Lemma harmless_reach g bc bc' : node_reachable g bc -> harmless bc bc' -> node_reachable g bc'.
Proof. intros R [->|St]; [done|by eapply node_step_reach]. Qed.

Lemma run_events_reachable g es : forall bc node, node_reachable g bc -> node_reachable g (run_events es (bc, node)).1.1.
Proof.
  induction es as [|e es IH]; intros bc node R; [done|]. cbn [run_events].
  pose proof (harmless_reach g _ _ R (handle_step e (bc, node))) as R1.
  unfold act_bind. destruct (handle e (bc, node)) as [[bc1 node1] [[]| | |]]; try exact R1. by apply IH.
Qed.

Lemma run_requests_reachable g es : forall bc, node_reachable g bc -> node_reachable g (run_requests es bc).1.
Proof.
  induction es as [|[msg|req|now|now] es IH]; intros bc R; cbn [run_requests]; [done|by apply IH| |by apply IH..].
  pose proof (harmless_reach g _ _ R (handleClient_step req bc)) as R1.
  unfold act_bind. destruct (handleClient req bc) as [bc1 [r| | |]]; try exact R1. by apply IH.
Qed.

(** No step shortens the chain. *)
Lemma node_step_grows g bc bc' :
  genesis_ok g -> node_reachable g bc -> node_step bc bc' -> zlen (chain_ bc) <= zlen (chain_ bc').
Proof.
  intros G R St. destruct (reachable_ok g bc G (node_reachable_reachable g bc R)) as [N _ S O _ _].
  destruct St as [tx err _ _|now|b]; [done| |].
  - destruct (apply_all_cases (mempool_ bc) (state_ bc)) as [[s' E]|(s' & E & _)].
    + destruct (mineBlock_success bc s' now N S O E) as (l & before & after & rr & _ & _ & _ & _ & ->).
      cbn. rewrite zlen_app. pose proof (zlen_nonneg [mined bc (blk_hash l) before after rr now]). lia.
    + by rewrite (mineBlock_failure bc s' now S E).
  - destruct (back_hash_last _ N) as (l & El & _). rewrite (addBlock_unfold b bc l El).
    destruct (decide _); [|done]. cbn. rewrite zlen_app. pose proof (zlen_nonneg [b]). lia.
Qed.

Lemma harmless_grows g bc bc' :
  genesis_ok g -> node_reachable g bc -> harmless bc bc' -> zlen (chain_ bc) <= zlen (chain_ bc').
Proof. intros G R [->|St]; [done|by eapply node_step_grows]. Qed.

Lemma run_events_grows g es : forall bc node,
  genesis_ok g -> node_reachable g bc -> zlen (chain_ bc) <= zlen (chain_ (run_events es (bc, node)).1.1).
Proof.
  induction es as [|e es IH]; intros bc node G R; [done|]. cbn [run_events].
  pose proof (handle_step e (bc, node)) as H. pose proof (harmless_reach g _ _ R H) as R1.
  pose proof (harmless_grows g _ _ G R H) as L1.
  unfold act_bind. destruct (handle e (bc, node)) as [[bc1 node1] [[]| | |]]; try exact L1.
  cbn [fst] in *. specialize (IH bc1 node1 G R1). lia.
Qed.

Lemma run_requests_grows g es : forall bc,
  genesis_ok g -> node_reachable g bc -> zlen (chain_ bc) <= zlen (chain_ (run_requests es bc).1).
Proof.
  induction es as [|[msg|req|now|now] es IH]; intros bc G R; cbn [run_requests]; [done|by apply IH| |by apply IH..].
  pose proof (handleClient_step req bc) as H. pose proof (harmless_reach g _ _ R H) as R1.
  pose proof (harmless_grows g _ _ G R H) as L1.
  unfold act_bind. destruct (handleClient req bc) as [bc1 [r| | |]]; try exact L1.
  cbn [fst] in *. specialize (IH bc1 G R1). lia.
Qed.

(** What start-up needs of the other threads. *)
Lemma other_threads_ok g es bc node bc' node' :
  genesis_ok g -> node_reachable g bc -> other_threads es bc node = Ok (bc', node') ->
  node_reachable g bc' /\ zlen (chain_ bc) <= zlen (chain_ bc') /\ (is_Some node' <-> is_Some node).
Proof.
  intros G R E. destruct node as [node|]; cbn [other_threads] in E.
  - pose proof (run_events_reachable g es bc node R) as R1. pose proof (run_events_grows g es bc node G R) as L1.
    destruct (run_events es (bc, node)) as [[bc1 node1] [[]| | |]]; try done. injection E as <- <-. by split_and!.
  - pose proof (run_requests_reachable g es bc R) as R1. pose proof (run_requests_grows g es bc G R) as L1.
    destruct (run_requests es bc) as [bc1 [[]| | |]]; try done. injection E as <- <-. split_and!; try done.
Qed.

Lemma other_threads_none bc node : other_threads [] bc node = Ok (bc, node).
Proof. by destruct node. Qed.

(** Without networking and without the RPC server there are no other threads. *)
Lemma other_threads_off config es :
  enableP2P config = false -> enableRPC config = false -> Forall (fun e => possible config e = true) es -> es = [].
Proof.
  intros P R F. destruct F as [|e es Pe _]; [done|]. destruct e; cbn in Pe; rewrite ?P, ?R in Pe; done.
Qed.

(** C2: the running node. Whatever events follow one another, peers' messages,
    RPC requests, turns of the miner and blocks mined by the main thread in
    any order and number, up to one that throws or is undefined: the only
    things that happen to the chain are blocks mined by it, blocks it accepts
    itself, and transactions put at the end of the pool that
    [validateTransaction] accepted at that very point. So the chain stays
    linked, proved and well formed, keeps its chain id, and, for a genesis
    supply below 2^64, its supply; and every transaction of the pool is for
    this chain, bears a signature that its sender's address recovers from,
    and costs less than 2^64 in all. *)
Theorem node_invariant (g : GenesisConfig) (bc bc' : Blockchain) (node node' : P2PNode SK) (es : list event) (r : res unit) :
  genesis_ok g -> node_reachable g bc -> run_events es (bc, node) = ((bc', node'), r) ->
  node_reachable g bc' /\ chain_ bc' <> [] /\ linked (chain_ bc') /\ state_ok (state_ bc') /\
  chainId_ bc' = gc_chainId g /\ Forall (admitted (gc_chainId g)) (mempool_ bc') /\
  (supply (State_of_genesis g) < 2 ^ 64 -> supply (state_ bc') = supply (State_of_genesis g)).
Proof.
  intros G R E. pose proof (run_events_reachable g es bc node R) as R'. rewrite E in R'. cbn [fst] in R'.
  pose proof (node_pool g bc' G R'). destruct (reachable_ok g _ G (node_reachable_reachable g _ R')). by split_and!.
Qed.

End SystemLemmas.

Lemma node_invariant_witness :
  exists bc' node', @run_events TestSocket.stream TestCurve.curve (nlohmann (FL := TestFloat.floats)) ZkMiningEngine.engine
      [PeerMessage (mkMessage PING []); PeerMessage (mkMessage NEW_TX (Transaction.toHex Sample.signed)); RpcClient (str "GET /")]
      (SampleChain.rich, mkNode 30303 true Sample.key []) = ((bc', node'), Ok ()) /\
    length (mempool_ bc') = 1%nat /\ Forall (@admitted TestCurve.curve 1) (mempool_ bc').
Proof.
  eexists (addTransaction SampleChain.rich Sample.reread), _.
  assert (E : @run_events TestSocket.stream TestCurve.curve (nlohmann (FL := TestFloat.floats)) ZkMiningEngine.engine
      [PeerMessage (mkMessage PING []); PeerMessage (mkMessage NEW_TX (Transaction.toHex Sample.signed)); RpcClient (str "GET /")]
      (SampleChain.rich, mkNode 30303 true Sample.key []) = ((addTransaction SampleChain.rich Sample.reread, mkNode 30303 true Sample.key []), Ok ()))
    by (vm_compute; reflexivity).
  split; [exact E|]. split; [reflexivity|].
  destruct (@node_invariant TestSocket.stream TestCurve.curve (nlohmann (FL := TestFloat.floats)) _ ZkMiningEngine.engine
    SampleChain.rich_genesis SampleChain.rich _ _ _ _ _ SampleChain.rich_valid (node_genesis_reach SampleChain.rich_genesis 1700000000 _ (new_Blockchain_ok _ _ SampleChain.rich_valid)) E)
    as (_ & _ & _ & _ & _ & A & _). exact A.
Defined.

(** ** Lemmas: start-up *)

Section Startup.
Context {SK : Socket} {SC : Secp256k1} {SL : Secp256k1Laws SC} {JL : JsonLib} {JW : JsonLaws JL} {ME : MiningEngine}.

(** The dev key is a valid secret key of the curve. *)
Hypothesis dev_key_valid : ec_seckey_verify devPrivKey = true.

Lemma node_genesis_ok config :
  is_u64 (premineAmount config) ->
  exists coinbase, node_genesis config = Ok (mkGenesisConfig [mkGenesisAccount coinbase (premineAmount config)] (chainId config))
                   /\ addr_ok coinbase.
Proof.
  intros H. unfold node_genesis, fromPrivateKey32. rewrite dev_key_valid. cbn [negb].
  destruct (create_valid _ dev_key_valid) as [pk E].
  destruct (with_public_key devPrivKey) as [kp| | |] eqn:W; try (unfold with_public_key in W; rewrite E in W; discriminate W).
  destruct (with_public_key_ok _ _ dev_key_valid W) as [K _]. cbn [mbind res_bind].
  pose proof (address_defined kp K) as A. rewrite A. cbn [mbind res_bind].
  eexists. split; [reflexivity|]. by apply address_ok in A.
Qed.

Lemma single_supply coinbase amount cid : supply (State_of_genesis (mkGenesisConfig [mkGenesisAccount coinbase amount] cid)) = amount.
Proof.
  unfold State_of_genesis. cbn [foldl gc_premine]. rewrite supply_insert by apply lookup_empty.
  change (amount + 0 = amount). lia.
Qed.

(** With an empty pool, mining appends a block and changes nothing else. *)
Lemma mine_empty g bc now :
  genesis_ok g -> reachable g bc -> mempool_ bc = [] ->
  exists b, mineBlock now bc = (mkBlockchain (chain_ bc ++ [b]) (state_ bc) [] (chainId_ bc), Ok b) /\ blk_receipts b = [].
Proof.
  intros G R M. destruct (reachable_ok g bc G R) as [N _ S O _ _].
  destruct (mineBlock_success bc (state_ bc) now N S O) as (l & before & after & rr & _ & _ & _ & _ & E); [by rewrite M|].
  eexists. split; [exact E|]. cbn. by rewrite M.
Qed.

Lemma announce_ok node b : blk_receipts b = [] -> exists node', announce node b = Ok node' /\ (is_Some node' <-> is_Some node).
Proof.
  intros E. destruct node as [node|]; [|by exists None].
  destruct (broadcast_ok node b E) as [node' En]. exists (Some node'). cbn. rewrite En. split; [done|]. by split.
Qed.

(** Blocks mined while nothing else happens. *)
Lemma mine_blocks_quiet w g n : forall tick bc node,
  (forall i, others w i = []) -> genesis_ok g -> reachable g bc -> mempool_ bc = [] ->
  exists bs node', mine_blocks w n tick bc node = Ok (mkBlockchain (chain_ bc ++ bs) (state_ bc) [] (chainId_ bc), node') /\
    length bs = n.
Proof.
  induction n as [|n IH]; intros tick bc node Q G R M.
  { exists [], node. rewrite app_nil_r, <- M. destruct bc. by split_and!. }
  destruct (mine_empty g bc (clock w tick) G R M) as (b & E & Er).
  destruct (announce_ok node b Er) as (node1 & En & I1).
  set (bc1 := mkBlockchain (chain_ bc ++ [b]) (state_ bc) [] (chainId_ bc)) in *.
  assert (R1 : reachable g bc1).
  { eapply reach_step; [exact R|]. pose proof (step_mineBlock bc (clock w tick)) as St. by rewrite E in St. }
  destruct (IH (S tick) bc1 node1 Q G R1 eq_refl) as (bs & node' & Eb & L).
  exists (b :: bs), node'. cbn [mine_blocks]. rewrite Q, other_threads_none. cbn [mbind res_bind].
  rewrite E. cbn [mbind res_bind]. rewrite En. cbn [mbind res_bind].
  rewrite Eb. cbn [bc1 chain_ state_ chainId_]. rewrite <- app_assoc. split; [done|]. by cbn; rewrite L.
Qed.

(** Blocks mined among whatever the other threads do. *)
Lemma mine_blocks_grow w g n : forall tick bc node bc' node',
  genesis_ok g -> node_reachable g bc -> mine_blocks w n tick bc node = Ok (bc', node') ->
  node_reachable g bc' /\ zlen (chain_ bc) + Z.of_nat n <= zlen (chain_ bc') /\ (is_Some node' <-> is_Some node).
Proof.
  induction n as [|n IH]; intros tick bc node bc' node' G R E; cbn [mine_blocks] in E.
  { injection E as <- <-. split_and!; [done|lia|done]. }
  apply bind_Ok in E as ([bc1 node1] & E1 & E). destruct (other_threads_ok g _ _ _ _ _ G R E1) as (R1 & L1 & I1).
  pose proof (node_mine bc1 (clock w tick)) as St. pose proof (node_step_reach g _ _ R1 St) as R2.
  assert (L2 : forall b, (mineBlock (clock w tick) bc1).2 = Ok b -> zlen (chain_ bc1) + 1 = zlen (chain_ (mineBlock (clock w tick) bc1).1)).
  { intros b Eb. destruct (reachable_ok g bc1 G (node_reachable_reachable g bc1 R1)) as [N _ S O _ _].
    destruct (apply_all_cases (mempool_ bc1) (state_ bc1)) as [[s' Ea]|(s' & Ea & _)].
    - destruct (mineBlock_success bc1 s' (clock w tick) N S O Ea) as (l & before & after & rr & _ & _ & _ & _ & ->).
      cbn. by rewrite zlen_app.
    - rewrite (mineBlock_failure bc1 s' _ S Ea) in Eb. done. }
  destruct (mineBlock (clock w tick) bc1) as [bc2 mined]. cbn [fst snd] in *.
  apply bind_Ok in E as (b & Eb & E). apply bind_Ok in E as (node2 & En & E). specialize (L2 b Eb).
  destruct (IH _ _ _ _ _ G R2 E) as (R3 & L3 & I3). split; [done|]. split; [lia|]. rewrite I3, <- I1.
  destruct node1 as [node1|]; cbn in En; [apply bind_Ok in En as (node3 & _ & En)|]; injection En as <-; by split.
Qed.


End Startup.

(** A node with networking off that mines three blocks. *)
Definition sample_args : list std_string := [str "--no-p2p"; str "--mine-blocks=3"; str "--chain-id=7"].

Definition sample_world : @World TestSocket.stream := mkWorld Z.of_nat default_keypair (fun _ => None) (fun _ => None) (fun _ => []).

